(* ===== verification/_CoqProject ===== *)
-Q . S2P
Prelude.v
Bytes.v
Plan.v
Tree.v
Events.v
Indexer.v
Ingest.v
Zq.v
Tss.v
Dkg.v
Compliance.v
Frost.v
Keys.v
Address.v
Trace.v
Mint.v
Circuits.v
State.v
Keyring.v
Discovery.v
Preflight.v
SelfMint.v
Assemble.v
Multisig.v
Gap.v
Scan.v
MultisigScan.v
GroupScan.v
Coordinator.v
Solana.v
TxBuilder.v
Prover.v
Pool.v
Client.v
Text.v
Session.v
Ceremony.v
GroupCircuits.v
GroupTransfer.v
Web.v
Treasury.v
Claim.v
