(* ===== verification/Prelude.v ===== *)
(** * Verification of the Kakure client

    Kakure is a shielded pool on Solana: notes are leaves of a Poseidon Merkle
    tree, spending a note publishes its nullifier, groups of signers spend
    through FROST, and a compliance committee can open notes by threshold
    decryption.  This library models the TypeScript that carries that logic:
    the SDK ([packages/sdk]), the proof codec ([packages/prover],
    [packages/helper]), the indexer ([packages/indexer]), the message
    coordinator ([packages/coordinator]), the command line client's group
    ceremonies and proposals ([packages/cli]) and the treasury of the web
    application ([apps/web]); the Noir circuits; and of the Rust program what the
    TypeScript has to agree with, with its proof-carrying handlers up to the call
    of the verifier.  All paths below are under [src/].

    ** How the parts interact

    The indexer reads the signatures of the pool program ([Ingest]), attributes
    and decodes the log lines of each transaction ([Events]), stores the events
    ([Indexer.Store]), keeps a mirror of the Merkle tree ([Tree.Mirror]) and
    serves roots, notes and paths ([Indexer.Api]).

    A wallet derives its keys from one signature ([Keys], [Address]), scans the
    indexer's feed by trial decryption up to a gap limit ([Gap], [Scan]), keeps
    what it finds ([State.KeyRepo], [State.Utxo]), plans a payment as a chain of
    spends ([Plan]) and obtains a Merkle path for each input ([Tree.Witness]).
    The one-time keys of its outputs come from durable counters
    ([State.Counter], [State.Reconcile]); a preflight asks private discovery
    ([Discovery]) that such a key was never used and issues a handle
    ([Preflight]), which one assembly consumes ([SelfMint], [Assemble]).  The
    assembled inputs go to the prover and satisfy the circuit ([Circuits]); the
    proof and the public inputs come back as two files, are packed ([Prover])
    and become an instruction that the program decodes ([Solana], [TxBuilder])
    and checks, inserting the new leaves and creating the nullifiers before it
    calls the verifier ([Pool]).

    A group announces itself over the coordinator, deals shares in sealed boxes
    and ends with one key ([Ceremony], on [Dkg]); its notes are derived and
    scanned by every member ([Multisig], [MultisigScan], [GroupScan]); a spend
    is assembled and posted as text ([GroupTransfer]), signed and aggregated over
    a sealed session ([Session], on [Frost]), and satisfies a circuit that checks
    the signature ([GroupCircuits]).  A payroll ([Web.Payroll]) is a batch of such
    spends, each of the change of the one before ([Treasury]); the links that
    invite, ask for and hand over a payment are text ([Web.Token]), and the
    recipient scans with a view key and withdraws with the wallet ([Claim]).  The client's
    calls ([Client]) reach the coordinator's endpoints and store
    ([Client.Server], [Coordinator]); payloads are JSON ([Text]).  The committee
    recovers a note's content key from verified partial decryptions
    ([Compliance]) under the key that the history of rotations assigns to the
    note ([Keyring]), and follows the spend graph both ways ([Trace]).

    ** Files

    - [Prelude]: results, the state-and-exception monad, JavaScript's stable
      sort ([js_sort]), sums, and the list lemmas, tactics and hints shared by
      the components.  [Bytes]: byte strings, hexadecimal text and the 32-bit
      conversion of the bitwise operators.  [Zq]: polynomials and Lagrange
      interpolation modulo a prime.  [Text]: JSON values, [BigInt], and the
      class of the runtime's serialisers.
    - [Plan.Plan]: [packages/sdk/src/tx/plan.ts].  [forAsset], [bestFit],
      [minimalCover], [planSpend], [spendableBalance].  The abstract
      specification is a ledger of notes on which the steps of a plan are
      executed ([exec_steps]).
    - [Tree]: [Sdk] is [packages/sdk/src/merkle/LeanIMT.ts], [Mirror] is
      [packages/indexer/src/tree/leanImt.ts], [Witness] is
      [packages/sdk/src/tx/witnessSources.ts].  [Spec.lvl] is the specification:
      the levels of the tree over a list of leaves; [sdk_repr] and [mirror_repr]
      are the refinement relations that insertion preserves.
    - [Events]: [packages/indexer/src/events]: [LogScope] (logScope.ts),
      [Decode] (decode.ts), [Domain] (types.ts, idl.ts); and [FieldHex], the hex
      codec of [packages/indexer/src/tree/poseidonV1.ts].  [Indexer]: [Store] is
      [packages/indexer/src/db/store.ts], [Api] the read endpoints of
      [packages/indexer/src/api/server.ts].  [Ingest.Ingest]:
      [packages/indexer/src/ingest], its state the store, the mirror and the
      halt latch.
    - [Tss]: [Bjj], [Shamir] and [Vss] are the files of those names in
      [packages/sdk/src/tss].  [Dkg]: [Hash] (domains.ts, hashToScalar.ts),
      [Dkg] (dkg.ts) and [Gjkr] (gjkr.ts) there.  [Compliance]: [Cp] is
      [tss/chaumPedersen.ts], [Compliance] is [threshold/compliance.ts],
      [GroupSecret] is [tss/groupSecret.ts].
    - [Frost]: [Frost] is [packages/sdk/src/frost/frost.ts] over the class
      [Ciphersuite] (ciphersuite.ts); [BjjSuite] is [ciphersuites/bjj.ts] with
      the message encoding of [message.ts].
    - [Keys]: [note/keys.ts] with [crypto/Kdf.ts]; [Fields] has the square root.
      [Address]: [address.ts] and the key hierarchy of [keys/SolanaAccount.ts].
      [Mint]: [crypto/kem.ts], [crypto/dem.ts], [note/mint.ts].  [Trace]: [Note]
      is [note/note.ts] and [note/nullifier.ts], [Trace] is
      [threshold/chainTrace.ts].  [Keyring]: [note/complianceKeys.ts].
    - [State]: [Counter] (EphemeralCounterStore.ts and
      PersistentEphemeralCounterStore.ts), [Reconcile]
      ([discovery/reconcile.ts]), [KeyRepo] (KeyRepository.ts) and [Utxo]
      (UtxoRepository.ts) of [packages/sdk/src/state].
    - [Discovery]: [discovery/codec.ts] and [reconstruct.ts].  [Preflight]:
      [discovery/preflight.ts] and [types/ephemeral.ts], an object being its
      identity; [SelfMint] interleaves preflights, consumptions and the other
      operations of a wallet.
    - [Circuits]: the standard circuits of [circuits/standard] and
      [circuits/shared].  [Assemble]: [tx/assemble.ts], and the prover's
      [marshal.ts] and [circuits/builders.ts].
    - [Gap]: what the two scanners share.  [Scan]: [sync/NoteProcessor.ts] and
      [sync/ScanEngine.ts].  [Multisig]: [frost/multisigNote.ts] and
      [groupViewKey.ts].  [MultisigScan]: [frost/multisigScan.ts] and the group
      engine; [GroupScan] has its theorems.
    - [Solana]: [solana/borsh.ts], [poolAccounts.ts], [pda.ts], [assetId.ts],
      [recipientField.ts], with the accessors of the program's state.
      [TxBuilder]: [solana/txBuilder.ts] and [tx/ports.ts] against the
      decoding of the program's instructions.  [Prover]: [decode.ts],
      [compress.ts], the end of [prove.ts], the program's [verify.rs] and the
      helper's [wire.ts].  [Pool]: the handlers of the program
      ([programs/kakure_pool], processor.rs with merkle.rs, pda.rs and the rest of
      state.rs), on a state of accounts and a log; [PoolSpec] has their theorem.
    - [Coordinator.Coordinator]: [packages/coordinator/src/db/store.ts].
      [Client]: [Server] is [schema.ts] and [api/server.ts] of the coordinator,
      [Client] is [packages/cli/src/coordinatorClient.ts].
    - [Session]: [Seal] is [crypto/sessionSeal.ts], [Proposal] is
      [proposal/proposal.ts] and [proposal/execute.ts] of [packages/cli/src].
      [Ceremony]: [Box] is [crypto/seal.ts], [PublicShare] and [Ceremony] are
      [dkg/publicShare.ts], [dkg/ceremony.ts] and [commands/group.ts]; its
      functions [enroll], [deal] and [conclude] are the stretches of
      [runDkgCeremony] between two waits.
    - [GroupCircuits]: the circuits of [circuits/multisig], with
      [multisig/frost.nr] and the group's parts of [spend.nr] and [mint.nr].
      [GroupTransfer]: [GroupMarshal] has the multisig builders of
      [circuits/builders.ts]; [GroupTransfer] is
      [proposal/assembleTransferMultisig.ts] and
      [proposal/transferMultisigProposal.ts] of [packages/cli/src].
    - [Web]: [Token] is [receiveAddress.ts], [claimToken.ts] and the invites of
      [treasury.ts]; [Payroll] is [payrollPlan.ts]; [Keystore] is [keystore.ts],
      with the command line's; [Balance] the totals of [multisigScan.ts] and
      [singleKeyScan.ts]; all of [apps/web/src/lib].  [Treasury.Flows]:
      [treasuryFlows.ts] there, and the batch of [routes/TreasuryPage.tsx].
      [Claim]: [WebCounter] is [ephemeralCounters.ts], [ViewOnly]
      [viewOnlyAccount.ts], [ScanOnly] [scanOnlyRepositories.ts] and [Claim]
      [claimFlows.ts] there.

    Definitions keep the names of the source.  A pure function is a function; a
    function that throws returns a [result]; a method of an object is a
    computation of the monad [M] over the record of the object's fields, so that
    a throw keeps what was written before it.  A loop is a [Fixpoint] with the
    loop's name.  Field elements and bigints are [Z] with the reductions written
    out; numbers are [Z], within the safe range unless said otherwise; an
    [async] method is its body, run to completion, since the classes that need
    it serialise their calls behind a promise lock.  What happens between two
    requests of the coordinator's client is explicit: the other members' requests
    are a schedule of turns ([Client.World]).

    ** What the theorems show

    - Tree: a path produced by the SDK's tree folds to its root; the two
      incremental trees are equal after any insertions; a path the indexer
      serves is accepted and equals the local one.
    - Ingestion: from an in-sync state, one backfill of a chain history leaves
      the store and the mirror holding exactly the chain's notes and its root;
      a restart rebuilds the same mirror; a truncated log halts before anything
      is written.  Log lines are attributed to the program that emitted them
      for every well-bracketed log, and a pool event's line decodes to the event.
      The root ring wraps into a state that no longer reports new roots.
    - Planning: [planSpend] succeeds exactly up to the advertised [withPlan]
      amount; an accepted plan executes, conserves value, and uses the fewest
      steps; its errors are characterised.
    - Assembly: whatever an assembly returns is accepted by its circuit with
      the expected public outputs, conserves value and binds owner and parents;
      over the life of a wallet or a group member no one-time key reaches two
      assemblies, and a handle is issued only for a key that discovery answered
      as free.
    - Scanning: a sync finds every note of the wallet or group within the gap
      limit, in any order of the feed, adds only well-formed notes of its own,
      and its reach is bounded by the passes that it makes.
    - From proof to program: the bundle of the prover's files reaches the
      verifier unchanged; an instruction that is built decodes to the same proof
      and inputs and, in a transaction that meets the handler's checks and before
      the root ring has moved on, inserts its leaves, spends its nullifiers and
      gets its proof and public inputs to the registered verifier; the refusals
      of the builders are characterised.
    - Threshold cryptography: interpolation returns the secret; Feldman
      verification accepts exactly the right share; honest distributed key
      generation ends in agreement, and the Pedersen-first protocol disqualifies
      exactly the dealers whose complaints are upheld; a FROST round completes
      and verifies in any order of the partials, an aborted one names a signer
      whose share is wrong, and a nonce signs once; committee decryption
      succeeds at exactly the threshold of distinct valid members.
    - Group sessions: appending under contention writes once and, when the body is
      within the server's limit, succeeds within its attempts, collecting returns the log; members that read the same
      announces enrol the same list; members that conclude from the same honest
      messages hold shares of one key, with the public shares that signing needs;
      a signer that returns has contributed to the proposal it read, and an
      aggregation that finds its proposal on the log returns, once enough members
      answer in time, a signature that verifies.
      What a proposer assembles and posts is read back by any member and, once
      signed, accepted by the circuit; the circuit's signature check is the
      wallet's [verify], and an accepted group transfer keeps value and asset and
      was signed as it is published.
      Where the sessions are weaker than that (late commitments, dealers of a
      higher degree, boxes that differ, repeated messages) the witness modules
      run the counterexample.
    - Wallet state: reservations never overlap in any history, one-time indices
      are never issued twice across restarts and restores, a restored wallet
      recognises every tag issued before below the million its restore reaches; the note repository is the history
      of its operations.
    - Tracing: both traversals terminate on any chain state, return exactly the
      reachable part of the graph, and every edge is justified by an opened
      commitment at its child or its spender.
    - Treasury: a batch confirms a prefix of its rows from one note, each payment
      spending the change of the one before and provable once signed, and at most
      one further transfer, of the row shown as failed, was handed to the network;
      no ephemeral repeats within a batch; two batches share their first.  Accepted
      payrolls pay positive amounts to addresses that decode; links and records
      round trip, and the command line opens what the browser encrypts.
    - Claims: the withdrawal that the page assembles satisfies its circuit; the
      read-only account and repositories answer a scan as the wallet's do; the
      counter that the page keeps as text grants what one in-memory counter would.
    - Key history and coordinator: the certified histories are exactly the
      well-formed ones; the coordinator keeps every session contiguous.

    ** Fuel and bounds

    [Trace.traverse_loop] is given a fuel computed from the size of the leaf
    range, proved enough in [traces_complete]; [Frost.euclid_loop] has
    [euclid_fuel], proved enough for every operand by [modInverse_spec];
    [Bjj.pow_loop] recurses on the bits of its exponent; the loops of the
    square root run on fuel that [sqrtP_spec] proves enough.  The other loops
    keep the source's own limits: the rolls to an even point (256, and
    [MAX_INDEX_ROLL]), the domain counter of the point derivation, the passes of
    a sync (64), the attempts of an append (20) and the rounds of a collection
    (40 unless given), the attempts of a row (5).  The preflight's loop, which has
    none, is given one round more than [MAX_PREFLIGHT_CANDIDATES];
    [take_authorizes] proves that it ends within them.  [KEY_BOUND] bounds the indices at which the key
    derivations are assumed to yield distinct tags.

    ** What is assumed

    The third-party code is a class, with its laws: [BabyJubjub] and
    [BabyJubjubLaws] (the group laws of the prime-order subgroup of
    @zk-kit/baby-jubjub; with the inverse of the cofactor [eight_inv] in the
    circuits), [Ciphersuite] and [CiphersuiteLaws], [Poseidon2] and [PoseidonV1]
    (any functions; [Poseidon2Field] says that a hash is a field element; that no
    node of a tree is zero, which both trees read as an empty slot, is a
    condition on the tree, [Tree.Spec.no_zero_node]), [AddressCodec] (point packing and Base58Check), [NodeBuffer]
    (base64 and UTF-8 decoding), [Browser] ([atob] and the strict decoder),
    [Scrypt] (the length of a key), [CurveSub] (the subtraction of the circuits'
    curve library), [Text] (JSON, UTF-8 and base64 round trips),
    [Aead] and [Curve25519] (a box opens under its key, the Diffie-Hellman
    secret is symmetric, a signature verifies), [Sha256], the web3.js calls,
    [Bn254] (point decompression) and [Syscalls] with [SyscallLaws] (the Poseidon
    syscall maps field elements to a field element; whether the system program
    funds and allocates an account is any).  [EphemeralCounterStore] with [CounterLaws] is
    proved of the three stores of the source; [AllocatorLaws] of the key
    repository and of the group allocator; [GapLaws] of both scanners.  The RPC
    ([ChainSource]), the chain ([ChainState]), the discovery service and
    decryption hooks are any.  The tags of the keys in a scan are assumed
    distinct.  Each set of laws is satisfied by a toy instance, on which the
    witnesses evaluate.  Randomness is an argument.  No theorem is about secrecy
    or unforgeability.

    ** Not modelled

    HTTP servers beyond the modelled endpoints, terminal, browser, worker,
    WebAssembly and process plumbing; files; wallet adapters; of the web
    application what calls the modelled functions around user interface state,
    and what lies between the assembly of a row and the report of its change,
    which is an argument with three outcomes in [Treasury] (not sent, handed to
    the network, confirmed); the chain view, error tables and address lookup
    tables of [packages/sdk/src/solana], which parse the answers of web3.js; the
    Ristretto ciphersuite, a second instance of [Ciphersuite]; of the Rust program the
    administrator's instructions, and the asset registry and token transfers that
    follow the verifier's call.  *)
From Stdlib Require Export ZArith Lia ZifyNat Permutation Sorted Ascii.
From stdpp Require Export base tactics numbers list sorting gmap strings.

#[global] Set Default Goal Selector "!".

(** ** Results: a JavaScript function returns a value or throws *)

Inductive result (E A : Type) : Type :=
  | Ok (a : A)
  | Err (e : E).
Arguments Ok {E A} a.
Arguments Err {E A} e.

#[export] Instance result_ret {E} : MRet (result E) := fun A a => Ok a.
#[export] Instance result_bind {E} : MBind (result E) := fun A B f r =>
  match r with Ok a => f a | Err e => Err e end.
#[export] Instance result_fmap {E} : FMap (result E) := fun A B f r =>
  match r with Ok a => Ok (f a) | Err e => Err e end.

#[export] Instance result_eq_dec {E A} `{EqDecision E, EqDecision A} :
  EqDecision (result E A).
Proof.
  intros [a|e] [a'|e']; try (right; discriminate).
  - destruct (decide (a = a')) as [->|]; [by left|right; congruence].
  - destruct (decide (e = e')) as [->|]; [by left|right; congruence].
Defined.

Definition is_ok {E A} (r : result E A) : bool :=
  match r with Ok _ => true | Err _ => false end.

Definition map_err {E E' A} (f : E → E') (r : result E A) : result E' A :=
  match r with Ok a => Ok a | Err e => Err (f e) end.

(** [guard_err b e]: [if (!b) throw e]. *)
Definition guard_err {E} (b : bool) (e : E) : result E unit :=
  if b then Ok tt else Err e.

Lemma bind_Ok {E A B} (r : result E A) (f : A → result E B) b :
  r ≫= f = Ok b ↔ ∃ a, r = Ok a ∧ f a = Ok b.
Proof. destruct r; simpl; naive_solver. Qed.

Lemma bind2_cases {E A B C} (m : result E A) (f : A → result E B) (g : A → B → C) :
  let r := (a ← m; b ← f a; Ok (g a b)) in
  (∃ e, m = Err e ∧ r = Err e) ∨
  ∃ a, m = Ok a ∧ ((∃ e, f a = Err e ∧ r = Err e) ∨ ∃ b, f a = Ok b ∧ r = Ok (g a b)).
Proof.
  cbv zeta. destruct m as [a|e]; simpl; [|by eauto]. right. exists a. split; [done|].
  destruct (f a) as [b|e]; simpl; eauto.
Qed.

Lemma guard_err_Ok {E} (b : bool) (e : E) u :
  guard_err b e = Ok u ↔ b = true.
Proof. destruct b, u; simpl; naive_solver. Qed.

(** [pass_guard] discharges the condition of a leading [if] that must hold. *)
Ltac pass_guard :=
  match goal with
  | |- context [if ?b then _ else _] =>
      assert (b = true) as ->;
      [ repeat (apply andb_true_intro; split);
        first [ done | lia | apply bool_decide_eq_true_2; first [done | lia] ]
      | ]
  end.

(** [lia] with the quotients and remainders by constants unfolded. *)
Ltac divlia := zify; Z.to_euclidean_division_equations; lia.

(** [mapM] specialised to results. *)
Fixpoint map_res {E A B} (f : A → result E B) (l : list A) : result E (list B) :=
  match l with
  | [] => Ok []
  | x :: l => y ← f x; ys ← map_res f l; Ok (y :: ys)
  end.

(** ** A state-and-exception monad

    A method that throws part-way keeps the mutations made so far, so the
    state is returned with the error as well. *)
Definition M (S E A : Type) : Type := S → S * result E A.

#[export] Instance M_ret {S E} : MRet (M S E) := λ A a s, (s, Ok a).
#[export] Instance M_bind {S E} : MBind (M S E) := λ A B f m s,
  match m s with (s, Ok a) => f a s | (s, Err e) => (s, Err e) end.

Definition throw {S E A} (e : E) : M S E A := λ s, (s, Err e).
Definition get {S E} : M S E S := λ s, (s, Ok s).
Definition modify {S E} (f : S → S) : M S E unit := λ s, (f s, Ok tt).
(** A result of another error type, its error injected by [inj]. *)
Definition lift {S E E' A} (inj : E' → E) (r : result E' A) : M S E A :=
  λ s, (s, match r with Ok a => Ok a | Err e => Err (inj e) end).

(** Successful computations, read backwards. *)
Lemma M_bind_Ok {S E A B} (m : M S E A) (f : A → M S E B) s s' b :
  (m ≫= f) s = (s', Ok b) ↔ ∃ s1 a, m s = (s1, Ok a) ∧ f a s1 = (s', Ok b).
Proof.
  unfold mbind, M_bind. destruct (m s) as [s1 [a|e]]; split; [eauto|naive_solver|done|naive_solver].
Qed.
Lemma lift_Ok {S E E' A} (inj : E' → E) (r : result E' A) (s s' : S) a :
  lift inj r s = (s', Ok a) ↔ s' = s ∧ r = Ok a.
Proof. unfold lift. destruct r; naive_solver. Qed.
Lemma map_err_Ok {E E' A} (f : E → E') (r : result E A) a : map_err f r = Ok a ↔ r = Ok a.
Proof. destruct r; naive_solver. Qed.

(** What a computation of [M] establishes: from a state of [P] it ends in [Q] of
    its result or in [R] of its error. *)
Definition hoare {S E A} (P : S → Prop) (m : M S E A) (Q : A → S → Prop) (R : E → S → Prop) : Prop :=
  ∀ s, P s → match m s with (s', Ok a) => Q a s' | (s', Err e) => R e s' end.

Section hoare.
Context {S E A B : Type} (P P' : S → Prop) (Q Q' : A → S → Prop) (R R' : E → S → Prop).

Lemma hoare_ret (a : A) : (∀ s, P s → Q a s) → hoare P (mret a : M S E A) Q R.
Proof. intros H s. apply H. Qed.
Lemma hoare_throw e : (∀ s, P s → R e s) → hoare P (throw e) Q R.
Proof. intros H s. apply H. Qed.
Lemma hoare_bind (m : M S E A) (f : A → M S E B) (Q'' : B → S → Prop) :
  hoare P m Q R → (∀ a, hoare (Q a) (f a) Q'' R) → hoare P (m ≫= f) Q'' R.
Proof.
  intros Hm Hf s Hs. specialize (Hm s Hs). unfold mbind, M_bind.
  destruct (m s) as [s' [a|e]]; [exact (Hf a s' Hm)|exact Hm].
Qed.
Lemma hoare_conseq m : hoare P' m Q' R' → (∀ s, P s → P' s) → (∀ a s, Q' a s → Q a s) →
  (∀ e s, R' e s → R e s) → hoare P m Q R.
Proof. intros H ? HQ HR s Hs. specialize (H s ltac:(auto)). destruct (m s) as [? []]; auto. Qed.
Lemma hoare_lift {E'} (inj : E' → E) (r : result E' A) :
  (∀ s, P s → match r with Ok a => Q a s | Err e => R (inj e) s end) → hoare P (lift inj r) Q R.
Proof. intros H s Hs. specialize (H s Hs). unfold lift. by destruct r. Qed.
Lemma hoare_modify g (Q0 : unit → S → Prop) : (∀ s, P s → Q0 tt (g s)) → hoare P (modify g : M S E unit) Q0 R.
Proof. intros H s. apply H. Qed.
Lemma hoare_at s0 m : P s0 → hoare P m Q R → hoare (λ s, s = s0) m Q R.
Proof. intros Hs0 H s ->. exact (H s0 Hs0). Qed.
(** The state that [get] reads. *)
Lemma hoare_get (f : S → M S E A) :
  (∀ s0, P s0 → hoare (λ s, s = s0) (f s0) Q R) → hoare P (get ≫= f) Q R.
Proof. intros H s Hs. exact (H s Hs s eq_refl). Qed.
End hoare.

(** ** Sums of integer-valued functions over lists *)

Definition sumZ {A} (f : A → Z) (l : list A) : Z := foldr (λ x acc, (f x + acc)%Z) 0%Z l.

Section sumZ.
Context {A : Type} (f : A → Z).
Local Open Scope Z_scope.

Lemma sumZ_nil : sumZ f [] = 0.
Proof. done. Qed.
Lemma sumZ_cons x l : sumZ f (x :: l) = f x + sumZ f l.
Proof. done. Qed.
Lemma sumZ_app l1 l2 : sumZ f (l1 ++ l2) = sumZ f l1 + sumZ f l2.
Proof. induction l1; simpl; lia. Qed.
Lemma sumZ_perm l1 l2 : l1 ≡ₚ l2 → sumZ f l1 = sumZ f l2.
Proof. induction 1; simpl; lia. Qed.
Lemma sumZ_nonneg l : Forall (λ x, 0 <= f x) l → 0 <= sumZ f l.
Proof. induction 1; simpl; lia. Qed.
Lemma sumZ_reverse l : sumZ f (reverse l) = sumZ f l.
Proof. apply sumZ_perm. by rewrite reverse_Permutation. Qed.
Lemma foldl_sumZ l a : foldl (λ acc x, acc + f x) a l = a + sumZ f l.
Proof. revert a. induction l as [|x l IH]; intros a; simpl; [lia|]. rewrite IH. lia. Qed.
Lemma sumZ_sublist l1 l2 :
  Forall (λ x, 0 <= f x) l2 → l1 `sublist_of` l2 → sumZ f l1 <= sumZ f l2.
Proof.
  intros Hp Hs. induction Hs; [simpl; lia | |]; inversion Hp; subst; simpl;
    specialize (IHHs ltac:(done)); lia.
Qed.
End sumZ.
Create Rewrite HintDb sumZ.
#[export] Hint Rewrite @sumZ_nil @sumZ_cons @sumZ_app @sumZ_reverse : sumZ.

(** ** Array.prototype.sort: the stable sort for a comparator *)

Fixpoint insert_by {A} (cmp : A → A → Z) (x : A) (l : list A) : list A :=
  match l with
  | [] => [x]
  | y :: l' => if (cmp x y <=? 0)%Z then x :: y :: l' else y :: insert_by cmp x l'
  end.

Definition js_sort {A} (cmp : A → A → Z) (l : list A) : list A := foldr (insert_by cmp) [] l.

Section js_sort.
Context {A : Type} (cmp : A → A → Z).
Local Open Scope Z_scope.

Lemma insert_by_perm x l : insert_by cmp x l ≡ₚ x :: l.
Proof.
  induction l as [|y l IH]; simpl; [done|]. case_match; [done|].
  rewrite IH. apply Permutation_swap.
Qed.
Lemma js_sort_perm l : js_sort cmp l ≡ₚ l.
Proof. induction l as [|x l IH]; simpl; [done|]. by rewrite insert_by_perm, IH. Qed.
Lemma js_sort_length l : length (js_sort cmp l) = length l.
Proof. apply Permutation_length, js_sort_perm. Qed.

Context (Htot : ∀ x y, ~ (cmp x y <= 0) → cmp y x <= 0).
Context (Htrans : ∀ x y z, cmp x y <= 0 → cmp y z <= 0 → cmp x z <= 0).

Lemma insert_by_sorted x l :
  StronglySorted (λ a b, cmp a b <= 0) l →
  StronglySorted (λ a b, cmp a b <= 0) (insert_by cmp x l).
Proof.
  induction 1 as [|y l Hs IH Hall]; simpl; [repeat constructor|].
  destruct (Z.leb_spec (cmp x y) 0) as [Hle|Hgt].
  - constructor; [by constructor|]. constructor; [done|].
    eapply Forall_impl; [done|]. eauto.
  - constructor; [done|]. rewrite (insert_by_perm x l). constructor; [|done].
    apply Htot. lia.
Qed.
Lemma js_sort_sorted l : StronglySorted (λ a b, cmp a b <= 0) (js_sort cmp l).
Proof. induction l as [|x l IH]; simpl; [constructor|]. by apply insert_by_sorted. Qed.
End js_sort.

(** ** ORDER BY over integer keys *)
Definition order_by {A} (key : A → Z) (l : list A) : list A :=
  js_sort (λ a b, (key a - key b)%Z) l.

Section order_by.
Context {A : Type} (key : A → Z).
Lemma order_by_perm l : order_by key l ≡ₚ l.
Proof. apply js_sort_perm. Qed.
Lemma order_by_sorted l : StronglySorted Z.le (key <$> order_by key l).
Proof.
  assert (Hs : StronglySorted (λ a b, (key a - key b <= 0)%Z) (order_by key l)).
  { apply js_sort_sorted; lia. }
  induction Hs as [|a s Hs IH Hf]; simpl; constructor; [done|].
  apply Forall_fmap. eapply Forall_impl; [exact Hf|]. simpl. lia.
Qed.
End order_by.

(** ** Prefix and suffix facts shared by the list components *)
Section take_drop.
Context {A : Type}.
Lemma take_reverse (l : list A) n :
  n ≤ length l → reverse (take n (reverse l)) = drop (length l - n) l.
Proof.
  intros Hn. rewrite <- (take_drop (length l - n) l) at 1. rewrite reverse_app.
  rewrite take_app_length'; [by rewrite reverse_involutive|].
  rewrite length_reverse, length_drop. lia.
Qed.
Lemma sublist_fmap {B} (f : A → B) l k : l `sublist_of` k → f <$> l `sublist_of` f <$> k.
Proof. induction 1; simpl; by constructor. Qed.
Lemma list_alter_insert (f : A → A) (l : list A) (i : nat) x : l !! i = Some x → alter f i l = <[i := f x]> l.
Proof.
  intros Hl. apply list_eq. intros j. destruct (decide (i = j)) as [->|Hne].
  - rewrite list_lookup_alter_eq, Hl, list_lookup_insert_eq; [done|].
    by eapply lookup_lt_Some.
  - by rewrite list_lookup_alter_ne, list_lookup_insert_ne.
Qed.
End take_drop.

(** A weaker predicate keeps at least as many elements, and strictly more with a
    new one among them. *)
Section filter_length.
Context {A : Type} (P Q : A → Prop) `{∀ x, Decision (P x)} `{∀ x, Decision (Q x)} (HPQ : ∀ x, P x → Q x).
Lemma filter_length_le l : length (filter P l) <= length (filter Q l).
Proof.
  induction l as [|x l IH]; [done|]. rewrite !filter_cons.
  destruct (decide (P x)) as [Hp|]; [rewrite decide_True by auto; simpl; lia|].
  destruct (decide (Q x)); simpl; lia.
Qed.
Lemma filter_length_lt l x : x ∈ l → Q x → ~ P x → length (filter P l) < length (filter Q l).
Proof.
  intros (l1 & l2 & ->)%list_elem_of_split Hq Hp. rewrite !filter_app, !length_app, !filter_cons.
  destruct (decide (P x)) as [|_]; [done|]. destruct (decide (Q x)) as [_|]; [|done].
  pose proof (filter_length_le l1). pose proof (filter_length_le l2). simpl. lia.
Qed.
End filter_length.

Lemma NoDup_fmap_inj_on {A B} (f : A → B) l x y :
  NoDup (f <$> l) → x ∈ l → y ∈ l → f x = f y → x = y.
Proof.
  intros Hd [i Hi]%list_elem_of_lookup [j Hj]%list_elem_of_lookup E.
  assert (i = j) as ->; [|congruence].
  eapply (NoDup_lookup (f <$> l)); [done| |]; rewrite list_lookup_fmap.
  - by rewrite Hi.
  - by rewrite Hj, E.
Qed.

(** A map filled in a loop with values that depend on the key only. *)
Lemma foldl_insert_lookup {A B} (key : A → Z) (f : Z → B) (l : list A) (i : Z) :
  i ∈ key <$> l →
  foldl (λ m x, <[key x := f (key x)]> m) (∅ : gmap Z B) l !! i = Some (f i).
Proof.
  induction l as [|x l IH] using rev_ind; [by intros ?%not_elem_of_nil|].
  rewrite fmap_app, foldl_snoc, elem_of_app. cbn [fmap list_fmap]. rewrite list_elem_of_singleton.
  destruct (decide (i = key x)) as [->|Hne]; [by rewrite lookup_insert_eq|].
  rewrite lookup_insert_ne by done. intros [Hi|]; [by apply IH|done].
Qed.

(** [Number.isSafeInteger] on an integer. *)
Definition MAX_SAFE : Z := (2 ^ 53 - 1)%Z.
Definition isSafeInteger (x : Z) : bool := ((- MAX_SAFE <=? x) && (x <=? MAX_SAFE))%Z.

Lemma StronglySorted_mono {A} (R R' : relation A) (l : list A) :
  (∀ x y, R x y → R' x y) → StronglySorted R l → StronglySorted R' l.
Proof. intros HR. induction 1 as [|x l _ IH Hx]; constructor; [done|]. eapply Forall_impl; [exact Hx|]. apply HR. Qed.
Lemma StronglySorted_reverse {A} (R : relation A) (l : list A) :
  StronglySorted R l → StronglySorted (flip R) (reverse l).
Proof.
  induction 1 as [|x l _ IH Hall]; [constructor|]. rewrite reverse_cons.
  apply StronglySorted_app_2; [|done|repeat constructor].
  intros x1 x2 H1 ->%list_elem_of_singleton. rewrite elem_of_reverse in H1.
  rewrite Forall_forall in Hall. by apply Hall.
Qed.
