(* ===== verification/Bytes.v ===== *)
(** * Bytes, hexadecimal text and 32-bit arithmetic

    What the components share about binary data: a byte is a [Z] in
    [0 <= b < 256], a [Uint8Array] is a list of bytes, a JavaScript string is
    a [string] of 8-bit characters.  The 32-bit signed conversion of the
    bitwise operators is written out ([to_int32]). *)
From S2P Require Import Prelude.
Local Open Scope Z_scope.

(** The BN254 scalar field modulus, [Fr.MODULUS]. *)
Definition BN254_SCALAR_FIELD_MODULUS : Z :=
  21888242871839275222246405745257275088548364400416034343698204186575808495617.

(** ** Byte strings *)

Definition is_byte (b : Z) : Prop := 0 <= b < 256.

Fixpoint of_le (l : list Z) : Z :=
  match l with [] => 0 | b :: l => b + 256 * of_le l end.
Fixpoint le_bytes (n : nat) (x : Z) : list Z :=
  match n with O => [] | S n => x mod 256 :: le_bytes n (x / 256) end.
Definition of_be (l : list Z) : Z := of_le (reverse l).
Definition be_bytes (n : nat) (x : Z) : list Z := reverse (le_bytes n x).

Lemma length_le_bytes n x : length (le_bytes n x) = n.
Proof. revert x. induction n as [|n IH]; intros x; simpl; [done|]. by rewrite IH. Qed.

Lemma le_bytes_bytes n x : Forall is_byte (le_bytes n x).
Proof.
  revert x. induction n as [|n IH]; intros x; simpl; constructor; [|done].
  unfold is_byte. apply Z.mod_pos_bound. lia.
Qed.

Lemma pow256_S n : 256 ^ Z.of_nat (S n) = 256 * 256 ^ Z.of_nat n.
Proof. rewrite Nat2Z.inj_succ, Z.pow_succ_r by lia. done. Qed.

Lemma of_le_le_bytes n x : 0 <= x < 256 ^ Z.of_nat n → of_le (le_bytes n x) = x.
Proof.
  revert x. induction n as [|n IH]; intros x Hx; simpl; [simpl in Hx; lia|].
  rewrite pow256_S in Hx. rewrite IH.
  - pose proof (Z.div_mod x 256). lia.
  - split; [apply Z.div_pos; lia|]. apply Z.div_lt_upper_bound; lia.
Qed.

Lemma of_le_bound l : Forall is_byte l → 0 <= of_le l < 256 ^ Z.of_nat (length l).
Proof.
  induction 1 as [|b l Hb Hl IH]; [simpl; lia|].
  change (length (b :: l)) with (S (length l)).
  rewrite pow256_S. simpl of_le. unfold is_byte in Hb. lia.
Qed.

Lemma le_bytes_of_le l : Forall is_byte l → le_bytes (length l) (of_le l) = l.
Proof.
  induction 1 as [|b l Hb Hl IH]; simpl; [done|]. unfold is_byte in Hb.
  rewrite Z.mul_comm, Z.mod_add, Z.mod_small by lia.
  by rewrite Z.div_add, Z.div_small, Z.add_0_l, IH by lia.
Qed.

Lemma length_be_bytes n x : length (be_bytes n x) = n.
Proof. unfold be_bytes. by rewrite length_reverse, length_le_bytes. Qed.
Lemma be_bytes_bytes n x : Forall is_byte (be_bytes n x).
Proof. apply Forall_reverse, le_bytes_bytes. Qed.
Lemma of_be_be_bytes n x : 0 <= x < 256 ^ Z.of_nat n → of_be (be_bytes n x) = x.
Proof. intros Hx. unfold of_be, be_bytes. rewrite reverse_involutive. by apply of_le_le_bytes. Qed.
Lemma be_bytes_of_be l : Forall is_byte l → be_bytes (length l) (of_be l) = l.
Proof.
  intros Hl. unfold be_bytes, of_be. rewrite <- length_reverse at 1.
  rewrite le_bytes_of_le by by apply Forall_reverse. apply reverse_involutive.
Qed.
Lemma of_be_bound l : Forall is_byte l → 0 <= of_be l < 256 ^ Z.of_nat (length l).
Proof. intros Hl. unfold of_be. rewrite <- length_reverse. by apply of_le_bound, Forall_reverse. Qed.

Lemma of_le_app k l : of_le (k ++ l) = of_le k + of_le l * 256 ^ Z.of_nat (length k).
Proof.
  induction k as [|x k IHk]; [simpl; lia|].
  change (length (x :: k)) with (S (length k)). rewrite pow256_S. simpl. rewrite IHk. lia.
Qed.
Lemma of_be_app k l : of_be (k ++ l) = of_be k * 256 ^ Z.of_nat (length l) + of_be l.
Proof. unfold of_be. rewrite reverse_app, of_le_app, length_reverse. lia. Qed.
Lemma of_be_cons b l : of_be (b :: l) = b * 256 ^ Z.of_nat (length l) + of_be l.
Proof. change (b :: l) with ([b] ++ l). rewrite of_be_app. unfold of_be at 1. simpl. lia. Qed.

#[export] Hint Resolve le_bytes_bytes be_bytes_bytes : core.

(** ** 32-bit operators *)

(** The signed 32-bit value that [|], [&], [^] and [<<] convert to. *)
Definition to_int32 (x : Z) : Z :=
  let m := x mod 2 ^ 32 in if m <? 2 ^ 31 then m else m - 2 ^ 32.
(** [x >>> 0]. *)
Definition to_uint32 (x : Z) : Z := x mod 2 ^ 32.

Lemma to_int32_small x : - 2 ^ 31 <= x < 2 ^ 31 → to_int32 x = x.
Proof.
  intros Hx. unfold to_int32. destruct (Z.ltb_spec x 0) as [Hneg|Hpos].
  - assert (E : x mod 2 ^ 32 = x + 2 ^ 32).
    { rewrite <- (Z.mod_small (x + 2 ^ 32) (2 ^ 32)) by lia.
      rewrite <- (Z.mod_add x 1) by lia. by rewrite Z.mul_1_l. }
    rewrite E. destruct (Z.ltb_spec (x + 2 ^ 32) (2 ^ 31)); lia.
  - rewrite Z.mod_small by lia. destruct (Z.ltb_spec x (2 ^ 31)); lia.
Qed.

Lemma to_int32_mod x : to_int32 x mod 2 ^ 32 = x mod 2 ^ 32.
Proof.
  unfold to_int32. case_match; [by rewrite Zmod_mod|].
  rewrite Zminus_mod, Z_mod_same_full, Z.sub_0_r, !Zmod_mod. done.
Qed.

(** Addition is disjunction when the bits do not overlap. *)
Lemma lor_add_shift a b n : 0 <= n → 0 <= a < 2 ^ n → Z.lor a (Z.shiftl b n) = a + b * 2 ^ n.
Proof.
  intros Hn Ha. rewrite <- Z.shiftl_mul_pow2 by done. symmetry. apply Z.add_nocarry_lor.
  apply Z.bits_inj'. intros k Hk. rewrite Z.land_spec, Z.bits_0.
  destruct (Z.ltb_spec k n); [by rewrite Z.shiftl_spec_low, andb_false_r by done|].
  assert (E : Z.testbit a k = false); [|by rewrite E].
  destruct (decide (a = 0)) as [->|]; [by rewrite Z.bits_0|].
  apply Z.bits_above_log2; [lia|]. apply Z.log2_lt_pow2; [lia|].
  eapply Z.lt_le_trans; [apply Ha|apply Z.pow_le_mono_r; lia].
Qed.

(** Congruence modulo [2^32]: the operators are exact up to it, so a chain
    of them is rewritten into plain integer operators. *)
Definition eqm32 (x y : Z) : Prop := x mod 2 ^ 32 = y mod 2 ^ 32.

#[export] Instance eqm32_equiv : Equivalence eqm32.
Proof. split; unfold eqm32; repeat intro; congruence. Qed.

#[export] Instance lor_eqm32 : Proper (eqm32 ==> eqm32 ==> eqm32) Z.lor.
Proof.
  intros x x' Hx y y' Hy. unfold eqm32 in *.
  by rewrite <- !Z.land_ones, !Z.land_lor_distr_l, !Z.land_ones, Hx, Hy by lia.
Qed.

Lemma to_int32_eqm x : eqm32 (to_int32 x) x.
Proof. apply to_int32_mod. Qed.

Lemma eqm32_small x y : eqm32 x y → 0 <= y < 2 ^ 32 → to_uint32 x = y.
Proof. unfold eqm32, to_uint32. intros -> Hy. by apply Z.mod_small. Qed.

(** [for (const b of bytes) v = (v << 8n) | BigInt(b)]. *)
Lemma foldl_lor_be bytes : Forall is_byte bytes →
  foldl (λ v b, Z.lor (Z.shiftl v 8) b) 0 bytes = of_be bytes.
Proof.
  induction bytes as [|b l IH] using rev_ind; [done|].
  rewrite Forall_app, Forall_singleton. intros [Hl Hb]. rewrite foldl_snoc, IH by done.
  rewrite Z.lor_comm, lor_add_shift by (unfold is_byte in Hb; lia).
  unfold of_be. rewrite reverse_snoc. cbn [of_le]. lia.
Qed.

(** ** Hexadecimal text *)

Definition hex_digit (d : Z) : ascii :=
  match d with
  | 0 => "0" | 1 => "1" | 2 => "2" | 3 => "3" | 4 => "4" | 5 => "5" | 6 => "6" | 7 => "7"
  | 8 => "8" | 9 => "9" | 10 => "a" | 11 => "b" | 12 => "c" | 13 => "d" | 14 => "e" | _ => "f"
  end%char.

Definition hex_value (c : ascii) : option Z :=
  let n := Z.of_nat (nat_of_ascii c) in
  if (48 <=? n) && (n <=? 57) then Some (n - 48)
  else if (97 <=? n) && (n <=? 102) then Some (n - 87)
  else if (65 <=? n) && (n <=? 70) then Some (n - 55)
  else None.

Lemma hex_value_digit d : 0 <= d < 16 → hex_value (hex_digit d) = Some d.
Proof.
  intros Hd.
  assert (d = 0 ∨ d = 1 ∨ d = 2 ∨ d = 3 ∨ d = 4 ∨ d = 5 ∨ d = 6 ∨ d = 7 ∨ d = 8 ∨ d = 9 ∨
          d = 10 ∨ d = 11 ∨ d = 12 ∨ d = 13 ∨ d = 14 ∨ d = 15) as Hin by lia.
  by repeat destruct Hin as [->|Hin]; [..|subst d].
Qed.

(** [BigInt("0x" + s)] for a nonempty [s]; [None] is its [SyntaxError]. *)
Fixpoint parse_hex (acc : Z) (s : string) : option Z :=
  match s with
  | EmptyString => Some acc
  | String c s => d ← hex_value c; parse_hex (16 * acc + d) s
  end.

(** [value.toString(16)] for a nonnegative value. *)
Fixpoint hex_loop (fuel : nat) (v : Z) (s : string) : string :=
  match fuel with
  | O => s
  | S fuel => if v <? 16 then String (hex_digit v) s
              else hex_loop fuel (v / 16) (String (hex_digit (v mod 16)) s)
  end.
Definition toString16 (v : Z) : string := hex_loop (S (Z.to_nat (Z.log2 v))) v "".

(** [s.padStart(n, "0")]. *)
Definition padStart0 (n : nat) (s : string) : string :=
  Nat.iter (n - String.length s) (String "0"%char) s.

(** Lowercase hex of a byte string, [Buffer.from(bytes).toString("hex")]. *)
Fixpoint hex_of_bytes (l : list Z) : string :=
  match l with
  | [] => EmptyString
  | b :: l => String (hex_digit (b / 16)) (String (hex_digit (b mod 16)) (hex_of_bytes l))
  end.

Lemma parse_hex_loop fuel v s :
  0 <= v < 2 ^ Z.of_nat fuel → parse_hex 0 (hex_loop fuel v s) = parse_hex v s.
Proof.
  revert v s. induction fuel as [|fuel IH]; intros v s Hv; simpl hex_loop.
  { replace v with 0 by (simpl in Hv; lia). done. }
  destruct (Z.ltb_spec v 16) as [Hlt|Hge].
  - simpl. rewrite hex_value_digit by lia. done.
  - rewrite Nat2Z.inj_succ, Z.pow_succ_r in Hv by lia. rewrite IH.
    + simpl. rewrite hex_value_digit by (apply Z.mod_pos_bound; lia). simpl. f_equal.
      pose proof (Z.div_mod v 16). lia.
    + split; [apply Z.div_pos; lia|]. apply Z.div_lt_upper_bound; lia.
Qed.

Lemma parse_hex_toString16 v : 0 <= v → parse_hex 0 (toString16 v) = Some v.
Proof.
  intros Hv. unfold toString16. rewrite parse_hex_loop; [done|]. split; [done|].
  rewrite Nat2Z.inj_succ, Z2Nat.id by apply Z.log2_nonneg.
  destruct (decide (v = 0)) as [->|]; [simpl; lia|]. apply Z.log2_spec. lia.
Qed.

Lemma parse_hex_padStart0 n s : parse_hex 0 (padStart0 n s) = parse_hex 0 s.
Proof. unfold padStart0. induction (n - String.length s)%nat as [|m IH]; [done|]. exact IH. Qed.

Lemma parse_hex_bytes l acc :
  Forall is_byte l → parse_hex acc (hex_of_bytes l)
  = Some (acc * 256 ^ Z.of_nat (length l) + of_be l).
Proof.
  intros Hl. revert acc. induction Hl as [|b l Hb Hl IH]; intros acc.
  { cbn [hex_of_bytes parse_hex]. f_equal. simpl. unfold of_be. simpl. lia. }
  unfold is_byte in Hb.
  cbn [hex_of_bytes parse_hex]. rewrite (hex_value_digit (b / 16)) by divlia.
  cbn [mbind option_bind]. rewrite (hex_value_digit (b mod 16)) by divlia.
  cbn [mbind option_bind]. rewrite IH.
  f_equal. change (length (b :: l)) with (S (length l)). rewrite pow256_S.
  rewrite of_be_cons. pose proof (Z.div_mod b 16). nia.
Qed.

Lemma length_padStart0 n s : String.length (padStart0 n s) = Nat.max n (String.length s).
Proof.
  unfold padStart0. remember (n - String.length s)%nat as d eqn:Ed.
  assert (String.length (Nat.iter d (String "0"%char) s) = d + String.length s)%nat as ->; [|lia].
  clear Ed. induction d as [|d IH]; [done|]. simpl. by rewrite IH.
Qed.
Lemma length_hex_loop fuel v s k : 0 <= v < 16 ^ Z.of_nat (S k) →
  (String.length (hex_loop fuel v s) <= S k + String.length s)%nat.
Proof.
  revert v s k. induction fuel as [|fuel IH]; intros v s k Hv; simpl hex_loop; [lia|].
  destruct (Z.ltb_spec v 16); [simpl; lia|]. destruct k as [|k]; [simpl in Hv; lia|].
  etrans; [apply (IH _ _ k)|simpl; lia]. rewrite (Nat2Z.inj_succ (S k)), Z.pow_succ_r in Hv by lia.
  split; [apply Z.div_pos; lia|apply Z.div_lt_upper_bound; lia].
Qed.

(** [Buffer.from(s, "hex")] stops at the first pair that is not hexadecimal. *)
Fixpoint bytes_of_hex (s : string) : list Z :=
  match s with
  | String a (String b s) =>
      match hex_value a, hex_value b with
      | Some x, Some y => 16 * x + y :: bytes_of_hex s
      | _, _ => []
      end
  | _ => []
  end.

Lemma hex_value_bound c x : hex_value c = Some x → 0 <= x < 16.
Proof.
  unfold hex_value. set (n := Z.of_nat _).
  destruct (Z.leb_spec 48 n), (Z.leb_spec n 57); cbn [andb]; [intros [= <-]; lia|..];
    (destruct (Z.leb_spec 97 n), (Z.leb_spec n 102); cbn [andb]; [intros [= <-]; lia|..]);
    (destruct (Z.leb_spec 65 n), (Z.leb_spec n 70); cbn [andb]; [intros [= <-]; lia|..]); done.
Qed.

Lemma bytes_of_hex_spec n : ∀ acc s v,
  parse_hex acc s = Some v → String.length s = (2 * n)%nat →
  Forall is_byte (bytes_of_hex s) ∧ length (bytes_of_hex s) = n ∧
  v = acc * 256 ^ Z.of_nat n + of_be (bytes_of_hex s).
Proof.
  induction n as [|n IH]; intros acc s v Hp Hl.
  { destruct s; [|done]. injection Hp as <-. cbn. split_and!; [done|done|lia]. }
  destruct s as [|a [|b s]]; [simpl in Hl; lia|simpl in Hl; lia|]. cbn [parse_hex] in Hp. cbn [bytes_of_hex].
  destruct (hex_value a) as [x|] eqn:Ha; [|done]. cbn [mbind option_bind] in Hp.
  destruct (hex_value b) as [y|] eqn:Hb; [|done]. cbn [mbind option_bind] in Hp.
  apply hex_value_bound in Ha, Hb. apply IH in Hp as (Hf & Hn & ->); [|simpl in Hl; lia].
  split_and!; [constructor; [unfold is_byte; lia|done]|cbn [length]; by rewrite Hn|].
  rewrite of_be_cons, Hn, pow256_S. ring.
Qed.

Lemma bytes_of_hex_of_bytes l : Forall is_byte l → bytes_of_hex (hex_of_bytes l) = l.
Proof.
  induction 1 as [|b l Hb _ IH]; [done|]. unfold is_byte in Hb. cbn [hex_of_bytes bytes_of_hex].
  rewrite !hex_value_digit by divlia. rewrite IH. f_equal. divlia.
Qed.
