(* ===== verification/Plan.v ===== *)
(** * Transaction planning ([packages/sdk/src/tx/plan.ts])

    The planner is a pure function of a snapshot of notes: it picks the single
    best-fitting note, or else a minimal cover that is joined pairwise before
    the spend.  JavaScript numbers that hold leaf indexes and bigints are [Z];
    a thrown [PlanError] is an [Err] with its reason and its detail record
    (the values, before [toString]). *)
From S2P Require Import Prelude.

Module Plan.
Local Open Scope Z_scope.

(** ** Data *)

Record PlannableNote := mkPlannableNote {
  leafIndex : Z;
  assetId : string;
  value : Z;
}.

Inductive PlanOp := JOIN | WITHDRAW | TRANSFER | SPLIT.

Record PlanStep := mkPlanStep {
  op : PlanOp;
  inputs : list Z;
  outgoing : Z;
  change : Z;
}.

Record ActionPlan := mkActionPlan {
  steps : list PlanStep;
  joinsRequired : Z;
  totalSelected : Z;
}.

Record PlanPolicy := mkPlanPolicy {
  dustFloor : Z;
  maxSteps : Z;
}.

Definition DEFAULT_PLAN_POLICY : PlanPolicy := mkPlanPolicy 0 8.

Inductive PlanFailureReason :=
  | NO_NOTES_FOR_ASSET
  | INSUFFICIENT_TOTAL
  | EXCEEDS_MAX_STEPS
  | NON_POSITIVE_TARGET.

(** A detail value: a string, or a number before its [toString]. *)
Inductive DetailValue := DStr (s : string) | DNum (n : Z).

Record PlanError := mkPlanError {
  reason : PlanFailureReason;
  detail : list (string * DetailValue);
}.

(** What [planSpend] can throw: a [PlanError], or the [TypeError] of reading
    a property of [undefined] (shown unreachable below). *)
Inductive Thrown := Throw_PlanError (e : PlanError) | Throw_TypeError.

(** The [intent] argument of [planSpend]; [op] is [WITHDRAW] or [TRANSFER]. *)
Record Intent := mkIntent {
  intent_op : PlanOp;
  intent_assetId : string;
  target : Z;
}.

#[export] Instance PlannableNote_eq_dec : EqDecision PlannableNote.
Proof. solve_decision. Defined.
#[export] Instance PlanFailureReason_eq_dec : EqDecision PlanFailureReason.
Proof. solve_decision. Defined.

(** ** Operations *)

Definition note_cmp (a b : PlannableNote) : Z :=
  if value a =? value b then leafIndex a - leafIndex b
  else if value a <? value b then -1 else 1.

Definition forAsset (notes : list PlannableNote) (asset : string) : list PlannableNote :=
  js_sort note_cmp (filter (λ n, assetId n = asset ∧ 0 < value n) notes).

Definition joinStep (a b : PlannableNote) : PlanStep :=
  let '(lo, hi) := if leafIndex a <? leafIndex b then (a, b) else (b, a) in
  mkPlanStep JOIN [leafIndex lo; leafIndex hi] 0 (value lo + value hi).

(** The [for] loop of [bestFit], with the [dusty] variable as an accumulator. *)
Fixpoint bestFit_loop (sorted : list PlannableNote) (tgt : Z) (policy : PlanPolicy)
    (dusty : option PlannableNote) : option PlannableNote :=
  match sorted with
  | [] => dusty
  | n :: rest =>
      if value n <? tgt then bestFit_loop rest tgt policy dusty
      else
        let change := value n - tgt in
        if (0 <? change) && (change <? dustFloor policy) then
          bestFit_loop rest tgt policy
            (match dusty with Some d => Some d | None => Some n end)
        else Some n
  end.

Definition bestFit (sorted : list PlannableNote) (tgt : Z) (policy : PlanPolicy) :
    option PlannableNote :=
  bestFit_loop sorted tgt policy None.

(** [while (k < desc.length && sum < target)]: returns [(k, sum)]. *)
Fixpoint cover_size (desc : list PlannableNote) (tgt : Z) (k : nat) (sum : Z) : nat * Z :=
  match desc with
  | [] => (k, sum)
  | n :: rest => if sum <? tgt then cover_size rest tgt (S k) (sum + value n) else (k, sum)
  end.

(** [for (start = 0; start + k <= sorted.length; start++)]: [starts] counts
    down the remaining windows of width [k], [sorted] is the remaining suffix. *)
Fixpoint best_window (starts : nat) (sorted : list PlannableNote) (k : nat) (tgt : Z)
    (best : option (list PlannableNote * Z)) : option (list PlannableNote * Z) :=
  match starts with
  | O => best
  | S starts' =>
      let window := take k sorted in
      let wsum := foldl (λ acc n, acc + value n) 0 window in
      let best' :=
        if (tgt <=? wsum) && (match best with None => true | Some (_, b) => wsum <? b end)
        then Some (window, wsum) else best in
      best_window starts' (drop 1 sorted) k tgt best'
  end.

Definition minimalCover (sorted : list PlannableNote) (tgt : Z) :
    option (list PlannableNote) :=
  let desc := reverse sorted in
  let '(k, sum) := cover_size desc tgt 0 0 in
  if sum <? tgt then None
  else match best_window (S (length sorted) - k) sorted k tgt None with
       | Some (best, _) => Some best
       | None => Some (take k desc)
       end.

(** [for (i = 1; i < ordered.length; i++)]: folds the remaining notes into
    [merged], collecting the join steps. *)
Fixpoint joins_loop (merged : PlannableNote) (rest : list PlannableNote) (asset : string) :
    list PlanStep * PlannableNote :=
  match rest with
  | [] => ([], merged)
  | n :: rest' =>
      let step := joinStep merged n in
      let '(steps, m) := joins_loop (mkPlannableNote (-1) asset (change step)) rest' asset in
      (step :: steps, m)
  end.

Definition leaf_cmp (a b : PlannableNote) : Z := leafIndex a - leafIndex b.

Definition planSpend (notes : list PlannableNote) (intent : Intent) (policy : PlanPolicy) :
    result Thrown ActionPlan :=
  if target intent <=? 0 then
    Err (Throw_PlanError (mkPlanError NON_POSITIVE_TARGET [("target", DNum (target intent))]))
  else
  let candidates := forAsset notes (intent_assetId intent) in
  match candidates with
  | [] => Err (Throw_PlanError
               (mkPlanError NO_NOTES_FOR_ASSET [("assetId", DStr (intent_assetId intent))]))
  | _ =>
  match bestFit candidates (target intent) policy with
  | Some single =>
      Ok (mkActionPlan
            [mkPlanStep (intent_op intent) [leafIndex single] (target intent)
               (value single - target intent)]
            0 (value single))
  | None =>
  match minimalCover candidates (target intent) with
  | None =>
      let total := foldl (λ a n, a + value n) 0 candidates in
      Err (Throw_PlanError
             (mkPlanError INSUFFICIENT_TOTAL
                [("held", DNum total); ("needed", DNum (target intent))]))
  | Some cover =>
      let joins := Z.of_nat (length cover) - 1 in
      match js_sort leaf_cmp cover with
      | [] => Err Throw_TypeError
      | first :: others =>
          let '(joinSteps, merged) := joins_loop first others (intent_assetId intent) in
          let totalSelected := foldl (λ a n, a + value n) 0 cover in
          let steps :=
            joinSteps ++
            [mkPlanStep (intent_op intent) [leafIndex merged] (target intent)
               (totalSelected - target intent)] in
          if maxSteps policy <? Z.of_nat (length steps) then
            Err (Throw_PlanError
                   (mkPlanError EXCEEDS_MAX_STEPS
                      [("steps", DNum (Z.of_nat (length steps)));
                       ("limit", DNum (maxSteps policy))]))
          else Ok (mkActionPlan steps joins totalSelected)
      end
  end end end.

Record Balance := mkBalance { total : Z; inOneTx : Z; withPlan : Z }.

Definition spendableBalance (notes : list PlannableNote) (asset : string)
    (policy : PlanPolicy) : Balance :=
  let candidates := forAsset notes asset in
  let total := foldl (λ a n, a + value n) 0 candidates in
  let inOneTx := foldl (λ a n, if a <? value n then value n else a) 0 candidates in
  let foldable :=
    foldl (λ a n, a + value n) 0
      (take (Z.to_nat (Z.max 1 (maxSteps policy))) (reverse candidates)) in
  mkBalance total inOneTx foldable.

(** A scratch pool used by the examples. *)
Definition pool3 : list PlannableNote :=
  [mkPlannableNote 4 "usdc" 5; mkPlannableNote 2 "usdc" 1; mkPlannableNote 9 "usdc" 10].

Example planSpend_single :
  planSpend pool3 (mkIntent WITHDRAW "usdc" 4) DEFAULT_PLAN_POLICY
  = Ok (mkActionPlan [mkPlanStep WITHDRAW [4] 4 1] 0 5).
Proof. reflexivity. Qed.

Example planSpend_joins :
  planSpend pool3 (mkIntent TRANSFER "usdc" 16) DEFAULT_PLAN_POLICY
  = Ok (mkActionPlan
          [mkPlanStep JOIN [2; 4] 0 6; mkPlanStep JOIN [-1; 9] 0 16;
           mkPlanStep TRANSFER [-1] 16 0] 2 16).
Proof. reflexivity. Qed.

(** ** The candidate list *)

Lemma note_cmp_le a b : note_cmp a b <= 0 →
  value a < value b ∨ (value a = value b ∧ leafIndex a <= leafIndex b).
Proof. unfold note_cmp. repeat case_match; lia. Qed.

Lemma note_cmp_total a b : ~ note_cmp a b <= 0 → note_cmp b a <= 0.
Proof. unfold note_cmp. repeat case_match; lia. Qed.

Lemma note_cmp_trans a b c : note_cmp a b <= 0 → note_cmp b c <= 0 → note_cmp a c <= 0.
Proof. unfold note_cmp. repeat case_match; lia. Qed.

Lemma elem_of_forAsset notes asset n :
  n ∈ forAsset notes asset ↔ n ∈ notes ∧ assetId n = asset ∧ 0 < value n.
Proof.
  unfold forAsset. rewrite (js_sort_perm note_cmp), list_elem_of_filter. naive_solver.
Qed.

Lemma forAsset_pos notes asset : Forall (λ n, 0 < value n) (forAsset notes asset).
Proof. apply Forall_forall. intros n (_ & _ & Hn)%elem_of_forAsset. done. Qed.

Lemma forAsset_nonneg notes asset : Forall (λ n, 0 <= value n) (forAsset notes asset).
Proof. eapply Forall_impl; [apply forAsset_pos|]. simpl. lia. Qed.

Lemma forAsset_sorted notes asset :
  StronglySorted (λ a b, value a <= value b) (forAsset notes asset).
Proof.
  unfold forAsset.
  assert (H := js_sort_sorted note_cmp note_cmp_total note_cmp_trans
                 (filter (λ n, assetId n = asset ∧ 0 < value n) notes)).
  induction H as [|a l Hs IH Hf]; constructor; [done|].
  eapply Forall_impl; [done|]. intros b Hb%note_cmp_le. lia.
Qed.

(** ** [cover_size]: the number of largest notes needed *)

Lemma cover_size_spec desc tgt k0 s0 k s :
  cover_size desc tgt k0 s0 = (k, s) →
  ∃ m, k = (k0 + m)%nat ∧ (m <= length desc)%nat ∧ s = s0 + sumZ value (take m desc)
       ∧ (tgt <= s ∨ m = length desc)
       ∧ ∀ j, (j < m)%nat → s0 + sumZ value (take j desc) < tgt.
Proof.
  revert k0 s0. induction desc as [|n desc IH]; intros k0 s0; simpl.
  - intros [= <- <-]. exists 0%nat. simpl. repeat split; lia.
  - destruct (Z.ltb_spec s0 tgt) as [Hlt|Hge].
    + intros (m & -> & Hm & -> & Hor & Hmin)%IH. exists (S m). simpl.
      repeat split; try lia.
      intros [|j] Hj; simpl; [lia|]. specialize (Hmin j). lia.
    + intros [= <- <-]. exists 0%nat. simpl. repeat split; lia.
Qed.

(** The [j] largest elements of an ascending list bound every sublist of at
    most [j] elements. *)
Lemma sublist_sum_le_tail sorted s j :
  StronglySorted (λ a b, value a <= value b) sorted →
  Forall (λ n, 0 <= value n) sorted →
  s `sublist_of` sorted → (length s <= j)%nat →
  sumZ value s <= sumZ value (drop (length sorted - j) sorted).
Proof.
  intros Hs. revert s j. induction Hs as [|a l Hs IH Hle]; intros s j Hpos Hsub Hj.
  - apply sublist_nil_r in Hsub as ->. by rewrite drop_nil.
  - inversion Hpos as [|? ? Ha Hpos']; subst. simpl length.
    destruct (decide (S (length l) <= j)%nat) as [Hbig|Hsmall].
    { replace (S (length l) - j)%nat with 0%nat by lia. rewrite drop_0.
      by apply sumZ_sublist. }
    replace (S (length l) - j)%nat with (S (length l - j)) by lia. simpl drop.
    inversion Hsub as [|? s' ? Hsub'|? ? ? Hsub']; subst.
    + simpl in *. assert (length s' <= j - 1)%nat by lia.
      specialize (IH s' (j - 1)%nat Hpos' Hsub' ltac:(lia)).
      destruct (drop (length l - j) l) as [|b r] eqn:Hd.
      { apply (f_equal length) in Hd. rewrite length_drop in Hd. simpl in Hd. lia. }
      assert (Hb : b ∈ l).
      { apply (elem_of_sublist (drop (length l - j) l)); [rewrite Hd; left|apply sublist_drop]. }
      rewrite Forall_forall in Hle. specialize (Hle b Hb).
      replace (drop (length l - (j - 1)) l) with r in IH; [simpl; lia|].
      replace (length l - (j - 1))%nat with (S (length l - j)) by lia.
      rewrite <- Nat.add_1_r, <- drop_drop, Hd. done.
    + apply IH; auto.
Qed.

(** The tail of an ascending list is the reverse of its descending prefix. *)
Lemma sumZ_take_reverse sorted j :
  sumZ value (take j (reverse sorted)) = sumZ value (drop (length sorted - j) sorted).
Proof.
  destruct (decide (j <= length sorted)%nat) as [Hj|Hj].
  - by rewrite <- (take_reverse sorted j Hj), sumZ_reverse.
  - rewrite take_ge by (rewrite length_reverse; lia).
    replace (length sorted - j)%nat with 0%nat by lia. by rewrite sumZ_reverse.
Qed.

(** ** [best_window]: the scan over the windows of width [k] *)

Definition best_le (r : option (list PlannableNote * Z)) (x : Z) : Prop :=
  ∃ w b, r = Some (w, b) ∧ b <= x.

Lemma best_window_spec starts sorted k tgt best :
  let r := best_window starts sorted k tgt best in
  (r = best ∨ ∃ i, (i < starts)%nat ∧
     r = Some (take k (drop i sorted), sumZ value (take k (drop i sorted))) ∧
     tgt <= sumZ value (take k (drop i sorted))) ∧
  (∀ x, best_le best x → best_le r x) ∧
  (∀ i, (i < starts)%nat → tgt <= sumZ value (take k (drop i sorted)) →
     best_le r (sumZ value (take k (drop i sorted)))).
Proof.
  revert sorted best. induction starts as [|n IH]; intros sorted best; simpl.
  { split_and!; [by left|done|lia]. }
  rewrite foldl_sumZ, Z.add_0_l. set (ws := sumZ value (take k sorted)).
  set (best' := if _ : bool then _ else _).
  destruct (IH (drop 1 sorted) best') as (H1 & H2 & H3). clear IH.
  assert (Hb' : best' = best ∨ best' = Some (take k sorted, ws) ∧ tgt <= ws).
  { unfold best'. case_match; [|by left]. right. split; [done|lia]. }
  assert (Hmono : ∀ x, best_le best x → best_le best' x).
  { intros x (w & b & -> & Hb). unfold best', best_le. simpl.
    destruct (Z.leb_spec tgt ws), (Z.ltb_spec ws b); simpl; eauto with lia. }
  assert (Hws : tgt <= ws → best_le best' ws).
  { intros Ht. unfold best', best_le. destruct best as [[w b]|];
      destruct (Z.leb_spec tgt ws); try lia; simpl; [|eauto with lia].
    destruct (Z.ltb_spec ws b); eauto with lia. }
  split_and!.
  - destruct H1 as [-> | (i & Hi & Hr & Ht)].
    + destruct Hb' as [-> | [-> Ht]]; [by left|]. right. exists 0%nat. split; [lia|done].
    + right. exists (S i). rewrite drop_drop in Hr, Ht. split; [lia|done].
  - intros x Hx. by apply H2, Hmono.
  - intros [|i] Hi Ht; [by apply H2, Hws|].
    specialize (H3 i ltac:(lia)). rewrite drop_drop in H3. by apply H3.
Qed.

(** ** [minimalCover] *)

Lemma minimalCover_None sorted tgt : Forall (λ n, 0 <= value n) sorted → 0 < tgt →
  minimalCover sorted tgt = None ↔ sumZ value sorted < tgt.
Proof.
  intros Hpos Htgt. unfold minimalCover.
  destruct (cover_size _ _ _ _) as [k s] eqn:Hc.
  apply cover_size_spec in Hc as (m & -> & Hm & -> & Hor & Hmin).
  rewrite Z.add_0_l, Nat.add_0_l in *.
  destruct (Z.ltb_spec (sumZ value (take m (reverse sorted))) tgt) as [Hlt|Hge].
  - split; [intros _|done]. destruct Hor as [?| ->]; [lia|].
    rewrite take_ge in Hlt by done. by rewrite sumZ_reverse in Hlt.
  - split; [by case_match; [case_match|]|]. intros Hs.
    assert (sumZ value (take m (reverse sorted)) <= sumZ value (reverse sorted)).
    { apply sumZ_sublist; [by apply Forall_reverse|apply sublist_take]. }
    rewrite sumZ_reverse in *. lia.
Qed.

(** A cover is a window of the ascending list; its width is the least number
    of notes that can cover the target, and no window of that width covers it
    with a smaller sum. *)
Lemma minimalCover_Some sorted tgt c :
  StronglySorted (λ a b, value a <= value b) sorted →
  Forall (λ n, 0 <= value n) sorted → 0 < tgt →
  minimalCover sorted tgt = Some c →
  ∃ i, c = take (length c) (drop i sorted) ∧ (i + length c <= length sorted)%nat ∧
    (0 < length c)%nat ∧ tgt <= sumZ value c ∧
    (∀ s, s `sublist_of` sorted → tgt <= sumZ value s → (length c <= length s)%nat) ∧
    (∀ j, (j + length c <= length sorted)%nat →
       tgt <= sumZ value (take (length c) (drop j sorted)) →
       sumZ value c <= sumZ value (take (length c) (drop j sorted))).
Proof.
  intros Hs Hpos Htgt. unfold minimalCover.
  destruct (cover_size _ _ _ _) as [k sum] eqn:Hc.
  apply cover_size_spec in Hc as (m & -> & Hm & -> & Hor & Hmin).
  rewrite Z.add_0_l, Nat.add_0_l in *.
  rewrite length_reverse in Hm. intros H.
  destruct (Z.ltb_spec (sumZ value (take m (reverse sorted))) tgt) as [|Hge]; [done|].
  destruct (best_window_spec (S (length sorted) - m) sorted m tgt None) as (H1 & _ & H3).
  destruct (best_window _ _ _ _ _) as [[w b]|] eqn:Hbw.
  - injection H as <-. destruct H1 as [?|(i & Hi & Hr & Ht)]; [done|].
    injection Hr as -> ->. exists i.
    assert (Hlen : length (take m (drop i sorted)) = m).
    { rewrite length_take, length_drop. lia. }
    rewrite Hlen. split_and!; [done|lia| |done| |].
    + destruct m; [simpl in Ht; lia|lia].
    + intros s Hsub Hcov. destruct (decide (m <= length s)%nat) as [|Hn]; [done|].
      specialize (Hmin (length s) ltac:(lia)). rewrite Z.add_0_l in Hmin.
      assert (Hb := sublist_sum_le_tail sorted s (length s) Hs Hpos Hsub ltac:(lia)).
      rewrite sumZ_take_reverse in Hmin. lia.
    + intros j Hj Htj. destruct (H3 j ltac:(lia) Htj) as (w & b & [= <- <-] & Hle). done.
  - exfalso. rewrite sumZ_take_reverse in Hge.
    destruct (H3 (length sorted - m)%nat ltac:(lia)) as (? & ? & ? & _); [|done].
    rewrite take_ge; [done|]. rewrite length_drop. lia.
Qed.

Lemma window_sublist (sorted c : list PlannableNote) i :
  c = take (length c) (drop i sorted) → c `sublist_of` sorted.
Proof. intros ->. etrans; [apply sublist_take|apply sublist_drop]. Qed.

(** ** [bestFit] *)

Definition dusty (policy : PlanPolicy) (tgt : Z) (n : PlannableNote) : Prop :=
  0 < value n - tgt < dustFloor policy.

Lemma bestFit_loop_spec sorted tgt policy d r :
  StronglySorted (λ a b, value a <= value b) sorted →
  bestFit_loop sorted tgt policy d = r →
  match r with
  | None => d = None ∧ Forall (λ n, value n < tgt) sorted
  | Some n =>
      (n ∈ sorted ∧ tgt <= value n ∧ ~ dusty policy tgt n ∧
       ∀ m, m ∈ sorted → tgt <= value m → ~ dusty policy tgt m → value n <= value m)
      ∨ ((∀ m, m ∈ sorted → tgt <= value m → dusty policy tgt m) ∧
         (d = Some n ∨ d = None ∧ n ∈ sorted ∧ tgt <= value n ∧
            ∀ m, m ∈ sorted → tgt <= value m → value n <= value m))
  end.
Proof.
  unfold dusty. intros Hs. revert d r. induction Hs as [|a l Hs IH Hle]; intros d r; simpl.
  { intros <-. destruct d as [n|]; [|done]. right. split; [set_solver|by left]. }
  rewrite Forall_forall in Hle.
  destruct (Z.ltb_spec (value a) tgt) as [Hlt|Hge].
  { intros Hr%IH. destruct r as [n|]; [|naive_solver].
    destruct Hr as [(Hin & Ht & Hnd & Hm)|(Hd & Hr)]; [left|right].
    - split_and!; [by right|done|done|]. intros m [->|?]%elem_of_cons; [lia|auto].
    - split; [intros m [->|?]%elem_of_cons; [lia|auto]|].
      destruct Hr as [?|(? & Hin & ? & Hm)]; [by left|right].
      split_and!; [done|by right|done|]. intros m [->|?]%elem_of_cons; [lia|auto]. }
  destruct (Z.ltb_spec 0 (value a - tgt)), (Z.ltb_spec (value a - tgt) (dustFloor policy));
    simpl; try (intros <-; left; split_and!; [left|lia|lia|];
    intros m [->|Hm]%elem_of_cons; [lia|auto]).
  intros Hr%IH. destruct r as [n|]; [|by destruct d, Hr].
  destruct Hr as [(Hin & Ht & Hnd & Hm)|(Hd & Hr)]; [left|right].
  - split_and!; [by right|done|done|]. intros m [->|?]%elem_of_cons; [lia|auto].
  - split; [intros m [->|?]%elem_of_cons; [lia|auto]|].
    destruct d as [d|]; destruct Hr as [Hr|(? & _)]; try done; [by left|].
    injection Hr as <-. right. split_and!; [done|left|done|].
    intros m [->|?]%elem_of_cons ?; [lia|auto].
Qed.

(** ** The join chain *)

Lemma joins_loop_spec rest asset merged js m :
  joins_loop merged rest asset = (js, m) →
  length js = length rest ∧ value m = value merged + sumZ value rest ∧
  (rest = [] → m = merged) ∧ (rest ≠ [] → leafIndex m = -1).
Proof.
  revert merged js m. induction rest as [|n rest IH]; intros merged js m; simpl.
  { intros [= <- <-]. split_and!; [done|lia|done|done]. }
  destruct (joins_loop _ _ _) as [js' m'] eqn:Hj. intros [= <- <-].
  apply IH in Hj as (Hl & Hv & He & Hne). simpl.
  assert (Hjs : change (joinStep merged n) = value merged + value n).
  { unfold joinStep. case_match; simplify_eq/=. repeat case_match; simplify_eq/=; lia. }
  simpl in Hv. split_and!; [lia|lia|done|intros _].
  destruct rest; [by rewrite He|by apply Hne].
Qed.

(** Every outcome of [planSpend] for a positive target and a nonempty
    candidate list, in terms of [bestFit] and [minimalCover]. *)
Lemma planSpend_Ok notes intent policy plan :
  planSpend notes intent policy = Ok plan ↔
  let c := forAsset notes (intent_assetId intent) in
  0 < target intent ∧ c ≠ [] ∧
  match bestFit c (target intent) policy with
  | Some n => plan = mkActionPlan [mkPlanStep (intent_op intent) [leafIndex n]
                        (target intent) (value n - target intent)] 0 (value n)
  | None => ∃ cover first others js m,
      minimalCover c (target intent) = Some cover ∧
      js_sort leaf_cmp cover = first :: others ∧
      joins_loop first others (intent_assetId intent) = (js, m) ∧
      Z.of_nat (length cover) <= maxSteps policy ∧
      plan = mkActionPlan (js ++ [mkPlanStep (intent_op intent) [leafIndex m]
               (target intent) (sumZ value cover - target intent)])
               (Z.of_nat (length cover) - 1) (sumZ value cover)
  end.
Proof.
  unfold planSpend. destruct (Z.leb_spec (target intent) 0) as [|Ht].
  { split; [done|]. intros (? & _). lia. }
  destruct (forAsset notes (intent_assetId intent)) as [|n0 c0] eqn:Hc; [naive_solver|].
  rewrite <- Hc. assert (Hne : forAsset notes (intent_assetId intent) ≠ []) by (rewrite Hc; discriminate).
  destruct (bestFit _ _ _) as [n|]; [naive_solver|].
  destruct (minimalCover _ _) as [cover|] eqn:Hm.
  2: { split; [done|]. naive_solver. }
  destruct (js_sort leaf_cmp cover) as [|first others] eqn:Hs.
  { split; [done|]. intros (_ & _ & ? & ? & ? & ? & ? & [= <-] & ? & _). congruence. }
  destruct (joins_loop _ _ _) as [js m] eqn:Hj.
  assert (Hlen : length (js ++ [mkPlanStep (intent_op intent) [leafIndex m] (target intent)
    (foldl (λ a n, a + value n) 0 cover - target intent)]) = length cover).
  { rewrite length_app. simpl. apply joins_loop_spec in Hj as [-> _].
    rewrite <- (js_sort_length leaf_cmp cover), Hs. simpl. lia. }
  rewrite Hlen, foldl_sumZ, Z.add_0_l.
  destruct (Z.ltb_spec (maxSteps policy) (Z.of_nat (length cover))).
  - split; [done|]. intros (_ & _ & ? & ? & ? & ? & ? & [= <-] & _ & _ & ? & _). lia.
  - split; [intros [= <-]; naive_solver|].
    intros (_ & _ & ? & ? & ? & ? & ? & [= <-] & Hs' & Hj' & _ & ->).
    rewrite Hs in Hs'. injection Hs' as <- <-. rewrite Hj in Hj'. by injection Hj' as <- <-.
Qed.

Lemma withPlan_eq notes asset policy :
  let c := forAsset notes asset in
  withPlan (spendableBalance notes asset policy)
  = sumZ value (drop (length c - Z.to_nat (Z.max 1 (maxSteps policy))) c).
Proof. simpl. by rewrite foldl_sumZ, Z.add_0_l, sumZ_take_reverse. Qed.

Lemma candidate_sum_le_withPlan notes asset policy s :
  s `sublist_of` forAsset notes asset →
  Z.of_nat (length s) <= Z.max 1 (maxSteps policy) →
  sumZ value s <= withPlan (spendableBalance notes asset policy).
Proof.
  intros Hs Hl. rewrite withPlan_eq.
  apply sublist_sum_le_tail; [apply forAsset_sorted|apply forAsset_nonneg|done|lia].
Qed.

(** ** Executing a plan against a ledger of notes

    The abstract machine a plan is written for: [unspent] maps the leaf index
    of each note to its value and [pending] is the output of the previous
    step, which a plan names by the placeholder [-1]. *)

Definition Ledger : Type := gmap Z Z * option Z.

Definition take_input (st : Ledger) (i : Z) : option (Z * Ledger) :=
  let '(unspent, pending) := st in
  if i =? -1 then v ← pending; Some (v, (unspent, None))
  else v ← unspent !! i; Some (v, (delete i unspent, pending)).

Fixpoint take_inputs (st : Ledger) (ins : list Z) : option (Z * Ledger) :=
  match ins with
  | [] => Some (0, st)
  | i :: ins =>
      '(v, st) ← take_input st i; '(s, st) ← take_inputs st ins; Some (v + s, st)
  end.

(** The number of notes each circuit consumes. *)
Definition arity (o : PlanOp) : nat := match o with JOIN => 2 | _ => 1 end.

(** One step: the circuit's arity, every input present, no pending output
    lost, value conserved, nothing negative, and a join pays nothing out. *)
Definition exec_step (st : Ledger) (s : PlanStep) : option Ledger :=
  '(v, (unspent, pending)) ← take_inputs st (inputs s);
  if bool_decide (length (inputs s) = arity (op s)) && bool_decide (pending = None)
     && (v =? outgoing s + change s) && (0 <=? outgoing s) && (0 <=? change s)
     && (match op s with JOIN => outgoing s =? 0 | _ => true end)
  then Some (unspent, Some (change s)) else None.

Fixpoint exec_steps (st : Ledger) (l : list PlanStep) : option Ledger :=
  match l with [] => Some st | s :: l => st ← exec_step st s; exec_steps st l end.

Definition ledger_of (l : list PlannableNote) : gmap Z Z :=
  list_to_map ((λ n, (leafIndex n, value n)) <$> l).

Lemma exec_steps_app st l1 l2 :
  exec_steps st (l1 ++ l2) = st' ← exec_steps st l1; exec_steps st' l2.
Proof.
  revert st. induction l1 as [|s l1 IH]; intros st; simpl; [done|].
  destruct (exec_step st s); simpl; auto.
Qed.

(** A note is available: the pending output, or an unspent leaf. *)
Definition available (st : Ledger) (n : PlannableNote) : Prop :=
  if decide (leafIndex n = -1) then st.2 = Some (value n)
  else st.1 !! leafIndex n = Some (value n) ∧ st.2 = None.

Definition spent_of (st : Ledger) (n : PlannableNote) : gmap Z Z :=
  if decide (leafIndex n = -1) then st.1 else delete (leafIndex n) st.1.

Lemma take_input_leaf u p i v :
  i ≠ -1 → u !! i = Some v → take_input (u, p) i = Some (v, (delete i u, p)).
Proof. intros Hi Hu. simpl. rewrite (proj2 (Z.eqb_neq _ _) Hi), Hu. done. Qed.

Lemma take_input_available st n :
  available st n → take_input st (leafIndex n) = Some (value n, (spent_of st n, None)).
Proof.
  destruct st as [u p]. unfold available, spent_of. destruct (decide _) as [E|E].
  - simpl. intros ->. rewrite E. done.
  - simpl. intros [Hu ->]. by apply take_input_leaf.
Qed.

Lemma exec_spend_step st n o tgt :
  available st n → 0 <= tgt → tgt <= value n → o ≠ JOIN →
  exec_step st (mkPlanStep o [leafIndex n] tgt (value n - tgt))
  = Some (spent_of st n, Some (value n - tgt)).
Proof.
  intros Ha Ht Hle Ho. unfold exec_step. cbn [inputs take_inputs outgoing change op].
  rewrite (take_input_available st n Ha). simpl.
  destruct o; try done; cbn -[Z.eqb Z.leb]; by pass_guard.
Qed.

Lemma exec_join_step st a b :
  available st a → st.1 !! leafIndex b = Some (value b) →
  leafIndex a < leafIndex b → 0 <= leafIndex b → 0 <= value a → 0 <= value b →
  exec_step st (joinStep a b)
  = Some (delete (leafIndex b) (spent_of st a), Some (value a + value b)).
Proof.
  intros Ha Hb Hlt Hnn Hva Hvb. unfold exec_step, joinStep.
  rewrite (proj2 (Z.ltb_lt _ _) Hlt). cbn [inputs take_inputs outgoing change op].
  rewrite (take_input_available st a Ha). cbn -[take_input].
  rewrite (take_input_leaf _ _ _ (value b)); [|lia|].
  - cbn -[Z.eqb Z.leb]. by pass_guard.
  - unfold spent_of. destruct (decide _); [done|]. by rewrite lookup_delete_ne by lia.
Qed.

Definition delete_all (u : gmap Z Z) (l : list PlannableNote) : gmap Z Z :=
  foldl (λ u n, delete (leafIndex n) u) u l.

(** What the chain of joins needs of the notes still to be folded. *)
Definition joinable (st : Ledger) (lo : Z) (n : PlannableNote) : Prop :=
  lo < leafIndex n ∧ 0 <= leafIndex n ∧ 0 <= value n ∧ st.1 !! leafIndex n = Some (value n).

Definition leaf_lt (a b : PlannableNote) : Prop := leafIndex a < leafIndex b.

Lemma exec_joins rest asset : ∀ st merged js m,
  available st merged → 0 <= value merged → StronglySorted leaf_lt rest →
  Forall (joinable st (leafIndex merged)) rest →
  joins_loop merged rest asset = (js, m) →
  ∃ st', exec_steps st js = Some st' ∧ available st' m ∧
    spent_of st' m = delete_all (spent_of st merged) rest.
Proof.
  induction rest as [|n rest IH]; intros st merged js m Ha Hv Hs Hj; simpl.
  { intros [= <- <-]. eauto. }
  apply StronglySorted_inv in Hs as [Hs Hlt].
  apply Forall_cons in Hj as [(Hmn & Hnn & Hvn & Hln) Hj].
  destruct (joins_loop _ _ _) as [js' m'] eqn:Hjl. intros [= <- <-].
  assert (Hch : change (joinStep merged n) = value merged + value n).
  { unfold joinStep. by rewrite (proj2 (Z.ltb_lt _ _) Hmn). }
  set (u := delete (leafIndex n) (spent_of st merged)).
  set (merged' := mkPlannableNote (-1) asset (change (joinStep merged n))) in *.
  destruct (IH (u, Some (value merged + value n)) merged' js' m')
    as (st' & He & Ha' & Hsp); [|simpl; lia|done| |done|].
  - unfold available. simpl. by rewrite Hch.
  - rewrite Forall_forall in *. intros x Hx. specialize (Hlt x Hx). unfold leaf_lt in Hlt.
    destruct (Hj x Hx) as (Hmx & Hx0 & Hvx & Hlx). repeat split; simpl; try lia.
    unfold u, spent_of. rewrite lookup_delete_ne by lia.
    destruct (decide _); [done|]. by rewrite lookup_delete_ne by lia.
  - exists st'. split_and!; [|done|done].
    cbn [exec_steps]. by rewrite (exec_join_step st merged n).
Qed.

Lemma ledger_of_lookup notes n :
  NoDup (leafIndex <$> notes) → n ∈ notes →
  ledger_of notes !! leafIndex n = Some (value n).
Proof.
  intros Hnd Hin. apply elem_of_list_to_map_1.
  - rewrite <- list_fmap_compose. by rewrite (list_fmap_ext _ leafIndex) by done.
  - by apply (list_elem_of_fmap_2 (λ n, (leafIndex n, value n))).
Qed.

Lemma leaf_sorted l : NoDup (leafIndex <$> l) → StronglySorted leaf_lt (js_sort leaf_cmp l).
Proof.
  intros Hnd.
  assert (Hs : StronglySorted (λ a b, leaf_cmp a b <= 0) (js_sort leaf_cmp l)).
  { apply js_sort_sorted; unfold leaf_cmp; lia. }
  assert (Hnd' : NoDup (leafIndex <$> js_sort leaf_cmp l)).
  { by rewrite (js_sort_perm leaf_cmp l). }
  induction Hs as [|a s Hs IH Hf]; [constructor|].
  apply NoDup_cons in Hnd' as [Hna Hnd']. constructor; [auto|].
  rewrite Forall_forall in *. intros b Hb. specialize (Hf b Hb).
  unfold leaf_cmp in Hf. unfold leaf_lt.
  assert (leafIndex a ≠ leafIndex b); [|lia].
  intros E. apply Hna. rewrite E. by apply list_elem_of_fmap_2.
Qed.

Lemma candidates_NoDup notes asset :
  NoDup (leafIndex <$> notes) → NoDup (leafIndex <$> forAsset notes asset).
Proof.
  intros Hnd. unfold forAsset. rewrite (js_sort_perm note_cmp).
  eapply sublist_NoDup; [exact Hnd|]. apply sublist_fmap, sublist_filter.
Qed.

Lemma joins_are_joins rest asset : ∀ merged js m,
  joins_loop merged rest asset = (js, m) → Forall (λ s, op s = JOIN ∧ outgoing s = 0) js.
Proof.
  induction rest as [|n rest IH]; intros merged js m; simpl; [by intros [= <- <-]|].
  destruct (joins_loop _ _ _) as [js' m'] eqn:Hj. intros [= <- <-].
  constructor; [|by eapply IH]. unfold joinStep. by case_match; simplify_eq/=.
Qed.

Lemma exec_chain notes first others o asset js m tgt :
  NoDup (leafIndex <$> notes) →
  (∀ x, x ∈ first :: others → x ∈ notes ∧ 0 <= leafIndex x ∧ 0 <= value x) →
  StronglySorted leaf_lt (first :: others) →
  joins_loop first others asset = (js, m) → o ≠ JOIN → 0 <= tgt <= value m →
  exec_steps (ledger_of notes, None)
    (js ++ [mkPlanStep o [leafIndex m] tgt (value m - tgt)])
  = Some (delete_all (ledger_of notes) (first :: others), Some (value m - tgt)).
Proof.
  intros Hnd Hin [Hs Hlt]%StronglySorted_inv Hj Ho Ht.
  destruct (Hin first) as (Hfn & Hf0 & Hfv); [left|].
  destruct (exec_joins others asset (ledger_of notes, None) first js m)
    as (st' & He & Ha & Hsp); [| done | done | | done |].
  - unfold available. rewrite decide_False by lia. split; [by apply ledger_of_lookup|done].
  - rewrite Forall_forall in *. intros x Hx. destruct (Hin x) as (? & ? & ?); [by right|].
    repeat split; [by apply Hlt|done|done|by apply ledger_of_lookup].
  - rewrite exec_steps_app, He. simpl. rewrite exec_spend_step by (done || lia). simpl.
    rewrite Hsp. unfold spent_of. by rewrite decide_False by lia.
Qed.

(** ** Properties *)

(** A plan exists exactly for the amounts that the wallet advertises as
    spendable: [planSpend] succeeds if and only if the target is positive and
    at most the [withPlan] figure of [spendableBalance]. *)
Theorem planSpend_iff_withPlan notes intent policy :
  is_ok (planSpend notes intent policy) = true ↔
  0 < target intent <= withPlan (spendableBalance notes (intent_assetId intent) policy).
Proof.
  set (c := forAsset notes (intent_assetId intent)).
  assert (Hs := forAsset_sorted notes (intent_assetId intent)).
  assert (Hp := forAsset_nonneg notes (intent_assetId intent)). fold c in Hs, Hp.
  split.
  - destruct (planSpend notes intent policy) as [plan|] eqn:Hok; [intros _|done].
    apply planSpend_Ok in Hok as (Ht & Hne & Hb). split; [done|].
    destruct (bestFit _ _ _) as [n|] eqn:Hbf.
    + apply bestFit_loop_spec in Hbf; [|done].
      assert (n ∈ c ∧ target intent <= value n) as [Hn Hv] by naive_solver.
      etrans; [exact Hv|]. transitivity (sumZ value [n]); [simpl; lia|].
      apply candidate_sum_le_withPlan; [by apply singleton_sublist_l|simpl; lia].
    + destruct Hb as (cover & _ & _ & _ & _ & Hm & _ & _ & Hlen & _).
      apply minimalCover_Some in Hm as (i & Hw & _ & _ & Hcov & _); [|done..].
      etrans; [exact Hcov|]. apply candidate_sum_le_withPlan; [|lia].
      by eapply window_sublist.
  - intros [Ht Hle]. rewrite withPlan_eq in Hle. fold c in Hle.
    set (M := Z.to_nat _) in Hle. set (tl := drop (length c - M) c) in Hle.
    assert (Htl : tl `sublist_of` c) by apply sublist_drop.
    assert (HM : (length tl <= M)%nat) by (unfold tl; rewrite length_drop; lia).
    assert (Hne : c ≠ []). { intros E. apply sublist_length in Htl. rewrite E in Htl.
      destruct tl; simpl in *; lia. }
    enough (∃ plan, planSpend notes intent policy = Ok plan) as [? ->] by done.
    setoid_rewrite planSpend_Ok. fold c. simpl.
    destruct (bestFit _ _ _) as [n|] eqn:Hbf; [eauto|].
    apply bestFit_loop_spec in Hbf as [_ Hsmall]; [|done].
    destruct (minimalCover c (target intent)) as [cover|] eqn:Hm.
    2: { apply minimalCover_None in Hm; [|done..].
         assert (sumZ value tl <= sumZ value c) by (by apply sumZ_sublist). lia. }
    apply minimalCover_Some in Hm as (i & Hw & _ & Hpos & Hcov & Hmin & _); [|done..].
    specialize (Hmin tl Htl Hle).
    assert (Hlen : Z.of_nat (length cover) <= maxSteps policy).
    { destruct (Z.leb_spec (Z.of_nat (length cover)) (maxSteps policy)); [done|].
      assert (length cover = 1)%nat as H1 by lia.
      destruct cover as [|x [|]]; simplify_eq/=.
      assert (x ∈ c) as Hx.
      { eapply elem_of_sublist; [|eapply (window_sublist c [x]); exact Hw]. left. }
      rewrite Forall_forall in Hsmall. specialize (Hsmall x Hx). lia. }
    assert (Hl := js_sort_length leaf_cmp cover).
    destruct (js_sort leaf_cmp cover) as [|f o] eqn:Hsort; [simpl in Hl; lia|].
    destruct (joins_loop f o (intent_assetId intent)) as [js m] eqn:Hj.
    eexists. split_and!; [done|done|]. naive_solver.
Qed.


(** C24. Executing a plan: on a wallet of distinct nonnegative leaves, the steps
    run in order on the note ledger without ever missing an input, creating
    value or spending a note twice; they consume exactly a selection of the
    wallet's notes of that asset worth [totalSelected], pay out the target and
    leave [totalSelected - target] as the final change, in one step per
    selected note and within the policy's step limit. *)
Theorem planSpend_executes notes intent policy plan :
  NoDup (leafIndex <$> notes) →
  Forall (λ n, 0 <= leafIndex n) notes →
  intent_op intent ≠ JOIN →
  planSpend notes intent policy = Ok plan →
  ∃ sel joins last,
    sel ⊆ notes ∧ Forall (λ n, assetId n = intent_assetId intent) sel ∧
    NoDup (leafIndex <$> sel) ∧ totalSelected plan = sumZ value sel ∧
    exec_steps (ledger_of notes, None) (steps plan)
    = Some (delete_all (ledger_of notes) sel, Some (totalSelected plan - target intent)) ∧
    steps plan = joins ++ [last] ∧ op last = intent_op intent ∧
    outgoing last = target intent ∧ Forall (λ s, op s = JOIN ∧ outgoing s = 0) joins ∧
    joinsRequired plan = Z.of_nat (length joins) ∧
    length (steps plan) = length sel ∧
    Z.of_nat (length (steps plan)) <= Z.max 1 (maxSteps policy).
Proof.
  intros Hnd Hnn Hop (Ht & _ & Hb)%planSpend_Ok. rewrite Forall_forall in Hnn.
  assert (Hs := forAsset_sorted notes (intent_assetId intent)).
  assert (Hp := forAsset_nonneg notes (intent_assetId intent)).
  assert (Hndc := candidates_NoDup notes (intent_assetId intent) Hnd).
  assert (Hel := elem_of_forAsset notes (intent_assetId intent)).
  set (c := forAsset notes (intent_assetId intent)) in *.
  destruct (bestFit c (target intent) policy) as [n|] eqn:Hbf.
  - subst plan. simpl. apply bestFit_loop_spec in Hbf; [|done].
    assert (n ∈ c ∧ target intent <= value n) as [Hn Hv] by naive_solver.
    apply Hel in Hn as (Hn & Has & _). assert (Hl0 := Hnn n Hn).
    exists [n], [], (mkPlanStep (intent_op intent) [leafIndex n] (target intent)
                       (value n - target intent)).
    split_and!; try done; simpl.
    + intros x ->%list_elem_of_singleton. done.
    + by constructor.
    + apply NoDup_singleton.
    + lia.
    + rewrite exec_spend_step; [|  |lia|done|done].
      * unfold spent_of. by rewrite decide_False by lia.
      * unfold available. rewrite decide_False by lia.
        split; [by apply ledger_of_lookup|done].
    + lia.
  - destruct Hb as (cover & first & others & js & m & Hm & Hso & Hj & Hlen & ->).
    apply minimalCover_Some in Hm as (i & Hw & _ & Hpos & Hcov & _); [|done..].
    apply window_sublist in Hw.
    assert (Hsel : first :: others ≡ₚ cover) by by rewrite <- Hso, js_sort_perm.
    assert (Hsub : ∀ x, x ∈ first :: others → x ∈ c).
    { intros x Hx. rewrite Hsel in Hx. by eapply elem_of_sublist. }
    assert (Hndo : NoDup (leafIndex <$> cover)).
    { eapply sublist_NoDup; [exact Hndc|]. by apply sublist_fmap. }
    assert (Hsorted := leaf_sorted cover Hndo). rewrite Hso in Hsorted.
    destruct (joins_loop_spec _ _ _ _ _ Hj) as (Hljs & Hvm & _).
    assert (Hsum : sumZ value cover = value m).
    { rewrite <- (sumZ_perm _ _ _ Hsel), Hvm. done. }
    assert (Hlc := Permutation_length Hsel). simpl in Hlc.
    exists (first :: others), js, (mkPlanStep (intent_op intent) [leafIndex m] (target intent)
                       (sumZ value cover - target intent)).
    simpl. rewrite length_app. simpl. split_and!; try done; try lia.
    + intros x Hx%Hsub%Hel. naive_solver.
    + apply Forall_forall. intros x Hx%Hsub%Hel. naive_solver.
    + change (NoDup (leafIndex <$> first :: others)). by rewrite Hsel.
    + change (foldl _ _ _) with (delete_all (ledger_of notes) (first :: others)).
      rewrite Hsum. apply (exec_chain _ _ _ _ (intent_assetId intent)); try done; try lia.
      intros x Hx%Hsub%Hel. naive_solver lia.
    + eapply joins_are_joins; exact Hj.
Qed.

(** A wallet of three notes used by the witnesses. *)
Lemma planSpend_executes_witness :
  ∃ sel joins last,
    sel ⊆ pool3 ∧ Forall (λ n, assetId n = "usdc") sel ∧
    NoDup (leafIndex <$> sel) ∧ 16 = sumZ value sel ∧
    exec_steps (ledger_of pool3, None)
      [mkPlanStep JOIN [2; 4] 0 6; mkPlanStep JOIN [-1; 9] 0 16;
       mkPlanStep TRANSFER [-1] 16 0]
    = Some (delete_all (ledger_of pool3) sel, Some 0) ∧
    [mkPlanStep JOIN [2; 4] 0 6; mkPlanStep JOIN [-1; 9] 0 16;
     mkPlanStep TRANSFER [-1] 16 0] = joins ++ [last] ∧ op last = TRANSFER ∧
    outgoing last = 16 ∧ Forall (λ s, op s = JOIN ∧ outgoing s = 0) joins ∧
    2 = Z.of_nat (length joins) ∧ 3%nat = length sel ∧ 3 <= 8.
Proof.
  apply (planSpend_executes pool3 (mkIntent TRANSFER "usdc" 16) DEFAULT_PLAN_POLICY
           (mkActionPlan
              [mkPlanStep JOIN [2; 4] 0 6; mkPlanStep JOIN [-1; 9] 0 16;
               mkPlanStep TRANSFER [-1] 16 0] 2 16)).
  - apply (bool_decide_unpack _). reflexivity.
  - repeat constructor; done.
  - done.
  - reflexivity.
Defined.

(** No plan uses more steps than necessary: any collection of the
    asset's notes that is worth the target has at least as many notes as the
    plan has steps. *)
Theorem planSpend_fewest_steps notes intent policy plan s :
  planSpend notes intent policy = Ok plan →
  s `sublist_of` forAsset notes (intent_assetId intent) →
  target intent <= sumZ value s →
  (length (steps plan) <= length s)%nat.
Proof.
  intros (Ht & _ & Hb)%planSpend_Ok Hsub Hcov.
  destruct (bestFit _ _ _) as [n|].
  - subst plan. simpl. destruct s; simpl in *; lia.
  - destruct Hb as (cover & first & others & js & m & Hm & Hso & Hj & _ & ->). simpl.
    apply minimalCover_Some in Hm as (i & _ & _ & _ & _ & Hmin & _);
      [|apply forAsset_sorted|apply forAsset_nonneg|done].
    specialize (Hmin s Hsub Hcov). rewrite length_app. simpl.
    apply joins_loop_spec in Hj as [-> _].
    assert (Hl := js_sort_length leaf_cmp cover). rewrite Hso in Hl. simpl in Hl. lia.
Qed.

Lemma planSpend_fewest_steps_witness : (3 <= 3)%nat.
Proof.
  apply (planSpend_fewest_steps pool3 (mkIntent TRANSFER "usdc" 16) DEFAULT_PLAN_POLICY
           (mkActionPlan
              [mkPlanStep JOIN [2; 4] 0 6; mkPlanStep JOIN [-1; 9] 0 16;
               mkPlanStep TRANSFER [-1] 16 0] 2 16)
           (forAsset pool3 "usdc")).
  - reflexivity.
  - reflexivity.
  - vm_compute. discriminate.
Defined.

(** Note selection: on the candidate list, [bestFit] finds nothing exactly
    when no note covers the target; a note it returns covers the target, and
    is the smallest covering note that leaves no dust, or, when every covering
    note would leave dust, the smallest covering note. *)
Theorem bestFit_optimal notes asset tgt policy :
  let c := forAsset notes asset in
  (bestFit c tgt policy = None ↔ ∀ m, m ∈ c → value m < tgt) ∧
  ∀ n, bestFit c tgt policy = Some n →
    n ∈ c ∧ tgt <= value n ∧
    ((~ dusty policy tgt n ∧
      ∀ m, m ∈ c → tgt <= value m → ~ dusty policy tgt m → value n <= value m) ∨
     ((∀ m, m ∈ c → tgt <= value m → dusty policy tgt m) ∧
      ∀ m, m ∈ c → tgt <= value m → value n <= value m)).
Proof.
  intros c. assert (Hs := forAsset_sorted notes asset). fold c in Hs.
  assert (Hspec := λ r, bestFit_loop_spec c tgt policy None r Hs). unfold bestFit.
  split; [split|].
  - intros [_ H]%Hspec. by apply Forall_forall.
  - intros H. destruct (bestFit_loop _ _ _ _) as [n|] eqn:E; [|done].
    specialize (Hspec _ eq_refl). exfalso. assert (n ∈ c ∧ tgt <= value n) as [Hn Hv] by naive_solver.
    specialize (H n Hn). lia.
  - intros n E%Hspec. naive_solver.
Qed.

(** What a failed plan reports is the true reason: a nonpositive target;
    no note of the asset; a total balance below the target, with the exact
    figures; or a cover that needs more steps than the policy allows, with
    the number of steps it needs.  The [TypeError] branch is unreachable. *)
Theorem planSpend_errors notes intent policy e :
  planSpend notes intent policy = Err e →
  let c := forAsset notes (intent_assetId intent) in
  (target intent <= 0 ∧
   e = Throw_PlanError (mkPlanError NON_POSITIVE_TARGET [("target", DNum (target intent))])) ∨
  (0 < target intent ∧ c = [] ∧
   e = Throw_PlanError
         (mkPlanError NO_NOTES_FOR_ASSET [("assetId", DStr (intent_assetId intent))])) ∨
  (sumZ value c < target intent ∧
   e = Throw_PlanError (mkPlanError INSUFFICIENT_TOTAL
         [("held", DNum (sumZ value c)); ("needed", DNum (target intent))])) ∨
  (target intent <= sumZ value c ∧ ∃ k,
   maxSteps policy < k ∧
   (∀ s, s `sublist_of` c → target intent <= sumZ value s → k <= Z.of_nat (length s)) ∧
   e = Throw_PlanError (mkPlanError EXCEEDS_MAX_STEPS
         [("steps", DNum k); ("limit", DNum (maxSteps policy))])).
Proof.
  intros H c. unfold planSpend in H. fold c in H.
  assert (Hs := forAsset_sorted notes (intent_assetId intent)).
  assert (Hp := forAsset_nonneg notes (intent_assetId intent)). fold c in Hs, Hp.
  destruct (Z.leb_spec (target intent) 0) as [|Ht]; [left; naive_solver|right].
  destruct c as [|n0 c0] eqn:Hc; [left; naive_solver|right]. rewrite <- Hc in *.
  destruct (bestFit _ _ _) as [n|]; [done|].
  destruct (minimalCover _ _) as [cover|] eqn:Hm.
  2: { apply minimalCover_None in Hm; [|done..]. left. split; [done|].
       rewrite foldl_sumZ in H. by injection H as <-. }
  right. apply minimalCover_Some in Hm as (i & Hw & _ & Hpos & Hcov & Hmin & _); [|done..].
  assert (Hl := js_sort_length leaf_cmp cover).
  destruct (js_sort leaf_cmp cover) as [|first others]; [simpl in Hl; lia|].
  destruct (joins_loop _ _ _) as [js m] eqn:Hj.
  apply joins_loop_spec in Hj as [Hj _]. rewrite length_app in H. simpl in H, Hl.
  destruct (Z.ltb_spec (maxSteps policy) (Z.of_nat (length js + 1))); [|done].
  injection H as <-. split.
  - etrans; [exact Hcov|]. apply sumZ_sublist; [done|]. by eapply window_sublist.
  - eexists. split_and!; [done| |done]. intros s Hsub Hsc. specialize (Hmin s Hsub Hsc). lia.
Qed.

Lemma planSpend_errors_witness :
  let c := forAsset pool3 "usdc" in
  sumZ value c < 17 ∨ 17 <= sumZ value c.
Proof.
  assert (W := planSpend_errors pool3 (mkIntent TRANSFER "usdc" 17) DEFAULT_PLAN_POLICY
    (Throw_PlanError (mkPlanError INSUFFICIENT_TOTAL [("held", DNum 16); ("needed", DNum 17)]))
    eq_refl).
  cbn zeta. cbn [target intent_assetId] in W.
  destruct W as [[H _]|[(_ & H & _)|[[H _]|[H _]]]]; [|done|by left|by right].
  destruct (H eq_refl).
Defined.

(** The sliding window does not always find the cheapest cover of minimal
    size: with notes of value 1, 5 and 10 and a target of 11, two notes are
    needed and [minimalCover] selects 5 + 10, although 1 + 10 covers the
    target with the smaller sum. *)
Theorem minimalCover_not_smallest :
  ∃ sorted best other,
    StronglySorted (λ a b, value a <= value b) sorted ∧
    minimalCover sorted 11 = Some best ∧ other `sublist_of` sorted ∧
    length other = length best ∧ 11 <= sumZ value other ∧ sumZ value other < sumZ value best.
Proof.
  exists (forAsset pool3 "usdc"), [mkPlannableNote 4 "usdc" 5; mkPlannableNote 9 "usdc" 10],
    [mkPlannableNote 2 "usdc" 1; mkPlannableNote 9 "usdc" 10].
  split_and!; [apply forAsset_sorted|reflexivity| |reflexivity|vm_compute; discriminate|reflexivity].
  cbn. repeat constructor.
Qed.
End Plan.
