(* ===== verification/Tree.v ===== *)
(** * The LeanIMT trees and the Merkle witness sources

    Three pieces of code share one tree: the SDK's [LeanIMT]
    ([packages/sdk/src/merkle/LeanIMT.ts]), the indexer's mirror of it
    ([packages/indexer/src/tree/leanImt.ts]) and the witness sources of
    [packages/sdk/src/tx/witnessSources.ts].  Each is a module here; all are
    specified against [Spec.lvl], the levels of the tree over a list of leaves.
    A field element is its canonical integer; the Poseidon v1 permutation
    (circomlibjs, poseidon-lite) is the parameter [poseidon_v1]. *)
From S2P Require Import Prelude.

(** The circom Poseidon over BN254, as both libraries export it. *)
Class PoseidonV1 := poseidon_v1 : list Z → Z.

(** [poseidonV1Hash3] of the SDK and [hash3] of the indexer. *)
Definition poseidonV1Hash3 `{PoseidonV1} (left right level : Z) : Z :=
  poseidon_v1 [left; right; level].
Definition hash3 `{PoseidonV1} (left right level : Z) : Z :=
  poseidon_v1 [left; right; level].

(** ** [t[i] = v] on an array, and the sibling read *)

(** JavaScript's [a[i] = v]: in range it overwrites, past the end it extends
    the array; the holes it leaves read as [undefined], which the trees read
    as [0]. *)
Definition js_set (l : list Z) (i : nat) (v : Z) : list Z :=
  if (i <? length l)%nat then <[i := v]> l
  else l ++ replicate (i - length l) 0%Z ++ [v].

(** The bound-checked sibling read of both trees, [0] past the end. *)
Definition read0 (l : list Z) (i : nat) : Z := default 0%Z (l !! i).

Definition sibling (i : nat) : nat := if Nat.even i then S i else (i - 1)%nat.

(** ** The SDK tree *)
Module Sdk.
Section Sdk.
Context `{PoseidonV1}.
Local Open Scope Z_scope.

Inductive TreeError := InvalidDepth | LeafZero | TreeFull | IndexOutOfBounds.

Record LeanIMT := mkLeanIMT {
  depth : nat;
  levels : list (list Z);
  nextLeafIndex : nat;
  currentRoot : Z;
}.

Definition constructor (depth : nat) : result TreeError LeanIMT :=
  if (depth <? 1)%nat || (32 <? depth)%nat then Err InvalidDepth
  else Ok (mkLeanIMT depth (replicate depth []) 0 0).

(** The four-way choice of the loop body: an empty sibling passes through. *)
Definition nodeOf (left right : Z) (level : nat) : Z :=
  if (left =? 0) && (right =? 0) then 0
  else if right =? 0 then left
  else if left =? 0 then right
  else poseidonV1Hash3 left right (Z.of_nat level).

(** The insert loop from [level], with [todo = depth - level] rounds left. *)
Fixpoint insert_loop (depth todo level : nat) (levels : list (list Z)) (node : Z) (idx : nat) :
    list (list Z) * Z :=
  match todo with
  | O => (levels, node)
  | S todo =>
      let currentLevel := default [] (levels !! level) in
      let siblingNode :=
        if (sibling idx <? length currentLevel)%nat then read0 currentLevel (sibling idx) else 0 in
      let left := if Nat.even idx then node else siblingNode in
      let right := if Nat.even idx then siblingNode else node in
      let node := nodeOf left right level in
      let parentIndex := (idx / 2)%nat in
      let levels :=
        if (level <? depth - 1)%nat then
          let nextLevel := default [] (levels !! S level) in
          <[S level := if (length nextLevel <=? parentIndex)%nat then nextLevel ++ [node]
                       else <[parentIndex := node]> nextLevel]> levels
        else levels in
      insert_loop depth todo (S level) levels node parentIndex
  end.

Definition insert (t : LeanIMT) (leaf : Z) : result TreeError (LeanIMT * Z) :=
  if leaf =? 0 then Err LeafZero
  else
    let leafIndex := nextLeafIndex t in
    let capacity := 2 ^ Z.of_nat (depth t) in
    if capacity <=? Z.of_nat leafIndex then Err TreeFull
    else
      let levels := alter (λ l, l ++ [leaf]) 0%nat (levels t) in
      let '(levels, node) := insert_loop (depth t) (depth t) 0 levels leaf leafIndex in
      Ok (mkLeanIMT (depth t) levels (S leafIndex) node, node).

Definition getRoot (t : LeanIMT) : Z := currentRoot t.

(** The path loop: [todo] levels from [level] with the running index. *)
Fixpoint path_loop (t : LeanIMT) (todo level idx : nat) : list Z :=
  match todo with
  | O => []
  | S todo =>
      let currentLevel := default [] (levels t !! level) in
      (if (sibling idx <? length currentLevel)%nat then read0 currentLevel (sibling idx) else 0)
        :: path_loop t todo (S level) (idx / 2)
  end.

Definition getMerklePath (t : LeanIMT) (index : nat) : result TreeError (list Z) :=
  if (nextLeafIndex t <=? index)%nat then Err IndexOutOfBounds
  else Ok (path_loop t (depth t) 0 index).

End Sdk.
End Sdk.

(** ** The indexer's mirror *)
Module Mirror.
Section Mirror.
Context `{PoseidonV1}.
Local Open Scope Z_scope.

Inductive TreeError := InvalidDepth | LeafZero | TreeFull | IndexOutOfBounds.

Record LeanIMT := mkLeanIMT {
  depth : nat;
  levels : list (list Z);
  nextIndex : nat;
  root : Z;
}.

Definition constructor (depth : nat) : result TreeError LeanIMT :=
  if (depth <? 1)%nat || (32 <? depth)%nat then Err InvalidDepth
  else Ok (mkLeanIMT depth (replicate (depth + 1) []) 0 0).

Definition nextLeafIndex (t : LeanIMT) : nat := nextIndex t.
Definition getRoot (t : LeanIMT) : Z := root t.

Definition parentOf (left right : Z) (level : nat) : Z :=
  if (left =? 0) && (right =? 0) then 0
  else if right =? 0 then left
  else if left =? 0 then right
  else hash3 left right (Z.of_nat level).

Fixpoint insert_loop (todo level : nat) (levels : list (list Z)) (node : Z) (idx : nat) :
    list (list Z) * Z :=
  match todo with
  | O => (levels, node)
  | S todo =>
      let sib := read0 (default [] (levels !! level)) (sibling idx) in
      let left := if Nat.even idx then node else sib in
      let right := if Nat.even idx then sib else node in
      let parent := parentOf left right level in
      let parentIndex := (idx / 2)%nat in
      let levels := alter (λ l, js_set l parentIndex parent) (S level) levels in
      insert_loop todo (S level) levels parent parentIndex
  end.

Definition insert (t : LeanIMT) (leaf : Z) : result TreeError (LeanIMT * Z) :=
  if leaf =? 0 then Err LeafZero
  else
    let capacity := 2 ^ Z.of_nat (depth t) in
    if capacity <=? Z.of_nat (nextIndex t) then Err TreeFull
    else
      let leafIndex := nextIndex t in
      let levels := alter (λ l, js_set l leafIndex leaf) 0%nat (levels t) in
      let '(levels, node) := insert_loop (depth t) 0 levels leaf leafIndex in
      Ok (mkLeanIMT (depth t) levels (S (nextIndex t)) node, node).

Fixpoint path_loop (t : LeanIMT) (todo level idx : nat) : list Z :=
  match todo with
  | O => []
  | S todo =>
      read0 (default [] (levels t !! level)) (sibling idx) :: path_loop t todo (S level) (idx / 2)
  end.

Definition getPath (t : LeanIMT) (leafIndex : Z) : result TreeError (list Z) :=
  if (leafIndex <? 0) || (Z.of_nat (nextIndex t) <=? leafIndex) then Err IndexOutOfBounds
  else Ok (path_loop t (depth t) 0 (Z.to_nat leafIndex)).
End Mirror.
End Mirror.

(** ** The witness sources *)
Module Witness.
Section Witness.
Context `{PoseidonV1}.
Local Open Scope Z_scope.

Inductive WitnessReason := LEAF_NOT_FOUND | MALFORMED_RESPONSE | ROOT_MISMATCH | TRANSPORT.

(** What a source throws: its own typed error, an error of the tree, or the
    [Fr.fromString] error of a field element that does not parse. *)
Inductive WitnessSourceError :=
  | WitnessError (reason : WitnessReason)
  | Tree_error (e : Sdk.TreeError)
  | Fr_error.

Record MerkleWitness := mkMerkleWitness {
  leafIndex : Z;
  siblings : list Z;
  root : Z;
}.

(** The fold of [foldPath] from level [i]. *)
Fixpoint fold_loop (current leafIndex : Z) (i : nat) (siblings : list Z) :
    result WitnessSourceError Z :=
  match siblings with
  | [] => Ok current
  | sibling :: rest =>
      let bit := Z.land (Z.shiftr leafIndex (Z.of_nat i)) 1 in
      if negb (sibling =? 0) then
        let left := if bit =? 1 then sibling else current in
        let right := if bit =? 1 then current else sibling in
        fold_loop (poseidonV1Hash3 left right (Z.of_nat i)) leafIndex (S i) rest
      else if bit =? 1 then Err (WitnessError MALFORMED_RESPONSE)
      else fold_loop current leafIndex (S i) rest
  end.

Definition foldPath (leaf leafIndex : Z) (siblings : list Z) : result WitnessSourceError Z :=
  fold_loop leaf leafIndex 0 siblings.

(** [LocalTreeWitnessSource.witnessFor]. *)
Definition local_witnessFor (tree : Sdk.LeanIMT) (leaf : Z) :
    result WitnessSourceError MerkleWitness :=
  match Sdk.levels tree !! 0%nat ≫= list_find (λ l, l = leaf) with
  | None => Err (WitnessError LEAF_NOT_FOUND)
  | Some (leafIndex, _) =>
      match Sdk.getMerklePath tree leafIndex with
      | Err e => Err (Tree_error e)
      | Ok siblings => Ok (mkMerkleWitness (Z.of_nat leafIndex) siblings (Sdk.getRoot tree))
      end
  end.

(** What a remote answer may hold; [None] is a value of another type
    (a fraction for the index, a non-array, a non-string). *)
Record RawWitness := mkRawWitness {
  raw_leafIndex : option Z;
  raw_siblings : option (list string);
  raw_root : option string;
}.

(** [Fr.fromString] and [Fr#toString] of [@aztec/foundation]. *)
Context (fr_fromString : string → option Z) (fr_toString : Z → string).

Definition parse_fr (s : string) : result WitnessSourceError Z :=
  match fr_fromString s with Some x => Ok x | None => Err Fr_error end.

(** [IndexerWitnessSource.witnessFor]; a [transport] that throws is [None]. *)
Definition indexer_witnessFor (transport : string → option RawWitness) (depth : nat) (leaf : Z) :
    result WitnessSourceError MerkleWitness :=
  match transport (fr_toString leaf) with
  | None => Err (WitnessError TRANSPORT)
  | Some (mkRawWitness (Some leafIndex) (Some raw_siblings) (Some raw_root)) =>
      if (leafIndex <? 0) || negb (length raw_siblings =? depth)%nat
      then Err (WitnessError MALFORMED_RESPONSE)
      else
        siblings ← map_res parse_fr raw_siblings;
        root ← parse_fr raw_root;
        recomputed ← foldPath leaf leafIndex siblings;
        if negb (recomputed =? root) then Err (WitnessError ROOT_MISMATCH)
        else Ok (mkMerkleWitness leafIndex siblings root)
  | Some _ => Err (WitnessError MALFORMED_RESPONSE)
  end.
End Witness.
End Witness.

(** ** The specification: the levels of the tree over a list of leaves *)
Module Spec.
Section Spec.
Context `{PoseidonV1}.
Local Open Scope Z_scope.

(** One level up: neighbours are combined, a last odd node passes through. *)
Fixpoint pairs (level : nat) (l : list Z) : list Z :=
  match l with
  | [] => []
  | [a] => [Sdk.nodeOf a 0 level]
  | a :: b :: rest => Sdk.nodeOf a b level :: pairs level rest
  end.

Fixpoint lvl (leaves : list Z) (k : nat) : list Z :=
  match k with O => leaves | S k => pairs k (lvl leaves k) end.

(** The root of a tree of depth [d], [0] for the empty tree. *)
Definition root (d : nat) (leaves : list Z) : Z := read0 (lvl leaves d) 0.

(** The sibling path of leaf [i]. *)
Definition path (d : nat) (leaves : list Z) (i : nat) : list Z :=
  (λ k, read0 (lvl leaves k) (sibling (i / 2 ^ k))) <$> seq 0 d.

(** Writing at an index at most the length. *)
Definition upd (l : list Z) (i : nat) (v : Z) : list Z :=
  if (length l <=? i)%nat then l ++ [v] else <[i := v]> l.

Lemma read0_ge l i : (length l <= i)%nat → read0 l i = 0.
Proof. intros Hl. unfold read0. by rewrite lookup_ge_None_2. Qed.

Lemma read0_ext l k :
  length l = length k → (∀ i, read0 l i = read0 k i) → l = k.
Proof.
  intros Hl Hr. apply list_eq. intros i. specialize (Hr i). unfold read0 in Hr.
  destruct (decide (i < length l)%nat) as [Hi|Hi].
  - destruct (lookup_lt_is_Some_2 l i Hi) as [x Hx].
    destruct (lookup_lt_is_Some_2 k i ltac:(lia)) as [y Hy].
    rewrite Hx, Hy in *. simpl in Hr. by subst.
  - by rewrite !lookup_ge_None_2 by lia.
Qed.

Lemma length_upd l i v : (i <= length l)%nat → length (upd l i v) = Nat.max (length l) (S i).
Proof.
  intros Hi. unfold upd. destruct (Nat.leb_spec (length l) i).
  - rewrite length_app. simpl. lia.
  - rewrite length_insert. lia.
Qed.

Lemma read0_upd l i v j : (i <= length l)%nat →
  read0 (upd l i v) j = if decide (j = i) then v else read0 l j.
Proof.
  intros Hi. unfold upd, read0. destruct (Nat.leb_spec (length l) i) as [Hle|Hlt].
  - destruct (decide (j = i)) as [->|].
    + rewrite lookup_app_r by lia. by replace (i - length l)%nat with 0%nat by lia.
    + destruct (decide (j < length l)%nat); [by rewrite lookup_app_l|].
      rewrite !lookup_ge_None_2; [done|lia|rewrite length_app; simpl; lia].
  - destruct (decide (j = i)) as [->|]; [by rewrite list_lookup_insert_eq|].
    by rewrite list_lookup_insert_ne.
Qed.

Lemma nodeOf_0_0 k : Sdk.nodeOf 0 0 k = 0.
Proof. done. Qed.

(** Induction two elements at a time. *)
Lemma pair_ind (P : list Z → Prop) :
  P [] → (∀ a, P [a]) → (∀ a b l, P l → P (a :: b :: l)) → ∀ l, P l.
Proof. intros H0 H1 H2. fix IH 1. intros [|a [|b l]]; [exact H0|exact (H1 a)|apply H2, IH]. Qed.

Lemma length_pairs k l : length (pairs k l) = Nat.div2 (S (length l)).
Proof. induction l as [| |a b l IH] using pair_ind; simpl in *; auto. Qed.

Lemma read0_pairs k l i :
  read0 (pairs k l) i = Sdk.nodeOf (read0 l (2 * i)) (read0 l (S (2 * i))) k.
Proof.
  revert i. induction l as [| |a b l IH] using pair_ind; intros i.
  - done.
  - by destruct i.
  - destruct i as [|i]; [done|]. replace (2 * S i)%nat with (S (S (2 * i))) by lia.
    apply IH.
Qed.

(** Replacing the node at [i] of a level replaces its parent in the next. *)
Lemma pairs_upd k l i v : (i <= length l)%nat →
  pairs k (upd l i v)
  = upd (pairs k l) (i / 2)
      (Sdk.nodeOf (if Nat.even i then v else read0 l (sibling i))
                  (if Nat.even i then read0 l (sibling i) else v) k).
Proof.
  intros Hi. assert (Hd := Nat.div2_div i). rewrite <- Hd.
  assert (Hi2 : (Nat.div2 i <= length (pairs k l))%nat).
  { rewrite length_pairs, !Nat.div2_div. apply Nat.Div0.div_le_mono. lia. }
  apply read0_ext.
  - rewrite length_pairs, !length_upd, length_pairs by done.
    rewrite !Nat.div2_div. clear Hd Hi2. destruct (decide (i = length l)) as [->|].
    + rewrite !Nat.max_r; divlia.
    + rewrite !Nat.max_l; divlia.
  - intros j. rewrite read0_pairs, !read0_upd, read0_pairs by done. unfold sibling.
    destruct (Nat.even i) eqn:He.
    + apply Nat.even_spec in He as [m ->]. rewrite Nat.div2_double.
      repeat destruct (decide _); try lia; try done. by subst.
    + assert (Ho : Nat.odd i = true) by (by rewrite <- Nat.negb_even, He).
      apply Nat.odd_spec in Ho as [m ->]. rewrite Nat.add_1_r, Nat.div2_succ_double.
      repeat destruct (decide _); try lia; try done. subst.
      by replace (S (2 * m) - 1)%nat with (2 * m)%nat by lia.
Qed.

Lemma div_pow2_S n k : (n / 2 ^ S k = n / 2 ^ k / 2)%nat.
Proof. rewrite Nat.Div0.div_div. f_equal. simpl. lia. Qed.

Lemma lvl_bound leaves k : (length leaves / 2 ^ k <= length (lvl leaves k))%nat.
Proof.
  induction k as [|k IH]; simpl lvl; [by rewrite Nat.div_1_r|].
  rewrite div_pow2_S, length_pairs, Nat.div2_div.
  apply Nat.Div0.div_le_mono. lia.
Qed.

(** Appending a leaf changes one node per level. *)
Lemma lvl_snoc leaves x k :
  let n := length leaves in
  lvl (leaves ++ [x]) k
  = upd (lvl leaves k) (n / 2 ^ k) (read0 (lvl (leaves ++ [x]) k) (n / 2 ^ k)).
Proof.
  intros n. induction k as [|k IH]; simpl lvl.
  - rewrite Nat.div_1_r. unfold upd, n. rewrite (proj2 (Nat.leb_le _ _)) by lia.
    unfold read0. rewrite lookup_app_r by lia. by rewrite Nat.sub_diag.
  - rewrite IH, pairs_upd by apply lvl_bound. rewrite <- div_pow2_S.
    rewrite read0_upd; [by rewrite decide_True|].
    rewrite div_pow2_S, length_pairs, Nat.div2_div.
    apply Nat.Div0.div_le_mono. assert (Hb := lvl_bound leaves k). unfold n. lia.
Qed.

(** The node the insert loop carries from level to level. *)
Lemma lvl_snoc_step leaves x k :
  let n := length leaves in let idx := (n / 2 ^ k)%nat in
  let node := read0 (lvl (leaves ++ [x]) k) idx in
  let sib := read0 (lvl (leaves ++ [x]) k) (sibling idx) in
  read0 (lvl (leaves ++ [x]) (S k)) (n / 2 ^ S k)
  = Sdk.nodeOf (if Nat.even idx then node else sib) (if Nat.even idx then sib else node) k.
Proof.
  intros n idx node sib. rewrite div_pow2_S. fold idx. simpl lvl. rewrite read0_pairs.
  unfold node, sib, sibling. destruct (Nat.even idx) eqn:He.
  - apply Nat.even_spec in He as [m ->].
    by rewrite <- Nat.div2_div, Nat.div2_double.
  - assert (Ho : Nat.odd idx = true) by (by rewrite <- Nat.negb_even, He).
    apply Nat.odd_spec in Ho as [m ->].
    rewrite Nat.add_1_r, <- Nat.div2_div, Nat.div2_succ_double. simpl Nat.sub.
    by rewrite Nat.sub_0_r.
Qed.

Lemma length_lvl_top leaves d :
  (length leaves <= 2 ^ d)%nat → (length (lvl leaves d) <= 1)%nat.
Proof.
  enough (∀ k, (k <= d)%nat → (length leaves <= 2 ^ d)%nat →
    (length (lvl leaves k) <= 2 ^ (d - k))%nat) as Hk.
  { intros Hl. specialize (Hk d ltac:(lia) Hl). by rewrite Nat.sub_diag in Hk. }
  intros k Hk Hl. induction k as [|k IH]; simpl lvl; [by rewrite Nat.sub_0_r|].
  rewrite length_pairs, Nat.div2_div. specialize (IH ltac:(lia)).
  replace (d - k)%nat with (S (d - S k)) in IH by lia. simpl Nat.pow in IH. divlia.
Qed.

Lemma bounded_read (l : list Z) i :
  (if (i <? length l)%nat then read0 l i else 0) = read0 l i.
Proof. destruct (Nat.ltb_spec i (length l)); [done|]. by rewrite read0_ge. Qed.

Lemma js_set_upd l i v : (i <= length l)%nat → js_set l i v = upd l i v.
Proof.
  intros Hi. unfold js_set, upd.
  destruct (Nat.ltb_spec i (length l)), (Nat.leb_spec (length l) i); try lia; [done|].
  by replace (i - length l)%nat with 0%nat by lia.
Qed.

#[local] Arguments Nat.div : simpl never.
#[local] Arguments Nat.even : simpl never.

(** ** The SDK tree implements the specification *)

(** The tree of depth [d] that holds [leaves]. *)
Record sdk_repr (t : Sdk.LeanIMT) (d : nat) (leaves : list Z) : Prop := {
  sr_depth : Sdk.depth t = d;
  sr_index : Sdk.nextLeafIndex t = length leaves;
  sr_root : Sdk.currentRoot t = root d leaves;
  sr_levels : Sdk.levels t = lvl leaves <$> seq 0 d;
}.

(** The array of levels while the loop is at [k]: new up to [k], old above. *)
Definition mixed (d k : nat) (old new : list Z) : list (list Z) :=
  (λ j, if (j <=? k)%nat then lvl new j else lvl old j) <$> seq 0 d.

Lemma mixed_lookup d k old new j : (j < d)%nat →
  mixed d k old new !! j = Some (if (j <=? k)%nat then lvl new j else lvl old j).
Proof. intros Hj. unfold mixed. rewrite list_lookup_fmap, lookup_seq_lt by done. done. Qed.

Lemma mixed_S d k old new :
  mixed d (S k) old new = <[S k := lvl new (S k)]> (mixed d k old new).
Proof.
  apply list_eq. intros j. destruct (decide (j < d)%nat) as [Hj|Hj].
  - rewrite mixed_lookup by done. destruct (decide (j = S k)) as [->|].
    + rewrite list_lookup_insert_eq; [by rewrite Nat.leb_refl|].
      unfold mixed. by rewrite length_fmap, length_seq.
    + rewrite list_lookup_insert_ne, mixed_lookup by done.
      destruct (Nat.leb_spec j (S k)), (Nat.leb_spec j k); by (lia || done).
  - rewrite !lookup_ge_None_2; [done| |];
      unfold mixed; rewrite ?length_insert, length_fmap, length_seq; lia.
Qed.

Lemma mixed_full d k old new : (d <= S k)%nat → mixed d k old new = lvl new <$> seq 0 d.
Proof.
  intros Hd. apply list_eq. intros j. destruct (decide (j < d)%nat) as [Hj|Hj].
  - rewrite mixed_lookup, list_lookup_fmap, lookup_seq_lt by done. simpl.
    destruct (Nat.leb_spec j k); [done|lia].
  - rewrite !lookup_ge_None_2; [done| |]; unfold mixed;
      rewrite ?length_fmap, ?length_seq; lia.
Qed.

Lemma sdk_insert_loop leaves x d todo k :
  let n := length leaves in let new := leaves ++ [x] in
  (k + todo = d)%nat → (1 <= d)%nat →
  Sdk.insert_loop d todo k (mixed d k leaves new) (read0 (lvl new k) (n / 2 ^ k)) (n / 2 ^ k)
  = (lvl new <$> seq 0 d, read0 (lvl new d) (n / 2 ^ d)).
Proof.
  intros n new. revert k. induction todo as [|todo IH]; intros k Hk Hd; simpl Sdk.insert_loop.
  { replace k with d by lia. by rewrite mixed_full by lia. }
  rewrite (mixed_lookup d k leaves new k) by lia. rewrite Nat.leb_refl. cbn [from_option id].
  rewrite bounded_read. pose proof (lvl_snoc_step leaves x k) as Hn. cbv zeta in Hn.
  fold new n in Hn. rewrite <- Hn, <- div_pow2_S.
  destruct (Nat.ltb_spec k (d - 1)) as [Hlt|Hge].
  - rewrite (mixed_lookup d k leaves new (S k)) by lia.
    rewrite (proj2 (Nat.leb_gt (S k) k)) by lia. cbn [from_option id].
    pose proof (lvl_snoc leaves x (S k)) as Hs. fold new n in Hs. unfold upd in Hs.
    rewrite <- Hs, <- mixed_S. apply IH; lia.
  - assert (todo = 0%nat) as -> by lia. assert (d = S k) as -> by lia.
    cbn [Sdk.insert_loop]. by rewrite mixed_full by lia.
Qed.

Lemma sdk_insert_repr t d leaves x :
  sdk_repr t d leaves → (1 <= d)%nat → x ≠ 0 → Z.of_nat (length leaves) < 2 ^ Z.of_nat d →
  ∃ t', Sdk.insert t x = Ok (t', root d (leaves ++ [x])) ∧ sdk_repr t' d (leaves ++ [x]).
Proof.
  intros [Hd Hi Hr Hl] Hd1 Hx Hcap. unfold Sdk.insert.
  rewrite (proj2 (Z.eqb_neq _ _) Hx), Hd, Hi, (proj2 (Z.leb_gt _ _) Hcap), Hl.
  assert (Hm : alter (λ l, l ++ [x]) 0%nat (lvl leaves <$> seq 0 d)
    = mixed d 0 leaves (leaves ++ [x])).
  { destruct d as [|d]; [lia|]. unfold mixed. simpl. f_equal.
    apply list_fmap_ext. intros i y Hy. apply lookup_seq in Hy as [-> _]. done. }
  rewrite Hm. pose proof (sdk_insert_loop leaves x d d 0 ltac:(lia) Hd1) as HL.
  cbv zeta in HL. rewrite Nat.div_1_r in HL. simpl lvl in HL.
  assert (Hx0 : read0 (leaves ++ [x]) (length leaves) = x).
  { unfold read0. rewrite lookup_app_r, Nat.sub_diag by lia. done. }
  rewrite Hx0 in HL. rewrite HL.
  assert (Htop : (length leaves / 2 ^ d = 0)%nat).
  { apply Nat.div_small. apply Nat2Z.inj_lt. by rewrite Nat2Z.inj_pow. }
  rewrite Htop. eexists. split; [reflexivity|].
  split; simpl; [done|rewrite length_app; simpl; lia|done|done].
Qed.

Lemma sdk_path_loop t d leaves todo k i :
  sdk_repr t d leaves → (k + todo = d)%nat →
  Sdk.path_loop t todo k (i / 2 ^ k)
  = (λ j, read0 (lvl leaves j) (sibling (i / 2 ^ j))) <$> seq k todo.
Proof.
  intros Ht. revert k. induction todo as [|todo IH]; intros k Hk; [done|].
  cbn [Sdk.path_loop seq fmap list_fmap]. rewrite <- div_pow2_S, IH by lia.
  f_equal. rewrite (sr_levels _ _ _ Ht), list_lookup_fmap, lookup_seq_lt by lia.
  apply bounded_read.
Qed.

Lemma sdk_getMerklePath t d leaves i :
  sdk_repr t d leaves →
  Sdk.getMerklePath t i
  = if (length leaves <=? i)%nat then Err Sdk.IndexOutOfBounds else Ok (path d leaves i).
Proof.
  intros Ht. unfold Sdk.getMerklePath. rewrite (sr_index _ _ _ Ht), (sr_depth _ _ _ Ht).
  case_match; [done|]. pose proof (sdk_path_loop t d leaves d 0 i Ht eq_refl) as Hp.
  rewrite Nat.div_1_r in Hp. by rewrite Hp.
Qed.

Lemma sdk_new_repr d t : Sdk.constructor d = Ok t → sdk_repr t d [].
Proof.
  unfold Sdk.constructor. case_match; [done|]. intros [= <-].
  assert (Hnil : ∀ k, lvl [] k = []) by (induction k as [|k IH]; simpl; [done|by rewrite IH]).
  split; simpl; [done|done|by unfold root; rewrite Hnil|].
  apply list_eq. intros j. destruct (decide (j < d)%nat) as [Hj|Hj].
  - rewrite lookup_replicate_2, list_lookup_fmap, lookup_seq_lt by done. simpl.
    by rewrite Hnil.
  - rewrite !lookup_ge_None_2; [done| |];
      rewrite ?length_fmap, ?length_seq, ?length_replicate; lia.
Qed.

(** ** The mirror implements the same specification *)

Record mirror_repr (t : Mirror.LeanIMT) (d : nat) (leaves : list Z) : Prop := {
  mr_depth : Mirror.depth t = d;
  mr_index : Mirror.nextIndex t = length leaves;
  mr_root : Mirror.root t = root d leaves;
  mr_levels : Mirror.levels t = lvl leaves <$> seq 0 (d + 1);
}.

Lemma mirror_insert_loop leaves x d todo k :
  let n := length leaves in let new := leaves ++ [x] in
  (k + todo = d)%nat →
  Mirror.insert_loop todo k (mixed (d + 1) k leaves new)
    (read0 (lvl new k) (n / 2 ^ k)) (n / 2 ^ k)
  = (lvl new <$> seq 0 (d + 1), read0 (lvl new d) (n / 2 ^ d)).
Proof.
  intros n new. revert k. induction todo as [|todo IH]; intros k Hk; cbn [Mirror.insert_loop].
  { replace k with d by lia. by rewrite mixed_full by lia. }
  rewrite (mixed_lookup (d + 1) k leaves new k) by lia. rewrite Nat.leb_refl.
  cbn [from_option id]. change Mirror.parentOf with Sdk.nodeOf.
  pose proof (lvl_snoc_step leaves x k) as Hn. cbv zeta in Hn.
  fold new n in Hn. rewrite <- Hn, <- div_pow2_S.
  assert (Hb : (n / 2 ^ S k <= length (lvl leaves (S k)))%nat) by apply lvl_bound.
  assert (Ha : alter (λ l, js_set l (n / 2 ^ S k) (read0 (lvl new (S k)) (n / 2 ^ S k))) (S k)
     (mixed (d + 1) k leaves new) = mixed (d + 1) (S k) leaves new); [|rewrite Ha; apply IH; lia].
  rewrite mixed_S. pose proof (mixed_lookup (d + 1) k leaves new (S k) ltac:(lia)) as Hl.
  rewrite (proj2 (Nat.leb_gt (S k) k)) in Hl by lia.
  rewrite (list_alter_insert _ _ _ _ Hl), (js_set_upd _ _ _ Hb).
  pose proof (lvl_snoc leaves x (S k)) as Hs. cbv zeta in Hs. fold n new in Hs.
  by rewrite <- Hs.
Qed.

Lemma mirror_insert_repr t d leaves x :
  mirror_repr t d leaves → x ≠ 0 → Z.of_nat (length leaves) < 2 ^ Z.of_nat d →
  ∃ t', Mirror.insert t x = Ok (t', root d (leaves ++ [x])) ∧ mirror_repr t' d (leaves ++ [x]).
Proof.
  intros [Hd Hi Hr Hl] Hx Hcap. unfold Mirror.insert.
  rewrite (proj2 (Z.eqb_neq _ _) Hx), Hd, Hi, (proj2 (Z.leb_gt _ _) Hcap), Hl.
  assert (Hm : alter (λ l, js_set l (length leaves) x) 0%nat (lvl leaves <$> seq 0 (d + 1))
    = mixed (d + 1) 0 leaves (leaves ++ [x])).
  { rewrite Nat.add_1_r. unfold mixed. simpl. rewrite js_set_upd by done.
    unfold upd. rewrite Nat.leb_refl. f_equal.
    apply list_fmap_ext. intros i y Hy. apply lookup_seq in Hy as [-> _]. done. }
  rewrite Hm. pose proof (mirror_insert_loop leaves x d d 0 ltac:(lia)) as HL.
  cbv zeta in HL. rewrite Nat.div_1_r in HL. cbn [lvl] in HL.
  assert (Hx0 : read0 (leaves ++ [x]) (length leaves) = x).
  { unfold read0. rewrite lookup_app_r, Nat.sub_diag by lia. done. }
  rewrite Hx0 in HL. rewrite HL.
  assert (Htop : (length leaves / 2 ^ d = 0)%nat).
  { apply Nat.div_small. apply Nat2Z.inj_lt. by rewrite Nat2Z.inj_pow. }
  rewrite Htop. eexists. split; [reflexivity|].
  split; simpl; [done|rewrite length_app; simpl; lia|done|done].
Qed.

Lemma mirror_path_loop t d leaves todo k i :
  mirror_repr t d leaves → (k + todo = d)%nat →
  Mirror.path_loop t todo k (i / 2 ^ k)
  = (λ j, read0 (lvl leaves j) (sibling (i / 2 ^ j))) <$> seq k todo.
Proof.
  intros Ht. revert k. induction todo as [|todo IH]; intros k Hk; [done|].
  cbn [Mirror.path_loop seq fmap list_fmap]. rewrite <- div_pow2_S, IH by lia.
  f_equal. rewrite (mr_levels _ _ _ Ht), list_lookup_fmap, lookup_seq_lt by lia. done.
Qed.

Lemma mirror_getPath t d leaves i :
  mirror_repr t d leaves →
  Mirror.getPath t (Z.of_nat i)
  = if (length leaves <=? i)%nat then Err Mirror.IndexOutOfBounds else Ok (path d leaves i).
Proof.
  intros Ht. unfold Mirror.getPath. rewrite (mr_index _ _ _ Ht), (mr_depth _ _ _ Ht), Nat2Z.id.
  rewrite (proj2 (Z.ltb_ge _ _)) by lia. simpl.
  destruct (Z.leb_spec (Z.of_nat (length leaves)) (Z.of_nat i)), (Nat.leb_spec (length leaves) i);
    try lia; [done|]. pose proof (mirror_path_loop t d leaves d 0 i Ht eq_refl) as Hp.
  rewrite Nat.div_1_r in Hp. by rewrite Hp.
Qed.

Lemma mirror_new_repr d t : Mirror.constructor d = Ok t → mirror_repr t d [].
Proof.
  unfold Mirror.constructor. case_match; [done|]. intros [= <-].
  assert (Hnil : ∀ k, lvl [] k = []) by (induction k as [|k IH]; simpl; [done|by rewrite IH]).
  split; simpl; [done|done|by unfold root; rewrite Hnil|].
  apply list_eq. intros j. destruct (decide (j < d + 1)%nat) as [Hj|Hj].
  - rewrite lookup_replicate_2, list_lookup_fmap, lookup_seq_lt by done. simpl.
    by rewrite Hnil.
  - rewrite !lookup_ge_None_2; [done| |];
      rewrite ?length_fmap, ?length_seq, ?length_replicate; lia.
Qed.

(** ** Whole histories of inserts *)

Fixpoint sdk_insert_all (t : Sdk.LeanIMT) (l : list Z) : result Sdk.TreeError Sdk.LeanIMT :=
  match l with
  | [] => Ok t
  | x :: l => '(t, _) ← Sdk.insert t x; sdk_insert_all t l
  end.
Fixpoint mirror_insert_all (t : Mirror.LeanIMT) (l : list Z) :
    result Mirror.TreeError Mirror.LeanIMT :=
  match l with
  | [] => Ok t
  | x :: l => '(t, _) ← Mirror.insert t x; mirror_insert_all t l
  end.

Definition sdk_build (d : nat) (l : list Z) : result Sdk.TreeError Sdk.LeanIMT :=
  t ← Sdk.constructor d; sdk_insert_all t l.
Definition mirror_build (d : nat) (l : list Z) : result Mirror.TreeError Mirror.LeanIMT :=
  t ← Mirror.constructor d; mirror_insert_all t l.

(** The two classes throw corresponding errors. *)
Definition same_error (e : Sdk.TreeError) (e' : Mirror.TreeError) : Prop :=
  match e, e' with
  | Sdk.InvalidDepth, Mirror.InvalidDepth | Sdk.LeafZero, Mirror.LeafZero
  | Sdk.TreeFull, Mirror.TreeFull | Sdk.IndexOutOfBounds, Mirror.IndexOutOfBounds => True
  | _, _ => False
  end.

Definition same_result {A B} (R : A → B → Prop)
    (r : result Sdk.TreeError A) (r' : result Mirror.TreeError B) : Prop :=
  match r, r' with
  | Ok a, Ok b => R a b
  | Err e, Err e' => same_error e e'
  | _, _ => False
  end.

Definition both_repr (d : nat) (t : Sdk.LeanIMT) (m : Mirror.LeanIMT) : Prop :=
  ∃ leaves, sdk_repr t d leaves ∧ mirror_repr m d leaves.

Lemma insert_all_agree d l t m leaves : (1 <= d)%nat →
  sdk_repr t d leaves → mirror_repr m d leaves →
  same_result (λ t' m', sdk_repr t' d (leaves ++ l) ∧ mirror_repr m' d (leaves ++ l))
    (sdk_insert_all t l) (mirror_insert_all m l).
Proof.
  intros Hd. revert t m leaves. induction l as [|x l IH]; intros t m leaves Ht Hm; simpl.
  { by rewrite app_nil_r. }
  destruct (decide (x = 0)) as [->|Hx]; [done|].
  destruct (Z.ltb_spec (Z.of_nat (length leaves)) (2 ^ Z.of_nat d)) as [Hc|Hc].
  - destruct (sdk_insert_repr t d leaves x) as (t' & -> & Ht'); [done..|].
    destruct (mirror_insert_repr m d leaves x) as (m' & -> & Hm'); [done..|]. simpl.
    rewrite (cons_middle x leaves l), app_assoc. by apply IH.
  - unfold Sdk.insert, Mirror.insert. rewrite (proj2 (Z.eqb_neq _ _) Hx).
    rewrite (sr_depth _ _ _ Ht), (sr_index _ _ _ Ht), (mr_depth _ _ _ Hm), (mr_index _ _ _ Hm).
    by rewrite (proj2 (Z.leb_le _ _) Hc).
Qed.

Lemma build_agree d l :
  same_result (λ t m, (1 <= d)%nat ∧ sdk_repr t d l ∧ mirror_repr m d l)
    (sdk_build d l) (mirror_build d l).
Proof.
  unfold sdk_build, mirror_build.
  destruct (Sdk.constructor d) as [t|e] eqn:Ht, (Mirror.constructor d) as [m|e'] eqn:Hm;
    pose proof Ht as Ht'; pose proof Hm as Hm';
    unfold Sdk.constructor, Mirror.constructor in Ht', Hm'; case_match eqn:Hb;
    simplify_eq; [|done].
  simpl mbind. assert (Hd : (1 <= d)%nat).
  { apply orb_false_iff in Hb as [Hb _]. by apply Nat.ltb_ge in Hb. }
  pose proof (insert_all_agree d l _ _ [] Hd (sdk_new_repr _ _ Ht) (mirror_new_repr _ _ Hm)) as Ha.
  unfold same_result in *. simpl in *. repeat case_match; naive_solver.
Qed.

(** A successful build holds the leaves it was given. *)
Lemma sdk_build_repr d l t : sdk_build d l = Ok t → (1 <= d)%nat ∧ sdk_repr t d l.
Proof.
  intros Ht. pose proof (build_agree d l) as Ha. rewrite Ht in Ha.
  unfold same_result in Ha. case_match; naive_solver.
Qed.

(** ** The path fold recomputes the root *)

Lemma path_bit i k :
  (Z.land (Z.shiftr (Z.of_nat i) (Z.of_nat k)) 1 =? 1) = negb (Nat.even (i / 2 ^ k)).
Proof.
  rewrite Z.shiftr_div_pow2 by lia. change 1 with (Z.ones 1) at 1.
  rewrite Z.land_ones by lia. change (2 ^ 1) with 2.
  assert (E : Z.of_nat i / 2 ^ Z.of_nat k = Z.of_nat (i / 2 ^ k)).
  { by rewrite Nat2Z.inj_div, Nat2Z.inj_pow. }
  rewrite E. destruct (Nat.even (i / 2 ^ k)) eqn:He; simpl.
  - apply Nat.even_spec in He as [m ->]. apply Z.eqb_neq. divlia.
  - assert (Ho : Nat.odd (i / 2 ^ k) = true) by (by rewrite <- Nat.negb_even, He).
    apply Nat.odd_spec in Ho as [m ->]. apply Z.eqb_eq. divlia.
Qed.

(** Both trees mark an empty slot by [0], so a node that hashes to [0] would
    be read as an empty one.  What a path needs is that this did not happen in
    the tree at hand: none of its stored nodes is [0].  It is a check on the
    tree, not a law of the hash. *)
Definition no_zero_node (t : Sdk.LeanIMT) : Prop := Forall (Forall (.≠ 0)) (Sdk.levels t).
#[export] Instance no_zero_node_dec t : Decision (no_zero_node t).
Proof. apply _. Defined.

Definition nonzero_levels (d : nat) (leaves : list Z) : Prop :=
  ∀ k i, (k < d)%nat → (i < length (lvl leaves k))%nat → read0 (lvl leaves k) i ≠ 0.

Lemma no_zero_node_levels d leaves t :
  sdk_repr t d leaves → no_zero_node t → nonzero_levels d leaves.
Proof.
  unfold no_zero_node. intros Ht Hnz k i Hk Hi. rewrite (sr_levels _ _ _ Ht) in Hnz.
  rewrite Forall_fmap, Forall_lookup in Hnz.
  pose proof (Hnz k k (lookup_seq_lt 0 d k Hk)) as Hl. simpl in Hl. unfold read0.
  destruct (lookup_lt_is_Some_2 _ _ Hi) as [x Hx]. rewrite Hx. simpl.
  rewrite Forall_lookup in Hl. by eapply Hl.
Qed.

Lemma index_bound leaves i k :
  (i < length leaves)%nat → (i / 2 ^ k < length (lvl leaves k))%nat.
Proof.
  intros Hi. induction k as [|k IH]; simpl lvl; [by rewrite Nat.div_1_r|].
  rewrite div_pow2_S, length_pairs, Nat.div2_div. divlia.
Qed.

Lemma fold_loop_path leaves i d k todo :
  nonzero_levels d leaves → (i < length leaves)%nat → (k + todo = d)%nat →
  Witness.fold_loop (read0 (lvl leaves k) (i / 2 ^ k)) (Z.of_nat i) k
    ((λ j, read0 (lvl leaves j) (sibling (i / 2 ^ j))) <$> seq k todo)
  = Ok (read0 (lvl leaves d) (i / 2 ^ d)).
Proof.
  intros Hl Hi. revert k. induction todo as [|todo IH]; intros k Hk.
  { by replace d with k by lia. }
  cbn [seq fmap list_fmap Witness.fold_loop]. rewrite path_bit.
  specialize (IH (S k) ltac:(lia)). rewrite div_pow2_S in IH. cbn [lvl] in IH.
  rewrite read0_pairs in IH. pose proof (index_bound leaves i k Hi) as Hb.
  pose proof (Hl k _ ltac:(lia) Hb) as Hc.
  set (j := (i / 2 ^ k)%nat) in *. unfold sibling, Sdk.nodeOf in *.
  destruct (Nat.even j) eqn:He; cbn [negb].
  - apply Nat.even_spec in He as [m Hm]. rewrite Hm, <- Nat.div2_div, Nat.div2_double in IH.
    rewrite Hm in *. rewrite (proj2 (Z.eqb_neq _ _) Hc) in IH. cbn [andb] in IH.
    destruct (read0 (lvl leaves k) (S (2 * m)) =? 0); cbn [negb]; exact IH.
  - assert (Ho : Nat.odd j = true) by (by rewrite <- Nat.negb_even, He).
    apply Nat.odd_spec in Ho as [m Hm]. rewrite Nat.add_1_r in Hm.
    rewrite Hm, <- Nat.div2_div, Nat.div2_succ_double in IH. rewrite Hm in *.
    replace (S (2 * m) - 1)%nat with (2 * m)%nat by lia.
    pose proof (Hl k (2 * m)%nat ltac:(lia) ltac:(lia)) as Hs.
    rewrite (proj2 (Z.eqb_neq _ _) Hc), (proj2 (Z.eqb_neq _ _) Hs) in *. exact IH.
Qed.

Lemma foldPath_path leaves i d :
  nonzero_levels d leaves → (i < length leaves)%nat → (length leaves <= 2 ^ d)%nat →
  Witness.foldPath (read0 leaves i) (Z.of_nat i) (path d leaves i) = Ok (root d leaves).
Proof.
  intros Hl Hi Hd. pose proof (fold_loop_path leaves i d 0 d Hl Hi eq_refl) as Hf.
  rewrite Nat.div_1_r in Hf. rewrite (Nat.div_small i (2 ^ d)) in Hf by lia. exact Hf.
Qed.

Lemma sdk_insert_all_leaves d l t t' leaves : (1 <= d)%nat →
  sdk_repr t d leaves → sdk_insert_all t l = Ok t' →
  Forall (.≠ 0) leaves → (length leaves <= 2 ^ d)%nat →
  Forall (.≠ 0) (leaves ++ l) ∧ (length (leaves ++ l) <= 2 ^ d)%nat.
Proof.
  intros Hd. revert t leaves. induction l as [|x l IH]; intros t leaves Ht; simpl.
  { intros [= <-]. by rewrite app_nil_r. }
  intros Hb Hnz Hlen. rewrite (cons_middle x leaves l), app_assoc.
  destruct (decide (x = 0)) as [->|Hx]; [done|].
  destruct (Z.ltb_spec (Z.of_nat (length leaves)) (2 ^ Z.of_nat d)) as [Hc|Hc].
  - destruct (sdk_insert_repr t d leaves x) as (t1 & E & Ht1); [done..|].
    rewrite E in Hb. simpl in Hb. apply (IH t1); [done|done| |].
    + apply Forall_app_2; [done|]. by constructor.
    + rewrite length_app. simpl.
      assert (length leaves < 2 ^ d)%nat; [|lia].
      apply Nat2Z.inj_lt. by rewrite Nat2Z.inj_pow.
  - unfold Sdk.insert in Hb. rewrite (proj2 (Z.eqb_neq _ _) Hx) in Hb.
    rewrite (sr_depth _ _ _ Ht), (sr_index _ _ _ Ht) in Hb.
    by rewrite (proj2 (Z.leb_le _ _) Hc) in Hb.
Qed.

Lemma sdk_build_leaves d l t :
  sdk_build d l = Ok t → Forall (.≠ 0) l ∧ (length l <= 2 ^ d)%nat.
Proof.
  intros Hb. pose proof (sdk_build_repr d l t Hb) as [Hd _]. unfold sdk_build in Hb.
  destruct (Sdk.constructor d) as [t0|] eqn:Ht; [|done]. simpl in Hb.
  apply (sdk_insert_all_leaves d l t0 t [] Hd (sdk_new_repr _ _ Ht) Hb); [done|simpl; lia].
Qed.

(** ** Properties *)

(** C27. The indexer's mirror and the SDK tree are interchangeable: from any
    depth and for any sequence of inserts, either both fail, with
    corresponding errors, or both succeed with the same root, the same next
    leaf index and, for every leaf index, the same sibling path (or both
    refuse the index). *)
Theorem mirror_equals_sdk d l :
  same_result
    (λ t m, Sdk.getRoot t = Mirror.getRoot m ∧ Sdk.nextLeafIndex t = Mirror.nextLeafIndex m ∧
       ∀ i, same_result eq (Sdk.getMerklePath t i) (Mirror.getPath m (Z.of_nat i)))
    (sdk_build d l) (mirror_build d l).
Proof.
  pose proof (build_agree d l) as Ha.
  destruct (sdk_build d l) as [t|], (mirror_build d l) as [m|]; simpl in *; try done.
  destruct Ha as (_ & Ht & Hm). unfold Sdk.getRoot, Mirror.getRoot, Mirror.nextLeafIndex.
  rewrite (sr_root _ _ _ Ht), (mr_root _ _ _ Hm), (sr_index _ _ _ Ht), (mr_index _ _ _ Hm).
  split_and!; [done|done|]. intros i.
  rewrite (sdk_getMerklePath _ _ _ _ Ht), (mirror_getPath _ _ _ _ Hm). by case_match.
Qed.

(** C4. A tree proves every leaf it holds: after any successful sequence of
    inserts that left no node of value [0] in the tree (both trees read a [0]
    node as an empty slot, and nothing rules out that some pair hashes to it;
    the condition is a check on the tree built), the path [getMerklePath]
    returns for leaf [i] has one sibling per level and folds, with [foldPath],
    from that leaf to the current root, and the root is that of the
    specification. *)
Theorem foldPath_getMerklePath d l t i :
  sdk_build d l = Ok t → no_zero_node t → (i < length l)%nat →
  ∃ p, Sdk.getMerklePath t i = Ok p ∧ length p = d ∧
    Witness.foldPath (read0 l i) (Z.of_nat i) p = Ok (Sdk.getRoot t) ∧
    Sdk.getRoot t = root d l.
Proof.
  intros Hb Hz Hi. destruct (sdk_build_repr _ _ _ Hb) as [Hd Ht].
  destruct (sdk_build_leaves _ _ _ Hb) as [_ Hlen].
  pose proof (no_zero_node_levels _ _ _ Ht Hz) as Hnz.
  exists (path d l i). unfold Sdk.getRoot. rewrite (sr_root _ _ _ Ht).
  rewrite (sdk_getMerklePath _ _ _ _ Ht), (proj2 (Nat.leb_gt _ _)) by lia.
  split_and!; [done| |by apply foldPath_path|done].
  unfold path. by rewrite length_fmap, length_seq.
Qed.

Section sources.
Context (fr_fromString : string → option Z) (fr_toString : Z → string).

(** The answer of an indexer that holds the same witness. *)
Definition serve (w : Witness.MerkleWitness) : Witness.RawWitness :=
  Witness.mkRawWitness (Some (Witness.leafIndex w))
    (Some (fr_toString <$> Witness.siblings w)) (Some (fr_toString (Witness.root w))).

Lemma parse_served (Hrt : ∀ x, fr_fromString (fr_toString x) = Some x) l :
  map_res (Witness.parse_fr fr_fromString) (fr_toString <$> l) = Ok l.
Proof.
  assert (E : ∀ x, Witness.parse_fr fr_fromString (fr_toString x) = Ok x).
  { intros x. unfold Witness.parse_fr. by rewrite Hrt. }
  induction l as [|x l IH]; [done|]. rewrite fmap_cons. cbn [map_res].
  rewrite E. cbn [mbind result_bind]. by rewrite IH.
Qed.

(** A remote indexer is never trusted: whatever the transport answers, an
    accepted witness has a nonnegative index, exactly [depth] siblings, and
    folds from the leaf asked about to the root it names. *)
Theorem indexer_witness_verified transport d leaf w :
  Witness.indexer_witnessFor fr_fromString fr_toString transport d leaf = Ok w →
  0 <= Witness.leafIndex w ∧ length (Witness.siblings w) = d ∧
  Witness.foldPath leaf (Witness.leafIndex w) (Witness.siblings w) = Ok (Witness.root w).
Proof.
  unfold Witness.indexer_witnessFor.
  destruct (transport _) as [[[i|] [sibs|] [r|]]|]; try done.
  destruct (Z.ltb_spec i 0), (Nat.eqb_spec (length sibs) d) as [Hlen|]; try done. cbn [orb negb].
  intros (ss & Hss & (root & _ & (rec & Hrec & Heq)%bind_Ok)%bind_Ok)%bind_Ok.
  destruct (Z.eqb_spec rec root) as [->|]; [|done]. injection Heq as <-. simpl.
  split_and!; [done| |done].
  rewrite <- Hlen. clear Hlen Hrec. revert ss Hss. induction sibs as [|x sibs IH]; intros ss; simpl.
  - by intros [= <-].
  - intros (y & _ & (ys & Hys & [= <-])%bind_Ok)%bind_Ok. simpl. f_equal. by apply IH.
Qed.

(** The two witness sources agree: for a leaf of the tree the local
    source returns its first position, the tree's current root and a path that
    verifies (when no node of the tree is [0]), and an indexer serving that witness over any field encoding that
    round-trips is accepted with the same result. *)
Theorem witness_sources_agree d l t leaf :
  (∀ x, fr_fromString (fr_toString x) = Some x) →
  sdk_build d l = Ok t → no_zero_node t → leaf ∈ l →
  ∃ w, Witness.local_witnessFor t leaf = Ok w ∧
    Witness.root w = Sdk.getRoot t ∧
    l !! Z.to_nat (Witness.leafIndex w) = Some leaf ∧
    (∀ j, (j < Z.to_nat (Witness.leafIndex w))%nat → l !! j ≠ Some leaf) ∧
    ∀ transport, transport (fr_toString leaf) = Some (serve w) →
      Witness.indexer_witnessFor fr_fromString fr_toString transport d leaf = Ok w.
Proof.
  intros Hrt Hb Hz Hin. destruct (sdk_build_repr _ _ _ Hb) as [Hd Ht].
  destruct (sdk_build_leaves _ _ _ Hb) as [_ Hlen].
  pose proof (no_zero_node_levels _ _ _ Ht Hz) as Hnz.
  destruct (list_find_elem_of (λ x, x = leaf) l leaf Hin eq_refl) as [[i y] Hf].
  pose proof Hf as (Hi & -> & Hbefore)%list_find_Some.
  pose proof (lookup_lt_Some _ _ _ Hi) as Hlt.
  assert (Hleaf : read0 l i = leaf) by (unfold read0; by rewrite Hi).
  exists (Witness.mkMerkleWitness (Z.of_nat i) (path d l i) (root d l)).
  unfold Witness.local_witnessFor. rewrite (sr_levels _ _ _ Ht), list_lookup_fmap, lookup_seq_lt by lia.
  cbn [fmap option_fmap option_map mbind option_bind lvl Nat.add]. rewrite Hf.
  rewrite (sdk_getMerklePath _ _ _ _ Ht), (proj2 (Nat.leb_gt _ _)) by lia.
  unfold Sdk.getRoot. rewrite (sr_root _ _ _ Ht). simpl. rewrite Nat2Z.id.
  split_and!; [done|done|done|intros j Hj E; by eapply Hbefore|].
  intros transport Htr. unfold Witness.indexer_witnessFor. rewrite Htr. simpl.
  rewrite (proj2 (Z.ltb_ge _ _)) by lia.
  assert (Hp : length (path d l i) = d) by (unfold path; by rewrite length_fmap, length_seq).
  rewrite length_fmap, Hp, Nat.eqb_refl. cbn [orb negb].
  rewrite parse_served by done. simpl. unfold Witness.parse_fr. rewrite Hrt. simpl.
  rewrite <- Hleaf, (foldPath_path l i d Hnz Hlt Hlen). simpl. by rewrite Z.eqb_refl.
Qed.
End sources.
End Spec.
End Spec.

(** ** Witnesses over a small hash *)
Module Toy.
#[local] Instance toy_poseidon : PoseidonV1 :=
  λ l, (1 + Z.abs (foldl (λ a x, 31 * a + x) 7 l))%Z.

(** A numeral system that round-trips: a sign and unary digits. *)
Definition toy_toString (x : Z) : string :=
  String (if decide (x < 0)%Z then "-" else "+")%char
    (Nat.iter (Z.to_nat (Z.abs x)) (String "1"%char) EmptyString).
Definition toy_fromString (s : string) : option Z :=
  match s with
  | String c s => Some ((if decide (c = "-"%char) then -1 else 1) * Z.of_nat (String.length s))%Z
  | EmptyString => None
  end.
Lemma toy_roundtrip x : toy_fromString (toy_toString x) = Some x.
Proof.
  unfold toy_toString, toy_fromString. f_equal.
  assert (Hl : ∀ n, String.length (Nat.iter n (String "1"%char) EmptyString) = n).
  { induction n as [|n IH]; simpl; [done|by rewrite IH]. }
  rewrite Hl. destruct (decide (x < 0)%Z); simpl; lia.
Qed.

Definition toy_tree : Sdk.LeanIMT :=
  match Spec.sdk_build 3 [5; 6; 7]%Z with Ok t => t | Err _ => Sdk.mkLeanIMT 0 [] 0 0 end.

Lemma foldPath_getMerklePath_witness :
  ∃ p, Sdk.getMerklePath toy_tree 2 = Ok p ∧ length p = 3 ∧
    Witness.foldPath 7 2 p = Ok (Sdk.getRoot toy_tree) ∧
    Sdk.getRoot toy_tree = Spec.root 3 [5; 6; 7]%Z.
Proof.
  apply (Spec.foldPath_getMerklePath 3 [5; 6; 7]%Z toy_tree 2);
    [vm_compute; reflexivity|by apply (bool_decide_unpack _); vm_compute|simpl; lia].
Defined.

Lemma indexer_witness_verified_witness :
  (0 <= 0)%Z ∧ length [6; 0]%Z = 2 ∧ Witness.foldPath 5 0 [6; 0]%Z = Ok (poseidonV1Hash3 5 6 0).
Proof.
  set (w := Witness.mkMerkleWitness 0 [6; 0]%Z (poseidonV1Hash3 5 6 0)).
  change (0 <= Witness.leafIndex w ∧ length (Witness.siblings w) = 2%nat ∧
    Witness.foldPath 5 (Witness.leafIndex w) (Witness.siblings w) = Ok (Witness.root w))%Z.
  apply (Spec.indexer_witness_verified toy_fromString toy_toString
    (λ s, Some (Witness.mkRawWitness (Some 0%Z) (Some [toy_toString 6; toy_toString 0])
       (Some (toy_toString (poseidonV1Hash3 5 6 0)))))).
  vm_compute. reflexivity.
Defined.

Lemma witness_sources_agree_witness :
  ∃ w, Witness.local_witnessFor toy_tree 6 = Ok w ∧
    Witness.root w = Sdk.getRoot toy_tree ∧
    [5; 6; 7]%Z !! Z.to_nat (Witness.leafIndex w) = Some 6%Z ∧
    (∀ j, j < Z.to_nat (Witness.leafIndex w) → [5; 6; 7]%Z !! j ≠ Some 6%Z) ∧
    ∀ transport, transport (toy_toString 6) = Some (Spec.serve toy_toString w) →
      Witness.indexer_witnessFor toy_fromString toy_toString transport 3 6 = Ok w.
Proof.
  apply (Spec.witness_sources_agree toy_fromString toy_toString 3 [5; 6; 7]%Z toy_tree 6).
  - apply toy_roundtrip.
  - vm_compute. reflexivity.
  - by apply (bool_decide_unpack _); vm_compute.
  - right; left.
Defined.
End Toy.
