(* ===== verification/Events.v ===== *)
(** * The indexer's event pipeline ([packages/indexer/src/events])

    From the flat log of a transaction to domain events: [LogScope] attributes
    ["Program data: "] lines to the executing program, [Decode] reads the
    borsh body of an event against an IDL, [Domain] maps a decoded event to
    the hex-encoded shape the store keeps.  [FieldHex] is the hex codec of
    [packages/indexer/src/tree/poseidonV1.ts].  Node's [Buffer] (base64 and
    UTF-8 decoding) is the parameter [NodeBuffer]. *)
From S2P Require Import Prelude Bytes.

(** ** Strings *)

(** [s.startsWith(p)] together with [s.slice(p.length)]. *)
Fixpoint strip_prefix (p s : string) : option string :=
  match p, s with
  | EmptyString, _ => Some s
  | String c p, String d s => if decide (c = d) then strip_prefix p s else None
  | String _ _, EmptyString => None
  end.

Lemma strip_prefix_app p s : strip_prefix p (p +:+ s) = Some s.
Proof. induction p as [|c p IH]; simpl; [done|]. by rewrite decide_True. Qed.

(** The class [\s] of a JavaScript regular expression, on 8-bit characters. *)
Definition is_space (c : ascii) : bool :=
  let n := nat_of_ascii c in
  ((9 <=? n)%nat && (n <=? 13)%nat) || (n =? 32)%nat || (n =? 160)%nat.
Definition is_digit (c : ascii) : bool :=
  let n := nat_of_ascii c in (48 <=? n)%nat && (n <=? 57)%nat.

(** The longest prefix of characters that satisfy [f]. *)
Fixpoint span (f : ascii → bool) (s : string) : string * string :=
  match s with
  | String c s' => if f c then let '(a, b) := span f s' in (String c a, b) else ("", s)
  | EmptyString => ("", "")
  end.

Fixpoint all_chars (f : ascii → bool) (s : string) : bool :=
  match s with EmptyString => true | String c s => f c && all_chars f s end.

Lemma span_app f a c b :
  all_chars f a = true → f c = false → span f (a +:+ String c b) = (a, String c b).
Proof.
  intros Ha Hc. induction a as [|d a IH]; simpl in *; [by rewrite Hc|].
  apply andb_true_iff in Ha as [Hd Ha]. by rewrite Hd, IH.
Qed.
Lemma span_all f a : all_chars f a = true → span f a = (a, "").
Proof.
  intros Ha. induction a as [|d a IH]; simpl in *; [done|].
  apply andb_true_iff in Ha as [Hd Ha]. by rewrite Hd, IH.
Qed.

(** ** Attribution of log lines ([events/logScope.ts]) *)
Module LogScope.

(** [/^Program (\S+) invoke \[\d+\]$/], returning the captured id. *)
Definition INVOKE_RE (line : string) : option string :=
  rest ← strip_prefix "Program " line;
  let '(id, rest) := span (λ c, negb (is_space c)) rest in
  if decide (id = "") then None else
  rest ← strip_prefix " invoke [" rest;
  let '(digits, rest) := span is_digit rest in
  if decide (digits = "") then None else if decide (rest = "]") then Some id else None.

(** [/^Program (\S+) (success|failed)/], returning the captured id. *)
Definition END_RE (line : string) : option string :=
  rest ← strip_prefix "Program " line;
  let '(id, rest) := span (λ c, negb (is_space c)) rest in
  if decide (id = "") then None else
  match strip_prefix " success" rest, strip_prefix " failed" rest with
  | None, None => None
  | _, _ => Some id
  end.

(** [idx = stack.lastIndexOf(id); stack.length = idx] on the stack written
    top first: everything above the last occurrence goes, and it too. *)
Fixpoint pop_to (id : string) (stack : list string) : option (list string) :=
  match stack with
  | [] => None
  | x :: stack => if decide (x = id) then Some stack else pop_to id stack
  end.

Fixpoint scan (programId : string) (logMessages : list string) (stack : list string) :
    list string :=
  match logMessages with
  | [] => []
  | line :: rest =>
      match INVOKE_RE line with
      | Some id => scan programId rest (id :: stack)
      | None =>
          match END_RE line with
          | Some id => scan programId rest (default stack (pop_to id stack))
          | None =>
              match strip_prefix "Program data: " line, head stack with
              | Some _, Some top =>
                  if decide (top = programId) then line :: scan programId rest stack
                  else scan programId rest stack
              | _, _ => scan programId rest stack
              end
          end
      end
  end.

Definition programDataLinesFor (logMessages : list string) (programId : string) : list string :=
  scan programId logMessages [].

(** *** The runtime's log, as a tree of invocations *)

Inductive item :=
  | Quiet (line : string)
  | Data (line : string)
  | Call (id depth : string) (body : list item) (ending : string).

Fixpoint flatten (i : item) : list string :=
  match i with
  | Quiet l | Data l => [l]
  | Call id depth body ending =>
      ("Program " +:+ id +:+ " invoke [" +:+ depth +:+ "]") ::
      (flat_map flatten body ++ ["Program " +:+ id +:+ " " +:+ ending])
  end.

(** The data lines that [programId] itself emits, [top] being the program
    whose invocation encloses the item. *)
Fixpoint emitted (programId : string) (top : option string) (i : item) : list string :=
  match i with
  | Quiet _ => []
  | Data l => if decide (top = Some programId) then [l] else []
  | Call id _ body _ => flat_map (emitted programId (Some id)) body
  end.

(** What the runtime prints: ids without spaces, a decimal depth, an ending
    that starts with [success] or [failed]; other lines match no bracket. *)
Inductive item_ok : item → Prop :=
  | Quiet_ok l : INVOKE_RE l = None → END_RE l = None →
      strip_prefix "Program data: " l = None → item_ok (Quiet l)
  | Data_ok l x : INVOKE_RE l = None → END_RE l = None →
      strip_prefix "Program data: " l = Some x → item_ok (Data l)
  | Call_ok id depth body ending tail :
      id ≠ "" → all_chars (λ c, negb (is_space c)) id = true →
      depth ≠ "" → all_chars is_digit depth = true →
      ending = "success" +:+ tail ∨ ending = "failed" +:+ tail →
      Forall item_ok body → item_ok (Call id depth body ending).

Lemma INVOKE_RE_line id depth :
  id ≠ "" → all_chars (λ c, negb (is_space c)) id = true →
  depth ≠ "" → all_chars is_digit depth = true →
  INVOKE_RE ("Program " +:+ id +:+ " invoke [" +:+ depth +:+ "]") = Some id.
Proof.
  intros Hid Hids Hd Hds. unfold INVOKE_RE. rewrite strip_prefix_app. cbn [mbind option_bind].
  change (" invoke [" +:+ depth +:+ "]") with (String " " ("invoke [" +:+ depth +:+ "]")).
  rewrite span_app by done. rewrite decide_False by done.
  change (String " " ("invoke [" +:+ depth +:+ "]")) with (" invoke [" +:+ (depth +:+ "]")).
  rewrite strip_prefix_app. cbn [mbind option_bind]. rewrite span_app by done.
  rewrite decide_False by done. by rewrite decide_True.
Qed.

Lemma END_RE_line id ending tail :
  id ≠ "" → all_chars (λ c, negb (is_space c)) id = true →
  ending = "success" +:+ tail ∨ ending = "failed" +:+ tail →
  INVOKE_RE ("Program " +:+ id +:+ " " +:+ ending) = None ∧
  END_RE ("Program " +:+ id +:+ " " +:+ ending) = Some id.
Proof.
  intros Hid Hids He. unfold INVOKE_RE, END_RE. rewrite !strip_prefix_app.
  cbn [mbind option_bind].
  change (" " +:+ ending) with (String " " ending). rewrite !span_app by done.
  rewrite !decide_False by done. split; [by destruct He as [-> | ->]|].
  destruct He as [-> | ->].
  - change (String " " ("success" +:+ tail)) with (" success" +:+ tail).
    by rewrite strip_prefix_app.
  - change (String " " ("failed" +:+ tail)) with (" failed" +:+ tail).
    rewrite strip_prefix_app. by case_match.
Qed.

(** Scanning one item leaves the stack as it was. *)
Lemma scan_item programId i stack rest :
  item_ok i →
  scan programId (flatten i ++ rest) stack
  = emitted programId (head stack) i ++ scan programId rest stack.
Proof.
  intros Hok. revert i Hok stack rest. fix IH 2. intros i Hok stack rest.
  destruct Hok as [l Hi He Hp|l x Hi He Hp|id depth body ending tail Hid Hids Hd Hds He Hb].
  - cbn [flatten app scan emitted]. by rewrite Hi, He, Hp.
  - cbn [flatten app scan emitted]. rewrite Hi, He, Hp. destruct (head stack) as [top|]; simpl.
    + destruct (decide (top = programId)) as [->|]; [by rewrite decide_True|].
      rewrite decide_False by congruence. done.
    + done.
  - cbn [flatten emitted app scan]. rewrite INVOKE_RE_line by done. rewrite <- app_assoc.
    assert (Hbody : ∀ rest', scan programId (flat_map flatten body ++ rest') (id :: stack)
      = flat_map (emitted programId (Some id)) body ++ scan programId rest' (id :: stack)).
    { revert Hb. clear -IH. intros Hb. induction Hb as [|j body Hj Hb IHb]; intros rest'; [done|].
      cbn [flat_map]. rewrite <- !app_assoc, (IH j Hj), IHb. done. }
    rewrite Hbody. f_equal. cbn [app scan].
    destruct (END_RE_line id ending tail) as [-> ->]; [done..|].
    simpl. by rewrite decide_True.
Qed.

Lemma scan_items programId items stack rest :
  Forall item_ok items →
  scan programId (flat_map flatten items ++ rest) stack
  = flat_map (emitted programId (head stack)) items ++ scan programId rest stack.
Proof.
  induction 1 as [|i items Hi Hs IH]; [done|].
  cbn [flat_map]. by rewrite <- !app_assoc, scan_item, IH.
Qed.

(** Log lines are attributed correctly: for every log the runtime can
    print, a tree of bracketed invocations of any programs and depth,
    [programDataLinesFor] returns exactly the data lines whose innermost
    enclosing invocation is one of [programId], in order; lines of other
    programs are never taken and none of its own is lost. *)
Theorem programDataLinesFor_attribution programId items :
  Forall item_ok items →
  programDataLinesFor (flat_map flatten items) programId
  = flat_map (emitted programId None) items.
Proof.
  intros Hok. unfold programDataLinesFor.
  rewrite <- (app_nil_r (flat_map flatten items)), scan_items by done.
  by rewrite app_nil_r.
Qed.

(** A pool call nested in a wrapper that prints data of its own. *)
Definition nested_log : list item :=
  [Call "Wrap" "1"
     [Data "Program data: AAAA"; Call "Pool" "2" [Quiet "Program log: hi"; Data "Program data: BBBB"] "success";
      Data "Program data: CCCC"] "failed: custom"].

Lemma programDataLinesFor_attribution_witness :
  programDataLinesFor (flat_map flatten nested_log) "Pool" = ["Program data: BBBB"].
Proof.
  apply (programDataLinesFor_attribution "Pool" nested_log).
  constructor; [|constructor].
  apply (Call_ok _ _ _ _ ": custom"); [done..|by right|].
  constructor; [by apply (Data_ok _ "AAAA")|].
  constructor; [|constructor; [by apply (Data_ok _ "CCCC")|constructor]].
  apply (Call_ok _ _ _ _ ""); [done..|by left|].
  constructor; [by apply Quiet_ok|].
  constructor; [by apply (Data_ok _ "BBBB")|constructor].
Defined.
End LogScope.

(** ** The hex codec of field elements ([tree/poseidonV1.ts]) *)
Module FieldHex.
Local Open Scope Z_scope.

Inductive HexError := NotCanonical (value : Z) | SyntaxError.

Definition fieldFromHex (hex : string) : result HexError Z :=
  let clean := match strip_prefix "0x" hex, strip_prefix "0X" hex with
               | Some s, _ => s | _, Some s => s | _, _ => hex end in
  if decide (clean = "") then Ok 0
  else match parse_hex 0 clean with
       | None => Err SyntaxError
       | Some value =>
           if BN254_SCALAR_FIELD_MODULUS <=? value then Err (NotCanonical value) else Ok value
       end.

Definition fieldToHex (value : Z) : result HexError string :=
  if (value <? 0) || (BN254_SCALAR_FIELD_MODULUS <=? value) then Err (NotCanonical value)
  else Ok ("0x" +:+ padStart0 64 (toString16 value)).

Lemma fieldToHex_canonical v : 0 <= v < BN254_SCALAR_FIELD_MODULUS →
  fieldToHex v = Ok ("0x" +:+ padStart0 64 (toString16 v)).
Proof.
  intros Hv. unfold fieldToHex.
  by rewrite (proj2 (Z.ltb_ge _ _)), (proj2 (Z.leb_gt _ _)) by lia.
Qed.

(** Reading a [0x]-prefixed nonempty string of hex digits. *)
Lemma fieldFromHex_0x s v :
  s ≠ "" → parse_hex 0 s = Some v → v < BN254_SCALAR_FIELD_MODULUS →
  fieldFromHex ("0x" +:+ s) = Ok v.
Proof.
  intros Hs Hp Hv. unfold fieldFromHex. rewrite strip_prefix_app.
  rewrite decide_False by done. rewrite Hp. by rewrite (proj2 (Z.leb_gt _ _)) by lia.
Qed.

Lemma padStart0_nonempty n s : s ≠ "" → padStart0 n s ≠ "".
Proof. unfold padStart0. by destruct (n - String.length s)%nat. Qed.

Lemma hex_loop_nonempty fuel v s : s ≠ "" ∨ fuel ≠ O → hex_loop fuel v s ≠ "".
Proof.
  revert v s. induction fuel as [|fuel IH]; intros v s Hs; simpl; [by destruct Hs|].
  case_match; [done|]. apply IH. by left.
Qed.

(** The hex codec of the tree API is exact: [fieldToHex] accepts exactly
    the canonical field elements and [fieldFromHex] reads each of them back;
    [fieldFromHex] never returns a non-canonical value. *)
Theorem fieldHex_roundtrip v :
  (is_ok (fieldToHex v) = true ↔ 0 <= v < BN254_SCALAR_FIELD_MODULUS) ∧
  (∀ s, fieldToHex v = Ok s → fieldFromHex s = Ok v) ∧
  (∀ s, fieldFromHex s = Ok v → v < BN254_SCALAR_FIELD_MODULUS).
Proof.
  split_and!.
  - unfold fieldToHex. destruct (Z.ltb_spec v 0), (Z.leb_spec BN254_SCALAR_FIELD_MODULUS v);
      simpl; split; (done || lia).
  - intros s Hs. destruct (decide (0 <= v < BN254_SCALAR_FIELD_MODULUS)) as [Hv|Hv].
    + rewrite fieldToHex_canonical in Hs by done. injection Hs as <-.
      apply fieldFromHex_0x; [|by rewrite parse_hex_padStart0, parse_hex_toString16 by lia|lia].
      apply padStart0_nonempty, hex_loop_nonempty. by right.
    + unfold fieldToHex in Hs. destruct (Z.ltb_spec v 0), (Z.leb_spec BN254_SCALAR_FIELD_MODULUS v);
        simpl in Hs; (done || lia).
  - intros s. unfold fieldFromHex. case_decide; [intros [= <-]; done|].
    destruct (parse_hex 0 _) as [x|]; [|done].
    destruct (Z.leb_spec BN254_SCALAR_FIELD_MODULUS x); [done|]. by intros [= <-].
Qed.
End FieldHex.

(** Node's [Buffer.from(s, "base64")] and [buf.toString("utf8")]. *)
Class NodeBuffer := {
  from_base64 : string → list Z;
  to_utf8 : list Z → string;
}.

(** ** The event decoder ([events/decode.ts], [events/idl.ts]) *)
Module Decode.
Section Decode.
Context `{NodeBuffer}.
Local Open Scope Z_scope.

Inductive IdlType :=
  | TU8 | TU16 | TU32 | TU64 | TBool
  | TArray (elem : IdlType) (len : nat)
  | TOption (inner : IdlType)
  | TDefined (name : string).

Record IdlField := mkIdlField { field_name : string; field_type : IdlType }.
Record IdlTypeDef := mkIdlTypeDef { type_name : string; type_fields : list IdlField }.
Record KakurePoolIdl := mkIdl { idl_events : list string; idl_types : list IdlTypeDef }.

Definition bytes32 : IdlType := TArray TU8 32.

Definition DEFAULT_KAKURE_POOL_IDL : KakurePoolIdl :=
  mkIdl ["NoteInserted"; "NullifierSpent"; "ComplianceKeyRotated"]
    [mkIdlTypeDef "NoteInserted"
       [mkIdlField "leaf_index" TU64; mkIdlField "leaf" bytes32;
        mkIdlField "eph_pub_x" bytes32; mkIdlField "tag" (TOption bytes32);
        mkIdlField "cek_wrap" (TOption bytes32);
        mkIdlField "ciphertext" (TArray bytes32 7); mkIdlField "root" bytes32];
     mkIdlTypeDef "NullifierSpent" [mkIdlField "nullifier" bytes32];
     mkIdlTypeDef "ComplianceKeyRotated"
       [mkIdlField "old_version" TU32; mkIdlField "new_version" TU32;
        mkIdlField "x" bytes32; mkIdlField "y" bytes32]].

(** A decoded value: a number, a bigint, a boolean, a [Uint8Array], an array, [null]. *)
Inductive Value :=
  | VNum (n : Z) | VBig (n : Z) | VBool (b : bool)
  | VBytes (l : list Z) | VArr (l : list Value) | VNull.

Inductive EventDecodeError :=
  | UnexpectedEnd | NotImplementedU16 | InvalidOptionTag (tag : Z)
  | UnsupportedDefined (name : string) | NoTypeDefinition (name : string)
  | TooFewFields (n : nat) | NotKakureTag (tag : string)
  | ExpectedByteArray | ExpectedArray | NoDomainMapping (name : string)
  (** not thrown: a field whose type assertion ([as bigint], [as number]) is wrong *)
  | WrongAssertion.

Local Notation R := (result EventDecodeError).

(** [Reader]: the state is what is left of the buffer. *)
Definition take (n : nat) (buf : list Z) : R (list Z * list Z) :=
  if (length buf <? n)%nat then Err UnexpectedEnd else Ok (firstn n buf, drop n buf).

Definition u8 (buf : list Z) : R (Z * list Z) :=
  '(b, buf) ← take 1 buf; Ok (nth 0 b 0, buf).

Definition shl32 (x n : Z) : Z := to_int32 (Z.shiftl x n).
Definition or32 (x y : Z) : Z := to_int32 (Z.lor (to_int32 x) (to_int32 y)).

Definition u32 (buf : list Z) : R (Z * list Z) :=
  '(b, buf) ← take 4 buf;
  Ok (to_uint32 (or32 (or32 (or32 (nth 0 b 0) (shl32 (nth 1 b 0) 8))
                         (shl32 (nth 2 b 0) 16)) (shl32 (nth 3 b 0) 24)), buf).

Definition u64 (buf : list Z) : R (Z * list Z) :=
  '(b, buf) ← take 8 buf;
  Ok (foldl (λ value i, Z.lor (Z.shiftl value 8) (nth i b 0)) 0 (reverse (seq 0 8)), buf).

Definition bytes (n : nat) (buf : list Z) : R (list Z * list Z) := take n buf.

(** [for (i = 0; i < len; i++) out.push(decode())]. *)
Fixpoint repeat_decode (decode : list Z → R (Value * list Z)) (len : nat) (buf : list Z) :
    R (list Value * list Z) :=
  match len with
  | O => Ok ([], buf)
  | S len => '(v, buf) ← decode buf; '(vs, buf) ← repeat_decode decode len buf; Ok (v :: vs, buf)
  end.

Fixpoint decodeValue (type : IdlType) (reader : list Z) : R (Value * list Z) :=
  match type with
  | TU8 => '(n, reader) ← u8 reader; Ok (VNum n, reader)
  | TU16 => Err NotImplementedU16
  | TU32 => '(n, reader) ← u32 reader; Ok (VNum n, reader)
  | TU64 => '(n, reader) ← u64 reader; Ok (VBig n, reader)
  | TBool => '(n, reader) ← u8 reader; Ok (VBool (negb (n =? 0)), reader)
  | TArray TU8 len => '(b, reader) ← bytes len reader; Ok (VBytes b, reader)
  | TArray elemType len =>
      '(out, reader) ← repeat_decode (decodeValue elemType) len reader; Ok (VArr out, reader)
  | TOption inner =>
      '(tag, reader) ← u8 reader;
      if tag =? 0 then Ok (VNull, reader)
      else if tag =? 1 then decodeValue inner reader
      else Err (InvalidOptionTag tag)
  | TDefined name => Err (UnsupportedDefined name)
  end.

Record DecodedEvent := mkDecodedEvent { event_name : string; event_fields : gmap string Value }.

Fixpoint decode_fields (fields : list IdlField) (reader : list Z) (acc : gmap string Value) :
    R (gmap string Value) :=
  match fields with
  | [] => Ok acc
  | f :: fields =>
      '(v, reader) ← decodeValue (field_type f) reader;
      decode_fields fields reader (<[field_name f := v]> acc)
  end.

Definition decodeBody (idl : KakurePoolIdl) (eventName : string) (body : list Z) :
    R DecodedEvent :=
  match list_find (λ t, type_name t = eventName) (idl_types idl) with
  | None => Err (NoTypeDefinition eventName)
  | Some (_, typeDef) =>
      fields ← decode_fields (type_fields typeDef) body ∅;
      Ok (mkDecodedEvent eventName fields)
  end.

Definition PROGRAM_DATA_PREFIX : string := "Program data: ".
Definition KAKURE_EVENT_TAG_PREFIX : string := "kakure:".

Definition decodeSolLogDataFields (idl : KakurePoolIdl) (fields : list string) : R DecodedEvent :=
  match fields with
  | f0 :: f1 :: _ =>
      let tagBytes := from_base64 f0 in
      let bodyBytes := from_base64 f1 in
      let tag := to_utf8 tagBytes in
      match strip_prefix KAKURE_EVENT_TAG_PREFIX tag with
      | None => Err (NotKakureTag tag)
      | Some eventName => decodeBody idl eventName bodyBytes
      end
  | _ => Err (TooFewFields (length fields))
  end.

(** [s.trim()] on the characters: the leading and the trailing spaces go. *)
Fixpoint trim_start (s : list ascii) : list ascii :=
  match s with c :: s' => if is_space c then trim_start s' else s | [] => [] end.
Definition trim (s : list ascii) : list ascii :=
  reverse (trim_start (reverse (trim_start s))).

(** [s.split(/\s+/)]; [word] is the reversed current token. *)
Fixpoint split_loop (s word : list ascii) (in_sep : bool) : list string :=
  match s with
  | [] => [String.string_of_list_ascii (reverse word)]
  | c :: s =>
      if is_space c then
        if in_sep then split_loop s word true
        else String.string_of_list_ascii (reverse word) :: split_loop s [] true
      else split_loop s (c :: word) false
  end.
Definition split_ws (s : list ascii) : list string := split_loop s [] false.

Definition decodeProgramDataLine (idl : KakurePoolIdl) (line : string) : R (option DecodedEvent) :=
  match strip_prefix PROGRAM_DATA_PREFIX line with
  | None => Ok None
  | Some rest => d ← decodeSolLogDataFields idl (split_ws (trim (String.list_ascii_of_string rest)));
      Ok (Some d)
  end.

(** *** Borsh, the reference encoding *)

Fixpoint has_type (t : IdlType) (v : Value) : Prop :=
  match t, v with
  | TU8, VNum n => is_byte n
  | TU32, VNum n => 0 <= n < 2 ^ 32
  | TU64, VBig n => 0 <= n < 2 ^ 64
  | TBool, VBool _ => True
  | TArray TU8 len, VBytes l => length l = len ∧ Forall is_byte l
  | TArray TU8 _, _ => False
  | TArray elem len, VArr vs => length vs = len ∧ Forall (has_type elem) vs
  | TOption _, VNull => True
  | TOption inner, v => has_type inner v
  | _, _ => False
  end.

Fixpoint encode (t : IdlType) (v : Value) : list Z :=
  match t, v with
  | TU8, VNum n => [n]
  | TU32, VNum n => le_bytes 4 n
  | TU64, VBig n => le_bytes 8 n
  | TBool, VBool b => [if b then 1 else 0]
  | TArray TU8 _, VBytes l => l
  | TArray elem _, VArr vs => flat_map (encode elem) vs
  | TOption _, VNull => [0]
  | TOption inner, v => 1 :: encode inner v
  | _, _ => []
  end.

Lemma take_app n l rest : length l = n → take n (l ++ rest) = Ok (l, rest).
Proof.
  intros <-. unfold take. rewrite length_app.
  rewrite (proj2 (Nat.ltb_ge _ _)) by lia.
  by rewrite firstn_app, firstn_all, Nat.sub_diag, drop_app_length, app_nil_r.
Qed.

Lemma or32_eqm x y : eqm32 (or32 x y) (Z.lor x y).
Proof. unfold or32. by rewrite !to_int32_eqm. Qed.
Lemma shl32_eqm x n : eqm32 (shl32 x n) (Z.shiftl x n).
Proof. apply to_int32_eqm. Qed.

(** The unsigned reading of the four bytes, top bit included. *)
Lemma u32_spec b rest : Forall is_byte b → length b = 4%nat →
  u32 (b ++ rest) = Ok (of_le b, rest).
Proof.
  intros Hb Hl. unfold u32. rewrite take_app by done. cbn [mbind result_bind]. do 2 f_equal.
  destruct b as [|b0 [|b1 [|b2 [|b3 [|]]]]]; try done.
  rewrite !Forall_cons in Hb. unfold is_byte in Hb. cbn [nth of_le].
  apply eqm32_small; [|lia]. rewrite !or32_eqm, !shl32_eqm.
  rewrite (lor_add_shift b0 b1 8), (lor_add_shift _ b2 16), (lor_add_shift _ b3 24) by lia.
  unfold eqm32. f_equal. lia.
Qed.

Lemma u64_spec b rest : Forall is_byte b → length b = 8%nat →
  u64 (b ++ rest) = Ok (of_le b, rest).
Proof.
  intros Hb Hl. unfold u64. rewrite take_app by done. cbn [mbind result_bind]. do 2 f_equal.
  do 8 (destruct b as [|? b]; [done|]). destruct b; [|done].
  rewrite !Forall_cons in Hb. unfold is_byte in Hb.
  assert (Hstep : ∀ v x, 0 <= x < 256 → Z.lor (Z.shiftl v 8) x = x + 256 * v).
  { intros v x Hx. rewrite Z.lor_comm, lor_add_shift by lia. lia. }
  cbn [reverse rev_append seq foldl nth of_le rev].
  change (reverse (seq 0 8)) with [7;6;5;4;3;2;1;0]%nat. cbn [foldl nth].
  rewrite !Hstep by lia. lia.
Qed.

Lemma u8_spec x rest : u8 (x :: rest) = Ok (x, rest).
Proof. done. Qed.

Lemma repeat_decode_spec decode enc vs rest :
  (∀ v rest, v ∈ vs → decode (enc v ++ rest) = Ok (v, rest)) →
  repeat_decode decode (length vs) (flat_map enc vs ++ rest) = Ok (vs, rest).
Proof.
  revert rest. induction vs as [|v vs IH]; intros rest Hd; [done|].
  cbn [length repeat_decode flat_map]. rewrite <- app_assoc, Hd by left.
  cbn [mbind result_bind]. rewrite IH; [done|]. intros. apply Hd. by right.
Qed.

(** The decoder inverts borsh at every supported type, whatever follows. *)
Lemma decodeValue_encode t : ∀ v rest,
  has_type t v → decodeValue t (encode t v ++ rest) = Ok (v, rest).
Proof.
  assert (Hle : ∀ n m x, m = (256 ^ Z.of_nat n) → 0 <= x < m → of_le (le_bytes n x) = x).
  { intros n m x -> Hx. by apply of_le_le_bytes. }
  induction t as [| | | | |elem IH len|inner IH|]; intros v rest Hv; try done.
  - by destruct v.
  - destruct v as [n| | | | |]; try done. cbn [decodeValue encode has_type] in *.
    rewrite u32_spec by (done || apply length_le_bytes). cbn [mbind result_bind].
    by rewrite (Hle 4%nat (2 ^ 32)).
  - destruct v as [|n| | | |]; try done. cbn [decodeValue encode has_type] in *.
    rewrite u64_spec by (done || apply length_le_bytes). cbn [mbind result_bind].
    by rewrite (Hle 8%nat (2 ^ 64)).
  - destruct v as [| |b| | |]; try done. by destruct b.
  - assert (Harr : ∀ vs, length vs = len → Forall (has_type elem) vs →
      repeat_decode (decodeValue elem) len (flat_map (encode elem) vs ++ rest) = Ok (vs, rest)).
    { intros vs <- Hvs. apply repeat_decode_spec. intros x r Hx. apply IH.
      rewrite Forall_forall in Hvs. by apply Hvs. }
    destruct elem; destruct v as [| | |l|vs|]; try done; destruct Hv as [Hl Hv];
      try (cbn [decodeValue encode] in *; by rewrite Harr).
    cbn [decodeValue encode]. unfold bytes. by rewrite take_app.
  - assert (v = VNull ∨ encode (TOption inner) v = 1 :: encode inner v ∧ has_type inner v) as [->|[E Hi]].
    { destruct v; simpl in Hv; auto. }
    + done.
    + rewrite E. cbn [decodeValue app]. rewrite u8_spec. cbn. by apply IH.
Qed.

(** A whole event body: the fields of its type, one after the other. *)
Fixpoint encode_fields (fields : list IdlField) (vs : list Value) : list Z :=
  match fields, vs with
  | f :: fields, v :: vs => encode (field_type f) v ++ encode_fields fields vs
  | _, _ => []
  end.
Fixpoint bind_fields (fields : list IdlField) (vs : list Value) (acc : gmap string Value) :
    gmap string Value :=
  match fields, vs with
  | f :: fields, v :: vs => bind_fields fields vs (<[field_name f := v]> acc)
  | _, _ => acc
  end.

Lemma decode_fields_encode fields vs acc :
  Forall2 (λ f v, has_type (field_type f) v) fields vs →
  decode_fields fields (encode_fields fields vs) acc = Ok (bind_fields fields vs acc).
Proof.
  intros Hv. revert acc. induction Hv as [|f v fields vs Hv Hvs IH]; intros acc; [done|].
  cbn [decode_fields encode_fields bind_fields]. rewrite decodeValue_encode by done.
  apply IH.
Qed.

Definition no_space (w : list ascii) : Prop := Forall (λ c, is_space c = false) w.

(** Two tokens separated by a space come back as they are. *)
Lemma split_loop_word w rest word : no_space w →
  split_loop (w ++ rest) word false = split_loop rest (reverse w ++ word) false.
Proof.
  intros Hw. revert word. induction Hw as [|c w Hc Hw IH]; intros word; [done|].
  cbn [app split_loop]. rewrite Hc, IH, reverse_cons, <- app_assoc. done.
Qed.

Lemma split_two a b : no_space a → no_space b → b ≠ [] →
  split_ws (a ++ " "%char :: b) = [String.string_of_list_ascii a; String.string_of_list_ascii b].
Proof.
  intros Ha Hb Hne. unfold split_ws. rewrite split_loop_word by done.
  rewrite app_nil_r. cbn [split_loop]. change (is_space " ") with true. cbv iota.
  rewrite reverse_involutive. f_equal. destruct b as [|c b]; [done|].
  apply Forall_cons in Hb as [Hc Hb]. cbn [split_loop]. rewrite Hc.
  rewrite <- (app_nil_r b), split_loop_word by done. cbn [split_loop].
  rewrite app_nil_r, reverse_app, reverse_involutive. done.
Qed.

Lemma trim_start_id c l : is_space c = false → trim_start (c :: l) = c :: l.
Proof. intros Hc. simpl. by rewrite Hc. Qed.

Lemma trim_two a b : no_space a → no_space b → a ≠ [] → b ≠ [] →
  trim (a ++ " "%char :: b) = a ++ " "%char :: b.
Proof.
  intros Ha Hb Hna Hnb. unfold trim. destruct a as [|x a]; [done|].
  apply Forall_cons in Ha as [Hx Ha]. cbn [app]. rewrite trim_start_id by done.
  destruct (exists_last Hnb) as (b' & y & ->).
  apply Forall_app in Hb as [_ Hy]. apply Forall_cons in Hy as [Hy _].
  replace (x :: a ++ " "%char :: b' ++ [y]) with ((x :: a ++ " "%char :: b') ++ [y])
    by (cbn; by rewrite <- app_assoc).
  rewrite reverse_snoc. rewrite (trim_start_id y _ Hy). by rewrite reverse_cons, reverse_involutive.
Qed.
End Decode.
End Decode.

(** ** Domain events ([events/types.ts]) *)
Module Domain.
Import Decode.
Section Domain.
Context `{NodeBuffer}.
Local Open Scope Z_scope.
Local Notation R := (result EventDecodeError).

Record NoteInsertedEvent := mkNoteInserted {
  leafIndex : Z;
  leaf : string;
  ephPubX : string;
  tag : option string;
  cekWrap : option string;
  ciphertext : list string;
  root : string;
}.

Inductive KakurePoolEvent :=
  | NoteInserted (e : NoteInsertedEvent)
  | NullifierSpent (nullifier : string)
  | ComplianceKeyRotated (oldVersion newVersion : Z) (x y : string).

Definition hex0x (l : list Z) : string := "0x" +:+ hex_of_bytes l.

Definition toHex (v : option Value) : R string :=
  match v with Some (VBytes l) => Ok (hex0x l) | _ => Err ExpectedByteArray end.
Definition toHexOrNull (v : option Value) : R (option string) :=
  match v with Some VNull => Ok None | _ => s ← toHex v; Ok (Some s) end.
Definition toHexArray (v : option Value) : R (list string) :=
  match v with
  | Some (VArr l) => map_res (λ x, toHex (Some x)) l
  | _ => Err ExpectedArray
  end.

(** The type assertions [as bigint] and [as number]. *)
Definition as_bigint (v : option Value) : R Z :=
  match v with Some (VBig n) => Ok n | _ => Err WrongAssertion end.
Definition as_number (v : option Value) : R Z :=
  match v with Some (VNum n) => Ok n | _ => Err WrongAssertion end.

Definition toDomainEvent (decoded : DecodedEvent) : R KakurePoolEvent :=
  let f := λ k, event_fields decoded !! k in
  if decide (event_name decoded = "NoteInserted") then
    leafIndex ← as_bigint (f "leaf_index");
    leaf ← toHex (f "leaf");
    ephPubX ← toHex (f "eph_pub_x");
    tag ← toHexOrNull (f "tag");
    cekWrap ← toHexOrNull (f "cek_wrap");
    ciphertext ← toHexArray (f "ciphertext");
    root ← toHex (f "root");
    Ok (NoteInserted (mkNoteInserted leafIndex leaf ephPubX tag cekWrap ciphertext root))
  else if decide (event_name decoded = "NullifierSpent") then
    nullifier ← toHex (f "nullifier"); Ok (NullifierSpent nullifier)
  else if decide (event_name decoded = "ComplianceKeyRotated") then
    oldVersion ← as_number (f "old_version");
    newVersion ← as_number (f "new_version");
    x ← toHex (f "x");
    y ← toHex (f "y");
    Ok (ComplianceKeyRotated oldVersion newVersion x y)
  else Err (NoDomainMapping (event_name decoded)).

(** *** What the pool logs, and what the indexer must read back *)

Inductive PoolEvent :=
  | PoolNote (leaf_index : Z) (leaf eph_pub_x : list Z) (tag cek_wrap : option (list Z))
      (ciphertext : list (list Z)) (root : list Z)
  | PoolNullifier (nullifier : list Z)
  | PoolRotated (old_version new_version : Z) (x y : list Z).

Definition pool_name (e : PoolEvent) : string :=
  match e with
  | PoolNote _ _ _ _ _ _ _ => "NoteInserted"
  | PoolNullifier _ => "NullifierSpent"
  | PoolRotated _ _ _ _ => "ComplianceKeyRotated"
  end.

Definition opt_value (o : option (list Z)) : Value :=
  match o with None => VNull | Some l => VBytes l end.

Definition pool_values (e : PoolEvent) : list Value :=
  match e with
  | PoolNote i l p t c ct r =>
      [VBig i; VBytes l; VBytes p; opt_value t; opt_value c; VArr (VBytes <$> ct); VBytes r]
  | PoolNullifier n => [VBytes n]
  | PoolRotated o n x y => [VNum o; VNum n; VBytes x; VBytes y]
  end.

Definition is_bytes32 (l : list Z) : Prop := length l = 32%nat ∧ Forall is_byte l.
Definition opt_bytes32 (o : option (list Z)) : Prop :=
  match o with None => True | Some l => is_bytes32 l end.

Definition pool_ok (e : PoolEvent) : Prop :=
  match e with
  | PoolNote i l p t c ct r =>
      0 <= i < 2 ^ 64 ∧ is_bytes32 l ∧ is_bytes32 p ∧ opt_bytes32 t ∧ opt_bytes32 c ∧
      length ct = 7%nat ∧ Forall is_bytes32 ct ∧ is_bytes32 r
  | PoolNullifier n => is_bytes32 n
  | PoolRotated o n x y => 0 <= o < 2 ^ 32 ∧ 0 <= n < 2 ^ 32 ∧ is_bytes32 x ∧ is_bytes32 y
  end.

(** The fields of the event's type in the IDL, and its borsh body. *)
Definition pool_fields (e : PoolEvent) : list IdlField :=
  match list_find (λ t, type_name t = pool_name e) (idl_types DEFAULT_KAKURE_POOL_IDL) with
  | Some (_, t) => type_fields t
  | None => []
  end.
Definition borsh (e : PoolEvent) : list Z := encode_fields (pool_fields e) (pool_values e).

Definition domain (e : PoolEvent) : KakurePoolEvent :=
  match e with
  | PoolNote i l p t c ct r =>
      NoteInserted (mkNoteInserted i (hex0x l) (hex0x p) (hex0x <$> t) (hex0x <$> c)
                      (hex0x <$> ct) (hex0x r))
  | PoolNullifier n => NullifierSpent (hex0x n)
  | PoolRotated o n x y => ComplianceKeyRotated o n (hex0x x) (hex0x y)
  end.

Lemma pool_fields_typed e : pool_ok e →
  Forall2 (λ f v, has_type (field_type f) v) (pool_fields e) (pool_values e).
Proof.
  destruct e as [i l p t c ct r|n|o n x y]; cbn [pool_ok pool_values].
  - intros (Hi & Hl & Hp & Ht & Hc & Hct & Hcs & Hr).
    repeat (apply Forall2_cons_2 || apply Forall2_nil_2); cbn [field_type];
      [done|done|done|by destruct t|by destruct c| |done].
    split; [by rewrite length_fmap|]. by apply Forall_fmap.
  - intros Hn. by repeat (apply Forall2_cons_2 || apply Forall2_nil_2).
  - intros (Ho & Hn & Hx & Hy). by repeat (apply Forall2_cons_2 || apply Forall2_nil_2).
Qed.

Lemma toHexArray_bytes l : toHexArray (Some (VArr (VBytes <$> l))) = Ok (hex0x <$> l).
Proof.
  simpl. induction l as [|x l IH]; [done|]. rewrite !fmap_cons. cbn [map_res toHex].
  cbn [mbind result_bind]. by rewrite IH.
Qed.
Lemma toHexOrNull_opt o : toHexOrNull (Some (opt_value o)) = Ok (hex0x <$> o).
Proof. by destruct o. Qed.

(** Decoding the body of an event yields its fields. *)
Lemma decodeBody_borsh e : pool_ok e →
  decodeBody DEFAULT_KAKURE_POOL_IDL (pool_name e) (borsh e)
  = Ok (mkDecodedEvent (pool_name e) (bind_fields (pool_fields e) (pool_values e) ∅)).
Proof.
  intros Hok. pose proof (decode_fields_encode _ _ ∅ (pool_fields_typed e Hok)) as E.
  unfold decodeBody, borsh. unfold pool_fields at 1 in E.
  destruct (list_find _ _) as [[k t]|] eqn:Hf; [by rewrite E|].
  by destruct e.
Qed.

(** Evaluates the field lookups of a decoded event. *)
Ltac lookup_fields :=
  repeat first [rewrite lookup_insert_eq | rewrite lookup_insert_ne by discriminate].

Lemma toDomainEvent_fields e :
  toDomainEvent (mkDecodedEvent (pool_name e) (bind_fields (pool_fields e) (pool_values e) ∅))
  = Ok (domain e).
Proof.
  unfold toDomainEvent. destruct e as [i l p t c ct r|n|o n x y];
    cbn [pool_name event_name event_fields]; repeat (rewrite decide_True by done || rewrite decide_False by done);
    cbn [pool_fields pool_name pool_values list_find idl_types DEFAULT_KAKURE_POOL_IDL].
  - change (pool_fields _) with (type_fields (mkIdlTypeDef "NoteInserted"
       [mkIdlField "leaf_index" TU64; mkIdlField "leaf" bytes32;
        mkIdlField "eph_pub_x" bytes32; mkIdlField "tag" (TOption bytes32);
        mkIdlField "cek_wrap" (TOption bytes32);
        mkIdlField "ciphertext" (TArray bytes32 7); mkIdlField "root" bytes32])).
    cbn [type_fields bind_fields field_name]. lookup_fields.
    rewrite !toHexOrNull_opt, toHexArray_bytes. done.
  - change (pool_fields _) with [mkIdlField "nullifier" bytes32].
    cbn [bind_fields field_name]. lookup_fields. done.
  - change (pool_fields _) with
       [mkIdlField "old_version" TU32; mkIdlField "new_version" TU32;
        mkIdlField "x" bytes32; mkIdlField "y" bytes32].
    cbn [bind_fields field_name]. lookup_fields. done.
Qed.

(** Laws of the base64 and UTF-8 of Node's [Buffer]: encoding round-trips,
    is a nonempty run of non-space characters on nonempty input, and ASCII
    bytes decode to the characters they are. *)
Context (to_base64 : list Z → string).
Definition ascii_bytes (s : string) : list Z :=
  (λ c, Z.of_nat (nat_of_ascii c)) <$> String.list_ascii_of_string s.

Record BufferLaws : Prop := {
  base64_inverse : ∀ l, Forall is_byte l → from_base64 (to_base64 l) = l;
  base64_tokens : ∀ l, l ≠ [] → no_space (String.list_ascii_of_string (to_base64 l)) ∧
                                String.list_ascii_of_string (to_base64 l) ≠ [];
  utf8_ascii : ∀ e, to_utf8 (ascii_bytes ("kakure:" +:+ pool_name e)) = "kakure:" +:+ pool_name e;
}.

(** The line [sol_log_data(&[tag, body])] prints. *)
Definition log_line (e : PoolEvent) : string :=
  "Program data: " +:+ (to_base64 (ascii_bytes ("kakure:" +:+ pool_name e)) +:+
    String " "%char (to_base64 (borsh e))).

Lemma list_ascii_app a b :
  String.list_ascii_of_string (a +:+ b)
  = String.list_ascii_of_string a ++ String.list_ascii_of_string b.
Proof.
  induction a as [|c a IH]; [done|].
  change (c :: String.list_ascii_of_string (a +:+ b)
          = c :: (String.list_ascii_of_string a ++ String.list_ascii_of_string b)).
  by rewrite IH.
Qed.

Lemma borsh_bytes e : pool_ok e → Forall is_byte (borsh e) ∧ borsh e ≠ [].
Proof.
  unfold borsh. destruct e as [i l p t c ct r|n|o n x y]; cbn [pool_ok].
  - intros (Hi & [Hl Hlb] & [Hp Hpb] & Ht & Hc & Hct & Hcs & [Hr Hrb]).
    change (encode_fields _ _) with
      (le_bytes 8 i ++ l ++ p ++ encode (TOption bytes32) (opt_value t) ++
       encode (TOption bytes32) (opt_value c) ++ flat_map (encode bytes32) (VBytes <$> ct) ++ r ++ []).
    assert (Hopt : ∀ o, opt_bytes32 o → Forall is_byte (encode (TOption bytes32) (opt_value o))).
    { intros [b|] Ho; simpl in *; [|repeat constructor; lia].
      destruct Ho as [_ Ho]. constructor; [unfold is_byte; lia|done]. }
    assert (Hcts : Forall is_byte (flat_map (encode bytes32) (VBytes <$> ct))).
    { clear Hct. induction Hcs as [|b ct [_ Hb] _ IH]; [constructor|]. cbn. by apply Forall_app_2. }
    split; [|done]. repeat apply Forall_app_2; auto.
  - intros [Hn Hb]. change (encode_fields _ _) with (n ++ []). rewrite app_nil_r.
    split; [done|]. by intros ->.
  - intros (Ho & Hn & [Hx Hxb] & [Hy Hyb]).
    change (encode_fields _ _) with (le_bytes 4 o ++ le_bytes 4 n ++ x ++ y ++ []).
    split; [|done]. repeat apply Forall_app_2; auto.
Qed.

(** Decoding the log line of an event. *)
Lemma decode_line e :
  BufferLaws → pool_ok e →
  ∃ d, decodeProgramDataLine DEFAULT_KAKURE_POOL_IDL (log_line e) = Ok (Some d) ∧
       toDomainEvent d = Ok (domain e).
Proof.
  intros HB Hok. destruct (borsh_bytes e Hok) as [Hbb Hbn].
  assert (Htag : ascii_bytes ("kakure:" +:+ pool_name e) ≠ []) by done.
  assert (Htb : Forall is_byte (ascii_bytes ("kakure:" +:+ pool_name e))).
  { unfold ascii_bytes. apply Forall_fmap, Forall_true. intros c. unfold is_byte. simpl.
    pose proof (nat_ascii_bounded c). lia. }
  destruct (base64_tokens HB _ Htag) as [Hs1 Hn1], (base64_tokens HB _ Hbn) as [Hs2 Hn2].
  exists (mkDecodedEvent (pool_name e) (bind_fields (pool_fields e) (pool_values e) ∅)).
  split; [|apply toDomainEvent_fields].
  unfold decodeProgramDataLine, log_line, PROGRAM_DATA_PREFIX. rewrite strip_prefix_app.
  rewrite list_ascii_app. cbn [String.list_ascii_of_string].
  rewrite trim_two, split_two by done. rewrite !String.string_of_list_ascii_of_string.
  cbn [decodeSolLogDataFields]. rewrite !(base64_inverse HB) by done.
  rewrite (utf8_ascii HB), strip_prefix_app, decodeBody_borsh by done. done.
Qed.
(** C34. The indexer reads what the pool writes: for every event the pool can
    emit, decoding its log line against the default IDL gives exactly the
    domain event with the same numbers and the hex of the same bytes. *)
Theorem decode_pool_line e :
  BufferLaws → pool_ok e →
  ∃ d, decodeProgramDataLine DEFAULT_KAKURE_POOL_IDL (log_line e) = Ok (Some d) ∧
       toDomainEvent d = Ok (domain e).
Proof. apply decode_line. Qed.
End Domain.
End Domain.

(** ** Witness: an encoding that satisfies the laws of [Buffer] *)
Module BufferToy.
Import Decode Domain.
Local Open Scope Z_scope.

(** Bytes written as two hex digits each. *)
#[local] Instance toy_buffer : NodeBuffer := {|
  from_base64 s := be_bytes (String.length s / 2) (default 0 (parse_hex 0 s));
  to_utf8 l := String.string_of_list_ascii ((λ b, ascii_of_nat (Z.to_nat b)) <$> l);
|}.

Lemma hex_digit_no_space d : is_space (hex_digit d) = false.
Proof. destruct d as [|[[[[]|[]|]|[[]|[]|]|]|[[[]|[]|]|[[]|[]|]|]|]|]; done. Qed.

Lemma length_hex_of_bytes l : String.length (hex_of_bytes l) = (2 * length l)%nat.
Proof. induction l as [|b l IH]; [done|]. cbn [hex_of_bytes String.length length]. lia. Qed.

Lemma toy_laws : BufferLaws hex_of_bytes.
Proof.
  split.
  - intros l Hl. unfold from_base64, toy_buffer. rewrite parse_hex_bytes by done.
    rewrite length_hex_of_bytes, Nat.mul_comm, Nat.div_mul by done. by apply be_bytes_of_be.
  - intros l Hl. split; [|by destruct l].
    clear Hl. induction l as [|b l IH]; [constructor|].
    cbn [hex_of_bytes String.list_ascii_of_string].
    repeat constructor; [apply hex_digit_no_space..|exact IH].
  - intros e. by destruct e.
Qed.

Lemma decode_pool_line_witness :
  ∃ d, decodeProgramDataLine DEFAULT_KAKURE_POOL_IDL
         (log_line hex_of_bytes (PoolRotated 1 4294967295 (replicate 32 7) (replicate 32 9)))
       = Ok (Some d) ∧
       toDomainEvent d
       = Ok (ComplianceKeyRotated 1 4294967295 (hex0x (replicate 32 7)) (hex0x (replicate 32 9))).
Proof.
  apply (decode_pool_line hex_of_bytes
           (PoolRotated 1 4294967295 (replicate 32 7) (replicate 32 9)) toy_laws).
  cbn [pool_ok]. unfold is_bytes32.
  split_and!; try lia; try reflexivity; apply Forall_replicate; unfold is_byte; lia.
Defined.
End BufferToy.
