(* ===== verification/Indexer.v ===== *)
(** * The indexer's store and API ([packages/indexer/src/db], [api])

    [Store] is the SQLite store of [db/store.ts] (one finite map per table of
    [db/schema.ts]), [Api] the read endpoints of [api/server.ts].  Of SQL the
    model uses: a row is replaced by its primary key ([INSERT OR REPLACE]), an
    [INTEGER PRIMARY KEY] column is the rowid, and [ORDER BY] sorts. *)
From S2P Require Import Prelude Bytes Tree Events.

(** ** The store ([db/store.ts]) *)
Module Store.
Local Open Scope Z_scope.

Record NoteRow := mkNoteRow {
  leafIndex : Z;
  leaf : string;
  ephPubX : string;
  tag : option string;
  cekWrap : option string;
  ciphertext : list string;
  root : string;
  slot : Z;
}.

Record RootRow := mkRootRow {
  cursor : Z;
  root_hex : string;
  nextLeafIndex : Z;
  root_slot : Z;
}.

Record ComplianceKeyRow := mkComplianceKeyRow { version : Z; x : string; y : string; fromSlot : Z }.

Record CursorState := mkCursorState { lastSignature : option string; lastSlot : Z }.

(** The tables.  [nullifiers] has a text key, so its rows are kept in rowid
    order: replacing a row moves it to the end. *)
Record IndexerStore := mkStore {
  notes : gmap Z NoteRow;
  nullifiers : list (string * Z);
  roots : gmap Z RootRow;
  compliance_keys : gmap Z ComplianceKeyRow;
  cursor_row : option CursorState;
}.

Definition empty_store : IndexerStore := mkStore ∅ [] ∅ ∅ None.

Definition ROOT_RING_SIZE : Z := 256.

Definition insertNote (note : NoteRow) (s : IndexerStore) : IndexerStore :=
  mkStore (<[leafIndex note := note]> (notes s)) (nullifiers s) (roots s)
    (compliance_keys s) (cursor_row s).

Definition getNotesFrom (fromLeafIndex : Z) (s : IndexerStore) : list NoteRow :=
  order_by leafIndex
    (filter (λ r, fromLeafIndex <= leafIndex r) ((map_to_list (notes s)).*2)).

Definition insertNullifier (nullifier : string) (slot : Z) (s : IndexerStore) : IndexerStore :=
  mkStore (notes s) (filter (λ r, r.1 ≠ nullifier) (nullifiers s) ++ [(nullifier, slot)])
    (roots s) (compliance_keys s) (cursor_row s).

Definition isNullifierSpent (nullifier : string) (s : IndexerStore) : bool :=
  existsb (λ r, bool_decide (r.1 = nullifier)) (nullifiers s).

Definition getNullifiersFrom (slot : Z) (s : IndexerStore) : list string :=
  (order_by snd (filter (λ r, slot <= r.2) (nullifiers s))).*1.

(** [SELECT MAX(cursor) FROM roots]. *)
Definition max_cursor (m : gmap Z RootRow) : option Z :=
  foldr (λ k acc, Some (match acc with None => k | Some a => Z.max k a end)) None
    ((map_to_list m).*1).

Definition pushRoot (root : string) (nextLeafIndex slot : Z) (s : IndexerStore) : IndexerStore :=
  let count := Z.of_nat (size (roots s)) in
  let nextCursor :=
    if count =? 0 then 0 else (default (-1) (max_cursor (roots s)) + 1) mod ROOT_RING_SIZE in
  mkStore (notes s) (nullifiers s)
    (<[nextCursor := mkRootRow nextCursor root nextLeafIndex slot]> (roots s))
    (compliance_keys s) (cursor_row s).

(** [ORDER BY slot DESC, rowid DESC LIMIT 1]; [cursor INTEGER PRIMARY KEY] is
    the rowid of the table. *)
Definition latest_cmp (a b : RootRow) : Z :=
  if root_slot a =? root_slot b then cursor b - cursor a else root_slot b - root_slot a.
Definition getLatestRoot (s : IndexerStore) : option RootRow :=
  head (js_sort latest_cmp ((map_to_list (roots s)).*2)).

Definition listRoots (s : IndexerStore) : list RootRow :=
  order_by cursor ((map_to_list (roots s)).*2).

Definition insertComplianceKey (row : ComplianceKeyRow) (s : IndexerStore) : IndexerStore :=
  mkStore (notes s) (nullifiers s) (roots s)
    (<[version row := row]> (compliance_keys s)) (cursor_row s).

Definition listComplianceKeys (s : IndexerStore) : list ComplianceKeyRow :=
  order_by version ((map_to_list (compliance_keys s)).*2).

Definition getCursor (s : IndexerStore) : CursorState :=
  match cursor_row s with None => mkCursorState None 0 | Some c => c end.

Definition setCursor (state : CursorState) (s : IndexerStore) : IndexerStore :=
  mkStore (notes s) (nullifiers s) (roots s) (compliance_keys s) (Some state).

(** *** Lemmas on the ring of roots *)

Lemma max_cursor_spec m k :
  is_Some (m !! k) → (∀ j, is_Some (m !! j) → j <= k) → max_cursor m = Some k.
Proof.
  intros Hk Hmax. unfold max_cursor.
  assert (Hin : k ∈ (map_to_list m).*1).
  { destruct Hk as [r Hr]. apply list_elem_of_fmap. exists (k, r). split; [done|].
    by apply elem_of_map_to_list. }
  assert (Hall : ∀ j, j ∈ (map_to_list m).*1 → j <= k).
  { intros j Hj. apply list_elem_of_fmap in Hj as ([j' r] & -> & Hr).
    apply elem_of_map_to_list in Hr. apply Hmax. by eexists. }
  clear Hk Hmax. revert Hin Hall. generalize ((map_to_list m).*1) as l.
  induction l as [|j l IH]; intros Hin Hall; [by apply not_elem_of_nil in Hin|]. simpl. f_equal.
  destruct (decide (k ∈ l)) as [Hkl|Hkl].
  - rewrite IH; [|done|intros; apply Hall; by right]. specialize (Hall j ltac:(left)). lia.
  - apply elem_of_cons in Hin as [->|]; [|done].
    assert (Hl : ∀ i, i ∈ l → i <= j) by (intros; apply Hall; by right).
    clear IH Hall Hkl. destruct (foldr _ _ _) as [a|] eqn:E; [|done].
    assert (a <= j); [|lia]. revert a E. induction l as [|i l IHl]; intros a; simpl; [done|].
    intros [= <-]. specialize (IHl ltac:(intros; apply Hl; by right)).
    specialize (Hl i ltac:(left)). destruct (foldr _ _ _) as [b|]; [|done].
    specialize (IHl b eq_refl). lia.
Qed.

(** The history of pushes. *)
Record Push := mkPush { p_root : string; p_next : Z; p_slot : Z }.
Definition push (s : IndexerStore) (p : Push) : IndexerStore :=
  pushRoot (p_root p) (p_next p) (p_slot p) s.
Definition push_all (l : list Push) : IndexerStore := foldl push empty_store l.

Definition row_at (i : Z) (p : Push) : RootRow := mkRootRow i (p_root p) (p_next p) (p_slot p).

(** What the table holds at cursor [i] after the pushes [l]. *)
Definition stored (l : list Push) (i : Z) : option Push :=
  if decide (0 <= i < ROOT_RING_SIZE) then
    if decide (i = 0 ∧ 256 < Z.of_nat (length l)) then last l else l !! Z.to_nat i
  else None.

Lemma stored_is_Some l i :
  is_Some (stored l i) ↔ 0 <= i < Z.min 256 (Z.of_nat (length l)).
Proof.
  unfold stored, ROOT_RING_SIZE. destruct (decide (0 <= i < 256)).
  - destruct (decide _) as [[-> Hl]|Hn].
    + split; [lia|]. intros _. apply last_is_Some. by destruct l.
    + rewrite lookup_lt_is_Some. lia.
  - split; [by intros [? ?]|lia].
Qed.

Lemma push_all_roots l i : roots (push_all l) !! i = row_at i <$> stored l i.
Proof.
  revert i. induction l as [|p l IH] using rev_ind; intros i.
  { unfold push_all, stored. simpl. rewrite lookup_empty.
    repeat destruct (decide _); try done. }
  assert (Hsome : ∀ j, is_Some (roots (push_all l) !! j) ↔ 0 <= j < Z.min 256 (Z.of_nat (length l))).
  { intros j. rewrite IH, fmap_is_Some. apply stored_is_Some. }
  unfold push_all. rewrite foldl_snoc. fold (push_all l). unfold push, pushRoot. simpl.
  set (nc := if _ : bool then 0 else _).
  assert (Hnc : nc = if decide (Z.of_nat (length l) < 256) then Z.of_nat (length l) else 0).
  { unfold nc. destruct (Z.eqb_spec (Z.of_nat (size (roots (push_all l)))) 0) as [Hz|Hz].
    - assert (roots (push_all l) = ∅) as He by (apply map_size_empty_inv; lia).
      specialize (Hsome 0). rewrite He, lookup_empty in Hsome.
      destruct (decide _); [|done]. destruct Hsome as [_ H].
      destruct (decide (Z.of_nat (length l) = 0)) as [->|]; [done|].
      by destruct H as [? ?]; [lia|].
    - assert (Hpos : (0 < length l)%nat).
      { destruct l; [by destruct Hz|simpl; lia]. }
      rewrite (max_cursor_spec _ (Z.min 256 (Z.of_nat (length l)) - 1)).
      + simpl. unfold ROOT_RING_SIZE. destruct (decide _).
        * rewrite Z.mod_small by lia. lia.
        * by replace (Z.min 256 (Z.of_nat (length l)) - 1 + 1) with 256 by lia.
      + apply Hsome. lia.
      + intros j Hj%Hsome. lia. }
  clearbody nc. subst nc. destruct (decide (Z.of_nat (length l) < 256)) as [Hlt|Hge].
  - destruct (decide (i = Z.of_nat (length l))) as [->|Hne].
    + rewrite lookup_insert_eq. unfold stored, ROOT_RING_SIZE.
      rewrite decide_True by lia. rewrite decide_False by (rewrite length_app; simpl; lia).
      by rewrite Nat2Z.id, lookup_app_r, Nat.sub_diag by lia.
    + rewrite lookup_insert_ne, IH by done. unfold stored, ROOT_RING_SIZE.
      destruct (decide (0 <= i < 256)); [|done]. rewrite !decide_False by (rewrite ?length_app; simpl; lia).
      destruct (decide (i < Z.of_nat (length l))).
      * by rewrite lookup_app_l by lia.
      * rewrite !lookup_ge_None_2; [done|rewrite length_app; simpl; lia|lia].
  - destruct (decide (i = 0)) as [->|Hne].
    + rewrite lookup_insert_eq. unfold stored, ROOT_RING_SIZE. rewrite decide_True by lia.
      rewrite decide_True by (rewrite length_app; simpl; lia). by rewrite last_snoc.
    + rewrite lookup_insert_ne, IH by done. unfold stored, ROOT_RING_SIZE.
      destruct (decide (0 <= i < 256)); [|done]. rewrite !decide_False by lia.
      by rewrite lookup_app_l by lia.
Qed.

Lemma latest_cmp_total a b : ~ latest_cmp a b <= 0 → latest_cmp b a <= 0.
Proof. unfold latest_cmp. repeat case_match; lia. Qed.
Lemma latest_cmp_trans a b c : latest_cmp a b <= 0 → latest_cmp b c <= 0 → latest_cmp a c <= 0.
Proof. unfold latest_cmp. repeat case_match; lia. Qed.

(** The row [ORDER BY slot DESC, rowid DESC] puts first. *)
Lemma getLatestRoot_spec s k r :
  roots s !! k = Some r → (∀ j r', roots s !! j = Some r' → cursor r' = j) →
  (∀ j r', roots s !! j = Some r' → latest_cmp r r' <= 0) → getLatestRoot s = Some r.
Proof.
  intros Hk Hcur Hmin. unfold getLatestRoot.
  set (rows := (map_to_list (roots s)).*2).
  assert (Hrows : ∀ r', r' ∈ rows ↔ ∃ j, roots s !! j = Some r').
  { intros r'. unfold rows. rewrite list_elem_of_fmap. split.
    - intros ([j r0] & -> & Hj%elem_of_map_to_list). by exists j.
    - intros [j Hj]. exists (j, r'). split; [done|by apply elem_of_map_to_list]. }
  pose proof (js_sort_sorted latest_cmp latest_cmp_total latest_cmp_trans rows) as Hs.
  pose proof (js_sort_perm latest_cmp rows) as Hp.
  destruct (js_sort latest_cmp rows) as [|h t].
  { exfalso. assert (r ∈ rows) as Hr by (apply Hrows; eauto). rewrite <- Hp in Hr.
    by apply not_elem_of_nil in Hr. }
  simpl. f_equal.
  assert (h ∈ rows) as Hh by (rewrite <- Hp; left). apply Hrows in Hh as [j Hj].
  assert (r ∈ h :: t) as Hr by (rewrite Hp; apply Hrows; eauto).
  apply elem_of_cons in Hr as [->|Hr]; [done|].
  apply StronglySorted_inv in Hs as [_ Hf]. rewrite Forall_forall in Hf.
  specialize (Hf r Hr). specialize (Hmin j h Hj).
  assert (cursor h = cursor r) as E by (unfold latest_cmp in *; repeat case_match; lia).
  rewrite (Hcur j h Hj), (Hcur k r Hk) in E. subst j. congruence.
Qed.
End Store.

(** ** The read endpoints ([api/server.ts]) *)
Module Api.
Import Store.
Section Api.
Context `{PoseidonV1}.
Local Open Scope Z_scope.

Inductive HttpError :=
  | Halted503 | Invalid400 | NotFound404
  (** an exception the handler does not catch *)
  | Internal500.

Record RootReply := mkRootReply {
  reply_root : string;
  next_leaf_index : Z;
  reply_roots : list string;
  root_cursor : Z;
}.

Definition zero_root : string := "0x" +:+ padStart0 64 "".

Definition get_root (halted : bool) (store : IndexerStore) (tree : Mirror.LeanIMT) :
    result HttpError RootReply :=
  if halted then Err Halted503
  else
    let latest := getLatestRoot store in
    let roots :=
      foldl (λ roots row,
        if (0 <=? cursor row) && (cursor row <? ROOT_RING_SIZE)
        then <[Z.to_nat (cursor row) := root_hex row]> roots else roots)
        (replicate (Z.to_nat ROOT_RING_SIZE) zero_root) (listRoots store) in
    let rootCursor :=
      match latest with Some l => (cursor l + 1) mod ROOT_RING_SIZE | None => 0 end in
    root ← match latest with
           | Some l => Ok (root_hex l)
           | None => match FieldHex.fieldToHex (Mirror.getRoot tree) with
                     | Ok h => Ok h | Err _ => Err Internal500 end
           end;
    Ok (mkRootReply root
          (match latest with Some l => Store.nextLeafIndex l
           | None => Z.of_nat (Mirror.nextLeafIndex tree) end) roots rootCursor).

(** [GET /path/:leaf_index]; [None] is a parameter [Number] does not read as
    an integer.  The [catch] turns every failure of the body into a 404. *)
Definition get_path (halted : bool) (tree : Mirror.LeanIMT) (leaf_index : option Z) :
    result HttpError (list string) :=
  if halted then Err Halted503
  else match leaf_index with
       | None => Err Invalid400
       | Some i =>
           if i <? 0 then Err Invalid400
           else match Mirror.getPath tree i with
                | Err _ => Err NotFound404
                | Ok p => match map_res FieldHex.fieldToHex p with
                          | Ok l => Ok l | Err _ => Err NotFound404 end
                end
       end.

(** [GET /notes?from=], [GET /nullifiers?from_slot=] and
    [GET /nullifiers/:hex]; [None] is a query that is not a finite number. *)
Definition get_notes (store : IndexerStore) (from : option Z) : list NoteRow :=
  getNotesFrom (default 0 from) store.
Definition get_nullifiers (store : IndexerStore) (from_slot : option Z) :
    result HttpError (list string) :=
  match from_slot with None => Err Invalid400 | Some f => Ok (getNullifiersFrom f store) end.
Definition get_nullifier (store : IndexerStore) (hex : string) : bool := isNullifierSpent hex store.
Definition get_compliance (store : IndexerStore) : list ComplianceKeyRow := listComplianceKeys store.

Lemma push_all_keyed l j r : roots (push_all l) !! j = Some r → cursor r = j.
Proof. rewrite push_all_roots. intros (p & _ & ->)%fmap_Some. done. Qed.

(** The padded array of the reply, cursor by cursor. *)
Lemma roots_array_lookup l acc i :
  length acc = 256%nat → (∀ r, r ∈ l → 0 <= cursor r < 256) →
  NoDup (cursor <$> l) → (0 <= i < 256) →
  foldl (λ roots row,
        if (0 <=? cursor row) && (cursor row <? ROOT_RING_SIZE)
        then <[Z.to_nat (cursor row) := root_hex row]> roots else roots) acc l !! Z.to_nat i
  = match list_find (λ r, cursor r = i) l with
    | Some (_, r) => Some (root_hex r)
    | None => acc !! Z.to_nat i
    end.
Proof.
  revert acc. induction l as [|r l IH]; intros acc Hlen Hr Hnd Hi; [done|].
  apply NoDup_cons in Hnd as [Hnr Hnd]. simpl. unfold ROOT_RING_SIZE in *.
  pose proof (Hr r ltac:(left)) as Hrr.
  rewrite (proj2 (Z.leb_le _ _)), (proj2 (Z.ltb_lt _ _)) by lia. simpl.
  rewrite IH; [|by rewrite length_insert|intros; apply Hr; by right|done|done].
  destruct (decide (cursor r = i)) as [Hri|Hne].
  - destruct (list_find _ l) as [[k r']|] eqn:E.
    + apply list_find_Some in E as (Hk & Hcr & _). exfalso. apply Hnr. rewrite Hri, <- Hcr.
      apply (list_elem_of_fmap_2 cursor). exact (list_elem_of_lookup_2 _ _ _ Hk).
    + rewrite Hri, list_lookup_insert_eq; [done|lia].
  - destruct (list_find _ l) as [[k r']|]; [done|].
    rewrite list_lookup_insert_ne; [done|lia].
Qed.

Lemma listRoots_elem l r : r ∈ listRoots (push_all l) ↔ ∃ j, roots (push_all l) !! j = Some r.
Proof.
  unfold listRoots. rewrite order_by_perm, list_elem_of_fmap. split.
  - intros ([j r0] & -> & Hj%elem_of_map_to_list). by exists j.
  - intros [j Hj]. exists (j, r). split; [done|by apply elem_of_map_to_list].
Qed.

Lemma listRoots_NoDup l : NoDup (cursor <$> listRoots (push_all l)).
Proof.
  unfold listRoots. rewrite order_by_perm.
  replace (cursor <$> (map_to_list (roots (push_all l))).*2)
    with ((map_to_list (roots (push_all l))).*1); [apply NoDup_fst_map_to_list|].
  rewrite <- list_fmap_compose. apply list_fmap_ext. intros k [j r] Hk. simpl.
  apply list_elem_of_lookup_2, elem_of_map_to_list in Hk. symmetry. by eapply push_all_keyed.
Qed.

Definition expected_root (l : list Push) (i : Z) : string :=
  match stored l i with Some p => p_root p | None => zero_root end.

(** The array of the reply, slot by slot, after any history of pushes. *)
Lemma get_root_array l tree reply i :
  get_root false (push_all l) tree = Ok reply → 0 <= i < 256 →
  reply_roots reply !! Z.to_nat i = Some (expected_root l i).
Proof.
  unfold get_root. intros (h & _ & [= <-])%bind_Ok Hi. cbn [reply_roots].
  rewrite roots_array_lookup; [|reflexivity| |apply listRoots_NoDup|done].
  2: { intros r (j & Hj)%listRoots_elem. rewrite (push_all_keyed _ _ _ Hj).
       assert (is_Some (stored l j)) as Hs.
       { rewrite push_all_roots in Hj. apply fmap_Some in Hj as (p & -> & _). done. }
       apply stored_is_Some in Hs. lia. }
  unfold expected_root. pose proof (push_all_roots l i) as Hr.
  destruct (list_find _ _) as [[k r]|] eqn:E.
  - apply list_find_Some in E as (Hk & <- & _).
    apply list_elem_of_lookup_2, listRoots_elem in Hk as [j Hj].
    rewrite (push_all_keyed _ _ _ Hj), Hj in Hr.
    rewrite (push_all_keyed _ _ _ Hj). symmetry in Hr. by apply fmap_Some in Hr as (p & -> & ->).
  - apply list_find_None in E. destruct (stored l i) as [p|].
    + exfalso. rewrite Forall_forall in E. apply (E (row_at i p)); [|done].
      apply listRoots_elem. by exists i.
    + exact (lookup_replicate_2 256 zero_root (Z.to_nat i) ltac:(lia)).
Qed.

(** Slots do not decrease along the history. *)
Definition slots_ok (l : list Push) : Prop :=
  ∀ i j p q, (i <= j)%nat → l !! i = Some p → l !! j = Some q → p_slot p <= p_slot q.

(** Until the ring wraps, [GET /root] reports it faithfully: after [n]
    pushes, [1 <= n <= 256], with slots in order, the reply names the last root
    pushed and its next leaf index, slot [i] of the array is the root of push
    [i] and zero beyond, and the cursor is the next slot the pool will write. *)
Theorem get_root_before_wrap l last tree :
  slots_ok (l ++ [last]) → (length l < 256)%nat →
  ∃ reply, get_root false (push_all (l ++ [last])) tree = Ok reply ∧
    reply_root reply = p_root last ∧ next_leaf_index reply = p_next last ∧
    root_cursor reply = Z.of_nat (length l + 1) mod 256 ∧
    ∀ i, 0 <= i < 256 → reply_roots reply !! Z.to_nat i
      = Some (default zero_root (p_root <$> (l ++ [last]) !! Z.to_nat i)).
Proof.
  intros Hs Hlen. set (n := Z.of_nat (length l)).
  assert (Hst : ∀ j, stored (l ++ [last]) j
    = if decide (0 <= j < 256) then (l ++ [last]) !! Z.to_nat j else None).
  { intros j. unfold stored, ROOT_RING_SIZE. case_decide; [|done].
    rewrite decide_False; [done|]. rewrite length_app. simpl. lia. }
  assert (Hn : roots (push_all (l ++ [last])) !! n = Some (row_at n last)).
  { rewrite push_all_roots, Hst, decide_True by lia. unfold n.
    by rewrite Nat2Z.id, lookup_app_r, Nat.sub_diag by lia. }
  assert (Hlatest : getLatestRoot (push_all (l ++ [last])) = Some (row_at n last)).
  { apply (getLatestRoot_spec _ n); [done|apply push_all_keyed|].
    intros j r' Hj. rewrite push_all_roots, Hst in Hj. apply fmap_Some in Hj as (p & Hp & ->).
    case_decide; [|done]. pose proof (lookup_lt_Some _ _ _ Hp) as Hjl.
    rewrite length_app in Hjl. simpl in Hjl.
    assert (p_slot p <= p_slot last).
    { apply (Hs (Z.to_nat j) (length l)); [lia|done|].
      by rewrite lookup_app_r, Nat.sub_diag by lia. }
    unfold latest_cmp. simpl. case_match; lia. }
  assert (∃ reply, get_root false (push_all (l ++ [last])) tree = Ok reply ∧
    reply_root reply = p_root last ∧ next_leaf_index reply = p_next last ∧
    root_cursor reply = Z.of_nat (length l + 1) mod 256) as (reply & Hr & H1 & H2 & H3).
  { unfold get_root. rewrite Hlatest. simpl. eexists. split; [reflexivity|]. simpl.
    split_and!; [done|done|]. unfold ROOT_RING_SIZE, n. f_equal. lia. }
  exists reply. split_and!; [done..|]. intros i Hi.
  rewrite (get_root_array _ _ _ _ Hr) by done. f_equal.
  unfold expected_root. rewrite Hst, decide_True by done. by case_match.
Qed.

(** After the wrap the ring is stuck: from the 257th push on, every push
    lands on slot 0, so slots 1 to 255 keep the roots of pushes 1 to 255
    forever, every later root but the last is lost, and, slots strictly
    increasing, the cursor reported is 1 whatever the pool's is. *)
Theorem root_ring_stuck l tree reply :
  (256 < length l)%nat → get_root false (push_all l) tree = Ok reply →
  (∀ i, 1 <= i < 256 → reply_roots reply !! Z.to_nat i = p_root <$> l !! Z.to_nat i) ∧
  reply_roots reply !! 0%nat = p_root <$> last l ∧
  ((∀ i j p q, (i < j)%nat → l !! i = Some p → l !! j = Some q → p_slot p < p_slot q) →
   root_cursor reply = 1 ∧ Some (reply_root reply) = p_root <$> last l).
Proof.
  intros Hlen Hreply.
  assert (Hl : is_Some (last l)) by (apply last_is_Some; destruct l; [simpl in Hlen; lia|done]).
  destruct Hl as [q Hq]. split_and!.
  - intros i Hi. rewrite (get_root_array _ _ _ _ Hreply) by lia. unfold expected_root, stored.
    rewrite decide_True by (unfold ROOT_RING_SIZE; lia). rewrite decide_False by lia.
    by destruct (lookup_lt_is_Some_2 l (Z.to_nat i)) as [p ->]; [lia|].
  - change 0%nat with (Z.to_nat 0). rewrite (get_root_array _ _ _ _ Hreply) by lia.
    unfold expected_root, stored. rewrite !decide_True by (unfold ROOT_RING_SIZE; lia).
    by rewrite Hq.
  - intros Hs. assert (Hlatest : getLatestRoot (push_all l) = Some (row_at 0 q)).
    { apply (getLatestRoot_spec _ 0); [|apply push_all_keyed|].
      - rewrite push_all_roots. unfold stored.
        rewrite !decide_True by (unfold ROOT_RING_SIZE; lia). by rewrite Hq.
      - intros j r' Hj. rewrite push_all_roots in Hj. apply fmap_Some in Hj as (p & Hp & ->).
        unfold stored in Hp. repeat case_decide; simplify_eq.
        + unfold latest_cmp. simpl. rewrite Z.eqb_refl. lia.
        + assert (p_slot p < p_slot q).
          { rewrite last_lookup in Hq. eapply Hs; [|exact Hp|exact Hq].
            unfold ROOT_RING_SIZE in *. lia. }
          unfold latest_cmp. simpl. case_match; lia. }
    unfold get_root in Hreply. rewrite Hlatest in Hreply. simpl in Hreply.
    injection Hreply as <-. by rewrite Hq.
Qed.
End Api.
End Api.

(** ** Witnesses for the ring *)
Module RingWitness.
Import Store Api.
Local Open Scope Z_scope.
#[local] Existing Instance Toy.toy_poseidon.

Definition demo_push (i : nat) : Push := mkPush (toString16 (Z.of_nat i)) (Z.of_nat i + 1) (Z.of_nat i).
Definition demo (n : nat) : list Push := demo_push <$> seq 0 n.
Definition no_tree : Mirror.LeanIMT := Mirror.mkLeanIMT 32 [] 0 0.
Definition demo_reply (n : nat) : RootReply :=
  match get_root false (push_all (demo n)) no_tree with
  | Ok r => r | Err _ => mkRootReply "" 0 [] 0 end.

Lemma get_root_before_wrap_witness :
  ∃ reply, get_root false (push_all (demo 2 ++ [demo_push 2])) no_tree = Ok reply ∧
    reply_root reply = "2" ∧ next_leaf_index reply = 3 ∧ root_cursor reply = 3 ∧
    ∀ i, 0 <= i < 256 → reply_roots reply !! Z.to_nat i
      = Some (default zero_root (p_root <$> (demo 2 ++ [demo_push 2]) !! Z.to_nat i)).
Proof.
  apply (get_root_before_wrap (demo 2) (demo_push 2) no_tree); [|simpl; lia].
  intros i j p q Hij Hp Hq.
  destruct i as [|[|[|i]]], j as [|[|[|j]]]; cbn in Hp, Hq; try done; try lia;
    injection Hp as <-; injection Hq as <-; cbn; lia.
Defined.

Lemma root_ring_stuck_witness :
  reply_roots (demo_reply 300) !! 5%nat = Some "5" ∧
  reply_roots (demo_reply 300) !! 0%nat = Some (toString16 299).
Proof.
  destruct (root_ring_stuck (demo 300) no_tree (demo_reply 300)) as (H1 & H2 & _).
  - vm_compute. lia.
  - vm_compute. reflexivity.
  - split; [exact (H1 5 ltac:(lia))|exact H2].
Defined.

(** Ties on the slot are not broken by insertion order: when pushes 255
    and 256 land in one slot, the wrapped row has rowid 0 and the reply names
    the root of push 255 although push 256 came later. *)
Theorem latest_root_tie :
  let p i := mkPush (toString16 (Z.of_nat i)) (Z.of_nat i + 1) (Z.min (Z.of_nat i) 255) in
  getLatestRoot (push_all (p <$> seq 0 257)) = Some (row_at 255 (p 255%nat)).
Proof. vm_compute. reflexivity. Qed.
End RingWitness.
