(* ===== verification/Ingest.v ===== *)
(** * The ingestor ([packages/indexer/src/ingest])

    The ingestor drives three pieces of state: the store, the in-memory tree
    mirror and the halt latch.  Its methods run in the state-and-exception
    monad [M], so a throw part-way keeps what was already written.  The chain
    source (the RPC) is a parameter; [await] is sequencing. *)
From S2P Require Import Prelude Bytes Tree Events Indexer.
Import Store Decode Domain.
Local Open Scope Z_scope.

(** ** Log truncation ([ingest/errors.ts]) *)
Definition logsWereTruncated (logMessages : list string) : bool :=
  existsb (λ l, bool_decide (l = "Log truncated") ||
                bool_decide (is_Some (strip_prefix "Log truncated" l))) logMessages.

Record LogTruncationError := mkLogTruncationError { signature : string; err_slot : Z }.

Inductive IngestError :=
  | Truncated (e : LogTruncationError)
  | DecodeFailed (e : EventDecodeError)
  | HexFailed (e : FieldHex.HexError)
  | TreeFailed (e : Mirror.TreeError).

(** ** The chain source ([chain/types.ts]) *)
Record SignatureInfo := mkSignatureInfo { sig : string; sig_slot : Z; sig_err : bool }.
Record RawTransaction := mkRawTransaction { tx_err : bool; logMessages : list string }.
Record ChainSource := mkChainSource {
  getSignaturesForAddress : string → option string → list SignatureInfo;
  getTransaction : string → option RawTransaction;
}.

Module Ingest.
Section Ingest.
Context {HP : PoseidonV1} {HB : NodeBuffer} (chain : ChainSource) (idl : KakurePoolIdl)
  (programId : string).

Record State := mkState {
  store : IndexerStore;
  tree : Mirror.LeanIMT;
  halted : option LogTruncationError;
}.

Local Notation ST := (M State IngestError).

Definition on_store (f : IndexerStore → IndexerStore) : ST unit :=
  modify (λ s, mkState (f (store s)) (tree s) (halted s)).
Definition set_halted (e : LogTruncationError) : ST unit :=
  modify (λ s, mkState (store s) (tree s) (Some e)).

(** [this.opts.tree.insert(x)]: the tree is replaced, the root returned. *)
Definition tree_insert (x : Z) : ST Z := λ s,
  match Mirror.insert (tree s) x with
  | Ok (t, root) => (mkState (store s) t (halted s), Ok root)
  | Err e => (s, Err (TreeFailed e))
  end.

Fixpoint hydrate_rows (notes : list NoteRow) : ST unit :=
  match notes with
  | [] => mret tt
  | note :: notes =>
      leaf ← lift HexFailed (FieldHex.fieldFromHex (Store.leaf note));
      _ ← tree_insert leaf; hydrate_rows notes
  end.
Definition hydrateTree : ST unit := s ← get; hydrate_rows (getNotesFrom 0 (store s)).

Definition applyEvent (event : KakurePoolEvent) (slot : Z) : ST unit :=
  match event with
  | NoteInserted e =>
      leaf ← lift HexFailed (FieldHex.fieldFromHex (Domain.leaf e));
      root ← tree_insert leaf;
      root_hex ← lift HexFailed (FieldHex.fieldToHex root);
      _ ← on_store (insertNote (mkNoteRow (Domain.leafIndex e) (Domain.leaf e)
            (Domain.ephPubX e) (Domain.tag e) (Domain.cekWrap e) (Domain.ciphertext e)
            root_hex slot));
      s ← get;
      on_store (pushRoot root_hex (Z.of_nat (Mirror.nextLeafIndex (tree s))) slot)
  | NullifierSpent nullifier => on_store (insertNullifier nullifier slot)
  | ComplianceKeyRotated _ newVersion x y =>
      on_store (insertComplianceKey (mkComplianceKeyRow newVersion x y slot))
  end.

Fixpoint apply_lines (lines : list string) (slot : Z) : ST unit :=
  match lines with
  | [] => mret tt
  | line :: lines =>
      match decodeProgramDataLine idl line with
      | Err _ => apply_lines lines slot
      | Ok None => apply_lines lines slot
      | Ok (Some decoded) =>
          event ← lift DecodeFailed (toDomainEvent decoded);
          _ ← applyEvent event slot; apply_lines lines slot
      end
  end.

Definition set_cursor (sig : string) (slot : Z) : ST unit :=
  on_store (setCursor (mkCursorState (Some sig) slot)).

Definition processSignature (sig : string) (slot : Z) : ST unit :=
  match getTransaction chain sig with
  | None => set_cursor sig slot
  | Some tx =>
      if tx_err tx then set_cursor sig slot
      else if logsWereTruncated (logMessages tx) then
        let err := mkLogTruncationError sig slot in
        _ ← set_halted err; throw (Truncated err)
      else
        _ ← apply_lines (LogScope.programDataLinesFor (logMessages tx) programId) slot;
        set_cursor sig slot
  end.

Fixpoint backfill_loop (sigs : list SignatureInfo) : ST unit :=
  match sigs with
  | [] => mret tt
  | s :: sigs =>
      if sig_err s then backfill_loop sigs
      else _ ← processSignature (sig s) (sig_slot s); backfill_loop sigs
  end.

(** [cursor.lastSignature ? { until: cursor.lastSignature } : undefined]. *)
Definition until_of (cursor : CursorState) : option string :=
  match lastSignature cursor with Some "" => None | u => u end.

Definition backfill : ST unit :=
  s ← get;
  let signatures := getSignaturesForAddress chain programId (until_of (getCursor (store s))) in
  backfill_loop (reverse signatures).

(** One live notification; [subscribed] is whether the tail is still attached.
    The callback never throws: a truncation latches the halt and unsubscribes,
    any other error is logged. *)
Definition on_log (info : SignatureInfo) (st : State * bool) : State * bool :=
  let '(s, subscribed) := st in
  if negb subscribed || sig_err info then st
  else match processSignature (sig info) (sig_slot info) s with
       | (s, Err (Truncated e)) => (mkState (store s) (tree s) (Some e), false)
       | (s, _) => (s, subscribed)
       end.

(** ** The mirror invariant *)

(** The rows of the notes table are leaves [0 .. n-1] of the chain, keyed by
    index, and their hex reads back as the leaf. *)
Definition notes_hold (m : gmap Z NoteRow) (leaves : list Z) : Prop :=
  ∀ i, match m !! i with
       | Some r => Store.leafIndex r = i ∧ 0 <= i ∧
           ∃ x, leaves !! Z.to_nat i = Some x ∧ FieldHex.fieldFromHex (Store.leaf r) = Ok x
       | None => 0 <= i → (length leaves <= Z.to_nat i)%nat
       end.

Definition synced (s : State) (leaves : list Z) : Prop :=
  Spec.mirror_repr (tree s) 32 leaves ∧ notes_hold (notes (store s)) leaves.

Definition canonical (x : Z) : Prop := 0 <= x < BN254_SCALAR_FIELD_MODULUS.

Lemma notes_hold_insert m leaves row x :
  notes_hold m leaves → Store.leafIndex row = Z.of_nat (length leaves) →
  FieldHex.fieldFromHex (Store.leaf row) = Ok x →
  notes_hold (<[Store.leafIndex row := row]> m) (leaves ++ [x]).
Proof.
  intros Hm Hi Hx i. destruct (decide (i = Store.leafIndex row)) as [->|Hne].
  - rewrite lookup_insert_eq. split_and!; [done|lia|]. exists x.
    by rewrite Hi, Nat2Z.id, lookup_app_r, Nat.sub_diag by lia.
  - rewrite lookup_insert_ne by done. specialize (Hm i). destruct (m !! i) as [r|].
    + destruct Hm as (H1 & H2 & y & H3 & H4). split_and!; [done|done|]. exists y.
      split; [|done]. by apply lookup_app_l_Some.
    + intros H0. specialize (Hm H0). rewrite length_app. simpl. lia.
Qed.

(** The rows in order, as [getNotesFrom(0)] returns them. *)
Lemma getNotesFrom_0 s leaves :
  notes_hold (notes s) leaves →
  Forall2 (λ r x, FieldHex.fieldFromHex (Store.leaf r) = Ok x) (getNotesFrom 0 s) leaves.
Proof.
  intros Hm. set (L := getNotesFrom 0 s).
  assert (Hin : ∀ r, r ∈ L ↔ ∃ i, notes s !! i = Some r).
  { intros r. unfold L, getNotesFrom. rewrite order_by_perm, list_elem_of_filter, list_elem_of_fmap.
    split.
    - intros (_ & [i r'] & -> & Hi%elem_of_map_to_list). by exists i.
    - intros [i Hi]. split.
      + specialize (Hm i). rewrite Hi in Hm. lia.
      + exists (i, r). split; [done|by apply elem_of_map_to_list]. }
  assert (Hkey : Store.leafIndex <$> L = Z.of_nat <$> seq 0 (length leaves)).
  { apply (StronglySorted_unique Z.le).
    - apply order_by_sorted.
    - generalize 0%nat. induction (length leaves) as [|n IH]; intros k; cbn; constructor; [apply IH|].
      apply Forall_fmap, Forall_forall. intros j Hj%elem_of_seq. cbn. lia.
    - apply NoDup_Permutation.
      + unfold L, getNotesFrom. rewrite order_by_perm.
        assert (Hnd : NoDup (Store.leafIndex <$> (map_to_list (notes s)).*2)).
        { replace (Store.leafIndex <$> _) with ((map_to_list (notes s)).*1);
            [apply NoDup_fst_map_to_list|].
          rewrite <- list_fmap_compose. apply list_fmap_ext. intros k [j r] Hk. simpl.
          apply list_elem_of_lookup_2, elem_of_map_to_list in Hk. specialize (Hm j).
          rewrite Hk in Hm. lia. }
        eapply sublist_NoDup; [exact Hnd|]. apply sublist_fmap, sublist_filter.
      + apply NoDup_fmap_2; [apply _|]. apply NoDup_seq.
      + intros z. rewrite !list_elem_of_fmap. split.
        * intros (r & -> & [i Hi]%Hin). specialize (Hm i). rewrite Hi in Hm.
          destruct Hm as (-> & H0 & x & Hx & _). exists (Z.to_nat i).
          split; [lia|]. apply elem_of_seq. apply lookup_lt_Some in Hx. lia.
        * intros (n & -> & Hn%elem_of_seq). specialize (Hm (Z.of_nat n)).
          destruct (notes s !! Z.of_nat n) as [r|] eqn:E.
          -- exists r. destruct Hm as (-> & _). split; [done|]. apply Hin. by eexists.
          -- specialize (Hm ltac:(lia)). lia. }
  apply Forall2_same_length_lookup. split.
  { apply (f_equal length) in Hkey. by rewrite !length_fmap, length_seq in Hkey. }
  intros k r x Hr Hx.
  assert (Hk : Store.leafIndex r = Z.of_nat k).
  { apply (f_equal (.!! k)) in Hkey. rewrite !list_lookup_fmap, Hr in Hkey.
    rewrite lookup_seq_lt in Hkey by (by eapply lookup_lt_Some). simpl in Hkey. by injection Hkey. }
  destruct (proj1 (Hin r) (list_elem_of_lookup_2 _ _ _ Hr)) as [i Hi].
  specialize (Hm i). rewrite Hi in Hm. destruct Hm as (Hidx & _ & y & Hy & Hf).
  rewrite <- Hidx, Hk, Nat2Z.id in Hy. congruence.
Qed.

Lemma hydrate_rows_spec rows leaves done_ s :
  Spec.mirror_repr (tree s) 32 done_ →
  Forall2 (λ r x, FieldHex.fieldFromHex (Store.leaf r) = Ok x) rows leaves →
  Forall (.≠ 0) leaves → Z.of_nat (length (done_ ++ leaves)) <= 2 ^ 32 →
  ∃ t, hydrate_rows rows s = (mkState (store s) t (halted s), Ok tt) ∧
       Spec.mirror_repr t 32 (done_ ++ leaves).
Proof.
  intros Ht Hr. revert s done_ Ht. induction Hr as [|r x rows leaves Hx Hr IH]; intros s done_ Ht Hnz Hlen.
  { exists (tree s). rewrite app_nil_r. by destruct s. }
  apply Forall_cons in Hnz as [Hx0 Hnz].
  cbn [hydrate_rows]. unfold mbind at 1, M_bind at 1, lift. rewrite Hx.
  rewrite length_app in Hlen. cbn [length] in Hlen.
  destruct (Spec.mirror_insert_repr (tree s) 32 done_ x Ht Hx0) as (t & Hins & Ht').
  { change (Z.of_nat 32) with 32. lia. }
  unfold mbind, M_bind, tree_insert. rewrite Hins.
  destruct (IH (mkState (store s) t (halted s)) (done_ ++ [x]) Ht' Hnz) as (t' & E & Ht'').
  { rewrite !length_app. cbn [length]. lia. }
  exists t'. rewrite E. split; [done|]. by rewrite <- app_assoc in Ht''.
Qed.

(** Every node of a tree over canonical leaves is canonical. *)
Lemma lvl_canonical (Hc : ∀ l, canonical (poseidon_v1 l)) leaves k i :
  Forall canonical leaves → canonical (read0 (Spec.lvl leaves k) i).
Proof.
  intros Hl. assert (Hz : canonical 0) by (unfold canonical, BN254_SCALAR_FIELD_MODULUS; lia).
  revert i. induction k as [|k IH]; intros i; cbn [Spec.lvl].
  - unfold read0. destruct (leaves !! i) as [x|] eqn:E; [|done]. simpl.
    rewrite Forall_lookup in Hl. by eapply Hl.
  - rewrite Spec.read0_pairs. unfold Sdk.nodeOf, poseidonV1Hash3. repeat case_match; auto.
Qed.

(** What a note event does to the tree and the notes table, at any index. *)
Lemma applyEvent_note_raw (Hc : ∀ l, canonical (poseidon_v1 l)) s leaves e x slot :
  Spec.mirror_repr (tree s) 32 leaves → Forall canonical leaves →
  FieldHex.fieldFromHex (Domain.leaf e) = Ok x → canonical x → x ≠ 0 →
  Z.of_nat (length leaves) < 2 ^ 32 →
  ∃ s' row, applyEvent (NoteInserted e) slot s = (s', Ok tt) ∧
    Spec.mirror_repr (tree s') 32 (leaves ++ [x]) ∧
    notes (store s') = <[Store.leafIndex row := row]> (notes (store s)) ∧
    Store.leafIndex row = Domain.leafIndex e ∧ Store.leaf row = Domain.leaf e ∧
    halted s' = halted s ∧ cursor_row (store s') = cursor_row (store s).
Proof.
  intros Ht Hcl Hx Hcx Hx0 Hlen.
  destruct (Spec.mirror_insert_repr (tree s) 32 leaves x Ht Hx0) as (t & Hins & Ht'); [done|].
  assert (Hroot : canonical (Spec.root 32 (leaves ++ [x]))).
  { apply lvl_canonical; [done|]. apply Forall_app_2; [done|by constructor]. }
  cbn [applyEvent]. unfold mbind, M_bind, lift, tree_insert. rewrite Hx, Hins.
  rewrite FieldHex.fieldToHex_canonical by done. unfold on_store, modify, get.
  eexists _, (mkNoteRow _ _ _ _ _ _ _ _). by split; [reflexivity|].
Qed.

(** A note event at the next index extends the mirror and the store together. *)
Lemma applyEvent_note (Hc : ∀ l, canonical (poseidon_v1 l)) s leaves e x slot :
  synced s leaves → Forall canonical leaves →
  FieldHex.fieldFromHex (Domain.leaf e) = Ok x → canonical x → x ≠ 0 →
  Domain.leafIndex e = Z.of_nat (length leaves) → Z.of_nat (length leaves) < 2 ^ 32 →
  ∃ s', applyEvent (NoteInserted e) slot s = (s', Ok tt) ∧ synced s' (leaves ++ [x]) ∧
    halted s' = halted s ∧ cursor_row (store s') = cursor_row (store s).
Proof.
  intros [Ht Hn] Hcl Hx Hcx Hx0 Hi Hlen.
  destruct (applyEvent_note_raw Hc s leaves e x slot) as (s' & row & E & Ht' & Hn' & Hri & Hrl & Hh & Hcur);
    [done..|].
  exists s'. split; [done|]. split; [|done]. split; [done|]. rewrite Hn'.
  apply notes_hold_insert; [done|by rewrite Hri|by rewrite Hrl].
Qed.

(** *** Transactions the pool writes *)
Context (to_base64 : list Z → string).

(** The transaction of a signature and the pool events it logs. *)
Definition pool_tx (sg : string) (evs : list PoolEvent) : Prop :=
  ∃ tx, getTransaction chain sg = Some tx ∧ tx_err tx = false ∧
    logsWereTruncated (logMessages tx) = false ∧
    LogScope.programDataLinesFor (logMessages tx) programId = log_line to_base64 <$> evs ∧
    Forall pool_ok evs.

Definition note_leaves (evs : list PoolEvent) : list Z :=
  omap (λ e, match e with PoolNote _ l _ _ _ _ _ => Some (of_be l) | _ => None end) evs.

(** The notes carry consecutive indexes from [n] and canonical nonzero leaves. *)
Fixpoint consecutive (n : Z) (evs : list PoolEvent) : Prop :=
  match evs with
  | [] => True
  | PoolNote i l _ _ _ _ _ :: evs =>
      i = n ∧ canonical (of_be l) ∧ of_be l ≠ 0 ∧ n < 2 ^ 32 ∧ consecutive (n + 1) evs
  | _ :: evs => consecutive n evs
  end.

Lemma fieldFromHex_bytes l : is_bytes32 l → canonical (of_be l) →
  FieldHex.fieldFromHex (hex0x l) = Ok (of_be l).
Proof.
  intros [Hl Hb] Hc. apply FieldHex.fieldFromHex_0x; [by destruct l| |apply Hc].
  rewrite parse_hex_bytes by done. f_equal.
Qed.

Lemma apply_lines_events (Hc : ∀ l, canonical (poseidon_v1 l)) evs :
  idl = DEFAULT_KAKURE_POOL_IDL → BufferLaws to_base64 →
  Forall pool_ok evs → ∀ s leaves slot,
  synced s leaves → Forall canonical leaves → consecutive (Z.of_nat (length leaves)) evs →
  ∃ s', apply_lines (log_line to_base64 <$> evs) slot s = (s', Ok tt) ∧
    synced s' (leaves ++ note_leaves evs) ∧ Forall canonical (leaves ++ note_leaves evs) ∧
    halted s' = halted s ∧ cursor_row (store s') = cursor_row (store s).
Proof.
  intros Hidl HL. induction 1 as [|e evs He Hevs IH]; intros s leaves slot Hs Hcl Hcons.
  { exists s. by rewrite app_nil_r. }
  rewrite fmap_cons. cbn [apply_lines].
  assert (∃ d, decodeProgramDataLine idl (log_line to_base64 e) = Ok (Some d) ∧
    toDomainEvent d = Ok (domain e)) as (d & Hd & Hde).
  { rewrite Hidl. by apply decode_line. }
  rewrite Hd. unfold mbind at 1, M_bind at 1, lift. rewrite Hde.
  destruct e as [i l p t c ct r|n|o n x y].
  - destruct Hcons as (Hi & Hcx & Hx0 & Hlt & Hcons). cbn [pool_ok] in He.
    destruct (applyEvent_note Hc s leaves
      (mkNoteInserted i (hex0x l) (hex0x p) (hex0x <$> t) (hex0x <$> c) (hex0x <$> ct) (hex0x r))
      (of_be l) slot) as (s1 & E1 & Hs1 & Hh1 & Hc1); try done.
    { apply fieldFromHex_bytes; [tauto|done]. }
    cbn [domain]. unfold mbind, M_bind. rewrite E1.
    destruct (IH s1 (leaves ++ [of_be l]) slot) as (s2 & E2 & Hs2 & Hcl2 & Hh2 & Hc2); [done| | |].
    + apply Forall_app_2; [done|by constructor].
    + rewrite length_app. cbn [length]. by replace (Z.of_nat (length leaves + 1)) with (Z.of_nat (length leaves) + 1) by lia.
    + exists s2. rewrite E2. cbn [note_leaves omap list_omap]. rewrite <- app_assoc in Hs2, Hcl2.
      split_and!; [done|done|done|congruence|congruence].
  - cbn [domain applyEvent]. unfold mbind, M_bind, on_store, modify.
    edestruct (IH (mkState (insertNullifier (hex0x n) slot (store s)) (tree s) (halted s)) leaves slot)
      as (s2 & E2 & Hs2 & Hcl2 & Hh2 & Hc2); [by destruct Hs|done|done|].
    exists s2. by rewrite E2.
  - cbn [domain applyEvent]. unfold mbind, M_bind, on_store, modify.
    edestruct (IH (mkState (insertComplianceKey (mkComplianceKeyRow n (hex0x x) (hex0x y) slot) (store s))
      (tree s) (halted s)) leaves slot)
      as (s2 & E2 & Hs2 & Hcl2 & Hh2 & Hc2); [by destruct Hs|done|done|].
    exists s2. by rewrite E2.
Qed.

Lemma consecutive_app n a b :
  consecutive n (a ++ b) ↔ consecutive n a ∧ consecutive (n + Z.of_nat (length (note_leaves a))) b.
Proof.
  revert n. induction a as [|e a IH]; intros n.
  - cbn. rewrite Z.add_0_r. tauto.
  - destruct e as [i l p t c ct r|m|o m x y]; cbn [app consecutive note_leaves omap list_omap length].
    + rewrite IH. replace (n + 1 + Z.of_nat (length (note_leaves a)))
        with (n + Z.of_nat (S (length (note_leaves a)))) by lia. tauto.
    + apply IH.
    + apply IH.
Qed.

Lemma note_leaves_app a b : note_leaves (a ++ b) = note_leaves a ++ note_leaves b.
Proof. apply omap_app. Qed.

(** What the RPC lists: failed signatures, and pool transactions. *)
Definition listed (h : SignatureInfo * list PoolEvent) : Prop :=
  (sig_err h.1 = true ∧ h.2 = []) ∨ (sig_err h.1 = false ∧ pool_tx (sig h.1) h.2).

Definition history_events (h : list (SignatureInfo * list PoolEvent)) : list PoolEvent :=
  concat h.*2.

Lemma processSignature_pool_tx (Hc : ∀ l, canonical (poseidon_v1 l)) sg slot evs s leaves :
  idl = DEFAULT_KAKURE_POOL_IDL → BufferLaws to_base64 →
  pool_tx sg evs → synced s leaves → Forall canonical leaves →
  consecutive (Z.of_nat (length leaves)) evs →
  ∃ s', processSignature sg slot s = (s', Ok tt) ∧ synced s' (leaves ++ note_leaves evs) ∧
    Forall canonical (leaves ++ note_leaves evs) ∧ halted s' = halted s ∧
    getCursor (store s') = mkCursorState (Some sg) slot.
Proof.
  intros Hidl HL (tx & Htx & Herr & Htr & Hlines & Hok) Hs Hcl Hcons.
  destruct (apply_lines_events Hc evs Hidl HL Hok s leaves slot Hs Hcl Hcons)
    as (s1 & E & Hs1 & Hcl1 & Hh1 & Hcur1).
  unfold processSignature. rewrite Htx, Herr, Htr, Hlines. unfold mbind, M_bind. rewrite E.
  eexists. split; [reflexivity|]. by split_and!.
Qed.

Lemma backfill_loop_spec (Hc : ∀ l, canonical (poseidon_v1 l)) h :
  idl = DEFAULT_KAKURE_POOL_IDL → BufferLaws to_base64 → Forall listed h → ∀ s leaves,
  synced s leaves → Forall canonical leaves →
  consecutive (Z.of_nat (length leaves)) (history_events h) →
  ∃ s', backfill_loop h.*1 s = (s', Ok tt) ∧
    synced s' (leaves ++ note_leaves (history_events h)) ∧ halted s' = halted s.
Proof.
  intros Hidl HL. induction 1 as [|[sg evs] h Hh Hrest IH]; intros s leaves Hs Hcl Hcons.
  { exists s. by rewrite app_nil_r. }
  unfold history_events in *. cbn [fmap list_fmap concat fst snd backfill_loop] in *.
  destruct Hh as [[He Hevs]|[He Htx]]; cbn [fst snd] in *; rewrite He.
  { subst evs. by apply IH. }
  apply consecutive_app in Hcons as [Hc1 Hc2].
  destruct (processSignature_pool_tx Hc (sig sg) (sig_slot sg) evs s leaves)
    as (s1 & E1 & Hs1 & Hcl1 & Hh1 & _); [done..|].
  destruct (IH s1 (leaves ++ note_leaves evs)) as (s2 & E2 & Hs2 & Hh2); [done..| |].
  { by rewrite length_app, Nat2Z.inj_add. }
  exists s2. unfold mbind, M_bind. rewrite E1, E2. split_and!; [done| |congruence].
  by rewrite note_leaves_app, app_assoc.
Qed.

(** C8. Backfill mirrors the chain: from a synchronised state, if the RPC lists
    (newest first) failed signatures and pool transactions whose note events
    carry consecutive indexes, [backfill] succeeds and leaves tree and store
    holding the old leaves followed by the chain's, in chain order.  The listing
    is supposed complete up to the cursor: the RPC source of the repository asks
    for 1000 signatures at most, and once. *)
Theorem backfill_mirrors_chain h s leaves :
  (∀ l, canonical (poseidon_v1 l)) → idl = DEFAULT_KAKURE_POOL_IDL → BufferLaws to_base64 →
  Forall listed h → synced s leaves → Forall canonical leaves →
  consecutive (Z.of_nat (length leaves)) (history_events h) →
  getSignaturesForAddress chain programId (until_of (getCursor (store s))) = reverse h.*1 →
  ∃ s', backfill s = (s', Ok tt) ∧
    synced s' (leaves ++ note_leaves (history_events h)) ∧ halted s' = halted s.
Proof.
  intros Hc Hidl HL Hh Hs Hcl Hcons Hsigs. unfold backfill, get, mbind, M_bind.
  rewrite Hsigs, reverse_involutive. by apply backfill_loop_spec.
Qed.

(** A restart loses nothing: hydrating an empty tree from the persisted
    notes of a synchronised indexer succeeds and rebuilds a tree with the same
    root, the same next index and the same path for every leaf. *)
Theorem hydrateTree_restores s leaves t0 :
  synced s leaves → Forall (.≠ 0) leaves → Z.of_nat (length leaves) <= 2 ^ 32 →
  Mirror.constructor 32 = Ok t0 →
  ∃ t, hydrateTree (mkState (store s) t0 None) = (mkState (store s) t None, Ok tt) ∧
    Mirror.getRoot t = Mirror.getRoot (tree s) ∧
    Mirror.nextLeafIndex t = Mirror.nextLeafIndex (tree s) ∧
    ∀ i, Mirror.getPath t (Z.of_nat i) = Mirror.getPath (tree s) (Z.of_nat i).
Proof.
  intros [Ht Hn] Hnz Hlen H0. unfold hydrateTree, get, mbind, M_bind.
  destruct (hydrate_rows_spec (getNotesFrom 0 (store s)) leaves [] (mkState (store s) t0 None))
    as (t & E & Ht'); [by apply Spec.mirror_new_repr|by apply getNotesFrom_0|done|done|].
  exists t. cbn [store]. rewrite E. split_and!; [done| | |].
  - unfold Mirror.getRoot. by rewrite (Spec.mr_root _ _ _ Ht), (Spec.mr_root _ _ _ Ht').
  - unfold Mirror.nextLeafIndex. by rewrite (Spec.mr_index _ _ _ Ht), (Spec.mr_index _ _ _ Ht').
  - intros i. by rewrite (Spec.mirror_getPath _ _ _ _ Ht), (Spec.mirror_getPath _ _ _ _ Ht').
Qed.

(** A truncated log halts ingestion and nothing else moves: processing a
    signature whose log was truncated throws, latches the halt and leaves
    store, cursor and tree untouched; on the live tail it also detaches, no
    later notification changes anything, and the tree endpoints refuse. *)
Theorem truncated_log_halts s info tx rest :
  getTransaction chain (sig info) = Some tx → tx_err tx = false →
  logsWereTruncated (logMessages tx) = true → sig_err info = false →
  let e := mkLogTruncationError (sig info) (sig_slot info) in
  let s' := mkState (store s) (tree s) (Some e) in
  processSignature (sig info) (sig_slot info) s = (s', Err (Truncated e)) ∧
  foldl (λ st i, on_log i st) (s, true) (info :: rest) = (s', false) ∧
  ∀ i, Api.get_root (bool_decide (is_Some (halted s'))) (store s') (tree s') = Err Api.Halted503 ∧
       Api.get_path (bool_decide (is_Some (halted s'))) (tree s') i = Err Api.Halted503.
Proof.
  intros Htx Herr Htr Hi e s'.
  assert (Hp : processSignature (sig info) (sig_slot info) s = (s', Err (Truncated e))).
  { unfold processSignature. by rewrite Htx, Herr, Htr. }
  split_and!; [done| |by rewrite bool_decide_eq_true_2 by done].
  cbn [foldl]. assert (E : on_log info (s, true) = (s', false)).
  { unfold on_log. rewrite Hi. cbn [negb orb]. by rewrite Hp. }
  rewrite E. clear. induction rest as [|i rest IH]; [done|]. exact IH.
Qed.

(** Ingestion is not idempotent: when a pool transaction with one note is
    processed twice, which the live tail and a concurrent backfill can do,
    both runs succeed, the tree holds the leaf twice while the notes table
    holds it once, and the mirror is no longer that of the stored notes. *)
Theorem processing_twice_desyncs s leaves sg slot i l p t c ct r :
  (∀ l, canonical (poseidon_v1 l)) → idl = DEFAULT_KAKURE_POOL_IDL → BufferLaws to_base64 →
  pool_tx sg [PoolNote i l p t c ct r] → synced s leaves → Forall canonical leaves →
  consecutive (Z.of_nat (length leaves)) [PoolNote i l p t c ct r] →
  Z.of_nat (length leaves) + 1 < 2 ^ 32 →
  ∃ s1 s2, processSignature sg slot s = (s1, Ok tt) ∧ synced s1 (leaves ++ [of_be l]) ∧
    processSignature sg slot s1 = (s2, Ok tt) ∧
    Mirror.nextLeafIndex (tree s2) = (length leaves + 2)%nat ∧
    size (notes (store s2)) = size (notes (store s1)) ∧ ∀ leaves', ~ synced s2 leaves'.
Proof.
  intros Hc Hidl HL Htx Hs Hcl Hcons Hlen.
  destruct (processSignature_pool_tx Hc sg slot _ s leaves Hidl HL Htx Hs Hcl Hcons)
    as (s1 & E1 & Hs1 & Hcl1 & _ & _).
  cbn [note_leaves omap list_omap] in *. destruct Hcons as (Hi & Hcx & Hx0 & _ & _).
  destruct Htx as (tx & Htx & Herr & Htr & Hlines & Hok).
  apply Forall_cons in Hok as [Hok _].
  destruct (applyEvent_note_raw Hc s1 (leaves ++ [of_be l])
      (mkNoteInserted i (hex0x l) (hex0x p) (hex0x <$> t) (hex0x <$> c) (hex0x <$> ct) (hex0x r))
      (of_be l) slot) as (s2 & row & E2 & Ht2 & Hn2 & Hri & _ & _ & _); try done.
  { apply Hs1. }
  { cbn [Domain.leaf]. cbn [pool_ok] in Hok. apply fieldFromHex_bytes; [tauto|done]. }
  { rewrite length_app. cbn [length]. lia. }
  exists s1, (mkState (setCursor (mkCursorState (Some sg) slot) (store s2)) (tree s2) (halted s2)).
  assert (Hin : is_Some (notes (store s1) !! Z.of_nat (length leaves))).
  { destruct (notes (store s1) !! _) eqn:E; [done|]. destruct Hs1 as [_ Hn1].
    specialize (Hn1 (Z.of_nat (length leaves))). rewrite E, length_app in Hn1. cbn [length] in Hn1. lia. }
  assert (Hsize : notes (store s2) = <[Z.of_nat (length leaves) := row]> (notes (store s1))).
  { rewrite Hn2. do 2 f_equal. by rewrite Hri. }
  split_and!; [done|done| |cbn [tree]; unfold Mirror.nextLeafIndex; rewrite (Spec.mr_index _ _ _ Ht2);
    rewrite !length_app; simpl; lia| |].
  - unfold processSignature. rewrite Htx, Herr, Htr, Hlines.
    destruct (decode_line to_base64 (PoolNote i l p t c ct r) HL Hok) as (d & Hd & Hde).
    rewrite fmap_cons. cbn [fmap list_fmap apply_lines]. rewrite Hidl, Hd.
    unfold mbind, M_bind, lift. rewrite Hde. cbn [domain]. by rewrite E2.
  - cbn [store setCursor notes]. rewrite Hsize. destruct Hin as [y Hy].
    by rewrite map_size_insert, Hy.
  - intros leaves' [Ht' Hn']. cbn [tree store setCursor notes] in Ht', Hn'.
    assert (Hl : length leaves' = (length leaves + 2)%nat).
    { rewrite <- (Spec.mr_index _ _ _ Ht'), (Spec.mr_index _ _ _ Ht2), !length_app. simpl. lia. }
    specialize (Hn' (Z.of_nat (length leaves + 1))). rewrite Hsize, lookup_insert_ne in Hn' by lia.
    destruct Hs1 as [_ Hn1]. specialize (Hn1 (Z.of_nat (length leaves + 1))).
    destruct (notes (store s1) !! Z.of_nat (length leaves + 1)) as [r'|].
    + destruct Hn1 as (_ & _ & x & Hx & _). apply lookup_lt_Some in Hx.
      rewrite length_app in Hx. cbn [length] in Hx. lia.
    + lia.
Qed.
End Ingest.
End Ingest.

(** ** Witnesses: a one-transaction chain *)
Module IngestWitness.
Import Ingest.
#[local] Existing Instance BufferToy.toy_buffer.
#[local] Instance field_hash : PoseidonV1 :=
  λ l, 1 + Z.abs (foldl (λ a x, 31 * a + x) 7 l) mod (BN254_SCALAR_FIELD_MODULUS - 1).

Lemma field_hash_canonical l : canonical (poseidon_v1 l).
Proof.
  unfold poseidon_v1, field_hash, canonical.
  pose proof (Z.mod_pos_bound (Z.abs (foldl (λ a x, 31 * a + x) 7 l))
    (BN254_SCALAR_FIELD_MODULUS - 1) ltac:(done)). lia.
Qed.

Definition leaf5 : list Z := be_bytes 32 5.
Definition note0 : PoolEvent :=
  PoolNote 0 leaf5 leaf5 None (Some leaf5) (replicate 7 leaf5) leaf5.
Definition tx0 : RawTransaction :=
  mkRawTransaction false
    ["Program P invoke [1]"; log_line hex_of_bytes note0; "Program P success"].
Definition demo_chain : ChainSource :=
  mkChainSource (λ _ _, [mkSignatureInfo "bad" 8 true; mkSignatureInfo "S0" 7 false])
    (λ s, if decide (s = "S0") then Some tx0
          else if decide (s = "cut") then Some (mkRawTransaction false ["Log truncated"]) else None).
Definition s0 : State :=
  mkState empty_store (match Mirror.constructor 32 with Ok t => t | Err _ => Mirror.mkLeanIMT 0 [] 0 0 end) None.

Lemma s0_synced : synced s0 [].
Proof.
  split; [by apply Spec.mirror_new_repr|]. intros i. cbn [store s0 notes empty_store].
  rewrite lookup_empty. simpl. lia.
Qed.

Lemma leaf5_bytes : is_bytes32 leaf5.
Proof. split; [apply length_be_bytes|apply be_bytes_bytes]. Qed.

Lemma note0_ok : pool_ok note0.
Proof.
  cbn [note0 pool_ok]. pose proof leaf5_bytes as Hl.
  split_and!; [lia|lia|done|done|done|done|done|by apply Forall_replicate|done].
Qed.

Lemma tx0_pool : pool_tx demo_chain "P" hex_of_bytes "S0" [note0].
Proof.
  exists tx0. split_and!; [reflexivity|reflexivity|vm_compute; reflexivity|vm_compute; reflexivity|].
  constructor; [apply note0_ok|constructor].
Qed.

Lemma note0_consecutive : consecutive 0 [note0].
Proof. cbn [consecutive note0]. unfold canonical. vm_compute. intuition discriminate. Qed.

Lemma backfill_mirrors_chain_witness :
  ∃ s', backfill demo_chain DEFAULT_KAKURE_POOL_IDL "P" s0 = (s', Ok tt) ∧
    synced s' ([] ++ note_leaves (history_events
      [(mkSignatureInfo "S0" 7 false, [note0]); (mkSignatureInfo "bad" 8 true, [])])) ∧
    halted s' = None.
Proof.
  apply (backfill_mirrors_chain demo_chain DEFAULT_KAKURE_POOL_IDL "P" hex_of_bytes
    [(mkSignatureInfo "S0" 7 false, [note0]); (mkSignatureInfo "bad" 8 true, [])] s0 []).
  - apply field_hash_canonical.
  - reflexivity.
  - apply BufferToy.toy_laws.
  - constructor; [right; split; [reflexivity|apply tx0_pool]|].
    constructor; [by left|constructor].
  - apply s0_synced.
  - constructor.
  - apply note0_consecutive.
  - reflexivity.
Defined.

Lemma hydrateTree_restores_witness :
  ∃ t, hydrateTree (mkState empty_store (tree s0) None) = (mkState empty_store t None, Ok tt) ∧
    Mirror.getRoot t = Mirror.getRoot (tree s0) ∧
    Mirror.nextLeafIndex t = Mirror.nextLeafIndex (tree s0) ∧
    ∀ i, Mirror.getPath t (Z.of_nat i) = Mirror.getPath (tree s0) (Z.of_nat i).
Proof.
  apply (hydrateTree_restores s0 [] (tree s0)); [apply s0_synced|constructor|done|reflexivity].
Defined.

Lemma truncated_log_halts_witness :
  processSignature demo_chain DEFAULT_KAKURE_POOL_IDL "P" "cut" 9 s0
  = (mkState (store s0) (tree s0) (Some (mkLogTruncationError "cut" 9)),
     Err (Truncated (mkLogTruncationError "cut" 9))).
Proof.
  apply (truncated_log_halts demo_chain DEFAULT_KAKURE_POOL_IDL "P" s0
    (mkSignatureInfo "cut" 9 false) (mkRawTransaction false ["Log truncated"]) []);
    reflexivity.
Defined.

Lemma processing_twice_desyncs_witness :
  ∃ s1 s2, processSignature demo_chain DEFAULT_KAKURE_POOL_IDL "P" "S0" 7 s0 = (s1, Ok tt) ∧
    synced s1 ([] ++ [of_be leaf5]) ∧
    processSignature demo_chain DEFAULT_KAKURE_POOL_IDL "P" "S0" 7 s1 = (s2, Ok tt) ∧
    Mirror.nextLeafIndex (tree s2) = (length ([] : list Z) + 2)%nat ∧
    size (notes (store s2)) = size (notes (store s1)) ∧ ∀ leaves', ~ synced s2 leaves'.
Proof.
  apply (processing_twice_desyncs demo_chain DEFAULT_KAKURE_POOL_IDL "P" hex_of_bytes s0 [] "S0" 7
    0 leaf5 leaf5 None (Some leaf5) (replicate 7 leaf5) leaf5).
  - apply field_hash_canonical.
  - reflexivity.
  - apply BufferToy.toy_laws.
  - apply tx0_pool.
  - apply s0_synced.
  - constructor.
  - apply note0_consecutive.
  - done.
Defined.
End IngestWitness.
