(* ===== verification/Zq.v ===== *)
(** * Arithmetic and interpolation modulo a prime

    The field the threshold protocols compute in: congruence modulo [q] with
    setoid rewriting, polynomials as coefficient lists (constant term first),
    the bound on roots, and Lagrange interpolation.  Nothing here is code of
    the repository; [Tss] and [Frost] apply it to theirs. *)
From Stdlib Require Import Zdivisibility ZmodInv.
From S2P Require Import Prelude.
Local Open Scope Z_scope.

(** ** Congruence *)

Definition eqm (q x y : Z) : Prop := (q | x - y).
Notation "x =[ q ] y" := (eqm q x y) (at level 70, no associativity) : Z_scope.

Lemma eqm_iff q x y : x =[q] y ↔ x mod q = y mod q.
Proof.
  unfold eqm. destruct (decide (q = 0)) as [->|Hq].
  - rewrite !Zmod_0_r. split; [intros H%Z.divide_0_l; lia|intros ->; exists 0; lia].
  - rewrite <- Z.mod_divide by done. symmetry. apply Z.cong_iff_0.
Qed.

#[export] Instance eqm_equiv q : Equivalence (eqm q).
Proof. split; repeat intro; rewrite eqm_iff in *; congruence. Qed.
#[export] Instance eqm_add q : Proper (eqm q ==> eqm q ==> eqm q) Z.add.
Proof. intros x x' Hx y y' Hy. rewrite eqm_iff in *. by rewrite Zplus_mod, Hx, Hy, <- Zplus_mod. Qed.
#[export] Instance eqm_mul q : Proper (eqm q ==> eqm q ==> eqm q) Z.mul.
Proof. intros x x' Hx y y' Hy. rewrite eqm_iff in *. by rewrite Zmult_mod, Hx, Hy, <- Zmult_mod. Qed.
#[export] Instance eqm_sub q : Proper (eqm q ==> eqm q ==> eqm q) Z.sub.
Proof. intros x x' Hx y y' Hy. rewrite eqm_iff in *. by rewrite Zminus_mod, Hx, Hy, <- Zminus_mod. Qed.
#[export] Instance eqm_opp q : Proper (eqm q ==> eqm q) Z.opp.
Proof. intros x x' Hx. rewrite <- !Z.sub_0_l. by rewrite Hx. Qed.
#[export] Instance eqm_dec q x y : Decision (eqm q x y).
Proof. refine (cast_if (decide (x mod q = y mod q))); by rewrite eqm_iff. Defined.

Lemma eqm_mod q x : x mod q =[q] x.
Proof. rewrite eqm_iff. apply Zmod_mod. Qed.
Lemma eqm_of_eq q x y : x = y → x =[q] y.
Proof. by intros ->. Qed.
Lemma eqm_small q x y : 0 <= x < q → 0 <= y < q → x =[q] y → x = y.
Proof. rewrite eqm_iff. intros Hx Hy. by rewrite !Z.mod_small. Qed.
Lemma eqm_sub_0 q x y : x - y =[q] 0 ↔ x =[q] y.
Proof. unfold eqm. by rewrite Z.sub_0_r. Qed.
Lemma eqm_0_divide q x : x =[q] 0 ↔ (q | x).
Proof. unfold eqm. by rewrite Z.sub_0_r. Qed.
Lemma eqm_1_0 q : 1 < q → ~ (1 =[q] 0).
Proof. intros Hq. rewrite eqm_iff, Zmod_0_l, Z.mod_1_l by lia. done. Qed.

(** ** Exponentiation by squaring, one round per bit of the exponent *)
Fixpoint square_multiply (q : Z) (fuel : nat) (result b e : Z) : Z :=
  match fuel with
  | O => result
  | S fuel =>
      if 0 <? e then
        let result := if Z.land e 1 =? 0 then result else Z.rem (result * b) q in
        square_multiply q fuel result (Z.rem (b * b) q) (Z.shiftr e 1)
      else result
  end.

Lemma pow_split b e : 0 < e → b ^ (e mod 2) * (b * b) ^ (e / 2) = b ^ e.
Proof.
  intros He. pose proof (Z.div_mod e 2 ltac:(lia)) as Hd.
  pose proof (Z.mod_pos_bound e 2 ltac:(lia)). pose proof (Z.div_pos e 2 ltac:(lia) ltac:(lia)).
  rewrite Hd at 3. rewrite Z.pow_add_r, Z.pow_mul_r, Z.pow_2_r by lia. ring.
Qed.

Lemma square_multiply_spec q fuel result b e :
  1 < q → 0 <= result → 0 <= b → 0 <= e < 2 ^ Z.of_nat fuel →
  square_multiply q fuel result b e =[q] result * b ^ e ∧ 0 <= square_multiply q fuel result b e.
Proof.
  intros Hq. revert result b e. induction fuel as [|fuel IH]; intros result b e Hr Hb He.
  { replace e with 0 by (simpl in He; lia). simpl. rewrite Z.mul_1_r. done. }
  cbn [square_multiply]. destruct (Z.ltb_spec 0 e) as [Hpos|Hneg].
  2: { replace e with 0 by lia. rewrite Z.pow_0_r, Z.mul_1_r. done. }
  assert (Hsq : Z.rem (b * b) q = (b * b) mod q) by (apply Z.rem_mod_nonneg; try apply Z.mul_nonneg_nonneg; lia).
  rewrite Nat2Z.inj_succ, Z.pow_succ_r in He by lia.
  assert (Hsh : Z.shiftr e 1 = e / 2) by (by rewrite Z.shiftr_div_pow2 by lia).
  rewrite Hsq, Hsh. set (result' := if _ : bool then result else _).
  assert (Hland : Z.land e 1 = e mod 2) by (change 1 with (Z.ones 1) at 1; by rewrite Z.land_ones by lia).
  assert (Hr' : 0 <= result' ∧ result' =[q] result * b ^ (e mod 2)).
  { unfold result'. rewrite Hland. pose proof (Z.mod_pos_bound e 2 ltac:(lia)).
    destruct (Z.eqb_spec (e mod 2) 0) as [->|].
    - rewrite Z.pow_0_r, Z.mul_1_r. done.
    - replace (e mod 2) with 1 by lia. rewrite Z.pow_1_r, Z.rem_mod_nonneg by (try apply Z.mul_nonneg_nonneg; lia).
      split; [apply Z.mod_pos_bound; lia|apply eqm_mod]. }
  destruct Hr' as [Hr0 Hrm].
  destruct (IH result' ((b * b) mod q) (e / 2)) as [E Hge];
    [done|apply Z.mod_pos_bound; lia|split; [apply Z.div_pos; lia|apply Z.div_lt_upper_bound; lia]|].
  split; [|done]. rewrite E, Hrm.
  assert (Hpow : ((b * b) mod q) ^ (e / 2) =[q] (b * b) ^ (e / 2)).
  { rewrite !eqm_iff. by rewrite Z.mod_pow_l. }
  rewrite Hpow. apply eqm_of_eq. rewrite <- Z.mul_assoc. f_equal. by apply pow_split.
Qed.

Lemma square_multiply_bound q fuel result b e :
  0 <= result < q → 0 <= b → 0 <= square_multiply q fuel result b e < q.
Proof.
  revert result b e. induction fuel as [|fuel IH]; intros result b e Hr Hb; [done|].
  cbn [square_multiply]. destruct (0 <? e); [|done].
  assert (Hrem : ∀ x, 0 <= x → 0 <= Z.rem x q < q).
  { intros x Hx. rewrite Z.rem_mod_nonneg by lia. apply Z.mod_pos_bound. lia. }
  apply IH; [|apply Hrem; nia]. destruct (Z.land e 1 =? 0); [done|apply Hrem; nia].
Qed.

(** ** The prime field *)
Section field.
Context {q : Z} (Hq : Z.prime q).

Lemma q_gt_1 : 1 < q.
Proof. apply Hq. Qed.

Lemma eqm_mul_0 x y : x * y =[q] 0 → x =[q] 0 ∨ y =[q] 0.
Proof.
  rewrite !eqm_0_divide. intros Hd.
  by apply Z.divide_prime_mul in Hd.
Qed.

(** The inverse that Fermat's theorem gives. *)
Definition inv (x : Z) : Z := x ^ (q - 2) mod q.

Lemma inv_spec x : ~ (x =[q] 0) → x * inv x =[q] 1.
Proof.
  pose proof q_gt_1 as H1. intros Hx. unfold inv.
  rewrite (eqm_mod q (x ^ (q - 2))), <- Z.pow_succ_r by lia.
  replace (Z.succ (q - 2)) with (q - 1) by lia.
  rewrite eqm_iff in *. rewrite Z.fermat_nz; [by rewrite Z.mod_1_l by lia|done|].
  by rewrite Zmod_0_l in Hx.
Qed.

Lemma inv_unique x y : x * y =[q] 1 → y =[q] inv x.
Proof.
  intros Hxy. assert (Hx : ~ (x =[q] 0)).
  { intros E. rewrite E, Z.mul_0_l in Hxy. by apply (eqm_1_0 q q_gt_1). }
  pose proof (inv_spec x Hx) as Hi.
  rewrite <- (Z.mul_1_r y), <- Hi.
  replace (y * (x * inv x)) with (x * y * inv x) by ring. by rewrite Hxy, Z.mul_1_l.
Qed.

(** *** Polynomials *)

Fixpoint peval (cs : list Z) (x : Z) : Z :=
  match cs with [] => 0 | c :: cs => c + x * peval cs x end.
Fixpoint padd (a b : list Z) : list Z :=
  match a, b with
  | [], _ => b | _, [] => a | x :: a, y :: b => (x + y) :: padd a b
  end.
Definition pscale (k : Z) (a : list Z) : list Z := Z.mul k <$> a.
(** Multiplication by [u - X]. *)
Definition plin (u : Z) (a : list Z) : list Z := padd (pscale u a) (0 :: pscale (-1) a).
(** The quotient of [f] by [X - a]. *)
Fixpoint pquot (f : list Z) (a : Z) : list Z :=
  match f with [] => [] | c :: f => match f with [] => [] | _ => peval f a :: pquot f a end end.

Lemma peval_padd a b x : peval (padd a b) x = peval a x + peval b x.
Proof. revert b. induction a as [|c a IH]; intros [|d b]; simpl; try lia. rewrite IH. ring. Qed.
Lemma peval_pscale k a x : peval (pscale k a) x = k * peval a x.
Proof.
  induction a as [|c a IH]; [simpl; ring|].
  change (peval (k * c :: pscale k a) x = k * peval (c :: a) x). simpl. rewrite IH. ring.
Qed.
Lemma peval_plin u a x : peval (plin u a) x = (u - x) * peval a x.
Proof. unfold plin. rewrite peval_padd. simpl. rewrite !peval_pscale. ring. Qed.
Lemma length_padd a b : length (padd a b) = Nat.max (length a) (length b).
Proof. revert b. induction a as [|c a IH]; intros [|d b]; simpl; try lia. by rewrite IH. Qed.
Lemma length_pscale k a : length (pscale k a) = length a.
Proof. apply length_fmap. Qed.
Lemma length_plin u a : length (plin u a) = S (length a).
Proof. unfold plin. rewrite length_padd. simpl. rewrite !length_pscale. lia. Qed.

Lemma pquot_spec f a x : peval f x = peval f a + (x - a) * peval (pquot f a) x.
Proof.
  induction f as [|c f IH]; [simpl; ring|]. destruct f as [|d f]; [simpl; ring|].
  change (pquot (c :: d :: f) a) with (peval (d :: f) a :: pquot (d :: f) a).
  remember (d :: f) as g. cbn [peval]. rewrite IH. ring.
Qed.
Lemma length_pquot f a : length (pquot f a) = (length f - 1)%nat.
Proof.
  induction f as [|c f IH]; [done|]. destruct f as [|d f]; [done|].
  change (pquot (c :: d :: f) a) with (peval (d :: f) a :: pquot (d :: f) a).
  cbn [length] in *. rewrite IH. lia.
Qed.

(** Residues that are pairwise distinct modulo [q]. *)
Definition distinct (xs : list Z) : Prop := NoDup ((λ x, x mod q) <$> xs).

Lemma distinct_bounded xs : NoDup xs → (∀ x, x ∈ xs → 0 <= x < q) → distinct xs.
Proof.
  intros Hd Hb. unfold distinct. apply (NoDup_fmap_2_strong _); [|done].
  intros x y Hx Hy E. rewrite !Z.mod_small in E by auto. done.
Qed.
Lemma distinct_cons a xs :
  distinct (a :: xs) ↔ (∀ b, b ∈ xs → ~ (a =[q] b)) ∧ distinct xs.
Proof.
  unfold distinct. rewrite fmap_cons, NoDup_cons. split.
  - intros [Hn Hd]. split; [|done]. intros b Hb E%eqm_iff. apply Hn. rewrite E.
    by apply (list_elem_of_fmap_2 (λ x, x mod q)).
  - intros [Hn Hd]. split; [|done]. intros (b & E & Hb)%list_elem_of_fmap.
    by eapply Hn, eqm_iff.
Qed.

(** A polynomial with at least as many roots as coefficients is zero. *)
Lemma roots_zero xs : ∀ f, distinct xs → (length f <= length xs)%nat →
  (∀ a, a ∈ xs → peval f a =[q] 0) → ∀ x, peval f x =[q] 0.
Proof.
  induction xs as [|a xs IH]; intros f Hd Hl Hr x.
  { by destruct f; [|simpl in Hl; lia]. }
  apply distinct_cons in Hd as [Hn Hd].
  rewrite (pquot_spec f a x), (Hr a) by left. rewrite Z.add_0_l.
  rewrite (IH (pquot f a)); [by rewrite Z.mul_0_r|done|rewrite length_pquot; simpl in Hl; lia|].
  intros b Hb. pose proof (Hr b ltac:(by right)) as Hfb.
  rewrite (pquot_spec f a b), (Hr a), Z.add_0_l in Hfb by left.
  destruct (eqm_mul_0 _ _ Hfb) as [E|E]; [|done].
  exfalso. apply (Hn b Hb). symmetry. by apply eqm_sub_0.
Qed.

(** *** Lagrange *)

(** The product over the points other than [i] modulo [q]. *)
Definition others (i : Z) (xs : list Z) : list Z := filter (λ j, ~ (j =[q] i)) xs.
Definition prodZ (l : list Z) : Z := foldr Z.mul 1 l.
(** The basis polynomial at [0]. *)
Definition lambda (i : Z) (xs : list Z) : Z :=
  prodZ (others i xs) * inv (prodZ ((λ j, j - i) <$> others i xs)).
(** The basis polynomial, with coefficients. *)
Definition basis (i : Z) (xs : list Z) : list Z :=
  pscale (inv (prodZ ((λ j, j - i) <$> others i xs))) (foldr plin [1] (others i xs)).

Lemma peval_prod l x : peval (foldr plin [1] l) x = prodZ ((λ j, j - x) <$> l).
Proof.
  induction l as [|u l IH]; [simpl; ring|].
  rewrite fmap_cons. cbn [foldr prodZ]. rewrite peval_plin, IH. done.
Qed.
Lemma length_prod l : length (foldr plin [1] l) = S (length l).
Proof. induction l as [|u l IH]; [done|]. cbn [foldr length]. by rewrite length_plin, IH. Qed.

Lemma prodZ_zero l x : x ∈ l → x =[q] 0 → prodZ l =[q] 0.
Proof.
  induction l as [|y l IH]; intros Hx H0; [by apply not_elem_of_nil in Hx|].
  change (y * prodZ l =[q] 0).
  apply elem_of_cons in Hx as [->|Hx]; [by rewrite H0|]. by rewrite IH, Z.mul_0_r.
Qed.
Lemma prodZ_nonzero l : (∀ x, x ∈ l → ~ (x =[q] 0)) → ~ (prodZ l =[q] 0).
Proof.
  pose proof q_gt_1. induction l as [|y l IH]; intros Hl E.
  - by apply (eqm_1_0 q).
  - apply eqm_mul_0 in E as [E|E]; [by eapply Hl; [left|]|].
    revert E. apply IH. intros x Hx. apply Hl. by right.
Qed.

Lemma others_nonzero i xs : ~ (prodZ ((λ j, j - i) <$> others i xs) =[q] 0).
Proof.
  apply prodZ_nonzero. intros x (j & -> & Hj)%list_elem_of_fmap E.
  apply list_elem_of_filter in Hj as [Hj _]. apply Hj. by apply eqm_sub_0.
Qed.

Lemma basis_at_0 i xs : peval (basis i xs) 0 = lambda i xs.
Proof.
  unfold basis, lambda. rewrite peval_pscale, peval_prod, Z.mul_comm. f_equal. f_equal.
  rewrite <- (list_fmap_id (others i xs)) at 2. apply list_fmap_ext. intros. simpl. lia.
Qed.
Lemma basis_same i xs : peval (basis i xs) i =[q] 1.
Proof.
  unfold basis. rewrite peval_pscale, peval_prod, Z.mul_comm. apply inv_spec, others_nonzero.
Qed.
Lemma basis_other i k xs : k ∈ xs → ~ (k =[q] i) → peval (basis i xs) k =[q] 0.
Proof.
  intros Hk Hne. unfold basis. rewrite peval_pscale, peval_prod.
  assert (E : prodZ ((λ j, j - k) <$> others i xs) =[q] 0); [|by rewrite E, Z.mul_0_r].
  apply (prodZ_zero _ 0); [|done].
  apply list_elem_of_fmap. exists k. split; [lia|]. by apply list_elem_of_filter.
Qed.
Lemma length_others i xs : distinct xs → i ∈ xs → S (length (others i xs)) = length xs.
Proof.
  unfold others. induction xs as [|a xs IH]; intros Hd Hi; [by apply not_elem_of_nil in Hi|].
  apply distinct_cons in Hd as [Hn Hd]. rewrite filter_cons. simpl.
  apply elem_of_cons in Hi as [->|Hi].
  - rewrite decide_False by (intros E; by apply E). f_equal.
    assert (E : filter (λ j, ~ (j =[q] a)) xs = xs); [|by rewrite E].
    clear IH Hd. induction xs as [|b xs IH]; [done|].
    rewrite filter_cons, decide_True; [by rewrite IH by (intros; apply Hn; by right)|].
    intros E. by eapply (Hn b); [left|].
  - rewrite decide_True by (by apply Hn). simpl. by rewrite IH.
Qed.

Definition interpolant (f : list Z) (xs all : list Z) : list Z :=
  foldr padd [] ((λ i, pscale (peval f i) (basis i all)) <$> xs).

Lemma peval_interpolant f xs all x :
  peval (interpolant f xs all) x = sumZ (λ i, peval f i * peval (basis i all) x) xs.
Proof.
  unfold interpolant. induction xs as [|i xs IH]; [done|].
  rewrite fmap_cons. cbn [foldr]. rewrite peval_padd, peval_pscale, IH. done.
Qed.

Lemma length_interpolant f xs all :
  distinct all → (∀ i, i ∈ xs → i ∈ all) → (length (interpolant f xs all) <= length all)%nat.
Proof.
  intros Hd. unfold interpolant. induction xs as [|i xs IH]; intros Hin; [simpl; lia|].
  rewrite fmap_cons. cbn [foldr]. rewrite length_padd, length_pscale.
  assert (E : length (basis i all) = length all).
  { unfold basis. rewrite length_pscale, length_prod. apply length_others; [done|]. apply Hin. left. }
  rewrite E. specialize (IH ltac:(intros; apply Hin; by right)). lia.
Qed.

Lemma interpolant_at f xs all k : distinct xs → (∀ i, i ∈ xs → i ∈ all) → k ∈ xs →
  peval (interpolant f xs all) k =[q] peval f k.
Proof.
  rewrite peval_interpolant. intros Hd Hin Hk.
  induction xs as [|i xs IH]; [by apply not_elem_of_nil in Hk|].
  apply distinct_cons in Hd as [Hn Hd]. rewrite sumZ_cons.
  apply elem_of_cons in Hk as [->|Hk].
  - rewrite basis_same, Z.mul_1_r.
    assert (E : sumZ (λ j, peval f j * peval (basis j all) i) xs =[q] 0); [|by rewrite E, Z.add_0_r].
    assert (Hi : i ∈ all) by (apply Hin; left). clear IH Hd Hin.
    induction xs as [|j xs IHx]; [done|]. rewrite sumZ_cons, basis_other; [|done|].
    + rewrite IHx; [by rewrite Z.mul_0_r|]. intros b Hb. apply Hn. by right.
    + apply Hn. by left.
  - rewrite basis_other; [|apply Hin; by right|].
    + rewrite IH; [by rewrite Z.mul_0_r|done|intros; apply Hin; by right|done].
    + intros E. apply (Hn k Hk). by symmetry.
Qed.

(** The value at [0] from the values at distinct points. *)
Theorem lagrange_zero f xs : distinct xs → (length f <= length xs)%nat →
  sumZ (λ i, lambda i xs * peval f i) xs =[q] peval f 0.
Proof.
  intros Hd Hl. apply eqm_sub_0.
  assert (E : ∀ x, peval (padd (interpolant f xs xs) (pscale (-1) f)) x =[q] 0).
  { apply (roots_zero xs); [done| |].
    - rewrite length_padd, length_pscale. pose proof (length_interpolant f xs xs Hd). naive_solver lia.
    - intros a Ha. rewrite peval_padd, peval_pscale, interpolant_at by done.
      apply eqm_of_eq. lia. }
  etransitivity; [|exact (E 0)]. rewrite peval_padd, peval_pscale, peval_interpolant.
  apply eqm_of_eq.
  assert (Es : ∀ ys, sumZ (λ i, lambda i xs * peval f i) ys
    = sumZ (λ i, peval f i * peval (basis i xs) 0) ys); [|rewrite Es; lia].
  induction ys as [|i ys IH]; [done|]. rewrite !sumZ_cons, IH, basis_at_0. lia.
Qed.
End field.
