(* ===== verification/Tss.v ===== *)
(** * Threshold secret sharing over BabyJubJub ([packages/sdk/src/tss])

    [Bjj] is the scalar and point arithmetic of [bjj.ts], [Shamir] and [Vss]
    the sharing of [shamir.ts] and [vss.ts]; key generation is in [Dkg.v], the
    DLEQ proof in [Compliance.v]. The curve of [@zk-kit/baby-jubjub] is the parameter [BabyJubjub] with the laws
    [BabyJubjubLaws], Poseidon2 is a parameter, and fresh randomness is an
    argument: the bytes [getRandomValues] returned. *)
From S2P Require Import Prelude Bytes Zq.
Local Open Scope Z_scope.

Notation Point := (Z * Z)%type.

(** ** The curve library *)
Class BabyJubjub := {
  addPoint : Point → Point → Point;
  mulPointEscalar : Point → Z → Point;
  Base8 : Point;
  subOrder : Z;
  inCurve : Point → bool;
}.

(** Coordinates reduced modulo the base field. *)
Definition canonical (p : Point) : Prop :=
  0 <= p.1 < BN254_SCALAR_FIELD_MODULUS ∧ 0 <= p.2 < BN254_SCALAR_FIELD_MODULUS.

(** Documented behaviour: [Base8] generates the subgroup of prime order
    [subOrder], with neutral element [(0, 1)], and a multiple has reduced
    coordinates. *)
Class BabyJubjubLaws `{BabyJubjub} : Prop := {
  subOrder_prime : Z.prime subOrder;
  mul_zero : mulPointEscalar Base8 0 = (0, 1);
  mul_add j k : 0 <= j → 0 <= k →
    addPoint (mulPointEscalar Base8 j) (mulPointEscalar Base8 k) = mulPointEscalar Base8 (j + k);
  mul_mul j k : 0 <= j → 0 <= k →
    mulPointEscalar (mulPointEscalar Base8 j) k = mulPointEscalar Base8 (j * k);
  mul_inj j k : 0 <= j → 0 <= k →
    mulPointEscalar Base8 j = mulPointEscalar Base8 k → j =[subOrder] k;
  mul_order k j : 0 <= k → 0 <= j → j =[subOrder] k →
    mulPointEscalar Base8 j = mulPointEscalar Base8 k;
  mul_curve k : 0 <= k → inCurve (mulPointEscalar Base8 k) = true;
  mul_canonical p k : inCurve p = true → 0 <= k → canonical (mulPointEscalar p k);
  subgroup_generated p :
    inCurve p = true → canonical p → mulPointEscalar p subOrder = (0, 1) →
    ∃ k, 0 <= k ∧ p = mulPointEscalar Base8 k;
}.

(** [Poseidon.hash] on canonical field elements. *)
Class Poseidon2 := poseidon2 : list Z → Z.

(** What the functions of this file throw. *)
Inductive TssError :=
  | InverseOfZero | DuplicateIdentifier | MissingShare (id : Z)
  | NotOnCurve (label : string) | IsIdentity (label : string) | NotInSubgroup (label : string)
  | TooFewPartials (n t : Z)
  (** [new Fr(x)] outside the field *)
  | NotFieldElement (x : Z).

(** ** [bjj.ts] *)
Module Bjj.
Section Bjj.
Context `{BabyJubjub}.

Definition SUBORDER : Z := subOrder.
Definition BASE8 : Point := Base8.
Definition IDENTITY : Point := (0, 1).

(** BigInt [%] truncates, [Z.rem]. *)
Definition modSub (x : Z) : Z := Z.rem (Z.rem x SUBORDER + SUBORDER) SUBORDER.

Definition pow_loop : nat → Z → Z → Z → Z := square_multiply SUBORDER.
(** One round per bit of the exponent. *)
Definition powSub (base exp : Z) : Z :=
  pow_loop (S (Z.to_nat (Z.log2 exp))) 1 (modSub base) exp.

Definition invSub (x : Z) : result TssError Z :=
  let r := modSub x in
  if r =? 0 then Err InverseOfZero else Ok (powSub r (SUBORDER - 2)).

Definition scalarMul (k : Z) (p : Point) : Point := mulPointEscalar p (modSub k).
Definition scalarBaseMul (k : Z) : Point := scalarMul k BASE8.
Definition pointAdd (a b : Point) : Point := addPoint a b.
Definition modP (x : Z) : Z :=
  Z.rem (Z.rem x BN254_SCALAR_FIELD_MODULUS + BN254_SCALAR_FIELD_MODULUS) BN254_SCALAR_FIELD_MODULUS.
Definition pointNeg (p : Point) : Point := (modP (- p.1), p.2).
Definition pointEq (a b : Point) : bool := (a.1 =? b.1) && (a.2 =? b.2).
Definition isIdentity (p : Point) : bool := (p.1 =? 0) && (p.2 =? 1).

Definition inSubgroup (p : Point) : bool :=
  if negb (inCurve p) then false
  else let o := mulPointEscalar p SUBORDER in (o.1 =? 0) && (o.2 =? 1).
Definition inSubgroupNonId (p : Point) : bool := inSubgroup p && negb (isIdentity p).

Definition assertInSubgroup (p : Point) (label : string) : result TssError unit :=
  if negb (inCurve p) then Err (NotOnCurve label)
  else if isIdentity p then Err (IsIdentity label)
  else if negb (inSubgroup p) then Err (NotInSubgroup label) else Ok tt.

(** [bytes] is what [getRandomValues] filled the 48-byte array with. *)
Definition randScalar (bytes : list Z) : Z :=
  let acc := foldl (λ acc b, Z.lor (Z.shiftl acc 8) b) 0 bytes in
  Z.rem acc (SUBORDER - 1) + 1.

(** *** Laws *)
Context {L : BabyJubjubLaws}.

Lemma prime_q : Z.prime SUBORDER.
Proof. apply subOrder_prime. Qed.
Lemma q_pos : 1 < SUBORDER.
Proof. apply prime_q. Qed.

Lemma modSub_mod x : modSub x = x mod SUBORDER.
Proof.
  pose proof q_pos. unfold modSub.
  pose proof (Z.rem_bound_abs x SUBORDER ltac:(lia)).
  rewrite Z.rem_mod_nonneg by lia.
  rewrite <- (Z.mul_1_l SUBORDER) at 2. rewrite Z.mod_add by lia.
  apply eqm_iff. unfold eqm. exists (- Z.quot x SUBORDER).
  pose proof (Z.quot_rem' x SUBORDER). lia.
Qed.
Lemma modSub_eqm x : modSub x =[SUBORDER] x.
Proof. rewrite modSub_mod. apply eqm_mod. Qed.
Lemma modSub_bound x : 0 <= modSub x < SUBORDER.
Proof. rewrite modSub_mod. apply Z.mod_pos_bound. pose proof q_pos. lia. Qed.
Lemma modSub_eq x y : x =[SUBORDER] y → modSub x = modSub y.
Proof. rewrite !modSub_mod. by rewrite eqm_iff. Qed.
Lemma modSub_small x : 0 <= x < SUBORDER → modSub x = x.
Proof. rewrite modSub_mod. apply Z.mod_small. Qed.

Lemma powSub_spec base exp : 0 <= exp → powSub base exp =[SUBORDER] base ^ exp.
Proof.
  pose proof q_pos. intros He. unfold powSub.
  unfold pow_loop.
  destruct (square_multiply_spec SUBORDER (S (Z.to_nat (Z.log2 exp))) 1 (modSub base) exp) as [E _].
  - done.
  - lia.
  - apply modSub_bound.
  - split; [done|]. rewrite Nat2Z.inj_succ, Z2Nat.id by apply Z.log2_nonneg.
    destruct (decide (exp = 0)) as [->|]; [simpl; lia|]. apply Z.log2_spec. lia.
  - rewrite E, Z.mul_1_l, modSub_mod. rewrite eqm_iff. by rewrite Z.mod_pow_l.
Qed.

(** [invSub] inverts every nonzero residue and rejects zero. *)
Lemma invSub_spec x :
  if decide (x =[SUBORDER] 0) then invSub x = Err InverseOfZero
  else ∃ y, invSub x = Ok y ∧ x * y =[SUBORDER] 1 ∧ y =[SUBORDER] @inv SUBORDER x.
Proof.
  pose proof q_pos as Hq. unfold invSub. rewrite modSub_mod. case_decide as Hx.
  - rewrite eqm_iff, Zmod_0_l in Hx. by rewrite Hx.
  - destruct (Z.eqb_spec (x mod SUBORDER) 0) as [E|_].
    { exfalso. apply Hx. by rewrite eqm_iff, Zmod_0_l. }
    eexists. split; [done|].
    assert (Hp : powSub (x mod SUBORDER) (SUBORDER - 2) =[SUBORDER] x ^ (SUBORDER - 2)).
    { rewrite powSub_spec by lia. rewrite eqm_iff. by rewrite Z.mod_pow_l. }
    assert (Hi : powSub (x mod SUBORDER) (SUBORDER - 2) =[SUBORDER] @inv SUBORDER x).
    { rewrite Hp. unfold inv. by rewrite eqm_mod. }
    split; [|done]. rewrite Hi. apply (inv_spec prime_q x Hx).
Qed.

(** *** Points by their discrete logarithm: [scalarBaseMul x] is the point of [x] *)

Lemma gen_eqm x y : scalarBaseMul x = scalarBaseMul y ↔ x =[SUBORDER] y.
Proof.
  unfold scalarBaseMul, scalarMul, BASE8. split.
  - intros E%mul_inj; [|apply modSub_bound..]. by rewrite !modSub_eqm in E.
  - intros E. by rewrite (modSub_eq x y).
Qed.
Lemma gen_zero : scalarBaseMul 0 = IDENTITY.
Proof. unfold scalarBaseMul, scalarMul, BASE8. rewrite modSub_small; [apply mul_zero|pose proof q_pos; lia]. Qed.
Lemma gen_add x y : pointAdd (scalarBaseMul x) (scalarBaseMul y) = scalarBaseMul (x + y).
Proof.
  unfold pointAdd, scalarBaseMul, scalarMul, BASE8.
  pose proof (modSub_bound x). pose proof (modSub_bound y). pose proof (modSub_bound (x + y)).
  rewrite mul_add by lia. apply mul_order; [lia|lia|]. by rewrite !modSub_eqm.
Qed.
Lemma gen_mul k x : scalarMul k (scalarBaseMul x) = scalarBaseMul (k * x).
Proof.
  unfold scalarBaseMul, scalarMul, BASE8.
  pose proof (modSub_bound k). pose proof (modSub_bound x). pose proof (modSub_bound (k * x)).
  rewrite mul_mul by lia. apply mul_order; [lia|apply Z.mul_nonneg_nonneg; lia|].
  rewrite !modSub_eqm. apply eqm_of_eq. lia.
Qed.
Lemma gen_curve x : inCurve (scalarBaseMul x) = true.
Proof. apply mul_curve, modSub_bound. Qed.

Lemma pointEq_spec a b : pointEq a b = true ↔ a = b.
Proof.
  unfold pointEq. destruct a as [a1 a2], b as [b1 b2]. simpl.
  rewrite andb_true_iff, !Z.eqb_eq. split; [intros [-> ->]; done|by intros [= -> ->]].
Qed.

Lemma gen_canonical x : canonical (scalarBaseMul x).
Proof.
  unfold scalarBaseMul, scalarMul, BASE8. pose proof (modSub_bound x).
  rewrite <- (Z.mul_1_l (modSub x)), <- mul_mul by lia.
  apply mul_canonical; [by apply mul_curve|lia].
Qed.

(** The subgroup check accepts exactly the multiples of [Base8]. *)
Lemma inSubgroup_spec p : canonical p → inSubgroup p = true ↔ ∃ x, p = scalarBaseMul x.
Proof.
  pose proof q_pos. intros Hcan. unfold inSubgroup. split.
  - destruct (inCurve p) eqn:Hc; [|done]. cbn [negb]. rewrite andb_true_iff, !Z.eqb_eq. intros [E1 E2].
    destruct (subgroup_generated p Hc Hcan) as (k & Hk & ->).
    { destruct (mulPointEscalar p subOrder) as [o1 o2] eqn:E. unfold SUBORDER in *.
      rewrite E in *. simpl in *. by subst. }
    exists k. unfold scalarBaseMul, scalarMul, BASE8. pose proof (modSub_bound k).
    apply mul_order; [lia|lia|]. by rewrite modSub_eqm.
  - intros [x ->]. rewrite gen_curve. cbn [negb].
    unfold scalarBaseMul, scalarMul, BASE8. pose proof (modSub_bound x).
    rewrite mul_mul by lia. rewrite (mul_order 0); [by rewrite mul_zero|lia| |].
    + apply Z.mul_nonneg_nonneg; lia.
    + apply eqm_0_divide. exists (modSub x). done.
Qed.
Lemma isIdentity_gen x : isIdentity (scalarBaseMul x) = bool_decide (x =[SUBORDER] 0).
Proof.
  change (isIdentity (scalarBaseMul x)) with (pointEq (scalarBaseMul x) IDENTITY).
  rewrite <- gen_zero. apply eq_bool_prop_intro.
  rewrite bool_decide_spec, <- gen_eqm, <- pointEq_spec. by destruct (pointEq _ _).
Qed.
Lemma assertInSubgroup_gen x label : ~ (x =[SUBORDER] 0) →
  assertInSubgroup (scalarBaseMul x) label = Ok tt.
Proof.
  intros Hx. unfold assertInSubgroup. rewrite gen_curve, isIdentity_gen.
  rewrite bool_decide_eq_false_2 by done. cbn [negb].
  by rewrite (proj2 (inSubgroup_spec _ (gen_canonical x))) by eauto.
Qed.
Lemma inSubgroupNonId_gen x : inSubgroupNonId (scalarBaseMul x) = bool_decide (~ (x =[SUBORDER] 0)).
Proof.
  unfold inSubgroupNonId. rewrite (proj2 (inSubgroup_spec _ (gen_canonical x))) by eauto.
  rewrite isIdentity_gen. simpl. by rewrite bool_decide_not.
Qed.
End Bjj.
End Bjj.

(** ** [shamir.ts] *)
Module Shamir.
Import Bjj.
Section Shamir.
Context `{BabyJubjub}.

Definition polyEval (coeffs : list Z) (x : Z) : Z :=
  let xr := modSub x in
  foldl (λ acc c, modSub (acc * xr + c)) 0 (reverse coeffs).

(** The loop over the interpolation set, with [num] and [den]. *)
Fixpoint lagrange_loop (ir : Z) (xs : list Z) (num den : Z) : Z * Z :=
  match xs with
  | [] => (num, den)
  | j :: xs =>
      let jr := modSub j in
      if jr =? ir then lagrange_loop ir xs num den
      else lagrange_loop ir xs (modSub (num * jr)) (modSub (den * modSub (jr - ir)))
  end.

Definition lagrangeAtZero (i : Z) (xs : list Z) : result TssError Z :=
  let ir := modSub i in
  let '(num, den) := lagrange_loop ir xs 1 1 in
  if den =? 0 then Err DuplicateIdentifier
  else inv ← invSub den; Ok (modSub (num * inv)).

Fixpoint interpolate_loop (shares : gmap Z Z) (quorum rest : list Z) (acc : Z) :
    result TssError Z :=
  match rest with
  | [] => Ok acc
  | i :: rest =>
      match shares !! i with
      | None => Err (MissingShare i)
      | Some s =>
          l ← lagrangeAtZero i quorum;
          interpolate_loop shares quorum rest (modSub (acc + l * s))
      end
  end.
Definition interpolateAtZero (shares : gmap Z Z) (quorum : list Z) : result TssError Z :=
  interpolate_loop shares quorum quorum 0.

Context {L : BabyJubjubLaws}.
Local Notation q := SUBORDER.

Lemma polyEval_cons c coeffs x :
  polyEval (c :: coeffs) x = modSub (polyEval coeffs x * modSub x + c).
Proof. unfold polyEval. by rewrite reverse_cons, foldl_snoc. Qed.

Lemma polyEval_peval coeffs x : polyEval coeffs x =[q] peval coeffs x.
Proof.
  induction coeffs as [|c coeffs IH]; [done|].
  rewrite polyEval_cons, !modSub_eqm, IH. apply eqm_of_eq. simpl. ring.
Qed.

Lemma polyEval_bound coeffs x : 0 <= polyEval coeffs x < q.
Proof.
  destruct coeffs as [|c coeffs]; [unfold polyEval; simpl; pose proof q_pos; lia|].
  rewrite polyEval_cons. apply modSub_bound.
Qed.

Lemma lagrange_loop_spec i xs : ∀ num den num' den',
  lagrange_loop (modSub i) xs num den = (num', den') →
  num' =[q] num * prodZ (@others q i xs) ∧
  den' =[q] den * prodZ ((λ j, j - i) <$> @others q i xs).
Proof.
  induction xs as [|j xs IH]; intros num den num' den'; cbn [lagrange_loop].
  { intros [= <- <-]. cbn. by rewrite !Z.mul_1_r. }
  unfold others in *. rewrite filter_cons.
  destruct (Z.eqb_spec (modSub j) (modSub i)) as [E|E].
  - rewrite decide_False; [apply IH|]. intros Hn. apply Hn.
    rewrite <- (modSub_eqm j), E. apply modSub_eqm.
  - rewrite decide_True by (intros Hji; by apply E, modSub_eq).
    intros [H1 H2]%IH. rewrite fmap_cons. cbn [prodZ foldr].
    split; [rewrite H1|rewrite H2]; repeat rewrite modSub_eqm;
      apply eqm_of_eq; unfold prodZ; ring.
Qed.

(** The denominator is a product of nonzero residues: the coefficient always
    exists, and it is the basis polynomial at [0]. *)
Lemma lagrangeAtZero_lambda i xs :
  ∃ l, lagrangeAtZero i xs = Ok l ∧ l =[q] @lambda q i xs.
Proof.
  unfold lagrangeAtZero. destruct (lagrange_loop _ _ _ _) as [num den] eqn:E.
  apply lagrange_loop_spec in E as [Hn Hd]. rewrite Z.mul_1_l in Hn, Hd.
  assert (Hd0 : ~ (den =[q] 0)) by (rewrite Hd; apply (others_nonzero prime_q)).
  destruct (Z.eqb_spec den 0) as [->|]; [by destruct Hd0|].
  pose proof (invSub_spec den) as Hi. rewrite decide_False in Hi by done.
  destruct Hi as (y & -> & Hy & _). simpl. eexists. split; [done|].
  rewrite modSub_eqm, Hn. unfold lambda.
  rewrite <- (inv_unique prime_q _ y); [done|]. by rewrite <- Hd.
Qed.

Lemma interpolate_loop_spec shares quorum rest acc (s : Z → Z) :
  (∀ i, i ∈ rest → ∃ v, shares !! i = Some v ∧ v =[q] s i) →
  0 <= acc < q →
  ∃ v, interpolate_loop shares quorum rest acc = Ok v ∧ 0 <= v < q ∧
    v =[q] acc + sumZ (λ i, @lambda q i quorum * s i) rest.
Proof.
  revert acc. induction rest as [|i rest IH]; intros acc Hs Hacc; cbn [interpolate_loop].
  { exists acc. split_and!; [done|lia|lia|]. simpl. by rewrite Z.add_0_r. }
  destruct (Hs i) as (v & -> & Hv); [by left|].
  destruct (lagrangeAtZero_lambda i quorum) as (l & -> & Hl). simpl.
  destruct (IH (modSub (acc + l * v))) as (w & -> & Hw & E);
    [intros; apply Hs; by right|apply modSub_bound|].
  exists w. split_and!; [done|lia|lia|]. rewrite E, modSub_eqm, Hl, Hv.
  apply eqm_of_eq. ring.
Qed.

(** Interpolating a polynomial's values recovers its constant term. *)
Lemma interpolate_secret coeffs shares quorum :
  @distinct q quorum → (length coeffs <= length quorum)%nat →
  (∀ i, i ∈ quorum → shares !! i = Some (polyEval coeffs i)) →
  interpolateAtZero shares quorum = Ok (modSub (peval coeffs 0)).
Proof.
  intros Hd Hl Hs. unfold interpolateAtZero. pose proof q_pos.
  destruct (interpolate_loop_spec shares quorum quorum 0 (peval coeffs)) as (v & -> & Hv & E).
  - intros i Hi. exists (polyEval coeffs i). split; [by apply Hs|apply polyEval_peval].
  - lia.
  - f_equal. rewrite Z.add_0_l, (lagrange_zero prime_q) in E by done.
    rewrite <- (modSub_small v) by done. by apply modSub_eq.
Qed.

(** Secret recovery: any quorum of distinct identifiers, at least as many
    as the polynomial has coefficients, whose shares are the polynomial's
    values, interpolates to exactly the reduced constant term. *)
Theorem interpolateAtZero_secret coeffs shares quorum :
  @distinct q quorum → (length coeffs <= length quorum)%nat →
  (∀ i, i ∈ quorum → shares !! i = Some (polyEval coeffs i)) →
  interpolateAtZero shares quorum = Ok (modSub (peval coeffs 0)).
Proof. apply interpolate_secret. Qed.

(** Duplicate identifiers are not detected: [lagrangeAtZero] never throws,
    whatever the interpolation set, because equal identifiers are skipped
    before the denominator is formed; a quorum that repeats an identifier
    counts its share twice and recovers another value. *)
Theorem lagrangeAtZero_never_throws i xs s c :
  (is_ok (lagrangeAtZero i xs) = true) ∧
  (s !! i = Some c → interpolateAtZero s [i; i] = Ok (modSub (2 * c))).
Proof.
  split.
  - by destruct (lagrangeAtZero_lambda i xs) as (l & -> & _).
  - intros Hs. unfold interpolateAtZero. cbn [interpolate_loop]. rewrite Hs.
    assert (E : lagrangeAtZero i [i; i] = Ok 1).
    { unfold lagrangeAtZero. cbn [lagrange_loop]. rewrite Z.eqb_refl. cbn [Z.eqb].
      pose proof (invSub_spec 1) as Hi. rewrite decide_False in Hi
        by (apply eqm_1_0, q_pos). destruct Hi as (y & -> & Hy & _). simpl. f_equal.
      rewrite (modSub_eq (1 * y) 1) by done. apply modSub_small. pose proof q_pos. lia. }
    rewrite E. cbn [mbind result_bind]. f_equal. apply modSub_eq.
    rewrite modSub_eqm. apply eqm_of_eq. ring.
Qed.
End Shamir.
End Shamir.

(** ** [vss.ts] *)
Module Vss.
Import Bjj Shamir.
Section Vss.
Context `{BabyJubjub}.

Definition feldmanCommit (coeffs : list Z) : list Point := scalarBaseMul <$> coeffs.

Fixpoint verify_loop (i : Z) (commitments : list Point) (rhs : Point) (ipow : Z) : Point :=
  match commitments with
  | [] => rhs
  | com :: commitments =>
      verify_loop i commitments (pointAdd rhs (scalarMul ipow com)) (modSub (ipow * i))
  end.
Definition feldmanVerifyShare (i share : Z) (commitments : list Point) : bool :=
  pointEq (scalarBaseMul share) (verify_loop i commitments IDENTITY 1).

Context {L : BabyJubjubLaws}.
Local Notation q := SUBORDER.

Lemma verify_loop_spec i coeffs r ipow :
  verify_loop i (feldmanCommit coeffs) (scalarBaseMul r) ipow
  = scalarBaseMul (r + ipow * peval coeffs i).
Proof.
  unfold feldmanCommit. revert r ipow. induction coeffs as [|c coeffs IH]; intros r ipow.
  { cbn. f_equal. lia. }
  rewrite fmap_cons. cbn [verify_loop]. rewrite gen_mul, gen_add, IH.
  apply gen_eqm. rewrite modSub_eqm. apply eqm_of_eq. simpl. ring.
Qed.

(** Feldman verification is exact: against the commitments to a
    polynomial, [feldmanVerifyShare] accepts a share if and only if it is the
    polynomial's value at the identifier. *)
Theorem feldmanVerifyShare_iff i share coeffs :
  feldmanVerifyShare i share (feldmanCommit coeffs) = true ↔ modSub share = polyEval coeffs i.
Proof.
  unfold feldmanVerifyShare. rewrite pointEq_spec, <- gen_zero, verify_loop_spec, gen_eqm.
  rewrite Z.add_0_l, Z.mul_1_l, <- polyEval_peval. split.
  - intros E. rewrite (modSub_eq _ _ E). apply modSub_small, polyEval_bound.
  - intros <-. by rewrite modSub_eqm.
Qed.
End Vss.
End Vss.

(** ** Witnesses: a curve of 13 points *)
Module ToyCurve.
Import Bjj Shamir Vss.

#[local] Instance toy_curve : BabyJubjub := {|
  addPoint a b := ((a.1 + b.1) mod 13, 1);
  mulPointEscalar p k := ((p.1 * k) mod 13, 1);
  Base8 := (1, 1);
  subOrder := 13;
  inCurve p := (p.2 =? 1) && (0 <=? p.1) && (p.1 <? 13);
|}.

Lemma prime_13 : Z.prime 13.
Proof.
  split; [lia|]. intros n Hn [k Hk].
  assert (n = 2 ∨ n = 3 ∨ n = 4 ∨ n = 5 ∨ n = 6 ∨ n = 7 ∨ n = 8 ∨ n = 9 ∨ n = 10 ∨ n = 11 ∨ n = 12)
    as Hc by lia.
  repeat destruct Hc as [->|Hc]; lia.
Qed.

#[local] Instance toy_laws : BabyJubjubLaws.
Proof.
  split; unfold mulPointEscalar, addPoint, Base8, subOrder, inCurve, toy_curve; cbn [fst snd].
  - apply prime_13.
  - done.
  - intros j k _ _. f_equal. rewrite !Z.mul_1_l. by rewrite <- Zplus_mod.
  - intros j k _ _. f_equal. rewrite !Z.mul_1_l. by rewrite Zmult_mod_idemp_l.
  - intros j k _ _ [= E]. rewrite !Z.mul_1_l in E. by apply eqm_iff.
  - intros k j _ _ E%eqm_iff. by rewrite !Z.mul_1_l, E.
  - intros k _. pose proof (Z.mod_pos_bound (1 * k) 13 ltac:(lia)).
    rewrite (proj2 (Z.leb_le _ _)), (proj2 (Z.ltb_lt _ _)) by lia. done.
  - intros [x y] k _ _. pose proof (Z.mod_pos_bound (x * k) 13 ltac:(lia)).
    unfold canonical, BN254_SCALAR_FIELD_MODULUS. cbn [fst snd]. lia.
  - intros [x y] Hp _ _. cbn [fst snd] in Hp. exists x.
    apply andb_true_iff in Hp as [[Hy Hx]%andb_true_iff Hx'].
    split; [lia|]. rewrite Z.mul_1_l, Z.mod_small by lia. f_equal. lia.
Qed.

(** The shares of [5 + 3 x] at identifiers 1, 2 and 3. *)
Definition toy_shares : gmap Z Z := {[1 := 8; 2 := 11; 3 := 1]}.

Lemma interpolateAtZero_secret_witness : interpolateAtZero toy_shares [3; 1] = Ok 5.
Proof.
  refine (eq_trans (interpolateAtZero_secret [5; 3] toy_shares [3; 1] _ _ _) _); [| | |reflexivity].
  - apply (bool_decide_unpack _). vm_compute. done.
  - simpl. lia.
  - intros i Hi. apply elem_of_cons in Hi as [->|Hi]; [reflexivity|].
    apply elem_of_cons in Hi as [->|Hi]; [reflexivity|]. by apply not_elem_of_nil in Hi.
Defined.

Lemma lagrangeAtZero_never_throws_witness :
  is_ok (lagrangeAtZero 2 [2; 2; 15]) = true ∧
  (toy_shares !! 2 = Some 11 → interpolateAtZero toy_shares [2; 2] = Ok 9).
Proof.
  destruct (lagrangeAtZero_never_throws 2 [2; 2; 15] toy_shares 11) as [H1 H2].
  split; [exact H1|]. intros Hs. refine (eq_trans (H2 Hs) _). reflexivity.
Defined.

Lemma feldmanVerifyShare_iff_witness :
  feldmanVerifyShare 2 11 (feldmanCommit [5; 3]) = true ↔ modSub 11 = polyEval [5; 3] 2.
Proof. apply (feldmanVerifyShare_iff 2 11 [5; 3]). Defined.
End ToyCurve.
