(* ===== verification/Dkg.v ===== *)
(** * Distributed key generation ([packages/sdk/src/tss/dkg.ts], [gjkr.ts])

    [Hash] holds the domain constants and [hashToScalar], [Dkg] the Feldman
    DKG with its proof of possession, [Gjkr] the Pedersen-first variant.
    Randomness is an argument (the byte arrays drawn, in order). *)
From S2P Require Import Prelude Bytes Zq Tss.
Local Open Scope Z_scope.

(** ** [hashToScalar.ts] and [domains.ts] *)
Module Hash.
Section Hash.
Context `{BabyJubjub} `{Poseidon2}.

Definition SCHNORR_DOMAIN : Z := 0xc226e4b2bad84dcd0be5f5cc5c4334b8906fc9057331061d0b5b6117c74c667.
Definition FROST_RHO_DOMAIN : Z := 0x14d965d53f58e0d5753aa0dfa8def0c242fd638f6278452e72189ace62f2d5dd.
Definition FROST_NONCE_DOMAIN : Z := 0x6faa2a7a4934ae04655b2c2ad065be999db3e7558efb4c5773dcb0049d171c1.
Definition FROST_MSG_DOMAIN : Z := 0xbcc548ac662c18acfe3a7e55819b50f625844f6970073879a345c4e72b9a5b3.
Definition FROST_COM_DOMAIN : Z := 0xcbf15304e113ef84855f7f50023246fd9dbfe5f507d30bf4ef95a4c2a4915d4.
Definition FROST_POP_DOMAIN : Z := 0x209e21dad378253bec05dec69c0ba1062a1318dee1fc00b7c6060603abe6db36.
Definition CP_DOMAIN : Z := 0x23dabeda201c754f067d138365d1246df58773cc4ba056f4d1ef0c4a5d29c480.

Definition GROUP_VIEW_DOMAIN : Z := 0x2a9e6844948f649c36de66fbbbbdb35c175af01c06598ea5a99f5761ff213d04.
Definition ACTION_WITHDRAW : Z := 0x61c32c849432c5cb181c8aff85b048edfe720f4d14f9330a19892e6b3f2858e.
Definition ACTION_TRANSFER : Z := 0x1547047254eb19dda78a0a366ebb6a91dc073c5396d00f1d32a4afbea2ca1b5d.
Definition ACTION_SPLIT : Z := 0xda9aecde0fd0366b1cc6070cd943bffd9cdc2bece458fe66a67881019937b18.
Definition ACTION_JOIN : Z := 0x8d2a589888a5903aeb21e14836db1b3d9adb31de0dd29fb5103978815f30223.

Definition challengeScalar (inputs : list Z) : Z := poseidon2 inputs.
Definition HIGH_SHIFT : Z := Z.shiftl 1 254.
Definition hashToScalar (domain : Z) (inputs : list Z) : Z :=
  let high := poseidon2 (domain :: inputs ++ [0]) in
  let low := poseidon2 (domain :: inputs ++ [1]) in
  Z.rem (high * HIGH_SHIFT + low) Bjj.SUBORDER.
End Hash.
End Hash.

(** ** [dkg.ts] *)
Module Dkg.
Import Bjj Shamir Vss Hash.
Section Dkg.
Context `{BabyJubjub} `{Poseidon2}.

Inductive DkgError :=
  | Missing_share (dealer id : Z)
  | No_qualified_dealers | Length_mismatch (a b : nat) | H_not_found
  | Feldman_inconsistent (id : Z) | PoP_failed (id : Z)
  | Not_in_subgroup (e : TssError)
  | String_too_long | Not_a_field_element
  (** reading a coordinate of [undefined] *)
  | Type_error.

Record SchnorrPoP := mkPoP { R : Point; z : Z }.
Record DealerContribution := mkContribution {
  id : Z;
  commitments : list Point;
  pop : SchnorrPoP;
  shares : gmap Z Z;
}.

Definition popChallenge (id context : Z) (com0 R : Point) : Z :=
  hashToScalar FROST_POP_DOMAIN [id; context; com0.1; com0.2; R.1; R.2].

Definition provePoP (id context secret : Z) (commitment : Point) (rand : list Z) : SchnorrPoP :=
  let k := randScalar rand in
  let R := scalarBaseMul k in
  let e := popChallenge id context commitment R in
  mkPoP R (modSub (k + e * secret)).

Definition verifyPoP (id context : Z) (commitments : list Point) (pop : SchnorrPoP) :
    result DkgError bool :=
  match commitments with
  | [] => Err Type_error
  | com0 :: _ =>
      let e := popChallenge id context com0 (R pop) in
      let lhs := scalarBaseMul (z pop) in
      let rhs := pointAdd (R pop) (scalarMul e com0) in
      Ok (pointEq lhs rhs)
  end.

(** [for (const j of participants) shares.set(j, polyEval(coeffs, j))]. *)
Definition share_map (coeffs participants : list Z) : gmap Z Z :=
  foldl (λ m j, <[j := polyEval coeffs j]> m) ∅ participants.

(** [coins] are the [t] coefficient draws, [pop_coin] the draw of the proof. *)
Definition dealerContribute (id : Z) (participants : list Z) (context : Z)
    (coins : list (list Z)) (pop_coin : list Z) : result DkgError (DealerContribution * Z) :=
  let coeffs := randScalar <$> coins in
  let commitments := feldmanCommit coeffs in
  let shares := share_map coeffs participants in
  match coeffs, commitments with
  | c0 :: _, com0 :: _ =>
      Ok (mkContribution id commitments (provePoP id context c0 com0 pop_coin) shares, c0)
  | _, _ => Err Type_error
  end.

Definition verifyContribution (recipientId : Z) (contribution : DealerContribution) (context : Z) :
    result DkgError bool :=
  match commitments contribution with
  | [] => Ok false
  | _ =>
      match shares contribution !! recipientId with
      | None => Ok false
      | Some share =>
          if negb (feldmanVerifyShare recipientId share (commitments contribution)) then Ok false
          else verifyPoP (id contribution) context (commitments contribution) (pop contribution)
      end
  end.

Record DkgResult := mkDkgResult {
  C : Point;
  key_shares : gmap Z Z;
  V : gmap Z Point;
  qual : list Z;
}.

Fixpoint sum_commitments (acc : Point) (cs : list DealerContribution) : result DkgError Point :=
  match cs with
  | [] => Ok acc
  | c :: cs => match commitments c with
               | [] => Err Type_error
               | com0 :: _ => sum_commitments (pointAdd acc com0) cs end
  end.

Fixpoint sum_shares (i acc : Z) (cs : list DealerContribution) : result DkgError Z :=
  match cs with
  | [] => Ok acc
  | c :: cs => match shares c !! i with
               | None => Err (Missing_share (id c) i)
               | Some s => sum_shares i (modSub (acc + s)) cs end
  end.

Fixpoint aggregate_loop (ps : list Z) (cs : list DealerContribution)
    (m : gmap Z Z) (v : gmap Z Point) : result DkgError (gmap Z Z * gmap Z Point) :=
  match ps with
  | [] => Ok (m, v)
  | i :: ps =>
      ci ← sum_shares i 0 cs;
      aggregate_loop ps cs (<[i := ci]> m) (<[i := scalarBaseMul ci]> v)
  end.

Definition aggregate (participants : list Z) (qualContributions : list DealerContribution) :
    result DkgError DkgResult :=
  C ← sum_commitments IDENTITY qualContributions;
  '(m, v) ← aggregate_loop participants qualContributions ∅ ∅;
  Ok (mkDkgResult C m v (id <$> qualContributions)).

(** *** Correctness *)
Context {L : BabyJubjubLaws}.
Local Notation q := SUBORDER.

(** A contribution whose commitments lie in the prime-order subgroup: then
    they commit to some polynomial. *)
Definition commits (c : DealerContribution) (coeffs : list Z) : Prop :=
  commitments c = feldmanCommit coeffs ∧ coeffs ≠ [].

Lemma share_map_lookup coeffs ps j : j ∈ ps → share_map coeffs ps !! j = Some (polyEval coeffs j).
Proof.
  intros Hj. apply (foldl_insert_lookup (λ j, j) (polyEval coeffs)). by rewrite list_fmap_id.
Qed.

Lemma verifyPoP_spec dealer ctx coeffs c0 pf :
  verifyPoP dealer ctx (feldmanCommit (c0 :: coeffs)) pf
  = Ok (pointEq (scalarBaseMul (z pf))
          (pointAdd (R pf) (scalarBaseMul (popChallenge dealer ctx (scalarBaseMul c0) (R pf) * c0)))).
Proof. unfold verifyPoP. cbn [feldmanCommit fmap list_fmap]. by rewrite gen_mul. Qed.

Lemma verifyPoP_honest dealer ctx coeffs c0 rand :
  verifyPoP dealer ctx (feldmanCommit (c0 :: coeffs))
    (provePoP dealer ctx c0 (scalarBaseMul c0) rand) = Ok true.
Proof.
  rewrite verifyPoP_spec. cbn [z R provePoP]. rewrite gen_add. f_equal. apply pointEq_spec, gen_eqm.
  apply modSub_eqm.
Qed.

(** Completeness: every participant accepts the contribution of an honest
    dealer, whatever its coins. *)
Theorem dealerContribute_verifies dealer ps ctx coins pop_coin j :
  coins ≠ [] → j ∈ ps →
  ∃ c secret, dealerContribute dealer ps ctx coins pop_coin = Ok (c, secret) ∧
    verifyContribution j c ctx = Ok true ∧ commits c (randScalar <$> coins) ∧ id c = dealer.
Proof.
  intros Hc Hj. destruct coins as [|x coins]; [done|].
  set (coeffs := randScalar <$> (x :: coins)).
  assert (E : dealerContribute dealer ps ctx (x :: coins) pop_coin
    = Ok (mkContribution dealer (feldmanCommit coeffs)
            (provePoP dealer ctx (randScalar x) (scalarBaseMul (randScalar x)) pop_coin)
            (share_map coeffs ps), randScalar x)) by done.
  eexists _, _. split; [exact E|]. unfold verifyContribution. cbn [commitments shares pop id].
  rewrite share_map_lookup by done.
  rewrite (proj2 (feldmanVerifyShare_iff j _ coeffs)) by (apply modSub_small, polyEval_bound).
  split; [apply verifyPoP_honest|done].
Qed.

(** The polynomial that the dealers' polynomials add up to. *)
Definition sum_poly (polys : list (list Z)) : list Z := foldr padd [] polys.

Lemma peval_sum_poly polys x : peval (sum_poly polys) x = sumZ (λ f, peval f x) polys.
Proof.
  induction polys as [|f polys IH]; [done|].
  change (sum_poly (f :: polys)) with (padd f (sum_poly polys)).
  by rewrite peval_padd, IH.
Qed.
Lemma length_sum_poly polys t :
  Forall (λ f, (length f <= t)%nat) polys → (length (sum_poly polys) <= t)%nat.
Proof.
  induction 1 as [|f polys Hf _ IH]; [simpl; lia|].
  change (sum_poly (f :: polys)) with (padd f (sum_poly polys)). rewrite length_padd. lia.
Qed.

Lemma sum_commitments_spec cs polys a : Forall2 commits cs polys →
  sum_commitments (scalarBaseMul a) cs = Ok (scalarBaseMul (a + peval (sum_poly polys) 0)).
Proof.
  intros Hc. revert a. induction Hc as [|c f cs polys [Hf Hne] Hc IH]; intros a.
  { simpl. by rewrite Z.add_0_r. }
  destruct f as [|c0 f]; [done|]. cbn [sum_commitments]. rewrite Hf.
  cbn [feldmanCommit fmap list_fmap]. rewrite gen_add, IH. do 2 f_equal.
  rewrite !peval_sum_poly, sumZ_cons. cbn [peval]. lia.
Qed.

(** Dealer [c] gave participant [j] the value of its polynomial. *)
Definition gave (j : Z) (c : DealerContribution) (f : list Z) : Prop :=
  ∃ s, shares c !! j = Some s ∧ s =[q] peval f j.

Lemma verified_gave j c ctx f :
  commits c f → verifyContribution j c ctx = Ok true → gave j c f.
Proof.
  intros [Hf Hne]. unfold verifyContribution. rewrite Hf.
  destruct (feldmanCommit f) as [|com coms] eqn:Hcom; [done|].
  destruct (shares c !! j) as [s|] eqn:Hs; [|done]. rewrite <- Hcom.
  destruct (feldmanVerifyShare j s (feldmanCommit f)) eqn:Hv; [|done]. intros _.
  apply feldmanVerifyShare_iff in Hv. exists s. split; [done|].
  by rewrite <- polyEval_peval, <- Hv, modSub_eqm.
Qed.

Lemma sum_shares_spec j cs polys acc : Forall2 (gave j) cs polys → 0 <= acc < q →
  ∃ v, sum_shares j acc cs = Ok v ∧ 0 <= v < q ∧ v =[q] acc + peval (sum_poly polys) j.
Proof.
  intros Hg. revert acc. induction Hg as [|c f cs polys (s & Hs & Hsf) Hg IH]; intros acc Hacc.
  { exists acc. split_and!; [done|lia|lia|]. simpl. by rewrite Z.add_0_r. }
  cbn [sum_shares]. rewrite Hs. destruct (IH (modSub (acc + s))) as (v & -> & Hv & E).
  { apply modSub_bound. }
  exists v. split_and!; [done|lia|lia|]. rewrite E, modSub_eqm, Hsf, !peval_sum_poly, sumZ_cons.
  apply eqm_of_eq. lia.
Qed.

Lemma aggregate_loop_spec ps cs polys m v :
  (∀ j, j ∈ ps → Forall2 (gave j) cs polys) →
  ∃ m' v', aggregate_loop ps cs m v = Ok (m', v') ∧
    ∀ j, (j ∈ ps → ∃ s, m' !! j = Some s ∧ v' !! j = Some (scalarBaseMul s) ∧
                         s = polyEval (sum_poly polys) j) ∧
         (j ∉ ps → m' !! j = m !! j ∧ v' !! j = v !! j).
Proof.
  revert m v. induction ps as [|i ps IH]; intros m v Hg.
  { exists m, v. split; [done|]. intros j. split; [by intros ?%not_elem_of_nil|done]. }
  cbn [aggregate_loop]. destruct (sum_shares_spec i cs polys 0) as (s & -> & Hs & E);
    [apply Hg; left|pose proof q_pos; lia|]. cbn [mbind result_bind].
  destruct (IH (<[i:=s]> m) (<[i:=scalarBaseMul s]> v)) as (m' & v' & -> & Hj);
    [intros; apply Hg; by right|].
  exists m', v'. split; [done|]. intros j. destruct (Hj j) as [H1 H2]. split.
  - intros Hin. destruct (decide (j ∈ ps)) as [Hps|Hps]; [by apply H1|].
    apply elem_of_cons in Hin as [->|]; [|done]. destruct (H2 Hps) as [-> ->].
    exists s. rewrite !lookup_insert_eq. split_and!; [done|done|].
    rewrite Z.add_0_l, <- polyEval_peval in E.
    apply (eqm_small q); [done|apply polyEval_bound|done].
  - intros Hn. apply not_elem_of_cons in Hn as [Hne Hps]. destruct (H2 Hps) as [-> ->].
    by rewrite !lookup_insert_ne by done.
Qed.

Lemma aggregate_spec ps cs polys :
  Forall2 commits cs polys → (∀ j, j ∈ ps → Forall2 (gave j) cs polys) →
  ∃ r, aggregate ps cs = Ok r ∧ C r = scalarBaseMul (peval (sum_poly polys) 0) ∧
    qual r = id <$> cs ∧
    ∀ j, j ∈ ps → key_shares r !! j = Some (polyEval (sum_poly polys) j) ∧
                  V r !! j = Some (scalarBaseMul (polyEval (sum_poly polys) j)).
Proof.
  intros Hc Hg. unfold aggregate. rewrite <- gen_zero, (sum_commitments_spec cs polys) by done.
  cbn [mbind result_bind].
  destruct (aggregate_loop_spec ps cs polys ∅ ∅ Hg) as (m & v & -> & Hj).
  cbn [mbind result_bind]. eexists. split; [reflexivity|]. cbn [C qual key_shares V].
  split_and!; [done|done|]. intros j Hin. destruct (Hj j) as [H1 _].
  destruct (H1 Hin) as (s & Hm & Hv & ->). done.
Qed.

(** Key generation: whenever every participant has verified every
    qualified contribution, of at most [t] subgroup commitments each, however
    they were made, [aggregate] succeeds, the verification points match the
    shares, and any [t] or more distinct participants recover one and the same
    secret, the discrete logarithm of the group key. *)
Theorem aggregate_agreement ps cs polys ctx t :
  Forall2 commits cs polys → Forall (λ f, (length f <= t)%nat) polys →
  (∀ j c, j ∈ ps → c ∈ cs → verifyContribution j c ctx = Ok true) →
  ∃ r secret, aggregate ps cs = Ok r ∧ qual r = id <$> cs ∧
    C r = scalarBaseMul secret ∧ 0 <= secret < q ∧
    (∀ j, j ∈ ps → ∃ s, key_shares r !! j = Some s ∧ V r !! j = Some (scalarBaseMul s)) ∧
    ∀ quorum, @distinct q quorum → quorum ⊆ ps → (t <= length quorum)%nat →
      interpolateAtZero (key_shares r) quorum = Ok secret.
Proof.
  intros Hc Ht Hv. destruct (aggregate_spec ps cs polys Hc) as (r & Hr & HC & Hq & Hj).
  { intros j Hjp. apply Forall2_same_length_lookup. split; [by eapply Forall2_length|].
    intros k c f Hck Hfk. eapply verified_gave; [by eapply Forall2_lookup_lr|].
    apply Hv; [done|]. by eapply list_elem_of_lookup_2. }
  exists r, (modSub (peval (sum_poly polys) 0)). split_and!; [done|done| |apply modSub_bound..| |].
  - rewrite HC. apply gen_eqm. by rewrite modSub_eqm.
  - intros j Hjp. destruct (Hj j Hjp) as [H1 H2]. eauto.
  - intros quorum Hd Hsub Hl. apply interpolate_secret; [done| |].
    + etrans; [by apply length_sum_poly|done].
    + intros i Hi. by apply Hj, Hsub.
Qed.
End Dkg.
End Dkg.

(** ** [gjkr.ts] *)
Module Gjkr.
Import Bjj Shamir Vss Hash Dkg.
Section Gjkr.
Context `{BabyJubjub} `{Poseidon2} (unpackPoint : Z → option Point).

Definition COFACTOR : Z := 8.
Definition H_SEED_DOMAIN : string := "kakure.tss.pedersen.h".
Definition H_MAX_TRIES : nat := 256.

(** [stringToFr] of [crypto/fields.ts]; [text] is its UTF-8 bytes, and
    [Fr.fromBuffer] rejects a value that is not below the modulus. *)
Definition stringToFr (text : string) : result DkgError Z :=
  let bytes := (λ c, Z.of_nat (nat_of_ascii c)) <$> String.list_ascii_of_string text in
  if (32 <? length bytes)%nat then Err String_too_long
  else let f := of_be (replicate (32 - length bytes) 0 ++ bytes) in
       if BN254_SCALAR_FIELD_MODULUS <=? f then Err Not_a_field_element
       else Ok (poseidon2 [f]).

Fixpoint derive_loop (seed : Z) (tries : nat) (ctr : Z) : result DkgError Point :=
  match tries with
  | O => Err H_not_found
  | S tries =>
      match unpackPoint (poseidon2 [seed; ctr]) with
      | None => derive_loop seed tries (ctr + 1)
      | Some unpacked =>
          let h := scalarMul COFACTOR unpacked in
          if isIdentity h then derive_loop seed tries (ctr + 1)
          else if pointEq h BASE8 then derive_loop seed tries (ctr + 1)
          else match assertInSubgroup h "H" with
               | Err e => Err (Not_in_subgroup e)
               | Ok _ => Ok h
               end
      end
  end.
Definition getH : result DkgError Point :=
  seed ← stringToFr H_SEED_DOMAIN; derive_loop seed H_MAX_TRIES 0.

Definition pedersenCommit (aCoeffs bCoeffs : list Z) : result DkgError (list Point) :=
  if negb (length aCoeffs =? length bCoeffs)%nat
  then Err (Length_mismatch (length aCoeffs) (length bCoeffs))
  else h ← getH;
       Ok (zip_with (λ a b, pointAdd (scalarBaseMul a) (scalarMul b h)) aCoeffs bCoeffs).

Definition pedersenVerifyShare (id fShare fPrimeShare : Z) (commitments : list Point) :
    result DkgError bool :=
  h ← getH;
  let lhs := pointAdd (scalarBaseMul fShare) (scalarMul fPrimeShare h) in
  Ok (pointEq lhs (verify_loop id commitments IDENTITY 1)).

Record PedersenDealer := mkPedersenDealer {
  pd_id : Z;
  aCoeffs : list Z;
  bCoeffs : list Z;
  pd_commitments : list Point;
  aShares : gmap Z Z;
  fPrimeShares : gmap Z Z;
}.

(** The draws of one dealer: its two coefficient lists, and its proof coin. *)
Record Coins := mkCoins { coins_a : list (list Z); coins_b : list (list Z); coin_pop : list Z }.

Definition contribute (id : Z) (participants : list Z) (coins : Coins) :
    result DkgError PedersenDealer :=
  let a := randScalar <$> coins_a coins in
  let b := randScalar <$> coins_b coins in
  commitments ← pedersenCommit a b;
  Ok (mkPedersenDealer id a b commitments (share_map a participants) (share_map b participants)).

(** The fault injection of the driver: one share of a bad dealer is off by one. *)
Definition corrupt (participants : list Z) (d : PedersenDealer) : PedersenDealer :=
  let victim := match list_find (λ p, p ≠ pd_id d) participants with
                | Some (_, p) => p | None => pd_id d end in
  mkPedersenDealer (pd_id d) (aCoeffs d) (bCoeffs d) (pd_commitments d)
    (<[victim := modSub (default 0 (aShares d !! victim) + 1)]> (aShares d)) (fPrimeShares d).

(** The complaint round: [break] at the first share that does not verify. *)
Fixpoint shares_verify (d : PedersenDealer) (participants : list Z) : result DkgError bool :=
  match participants with
  | [] => Ok true
  | j :: rest =>
      match aShares d !! j, fPrimeShares d !! j with
      | Some f, Some fPrime =>
          ok ← pedersenVerifyShare j f fPrime (pd_commitments d);
          if negb ok then Ok false else shares_verify d rest
      | _, _ => Ok false
      end
  end.

Fixpoint qualify (participants : list Z) (dealers : list PedersenDealer) :
    result DkgError (list PedersenDealer) :=
  match dealers with
  | [] => Ok []
  | d :: dealers =>
      ok ← shares_verify d participants;
      rest ← qualify participants dealers;
      Ok (if ok : bool then d :: rest else rest)
  end.

Fixpoint feldman_consistent (d : PedersenDealer) (commitments : list Point)
    (participants : list Z) : result DkgError unit :=
  match participants with
  | [] => Ok tt
  | j :: rest =>
      match aShares d !! j with
      | Some f => if feldmanVerifyShare j f commitments then feldman_consistent d commitments rest
                  else Err (Feldman_inconsistent (pd_id d))
      | None => Err (Feldman_inconsistent (pd_id d))
      end
  end.

(** The Feldman reveal of one qualified dealer. *)
Definition reveal (participants : list Z) (context : Z) (coins : Z → Coins) (d : PedersenDealer) :
    result DkgError DealerContribution :=
  let commitments := feldmanCommit (aCoeffs d) in
  match aCoeffs d, commitments with
  | a0 :: _, com0 :: _ =>
      let pop := provePoP (pd_id d) context a0 com0 (coin_pop (coins (pd_id d))) in
      _ ← feldman_consistent d commitments participants;
      ok ← verifyPoP (pd_id d) context commitments pop;
      if negb ok then Err (PoP_failed (pd_id d))
      else Ok (mkContribution (pd_id d) commitments pop (aShares d))
  | _, _ => Err Type_error
  end.

Definition participants_upto (n : nat) : list Z := Z.of_nat <$> seq 1 n.

Definition make_dealer (participants : list Z) (bad : gset Z) (coins : Z → Coins) (id : Z) :
    result DkgError PedersenDealer :=
  d ← contribute id participants (coins id);
  Ok (if decide (id ∈ bad) then corrupt participants d else d).

Definition runGjkrDkg (n : nat) (context : Z) (bad : gset Z) (coins : Z → Coins) :
    result DkgError DkgResult :=
  let participants := participants_upto n in
  dealers ← map_res (make_dealer participants bad coins) participants;
  qual ← qualify participants dealers;
  match qual with
  | [] => Err No_qualified_dealers
  | _ => qualContributions ← map_res (reveal participants context coins) qual;
         aggregate participants qualContributions
  end.

(** *** Correctness *)
Context {L : BabyJubjubLaws}.
Local Notation q := SUBORDER.
(** [unpackPoint] returns curve points. *)
Context (unpack_curve : ∀ s p, unpackPoint s = Some p → inCurve p = true).

Lemma derive_loop_subgroup seed tries ctr h :
  derive_loop seed tries ctr = Ok h → ∃ eta, h = scalarBaseMul eta ∧ ~ (eta =[q] 0).
Proof.
  revert ctr. induction tries as [|tries IH]; intros ctr; cbn [derive_loop]; [done|].
  destruct (unpackPoint _) as [p|] eqn:Hp; [|apply IH].
  destruct (isIdentity _) eqn:Hid; [apply IH|]. destruct (pointEq _ _); [apply IH|].
  destruct (assertInSubgroup _ _) as [[]|] eqn:Ha; [|done]. intros [= <-].
  unfold assertInSubgroup in Ha. destruct (inCurve _); [|done]. rewrite Hid in Ha. cbn [negb] in Ha.
  destruct (inSubgroup (scalarMul COFACTOR p)) eqn:Hs; [|done].
  apply inSubgroup_spec in Hs as [eta E].
  - exists eta. split; [done|]. rewrite E, isIdentity_gen in Hid. by apply bool_decide_eq_false in Hid.
  - apply mul_canonical; [by eapply unpack_curve|apply modSub_bound].
Qed.

Lemma getH_subgroup h : getH = Ok h → ∃ eta, h = scalarBaseMul eta ∧ ~ (eta =[q] 0).
Proof. unfold getH. rewrite bind_Ok. intros (seed & _ & Hd). by eapply derive_loop_subgroup. Qed.

Section with_H.
Context (h : Point) (eta : Z) (HH : getH = Ok h) (Heta : h = scalarBaseMul eta).

(** The exponents of a Pedersen commitment. *)
Definition blind (a b : list Z) : list Z := zip_with (λ x y, x + eta * y) a b.

Lemma peval_blind a b x : length a = length b →
  peval (blind a b) x = peval a x + eta * peval b x.
Proof.
  revert b. induction a as [|c a IH]; intros [|d b] Hl; simplify_eq/=; [ring|].
  change (zip_with _ a b) with (blind a b). rewrite IH by done. ring.
Qed.

Lemma pedersenCommit_spec a b : length a = length b →
  pedersenCommit a b = Ok (feldmanCommit (blind a b)).
Proof.
  intros Hl. unfold pedersenCommit. rewrite Hl, Nat.eqb_refl, HH. cbn [negb mbind result_bind].
  f_equal. clear HH Hl. revert b. induction a as [|c a IH]; intros [|d b]; simpl; [done..|].
  rewrite Heta, gen_mul, gen_add, <- Heta, IH. unfold feldmanCommit, blind. simpl.
  f_equal. apply gen_eqm, eqm_of_eq. ring.
Qed.

Lemma pedersenVerifyShare_spec j f f' cs :
  pedersenVerifyShare j f f' (feldmanCommit cs)
  = Ok (bool_decide (f + eta * f' =[q] peval cs j)).
Proof.
  unfold pedersenVerifyShare. rewrite HH. cbn [mbind result_bind]. f_equal.
  rewrite Heta, <- gen_zero, verify_loop_spec, gen_mul, gen_add.
  apply eq_bool_prop_intro. rewrite bool_decide_spec.
  assert (Hp : ∀ a b, Is_true (pointEq a b) ↔ a = b)
    by (intros; rewrite <- pointEq_spec; by destruct (pointEq _ _)).
  rewrite Hp, gen_eqm, Z.add_0_l, Z.mul_1_l, (Z.mul_comm f'). done.
Qed.

(** Does the share pair of [d] at [j] open the commitments to [cs]? *)
Definition share_ok (d : PedersenDealer) (cs : list Z) (j : Z) : bool :=
  match aShares d !! j, fPrimeShares d !! j with
  | Some f, Some f' => bool_decide (f + eta * f' =[q] peval cs j)
  | _, _ => false
  end.

Lemma shares_verify_spec d cs ps :
  pd_commitments d = feldmanCommit cs → shares_verify d ps = Ok (forallb (share_ok d cs) ps).
Proof.
  intros Hc. induction ps as [|j ps IH]; [done|]. cbn [shares_verify forallb]. unfold share_ok at 1.
  destruct (aShares d !! j), (fPrimeShares d !! j); try done.
  rewrite Hc, pedersenVerifyShare_spec. cbn [mbind result_bind].
  by destruct (bool_decide _).
Qed.

Section with_coins.
Context (ps : list Z) (ctx : Z) (coins : Z → Coins) (t : nat).
Context (Ht : (0 < t)%nat).
Context (Hcoins : ∀ i, length (coins_a (coins i)) = t ∧ length (coins_b (coins i)) = t).

Definition a_of (i : Z) : list Z := randScalar <$> coins_a (coins i).
Definition b_of (i : Z) : list Z := randScalar <$> coins_b (coins i).
Definition honest (i : Z) : PedersenDealer :=
  mkPedersenDealer i (a_of i) (b_of i) (feldmanCommit (blind (a_of i) (b_of i)))
    (share_map (a_of i) ps) (share_map (b_of i) ps).
Definition dealer_of (bad : gset Z) (i : Z) : PedersenDealer :=
  if decide (i ∈ bad) then corrupt ps (honest i) else honest i.

Lemma length_a_of i : length (a_of i) = t.
Proof. unfold a_of. rewrite length_fmap. apply Hcoins. Qed.
Lemma length_b_of i : length (b_of i) = t.
Proof. unfold b_of. rewrite length_fmap. apply Hcoins. Qed.

Lemma make_dealer_spec bad i : make_dealer ps bad coins i = Ok (dealer_of bad i).
Proof.
  unfold make_dealer, contribute, dealer_of. fold (a_of i) (b_of i).
  rewrite pedersenCommit_spec by (by rewrite length_a_of, length_b_of).
  cbn [mbind result_bind]. fold (honest i). by case_decide.
Qed.

Lemma share_ok_honest i j :
  j ∈ ps → share_ok (honest i) (blind (a_of i) (b_of i)) j = true.
Proof.
  intros Hj. unfold share_ok. cbn [honest aShares fPrimeShares].
  rewrite !share_map_lookup by done. apply bool_decide_eq_true_2.
  rewrite peval_blind by (by rewrite length_a_of, length_b_of). by rewrite !polyEval_peval.
Qed.

(** The victim of a bad dealer: a participant, whose share is now wrong. *)
Lemma corrupt_victim i : i ∈ ps → ∃ v, v ∈ ps ∧
  corrupt ps (honest i) =
  mkPedersenDealer i (a_of i) (b_of i) (feldmanCommit (blind (a_of i) (b_of i)))
    (<[v := modSub (polyEval (a_of i) v + 1)]> (share_map (a_of i) ps)) (share_map (b_of i) ps).
Proof.
  intros Hi. unfold corrupt. cbn [honest pd_id aCoeffs bCoeffs pd_commitments aShares fPrimeShares].
  destruct (list_find _ ps) as [[k v]|] eqn:Hf.
  - apply list_find_Some in Hf as (Hv%list_elem_of_lookup_2 & _).
    exists v. split; [done|]. by rewrite share_map_lookup.
  - exists i. split; [done|]. by rewrite share_map_lookup.
Qed.

Lemma share_ok_corrupt i : i ∈ ps →
  forallb (share_ok (corrupt ps (honest i)) (blind (a_of i) (b_of i))) ps = false.
Proof.
  intros Hi. destruct (corrupt_victim i Hi) as (v & Hv & ->). pose proof q_pos.
  apply not_true_iff_false. intros Hall. rewrite forallb_forall in Hall.
  specialize (Hall v ltac:(by apply list_elem_of_In)). revert Hall. unfold share_ok.
  cbn [aShares fPrimeShares]. rewrite lookup_insert_eq, share_map_lookup by done.
  rewrite bool_decide_eq_true, peval_blind by (by rewrite length_a_of, length_b_of).
  rewrite modSub_eqm, !polyEval_peval. intros E%eqm_sub_0.
  apply (eqm_1_0 q); [done|]. rewrite <- E. apply eqm_of_eq. ring.
Qed.

(** The complaint round: exactly the dealers that did not corrupt a share. *)
Lemma qualify_spec bad ids : ids ⊆ ps →
  qualify ps (dealer_of bad <$> ids) = Ok (honest <$> filter (λ i, i ∉ bad) ids).
Proof.
  induction ids as [|i ids IH]; intros Hsub; [done|]. rewrite fmap_cons. cbn [qualify].
  assert (Hi : i ∈ ps) by (apply Hsub; left).
  rewrite (shares_verify_spec _ (blind (a_of i) (b_of i)))
    by (unfold dealer_of; by case_decide).
  cbn [mbind result_bind]. rewrite IH by (intros j Hj; apply Hsub; by right).
  cbn [mbind result_bind]. rewrite filter_cons. unfold dealer_of at 1 2.
  destruct (decide (i ∈ bad)) as [Hb|Hb].
  - rewrite share_ok_corrupt, decide_False by tauto. done.
  - rewrite decide_True by done.
    rewrite (proj2 (forallb_forall _ _)); [done|].
    intros j Hj%list_elem_of_In. by apply share_ok_honest.
Qed.

Lemma feldman_consistent_honest i js : js ⊆ ps →
  feldman_consistent (honest i) (feldmanCommit (a_of i)) js = Ok tt.
Proof.
  induction js as [|j js IH]; intros Hsub; [done|]. cbn [feldman_consistent honest aShares].
  rewrite share_map_lookup by (apply Hsub; left).
  rewrite (proj2 (feldmanVerifyShare_iff _ _ _)) by (apply modSub_small, polyEval_bound).
  apply IH. intros k Hk. apply Hsub. by right.
Qed.

Lemma reveal_honest i : ∃ c, reveal ps ctx coins (honest i) = Ok c ∧
  commits c (a_of i) ∧ id c = i ∧ shares c = share_map (a_of i) ps.
Proof.
  unfold reveal. pose proof (length_a_of i) as Hl.
  pose proof (feldman_consistent_honest i ps ltac:(done)) as Hcons.
  change (aCoeffs (honest i)) with (a_of i). change (pd_id (honest i)) with i.
  change (aShares (honest i)) with (share_map (a_of i) ps).
  destruct (a_of i) as [|a0 a] eqn:Ha; [simpl in Hl; lia|].
  change (feldmanCommit (a0 :: a)) with (scalarBaseMul a0 :: feldmanCommit a) in *.
  cbv beta iota zeta. rewrite Hcons. cbn [mbind result_bind].
  change (scalarBaseMul a0 :: feldmanCommit a) with (feldmanCommit (a0 :: a)).
  rewrite verifyPoP_honest. cbn [negb mbind result_bind].
  by eexists.
Qed.
End with_coins.
End with_H.

Lemma reveal_all h eta ps ctx coins t ids :
  getH = Ok h → h = scalarBaseMul eta → (0 < t)%nat →
  (∀ i, length (coins_a (coins i)) = t ∧ length (coins_b (coins i)) = t) →
  ∃ cs, map_res (reveal ps ctx coins) (honest eta ps coins <$> ids) = Ok cs ∧
    Forall2 commits cs (a_of coins <$> ids) ∧ id <$> cs = ids ∧
    ∀ j, j ∈ ps → Forall2 (gave j) cs (a_of coins <$> ids).
Proof.
  intros HH Heta Ht Hcoins. induction ids as [|i ids (cs & Hcs & Hc & Hid & Hg)].
  { exists []. split_and!; [done|constructor|done|]. intros; constructor. }
  destruct (reveal_honest eta ps ctx coins t Ht Hcoins i) as (c & Hr & Hci & Hi & Hs).
  exists (c :: cs). rewrite !fmap_cons. cbn [map_res]. rewrite Hr. cbn [mbind result_bind].
  rewrite Hcs. cbn [mbind result_bind]. split_and!; [done|by constructor|by rewrite Hi, Hid|].
  intros j Hj. constructor; [|by apply Hg]. exists (polyEval (a_of coins i) j). split.
  - by rewrite Hs, share_map_lookup.
  - apply polyEval_peval.
Qed.

Lemma make_dealers h eta ps coins t bad ids :
  getH = Ok h → h = scalarBaseMul eta → (0 < t)%nat →
  (∀ i, length (coins_a (coins i)) = t ∧ length (coins_b (coins i)) = t) →
  map_res (make_dealer ps bad coins) ids = Ok (dealer_of eta ps coins bad <$> ids).
Proof.
  intros HH Heta Ht Hcoins. induction ids as [|i ids IH]; [done|]. cbn [map_res].
  erewrite make_dealer_spec by done. cbn [mbind result_bind]. by rewrite IH.
Qed.

Lemma participants_distinct n quorum : Z.of_nat n < q →
  NoDup quorum → quorum ⊆ participants_upto n → @distinct q quorum.
Proof.
  intros Hn Hd Hsub. apply distinct_bounded; [done|].
  intros x Hx%Hsub. apply list_elem_of_fmap in Hx as (k & -> & Hk%elem_of_seq). lia.
Qed.

(** The key the driver generates: the sum of the first draws of the dealers
    that did not misbehave. *)
Definition group_secret (coins : Z → Coins) (ids : list Z) : Z :=
  modSub (peval (sum_poly (a_of coins <$> ids)) 0).

(** C36. The Pedersen-first key generation: once the second generator is
    derived, a run disqualifies exactly the dealers that corrupted a share, and
    throws only if none remains; otherwise every quorum of at least [t] distinct
    participants, the disqualified ones included, recovers the discrete
    logarithm of the group key, and the key depends on the qualified dealers
    alone. *)
Theorem runGjkrDkg_qual n ctx bad coins t h :
  getH = Ok h → (0 < t)%nat → Z.of_nat n < q →
  (∀ i, length (coins_a (coins i)) = t ∧ length (coins_b (coins i)) = t) →
  let good := filter (λ i, i ∉ bad) (participants_upto n) in
  if decide (good = []) then runGjkrDkg n ctx bad coins = Err No_qualified_dealers
  else ∃ r, runGjkrDkg n ctx bad coins = Ok r ∧ qual r = good ∧
    C r = scalarBaseMul (group_secret coins good) ∧
    ∀ quorum, NoDup quorum → quorum ⊆ participants_upto n → (t <= length quorum)%nat →
      interpolateAtZero (key_shares r) quorum = Ok (group_secret coins good).
Proof.
  intros HH Ht Hn Hcoins good.
  destruct (getH_subgroup h HH) as (eta & Heta & _).
  set (ps := participants_upto n) in *. unfold runGjkrDkg. fold ps.
  rewrite (make_dealers h eta ps coins t) by done. cbn [mbind result_bind].
  rewrite (qualify_spec h eta HH Heta ps coins t Hcoins) by done. fold good.
  cbn [mbind result_bind].
  destruct (reveal_all h eta ps ctx coins t good HH Heta Ht Hcoins) as (cs & Hcs & Hc & Hid & Hg).
  case_decide as Hgood; [by rewrite Hgood|].
  destruct (honest eta ps coins <$> good) as [|d ds] eqn:E;
    [by apply fmap_nil_inv in E|]. rewrite Hcs. cbn [mbind result_bind].
  destruct (aggregate_spec ps cs _ Hc Hg) as (r & Hr & HC & Hq & Hj).
  exists r. split_and!; [done|by rewrite Hq| |].
  - rewrite HC. apply gen_eqm. unfold group_secret. by rewrite modSub_eqm.
  - intros quorum Hd Hsub Hl. apply interpolate_secret; [by eapply participants_distinct| |].
    + etrans; [apply (length_sum_poly _ t)|done]. apply Forall_fmap, Forall_forall.
      intros i _. simpl. by rewrite (length_a_of coins t Hcoins).
    + intros i Hi. by apply Hj, Hsub.
Qed.
End Gjkr.
End Gjkr.


(** ** Witnesses: three participants on the toy curve *)
Module DkgWitness.
Import Bjj Shamir Vss Hash Dkg Gjkr.
#[local] Existing Instance ToyCurve.toy_curve.
#[local] Existing Instance ToyCurve.toy_laws.
#[local] Instance toy_hash : Poseidon2 :=
  λ xs, foldl (λ acc x, Z.rem (31 * acc + x + 7) BN254_SCALAR_FIELD_MODULUS) 1 xs.

Definition contribution_of (i : Z) : DealerContribution :=
  match dealerContribute i [1; 2; 3] 9 [[i]; [7]] [3] with
  | Ok (c, _) => c | Err _ => mkContribution i [] (mkPoP IDENTITY 0) ∅ end.

(** The polynomials of dealers 1 and 3. *)
Definition toy_polys : list (list Z) := [[2; 8]; [4; 8]].

Lemma dealerContribute_verifies_witness :
  is_ok (dealerContribute 1 [1; 2; 3] 9 [[1]; [7]] [3]) = true.
Proof.
  destruct (dealerContribute_verifies 1 [1; 2; 3] 9 [[1]; [7]] [3] 2) as (c & s & E & _);
    [done|apply (bool_decide_unpack _); reflexivity|]. by rewrite E.
Defined.

Lemma aggregate_agreement_witness :
  ∃ r, aggregate [1; 2; 3] [contribution_of 1; contribution_of 3] = Ok r ∧
    interpolateAtZero (key_shares r) [3; 1] = Ok 6 ∧
    interpolateAtZero (key_shares r) [2; 3] = Ok 6.
Proof.
  destruct (aggregate_agreement [1; 2; 3] [contribution_of 1; contribution_of 3]
    toy_polys 9 2) as (r & s & E & _ & HC & Hs & _ & Hq).
  - repeat constructor; vm_compute; done.
  - repeat constructor; simpl; lia.
  - intros j c Hj Hc.
    repeat (apply elem_of_cons in Hj as [->|Hj]; [
      repeat (apply elem_of_cons in Hc as [->|Hc]; [vm_compute; done|]);
      by apply not_elem_of_nil in Hc|]). by apply not_elem_of_nil in Hj.
  - exists r. split; [exact E|].
    assert (Hs6 : s = 6).
    { apply (eqm_small SUBORDER); [exact Hs|vm_compute; split; congruence|]. apply (proj1 (gen_eqm s 6)). rewrite <- HC. clear - E.
      vm_compute in E. injection E as <-. reflexivity. }
    subst s. split; apply Hq; (try (apply (bool_decide_unpack _); vm_compute; done)); simpl; lia.
Defined.

Definition toy_unpack (s : Z) : option Point := Some (s mod 13, 1).
Definition toy_coins (i : Z) : Coins := mkCoins [[i]; [7]] [[i + 1]; [2]] [3].

Lemma runGjkrDkg_qual_witness :
  ∃ r, runGjkrDkg toy_unpack 3 9 {[2]} toy_coins = Ok r ∧ qual r = [1; 3] ∧
    interpolateAtZero (key_shares r) [2; 3] = Ok 6.
Proof.
  pose proof (runGjkrDkg_qual toy_unpack ltac:(intros s p [= <-];
    unfold inCurve, ToyCurve.toy_curve; cbn; pose proof (Z.mod_pos_bound s 13); lia)
    3 9 {[2]} toy_coins 2) as Hrun.
  destruct (getH toy_unpack) as [h|e] eqn:HH; [|vm_compute in HH; discriminate HH].
  specialize (Hrun h eq_refl ltac:(lia) ltac:(done) ltac:(done)).
  destruct Hrun as (r & Hr & Hq & _ & Hrec).
  exists r. split; [exact Hr|]. split; [exact Hq|].
  refine (eq_trans (Hrec [2; 3] _ _ _) _); [| | |reflexivity].
  - apply (bool_decide_unpack _). vm_compute. done.
  - apply (bool_decide_unpack _). vm_compute. done.
  - simpl. lia.
Defined.
End DkgWitness.
