(* ===== verification/Compliance.v ===== *)
(** * Threshold disclosure ([tss/chaumPedersen.ts], [threshold/compliance.ts],
    [tss/groupSecret.ts])

    [Cp] is the DLEQ proof, [Compliance] the committee's recovery of a content
    key from verified partial decryptions, [GroupSecret] the group-shared view
    secret. Randomness is an argument, hashes are parameters. *)
From S2P Require Import Prelude Bytes Zq Tss Dkg.
Local Open Scope Z_scope.

(** ** [chaumPedersen.ts] *)
Module Cp.
Import Bjj Hash.
Section Cp.
Context `{BabyJubjub} `{Poseidon2}.

Record DleqProof := mkDleqProof { D : Point; A : Point; B : Point; z : Z }.

Definition transcript (epk V D A B : Point) : list Z :=
  [BASE8.1; BASE8.2; epk.1; epk.2; V.1; V.2; D.1; D.2; A.1; A.2; B.1; B.2].

Definition cpProve (secret : Z) (epk : Point) (rand : list Z) : DleqProof :=
  let V := scalarMul secret BASE8 in
  let D := scalarMul secret epk in
  let k := randScalar rand in
  let A := scalarMul k BASE8 in
  let B := scalarMul k epk in
  let e := hashToScalar CP_DOMAIN (transcript epk V D A B) in
  mkDleqProof D A B (modSub (k + e * secret)).

Definition cpVerify (V epk : Point) (proof : DleqProof) : bool :=
  if negb (inSubgroupNonId (D proof)) then false
  else
    let e := hashToScalar CP_DOMAIN (transcript epk V (D proof) (A proof) (B proof)) in
    let lhsBase := scalarMul (z proof) BASE8 in
    let rhsBase := pointAdd (A proof) (scalarMul e V) in
    let lhsEpk := scalarMul (z proof) epk in
    let rhsEpk := pointAdd (B proof) (scalarMul e (D proof)) in
    pointEq lhsBase rhsBase && pointEq lhsEpk rhsEpk.

Context {L : BabyJubjubLaws}.
Local Notation q := SUBORDER.

Lemma pointEq_gen x y : pointEq (scalarBaseMul x) (scalarBaseMul y) = bool_decide (x =[q] y).
Proof.
  apply eq_bool_prop_intro. rewrite bool_decide_spec, <- gen_eqm, <- pointEq_spec.
  by destruct (pointEq _ _).
Qed.

(** The verifier's equations on exponents. *)
Lemma cpVerify_gen v e d a b z :
  let ch := hashToScalar CP_DOMAIN (transcript (scalarBaseMul e) (scalarBaseMul v)
              (scalarBaseMul d) (scalarBaseMul a) (scalarBaseMul b)) in
  cpVerify (scalarBaseMul v) (scalarBaseMul e)
    (mkDleqProof (scalarBaseMul d) (scalarBaseMul a) (scalarBaseMul b) z)
  = bool_decide (~ (d =[q] 0)) && (bool_decide (z =[q] a + ch * v) && bool_decide (z * e =[q] b + ch * d)).
Proof.
  intros ch. unfold cpVerify. cbn [D A B Cp.z]. rewrite inSubgroupNonId_gen. fold ch.
  change (scalarMul z BASE8) with (scalarBaseMul z).
  rewrite !gen_mul, !gen_add, !pointEq_gen. by destruct (bool_decide _).
Qed.

Lemma cpVerify_honest s e rand : ~ (e =[q] 0) →
  cpVerify (scalarBaseMul s) (scalarBaseMul e) (cpProve s (scalarBaseMul e) rand)
  = bool_decide (~ (s =[q] 0)).
Proof.
  intros He. unfold cpProve. change (scalarMul ?k BASE8) with (scalarBaseMul k).
  rewrite !gen_mul, cpVerify_gen. set (ch := hashToScalar _ _).
  rewrite (bool_decide_eq_true_2 (modSub _ =[q] _)) by apply modSub_eqm.
  rewrite (bool_decide_eq_true_2 (modSub _ * e =[q] _)).
  - rewrite !andb_true_r. apply bool_decide_ext. split; intros Hn Hs; apply Hn.
    + by rewrite Hs, Z.mul_0_l.
    + by apply (eqm_mul_0 prime_q) in Hs as [|].
  - rewrite modSub_eqm. apply eqm_of_eq. ring.
Qed.

(** Completeness of the DLEQ proof, exactly: for an ephemeral key in the
    prime-order subgroup the honest proof verifies against the registered
    verification point if and only if the share is not zero. *)
Theorem cpProve_complete s e rand : ~ (e =[q] 0) →
  cpVerify (scalarMul s BASE8) (scalarBaseMul e) (cpProve s (scalarBaseMul e) rand)
  = bool_decide (~ (s =[q] 0)).
Proof. apply cpVerify_honest. Qed.

(** Soundness of the DLEQ proof: if a proof with points in the subgroup
    verifies and its [D] is not the share times the ephemeral key, then the
    hash of its transcript, which commits to every point of the proof, is the
    one residue the commitments determine. *)
Theorem cpVerify_sound v e d a b z :
  ~ (e =[q] 0) →
  let proof := mkDleqProof (scalarBaseMul d) (scalarBaseMul a) (scalarBaseMul b) z in
  cpVerify (scalarBaseMul v) (scalarBaseMul e) proof = true →
  ~ (d =[q] 0) ∧
  (D proof = scalarMul v (scalarBaseMul e) ∨
   hashToScalar CP_DOMAIN (transcript (scalarBaseMul e) (scalarBaseMul v) (D proof) (A proof) (B proof))
     =[q] (b - a * e) * @inv q (v * e - d)).
Proof.
  intros He proof. unfold proof. rewrite cpVerify_gen. cbn [D A B].
  set (ch := hashToScalar _ _). rewrite !andb_true_iff, !bool_decide_eq_true.
  intros (Hd & Hz & Hze). split; [done|].
  destruct (decide (v * e - d =[q] 0)) as [E|Hne].
  - left. rewrite gen_mul. apply gen_eqm. symmetry. by apply eqm_sub_0.
  - right. pose proof (inv_spec prime_q _ Hne) as Hinv.
    assert (E : ch * (v * e - d) =[q] b - a * e).
    { apply eqm_sub_0. rewrite Hz in Hze. apply eqm_sub_0 in Hze.
      rewrite <- Hze. apply eqm_of_eq. ring. }
    rewrite <- E, <- Z.mul_assoc, Hinv. apply eqm_of_eq. ring.
Qed.
End Cp.
End Cp.

(** ** [threshold/compliance.ts] *)
Module Compliance.
Import Bjj Shamir Hash Cp.
Section Compliance.
Context `{BabyJubjub} `{Poseidon2}.

Record Partial := mkPartial { id : Z; proof : DleqProof }.

Definition partialDecrypt (id share : Z) (ephPub : Point) (rand : list Z) :
    result TssError Partial :=
  _ ← assertInSubgroup ephPub "eph_pub";
  Ok (mkPartial id (cpProve share ephPub rand)).

(** The body of the loop of [combine], without the set of seen ids. *)
Definition accepted (ephPub : Point) (V : gmap Z Point) (p : Partial) : bool :=
  match V !! id p with
  | None => false
  | Some vi => if negb (inSubgroupNonId (D (proof p))) then false
               else cpVerify vi ephPub (proof p)
  end.

Fixpoint verify_partials (ephPub : Point) (V : gmap Z Point) (partials : list Partial)
    (seen : gset Z) : list (Z * Point) :=
  match partials with
  | [] => []
  | p :: ps =>
      if decide (id p ∈ seen) then verify_partials ephPub V ps seen
      else if negb (accepted ephPub V p) then verify_partials ephPub V ps seen
      else (id p, D (proof p)) :: verify_partials ephPub V ps ({[id p]} ∪ seen)
  end.

Fixpoint combine_loop (quorum : list Z) (verified : list (Z * Point)) (S : Point) :
    result TssError Point :=
  match verified with
  | [] => Ok S
  | (i, D) :: rest =>
      l ← lagrangeAtZero i quorum;
      combine_loop quorum rest (pointAdd S (scalarMul l D))
  end.

Definition combine (ephPub : Point) (partials : list Partial) (V : gmap Z Point) (threshold : Z) :
    result TssError Point :=
  _ ← assertInSubgroup ephPub "eph_pub";
  let verified := verify_partials ephPub V partials ∅ in
  if Z.of_nat (length verified) <? threshold
  then Err (TooFewPartials (Z.of_nat (length verified)) threshold)
  else combine_loop verified.*1 verified IDENTITY.

(** [new Fr(x)]. *)
Definition newFr (x : Z) : result TssError Z :=
  if (0 <=? x) && (x <? BN254_SCALAR_FIELD_MODULUS) then Ok x else Err (NotFieldElement x).

Definition thresholdCek (ephPub : Point) (partials : list Partial) (V : gmap Z Point)
    (threshold : Z) : result TssError Z :=
  S ← combine ephPub partials V threshold; newFr S.1.

Fixpoint robust_loop (ephPub : Point) (V : gmap Z Point) (t : Z) (ps : list Partial)
    (good : list Partial) (excluded : list Z) (seen : gset Z) : list Partial * list Z :=
  match ps with
  | [] => (good, excluded)
  | p :: ps =>
      if decide (id p ∈ seen) then robust_loop ephPub V t ps good excluded seen
      else if accepted ephPub V p
      then robust_loop ephPub V t ps
             (if Z.of_nat (length good) <? t then good ++ [p] else good)
             excluded ({[id p]} ∪ seen)
      else robust_loop ephPub V t ps good (excluded ++ [id p]) seen
  end.

Record RobustCek := mkRobust { cek : Z; used : list Z; excluded : list Z }.

Definition thresholdCekRobust (ephPub : Point) (allPartials : list Partial) (V : gmap Z Point)
    (t : Z) : result TssError RobustCek :=
  _ ← assertInSubgroup ephPub "eph_pub";
  let '(good, excluded) := robust_loop ephPub V t allPartials [] [] ∅ in
  if Z.of_nat (length good) <? t then Err (TooFewPartials (Z.of_nat (length good)) t)
  else cek ← thresholdCek ephPub good V t;
       Ok (mkRobust cek (id <$> good) excluded).

(** *** Correctness *)
Context {L : BabyJubjubLaws}.
Local Notation q := SUBORDER.

(** The committee: the registered points are those of the shares of [f], and
    identifiers are reduced. *)
Definition committee (f : list Z) (V : gmap Z Point) : Prop :=
  ∀ i vi, V !! i = Some vi → 0 <= i < q ∧ vi = scalarBaseMul (peval f i).
(** Every accepted partial carries the share of its identifier times the
    ephemeral key (what [cpVerify] certifies, see [Cp.cpVerify_sound]). *)
Definition certified (f : list Z) (V : gmap Z Point) (eph : Point) (ps : list Partial) : Prop :=
  Forall (λ p, accepted eph V p = true → D (proof p) = scalarMul (peval f (id p)) eph) ps.
(** The committee members that sent an acceptable partial. *)
Definition contributors (eph : Point) (V : gmap Z Point) (ps : list Partial) : gset Z :=
  list_to_set (id <$> filter (λ p, accepted eph V p = true) ps).

Lemma contributors_cons eph V p ps :
  contributors eph V (p :: ps)
  = (if accepted eph V p then {[id p]} else ∅) ∪ contributors eph V ps.
Proof.
  unfold contributors. rewrite filter_cons. destruct (accepted eph V p) eqn:E.
  - rewrite decide_True by done. done.
  - rewrite decide_False by done. set_solver.
Qed.

Lemma verify_partials_spec eph V ps f seen :
  certified f V eph ps →
  let vs := verify_partials eph V ps seen in
  NoDup vs.*1 ∧ list_to_set vs.*1 = contributors eph V ps ∖ seen ∧
  Forall (λ v, v.2 = scalarMul (peval f v.1) eph ∧ is_Some (V !! v.1)) vs.
Proof.
  intros Hcert. revert seen. induction Hcert as [|p ps Hp _ IH]; intros seen.
  { split_and!; [constructor|set_solver|constructor]. }
  cbn [verify_partials]. rewrite contributors_cons. case_decide as Hin.
  { destruct (IH seen) as (H1 & H2 & H3). split_and!; [done| |done]. rewrite H2.
    destruct (accepted eph V p); set_solver. }
  destruct (accepted eph V p) eqn:Ha; cbn [negb].
  2: { destruct (IH seen) as (H1 & H2 & H3). split_and!; [done| |done]. rewrite H2. set_solver. }
  destruct (IH ({[id p]} ∪ seen)) as (H1 & H2 & H3). rewrite fmap_cons. cbn [fst].
  split_and!.
  - constructor; [|done]. rewrite <- (elem_of_list_to_set (C:=gset Z)), H2. set_solver.
  - cbn [list_to_set]. rewrite H2. apply set_eq. intros x.
    destruct (decide (x = id p)) as [->|]; set_solver.
  - constructor; [|done]. cbn [fst snd]. split; [by apply Hp|].
    unfold accepted in Ha. destruct (V !! id p); [by eexists|done].
Qed.

Lemma combine_loop_spec e f quorum vs s :
  Forall (λ v, v.2 = scalarMul (peval f v.1) (scalarBaseMul e)) vs →
  combine_loop quorum vs (scalarBaseMul s)
  = Ok (scalarBaseMul (s + e * sumZ (λ i, @lambda q i quorum * peval f i) vs.*1)).
Proof.
  intros Hvs. revert s. induction Hvs as [|[i d] vs Hd _ IH]; intros s.
  { simpl. do 2 f_equal. lia. }
  cbn [fst snd] in Hd. subst d. cbn [combine_loop].
  destruct (lagrangeAtZero_lambda i quorum) as (l & -> & Hl). cbn [mbind result_bind].
  rewrite !gen_mul, gen_add, IH, fmap_cons, sumZ_cons. f_equal. apply gen_eqm. cbn [fst].
  rewrite Hl. apply eqm_of_eq. ring.
Qed.

Section recovery.
Context (f : list Z) (V : gmap Z Point) (e : Z).
Context (HV : committee f V) (He : ~ (e =[q] 0)).
Local Notation eph := (scalarBaseMul e).

(** [combine] below and above the threshold. *)
Lemma combine_spec ps t : certified f V eph ps → Z.of_nat (length f) <= t →
  let n := Z.of_nat (size (contributors eph V ps)) in
  combine eph ps V t
  = if n <? t then Err (TooFewPartials n t) else Ok (scalarMul (peval f 0) eph).
Proof.
  intros Hc Ht n. unfold combine. rewrite assertInSubgroup_gen by done. cbn [mbind result_bind].
  destruct (verify_partials_spec eph V ps f ∅ Hc) as (Hnd & Hset & Hall).
  set (vs := verify_partials eph V ps ∅) in *.
  assert (Hn : Z.of_nat (length vs) = n).
  { unfold n. rewrite difference_empty_L in Hset. rewrite <- Hset, size_list_to_set by done.
    by rewrite length_fmap. }
  rewrite Hn. destruct (Z.ltb_spec n t) as [|Hle]; [done|].
  rewrite <- gen_zero, (combine_loop_spec e f), gen_mul.
  2: { eapply Forall_impl; [exact Hall|]. by intros v [? _]. }
  f_equal. apply gen_eqm. rewrite (lagrange_zero prime_q); [apply eqm_of_eq; ring| |].
  - apply distinct_bounded; [done|]. intros i (v & -> & Hv)%list_elem_of_fmap.
    rewrite Forall_forall in Hall. destruct (Hall v Hv) as [_ [vi Hvi]]. by eapply HV.
  - rewrite length_fmap. lia.
Qed.

Lemma newFr_gen x : newFr (scalarBaseMul x).1 = Ok (scalarBaseMul x).1.
Proof.
  destruct (gen_canonical x) as [Hx _]. unfold newFr.
  by rewrite (proj2 (Z.leb_le _ _)), (proj2 (Z.ltb_lt _ _)) by lia.
Qed.

Lemma thresholdCek_spec ps t : certified f V eph ps → Z.of_nat (length f) <= t →
  let n := Z.of_nat (size (contributors eph V ps)) in
  thresholdCek eph ps V t
  = if n <? t then Err (TooFewPartials n t) else Ok (scalarMul (peval f 0) eph).1.
Proof.
  intros Hc Ht n. unfold thresholdCek. rewrite combine_spec by done. fold n.
  destruct (n <? t); [done|]. cbn [mbind result_bind]. by rewrite gen_mul, newFr_gen.
Qed.

(** What the selection loop keeps: the first [t] members that sent an
    acceptable partial, and the rejected ones. *)
Definition robust_inv (ps : list Partial) (t : Z) (good : list Partial) (excl : list Z)
    (seen : gset Z) : Prop :=
  NoDup (id <$> good) ∧ Z.of_nat (length good) = Z.min t (Z.of_nat (size seen)) ∧
  (list_to_set (id <$> good) : gset Z) ⊆ seen ∧
  Forall (λ p, p ∈ ps ∧ accepted eph V p = true) good ∧
  Forall (λ i, ∃ p, p ∈ ps ∧ id p = i ∧ accepted eph V p = false) excl.

Lemma robust_loop_spec all t ps good excl seen : ps ⊆ all →
  robust_inv all t good excl seen →
  let '(good', excl') := robust_loop eph V t ps good excl seen in
  robust_inv all t good' excl' (seen ∪ contributors eph V ps).
Proof.
  revert good excl seen. induction ps as [|p ps IH]; intros good excl seen Hsub Hinv.
  { cbn. by rewrite union_empty_r_L. }
  assert (Hp : p ∈ all) by (apply Hsub; left).
  assert (Hsub' : ps ⊆ all) by (intros x Hx; apply Hsub; by right).
  cbn [robust_loop]. rewrite contributors_cons. case_decide as Hin.
  { assert (E : seen ∪ ((if accepted eph V p then {[id p]} else ∅) ∪ contributors eph V ps)
      = seen ∪ contributors eph V ps) by (destruct (accepted eph V p); set_solver).
    rewrite E. by apply IH. }
  destruct Hinv as (H1 & H2 & H3 & H4 & H5). destruct (accepted eph V p) eqn:Ha.
  - rewrite union_assoc_L, (union_comm_L seen). apply IH; [done|].
    assert (Hsz : size ({[id p]} ∪ seen) = S (size seen))
      by (rewrite size_union, size_singleton by set_solver; done).
    unfold robust_inv. rewrite Hsz. destruct (Z.ltb_spec (Z.of_nat (length good)) t).
    + rewrite fmap_app, length_app, list_to_set_app_L. cbn [fmap list_fmap length list_to_set].
      split_and!; [|lia|set_solver| |done].
      * apply NoDup_app. split_and!; [done| |apply NoDup_singleton].
        intros x Hx ->%list_elem_of_singleton. apply Hin, H3. by apply elem_of_list_to_set.
      * apply Forall_app. split; [done|]. by repeat constructor.
    + split_and!; [done|lia|set_solver|done|done].
  - rewrite union_empty_l_L. apply IH; [done|]. split_and!; [done..|].
    apply Forall_app. split; [done|]. repeat constructor. eauto.
Qed.

Lemma contributors_all ps : Forall (λ p, accepted eph V p = true) ps →
  NoDup (id <$> ps) → size (contributors eph V ps) = length ps.
Proof.
  intros Ha Hd. unfold contributors.
  assert (filter (λ p, accepted eph V p = true) ps = ps) as ->.
  { clear Hd. induction Ha as [|p ps Hp _ IH]; [done|].
    by rewrite filter_cons, decide_True, IH by done. }
  rewrite size_list_to_set by done. apply length_fmap.
Qed.

(** C17. Committee decryption: with at least as many shares required as the
    polynomial has coefficients, [combine] returns the ephemeral key times the
    group secret, whatever the order of the partials and however often one is
    repeated, exactly when enough different members sent an acceptable partial,
    and otherwise throws with their number.  An accepted partial is supposed to
    be right ([certified]: the proof of equal logarithms it carries is sound). *)
Theorem combine_threshold ps t : certified f V eph ps → Z.of_nat (length f) <= t →
  let n := Z.of_nat (size (contributors eph V ps)) in
  combine eph ps V t
  = if n <? t then Err (TooFewPartials n t) else Ok (scalarMul (peval f 0) eph).
Proof. apply combine_spec. Qed.

(** Robust decryption: it fails exactly when fewer than [t] members sent
    an acceptable partial; otherwise it returns the content key of the group
    secret, names [t] different members among them as used, and excludes only
    identifiers of which a partial was rejected. *)
Theorem thresholdCekRobust_spec ps t :
  certified f V eph ps → Z.of_nat (length f) <= t →
  let n := Z.of_nat (size (contributors eph V ps)) in
  if n <? t then thresholdCekRobust eph ps V t = Err (TooFewPartials n t)
  else ∃ used excl,
    thresholdCekRobust eph ps V t = Ok (mkRobust (scalarMul (peval f 0) eph).1 used excl) ∧
    NoDup used ∧ Z.of_nat (length used) = t ∧
    list_to_set used ⊆ contributors eph V ps ∧
    ∀ i, i ∈ excl → ∃ p, p ∈ ps ∧ id p = i ∧ accepted eph V p = false.
Proof.
  intros Hc Ht n. unfold thresholdCekRobust.
  rewrite assertInSubgroup_gen by done. cbn [mbind result_bind].
  pose proof (robust_loop_spec ps t ps [] [] ∅ ltac:(done)) as Hloop.
  destruct (robust_loop eph V t ps [] [] ∅) as [good excl].
  destruct Hloop as (H1 & H2 & H3 & H4 & H5).
  { split_and!; [constructor|rewrite size_empty; simpl; lia|set_solver|constructor..]. }
  rewrite union_empty_l_L in *. fold n in H2. rewrite H2.
  destruct (Z.ltb_spec n t).
  { by rewrite Z.min_r, (proj2 (Z.ltb_lt _ _)) by lia. }
  rewrite Z.min_l, Z.ltb_irrefl by lia. rewrite Forall_and in H4. destruct H4 as [H4 H4'].
  assert (Hcg : certified f V eph good).
  { unfold certified in *. rewrite Forall_forall in Hc. eapply Forall_impl; [exact H4|]. auto. }
  rewrite thresholdCek_spec by done.
  rewrite (contributors_all good) by done. rewrite H2, Z.min_l, Z.ltb_irrefl by lia.
  cbn [mbind result_bind]. eexists _, _. split; [reflexivity|].
  rewrite length_fmap, H2. split_and!; [done|lia|done|]. by apply Forall_forall.
Qed.
End recovery.
End Compliance.
End Compliance.

(** ** [groupSecret.ts] *)
Module GroupSecret.
Import Hash.
Section GroupSecret.
(** [sha256] of [@noble/hashes]. *)
Context `{Poseidon2} (sha256 : list Z → list Z).

Definition GROUP_VIEW_CONTRIBUTION_BYTES : nat := 32.

Record GroupViewContribution := mkGvc { index : Z; r : list Z }.

Inductive GvsError := No_contribution | Wrong_length (index : Z) (n : nat) | Duplicate (index : Z).

Fixpoint check_loop (contribs : list GroupViewContribution) (seen : gset Z) : result GvsError unit :=
  match contribs with
  | [] => Ok tt
  | c :: cs =>
      if negb (length (r c) =? GROUP_VIEW_CONTRIBUTION_BYTES)%nat
      then Err (Wrong_length (index c) (length (r c)))
      else if decide (index c ∈ seen) then Err (Duplicate (index c))
      else check_loop cs ({[index c]} ∪ seen)
  end.

Definition assertContributions (contribs : list GroupViewContribution) :
    result GvsError (list GroupViewContribution) :=
  if (length contribs =? 0)%nat then Err No_contribution
  else _ ← check_loop contribs ∅;
       Ok (js_sort (λ a b, index a - index b) contribs).

Definition combineGroupViewContributions (contribs : list GroupViewContribution) (gpk : Point) :
    result GvsError Z :=
  sorted ← assertContributions contribs;
  let digest := sha256 (mjoin (r <$> sorted)) in
  let hFr := Z.rem (of_be digest) BN254_SCALAR_FIELD_MODULUS in
  Ok (poseidon2 [GROUP_VIEW_DOMAIN; gpk.1; gpk.2; hFr]).

(** What the checks accept. *)
Definition valid (contribs : list GroupViewContribution) : Prop :=
  contribs ≠ [] ∧ Forall (λ c, length (r c) = GROUP_VIEW_CONTRIBUTION_BYTES) contribs ∧
  NoDup (index <$> contribs).

#[local] Instance valid_proper : Proper ((≡ₚ) ==> iff) valid.
Proof.
  intros l l' Hp. unfold valid.
  set (P := λ c, length (r c) = GROUP_VIEW_CONTRIBUTION_BYTES).
  assert (Forall P l ↔ Forall P l') by (by rewrite Hp).
  assert (NoDup (index <$> l) ↔ NoDup (index <$> l')) by (by rewrite Hp).
  assert (l = [] ↔ l' = []); [|tauto].
  split; intros ->; [by apply Permutation_nil_l in Hp|by apply Permutation_nil_r in Hp].
Qed.

Lemma check_loop_spec contribs seen :
  is_ok (check_loop contribs seen) = true ↔
  Forall (λ c, length (r c) = GROUP_VIEW_CONTRIBUTION_BYTES) contribs ∧
  NoDup (index <$> contribs) ∧ ∀ c, c ∈ contribs → index c ∉ seen.
Proof.
  revert seen. induction contribs as [|c cs IH]; intros seen; cbn [check_loop].
  { split; [|done]. intros _. split_and!; [constructor|constructor|by intros ? ?%not_elem_of_nil]. }
  rewrite fmap_cons, NoDup_cons, Forall_cons.
  destruct (Nat.eqb_spec (length (r c)) GROUP_VIEW_CONTRIBUTION_BYTES) as [El|Nl]; cbn [negb].
  2: { split; [done|]. intros ([? _] & _). done. }
  case_decide as Hin.
  { split; [done|]. intros (_ & _ & Hs). exfalso. apply (Hs c); [left|done]. }
  rewrite IH. setoid_rewrite elem_of_cons. setoid_rewrite not_elem_of_union.
  setoid_rewrite not_elem_of_singleton. rewrite list_elem_of_fmap. split.
  - intros (H1 & H2 & H3). split_and!; [done|done| |done|].
    + intros (d & E & Hd). by destruct (H3 d Hd) as [? _].
    + intros d [->|Hd]; [done|]. by apply H3.
  - intros ([_ H1] & [Hn H2] & H3). split_and!; [done|done|]. intros d Hd.
    split; [|apply H3; by right]. intros E. apply Hn. eauto.
Qed.

(** Two orders of contributions with different indexes sort to the same list. *)
Lemma sort_unique (l l' : list GroupViewContribution) :
  l ≡ₚ l' → NoDup (index <$> l) →
  js_sort (λ a b, index a - index b) l = js_sort (λ a b, index a - index b) l'.
Proof.
  intros Hp Hnd. set (cmp := λ a b, index a - index b).
  apply (StronglySorted_unique_strong (λ a b, cmp a b <= 0)).
  - intros a b Ha Hb H1 H2. rewrite !js_sort_perm in Ha, Hb.
    apply (NoDup_fmap_inj_on index l); [done|done|by rewrite Hp|unfold cmp in *; lia].
  - apply js_sort_sorted; unfold cmp; lia.
  - apply js_sort_sorted; unfold cmp; lia.
  - by rewrite !js_sort_perm.
Qed.

Lemma assertContributions_spec contribs :
  (is_ok (assertContributions contribs) = true ↔ valid contribs) ∧
  (valid contribs → assertContributions contribs = Ok (js_sort (λ a b, index a - index b) contribs)).
Proof.
  unfold assertContributions, valid. destruct contribs as [|c cs]; [naive_solver|]. cbn [length Nat.eqb].
  pose proof (check_loop_spec (c :: cs) ∅) as Hloop.
  destruct (check_loop (c :: cs) ∅) as [[]|e]; cbn [mbind result_bind is_ok] in *.
  - split; [|done]. split; [|done]. intros _. destruct (proj1 Hloop eq_refl) as (H1 & H2 & _).
    split_and!; done.
  - assert (Hn : ~ (Forall (λ c, length (r c) = GROUP_VIEW_CONTRIBUTION_BYTES) (c :: cs) ∧
                    NoDup (index <$> c :: cs))).
    { intros [H1 H2]. enough (false = true) by done. apply Hloop.
      split_and!; [done|done|set_solver]. }
    split; [split; [done|]|]; intros (_ & H1 & H2); exfalso; by apply Hn.
Qed.

(** Every member computes the same group view secret: contributions that
    are 32 bytes each and of different members are accepted, in any other case
    all members reject, and the order of arrival does not matter. *)
Theorem combineGroupViewContributions_order contribs contribs' gpk :
  contribs ≡ₚ contribs' →
  (is_ok (combineGroupViewContributions contribs gpk) = true ↔ valid contribs) ∧
  (is_ok (combineGroupViewContributions contribs' gpk)
   = is_ok (combineGroupViewContributions contribs gpk)) ∧
  (valid contribs →
   combineGroupViewContributions contribs' gpk = combineGroupViewContributions contribs gpk).
Proof.
  intros Hp. assert (Hv : valid contribs ↔ valid contribs') by (by rewrite Hp).
  assert (Hok : ∀ cs, is_ok (combineGroupViewContributions cs gpk) = is_ok (assertContributions cs))
    by (intros cs; unfold combineGroupViewContributions; by destruct (assertContributions cs)).
  destruct (assertContributions_spec contribs) as [H1 H1'].
  destruct (assertContributions_spec contribs') as [H2 H2'].
  rewrite !Hok. split_and!; [done| |].
  - apply eq_bool_prop_intro. rewrite !Is_true_true. tauto.
  - intros Hc. unfold combineGroupViewContributions. rewrite H1', H2' by tauto.
    rewrite (sort_unique contribs contribs') by (destruct Hc; tauto). done.
Qed.
End GroupSecret.
End GroupSecret.

(** ** Witnesses: the toy committee of [5 + 3 x] *)
Module ComplianceWitness.
Import Bjj Shamir Hash Cp Compliance GroupSecret.
#[local] Existing Instance ToyCurve.toy_curve.
#[local] Existing Instance ToyCurve.toy_laws.
#[local] Existing Instance DkgWitness.toy_hash.

Lemma not_zero (e : Z) : bool_decide (e mod 13 = 0) = false → ~ (e =[SUBORDER] 0).
Proof. intros Hb. rewrite eqm_iff. by apply bool_decide_eq_false in Hb. Qed.

Lemma cpProve_complete_witness :
  cpVerify (scalarMul 8 BASE8) (scalarBaseMul 4) (cpProve 8 (scalarBaseMul 4) [77]) = true.
Proof.
  refine (eq_trans (cpProve_complete 8 4 [77] _) _); [|reflexivity]. by apply not_zero.
Defined.

Lemma cpVerify_sound_witness :
  ~ (32 =[SUBORDER] 0) ∧ (scalarBaseMul 32 = scalarMul 8 (scalarBaseMul 4) ∨
  hashToScalar CP_DOMAIN (transcript (scalarBaseMul 4) (scalarBaseMul 8) (scalarBaseMul 32)
    (scalarBaseMul 6) (scalarBaseMul 24)) =[SUBORDER] (24 - 6 * 4) * @inv SUBORDER (8 * 4 - 32)).
Proof.
  apply (cpVerify_sound 8 4 32 6 24 (z (cpProve 8 (scalarBaseMul 4) [77]))).
  - by apply not_zero.
  - vm_compute. reflexivity.
Defined.

Definition toy_V : gmap Z Point :=
  {[1 := scalarBaseMul 8; 2 := scalarBaseMul 11; 3 := scalarBaseMul 14]}.
Definition honest_partial (i s : Z) : Partial := mkPartial i (cpProve s (scalarBaseMul 4) [i]).
(** Member 1 twice, a stranger, and a wrong share of member 2. *)
Definition toy_partials : list Partial :=
  [honest_partial 2 9; honest_partial 1 8; honest_partial 7 8; honest_partial 1 8; honest_partial 3 14].

Lemma toy_committee : committee [5; 3] toy_V.
Proof.
  intros i vi. unfold toy_V. rewrite !lookup_insert_Some, lookup_singleton_Some.
  intros [[<- <-]|[_ [[<- <-]|[_ [<- <-]]]]]; by vm_compute.
Qed.
Lemma toy_certified : certified [5; 3] toy_V (scalarBaseMul 4) toy_partials.
Proof. repeat constructor; intros Ha; first [reflexivity|vm_compute in Ha; discriminate Ha]. Qed.

Lemma combine_threshold_witness :
  combine (scalarBaseMul 4) toy_partials toy_V 2 = Ok (scalarBaseMul 20).
Proof.
  refine (eq_trans (combine_threshold [5; 3] toy_V 4 toy_committee _ toy_partials 2 toy_certified _) _).
  - by apply not_zero.
  - done.
  - vm_compute. reflexivity.
Defined.

Lemma thresholdCekRobust_spec_witness : ∃ used excl,
  thresholdCekRobust (scalarBaseMul 4) toy_partials toy_V 2 = Ok (mkRobust 7 used excl) ∧
  list_to_set used ⊆ contributors (scalarBaseMul 4) toy_V toy_partials.
Proof.
  pose proof (thresholdCekRobust_spec [5; 3] toy_V 4 toy_committee ltac:(by apply not_zero)
    toy_partials 2 toy_certified ltac:(done)) as Hspec.
  cbv zeta in Hspec. case_match eqn:E; [vm_compute in E; discriminate E|].
  destruct Hspec as (used & excl & H1 & _ & _ & H2 & _). exists used, excl. split; [exact H1|exact H2].
Defined.

Definition toy_gvcs : list GroupViewContribution :=
  [mkGvc 2 (replicate 32 9); mkGvc 1 (replicate 32 4)].

Lemma combineGroupViewContributions_order_witness :
  combineGroupViewContributions (fmap (λ b, Z.rem b 7)) (reverse toy_gvcs) (3, 1)
  = combineGroupViewContributions (fmap (λ b, Z.rem b 7)) toy_gvcs (3, 1).
Proof.
  apply (combineGroupViewContributions_order (fmap (λ b, Z.rem b 7)) toy_gvcs (reverse toy_gvcs)).
  - symmetry. apply reverse_Permutation.
  - split_and!; [done|repeat constructor|]. apply (bool_decide_unpack _). by vm_compute.
Defined.
End ComplianceWitness.
