(* ===== verification/Frost.v ===== *)
(** * FROST threshold signing ([packages/sdk/src/frost])

    [Frost] is the two-round protocol of [frost.ts] over an abstract
    [Ciphersuite] (the interface of [ciphersuite.ts], with its group laws),
    [BjjSuite] the production instance of [ciphersuites/bjj.ts]. *)
From S2P Require Import Prelude Bytes Zq Tss Dkg.
Local Open Scope Z_scope.

(** ** [ciphersuite.ts] *)
Record Commitment (G : Type) := mkCommitment { id : Z; D : G; E : G }.
Arguments mkCommitment {G}.
Arguments id {G}.
Arguments D {G}.
Arguments E {G}.

Class Ciphersuite (G : Type) := {
  name : string;
  generator : G;
  identity : G;
  add : G → G → G;
  scalarMul : Z → G → G;
  negate : G → G;
  eq : G → G → bool;
  order : Z;
  nonceScalar : list Z → Z → Z;
  bindingFactor : G → list Z → list (Commitment G) → Z → Z;
  challenge : G → G → list Z → Z;
}.

(** What the protocol relies on: the multiples of [generator] form a group of
    prime order [order]. *)
Class CiphersuiteLaws (G : Type) `{Ciphersuite G} : Prop := {
  order_prime : Z.prime order;
  gen_identity : scalarMul 0 generator = identity;
  gen_add a b : add (scalarMul a generator) (scalarMul b generator) = scalarMul (a + b) generator;
  gen_mul k a : scalarMul k (scalarMul a generator) = scalarMul (k * a) generator;
  gen_proper a b : a =[order] b → scalarMul a generator = scalarMul b generator;
  gen_eq a b : eq (scalarMul a generator) (scalarMul b generator) = bool_decide (a =[order] b);
}.

(** ** [frost.ts] *)
Module Frost.

Inductive FrostError :=
  | Nonce_reused | No_inverse | Missing_binding_factor (id : Z) | Not_in_list (id : Z)
  | Duplicate_share (id : Z) | Below_threshold (n t : Z) | Share_failed (id : Z).

Record Signature (G : Type) := mkSignature { R : G; z : Z }.
Arguments mkSignature {G}.
Arguments R {G}.
Arguments z {G}.

Definition modulo (x m : Z) : Z := Z.rem (Z.rem x m + m) m.

Fixpoint euclid_loop (fuel : nat) (old_r r old_s s : Z) : option (Z * Z) :=
  if r =? 0 then Some (old_r, old_s)
  else match fuel with
       | O => None
       | S fuel => let q := Z.quot old_r r in euclid_loop fuel r (old_r - q * r) s (old_s - q * s)
       end.
(** The product of the remainders at least halves each round after the first. *)
Definition euclid_fuel (m : Z) : nat := Z.to_nat (2 * Z.log2 m + 4).

Definition modInverse (x m : Z) : result FrostError Z :=
  match euclid_loop (euclid_fuel m) (modulo x m) m 1 0 with
  | Some (old_r, old_s) => if negb (old_r =? 1) then Err No_inverse else Ok (modulo old_s m)
  | None => Err No_inverse
  end.

Lemma modulo_mod x m : 0 < m → modulo x m = x mod m.
Proof.
  intros Hm. unfold modulo. pose proof (Z.rem_bound_abs x m ltac:(lia)).
  rewrite Z.rem_mod_nonneg by lia. rewrite <- (Z.mul_1_l m) at 2. rewrite Z.mod_add by lia.
  apply eqm_iff. exists (- Z.quot x m). pose proof (Z.quot_rem' x m). lia.
Qed.

(** The loop ends within its fuel, with the gcd and a Bezout coefficient. *)
Lemma euclid_loop_spec m x fuel : ∀ old_r r old_s s,
  0 <= r <= old_r → old_r * r < 2 ^ Z.of_nat fuel →
  old_s * x =[m] old_r → s * x =[m] r →
  ∃ s', euclid_loop fuel old_r r old_s s = Some (Z.gcd old_r r, s') ∧
    s' * x =[m] Z.gcd old_r r.
Proof.
  induction fuel as [|fuel IH]; intros old_r r old_s s Hr Hp Hos Hs; cbn [euclid_loop];
    destruct (Z.eqb_spec r 0) as [->|Hr0].
  1, 3: exists old_s; rewrite Z.gcd_0_r, Z.abs_eq by lia; done.
  { change (2 ^ Z.of_nat 0) with 1 in Hp. nia. }
  assert (Hq : old_r - Z.quot old_r r * r = old_r mod r).
  { rewrite Z.quot_div_nonneg by lia. pose proof (Z.div_mod old_r r Hr0). lia. }
  pose proof (Z.mod_pos_bound old_r r ltac:(lia)) as Hb.
  pose proof (Z.div_mod old_r r Hr0) as Hdm.
  assert (1 <= old_r / r) by (apply Z.div_le_lower_bound; lia).
  destruct (IH r (old_r mod r) s (old_s - Z.quot old_r r * s)) as (s' & E' & Hs').
  - lia.
  - rewrite Nat2Z.inj_succ, Z.pow_succ_r in Hp by lia. nia.
  - done.
  - rewrite <- Hq, Z.mul_sub_distr_r, Hos, <- Z.mul_assoc, Hs. done.
  - exists s'. rewrite Hq. rewrite (Z.gcd_comm old_r r), <- (Z.gcd_mod old_r r) by done.
    rewrite Z.gcd_comm. by rewrite E'.
Qed.

Lemma modInverse_gcd x m : 1 < m →
  if decide (Z.gcd x m = 1)
  then ∃ y, modInverse x m = Ok y ∧ 0 <= y < m ∧ x * y =[m] 1
  else modInverse x m = Err No_inverse.
Proof.
  intros Hm. unfold modInverse. rewrite modulo_mod by lia.
  pose proof (Z.mod_pos_bound x m ltac:(lia)) as Hb.
  assert (Hlog : m < 2 ^ (Z.log2 m + 1)) by (apply Z.log2_spec; lia).
  pose proof (Z.log2_nonneg m).
  assert (Hfuel : euclid_fuel m = S (Z.to_nat (2 * Z.log2 m + 3))) by (unfold euclid_fuel; lia).
  rewrite Hfuel. cbn [euclid_loop]. rewrite (proj2 (Z.eqb_neq m 0)) by lia.
  rewrite Z.quot_small by lia. rewrite !Z.mul_0_l, !Z.sub_0_r.
  destruct (euclid_loop_spec m x (Z.to_nat (2 * Z.log2 m + 3)) m (x mod m) 0 1) as (s & -> & Hs).
  - lia.
  - rewrite Z2Nat.id by lia.
    replace (2 * Z.log2 m + 3) with ((Z.log2 m + 1) + (Z.log2 m + 1) + 1) by lia.
    rewrite !Z.pow_add_r in * by lia. nia.
  - apply eqm_iff. by rewrite Z.mul_0_l, Z_mod_same_full.
  - rewrite Z.mul_1_l. symmetry. apply eqm_mod.
  - assert (Hgcd : Z.gcd m (x mod m) = Z.gcd x m)
      by (by rewrite Z.gcd_comm, Z.gcd_mod, Z.gcd_comm by lia).
    rewrite Hgcd in *. destruct (Z.eqb_spec (Z.gcd x m) 1) as [Hg|Hg]; cbn [negb].
    + rewrite decide_True by done. exists (modulo s m). split; [done|].
      rewrite modulo_mod by lia. pose proof (Z.mod_pos_bound s m ltac:(lia)).
      split; [lia|].
      rewrite (eqm_mod m s), Z.mul_comm, Hs. by rewrite Hg.
    + by rewrite decide_False.
Qed.

(** [modInverse] terminates within its bound and is exact: it returns the
    inverse in range when the argument is coprime to the modulus, and throws
    precisely when it is not. *)
Theorem modInverse_spec x m : 1 < m →
  if decide (Z.gcd x m = 1)
  then ∃ y, modInverse x m = Ok y ∧ 0 <= y < m ∧ x * y =[m] 1
  else modInverse x m = Err No_inverse.
Proof. apply modInverse_gcd. Qed.

Section Frost.
Context {G : Type} `{Ciphersuite G}.

(** The one-time nonces of a signer; the handle is a mutable object. *)
Record NonceHandle := mkHandle { d : Z; e : Z; consumed : bool }.

Definition markConsumed : M NonceHandle FrostError unit :=
  h ← get;
  if consumed h then throw Nonce_reused else modify (λ h, mkHandle (d h) (e h) true).

Definition id_cmp (a b : Commitment G) : Z :=
  if id a <? id b then -1 else if id b <? id a then 1 else 0.
Definition sortById (commitments : list (Commitment G)) : list (Commitment G) :=
  js_sort id_cmp commitments.

Definition commit (id secret : Z) (hidingRandom bindingRandom : list Z) :
    NonceHandle * Commitment G :=
  let d := nonceScalar hidingRandom secret in
  let e := nonceScalar bindingRandom secret in
  (mkHandle d e false, mkCommitment id (scalarMul d generator) (scalarMul e generator)).

Definition bindingFactors (gpk : G) (msg : list Z) (commitments : list (Commitment G)) : gmap Z Z :=
  let sorted := sortById commitments in
  foldl (λ out c, <[id c := bindingFactor gpk msg sorted (id c)]> out) ∅ sorted.

Fixpoint commitment_loop (rhos : gmap Z Z) (cs : list (Commitment G)) (R : G) : result FrostError G :=
  match cs with
  | [] => Ok R
  | c :: cs =>
      match rhos !! id c with
      | None => Err (Missing_binding_factor (id c))
      | Some rho => commitment_loop rhos cs (add R (add (D c) (scalarMul rho (E c))))
      end
  end.
Definition groupCommitment (commitments : list (Commitment G)) (rhos : gmap Z Z) : result FrostError G :=
  commitment_loop rhos (sortById commitments) identity.

Fixpoint lagrange_loop (m id : Z) (signerSet : list Z) (num den : Z) : Z * Z :=
  match signerSet with
  | [] => (num, den)
  | j :: rest =>
      if j =? id then lagrange_loop m id rest num den
      else lagrange_loop m id rest (modulo (num * modulo j m) m) (modulo (den * modulo (j - id) m) m)
  end.
Definition lagrangeCoefficient (id : Z) (signerSet : list Z) : result FrostError Z :=
  let m := order in
  let '(num, den) := lagrange_loop m id signerSet 1 1 in
  inv ← modInverse den m;
  Ok (modulo (num * inv) m).

Definition signShareUnchecked (sid nonce_d nonce_e secretShare : Z) (gpk : G) (msg : list Z)
    (commitments : list (Commitment G)) : result FrostError Z :=
  let m := order in
  let signerSet := id <$> commitments in
  let rhos := bindingFactors gpk msg commitments in
  R ← groupCommitment commitments rhos;
  let c := challenge R gpk msg in
  lambda ← lagrangeCoefficient sid signerSet;
  match rhos !! sid with
  | None => Err (Not_in_list sid)
  | Some rho =>
      Ok (modulo (nonce_d + modulo (nonce_e * rho) m
                  + modulo (modulo (lambda * secretShare) m * c) m) m)
  end.

Definition signShare (sid secretShare : Z) (gpk : G) (msg : list Z)
    (commitments : list (Commitment G)) : M NonceHandle FrostError Z :=
  _ ← markConsumed;
  h ← get;
  lift (λ err, err) (signShareUnchecked sid (d h) (e h) secretShare gpk msg commitments).

Definition verifySignatureShare (sid zShare : Z) (publicShare gpk : G) (msg : list Z)
    (commitments : list (Commitment G)) : result FrostError bool :=
  let m := order in
  let signerSet := id <$> commitments in
  let rhos := bindingFactors gpk msg commitments in
  R ← groupCommitment commitments rhos;
  let c := challenge R gpk msg in
  match list_find (λ k, id k = sid) commitments with
  | None => Ok false
  | Some (_, commitment) =>
      (* [rhos.get(id)!]: the map has every identifier of the list *)
      let rho := default 0 (rhos !! sid) in
      lambda ← lagrangeCoefficient sid signerSet;
      let lhs := scalarMul zShare generator in
      let commShare := add (D commitment) (scalarMul rho (E commitment)) in
      let rhs := add commShare (scalarMul (modulo (c * lambda) m) publicShare) in
      Ok (eq lhs rhs)
  end.

Definition aggregate (R : G) (zShares : list Z) : Signature G :=
  mkSignature R (foldl (λ z zi, modulo (z + zi) order) 0 zShares).

Record PartialSig := mkPartialSig { sig_id : Z; sig_z : Z; publicShare : G }.

Fixpoint dup_check (partials : list PartialSig) (seen : gset Z) : result FrostError (gset Z) :=
  match partials with
  | [] => Ok seen
  | s :: rest => if decide (sig_id s ∈ seen) then Err (Duplicate_share (sig_id s))
                 else dup_check rest ({[sig_id s]} ∪ seen)
  end.
Fixpoint check_shares (gpk : G) (msg : list Z) (commitments : list (Commitment G))
    (partials : list PartialSig) : result FrostError unit :=
  match partials with
  | [] => Ok tt
  | s :: rest =>
      ok ← verifySignatureShare (sig_id s) (sig_z s) (publicShare s) gpk msg commitments;
      if negb ok then Err (Share_failed (sig_id s)) else check_shares gpk msg commitments rest
  end.

Definition coordinatorAggregate (R gpk : G) (msg : list Z) (commitments : list (Commitment G))
    (partials : list PartialSig) (threshold : Z) : result FrostError (Signature G) :=
  seen ← dup_check partials ∅;
  if Z.of_nat (size seen) <? threshold then Err (Below_threshold (Z.of_nat (size seen)) threshold)
  else _ ← check_shares gpk msg commitments partials;
       Ok (aggregate R (sig_z <$> partials)).

Definition verify (gpk : G) (msg : list Z) (sig : Signature G) : bool :=
  let c := challenge (R sig) gpk msg in
  let lhs := scalarMul (z sig) generator in
  let rhs := add (R sig) (scalarMul c gpk) in
  eq lhs rhs.

(** *** One-time nonces *)

Record SignRequest := mkRequest {
  req_share : Z; req_gpk : G; req_msg : list Z; req_commitments : list (Commitment G) }.
Definition sign_request (sid : Z) (r : SignRequest) : M NonceHandle FrostError Z :=
  signShare sid (req_share r) (req_gpk r) (req_msg r) (req_commitments r).
(** Calls on one handle, in order, with the outcome of each. *)
Fixpoint sign_all (sid : Z) (rs : list SignRequest) (h : NonceHandle) : list (result FrostError Z) :=
  match rs with
  | [] => []
  | r :: rs => let '(h', out) := sign_request sid r h in out :: sign_all sid rs h'
  end.

Lemma sign_consumed sid rs h : consumed h = true →
  sign_all sid rs h = replicate (length rs) (Err Nonce_reused).
Proof.
  intros Hc. induction rs as [|r rs IH]; [done|]. cbn [sign_all length replicate].
  unfold sign_request, signShare, markConsumed, get, mbind, M_bind, throw. rewrite Hc.
  by rewrite IH.
Qed.

(** A nonce signs at most once: whatever is asked of one handle, and even
    when the first call throws, every call after the first is refused. *)
Theorem nonce_signs_once sid r rs dn en :
  sign_all sid (r :: rs) (mkHandle dn en false)
  = signShareUnchecked sid dn en (req_share r) (req_gpk r) (req_msg r) (req_commitments r)
    :: replicate (length rs) (Err Nonce_reused).
Proof.
  cbn [sign_all]. unfold sign_request, signShare, markConsumed, get, modify, lift, mbind, M_bind.
  cbn [consumed d e]. rewrite sign_consumed by done.
  by destruct (signShareUnchecked _ _ _ _ _ _ _).
Qed.

(** *** Correctness *)
Context {L : CiphersuiteLaws G}.
Local Notation q := order.
Local Notation gen k := (scalarMul k generator).

Lemma q_gt_1' : 1 < q.
Proof. apply order_prime. Qed.
Lemma modulo_eqm x : modulo x q =[q] x.
Proof. pose proof q_gt_1'. rewrite modulo_mod by lia. apply eqm_mod. Qed.

Lemma sortById_perm cs : sortById cs ≡ₚ cs.
Proof. apply js_sort_perm. Qed.

Lemma bindingFactors_lookup gpk msg cs i : i ∈ id <$> cs →
  bindingFactors gpk msg cs !! i = Some (bindingFactor gpk msg (sortById cs) i).
Proof.
  intros Hi. apply (foldl_insert_lookup id (bindingFactor gpk msg (sortById cs))).
  by rewrite sortById_perm.
Qed.

Lemma coefficient_loop_spec i xs : ∀ num den num' den',
  (∀ j, j ∈ xs → j ≠ i → ~ (j =[q] i)) →
  lagrange_loop q i xs num den = (num', den') →
  num' =[q] num * prodZ (@others q i xs) ∧
  den' =[q] den * prodZ ((λ j, j - i) <$> @others q i xs).
Proof.
  induction xs as [|j xs IH]; intros num den num' den' Hne; cbn [lagrange_loop].
  { intros [= <- <-]. cbn. by rewrite !Z.mul_1_r. }
  assert (Hne' : ∀ j, j ∈ xs → j ≠ i → ~ (j =[q] i)) by (intros k Hk; apply Hne; by right).
  unfold others in *. rewrite filter_cons. destruct (Z.eqb_spec j i) as [->|E].
  - rewrite decide_False by (intros Hn; by apply Hn). by apply IH.
  - rewrite decide_True by (apply Hne; [left|done]).
    intros [H1 H2]%IH; [|done]. rewrite fmap_cons. cbn [prodZ foldr].
    split; [rewrite H1|rewrite H2]; repeat rewrite modulo_eqm;
      apply eqm_of_eq; unfold prodZ; ring.
Qed.

Lemma eqm_gcd x : ~ (x =[q] 0) → Z.gcd x q = 1.
Proof.
  pose proof order_prime as [Hq Hp]. intros Hx. pose proof (Z.gcd_nonneg x q).
  pose proof (Z.gcd_divide_l x q) as Hl. pose proof (Z.gcd_divide_r x q) as Hr.
  destruct (decide (Z.gcd x q = 1)) as [|Hne]; [done|exfalso].
  destruct (decide (Z.gcd x q = q)) as [E|Hne'].
  - apply Hx. rewrite eqm_0_divide. by rewrite <- E.
  - apply (Hp (Z.gcd x q)); [|done].
    pose proof (Z.divide_pos_le (Z.gcd x q) q ltac:(lia) Hr).
    assert (Z.gcd x q ≠ 0) by (intros E0; rewrite E0 in Hr; apply Z.divide_0_l in Hr; lia). lia.
Qed.

(** For signers that are distinct modulo the order, the coefficient exists and
    is the Lagrange basis polynomial at zero. *)
Lemma lagrangeCoefficient_lambda i xs : @distinct q xs → i ∈ xs →
  ∃ l, lagrangeCoefficient i xs = Ok l ∧ l =[q] @lambda q i xs.
Proof.
  intros Hd Hi. unfold lagrangeCoefficient.
  destruct (lagrange_loop _ _ _ _ _) as [num den] eqn:El.
  apply coefficient_loop_spec in El as [Hn Hden].
  2: { intros j Hj Hne E%eqm_iff. apply Hne. by apply (NoDup_fmap_inj_on (λ x, x mod q) xs). }
  rewrite Z.mul_1_l in Hn, Hden.
  assert (Hd0 : ~ (den =[q] 0)) by (rewrite Hden; apply (others_nonzero order_prime)).
  pose proof (modInverse_gcd den q q_gt_1') as Hinv.
  rewrite decide_True in Hinv by (by apply eqm_gcd). destruct Hinv as (y & -> & _ & Hy).
  cbn [mbind result_bind]. eexists. split; [done|]. rewrite modulo_eqm, Hn. unfold lambda.
  rewrite <- (inv_unique order_prime _ y); [done|]. by rewrite <- Hden.
Qed.

Lemma dup_check_spec ps seen :
  NoDup (sig_id <$> ps) → (∀ s, s ∈ ps → sig_id s ∉ seen) →
  dup_check ps seen = Ok (list_to_set (sig_id <$> ps) ∪ seen).
Proof.
  revert seen. induction ps as [|s ps IH]; intros seen Hd Hs.
  { cbn. by rewrite union_empty_l_L. }
  rewrite fmap_cons in *. apply NoDup_cons in Hd as [Hn Hd]. cbn [dup_check list_to_set].
  rewrite decide_False by (apply Hs; left). rewrite IH; [f_equal; set_solver|done|].
  intros s' Hs'. rewrite not_elem_of_union, not_elem_of_singleton. split; [|apply Hs; by right].
  intros E. apply Hn. apply list_elem_of_fmap. eauto.
Qed.
Lemma dup_check_Ok ps seen seen' : dup_check ps seen = Ok seen' → NoDup (sig_id <$> ps).
Proof.
  assert (Hg : dup_check ps seen = Ok seen' →
    NoDup (sig_id <$> ps) ∧ ∀ s, s ∈ ps → sig_id s ∉ seen); [|by intros [? _]%Hg].
  revert seen. induction ps as [|s ps IH]; intros seen; cbn [dup_check].
  { intros _. split; [constructor|by intros ? ?%not_elem_of_nil]. }
  case_decide as Hin; [done|]. intros [Hd Hs]%IH. rewrite fmap_cons. split.
  - constructor; [|done]. intros (s' & E & Hs')%list_elem_of_fmap. specialize (Hs s' Hs'). set_solver.
  - intros s' [->|Hs']%elem_of_cons; [done|]. specialize (Hs s' Hs'). set_solver.
Qed.

Section session.
Context (gpk : G) (msg : list Z) (cs : list (Commitment G)) (nd ne : Z → Z).
Context (Hdistinct : @distinct q (id <$> cs)).
(** Every commitment is a pair of group elements, with these exponents. *)
Context (Hopen : ∀ c, c ∈ cs → D c = gen (nd (id c)) ∧ E c = gen (ne (id c))).

Definition rho_of (i : Z) : Z := bindingFactor gpk msg (sortById cs) i.
Definition nonce_of (i : Z) : Z := nd i + rho_of i * ne i.
Definition group_nonce : Z := sumZ nonce_of (id <$> cs).

Lemma commitment_loop_spec l a : (∀ c, c ∈ l → c ∈ cs) →
  commitment_loop (bindingFactors gpk msg cs) l (gen a) = Ok (gen (a + sumZ nonce_of (id <$> l))).
Proof.
  revert a. induction l as [|c l IH]; intros a Hl; cbn [commitment_loop].
  { cbn. by rewrite Z.add_0_r. }
  assert (Hc : c ∈ cs) by (apply Hl; left).
  rewrite bindingFactors_lookup by (apply list_elem_of_fmap; eauto).
  destruct (Hopen c Hc) as [-> ->]. rewrite gen_mul, !gen_add.
  rewrite IH by (intros; apply Hl; by right).
  rewrite fmap_cons, sumZ_cons. f_equal. apply gen_proper, eqm_of_eq. unfold nonce_of, rho_of. ring.
Qed.

Lemma groupCommitment_spec :
  groupCommitment cs (bindingFactors gpk msg cs) = Ok (gen group_nonce).
Proof.
  unfold groupCommitment. rewrite <- gen_identity, commitment_loop_spec.
  - f_equal. apply gen_proper, eqm_of_eq. unfold group_nonce.
    rewrite Z.add_0_l. apply sumZ_perm. by rewrite sortById_perm.
  - intros c. by rewrite sortById_perm.
Qed.

Notation ch := (challenge (gen group_nonce) gpk msg).
Notation lam i := (@lambda q i (id <$> cs)).

Lemma signShareUnchecked_spec i s : i ∈ id <$> cs →
  ∃ zi, signShareUnchecked i (nd i) (ne i) s gpk msg cs = Ok zi ∧
    zi =[q] nonce_of i + ch * (lam i * s).
Proof.
  intros Hi. unfold signShareUnchecked. rewrite groupCommitment_spec. cbn [mbind result_bind].
  destruct (lagrangeCoefficient_lambda i _ Hdistinct Hi) as (l & -> & Hl). cbn [mbind result_bind].
  rewrite bindingFactors_lookup by done. eexists. split; [done|].
  rewrite !modulo_eqm, Hl. apply eqm_of_eq. unfold nonce_of, rho_of. ring.
Qed.

Lemma verifySignatureShare_spec i zi s : i ∈ id <$> cs →
  verifySignatureShare i zi (gen s) gpk msg cs
  = Ok (bool_decide (zi =[q] nonce_of i + ch * (lam i * s))).
Proof.
  intros Hi. unfold verifySignatureShare. rewrite groupCommitment_spec. cbn [mbind result_bind].
  destruct (list_find _ cs) as [[k c]|] eqn:Hf.
  2: { exfalso. apply list_find_None in Hf. apply list_elem_of_fmap in Hi as (c & -> & Hc).
       rewrite Forall_forall in Hf. by apply (Hf c Hc). }
  apply list_find_Some in Hf as (Hk & Hid & _).
  destruct (Hopen c) as [-> ->]; [by eapply list_elem_of_lookup_2|]. rewrite Hid.
  destruct (lagrangeCoefficient_lambda i _ Hdistinct Hi) as (l & -> & Hl). cbn [mbind result_bind].
  rewrite bindingFactors_lookup by done. cbn [default]. rewrite !gen_mul, !gen_add, gen_eq. f_equal.
  apply bool_decide_ext. rewrite modulo_eqm, Hl. unfold nonce_of, rho_of.
  by rewrite Z.mul_assoc.
Qed.

(** A partial that verifies, on exponents. *)
Definition share_good (f : list Z) (s : PartialSig) : Prop :=
  sig_id s ∈ id <$> cs ∧ publicShare s = gen (peval f (sig_id s)).
Definition share_eqn (f : list Z) (s : PartialSig) : Prop :=
  sig_z s =[q] nonce_of (sig_id s) + ch * (lam (sig_id s) * peval f (sig_id s)).

Lemma check_shares_spec f ps : Forall (share_good f) ps →
  (check_shares gpk msg cs ps = Ok tt ↔ Forall (share_eqn f) ps) ∧
  (∀ err, check_shares gpk msg cs ps = Err err →
    ∃ s, s ∈ ps ∧ err = Share_failed (sig_id s) ∧ ~ share_eqn f s).
Proof.
  induction 1 as [|s ps [Hi Hs] _ [IH1 IH2]]; [split; [|done]; split; constructor|].
  cbn [check_shares]. rewrite Hs, verifySignatureShare_spec by done. cbn [mbind result_bind].
  case_bool_decide as Heq; cbn [negb].
  - split; [rewrite IH1, Forall_cons; unfold share_eqn at 2; tauto|].
    intros err (s' & ? & ?)%IH2. exists s'. by split; [right|].
  - split; [rewrite Forall_cons; unfold share_eqn at 1; split; [done|tauto]|].
    intros err [= <-]. exists s. split_and!; [left|done|done].
Qed.

Lemma aggregate_eqm r zs : z (aggregate r zs) =[q] sumZ (λ z, z) zs.
Proof.
  unfold aggregate. cbn [z].
  assert (Hg : ∀ acc, foldl (λ z zi, modulo (z + zi) q) acc zs =[q] acc + sumZ (λ z, z) zs).
  { induction zs as [|zi zs IH]; intros acc; simpl; [by rewrite Z.add_0_r|].
    rewrite IH, modulo_eqm. apply eqm_of_eq. lia. }
  by rewrite Hg, Z.add_0_l.
Qed.

Lemma sum_shares_eqm f ps : Forall (share_eqn f) ps →
  sumZ (λ z, z) (sig_z <$> ps)
  =[q] sumZ nonce_of (sig_id <$> ps) + ch * sumZ (λ i, lam i * peval f i) (sig_id <$> ps).
Proof.
  induction 1 as [|s ps Hs _ IH]; [by rewrite Z.mul_0_r|].
  unfold share_eqn in Hs. rewrite !fmap_cons, !sumZ_cons, IH, Hs. apply eqm_of_eq. ring.
Qed.

(** The sum over the whole signer set is a signature under the group key. *)
Lemma full_sum_verifies f ps : (length f <= length cs)%nat → gpk = gen (peval f 0) →
  sig_id <$> ps ≡ₚ id <$> cs → Forall (share_eqn f) ps →
  verify gpk msg (aggregate (gen group_nonce) (sig_z <$> ps)) = true.
Proof.
  intros Hf Hgpk Hperm Heqn. unfold verify. cbn [aggregate R].
  set (c := ch). rewrite Hgpk, gen_mul, gen_add, gen_eq. apply bool_decide_eq_true_2.
  rewrite aggregate_eqm, (sum_shares_eqm f) by done. fold c.
  rewrite (sumZ_perm nonce_of _ _ Hperm), (sumZ_perm (λ i, lam i * peval f i) _ _ Hperm).
  rewrite (lagrange_zero order_prime) by (rewrite ?length_fmap; done). done.
Qed.

End session.

Lemma NoDup_submseteq_perm (l k : list Z) :
  NoDup l → l ⊆ k → length l = length k → l ≡ₚ k.
Proof.
  intros Hd Hs Hl. apply submseteq_length_Permutation; [|lia]. by apply NoDup_submseteq.
Qed.

(** C13. What the coordinator accepts is a signature, and whom it names is at
    fault: for a complete set of partials, however they were made, over
    commitments in the group and public shares on one polynomial, an aggregate
    that [coordinatorAggregate] returns verifies under the group key; and when
    it aborts naming a signer, that signer's share differs from the one its
    nonces and its secret share produce. *)
Theorem coordinatorAggregate_sound gpk msg cs nd ne f ps R0 t :
  @distinct q (id <$> cs) →
  (∀ c, c ∈ cs → D c = gen (nd (id c)) ∧ E c = gen (ne (id c))) →
  (length f <= length cs)%nat → gpk = gen (peval f 0) →
  Forall (share_good cs f) ps → length ps = length cs →
  groupCommitment cs (bindingFactors gpk msg cs) = Ok R0 →
  (∀ sig, coordinatorAggregate R0 gpk msg cs ps t = Ok sig → verify gpk msg sig = true) ∧
  (∀ i, coordinatorAggregate R0 gpk msg cs ps t = Err (Share_failed i) →
    ∃ s zi, s ∈ ps ∧ sig_id s = i ∧
      signShareUnchecked i (nd i) (ne i) (peval f i) gpk msg cs = Ok zi ∧ ~ (sig_z s =[q] zi)).
Proof.
  intros Hd Hopen Hf Hgpk Hgood Hlen HR.
  rewrite (groupCommitment_spec gpk msg cs nd ne Hopen) in HR. injection HR as <-.
  destruct (check_shares_spec gpk msg cs nd ne Hd Hopen f ps Hgood) as [Hok Herr].
  unfold coordinatorAggregate. destruct (dup_check ps ∅) as [seen|err] eqn:Hdup; [|split].
  2: done.
  2: { intros i [= ->]. exfalso. clear -Hdup. revert Hdup. generalize (∅ : gset Z).
       induction ps as [|s ps IH]; intros seen; cbn [dup_check]; [done|]. case_decide; [done|]. apply IH. }
  cbn [mbind result_bind]. destruct (_ <? t); [done|].
  destruct (check_shares gpk msg cs ps) as [[]|err]; cbn [mbind result_bind]; split; try done.
  - intros sig [= <-]. apply (full_sum_verifies gpk msg cs nd ne Hd f); [done|done| |by apply Hok].
    apply NoDup_submseteq_perm; [by eapply dup_check_Ok| |by rewrite !length_fmap].
    intros i (s & -> & Hs)%list_elem_of_fmap. rewrite Forall_forall in Hgood. by apply Hgood.
  - intros i [= ->]. destruct (Herr _ eq_refl) as (s & Hs & [= ->] & Hne).
    rewrite Forall_forall in Hgood. destruct (Hgood s Hs) as [Hi _].
    destruct (signShareUnchecked_spec gpk msg cs nd ne Hd Hopen (sig_id s) (peval f (sig_id s)) Hi)
      as (zi & Hz & Hzi).
    exists s, zi. split_and!; [done..|]. intros Hsz. apply Hne. unfold share_eqn. by rewrite Hsz.
Qed.

(** *** A round of honest signers *)
Record Signer := mkSigner { sid : Z; share : Z; hidingRandom : list Z; bindingRandom : list Z }.
Definition round1 (s : Signer) : NonceHandle * Commitment G :=
  commit (sid s) (share s) (hidingRandom s) (bindingRandom s).
Definition round2 (gpk : G) (msg : list Z) (cs : list (Commitment G)) (s : Signer) :
    result FrostError PartialSig :=
  zi ← (signShare (sid s) (share s) gpk msg cs (round1 s).1).2;
  Ok (mkPartialSig (sid s) zi (gen (share s))).

Definition nonce_by_id (nonce : NonceHandle → Z) (signers : list Signer) (i : Z) : Z :=
  match list_find (λ s, sid s = i) signers with Some (_, s) => nonce (round1 s).1 | None => 0 end.

Lemma nonce_by_id_spec nonce signers s : NoDup (sid <$> signers) → s ∈ signers →
  nonce_by_id nonce signers (sid s) = nonce (round1 s).1.
Proof.
  intros Hd Hs. unfold nonce_by_id. destruct (list_find _ signers) as [[k s']|] eqn:Hf.
  - apply list_find_Some in Hf as (Hk%list_elem_of_lookup_2 & E & _).
    by rewrite (NoDup_fmap_inj_on sid signers s' s).
  - apply list_find_None in Hf. rewrite Forall_forall in Hf. by destruct (Hf s Hs).
Qed.

Lemma round2_all gpk msg cs nd ne f ord :
  @distinct q (id <$> cs) →
  (∀ c, c ∈ cs → D c = gen (nd (id c)) ∧ E c = gen (ne (id c))) →
  Forall (λ s, sid s ∈ id <$> cs ∧ share s =[q] peval f (sid s) ∧
               d (round1 s).1 = nd (sid s) ∧ e (round1 s).1 = ne (sid s)) ord →
  ∃ ps, map_res (round2 gpk msg cs) ord = Ok ps ∧ sig_id <$> ps = sid <$> ord ∧
    Forall (share_good cs f) ps ∧ Forall (share_eqn gpk msg cs nd ne f) ps.
Proof.
  intros Hd Hopen. induction 1 as [|s ord (Hi & Hs & Hnd & Hne) _ (ps & Hps & Hids & Hg & He)].
  { exists []. split_and!; [done|done|constructor|constructor]. }
  destruct (signShareUnchecked_spec gpk msg cs nd ne Hd Hopen (sid s) (share s) Hi) as (zi & Hz & Hzi).
  assert (Hr : round2 gpk msg cs s = Ok (mkPartialSig (sid s) zi (gen (share s)))).
  { unfold round2, signShare, markConsumed, get, modify, lift, mbind, M_bind.
    cbn [round1 commit fst consumed]. cbn [d e].
    change (nonceScalar (hidingRandom s) (share s)) with (d (round1 s).1).
    change (nonceScalar (bindingRandom s) (share s)) with (e (round1 s).1).
    rewrite Hnd, Hne, Hz. done. }
  eexists. cbn [map_res]. rewrite Hr. cbn [mbind result_bind]. rewrite Hps. cbn [mbind result_bind].
  split; [done|]. rewrite !fmap_cons. cbn [sig_id]. rewrite Hids. split; [done|]. split.
  - constructor; [|done]. split; [done|]. by apply gen_proper.
  - constructor; [|done]. unfold share_eqn. cbn [sig_z sig_id]. by rewrite Hzi, Hs.
Qed.

(** C9. A signing round completes: for any set of at least [t] signers that
    are distinct modulo the order and whose shares lie on a polynomial with no
    more coefficients than signers, both rounds succeed, the coordinator
    accepts the partials in any order, and the aggregate verifies under the
    group key. *)
Theorem signing_round f signers ord gpk msg t :
  @distinct q (sid <$> signers) → Forall (λ s, share s =[q] peval f (sid s)) signers →
  gpk = gen (peval f 0) → (length f <= length signers)%nat → t <= Z.of_nat (length signers) →
  ord ≡ₚ signers →
  let cs := (λ s, (round1 s).2) <$> signers in
  ∃ ps R0 sig, map_res (round2 gpk msg cs) ord = Ok ps ∧
    groupCommitment cs (bindingFactors gpk msg cs) = Ok R0 ∧
    coordinatorAggregate R0 gpk msg cs ps t = Ok sig ∧ verify gpk msg sig = true.
Proof.
  intros Hd Hshares Hgpk Hf Ht Hord cs. set (nd := nonce_by_id d signers). set (ne := nonce_by_id e signers).
  assert (Hids : id <$> cs = sid <$> signers) by (unfold cs; by rewrite <- list_fmap_compose).
  assert (HN : NoDup (sid <$> signers)).
  { unfold distinct in Hd. by apply NoDup_fmap_1 in Hd. }
  assert (Hopen : ∀ c, c ∈ cs → D c = gen (nd (id c)) ∧ E c = gen (ne (id c))).
  { intros c (s & -> & Hs)%list_elem_of_fmap. cbn [round1 commit snd D E id].
    unfold nd, ne. by rewrite !nonce_by_id_spec. }
  rewrite <- Hids in Hd. destruct (round2_all gpk msg cs nd ne f ord) as (ps & Hps & Hpid & Hg & He);
    [done|done| |].
  { apply Forall_forall. intros s. rewrite Hord. intros Hs. rewrite Hids. rewrite Forall_forall in Hshares.
    unfold nd, ne. rewrite !nonce_by_id_spec by done.
    split_and!; [by apply list_elem_of_fmap; eauto|by apply Hshares|done|done]. }
  assert (Hperm : sig_id <$> ps ≡ₚ id <$> cs) by (by rewrite Hpid, Hids, Hord).
  eexists ps, _, _. split; [done|]. split; [by apply (groupCommitment_spec gpk msg cs nd ne)|].
  assert (Hlen : length ps = length signers).
  { rewrite <- (length_fmap sig_id), Hpid, length_fmap. by apply Permutation_length. }
  assert (HNp : NoDup (sig_id <$> ps)) by (by rewrite Hpid, Hord).
  unfold coordinatorAggregate. rewrite (dup_check_spec ps) by (done || set_solver).
  cbn [mbind result_bind]. rewrite union_empty_r_L, size_list_to_set, length_fmap, Hlen by done.
  rewrite (proj2 (Z.ltb_ge _ _)) by lia.
  destruct (check_shares_spec gpk msg cs nd ne Hd Hopen f ps Hg) as [Hok _].
  rewrite (proj2 Hok He). cbn [mbind result_bind]. split; [done|].
  apply (full_sum_verifies gpk msg cs nd ne Hd f); [|done..]. unfold cs. by rewrite length_fmap.
Qed.
End Frost.
End Frost.

(** ** [ciphersuites/bjj.ts] and [message.ts] *)
Module BjjSuite.
Import Hash Frost.
Section BjjSuite.
Context `{BabyJubjub} `{Poseidon2}.

(** [for (i = 31; i >= 0; i--) { out[i] = v & 0xff; v >>= 8 }]. *)
Fixpoint encode_loop (n : nat) (v : Z) (out : list Z) : list Z :=
  match n with
  | O => out
  | S n => encode_loop n (Z.shiftr v 8) (Z.land v 0xff :: out)
  end.
Definition encodeMessage (m : Z) : list Z := encode_loop 32 m [].
Definition bytesToField (bytes : list Z) : Z :=
  Z.rem (foldl (λ v b, Z.lor (Z.shiftl v 8) b) 0 bytes) BN254_SCALAR_FIELD_MODULUS.
Definition decodeMessage (msg : list Z) : Z :=
  Z.rem (foldl (λ v b, Z.lor (Z.shiftl v 8) b) 0 msg) BN254_SCALAR_FIELD_MODULUS.
Definition hashMessage (msg : list Z) : Z := poseidon2 [FROST_MSG_DOMAIN; decodeMessage msg].
Definition hashCommitmentList (commitments : list (Commitment Point)) : Z :=
  let sorted := js_sort id_cmp commitments in
  poseidon2 (FROST_COM_DOMAIN
    :: mjoin ((λ c, [id c; (D c).1; (D c).2; (E c).1; (E c).2]) <$> sorted)).

Definition frost_challenge (R gpk : Point) (msg : list Z) : Z :=
  Z.rem (challengeScalar [SCHNORR_DOMAIN; R.1; R.2; gpk.1; gpk.2; decodeMessage msg]) (Z.shiftl 1 248).

#[export] Instance bjjCiphersuite : Ciphersuite Point := {|
  name := "FROST-BABYJUBJUB-POSEIDON2-v1";
  generator := Bjj.BASE8;
  identity := Bjj.IDENTITY;
  add := Bjj.pointAdd;
  scalarMul := Bjj.scalarMul;
  negate := Bjj.pointNeg;
  eq := Bjj.pointEq;
  order := Bjj.SUBORDER;
  nonceScalar random32 secret := hashToScalar FROST_NONCE_DOMAIN [bytesToField random32; secret];
  bindingFactor gpk msg commitments i :=
    let h4 := hashMessage msg in
    let h5 := hashCommitmentList commitments in
    hashToScalar FROST_RHO_DOMAIN [gpk.1; gpk.2; h4; h5; i];
  challenge := frost_challenge;
|}.

(** *** [message.ts]: what a spend signs *)
Definition multisigOwner (gpk : Point) : Z := poseidon2 [gpk.1; gpk.2].
Definition msgWithdraw (root nullifier changeLeaf publicOut asset recipient intentHash : Z) : Z :=
  poseidon2 [ACTION_WITHDRAW; root; nullifier; changeLeaf; publicOut; asset; recipient; intentHash].
Definition msgTransfer (root nullifier memoLeaf memoTag changeLeaf asset : Z) : Z :=
  poseidon2 [ACTION_TRANSFER; root; nullifier; memoLeaf; memoTag; changeLeaf; asset].
Definition msgSplit (root nullifier out1Leaf out2Leaf asset : Z) : Z :=
  poseidon2 [ACTION_SPLIT; root; nullifier; out1Leaf; out2Leaf; asset].
Definition msgJoin (root nullifierA nullifierB outLeaf asset : Z) : Z :=
  poseidon2 [ACTION_JOIN; root; nullifierA; nullifierB; outLeaf; asset].

Context {L : BabyJubjubLaws}.

(** The production suite meets the protocol's laws. *)
#[export] Instance bjjCiphersuite_laws : CiphersuiteLaws Point.
Proof.
  split; unfold order, generator, identity, add, scalarMul, eq, bjjCiphersuite;
    change (Bjj.scalarMul ?k Bjj.BASE8) with (Bjj.scalarBaseMul k).
  - apply Bjj.prime_q.
  - apply Bjj.gen_zero.
  - apply Bjj.gen_add.
  - apply Bjj.gen_mul.
  - intros a b. apply Bjj.gen_eqm.
  - intros a b. apply eq_bool_prop_intro. rewrite bool_decide_spec, <- Bjj.gen_eqm, <- Bjj.pointEq_spec.
    by destruct (Bjj.pointEq _ _).
Qed.

Lemma encode_loop_spec n v out : encode_loop n v out = be_bytes n v ++ out.
Proof.
  revert v out. induction n as [|n IH]; intros v out; [done|]. cbn [encode_loop].
  rewrite IH. unfold be_bytes. cbn [le_bytes]. rewrite reverse_cons, <- (assoc_L (++)).
  change (Z.land v 255) with (Z.land v (Z.ones 8)). by rewrite Z.land_ones, Z.shiftr_div_pow2 by lia.
Qed.


(** The signed message: decoding what [encodeMessage] produced gives the
    message back, so the challenge of a signature over the 32 encoded bytes is
    the low part of the hash of that very field element. *)
Theorem encodeMessage_roundtrip R gpk m : 0 <= m < BN254_SCALAR_FIELD_MODULUS →
  length (encodeMessage m) = 32%nat ∧ Forall is_byte (encodeMessage m) ∧
  decodeMessage (encodeMessage m) = m ∧
  challenge R gpk (encodeMessage m)
  = Z.rem (poseidon2 [SCHNORR_DOMAIN; R.1; R.2; gpk.1; gpk.2; m]) (2 ^ 248).
Proof.
  intros Hm. assert (Hd : decodeMessage (encodeMessage m) = m).
  { unfold decodeMessage, encodeMessage. rewrite encode_loop_spec, app_nil_r, foldl_lor_be by done.
    rewrite of_be_be_bytes by (unfold BN254_SCALAR_FIELD_MODULUS in Hm; lia).
    by rewrite Z.rem_mod_nonneg, Z.mod_small by lia. }
  split_and!; [|..|done|].
  - unfold encodeMessage. by rewrite encode_loop_spec, app_nil_r, length_be_bytes.
  - unfold encodeMessage. by rewrite encode_loop_spec, app_nil_r.
  - unfold challenge, bjjCiphersuite, frost_challenge, challengeScalar. by rewrite Hd.
Qed.
End BjjSuite.
End BjjSuite.

(** ** Witnesses: three signers on the toy curve *)
Module FrostWitness.
Import Hash Frost BjjSuite.
#[local] Existing Instance ToyCurve.toy_curve.
#[local] Existing Instance ToyCurve.toy_laws.
#[local] Existing Instance DkgWitness.toy_hash.
#[local] Existing Instance bjjCiphersuite.
#[local] Existing Instance bjjCiphersuite_laws.

Lemma modInverse_spec_witness : modInverse 5 13 = Ok 8 ∧ modInverse 6 9 = Err No_inverse.
Proof.
  pose proof (modInverse_spec 5 13 ltac:(lia)) as H1.
  pose proof (modInverse_spec 6 9 ltac:(lia)) as H2. split; [|exact H2].
  destruct H1 as (y & H1 & _). refine (eq_trans H1 _). rewrite <- H1. reflexivity.
Defined.

(** Shares of [5 + 3 x]. *)
Definition toy_signers : list Signer := 
  [mkSigner 3 14 [1; 2] [3]; mkSigner 1 8 [9] [4]; mkSigner 2 11 [5] [6]].
Definition toy_gpk : Point := scalarMul 5 generator.
Definition toy_cs : list (Commitment Point) := (λ s, (round1 s).2) <$> toy_signers.

Lemma signing_round_witness : ∃ ps R0 sig,
  map_res (round2 toy_gpk [7] toy_cs) (reverse toy_signers) = Ok ps ∧
  groupCommitment toy_cs (bindingFactors toy_gpk [7] toy_cs) = Ok R0 ∧
  coordinatorAggregate R0 toy_gpk [7] toy_cs ps 2 = Ok sig ∧ verify toy_gpk [7] sig = true.
Proof.
  apply (signing_round [5; 3] toy_signers (reverse toy_signers) toy_gpk [7] 2).
  - apply (bool_decide_unpack _). by vm_compute.
  - repeat constructor; apply (bool_decide_unpack _); by vm_compute.
  - reflexivity.
  - simpl. lia.
  - simpl. lia.
  - apply reverse_Permutation.
Defined.

Definition toy_partials : list PartialSig :=
  match map_res (round2 toy_gpk [7] toy_cs) toy_signers with Ok ps => ps | Err _ => [] end.
Definition toy_R : Point :=
  match groupCommitment toy_cs (bindingFactors toy_gpk [7] toy_cs) with Ok R => R | Err _ => (0, 0) end.

Lemma toy_open c : c ∈ toy_cs →
  D c = scalarMul (nonce_by_id d toy_signers (id c)) generator ∧
  E c = scalarMul (nonce_by_id e toy_signers (id c)) generator.
Proof.
  intros Hc. repeat (apply elem_of_cons in Hc as [->|Hc]; [by vm_compute|]).
  by apply not_elem_of_nil in Hc.
Qed.

Lemma coordinatorAggregate_sound_witness :
  ∃ sig, coordinatorAggregate toy_R toy_gpk [7] toy_cs toy_partials 2 = Ok sig ∧
         verify toy_gpk [7] sig = true.
Proof.
  destruct (coordinatorAggregate_sound toy_gpk [7] toy_cs (nonce_by_id d toy_signers)
    (nonce_by_id e toy_signers) [5; 3] toy_partials toy_R 2) as [Hs _].
  - apply (bool_decide_unpack _). by vm_compute.
  - apply toy_open.
  - simpl. lia.
  - reflexivity.
  - repeat (constructor; [split; [apply (bool_decide_unpack _)|]; by vm_compute|]). constructor.
  - by vm_compute.
  - by vm_compute.
  - assert (Hok : is_ok (coordinatorAggregate toy_R toy_gpk [7] toy_cs toy_partials 2) = true)
      by (vm_compute; reflexivity).
    destruct (coordinatorAggregate toy_R toy_gpk [7] toy_cs toy_partials 2) as [sig|err];
      [|discriminate Hok].
    exists sig. split; [reflexivity|]. exact (Hs sig eq_refl).
Defined.

(** Partials of a strict subset of the committed signers all verify, and reach
    the threshold, but add up to no signature: the coordinator does not compare
    the two sets of identifiers. *)
Lemma coordinatorAggregate_subset :
  match coordinatorAggregate toy_R toy_gpk [7] toy_cs (take 2 toy_partials) 2 with
  | Ok sig => verify toy_gpk [7] sig = false
  | Err _ => False
  end.
Proof. vm_compute. reflexivity. Qed.

Lemma encodeMessage_roundtrip_witness : decodeMessage (encodeMessage 123456789) = 123456789.
Proof.
  destruct (encodeMessage_roundtrip (0, 1) (0, 1) 123456789) as (_ & _ & Hm & _); [|exact Hm].
  unfold BN254_SCALAR_FIELD_MODULUS. lia.
Defined.
End FrostWitness.
