(* ===== verification/Keys.v ===== *)
(** * Key derivation and canonical points ([packages/sdk/src/note/keys.ts])

    [Fields] is the arithmetic modulo the coordinate field with the
    Tonelli-Shanks square root, [Keys] the key families, the roll to an index
    whose point has an even y and the subgroup check ([crypto/Kdf.ts],
    [crypto/index.ts]).  A [while] loop runs on fuel; [Loop_fuel] is never
    returned. *)
From S2P Require Import Prelude Bytes Zq Tss Dkg.
Local Open Scope Z_scope.

Inductive KeyErr :=
  | Kdf_error (e : Dkg.DkgError) | Not_field (x : Z)
  | Division_by_zero | Non_residue | Tonelli_failed | Loop_fuel
  | No_even (start : Z)
  | Off_curve (subject : string) | Identity_point (subject : string) | Off_subgroup (subject : string).

(** ** Square roots *)
Module Fields.

Definition BJJ_P : Z :=
  21888242871839275222246405745257275088548364400416034343698204186575808495617.
Definition BJJ_A : Z := 168700.
Definition BJJ_D : Z := 168696.

Definition modP (x : Z) : Z := Z.rem (Z.rem x BJJ_P + BJJ_P) BJJ_P.

(** One round per bit of the exponent. *)
Definition powP (base exp : Z) : Z := square_multiply BJJ_P (S (Z.to_nat (Z.log2 exp))) 1 (modP base) exp.

Definition invP (x : Z) : result KeyErr Z :=
  let r := modP x in
  if r =? 0 then Err Division_by_zero else Ok (powP r (BJJ_P - 2)).

(** [while ((q & 1n) === 0n)], for a positive [q]. *)
Fixpoint odd_loop (fuel : nat) (q s : Z) : Z * Z :=
  match fuel with
  | O => (q, s)
  | S fuel => if Z.land q 1 =? 0 then odd_loop fuel (Z.shiftr q 1) (s + 1) else (q, s)
  end.
(** [while (powP(z, (BJJ_P - 1n) / 2n) !== BJJ_P - 1n)]. *)
Fixpoint nonresidue_loop (fuel : nat) (z : Z) : Z :=
  match fuel with
  | O => z
  | S fuel => if powP z (Z.quot (BJJ_P - 1) 2) =? BJJ_P - 1 then z else nonresidue_loop fuel (z + 1)
  end.

(** [while (t2 !== 1n)]: the number of squarings that take [t2] to 1. *)
Fixpoint square_loop (fuel : nat) (t2 i m : Z) : result KeyErr Z :=
  if t2 =? 1 then Ok i
  else match fuel with
       | O => Err Loop_fuel
       | S fuel =>
           if i + 1 =? m then Err Tonelli_failed
           else square_loop fuel (Z.rem (t2 * t2) BJJ_P) (i + 1) m
       end.

(** [while (t !== 1n)]. *)
Fixpoint root_loop (fuel : nat) (m c t r : Z) : result KeyErr Z :=
  if t =? 1 then Ok r
  else match fuel with
       | O => Err Loop_fuel
       | S fuel =>
           i ← square_loop (Z.to_nat m) t 0 m;
           let b := powP c (Z.shiftl 1 (m - i - 1)) in
           let c := Z.rem (b * b) BJJ_P in
           root_loop fuel i c (Z.rem (t * c) BJJ_P) (Z.rem (r * b) BJJ_P)
       end.

Definition sqrtP (n : Z) : result KeyErr Z :=
  let a := modP n in
  if a =? 0 then Ok 0
  else if negb (powP a (Z.quot (BJJ_P - 1) 2) =? 1) then Err Non_residue
  else
    let '(q, s) := odd_loop 256 (BJJ_P - 1) 0 in
    let z := nonresidue_loop 256 2 in
    root_loop (Z.to_nat s) s (powP z q) (powP a q) (powP a (Z.quot (q + 1) 2)).

Definition recoverEvenY (x : Z) : result KeyErr Point :=
  let x2 := modP (x * x) in
  let num := modP (1 - modP (BJJ_A * x2)) in
  let den := modP (1 - modP (BJJ_D * x2)) in
  inv ← invP den;
  let y2 := modP (num * inv) in
  y ← sqrtP y2;
  let y := if negb (Z.land y 1 =? 0) then modP (BJJ_P - y) else y in
  Ok (modP x, y).

(** *** The arithmetic computes modulo the prime *)
Lemma BJJ_P_pos : 1 < BJJ_P.
Proof. reflexivity. Qed.

Lemma modP_mod x : modP x = x mod BJJ_P.
Proof.
  pose proof BJJ_P_pos. unfold modP. pose proof (Z.rem_bound_abs x BJJ_P ltac:(lia)).
  rewrite Z.rem_mod_nonneg by lia. rewrite <- (Z.mul_1_l BJJ_P) at 2. rewrite Z.mod_add by lia.
  apply eqm_iff. exists (- Z.quot x BJJ_P). pose proof (Z.quot_rem' x BJJ_P). lia.
Qed.
Lemma modP_bound x : 0 <= modP x < BJJ_P.
Proof. rewrite modP_mod. apply Z.mod_pos_bound. reflexivity. Qed.
Lemma modP_eqm x : modP x =[BJJ_P] x.
Proof. rewrite modP_mod. apply eqm_mod. Qed.
Lemma remP_eqm x : 0 <= x → Z.rem x BJJ_P =[BJJ_P] x.
Proof. intros Hx. rewrite Z.rem_mod_nonneg by (done || reflexivity). apply eqm_mod. Qed.
Lemma remP_bound x : 0 <= x → 0 <= Z.rem x BJJ_P < BJJ_P.
Proof. intros Hx. rewrite Z.rem_mod_nonneg by (done || reflexivity). apply Z.mod_pos_bound. reflexivity. Qed.

Lemma powP_spec base exp : 0 <= exp → powP base exp =[BJJ_P] base ^ exp ∧ 0 <= powP base exp < BJJ_P.
Proof.
  intros He. unfold powP.
  destruct (square_multiply_spec BJJ_P (S (Z.to_nat (Z.log2 exp))) 1 (modP base) exp) as [E _].
  - reflexivity.
  - done.
  - apply modP_bound.
  - split; [done|]. rewrite Nat2Z.inj_succ, Z2Nat.id by apply Z.log2_nonneg.
    destruct (decide (exp = 0)) as [->|]; [simpl; lia|]. apply Z.log2_spec. lia.
  - split; [rewrite E, Z.mul_1_l, modP_mod, eqm_iff; by rewrite Z.mod_pow_l|].
    apply square_multiply_bound; [done|apply modP_bound].
Qed.

(** The 2-adic part of [BJJ_P - 1] and the least non-residue from 2. *)
Definition odd_part : Z := Eval vm_compute in (odd_loop 256 (BJJ_P - 1) 0).1.
Lemma odd_loop_P : odd_loop 256 (BJJ_P - 1) 0 = (odd_part, 28).
Proof. vm_compute. reflexivity. Qed.
Lemma odd_part_P : odd_part * 2 ^ 28 = BJJ_P - 1 ∧ 2 * Z.quot (odd_part + 1) 2 = odd_part + 1.
Proof. split; vm_compute; reflexivity. Qed.
Lemma nonresidue_5 : powP 5 (Z.quot (BJJ_P - 1) 2) = BJJ_P - 1.
Proof. vm_compute. reflexivity. Qed.
(** The search does not run out: it stops at a non-residue, at 5 at the latest. *)
Lemma nonresidue_loop_spec fuel z : z <= 5 < z + Z.of_nat fuel →
  z <= nonresidue_loop fuel z <= 5 ∧ powP (nonresidue_loop fuel z) (Z.quot (BJJ_P - 1) 2) = BJJ_P - 1.
Proof.
  revert z. induction fuel as [|fuel IH]; intros z Hz; [lia|]. cbn [nonresidue_loop].
  destruct (Z.eqb_spec (powP z (Z.quot (BJJ_P - 1) 2)) (BJJ_P - 1)) as [E|Hne]; [split; [lia|done]|].
  assert (z ≠ 5) by (intros ->; exact (Hne nonresidue_5)).
  destruct (IH (z + 1) ltac:(lia)) as [Hr E]. split; [lia|done].
Qed.
Lemma nonresidue_P :
  2 <= nonresidue_loop 256 2 <= 5 ∧ powP (nonresidue_loop 256 2) (Z.quot (BJJ_P - 1) 2) = BJJ_P - 1.
Proof. apply nonresidue_loop_spec. lia. Qed.

Lemma square_loop_spec fuel t2 i m : 0 <= i < m → Z.of_nat fuel + i = m →
  match square_loop fuel t2 i m with
  | Ok j => i <= j < m ∧ (t2 ≠ 1 → i < j)
  | Err e => e = Tonelli_failed
  end.
Proof.
  revert t2 i. induction fuel as [|fuel IH]; intros t2 i Hi Hf; [lia|].
  cbn [square_loop]. destruct (Z.eqb_spec t2 1) as [->|Ht]; [lia|].
  destruct (Z.eqb_spec (i + 1) m); [done|].
  specialize (IH (Z.rem (t2 * t2) BJJ_P) (i + 1) ltac:(lia) ltac:(lia)).
  destruct (square_loop _ _ _ _); [lia|done].
Qed.

(** The loop keeps [r * r = a * t] and lowers [m], so it ends with a root. *)
Lemma root_loop_spec a fuel m c t r : 1 <= m <= Z.of_nat fuel →
  0 <= t < BJJ_P → 0 <= r < BJJ_P → r * r =[BJJ_P] a * t →
  match root_loop fuel m c t r with
  | Ok y => y * y =[BJJ_P] a ∧ 0 <= y < BJJ_P
  | Err e => e = Tonelli_failed
  end.
Proof.
  revert m c t r. induction fuel as [|fuel IH]; intros m c t r Hm Ht Hr E; [lia|].
  cbn [root_loop]. destruct (Z.eqb_spec t 1) as [->|Hne]; [by rewrite E, Z.mul_1_r|].
  pose proof (square_loop_spec (Z.to_nat m) t 0 m ltac:(lia) ltac:(lia)) as Hs.
  destruct (square_loop (Z.to_nat m) t 0 m) as [i|e]; cbn [mbind result_bind]; [|done].
  destruct Hs as [Hi Hi1]. specialize (Hi1 Hne).
  set (b := powP c (Z.shiftl 1 (m - i - 1))).
  assert (Hb : 0 <= b).
  { apply powP_spec. rewrite Z.shiftl_mul_pow2, Z.mul_1_l by lia. by apply Z.pow_nonneg. }
  pose proof (remP_bound (b * b) ltac:(nia)) as Hbb.
  apply IH; [lia|apply remP_bound; nia|apply remP_bound; nia|].
  rewrite !remP_eqm by nia.
  transitivity (r * r * (b * b)); [apply eqm_of_eq; ring|]. rewrite E. apply eqm_of_eq. ring.
Qed.

Lemma sqrt_start a q h m c : 1 <= m → 0 <= q → 2 * h = q + 1 →
  match root_loop (Z.to_nat m) m c (powP a q) (powP a h) with
  | Ok y => y * y =[BJJ_P] a ∧ 0 <= y < BJJ_P
  | Err e => e = Tonelli_failed
  end.
Proof.
  intros Hm Hq Hh. destruct (powP_spec a q ltac:(lia)) as [Et Ht].
  destruct (powP_spec a h ltac:(lia)) as [Er Hr].
  apply root_loop_spec; [lia|done|done|]. rewrite Er, Et, <- Z.pow_add_r by lia.
  rewrite <- Z.pow_succ_r by done. apply eqm_of_eq. f_equal. lia.
Qed.

Lemma sqrtP_spec n :
  match sqrtP n with
  | Ok y => y * y =[BJJ_P] n ∧ 0 <= y < BJJ_P
  | Err e => e = Non_residue ∨ e = Tonelli_failed
  end.
Proof.
  unfold sqrtP. destruct (Z.eqb_spec (modP n) 0) as [E|_].
  { split; [|by vm_compute]. rewrite <- (modP_eqm n), E. done. }
  destruct (negb _); [by left|]. rewrite odd_loop_P.
  pose proof (sqrt_start (modP n) odd_part (Z.quot (odd_part + 1) 2) 28
    (powP (nonresidue_loop 256 2) odd_part) ltac:(lia) ltac:(done) (proj2 odd_part_P)) as Hroot.
  revert Hroot. generalize (root_loop (Z.to_nat 28) 28 (powP (nonresidue_loop 256 2) odd_part)
    (powP (modP n) odd_part) (powP (modP n) (Z.quot (odd_part + 1) 2))).
  intros [y|e] Hroot; [by rewrite (modP_eqm n) in Hroot|by right].
Qed.

(** The least significant bit decides parity. *)
Lemma land_1 y : Z.land y 1 = y mod 2.
Proof. change 1 with (Z.ones 1). by rewrite Z.land_ones. Qed.

Lemma invP_err x e : invP x = Err e → e = Division_by_zero.
Proof. unfold invP. by destruct (_ =? 0); intros [= <-]. Qed.
Lemma invP_den x : invP (modP (1 - modP (BJJ_D * modP (x * x)))) = invP (1 - BJJ_D * (x * x)).
Proof.
  assert (modP (1 - modP (BJJ_D * modP (x * x))) = modP (1 - BJJ_D * (x * x))) as ->.
  { rewrite !(modP_mod (1 - _)). apply eqm_iff. by rewrite !modP_eqm. }
  unfold invP. by rewrite (modP_mod (modP _)), modP_mod, Zmod_mod, <- modP_mod.
Qed.
Lemma even_flip y : y mod 2 ≠ 0 → (BJJ_P - y) mod 2 = 0.
Proof. intros Hy. rewrite Zminus_mod. pose proof (Z.mod_pos_bound y 2). by replace (y mod 2) with 1 by lia. Qed.
Lemma flip_square p y : (p - y) * (p - y) =[p] y * y.
Proof. exists (p - 2 * y). ring. Qed.

(** The equation of [recoverEvenY], stated once so that proofs rewrite with
    it instead of computing with the constants. *)
Lemma recoverEvenY_eq x :
  recoverEvenY x
  = (inv ← invP (modP (1 - modP (BJJ_D * modP (x * x))));
     y ← sqrtP (modP (modP (1 - modP (BJJ_A * modP (x * x))) * inv));
     Ok (modP x, if negb (Z.land y 1 =? 0) then modP (BJJ_P - y) else y)).
Proof. reflexivity. Qed.

Lemma recoverEvenY_spec x :
  match recoverEvenY x with
  | Ok (x', y) =>
      x' = x mod BJJ_P ∧ 0 <= y < BJJ_P ∧ y mod 2 = 0 ∧
      ∃ inv, invP (1 - BJJ_D * (x * x)) = Ok inv ∧ y * y =[BJJ_P] (1 - BJJ_A * (x * x)) * inv
  | Err e => e ∈ [Division_by_zero; Non_residue; Tonelli_failed]
  end.
Proof.
  rewrite recoverEvenY_eq, invP_den.
  destruct (bind2_cases (invP (1 - BJJ_D * (x * x)))
    (λ inv, sqrtP (modP (modP (1 - modP (BJJ_A * modP (x * x))) * inv)))
    (λ inv y, (modP x, if negb (Z.land y 1 =? 0) then modP (BJJ_P - y) else y)))
    as [(e & Ei & ->)|(inv & Ei & [(e & Es & ->)|(y & Es & ->)])].
  { rewrite (invP_err _ _ Ei). left. }
  { pose proof (sqrtP_spec (modP (modP (1 - modP (BJJ_A * modP (x * x))) * inv))) as Hs.
    rewrite Es in Hs. by destruct Hs as [-> | ->]; [right; left|right; right; left]. }
  pose proof (sqrtP_spec (modP (modP (1 - modP (BJJ_A * modP (x * x))) * inv))) as Hs. rewrite Es in Hs.
  destruct Hs as [E Hy]. rewrite !modP_eqm in E. rewrite land_1, modP_mod.
  pose proof (Z.mod_pos_bound y 2 ltac:(lia)). destruct (Z.eqb_spec (y mod 2) 0) as [H0|H1]; cbn [negb].
  { split_and!; [done|lia|lia|done|by exists inv]. }
  assert (modP (BJJ_P - y) = BJJ_P - y) as ->.
  { rewrite modP_mod, Z.mod_small; [done|]. assert (y ≠ 0) by (by intros ->). lia. }
  split_and!; [done|lia|lia|by apply even_flip|]. exists inv. split; [done|].
  rewrite <- E. apply flip_square.
Qed.
End Fields.

(** ** [note/keys.ts], [crypto/Kdf.ts], [crypto/index.ts] *)
Module Keys.
Import Fields.
Section Keys.
Context `{BabyJubjub} `{Poseidon2}.

Definition VIEW_LABEL : string := "kakure.view".
Definition IN_KEY_LABEL : string := "kakure.inKey".
Definition SELF_EPH_LABEL : string := "kakure.selfEph".
Definition SELF_SPEND_LABEL : string := "kakure.selfSpend".
Definition PUB_IN_LABEL : string := "kakure.pubIn".
Definition MAX_INDEX_ROLL : nat := 256.

(** [new Fr(x)], [toFr]. *)
Definition toFr (x : Z) : result KeyErr Z :=
  if (0 <=? x) && (x <? BN254_SCALAR_FIELD_MODULUS) then Ok x else Err (Not_field x).
Definition toReducedFr (x : Z) : result KeyErr Z := toFr (Z.rem x BN254_SCALAR_FIELD_MODULUS).
Definition toBjjScalar (fr : Z) : Z := Z.rem fr subOrder.

(** A zero nonce and an absent one hash the same two inputs. *)
Definition derive (purpose : string) (master : Z) (nonce : option Z) : result KeyErr Z :=
  purposeFr ← map_err Kdf_error (Dkg.Gjkr.stringToFr purpose);
  Ok (poseidon2 ([master; purposeFr] ++
        match nonce with Some n => if n =? 0 then [] else [n] | None => [] end)).

Definition deriveViewKey (sk_root : Z) : result KeyErr Z := derive VIEW_LABEL sk_root None.
Definition deriveIncomingKey (sk_view index : Z) : result KeyErr Z :=
  i ← toFr index; k ← derive IN_KEY_LABEL sk_view (Some i); Ok (toBjjScalar k).
Definition deriveSelfEphemeral (sk_view index : Z) : result KeyErr Z :=
  i ← toFr index; k ← derive SELF_EPH_LABEL sk_view (Some i); Ok (toBjjScalar k).
Definition deriveSelfSpendKey (sk_view : Z) : result KeyErr Z :=
  k ← derive SELF_SPEND_LABEL sk_view None; Ok (toBjjScalar k).
Definition derivePublicIncomingKey (sk_view index : Z) : result KeyErr Z :=
  i ← toFr index; k ← derive PUB_IN_LABEL sk_view (Some i); Ok (toBjjScalar k).

Definition publicKey (scalar : Z) : Point := mulPointEscalar Base8 scalar.
Definition pubkeyOwner (pub : Point) : Z := poseidon2 [pub.1; pub.2].
Definition isEvenY (pub : Point) : bool := Z.land pub.2 1 =? 0.
Definition discoveryTag (pub : Point) : result KeyErr Z := toFr pub.1.

Record CanonicalAddress := mkCanonical { index : Z; pub : Point; tag : Z }.

Fixpoint roll_loop (derive : Z → result KeyErr Z) (attempts : nat) (startIndex index : Z) :
    result KeyErr CanonicalAddress :=
  match attempts with
  | O => Err (No_even startIndex)
  | S attempts =>
      k ← derive index;
      let pub := publicKey k in
      if isEvenY pub then t ← discoveryTag pub; Ok (mkCanonical index pub t)
      else roll_loop derive attempts startIndex (index + 1)
  end.
Definition rollToEvenY (derive : Z → result KeyErr Z) (startIndex : Z) : result KeyErr CanonicalAddress :=
  roll_loop derive MAX_INDEX_ROLL startIndex startIndex.

Definition canonicalIncomingAddress (sk_view startIndex : Z) : result KeyErr CanonicalAddress :=
  rollToEvenY (deriveIncomingKey sk_view) startIndex.
Definition canonicalSelfTag (sk_view startIndex : Z) : result KeyErr CanonicalAddress :=
  rollToEvenY (deriveSelfEphemeral sk_view) startIndex.

Definition assertBjjSubgroupPoint (pub : Point) (subject : string) : result KeyErr unit :=
  if negb (inCurve pub) then Err (Off_curve subject)
  else if (pub.1 =? 0) && (pub.2 =? 1) then Err (Identity_point subject)
  else
    let o := mulPointEscalar pub subOrder in
    if negb (o.1 =? 0) || negb (o.2 =? 1) then Err (Off_subgroup subject) else Ok tt.

Definition canonicalPublicAddress (sk_view index : Z) : result KeyErr (Z * Point) :=
  k ← derivePublicIncomingKey sk_view index;
  let pub := publicKey k in
  _ ← assertBjjSubgroupPoint pub "Public receiving key"; Ok (index, pub).

(** *** The roll finds the first even index of its window *)
Lemma roll_loop_spec derive n start i : (∀ j, i <= j < i + Z.of_nat n → is_ok (derive j) = true) →
  let even j := ∃ k, derive j = Ok k ∧ isEvenY (publicKey k) = true in
  match roll_loop derive n start i with
  | Ok a => i <= index a < i + Z.of_nat n ∧ even (index a) ∧
            (∀ j, i <= j < index a → ~ even j) ∧
            derive (index a) ≫= (λ k, Ok (publicKey k)) = Ok (pub a) ∧ tag a = (pub a).1
  | Err e => (e = No_even start ∧ ∀ j, i <= j < i + Z.of_nat n → ~ even j) ∨ ∃ x, e = Not_field x
  end.
Proof.
  intros Hok even. revert i Hok. induction n as [|n IH]; intros i Hok; cbn [roll_loop]; [left; split; [done|intros ? ?; lia]|].
  pose proof (Hok i ltac:(lia)) as Hi. unfold even in *.
  destruct (derive i) as [k|] eqn:Ek; [|done]. cbn [mbind result_bind].
  destruct (isEvenY (publicKey k)) eqn:Ev.
  - unfold discoveryTag, toFr. destruct (_ && _); cbn [mbind result_bind]; [|by right; eauto].
    cbn [index pub tag]. rewrite Ek. split_and!; [lia|lia|by eauto|intros ? ?; lia|done|done].
  - assert (Hodd : ~ ∃ k, derive i = Ok k ∧ isEvenY (publicKey k) = true) by (intros (? & ? & ?); congruence).
    specialize (IH (i + 1) ltac:(intros; apply Hok; lia)). revert IH.
    destruct (roll_loop derive n start (i + 1)) as [a|e].
    + intros (? & ? & Hm & ? & ?). split_and!; [lia|lia|done| |done|done].
      intros j Hj. destruct (decide (j = i)) as [->|]; [done|apply Hm; lia].
    + intros [[-> Hm]|?]; [left|by right]. split; [done|].
      intros j Hj. destruct (decide (j = i)) as [->|]; [done|apply Hm; lia].
Qed.

(** The canonical address of an index is the first index of the window
    from it whose point has an even y, its tag that point's x: no earlier even
    point is skipped and no odd one is accepted; the search fails only when all
    256 points are odd, or on a coordinate that is no field element. *)
Theorem rollToEvenY_first derive start : (∀ j, start <= j < start + 256 → is_ok (derive j) = true) →
  let even j := ∃ k, derive j = Ok k ∧ isEvenY (publicKey k) = true in
  match rollToEvenY derive start with
  | Ok a => start <= index a < start + 256 ∧ even (index a) ∧ (∀ j, start <= j < index a → ~ even j) ∧
            derive (index a) ≫= (λ k, Ok (publicKey k)) = Ok (pub a) ∧ tag a = (pub a).1
  | Err e => (e = No_even start ∧ ∀ j, start <= j < start + 256 → ~ even j) ∨ ∃ x, e = Not_field x
  end.
Proof. apply (roll_loop_spec derive MAX_INDEX_ROLL start start). Qed.
(** Success alone: the first even index, and every index before it odd. *)
Lemma roll_loop_Ok derive n start i a : roll_loop derive n start i = Ok a → i <= index a ∧
  (∃ k, derive (index a) = Ok k ∧ isEvenY (publicKey k) = true ∧ pub a = publicKey k) ∧
  ∀ j, i <= j < index a → ∃ k, derive j = Ok k ∧ isEvenY (publicKey k) = false.
Proof.
  revert i. induction n as [|n IH]; intros i; cbn [roll_loop]; [done|]. intros (k & Hk & H2)%bind_Ok. revert H2.
  destruct (isEvenY (publicKey k)) eqn:Ev.
  - intros (t & _ & [= <-])%bind_Ok. cbn [index pub]. split_and!; [lia|by eauto|intros; lia].
  - intros (Hle & Ha & Hodd)%IH. split_and!; [lia|done|]. intros j Hj.
    destruct (decide (j = i)) as [->|]; [by eauto|]. apply Hodd. lia.
Qed.
End Keys.

(** Recovering a point from its x always ends: in the even point of that x,
    its y reduced and a square root of the curve equation's quotient, or in
    one of the three rejections; the loops never run out of rounds. *)
Theorem recoverEvenY_root x :
  match recoverEvenY x with
  | Ok (x', y) =>
      x' = x mod BJJ_P ∧ 0 <= y < BJJ_P ∧ y mod 2 = 0 ∧
      ∃ inv, invP (1 - BJJ_D * (x * x)) = Ok inv ∧ y * y =[BJJ_P] (1 - BJJ_A * (x * x)) * inv
  | Err e => e ∈ [Division_by_zero; Non_residue; Tonelli_failed]
  end.
Proof. apply recoverEvenY_spec. Qed.
End Keys.

(** ** A toy group of order 13 whose elements other than the identity have an even y *)
Module EvenCurve.
Import Keys.

Definition pt (k : Z) : Point := (k mod 13, if k mod 13 =? 0 then 1 else 2).
#[export] Instance even_curve : BabyJubjub := {|
  addPoint a b := pt (a.1 + b.1);
  mulPointEscalar p k := pt (p.1 * k);
  Base8 := (1, 2);
  subOrder := 13;
  inCurve p := (0 <=? p.1) && (p.1 <? 13) && (p.2 =? (if p.1 =? 0 then 1 else 2));
|}.

Lemma pt_fst k : (pt k).1 =[13] k.
Proof. apply eqm_mod. Qed.
Lemma pt_eqm j k : j =[13] k → pt j = pt k.
Proof. rewrite eqm_iff. unfold pt. by intros ->. Qed.

#[export] Instance even_curve_laws : BabyJubjubLaws.
Proof.
  split; unfold mulPointEscalar, addPoint, Base8, subOrder, inCurve, even_curve; cbn [fst snd].
  - apply ToyCurve.prime_13.
  - done.
  - intros j k _ _. apply pt_eqm. rewrite !pt_fst. apply eqm_of_eq. ring.
  - intros j k _ _. apply pt_eqm. rewrite !pt_fst. apply eqm_of_eq. ring.
  - intros j k _ _ E. rewrite <- (Z.mul_1_l j), <- (Z.mul_1_l k), <- (pt_fst (1 * j)), E. apply pt_fst.
  - intros k j _ _ E. apply pt_eqm. by rewrite E.
  - intros k _. pose proof (Z.mod_pos_bound (1 * k) 13). unfold pt. cbn [fst snd].
    by rewrite (proj2 (Z.leb_le _ _)), (proj2 (Z.ltb_lt _ _)), Z.eqb_refl by lia.
  - intros p k _ _. pose proof (Z.mod_pos_bound (p.1 * k) 13). unfold canonical, pt.
    cbn [fst snd]. unfold BN254_SCALAR_FIELD_MODULUS. destruct (_ =? 0); lia.
  - intros [x y]. cbn [fst snd]. rewrite !andb_true_iff, Z.leb_le, Z.ltb_lt, Z.eqb_eq.
    intros [Hx ->] _ _. exists x. split; [lia|]. unfold pt. by rewrite Z.mul_1_l, Z.mod_small by lia.
Qed.

Lemma rollToEvenY_first_witness : Keys.index <$> rollToEvenY Ok 13 = Ok 14 ∧ 13 <= 14 < 13 + 256.
Proof.
  split; [reflexivity|].
  assert (H := rollToEvenY_first Ok 13 (λ _ _, eq_refl)). vm_compute in H. cbv zeta in H. lia.
Defined.
End EvenCurve.
