(* ===== verification/Address.v ===== *)
(** * Addresses and accounts ([packages/sdk/src/address.ts],
    [packages/sdk/src/keys/SolanaAccount.ts])

    [Address] is the textual form of a receiving point, [Account] the key
    hierarchy rooted in one signature, with its caches.  Point packing
    ([@zk-kit/baby-jubjub]) and Base58Check ([bs58check]) are the parameter
    [AddressCodec], Ed25519 signing is an argument. *)
From S2P Require Import Prelude Bytes Zq Tss Dkg Keys.
Local Open Scope Z_scope.

(** Point packing and Base58Check; [None] is a rejected input. *)
Class AddressCodec := {
  packPoint : Point → Z;
  unpackPoint : Z → option Point;
  bs58_encode : list Z → string;
  bs58_decode : string → option (list Z);
}.

Fixpoint has_char (c : ascii) (s : string) : bool :=
  match s with EmptyString => false | String d s => Ascii.eqb c d || has_char c s end.

(** Documented behaviour: a point of the subgroup packs into 32 bytes and
    unpacks to itself, Base58Check decodes what it encodes, and its alphabet
    has no underscore. *)
Class AddressCodecLaws `{BabyJubjub, AddressCodec} : Prop := {
  pack_bound p : inCurve p = true → canonical p → 0 <= packPoint p < 2 ^ 256;
  unpack_pack p : inCurve p = true → canonical p → unpackPoint (packPoint p) = Some p;
  bs58_decode_encode l : Forall is_byte l → bs58_decode (bs58_encode l) = Some l;
  bs58_alphabet l : has_char "_" (bs58_encode l) = false;
}.

(** ** [address.ts] *)
Module Address.
Import Keys.

Record KakureAddress := mkAddress { inPub : Point; a_index : Z }.

Inductive AddressError :=
  | Negative_value | Exceeds_32_bytes
  | Odd_y | Key (e : KeyErr)
  | Payload_length (n : nat) | Unpack_failed | Bad_checksum
  | Wrong_kind | Bad_format.

(** [s.split(c)]. *)
Fixpoint split_char (c : ascii) (s cur : string) : list string :=
  match s with
  | EmptyString => [cur]
  | String d s => if Ascii.eqb c d then cur :: split_char c s "" else split_char c s (cur +:+ String d "")
  end.

Section Address.
Context `{BabyJubjub} `{AddressCodec}.

Definition ADDRESS_PREFIX : string := "kak".
Definition PUBLIC_ADDRESS_PREFIX : string := "kakpub".
Definition FIELD_BYTES : nat := 32.
Definition PAYLOAD_BYTES : nat := FIELD_BYTES * 2.

Definition bigintTo32BufferBE (num : Z) : result AddressError (list Z) :=
  if num <? 0 then Err Negative_value
  else if Z.shiftl 1 256 <=? num then Err Exceeds_32_bytes
  else
    let hex := toString16 num in
    let hex := if negb (String.length hex mod 2 =? 0)%nat then String "0" hex else hex in
    Ok (bytes_of_hex (padStart0 64 hex)).

Definition assertValidPoint (point : Point) : result AddressError unit :=
  _ ← map_err Key (assertBjjSubgroupPoint point "Address point");
  guard_err (isEvenY point) Odd_y.

Definition encodePayload (prefix : string) (point : Point) (index : Z) : result AddressError string :=
  p ← bigintTo32BufferBE (packPoint point);
  i ← bigintTo32BufferBE index;
  Ok (prefix +:+ "_" +:+ bs58_encode (p ++ i)).

(** [BigInt("0x" + hex)] of a slice of bytes. *)
Definition sliceToBigInt (payload : list Z) (start : nat) : Z :=
  of_be (take FIELD_BYTES (drop start payload)).

Definition decodePayload (body : string) : result AddressError (Point * Z) :=
  match bs58_decode body with
  | None => Err Bad_checksum
  | Some payload =>
      if negb (length payload =? PAYLOAD_BYTES)%nat then Err (Payload_length (length payload))
      else match unpackPoint (sliceToBigInt payload 0) with
           | None => Err Unpack_failed
           | Some point => Ok (point, sliceToBigInt payload FIELD_BYTES)
           end
  end.

Definition splitAddress (address : string) : result AddressError (string * string) :=
  match split_char "_" address "" with
  | [prefix; body] => Ok (prefix, body)
  | _ => Err Bad_format
  end.

Definition encodeKakureAddress (addr : KakureAddress) : result AddressError string :=
  _ ← assertValidPoint (inPub addr); encodePayload ADDRESS_PREFIX (inPub addr) (a_index addr).
Definition decodeKakureAddress (address : string) : result AddressError KakureAddress :=
  '(prefix, body) ← splitAddress address;
  if String.eqb prefix PUBLIC_ADDRESS_PREFIX then Err Wrong_kind
  else if negb (String.eqb prefix ADDRESS_PREFIX) then Err Bad_format
  else
    '(point, index) ← decodePayload body;
    _ ← assertValidPoint point; Ok (mkAddress point index).

Definition encodeKakurePublicAddress (addr : KakureAddress) : result AddressError string :=
  _ ← map_err Key (assertBjjSubgroupPoint (inPub addr) "Public address point");
  encodePayload PUBLIC_ADDRESS_PREFIX (inPub addr) (a_index addr).
Definition decodeKakurePublicAddress (address : string) : result AddressError KakureAddress :=
  '(prefix, body) ← splitAddress address;
  if String.eqb prefix ADDRESS_PREFIX then Err Wrong_kind
  else if negb (String.eqb prefix PUBLIC_ADDRESS_PREFIX) then Err Bad_format
  else
    '(point, index) ← decodePayload body;
    _ ← map_err Key (assertBjjSubgroupPoint point "Public address point"); Ok (mkAddress point index).

(** *** The 32-byte buffer is the big-endian encoding *)
Lemma bigintTo32BufferBE_spec num :
  bigintTo32BufferBE num
  = if decide (num < 0) then Err Negative_value
    else if decide (2 ^ 256 <= num) then Err Exceeds_32_bytes else Ok (be_bytes 32 num).
Proof.
  unfold bigintTo32BufferBE. change (Z.shiftl 1 256) with (2 ^ 256).
  destruct (Z.ltb_spec num 0) as [Hn|Hn], (decide (num < 0)); try (done || lia).
  destruct (Z.leb_spec (2 ^ 256) num) as [Hb|Hb], (decide (2 ^ 256 <= num)); try (done || lia). f_equal.
  set (hex := if _ : bool then _ else _).
  assert (Hhex : parse_hex 0 hex = Some num ∧ (String.length hex <= 64)%nat).
  { pose proof (length_hex_loop (S (Z.to_nat (Z.log2 num))) num "" 63 ltac:(simpl; lia)) as Hl.
    change (hex_loop _ num "") with (toString16 num) in Hl. cbn [String.length] in Hl. unfold hex.
    destruct (Nat.eqb_spec (String.length (toString16 num) mod 2) 0) as [|Hodd]; cbn [negb].
    - rewrite parse_hex_toString16 by done. split; [done|lia].
    - cbn [parse_hex]. change (hex_value "0") with (Some 0). cbn [mbind option_bind].
      rewrite parse_hex_toString16 by done. split; [done|]. cbn [String.length].
      destruct (decide (String.length (toString16 num) = 64)%nat) as [E|]; [by rewrite E in Hodd|lia]. }
  destruct Hhex as [Hp Hl].
  destruct (bytes_of_hex_spec 32 0 (padStart0 64 hex) num) as (Hf & H32 & E).
  - by rewrite parse_hex_padStart0.
  - rewrite length_padStart0. lia.
  - rewrite Z.mul_0_l, Z.add_0_l in E. revert Hf H32 E. generalize (bytes_of_hex (padStart0 64 hex)).
    intros B Hf H32 ->. rewrite <- (be_bytes_of_be B) at 1 by done. by rewrite H32.
Qed.

Lemma string_app_nil_r s : s +:+ "" = s.
Proof. induction s as [|c s IH]; [done|]. change (String c s +:+ "") with (String c (s +:+ "")). by rewrite IH. Qed.
Lemma string_app_snoc s c t : (s +:+ String c "") +:+ t = s +:+ String c t.
Proof.
  induction s as [|d s IH]; [done|].
  change ((String d s +:+ String c "") +:+ t) with (String d ((s +:+ String c "") +:+ t)). by rewrite IH.
Qed.
Lemma split_char_none c s cur : has_char c s = false → split_char c s cur = [cur +:+ s].
Proof.
  revert cur. induction s as [|d s IH]; intros cur; cbn [has_char split_char].
  - intros _. by rewrite string_app_nil_r.
  - intros [Hd Hs]%orb_false_iff. rewrite Hd, IH by done. by rewrite string_app_snoc.
Qed.
Lemma split_char_app c a b cur : has_char c a = false →
  split_char c (a +:+ String c b) cur = (cur +:+ a) :: split_char c b "".
Proof.
  revert cur. induction a as [|d a IH]; intros cur; cbn [has_char split_char].
  - intros _. change ("" +:+ String c b) with (String c b). cbn [split_char]. by rewrite Ascii.eqb_refl, string_app_nil_r.
  - intros [Hd Ha]%orb_false_iff. change (String d a +:+ String c b) with (String d (a +:+ String c b)).
    cbn [split_char]. rewrite Hd, IH by done. by rewrite string_app_snoc.
Qed.

Context {Laws : AddressCodecLaws}.

Lemma decode_encoded prefix point index body :
  has_char "_" prefix = false → inCurve point = true → canonical point →
  encodePayload prefix point index = Ok body →
  ∃ b, splitAddress body = Ok (prefix, b) ∧ decodePayload b = Ok (point, index).
Proof.
  intros Hpre Hc Hcan. pose proof (pack_bound point Hc Hcan) as Hp. unfold encodePayload.
  rewrite !bigintTo32BufferBE_spec, (decide_False (P := packPoint point < 0)),
    (decide_False (P := 2 ^ 256 <= packPoint point)) by lia.
  cbn [mbind result_bind]. case_decide as Hn; [done|]. case_decide as Hb; [done|].
  cbn [mbind result_bind]. remember (be_bytes 32 (packPoint point) ++ be_bytes 32 index) as payload eqn:Ep.
  intros [= <-].
  exists (bs58_encode payload). unfold splitAddress.
  change ("_" +:+ bs58_encode payload) with (String "_" (bs58_encode payload)).
  rewrite split_char_app by done. rewrite split_char_none by apply bs58_alphabet. split; [done|].
  unfold decodePayload. rewrite bs58_decode_encode by (subst payload; apply Forall_app; auto).
  rewrite Ep, length_app, !length_be_bytes. change (negb _) with false. cbn [negb].
  unfold sliceToBigInt, FIELD_BYTES. rewrite drop_0, take_app_length' by (by rewrite length_be_bytes).
  rewrite of_be_be_bytes by (change (256 ^ Z.of_nat 32) with (2 ^ 256); lia).
  rewrite unpack_pack by done. rewrite drop_app_length' by (by rewrite length_be_bytes).
  rewrite take_ge by (by rewrite length_be_bytes).
  by rewrite of_be_be_bytes by (change (256 ^ Z.of_nat 32) with (2 ^ 256); lia).
Qed.

Lemma assertBjjSubgroupPoint_curve p subject :
  assertBjjSubgroupPoint p subject = Ok tt → inCurve p = true.
Proof. unfold assertBjjSubgroupPoint. by destruct (inCurve p). Qed.
Lemma subgroup_label p s s' : assertBjjSubgroupPoint p s = Ok tt → assertBjjSubgroupPoint p s' = Ok tt.
Proof. unfold assertBjjSubgroupPoint. by repeat case_match. Qed.

(** Address round trips. A private and a public address decode to the
    point and index they encode, and neither kind is ever read as the other. *)
Theorem address_roundtrip addr text : canonical (inPub addr) →
  (encodeKakureAddress addr = Ok text →
   decodeKakureAddress text = Ok addr ∧ decodeKakurePublicAddress text = Err Wrong_kind) ∧
  (encodeKakurePublicAddress addr = Ok text →
   decodeKakurePublicAddress text = Ok addr ∧ decodeKakureAddress text = Err Wrong_kind).
Proof.
  intros Hcan. destruct addr as [p i]. cbn [inPub] in Hcan.
  unfold encodeKakureAddress, encodeKakurePublicAddress, decodeKakureAddress,
    decodeKakurePublicAddress, assertValidPoint. cbn [inPub a_index]. split.
  - destruct (assertBjjSubgroupPoint p "Address point") as [[]|] eqn:Ha; [|done].
    cbn [map_err mbind result_bind]. destruct (isEvenY p) eqn:Ev; [|done]. cbn [guard_err mbind result_bind].
    intros (b & Hs & Hd)%decode_encoded; [|done|by eapply assertBjjSubgroupPoint_curve|done].
    rewrite Hs. cbn [mbind result_bind]. cbn -[decodePayload]. rewrite Hd. cbn [mbind result_bind].
    rewrite Ha. cbn [map_err mbind result_bind]. by rewrite Ev.
  - destruct (assertBjjSubgroupPoint p "Public address point") as [[]|] eqn:Ha; [|done].
    cbn [map_err mbind result_bind].
    intros (b & Hs & Hd)%decode_encoded; [|done|by eapply assertBjjSubgroupPoint_curve|done].
    rewrite Hs. cbn -[decodePayload]. rewrite Hd. cbn [mbind result_bind]. by rewrite Ha.
Qed.
End Address.
End Address.

(** ** [keys/SolanaAccount.ts] *)
Module Account.
Import Keys.
Section Account.
Context `{BabyJubjub} `{Poseidon2}.
(** [ed25519.sign(message, seed)]. *)
Context (ed25519_sign : list Z → list Z → list Z).

Definition ROOT_LABEL : string := "kakure.root".
Definition PSS_STATE_LABEL : string := "kakure.pss.state".

(** [new TextEncoder().encode(text)], for 7-bit text. *)
Definition utf8 (text : string) : list Z :=
  (λ c, Z.of_nat (nat_of_ascii c)) <$> String.list_ascii_of_string text.
Definition ACCOUNT_SEED_MESSAGE : list Z := utf8 "kakure.account.v1".

Inductive AccountError :=
  | Derivation (e : KeyErr) | Not_deterministic | Message_too_long (n : Z) | Syntax_error.

Record SolanaAccount := mkAccount {
  skRoot : Z; skView : option Z; selfSpend : option Z; stateKey : option Z }.

Definition getViewKey : M SolanaAccount KeyErr Z :=
  a ← get;
  match skView a with
  | Some v => mret v
  | None =>
      v ← lift (λ e, e) (deriveViewKey (skRoot a));
      _ ← modify (λ a, mkAccount (skRoot a) (Some v) (selfSpend a) (stateKey a)); mret v
  end.
Definition with_view {A} (f : Z → result KeyErr A) : M SolanaAccount KeyErr A :=
  v ← getViewKey; lift (λ e, e) (f v).
Definition getIncomingKey (index : Z) : M SolanaAccount KeyErr Z := with_view (λ v, deriveIncomingKey v index).
Definition getPublicIncomingKey (index : Z) : M SolanaAccount KeyErr Z :=
  with_view (λ v, derivePublicIncomingKey v index).
Definition getSelfEphemeral (index : Z) : M SolanaAccount KeyErr Z :=
  with_view (λ v, deriveSelfEphemeral v index).
Definition pub_of (m : M SolanaAccount KeyErr Z) : M SolanaAccount KeyErr Point :=
  k ← m; mret (publicKey k).
Definition getIncomingPub (index : Z) := pub_of (getIncomingKey index).
Definition getPublicIncomingPub (index : Z) := pub_of (getPublicIncomingKey index).
Definition getSelfSpendKey : M SolanaAccount KeyErr Z :=
  a ← get;
  match selfSpend a with
  | Some k => mret k
  | None =>
      k ← with_view deriveSelfSpendKey;
      _ ← modify (λ a, mkAccount (skRoot a) (skView a) (Some k) (stateKey a)); mret k
  end.
Definition getSelfSpendPub := pub_of getSelfSpendKey.
Definition getStateKey : M SolanaAccount KeyErr Z :=
  a ← get;
  match stateKey a with
  | Some k => mret k
  | None =>
      k ← lift (λ e, e) (derive PSS_STATE_LABEL (skRoot a) None);
      _ ← modify (λ a, mkAccount (skRoot a) (skView a) (selfSpend a) (Some k)); mret k
  end.
Definition account_canonicalIncomingAddress (start : Z) := with_view (λ v, canonicalIncomingAddress v start).
Definition account_canonicalSelfTag (start : Z) := with_view (λ v, canonicalSelfTag v start).
Definition account_canonicalPublicAddress (i : Z) := with_view (λ v, canonicalPublicAddress v i).

(** [BigInt("0x" + bytesToHex(bytes))]. *)
Definition bigint_of_bytes (bytes : list Z) : result AccountError Z :=
  match hex_of_bytes bytes with
  | EmptyString => Err Syntax_error
  | s => match parse_hex 0 s with Some v => Ok v | None => Err Syntax_error end
  end.
Definition fromAccountSignature (signature : list Z) : result AccountError SolanaAccount :=
  v ← bigint_of_bytes signature;
  r ← map_err Derivation (toReducedFr v);
  root ← map_err Derivation (derive ROOT_LABEL r None);
  Ok (mkAccount root None None None).
Definition fromSeed (seed : list Z) : result AccountError SolanaAccount := fromAccountSignature seed.
Definition fromKeypair (secretKey : list Z) : result AccountError SolanaAccount :=
  fromAccountSignature (ed25519_sign ACCOUNT_SEED_MESSAGE (take 32 secretKey)).

Definition OFFCHAIN_MESSAGE_HEADER : list Z := 0xff :: utf8 "solana offchain".
Definition encodeSolanaOffchainMessage (message : list Z) : result AccountError (list Z) :=
  if 0xffff <? Z.of_nat (length message) then Err (Message_too_long (Z.of_nat (length message)))
  else Ok (OFFCHAIN_MESSAGE_HEADER ++ [0; 2] ++ le_bytes 2 (Z.of_nat (length message)) ++ message).
Definition newline : string := String (ascii_of_nat 10) "".
Definition formatWalletAccountSeedMessage (walletBase58 appOrigin : string) : result AccountError (list Z) :=
  encodeSolanaOffchainMessage (utf8 ("kakure.account.v1" +:+ newline +:+
    "This signature is your Kakure spending key. Only sign on " +:+ appOrigin +:+ "." +:+ newline +:+
    "Wallet: " +:+ walletBase58)).
(** The two answers of [signMessage] are [sig1] and [sig2]. *)
Definition fromWalletSigner (signMessage : list Z → list Z * list Z) (walletBase58 appOrigin : string) :
    result AccountError SolanaAccount :=
  message ← formatWalletAccountSeedMessage walletBase58 appOrigin;
  let '(sig1, sig2) := signMessage message in
  if negb (String.eqb (hex_of_bytes sig1) (hex_of_bytes sig2)) then Err Not_deterministic
  else fromAccountSignature sig1.

(** *** The caches are transparent *)
Record cached (a : SolanaAccount) : Prop := {
  cached_view v : skView a = Some v → deriveViewKey (skRoot a) = Ok v;
  cached_spend k : selfSpend a = Some k → deriveViewKey (skRoot a) ≫= deriveSelfSpendKey = Ok k;
  cached_state k : stateKey a = Some k → derive PSS_STATE_LABEL (skRoot a) None = Ok k;
}.
(** [m] is the pure function [f] of the root secret. *)
Definition pure_of {A} (m : M SolanaAccount KeyErr A) (f : Z → result KeyErr A) : Prop :=
  ∀ a, cached a → (m a).2 = f (skRoot a) ∧ skRoot (m a).1 = skRoot a ∧ cached (m a).1.

Lemma getViewKey_pure : pure_of getViewKey deriveViewKey.
Proof.
  intros a Ha. unfold getViewKey, get, mbind, M_bind, lift, modify, mret, M_ret.
  destruct (skView a) as [v|] eqn:E; [by rewrite (cached_view a Ha v E)|]. destruct Ha as [Hv Hs Ht].
  destruct (deriveViewKey (skRoot a)) as [v|] eqn:Ev; [|done]. cbn [fst snd skRoot].
  split_and!; [done|done|]. split; cbn [skView skRoot selfSpend stateKey]; [naive_solver|by rewrite Ev|exact Ht].
Qed.
Lemma with_view_pure {A} (f : Z → result KeyErr A) :
  pure_of (with_view f) (λ root, deriveViewKey root ≫= f).
Proof.
  intros a Ha. destruct (getViewKey_pure a Ha) as (E & Hr & Hc).
  unfold with_view, mbind, M_bind, lift. destruct (getViewKey a) as [a' [v|e]]; cbn [fst snd] in *;
    rewrite <- E; [|done]. cbn [mbind result_bind]. split_and!; [by destruct (f v)|done|done].
Qed.
Lemma pub_of_pure m f : pure_of m f → pure_of (pub_of m) (λ root, k ← f root; Ok (publicKey k)).
Proof.
  intros Hm a Ha. destruct (Hm a Ha) as (E & Hr & Hc). unfold pub_of, mbind, M_bind, mret, M_ret.
  destruct (m a) as [a' [v|e]]; cbn [fst snd] in *; by rewrite <- E.
Qed.
Lemma getSelfSpendKey_pure : pure_of getSelfSpendKey (λ root, deriveViewKey root ≫= deriveSelfSpendKey).
Proof.
  intros a Ha. destruct (with_view_pure deriveSelfSpendKey a Ha) as (E' & Hr & Hc).
  assert (Hk : ∀ k, selfSpend a = Some k → Ok k = deriveViewKey (skRoot a) ≫= deriveSelfSpendKey).
  { intros k Hk. symmetry. by apply (cached_spend a Ha). }
  cbv beta in *. remember (deriveViewKey (skRoot a) ≫= deriveSelfSpendKey) as r eqn:Er. unfold getSelfSpendKey, get, mbind, M_bind, modify, mret, M_ret.
  destruct (selfSpend a) as [k|]; [by rewrite (Hk k eq_refl)|].
  destruct (with_view deriveSelfSpendKey a) as [a' [v|e]]; cbn [fst snd] in *; [|done].
  split_and!; [done|done|]. destruct Hc as [H1 H2 H3]. split; cbn; [done| |done].
  intros k [= <-]. by rewrite Hr, <- Er, <- E'.
Qed.
Lemma getStateKey_pure : pure_of getStateKey (λ root, derive PSS_STATE_LABEL root None).
Proof.
  intros a Ha. unfold getStateKey, get, mbind, M_bind, lift, modify, mret, M_ret.
  destruct (stateKey a) as [k|] eqn:E; [by rewrite (cached_state a Ha k E)|].
  destruct (derive PSS_STATE_LABEL (skRoot a) None) as [v|] eqn:Ev; [|done]. cbn [fst snd skRoot].
  split_and!; [done|done|]. destruct Ha as [H1 H2 H3]. split; cbn; [done|done|naive_solver].
Qed.

(** The signature alone determines the account: whatever has been called
    before, every key an account hands out is a function of its root secret,
    and an account made from a wallet is refused when the signer's two answers
    differ and is otherwise the account of that signature. *)
Theorem account_deterministic :
  pure_of getViewKey deriveViewKey ∧
  pure_of getSelfSpendKey (λ root, deriveViewKey root ≫= deriveSelfSpendKey) ∧
  pure_of getStateKey (λ root, derive PSS_STATE_LABEL root None) ∧
  (∀ i, pure_of (getSelfEphemeral i) (λ root, v ← deriveViewKey root; deriveSelfEphemeral v i)) ∧
  (∀ i, pure_of (getIncomingPub i)
     (λ root, k ← (v ← deriveViewKey root; deriveIncomingKey v i); Ok (publicKey k))) ∧
  (∀ sig a, fromAccountSignature sig = Ok a → cached a) ∧
  ∀ sign wallet origin m sig1 sig2,
    formatWalletAccountSeedMessage wallet origin = Ok m → sign m = (sig1, sig2) →
    Forall is_byte sig1 → Forall is_byte sig2 →
    fromWalletSigner sign wallet origin
    = if decide (sig1 = sig2) then fromAccountSignature sig1 else Err Not_deterministic.
Proof.
  split_and!; [apply getViewKey_pure|apply getSelfSpendKey_pure|apply getStateKey_pure|..].
  - intros i. apply with_view_pure.
  - intros i. apply pub_of_pure, with_view_pure.
  - intros sig a. unfold fromAccountSignature.
    intros (v & _ & (r & _ & (root & _ & [= <-])%bind_Ok)%bind_Ok)%bind_Ok. by split.
  - intros sign wallet origin m sig1 sig2 Hm Hsig H1 H2. unfold fromWalletSigner.
    rewrite Hm. cbn [mbind result_bind]. rewrite Hsig.
    destruct (String.eqb_spec (hex_of_bytes sig1) (hex_of_bytes sig2)) as [E|E]; cbn [negb].
    + rewrite decide_True; [done|]. by rewrite <- (bytes_of_hex_of_bytes sig1), E, bytes_of_hex_of_bytes.
    + rewrite decide_False; [done|]. by intros ->.
Qed.
End Account.
End Account.

(** ** Witness: hexadecimal for Base58Check on the toy group *)
Module AddressWitness.
Import EvenCurve Address.

#[local] Instance toy_codec : AddressCodec := {|
  packPoint p := p.1;
  unpackPoint x := Some (x, if x =? 0 then 1 else 2);
  bs58_encode := hex_of_bytes;
  bs58_decode s := Some (bytes_of_hex s);
|}.
Lemma hex_no_underscore l : has_char "_" (hex_of_bytes l) = false.
Proof.
  assert (Hd : ∀ d, Ascii.eqb "_" (hex_digit d) = false).
  { intros d. unfold hex_digit. by repeat case_match. }
  induction l as [|b l IH]; [done|]. cbn [hex_of_bytes has_char]. by rewrite !Hd.
Qed.
#[local] Instance toy_codec_laws : AddressCodecLaws.
Proof.
  split; unfold packPoint, unpackPoint, bs58_encode, bs58_decode, toy_codec.
  - intros p _ [Hp _]. unfold BN254_SCALAR_FIELD_MODULUS in Hp. lia.
  - intros [x y]. unfold inCurve, even_curve. cbn [fst snd]. rewrite !andb_true_iff, Z.eqb_eq.
    by intros [_ ->] _.
  - intros l Hl. by rewrite bytes_of_hex_of_bytes.
  - apply hex_no_underscore.
Qed.

Definition toy_address : KakureAddress := mkAddress (5, 2) 7.
Lemma address_roundtrip_witness : ∃ text, encodeKakureAddress toy_address = Ok text ∧
  decodeKakureAddress text = Ok toy_address ∧ decodeKakurePublicAddress text = Err Wrong_kind.
Proof.
  destruct (encodeKakureAddress toy_address) as [text|e] eqn:E; [|vm_compute in E; discriminate].
  exists text. split; [done|]. apply (address_roundtrip toy_address text); [|exact E].
  unfold canonical, BN254_SCALAR_FIELD_MODULUS. cbn. lia.
Defined.
End AddressWitness.
