(* ===== verification/Trace.v ===== *)
(** * Notes and the spend-graph tracer ([note/note.ts], [note/nullifier.ts],
    [threshold/chainTrace.ts])

    [Note] is the leaf commitment and the packing of parent indices, [Trace]
    the two traversals. The chain state and the decryption hook are parameters
    that nothing is assumed of; a decryption that rejects aborts the trace and
    is not modelled. Field elements are integers, Poseidon2 is a parameter. *)
From S2P Require Import Prelude Bytes Tss.
Local Open Scope Z_scope.

(** ** [note.ts], [nullifier.ts] *)
Module Note.
Section Note.
Context `{Poseidon2}.

Definition U32_MAX : Z := 0xffffffff.
Definition TWO_POW_32 : Z := Z.shiftl 1 32.
Definition TWO_POW_64 : Z := Z.shiftl 1 64.
Definition TWO_POW_128 : Z := Z.shiftl 1 128.
Definition PSI_DOMAIN : Z := 0x20b80b02c7b72d50c3f3dbdb4aa38592cdac5c1aa0f9d3f3509480ae234a790.

Record Note := mkNote {
  noteVersion : Z; assetId : Z; noteType : Z; conditionsHash : Z;
  value : Z; owner : Z; psi : Z; parents : Z }.
Inductive NoteError := Value_out_of_range (v : Z) | Not_u32 (x : Z) | Exceeds_64.

Definition leaf (note : Note) : result NoteError Z :=
  if (value note <? 0) || (TWO_POW_128 <=? value note) then Err (Value_out_of_range (value note))
  else Ok (poseidon2 [noteVersion note; assetId note; noteType note; conditionsHash note;
                      value note; owner note; psi note; parents note]).

Definition assertU32 (v : Z) : result NoteError Z :=
  if (v <? 0) || (0xffffffff <? v) then Err (Not_u32 v) else Ok v.
Definition packParents (p0 p1 : Z) : result NoteError Z :=
  index0 ← assertU32 p0; index1 ← assertU32 p1; Ok (index0 + index1 * TWO_POW_32).
Definition PARENTS_HIDDEN : Z := BN254_SCALAR_FIELD_MODULUS - 1.
Definition unpackParents (packed : Z) : result NoteError (Z * Z) :=
  if TWO_POW_64 <=? packed then Err Exceeds_64
  else Ok (Z.land packed U32_MAX, Z.land (Z.shiftr packed 32) U32_MAX).

Definition computePsi (cek : Z) : Z := poseidon2 [cek; PSI_DOMAIN].
Definition computeNullifier (psi leafIndex : Z) : Z := poseidon2 [psi; leafIndex].

Lemma unpack_pack p0 p1 packed :
  packParents p0 p1 = Ok packed → unpackParents packed = Ok (p0, p1).
Proof.
  unfold packParents, assertU32. destruct (Z.ltb_spec p0 0), (Z.ltb_spec 0xffffffff p0); try done.
  destruct (Z.ltb_spec p1 0), (Z.ltb_spec 0xffffffff p1); try done. cbn [orb mbind result_bind].
  intros [= <-]. unfold unpackParents, TWO_POW_64, TWO_POW_32, U32_MAX.
  change (Z.shiftl 1 64) with (2 ^ 64). change (Z.shiftl 1 32) with (2 ^ 32).
  change 0xffffffff with (Z.ones 32) in *. rewrite !Z.land_ones, Z.shiftr_div_pow2 by lia.
  rewrite (proj2 (Z.leb_gt _ _)) by (change (Z.ones 32) with (2 ^ 32 - 1) in *; lia).
  change (Z.ones 32) with (2 ^ 32 - 1) in *.
  rewrite Z.mod_add, Z.div_add, Z.mod_small, (Z.div_small p0), Z.add_0_l, Z.mod_small by lia. done.
Qed.
End Note.
End Note.

(** ** [chainTrace.ts] *)
Module Trace.
Import Note.

Record LeafData := mkLeaf { ephPub : Point; ciphertext : list Z; leaf_of : Z }.
Class ChainState := {
  getLeaf : Z → option LeafData;
  nextLeafIndex : Z;
  isNullifierSpent : Z → bool;
  childrenOfSpend : Z → list Z;
}.
Record SpendGraph := mkGraph { nodes : list Z; edges : list (Z * Z); truncated : list Z }.
Record Expansion := mkExpansion { neighbor : Z; edge : Z * Z }.
Record StepResult := mkStep { expansions : list Expansion; step_truncated : bool }.
Inductive TraceError := Out_of_range (index n : Z).

(** [GraphBuilder]: the sets as the insertion order of their members. *)
Record GraphBuilder := mkBuilder { nodeSet : list Z; edgeList : list (Z * Z); truncatedSet : list Z }.
Definition add_once {A} `{EqDecision A} (x : A) (l : list A) : list A :=
  if decide (x ∈ l) then l else l ++ [x].
Definition addNode (i : Z) (g : GraphBuilder) : GraphBuilder :=
  mkBuilder (add_once i (nodeSet g)) (edgeList g) (truncatedSet g).
Definition addTruncated (i : Z) (g : GraphBuilder) : GraphBuilder :=
  mkBuilder (nodeSet g) (edgeList g) (add_once i (truncatedSet g)).
Definition addEdge (e : Z * Z) (g : GraphBuilder) : GraphBuilder :=
  mkBuilder (nodeSet g) (add_once e (edgeList g)) (truncatedSet g).
(** [a[0] - b[0] || a[1] - b[1]]. *)
Definition edge_cmp (a b : Z * Z) : Z := if a.1 - b.1 =? 0 then a.2 - b.2 else a.1 - b.1.
Definition build (g : GraphBuilder) : SpendGraph :=
  mkGraph (order_by (λ i, i) (nodeSet g)) (js_sort edge_cmp (edgeList g))
    (order_by (λ i, i) (truncatedSet g)).

Definition add_expansions (visited : gset Z) (es : list Expansion)
    (g : GraphBuilder) (worklist : list Z) : GraphBuilder * list Z :=
  foldl (λ '(g, w) e,
    (addEdge (edge e) g, if decide (neighbor e ∈ visited) then w else neighbor e :: w))
    (g, worklist) es.

(** The worklist is a stack, its top at the head. *)
Fixpoint traverse_loop (step : Z → StepResult) (fuel : nat) (worklist : list Z)
    (visited : gset Z) (g : GraphBuilder) : option GraphBuilder :=
  match worklist with
  | [] => Some g
  | index :: worklist =>
      match fuel with
      | O => None
      | S fuel =>
          if decide (index ∈ visited) then traverse_loop step fuel worklist visited g
          else
            let visited := {[index]} ∪ visited in
            let g := addNode index g in
            let r := step index in
            let g := if step_truncated r then addTruncated index g else g in
            let '(g, worklist) := add_expansions visited (expansions r) g worklist in
            traverse_loop step fuel worklist visited g
      end
  end.

Section Trace.
Context `{Poseidon2} `{ChainState} (decrypt : Point → list Z → list Z * Z).

Definition DEM_FIELDS : nat := 7.
Definition field (fields : list Z) (k : nat) : Z := default 0 (fields !! k).

Definition openLeaf (data : LeafData) : option (list Z * Z) :=
  let '(fields, cek) := decrypt (ephPub data) (ciphertext data) in
  if (length fields <? DEM_FIELDS)%nat then None
  else if TWO_POW_128 <=? field fields 4 then None
  else
    let psi := computePsi cek in
    match leaf (mkNote (field fields 0) (field fields 1) (field fields 2) (field fields 3)
                  (field fields 4) (field fields 5) psi (field fields 6)) with
    | Ok rebuilt => if rebuilt =? leaf_of data then Some (fields, psi) else None
    | Err _ => None
    end.

Definition in_range (i : Z) : bool := (0 <=? i) && (i <? nextLeafIndex).

(** Every leaf is stepped once and pushes its expansions once. *)
Definition leaf_range : list Z := Z.of_nat <$> seq 0 (Z.to_nat nextLeafIndex).
Definition traverse_fuel (step : Z → StepResult) : nat :=
  Z.to_nat (1 + sumZ (λ i, Z.of_nat (length (expansions (step i)))) leaf_range).
Definition traverse (start : Z) (step : Z → StepResult) : option (result TraceError SpendGraph) :=
  if negb (in_range start) then Some (Err (Out_of_range start nextLeafIndex))
  else g ← traverse_loop step (traverse_fuel step) [start] ∅ (mkBuilder [] [] []);
       Some (Ok (build g)).

Definition consumedLeaves (packed : Z) : option (list Z) :=
  if TWO_POW_64 <=? packed then None
  else match unpackParents packed with
       | Err _ => None
       | Ok (p0, p1) =>
           let indexes := if p1 =? 0 then [p0] else [p0; p1] in
           if forallb in_range indexes then Some indexes else None
       end.

Definition cut : StepResult := mkStep [] true.

Definition forward_step (index : Z) : StepResult :=
  match getLeaf index with
  | None => cut
  | Some leafData =>
      match openLeaf leafData with
      | None => cut
      | Some (_, psi) =>
          let nf := computeNullifier psi index in
          if negb (isNullifierSpent nf) then mkStep [] false
          else
            let children := childrenOfSpend nf in
            if existsb (λ c, (c <? 0) || (nextLeafIndex <=? c)) children then cut
            else let es := (λ c, mkExpansion c (index, c)) <$> children in
                 mkStep es (length es =? 0)%nat
      end
  end.
Definition forwardTrace (start : Z) : option (result TraceError SpendGraph) := traverse start forward_step.

(** The check of one parent inside [bridgeHiddenParents]. *)
Definition parent_links (memoIndex parent : Z) : bool :=
  match getLeaf parent with
  | None => false
  | Some parentLeaf =>
      match openLeaf parentLeaf with
      | None => false
      | Some (_, psi) => bool_decide (memoIndex ∈ childrenOfSpend (computeNullifier psi parent))
      end
  end.
Definition bridgeHiddenParents (memoIndex : Z) : option Z :=
  sibling ← getLeaf (memoIndex + 1);
  '(fields, _) ← openLeaf sibling;
  let packed := field fields 6 in
  if (packed =? 0) || (packed =? PARENTS_HIDDEN) then None
  else
    parents ← consumedLeaves packed;
    if forallb (parent_links memoIndex) parents then Some packed else None.

Definition expand (index packed : Z) : StepResult :=
  match consumedLeaves packed with
  | None => cut
  | Some parents => mkStep ((λ p, mkExpansion p (p, index)) <$> parents) false
  end.
Definition backward_step (index : Z) : StepResult :=
  match getLeaf index with
  | None => cut
  | Some leafData =>
      match openLeaf leafData with
      | None => cut
      | Some (fields, _) =>
          let packed := field fields 6 in
          if packed =? 0 then mkStep [] false
          else if packed =? PARENTS_HIDDEN then
            match bridgeHiddenParents index with None => cut | Some bridged => expand index bridged end
          else expand index packed
      end
  end.
Definition backwardTrace (start : Z) : option (result TraceError SpendGraph) := traverse start backward_step.

(** *** Correctness of the traversal *)

Lemma elem_of_add_once {A} `{EqDecision A} (x y : A) l : y ∈ add_once x l ↔ y = x ∨ y ∈ l.
Proof.
  unfold add_once. case_decide; [|rewrite elem_of_app, list_elem_of_singleton; tauto].
  split; [by right|]. by intros [->|].
Qed.
Lemma NoDup_add_once {A} `{EqDecision A} (x : A) l : NoDup l → NoDup (add_once x l).
Proof.
  intros Hd. unfold add_once. case_decide as Hx; [done|]. apply NoDup_app.
  split_and!; [done| |apply NoDup_singleton]. by intros y Hy ->%list_elem_of_singleton.
Qed.

Lemma add_expansions_spec visited es : ∀ g w g' w',
  add_expansions visited es g w = (g', w') →
  nodeSet g' = nodeSet g ∧ truncatedSet g' = truncatedSet g ∧
  (NoDup (edgeList g) → NoDup (edgeList g')) ∧
  (∀ e, e ∈ edgeList g' ↔ e ∈ edgeList g ∨ ∃ x, x ∈ es ∧ edge x = e) ∧
  (∀ y, y ∈ w' ↔ y ∈ w ∨ ∃ x, x ∈ es ∧ neighbor x = y ∧ y ∉ visited) ∧
  (length w' <= length w + length es)%nat.
Proof.
  induction es as [|x es IH]; intros g w g' w'; cbn [add_expansions foldl].
  { intros [= <- <-]. split_and!; [done|done|done| | |lia]; intros y;
      setoid_rewrite elem_of_nil; naive_solver. }
  intros Hf. destruct (IH _ _ _ _ Hf) as (Hn & Ht & Hd & He & Hw & Hl).
  cbn [addEdge nodeSet truncatedSet edgeList] in *. split_and!; [done|done| | | |].
  - intros Hg. by apply Hd, NoDup_add_once.
  - intros e. rewrite He, elem_of_add_once. setoid_rewrite elem_of_cons. naive_solver.
  - intros y. rewrite Hw. setoid_rewrite elem_of_cons. case_decide as Hv; [naive_solver|].
    rewrite elem_of_cons. naive_solver.
  - case_decide; cbn [length] in *; lia.
Qed.

Section traversal.
Context (step : Z → StepResult) (start : Z).
Context (Hstep : ∀ i x, x ∈ expansions (step i) → in_range (neighbor x) = true).

Definition edge_from (i j : Z) : Prop := ∃ x, x ∈ expansions (step i) ∧ neighbor x = j.
Definition reachable : Z → Prop := rtc edge_from start.

Definition remaining (visited : gset Z) : Z :=
  sumZ (λ i, if decide (i ∈ visited) then 0 else Z.of_nat (length (expansions (step i)))) leaf_range.

Record loop_inv (w : list Z) (visited : gset Z) (g : GraphBuilder) : Prop := {
  inv_nodes : NoDup (nodeSet g) ∧ ∀ i, i ∈ nodeSet g ↔ i ∈ visited;
  inv_edges : NoDup (edgeList g) ∧
    ∀ e, e ∈ edgeList g ↔ ∃ i x, i ∈ visited ∧ x ∈ expansions (step i) ∧ edge x = e;
  inv_truncated : NoDup (truncatedSet g) ∧
    ∀ i, i ∈ truncatedSet g ↔ i ∈ visited ∧ step_truncated (step i) = true;
  inv_reach : ∀ i, i ∈ visited ∨ i ∈ w → reachable i ∧ in_range i = true;
  inv_closed : ∀ i j, i ∈ visited → edge_from i j → j ∈ visited ∨ j ∈ w;
  inv_start : start ∈ visited ∨ start ∈ w;
}.

Lemma in_leaf_range i : in_range i = true → i ∈ leaf_range.
Proof.
  unfold in_range, leaf_range. rewrite andb_true_iff, Z.leb_le, Z.ltb_lt. intros Hi.
  apply list_elem_of_fmap. exists (Z.to_nat i). rewrite elem_of_seq. lia.
Qed.

Lemma remaining_visit visited i : i ∈ leaf_range → i ∉ visited →
  remaining ({[i]} ∪ visited) + Z.of_nat (length (expansions (step i))) = remaining visited.
Proof.
  assert (Hd : NoDup leaf_range) by (apply NoDup_fmap; [|apply NoDup_seq]; intros x y; lia).
  unfold remaining. induction Hd as [|j l Hj _ IH]; intros Hi Hv; [by apply not_elem_of_nil in Hi|].
  rewrite !sumZ_cons. destruct (decide (i = j)) as [->|Hne].
  - rewrite decide_True by set_solver. rewrite decide_False by done.
    assert (Heq : ∀ f f' : Z → Z, (∀ k, k ∈ l → f k = f' k) → sumZ f l = sumZ f' l).
    { clear. intros f f'. induction l as [|k l IH]; intros Hk; [done|]. rewrite !sumZ_cons.
      rewrite (Hk k) by left. rewrite IH; [done|]. intros; apply Hk. by right. }
    rewrite (Heq _ (λ i, if decide (i ∈ visited) then 0 else Z.of_nat (length (expansions (step i))))).
    + lia.
    + intros k Hk. assert (k ≠ j) by (by intros ->).
      destruct (decide (k ∈ visited)); [rewrite decide_True|rewrite decide_False]; set_solver.
  - apply elem_of_cons in Hi as [|Hi]; [done|]. specialize (IH Hi Hv).
    destruct (decide (j ∈ visited)); [rewrite decide_True by set_solver|rewrite decide_False by set_solver]; lia.
Qed.

Lemma loop_inv_step index w visited g g' w' :
  loop_inv (index :: w) visited g → index ∉ visited →
  add_expansions ({[index]} ∪ visited) (expansions (step index))
    (if step_truncated (step index) then addTruncated index (addNode index g) else addNode index g) w
  = (g', w') →
  loop_inv w' ({[index]} ∪ visited) g'.
Proof.
  intros [[Hnd Hn] [Hed He] [Htd Ht] Hr Hcl Hst] Hi Hadd.
  destruct (add_expansions_spec _ _ _ _ _ _ Hadd) as (Hn' & Ht' & Hd' & He' & Hw' & _).
  assert (Hri : reachable index ∧ in_range index = true) by (apply Hr; right; left).
  split.
  - rewrite Hn'. destruct (step_truncated (step index)); cbn [addTruncated addNode nodeSet];
      (split; [by apply NoDup_add_once|]); intros i; rewrite elem_of_add_once, Hn; set_solver.
  - split; [apply Hd'; by destruct (step_truncated (step index))|].
    intros e. rewrite He'. assert (Hsame : e ∈ edgeList
      (if step_truncated (step index) then addTruncated index (addNode index g) else addNode index g)
      ↔ e ∈ edgeList g) by (by destruct (step_truncated (step index))).
    rewrite Hsame, He. split.
    + intros [(i & x & ? & ? & ?)|(x & ? & ?)]; [exists i, x|exists index, x]; set_solver.
    + intros (i & x & [->%elem_of_singleton|Hiv]%elem_of_union & Hx & Hex); [right|left]; eauto.
  - rewrite Ht'. destruct (step_truncated (step index)) eqn:Etr; cbn [addTruncated addNode truncatedSet].
    + split; [by apply NoDup_add_once|]. intros i. rewrite elem_of_add_once, Ht. set_solver.
    + split; [done|]. intros i. rewrite Ht. split; [set_solver|].
      intros [[->%elem_of_singleton|?]%elem_of_union ?]; [congruence|done].
  - intros i. rewrite elem_of_union, elem_of_singleton, Hw'.
    intros [[->|Hv]|[Hw|(x & Hx & Hxi & _)]]; [done|by apply Hr; left|by apply Hr; right; right|].
    split; [|rewrite <- Hxi; by eapply Hstep].
    eapply rtc_r; [apply Hri|]. by exists x.
  - intros i j. rewrite !elem_of_union, !elem_of_singleton, Hw'. intros [->|Hv] Hij.
    + destruct Hij as (x & Hx & <-). destruct (decide (neighbor x ∈ {[index]} ∪ visited)) as [Hin|Hin].
      * rewrite elem_of_union, elem_of_singleton in Hin. tauto.
      * right. right. eauto.
    + destruct (Hcl i j Hv Hij) as [|[->|]%elem_of_cons]; tauto.
  - rewrite elem_of_union, elem_of_singleton, Hw'. destruct Hst as [|[->|]%elem_of_cons]; tauto.
Qed.

Lemma traverse_loop_spec fuel : ∀ w visited g,
  loop_inv w visited g → Z.of_nat (length w) + remaining visited <= Z.of_nat fuel →
  ∃ g' visited', traverse_loop step fuel w visited g = Some g' ∧ loop_inv [] visited' g'.
Proof.
  assert (Hpos : ∀ v, 0 <= remaining v).
  { intros v. apply sumZ_nonneg, Forall_forall. intros i _. case_decide; lia. }
  induction fuel as [|fuel IH]; intros w visited g Hinv Hf.
  { destruct w; [by exists g, visited|]. cbn [length] in Hf. specialize (Hpos visited). lia. }
  destruct w as [|index w]; [by exists g, visited|]. cbn [traverse_loop].
  case_decide as Hv.
  - apply IH; [|cbn [length] in Hf; lia]. destruct Hinv as [Hn He Ht Hr Hcl Hst]. split; try done.
    + intros i Hi. apply Hr. destruct Hi; [by left|right; by right].
    + intros i j Hi Hij. destruct (Hcl i j Hi Hij) as [|[->|]%elem_of_cons]; tauto.
    + destruct Hst as [|[->|]%elem_of_cons]; tauto.
  - destruct (add_expansions _ _ _ w) as [g' w'] eqn:Hadd.
    apply IH; [by eapply loop_inv_step|].
    destruct (add_expansions_spec _ _ _ _ _ _ Hadd) as (_ & _ & _ & _ & _ & Hl).
    assert (Hi : in_range index = true) by (apply Hinv; right; left).
    pose proof (remaining_visit visited index (in_leaf_range _ Hi) Hv). cbn [length] in Hf. lia.
Qed.
End traversal.

(** What a trace promises: every reachable leaf once, in order, every edge of a
    reachable leaf once, and the leaves where it had to stop. *)
Record describes (step : Z → StepResult) (start : Z) (G : SpendGraph) : Prop := {
  graph_nodes : StronglySorted Z.le (nodes G) ∧ NoDup (nodes G) ∧
    ∀ i, i ∈ nodes G ↔ reachable step start i;
  graph_edges : NoDup (edges G) ∧
    ∀ e, e ∈ edges G ↔ ∃ i x, reachable step start i ∧ x ∈ expansions (step i) ∧ edge x = e;
  graph_truncated : StronglySorted Z.le (truncated G) ∧ NoDup (truncated G) ∧
    ∀ i, i ∈ truncated G ↔ reachable step start i ∧ step_truncated (step i) = true;
}.

Lemma order_by_id (l : list Z) :
  StronglySorted Z.le (order_by (λ i, i) l).
Proof. pose proof (order_by_sorted (λ i, i) l) as Hs. by rewrite list_fmap_id in Hs. Qed.

Lemma traverse_spec step start :
  (∀ i x, x ∈ expansions (step i) → in_range (neighbor x) = true) →
  if in_range start then ∃ G, traverse start step = Some (Ok G) ∧ describes step start G
  else traverse start step = Some (Err (Out_of_range start nextLeafIndex)).
Proof.
  intros Hstep. unfold traverse. destruct (in_range start) eqn:Hs; cbn [negb]; [|done].
  destruct (traverse_loop_spec step start Hstep (traverse_fuel step) [start] ∅ (mkBuilder [] [] []))
    as (g & visited & Hg & [[Hnd Hn] [Hed He] [Htd Ht] Hr Hcl Hst]).
  - split; cbn [nodeSet edgeList truncatedSet].
    + split; [constructor|set_solver].
    + split; [constructor|]. intros e. split; [by intros ?%not_elem_of_nil|set_solver].
    + split; [constructor|set_solver].
    + intros i [ | ->%list_elem_of_singleton]; [set_solver|]. split; [apply rtc_refl|done].
    + set_solver.
    + right. left.
  - assert (Hempty : remaining step ∅ = sumZ (λ i, Z.of_nat (length (expansions (step i)))) leaf_range).
    { unfold remaining. induction leaf_range as [|i l IH]; [done|].
      rewrite !sumZ_cons, IH. by rewrite decide_False by set_solver. }
    rewrite Hempty. unfold traverse_fuel.
    assert (0 <= sumZ (λ i, Z.of_nat (length (expansions (step i)))) leaf_range)
      by (apply sumZ_nonneg, Forall_forall; intros; lia).
    cbn [length]. lia.
  - assert (Hreach : ∀ i, i ∈ visited ↔ reachable step start i).
    { intros i. split; [intros Hi; by apply Hr; left|]. intros Hi.
      assert (Hst' : start ∈ visited) by (destruct Hst as [|?%not_elem_of_nil]; done).
      revert Hst'. unfold reachable in Hi. clear -Hi Hcl.
      induction Hi as [|i j k Hij _ IH]; [done|]. intros Hi. apply IH.
      destruct (Hcl i j Hi Hij) as [|?%not_elem_of_nil]; done. }
    rewrite Hg. cbn [mbind option_bind]. eexists. split; [reflexivity|].
    split; cbn [build nodes edges truncated].
    + split_and!; [apply order_by_id|by rewrite order_by_perm|].
      intros i. by rewrite order_by_perm, Hn.
    + split; [by rewrite js_sort_perm|]. intros e. rewrite js_sort_perm, He. by setoid_rewrite Hreach.
    + split_and!; [apply order_by_id|by rewrite order_by_perm|].
      intros i. by rewrite order_by_perm, Ht, Hreach.
Qed.

Lemma consumed_in_range packed ps : consumedLeaves packed = Some ps → ∀ p, p ∈ ps → in_range p = true.
Proof.
  unfold consumedLeaves. destruct (_ <=? _); [done|]. destruct (unpackParents packed) as [[p0 p1]|]; [|done].
  destruct (forallb in_range _) eqn:Hf; [|done]. intros [= <-] p Hp.
  rewrite forallb_forall in Hf. by apply Hf, list_elem_of_In.
Qed.

Lemma expand_spec i packed x : x ∈ expansions (expand i packed) →
  ∃ ps, consumedLeaves packed = Some ps ∧ neighbor x ∈ ps ∧ edge x = (neighbor x, i).
Proof.
  unfold expand. destruct (consumedLeaves packed) as [ps|] eqn:E; cbn [cut expansions];
    [|by intros ?%not_elem_of_nil].
  intros (p & -> & Hp)%list_elem_of_fmap. by exists ps.
Qed.

(** The leaf of [i] opens to [fields] and [psi], which are committed on chain. *)
Definition opens (i : Z) (fields : list Z) (psi : Z) : Prop :=
  ∃ data, getLeaf i = Some data ∧
    poseidon2 [field fields 0; field fields 1; field fields 2; field fields 3;
               field fields 4; field fields 5; psi; field fields 6] = leaf_of data ∧
    openLeaf data = Some (fields, psi).

Lemma openLeaf_opens i data fields key :
  getLeaf i = Some data → openLeaf data = Some (fields, key) → opens i fields key.
Proof.
  intros Hl Ho. exists data. split_and!; [done| |done]. revert Ho. unfold openLeaf.
  destruct (decrypt _ _) as [fs cek]. destruct (_ <? _)%nat; [done|].
  destruct (_ <=? _); [done|]. unfold leaf. destruct (_ || _); [done|].
  cbn [noteVersion assetId noteType conditionsHash value owner psi parents].
  destruct (Z.eqb_spec (poseidon2 [field fs 0; field fs 1; field fs 2; field fs 3; field fs 4;
    field fs 5; computePsi cek; field fs 6]) (leaf_of data)); [|done]. by intros [= <- <-].
Qed.

Definition forward_edge (i c : Z) : Prop := ∃ fields psi, opens i fields psi ∧
  let nf := computeNullifier psi i in isNullifierSpent nf = true ∧ c ∈ childrenOfSpend nf.
(** Parent [p] of [c]: named by the committed parents of [c], or, when those are
    hidden, a leaf whose own spend produced [c]. *)
Definition backward_edge (p c : Z) : Prop := ∃ fields psi, opens c fields psi ∧
  ((∃ ps, consumedLeaves (field fields 6) = Some ps ∧ p ∈ ps) ∨
   (field fields 6 = PARENTS_HIDDEN ∧
    ∃ pfields ppsi, opens p pfields ppsi ∧ c ∈ childrenOfSpend (computeNullifier ppsi p))).

Lemma forward_step_spec i x : x ∈ expansions (forward_step i) →
  in_range (neighbor x) = true ∧ edge x = (i, neighbor x) ∧ forward_edge i (neighbor x).
Proof.
  unfold forward_step. destruct (getLeaf i) as [data|] eqn:Hl; [|by intros ?%not_elem_of_nil].
  destruct (openLeaf data) as [[fields psi]|] eqn:Ho; [|by intros ?%not_elem_of_nil].
  destruct (isNullifierSpent _) eqn:Hs; [|by intros ?%not_elem_of_nil]. cbn [negb].
  destruct (existsb _ _) eqn:Hex; [by intros ?%not_elem_of_nil|].
  intros (c & -> & Hc)%list_elem_of_fmap. cbn [neighbor edge]. split_and!; [|done|].
  - apply not_true_iff_false in Hex. unfold in_range.
    destruct (Z.leb_spec 0 c), (Z.ltb_spec c nextLeafIndex); try done; exfalso; apply Hex;
      apply existsb_exists; exists c; (split; [by apply list_elem_of_In|]);
      apply orb_true_iff; rewrite Z.ltb_lt, Z.leb_le; lia.
  - exists fields, psi. split; [by eapply openLeaf_opens|done].
Qed.

Lemma bridge_spec m packed ps p : bridgeHiddenParents m = Some packed →
  consumedLeaves packed = Some ps → p ∈ ps → parent_links m p = true.
Proof.
  unfold bridgeHiddenParents. destruct (getLeaf (m + 1)) as [sib|]; [|done]. cbn [mbind option_bind].
  destruct (openLeaf sib) as [[fields psi]|]; [|done]. cbn [mbind option_bind].
  destruct (_ || _); [done|].
  destruct (consumedLeaves (field fields 6)) as [qs|] eqn:Hc; [|done]. cbn [mbind option_bind].
  destruct (forallb _ qs) eqn:Hf; [|done]. intros [= <-]. rewrite Hc. intros [= <-] Hp.
  rewrite forallb_forall in Hf. by apply Hf, list_elem_of_In.
Qed.
Lemma parent_links_spec m p : parent_links m p = true →
  ∃ fields psi, opens p fields psi ∧ m ∈ childrenOfSpend (computeNullifier psi p).
Proof.
  unfold parent_links. destruct (getLeaf p) as [data|] eqn:Hl; [|done].
  destruct (openLeaf data) as [[fields psi]|] eqn:Ho; [|done]. rewrite bool_decide_eq_true.
  intros Hm. exists fields, psi. split; [by eapply openLeaf_opens|done].
Qed.

Lemma backward_step_spec c x : x ∈ expansions (backward_step c) →
  in_range (neighbor x) = true ∧ edge x = (neighbor x, c) ∧ backward_edge (neighbor x) c.
Proof.
  unfold backward_step. destruct (getLeaf c) as [data|] eqn:Hl; [|by intros ?%not_elem_of_nil].
  destruct (openLeaf data) as [[fields psi]|] eqn:Ho; [|by intros ?%not_elem_of_nil].
  pose proof (openLeaf_opens _ _ _ _ Hl Ho) as Hop.
  destruct (_ =? 0); [by intros ?%not_elem_of_nil|].
  destruct (Z.eqb_spec (field fields 6) PARENTS_HIDDEN) as [Eh|_].
  - destruct (bridgeHiddenParents c) as [packed|] eqn:Hb; [|by intros ?%not_elem_of_nil].
    intros (ps & Hps & Hin & He)%expand_spec.
    split_and!; [by eapply consumed_in_range|done|].
    exists fields, psi. split; [done|]. right. split; [done|].
    eapply parent_links_spec, bridge_spec; eassumption.
  - intros (ps & Hps & Hin & He)%expand_spec.
    split_and!; [by eapply consumed_in_range|done|].
    exists fields, psi. split; [done|]. left. eauto.
Qed.

(** C14. Both traces terminate on every chain state, cyclic and adversarial ones
    included, and are complete: from a leaf in range they return exactly the
    leaves reachable by their steps, in order and without repetition, every
    edge of those leaves once, and mark every leaf where the trail broke off;
    any other start is rejected. *)
Theorem traces_complete start :
  if in_range start
  then (∃ G, forwardTrace start = Some (Ok G) ∧ describes forward_step start G) ∧
       (∃ G, backwardTrace start = Some (Ok G) ∧ describes backward_step start G)
  else forwardTrace start = Some (Err (Out_of_range start nextLeafIndex)) ∧
       backwardTrace start = Some (Err (Out_of_range start nextLeafIndex)).
Proof.
  pose proof (traverse_spec forward_step start (λ i x Hx, proj1 (forward_step_spec i x Hx))) as Hf.
  pose proof (traverse_spec backward_step start (λ i x Hx, proj1 (backward_step_spec i x Hx))) as Hb.
  unfold forwardTrace, backwardTrace. by destruct (in_range start).
Qed.

(** C22. What backs an edge: every edge of a forward trace leaves a leaf
    whose decrypted fields hash to the on-chain commitment and whose nullifier
    is spent, towards an output of that spend; every edge of a backward trace
    enters a leaf whose fields hash to its commitment, from a parent named in
    those fields or, when they are hidden, from a leaf that opens to its own
    commitment and whose spend lists the child, whatever the decryption hook and
    the chain state return.  A parent that is named is taken as named: neither
    the code nor this theorem opens it or asks whether it was spent. *)
Theorem trace_edges_justified start G a b :
  (forwardTrace start = Some (Ok G) → (a, b) ∈ edges G → forward_edge a b) ∧
  (backwardTrace start = Some (Ok G) → (a, b) ∈ edges G → backward_edge a b).
Proof.
  split; intros Htrace Hab; unfold forwardTrace, backwardTrace in Htrace.
  - pose proof (traverse_spec forward_step start (λ i x Hx, proj1 (forward_step_spec i x Hx))) as Hspec.
    rewrite Htrace in Hspec. destruct (in_range start); [|done].
    destruct Hspec as (G' & [= <-] & [_ [_ He] _]). apply He in Hab as (i & x & _ & Hx & Hxe).
    destruct (forward_step_spec i x Hx) as (_ & E & Hj). rewrite E in Hxe. by injection Hxe as <- <-.
  - pose proof (traverse_spec backward_step start (λ i x Hx, proj1 (backward_step_spec i x Hx))) as Hspec.
    rewrite Htrace in Hspec. destruct (in_range start); [|done].
    destruct Hspec as (G' & [= <-] & [_ [_ He] _]). apply He in Hab as (i & x & _ & Hx & Hxe).
    destruct (backward_step_spec i x Hx) as (_ & E & Hj). rewrite E in Hxe. by injection Hxe as <- <-.
Qed.
End Trace.
End Trace.

(** ** Witness: a deposit, a memo with hidden parents and its change note *)
Module TraceWitness.
Import Note Trace.
#[local] Instance toy_poseidon : Poseidon2 := λ xs, foldl (λ acc x, Z.rem (31 * acc + x + 7) 1000003) 1 xs.

Definition toy_decrypt (p : Point) (ct : list Z) : list Z * Z := (ct, p.1).
Definition toy_leaf (cek parents : Z) : LeafData :=
  let fields := [1; 5; 0; 0; 100; 9; parents] in
  mkLeaf (cek, 0) fields (poseidon2 [1; 5; 0; 0; 100; 9; computePsi cek; parents]).
Definition toy_nf (cek i : Z) : Z := computeNullifier (computePsi cek) i.
#[local] Instance toy_chain : ChainState := {|
  getLeaf i := if i =? 1 then Some (toy_leaf 11 0) else if i =? 2 then Some (toy_leaf 12 PARENTS_HIDDEN)
               else if i =? 3 then Some (toy_leaf 13 1) else None;
  nextLeafIndex := 4;
  isNullifierSpent nf := nf =? toy_nf 11 1;
  childrenOfSpend nf := if nf =? toy_nf 11 1 then [2; 3] else [];
|}.

Lemma trace_edges_justified_witness :
  forward_edge toy_decrypt 1 2 ∧ backward_edge toy_decrypt 1 2.
Proof.
  split.
  - apply (proj1 (trace_edges_justified toy_decrypt 1
      (mkGraph [1; 2; 3] [(1, 2); (1, 3)] []) 1 2)); [vm_compute; reflexivity|left].
  - apply (proj2 (trace_edges_justified toy_decrypt 2 (mkGraph [1; 2] [(1, 2)] []) 1 2));
      [vm_compute; reflexivity|left].
Defined.
End TraceWitness.
