(* ===== verification/Mint.v ===== *)
(** * Note encryption and minting ([crypto/kem.ts], [crypto/dem.ts],
    [note/mint.ts])

    [Kem] derives a note's content key from its ephemeral scalar, [Dem] is the
    additive stream cipher over the transmitted fields, [Mint] builds an output
    note.  Field elements are integers below the modulus. *)
From S2P Require Import Prelude Bytes Zq Tss Dkg Keys Trace.
Local Open Scope Z_scope.

Notation MODULUS := BN254_SCALAR_FIELD_MODULUS.

Inductive MintError :=
  | Zero_scalar | Scalar_too_large
  | Point_off_curve | Point_identity | Point_off_subgroup
  | Dem_length (n : nat) | Not_in_field (x : Z) | Note_error (e : Note.NoteError).

(** [new Fr(x)], [toFr]. *)
Definition newFr (x : Z) : result MintError Z :=
  if (0 <=? x) && (x <? MODULUS) then Ok x else Err (Not_in_field x).
(** [Fr.add], [Fr.sub]. *)
Definition frAdd (a b : Z) : Z := (a + b) mod MODULUS.
Definition frSub (a b : Z) : Z := (a - b) mod MODULUS.

Definition in_field (x : Z) : Prop := 0 <= x < MODULUS.
Lemma newFr_Ok x : in_field x → newFr x = Ok x.
Proof. intros [H1 H2]. unfold newFr. by rewrite (proj2 (Z.leb_le _ _)), (proj2 (Z.ltb_lt _ _)). Qed.
Lemma newFr_inv x y : newFr x = Ok y → y = x ∧ in_field x.
Proof.
  unfold newFr. destruct (Z.leb_spec 0 x), (Z.ltb_spec x MODULUS); cbn [andb]; try done.
  by intros [= <-].
Qed.
Lemma frSub_frAdd a b : in_field a → frSub (frAdd a b) b = a.
Proof.
  intros Ha. unfold frSub, frAdd. rewrite Zminus_mod_idemp_l. replace (a + b - b) with a by ring.
  by apply Z.mod_small.
Qed.

(** ** [kem.ts] *)
Module Kem.
Section Kem.
Context `{BabyJubjub} `{Poseidon2}.

Definition BJJ_SUBGROUP_ORDER : Z :=
  2736030358979909402780800718157159386076813972158567259200215660948447373041.

Definition assertSubgroupScalar (s : Z) : result MintError unit :=
  if s =? 0 then Err Zero_scalar
  else if BJJ_SUBGROUP_ORDER <=? s then Err Scalar_too_large else Ok tt.
Definition assertValidPoint (p : Point) : result MintError unit :=
  if negb (inCurve p) then Err Point_off_curve
  else if (p.1 =? 0) && (p.2 =? 1) then Err Point_identity
  else
    let o := mulPointEscalar p subOrder in
    if negb (o.1 =? 0) || negb (o.2 =? 1) then Err Point_off_subgroup else Ok tt.

Definition deriveCek (eph : Z) (compliancePk : Point) : result MintError Z :=
  _ ← assertSubgroupScalar eph;
  _ ← assertValidPoint compliancePk;
  newFr (mulPointEscalar compliancePk eph).1.
Definition wrapCek (cek eph : Z) (inPub : Point) : result MintError Z :=
  _ ← assertSubgroupScalar eph;
  _ ← assertValidPoint inPub;
  pad ← newFr (mulPointEscalar inPub eph).1;
  Ok (frAdd cek (poseidon2 [pad])).
Definition unwrapCek (cekWrap inKey : Z) (ephPub : Point) : result MintError Z :=
  _ ← assertSubgroupScalar inKey;
  _ ← assertValidPoint ephPub;
  pad ← newFr (mulPointEscalar ephPub inKey).1;
  Ok (frSub cekWrap (poseidon2 [pad])).

(** *** Both sides of the exchange compute one pad *)
Context {L : BabyJubjubLaws}.

(** A scalar that both the group and the guard accept. *)
Definition valid_scalar (k : Z) : Prop := 0 < k < subOrder ∧ k < BJJ_SUBGROUP_ORDER.

Lemma assertSubgroupScalar_valid k : valid_scalar k → assertSubgroupScalar k = Ok tt.
Proof.
  intros [Hk Hb]. unfold assertSubgroupScalar.
  by rewrite (proj2 (Z.eqb_neq _ _)), (proj2 (Z.leb_gt _ _)) by lia.
Qed.
Lemma public_gen k : valid_scalar k → Keys.Keys.publicKey k = Bjj.scalarBaseMul k.
Proof.
  intros [Hk _]. unfold Keys.Keys.publicKey, Bjj.scalarBaseMul, Bjj.scalarMul, Bjj.BASE8.
  by rewrite Bjj.modSub_small by (unfold Bjj.SUBORDER; lia).
Qed.
Lemma valid_nonzero k : valid_scalar k → ~ (k =[subOrder] 0).
Proof. intros [Hk _] E. apply eqm_small in E; lia. Qed.

Lemma assertValidPoint_public k : valid_scalar k → assertValidPoint (Keys.Keys.publicKey k) = Ok tt.
Proof.
  intros Hk. pose proof (Bjj.assertInSubgroup_gen k "" (valid_nonzero k Hk)) as Ha.
  rewrite <- public_gen in Ha by done. unfold Bjj.assertInSubgroup, Bjj.isIdentity, Bjj.inSubgroup, Bjj.SUBORDER in Ha.
  unfold assertValidPoint. destruct (inCurve _); [|done]. cbn [negb] in *.
  destruct ((_ =? 0) && (_ =? 1)); [done|]. destruct (_ =? 0), (_ =? 1); done.
Qed.

Lemma shared_pad j k : valid_scalar j → valid_scalar k →
  mulPointEscalar (Keys.Keys.publicKey j) k = mulPointEscalar (Keys.Keys.publicKey k) j ∧
  in_field (mulPointEscalar (Keys.Keys.publicKey j) k).1.
Proof.
  intros Hj Hk. pose proof (public_gen j Hj) as Ej.
  assert (Hm : ∀ k, mulPointEscalar (Keys.Keys.publicKey k) = mulPointEscalar (mulPointEscalar Base8 k)) by done.
  rewrite !Hm, !mul_mul by (destruct Hj, Hk; lia). rewrite (Z.mul_comm k j). split; [done|].
  rewrite <- mul_mul by (destruct Hj, Hk; lia). apply mul_canonical; [|destruct Hk; lia].
  apply mul_curve. destruct Hj; lia.
Qed.

(** The recipient unwraps the key that the sender wrapped. *)
Lemma unwrap_wrap cek eph inKey : in_field cek → valid_scalar eph → valid_scalar inKey →
  ∃ w, wrapCek cek eph (Keys.Keys.publicKey inKey) = Ok w ∧
       unwrapCek w inKey (Keys.Keys.publicKey eph) = Ok cek.
Proof.
  intros Hc He Hi. destruct (shared_pad inKey eph Hi He) as [E Hf]. unfold wrapCek, unwrapCek.
  rewrite !assertSubgroupScalar_valid, !assertValidPoint_public, <- E by done. cbn [mbind result_bind].
  rewrite newFr_Ok by done. cbn [mbind result_bind]. eexists. split; [done|].
  by rewrite frSub_frAdd.
Qed.
End Kem.
End Kem.

(** [Poseidon.hash] returns a field element. *)
Class Poseidon2Field `{Poseidon2} : Prop := poseidon2_field xs : in_field (poseidon2 xs).

(** ** [dem.ts] *)
Module Dem.
Section Dem.
Context `{Poseidon2}.

Definition ENC_DOMAIN : Z := 0x23f955e41a1c10e85986f4fb49fcaf4cb8a6d3264f10fd0253d5e212303b9882.
Definition DEM_FIELDS : nat := Trace.Trace.DEM_FIELDS.

Definition demKeystream (cek k : Z) : Z := poseidon2 [cek; ENC_DOMAIN; k].
Definition demEncrypt (cek : Z) (plaintext : list Z) : result MintError (list Z) :=
  if negb (length plaintext =? DEM_FIELDS)%nat then Err (Dem_length (length plaintext))
  else Ok (imap (λ k p, frAdd p (demKeystream cek (Z.of_nat k))) plaintext).
Definition demDecrypt (cek : Z) (ciphertext : list Z) : result MintError (list Z) :=
  if negb (length ciphertext =? DEM_FIELDS)%nat then Err (Dem_length (length ciphertext))
  else Ok (imap (λ k c, frSub c (demKeystream cek (Z.of_nat k))) ciphertext).

Lemma demDecrypt_demEncrypt cek plaintext ct : Forall in_field plaintext →
  demEncrypt cek plaintext = Ok ct → demDecrypt cek ct = Ok plaintext.
Proof.
  intros Hf. unfold demEncrypt, demDecrypt.
  destruct (Nat.eqb_spec (length plaintext) DEM_FIELDS) as [E|]; [|done]. cbn [negb]. intros [= <-].
  rewrite length_imap, E, Nat.eqb_refl. cbn [negb]. f_equal. apply list_eq. intros i.
  rewrite !list_lookup_imap. rewrite Forall_lookup in Hf. specialize (Hf i).
  destruct (plaintext !! i) as [x|]; [|done]. cbn. f_equal. by apply frSub_frAdd, Hf.
Qed.
End Dem.
End Dem.

(** ** [mint.ts] *)
Module Mint.
Import Note Kem Dem Keys.Keys.
Section Mint.
Context `{BabyJubjub} `{Poseidon2}.

Definition NOTE_VERSION : Z := 1.
Definition NOTE_TYPE_STANDARD : Z := 0.
Definition NOTE_TYPE_MULTISIG : Z := 1.

(** A [ProverNoteInput] is a note whose value is a field element. *)
Record MintedNote := mkMinted {
  m_note : Note; commitment : Z; m_eph : Z; m_ephPub : Point; m_cek : Z; m_psi : Z;
  m_spendScalar : Z; m_tag : Z; m_inPub : option Point; m_cekWrap : option Z }.

Definition finish (eph value owner assetId spendScalar parents : Z) (compliancePk : Point) :
    result MintError MintedNote :=
  cek ← deriveCek eph compliancePk;
  let psi := computePsi cek in
  let plaintext := mkNote NOTE_VERSION assetId NOTE_TYPE_STANDARD 0 value owner psi parents in
  commitment ← map_err Note_error (leaf plaintext);
  let ephPub := publicKey eph in
  v ← newFr value;
  t ← newFr ephPub.1;
  Ok (mkMinted (mkNote NOTE_VERSION assetId NOTE_TYPE_STANDARD 0 v owner psi parents)
        commitment eph ephPub cek psi spendScalar t None None).

Definition mintSelfNote (eph value spendScalar assetId : Z) (compliancePk : Point) (parents : Z) :
    result MintError MintedNote :=
  finish eph value (pubkeyOwner (publicKey spendScalar)) assetId spendScalar parents compliancePk.

Definition mintIncomingNote (eph value : Z) (inPub : Point) (inKey assetId : Z) (compliancePk : Point)
    (parents : Z) : result MintError MintedNote :=
  built ← finish eph value (pubkeyOwner inPub) assetId inKey parents compliancePk;
  w ← wrapCek (m_cek built) eph inPub;
  t ← newFr inPub.1;
  Ok (mkMinted (m_note built) (commitment built) (m_eph built) (m_ephPub built) (m_cek built)
        (m_psi built) (m_spendScalar built) t (Some inPub) (Some w)).

(** The fields of a note that the circuits publish encrypted
    ([circuits/shared/src/mint.nr]). *)
Definition transmitted_fields (n : Note) : list Z :=
  [noteVersion n; assetId n; noteType n; conditionsHash n; value n; owner n; parents n].

(** What [finish] returns, and when. *)
Lemma finish_Ok eph v own asset spend par cpk m : finish eph v own asset spend par cpk = Ok m →
  deriveCek eph cpk = Ok (m_cek m) ∧ 0 <= v < 2 ^ 128 ∧
  m_note m = mkNote NOTE_VERSION asset NOTE_TYPE_STANDARD 0 v own (computePsi (m_cek m)) par ∧
  leaf (m_note m) = Ok (commitment m) ∧ m_psi m = computePsi (m_cek m) ∧ m_eph m = eph ∧
  m_ephPub m = publicKey eph ∧ m_spendScalar m = spend ∧ m_tag m = (publicKey eph).1 ∧
  m_inPub m = None ∧ m_cekWrap m = None ∧ in_field (m_cek m).
Proof.
  unfold finish. intros (cek & Hcek & H1)%bind_Ok.
  apply bind_Ok in H1 as (c & Hc & H1).
  apply bind_Ok in H1 as (v' & (-> & _)%newFr_inv & H1).
  apply bind_Ok in H1 as (t & (-> & _)%newFr_inv & [= <-]). cbn.
  assert (Hf : in_field cek).
  { unfold deriveCek in Hcek. apply bind_Ok in Hcek as (_ & _ & (_ & _ & (-> & ?)%newFr_inv)%bind_Ok). done. }
  unfold leaf in *. cbn [value] in *. change TWO_POW_128 with (2 ^ 128) in *.
  destruct (Z.ltb_spec v 0); [done|]. destruct (Z.leb_spec (2 ^ 128) v); [done|].
  cbn [orb map_err] in Hc. injection Hc as <-. split_and!; (done || lia).
Qed.

Context {L : BabyJubjubLaws} {PF : Poseidon2Field}.

(** The disclosure hook of a holder of the content key [cek]. *)
Definition open_with (cek : Z) (_ : Point) (ct : list Z) : list Z * Z :=
  (match demDecrypt cek ct with Ok fields => fields | Err _ => [] end, cek).

(** Whoever holds the content key decrypts the published fields to the note
    that hashes to the leaf. *)
Lemma opens m : Forall in_field (transmitted_fields (m_note m)) → leaf (m_note m) = Ok (commitment m) →
  psi (m_note m) = computePsi (m_cek m) → value (m_note m) < 2 ^ 128 →
  ∃ ct, demEncrypt (m_cek m) (transmitted_fields (m_note m)) = Ok ct ∧
    demDecrypt (m_cek m) ct = Ok (transmitted_fields (m_note m)) ∧
    Trace.openLeaf (open_with (m_cek m)) (Trace.mkLeaf (m_ephPub m) ct (commitment m))
    = Some (transmitted_fields (m_note m), psi (m_note m)).
Proof.
  intros Hf Hl Hpsi Hv.
  assert (∃ ct, demEncrypt (m_cek m) (transmitted_fields (m_note m)) = Ok ct) as [ct Hct] by (by eexists).
  exists ct. pose proof (demDecrypt_demEncrypt _ _ _ Hf Hct) as Hd. split_and!; [done|done|].
  unfold Trace.openLeaf, open_with. cbn [Trace.ephPub Trace.ciphertext Trace.leaf_of]. rewrite Hd.
  change (length (transmitted_fields (m_note m)) <? Trace.DEM_FIELDS)%nat with false.
  change (Trace.field (transmitted_fields (m_note m)) 4) with (value (m_note m)).
  change TWO_POW_128 with (2 ^ 128). rewrite (proj2 (Z.leb_gt _ _)) by done. rewrite <- Hpsi.
  destruct (m_note m) as [? ? ? ? ? ? ? ?]. cbn in *. rewrite Hl. by rewrite Z.eqb_refl.
Qed.

Lemma small_in_field v : 0 <= v < 2 ^ 128 → in_field v.
Proof. unfold in_field, MODULUS. lia. Qed.
Lemma publicKey_field k : valid_scalar k → in_field (publicKey k).1.
Proof. intros Hk. rewrite public_gen by done. apply Bjj.gen_canonical. Qed.

(** Minting with good keys fails exactly on a value outside 128 bits. *)
Lemma finish_iff eph v own asset spend par ck : valid_scalar eph → valid_scalar ck →
  is_ok (finish eph v own asset spend par (publicKey ck)) = true ↔ 0 <= v < 2 ^ 128.
Proof.
  intros He Hc. unfold finish, deriveCek.
  rewrite assertSubgroupScalar_valid, assertValidPoint_public by done. cbn [mbind result_bind].
  destruct (shared_pad ck eph Hc He) as [_ Hf]. rewrite (newFr_Ok (mulPointEscalar (publicKey ck) eph).1) by done. cbn [mbind result_bind].
  rewrite (newFr_Ok (publicKey eph).1) by by apply publicKey_field.
  unfold leaf. cbn [value]. change TWO_POW_128 with (2 ^ 128).
  destruct (Z.ltb_spec v 0), (Z.leb_spec (2 ^ 128) v); cbn; try (split; [done|lia]).
  rewrite newFr_Ok by (by apply small_in_field). split; [lia|done].
Qed.

Lemma minted_fields eph v own asset spend par cpk m :
  finish eph v own asset spend par cpk = Ok m → in_field own → in_field asset → in_field par →
  Forall in_field (transmitted_fields (m_note m)) ∧ value (m_note m) < 2 ^ 128 ∧
  psi (m_note m) = computePsi (m_cek m) ∧ leaf (m_note m) = Ok (commitment m).
Proof.
  intros (_ & Hv & Hn & Hl & _)%finish_Ok Ho Ha Hp. rewrite Hn in *. cbn. split_and!; [|lia|done|done].
  unfold NOTE_VERSION, NOTE_TYPE_STANDARD.
  unfold transmitted_fields. cbn [noteVersion assetId noteType conditionsHash value owner parents].
  rewrite !Forall_cons, Forall_nil. split_and!; first [done | apply small_in_field; lia].
Qed.

(** Paying an address: minting for the holder of [inKey] succeeds exactly
    for a 128-bit value; the note then carries the recipient's tag and owner
    commitment, its parents are the ones given, and from the published data
    the recipient alone recovers the content key, decrypts every field and
    rebuilds the leaf. *)
Theorem mint_incoming_received eph ck inKey v asset par :
  valid_scalar eph → valid_scalar ck → valid_scalar inKey → in_field asset → in_field par →
  let minted := mintIncomingNote eph v (publicKey inKey) inKey asset (publicKey ck) par in
  (is_ok minted = true ↔ 0 <= v < 2 ^ 128) ∧
  ∀ m, minted = Ok m →
    m_tag m = (publicKey inKey).1 ∧ value (m_note m) = v ∧ assetId (m_note m) = asset ∧
    owner (m_note m) = pubkeyOwner (publicKey inKey) ∧ parents (m_note m) = par ∧
    ∃ w ct, m_cekWrap m = Some w ∧
      demEncrypt (m_cek m) (transmitted_fields (m_note m)) = Ok ct ∧
      unwrapCek w inKey (m_ephPub m) = Ok (m_cek m) ∧
      Trace.openLeaf (open_with (m_cek m)) (Trace.mkLeaf (m_ephPub m) ct (commitment m))
      = Some (transmitted_fields (m_note m), psi (m_note m)).
Proof.
  intros He Hc Hi Ha Hp minted.
  pose proof (finish_iff eph v (pubkeyOwner (publicKey inKey)) asset inKey par ck He Hc) as Hiff.
  unfold minted, mintIncomingNote. rewrite newFr_Ok by by apply publicKey_field.
  destruct (finish eph v _ asset inKey par (publicKey ck)) as [b|e] eqn:Hb; cbn [mbind result_bind]; [|done].
  pose proof (finish_Ok _ _ _ _ _ _ _ _ Hb) as (_ & _ & Hn & _ & _ & _ & Heph & _ & _ & _ & _ & Hcek).
  destruct (unwrap_wrap (m_cek b) eph inKey Hcek He Hi) as (w & Hw & Hu). rewrite Hw. cbn [mbind result_bind].
  split; [exact Hiff|]. intros m [= <-]. cbn [m_tag m_note m_cek m_ephPub commitment m_cekWrap].
  destruct (minted_fields _ _ _ _ _ _ _ _ Hb (poseidon2_field _) Ha Hp) as (Hf & Hv & Hpsi & Hl).
  destruct (opens b Hf Hl Hpsi Hv) as (ct & Hct & _ & Ho).
  rewrite Hn at 1 2 3 4. split_and!; try done. exists w, ct. split_and!; [done|done|by rewrite Heph|done].
Qed.
End Mint.
End Mint.

(** ** Witness on the toy group, with the sum modulo the field for the hash *)
Module MintWitness.
Import EvenCurve Note Kem Dem Keys.Keys Mint.

#[export] Instance sum_hash : Poseidon2 := λ xs, sumZ (λ x, x) xs mod MODULUS.
#[export] Instance sum_hash_field : Poseidon2Field.
Proof. intros xs. apply Z.mod_pos_bound. reflexivity. Qed.

Lemma valid_small k : 0 < k < 13 → valid_scalar k.
Proof. intros Hk. unfold valid_scalar, BJJ_SUBGROUP_ORDER. cbn. lia. Qed.

Lemma mint_incoming_received_witness :
  is_ok (mintIncomingNote 5 40 (publicKey 4) 4 9 (publicKey 3) PARENTS_HIDDEN) = true.
Proof.
  apply (mint_incoming_received 5 3 4 40 9 PARENTS_HIDDEN); [by apply valid_small..| | |];
    unfold in_field, PARENTS_HIDDEN, MODULUS; lia.
Defined.
End MintWitness.
