(* ===== verification/Circuits.v ===== *)
(** * The standard circuits ([circuits/standard/*/src/main.nr] over
    [circuits/shared/src])

    A circuit is a function of its inputs: [Some] of its public outputs when
    every assertion holds, [None] when one fails.  Arithmetic is in the scalar
    field of BN254; the group operations of the vendored curve library are those
    of [BabyJubjub], and [BabyJubJub::new] asserts that its point is on the
    curve.  The hint of [subgroup.nr] is the product by [eight_inv], the inverse
    of the cofactor. *)
From S2P Require Import Prelude Bytes Zq Tss Tree Keys Trace Mint.
Local Open Scope Z_scope.

(** [assert(b)]. *)
Definition assert (b : bool) : option unit := if b then Some tt else None.
Lemma assert_true b : b = true → assert b = Some tt.
Proof. by intros ->. Qed.
Lemma assert_Some b u : assert b = Some u ↔ b = true.
Proof. unfold assert. destruct b, u; done. Qed.

(** Opens a successful sequence of assertions. *)
Ltac open_binds := repeat match goal with
  | H : _ ≫= _ = Some _ |- _ => apply bind_Some in H as (? & ? & ?)
  | H : (let '(_, _) := ?p in _) = Some _ |- _ => destruct p
  | H : assert _ = Some _ |- _ => apply assert_Some in H
  | H : Some _ = Some _ |- _ => injection H; clear H; intros; subst
  | H : negb _ = true |- _ => apply negb_true_iff in H
  | H : (_ =? _)%Z = true |- _ => apply Z.eqb_eq in H
  | H : (_ =? _)%Z = false |- _ => apply Z.eqb_neq in H
  | H : (_ <? _)%Z = true |- _ => apply Z.ltb_lt in H
  | H : (_ =? _)%nat = true |- _ => apply Nat.eqb_eq in H
  end.

Module Circuit.
Import Trace.Note.
Section Circuit.
Context `{BabyJubjub} `{Poseidon2} `{PoseidonV1} (eight_inv : Z).

(** ** [common] *)
Definition TREE_DEPTH : nat := 32.
Definition SUBORDER : Z :=
  2736030358979909402780800718157159386076813972158567259200215660948447373041.
Definition EIGHT_INV : Z :=
  2394026564107420727433200628387514462817212225638746351800188703329891451411.
Definition HALF_MODULUS : Z := 0x183227397098d014dc2822db40c0ac2e9419f4243cdcb848a1f0fac9f8000001.
Definition NOTE_VERSION : Z := 1.
Definition NOTE_TYPE_STANDARD : Z := 0.
Definition NOTE_TYPE_MULTISIG : Z := 1.

Definition assert_subgroup_scalar (x : Z) : option unit :=
  _ ← assert (negb (x =? 0)); assert (x <? SUBORDER).

(** [conservation.nr]: sums of 128-bit integers, an overflow fails. *)
Definition add_u128 (a b : Z) : option Z := if a + b <? 2 ^ 128 then Some (a + b) else None.
Fixpoint total (acc : Z) (values : list Z) : option Z :=
  match values with [] => Some acc | v :: values => acc ← add_u128 acc v; total acc values end.
Definition assert_conserved (inputs outputs : list Z) (public_out : Z) : option unit :=
  total_in ← total 0 inputs; total_out ← total public_out outputs; assert (total_in =? total_out).

(** [even_y.nr]. *)
Definition is_even_y (p : Point) : bool := (p.2 * HALF_MODULUS) mod MODULUS <? HALF_MODULUS.

(** [owner.nr], [note_nullifier.nr]. *)
Definition pubkey_owner (pk : Point) : Z := poseidon2 [pk.1; pk.2].
Definition psi_of (cek : Z) : Z := poseidon2 [cek; PSI_DOMAIN].
Definition nullifier (note_psi leaf_index : Z) : Z := poseidon2 [note_psi; leaf_index].

(** [note.nr]. *)
Definition assert_valid_note_type (note_type : Z) : option unit :=
  assert ((note_type =? NOTE_TYPE_STANDARD) || (note_type =? NOTE_TYPE_MULTISIG)).
Definition assert_asset_id (asset_id : Z) : option unit := assert (asset_id <? 256 ^ 20).
Definition note_leaf (n : Note) : Z :=
  poseidon2 [noteVersion n; assetId n; noteType n; conditionsHash n; value n; owner n; psi n; parents n].
Definition pack_parents (p0 p1 : Z) : Z := frAdd p0 (p1 * 4294967296 mod MODULUS).
Definition assert_parents_bound (n : Note) (index0 index1 : Z) : option unit :=
  assert (parents n =? pack_parents (index0 mod 2 ^ 32) (index1 mod 2 ^ 32)).

(** The curve: [check_subgroup], [is_zero], [derive_shared_key]. *)
Definition is_zero (p : Point) : bool := (p.1 =? 0) && (p.2 =? 1).
Definition check_subgroup (p : Point) : bool := is_zero (mulPointEscalar p subOrder).
Definition derive_public_key (k : Z) : Point := mulPointEscalar Base8 k.
Definition derive_shared_key (k : Z) (p : Point) : option Z :=
  _ ← assert (inCurve p); _ ← assert (check_subgroup p); Some (mulPointEscalar p k).1.

(** [subgroup.nr]: an untrusted preimage of the cofactor, then checked. *)
Definition dbl (p : Point) : Point := addPoint p p.
Definition cofactor_preimage_hint (p : Point) : Point := mulPointEscalar p eight_inv.
Definition assert_cofactor_preimage (p q : Point) : option unit :=
  _ ← assert (inCurve q);
  let eight_q := dbl (dbl (dbl q)) in
  _ ← assert (eight_q.1 =? p.1); assert (eight_q.2 =? p.2).
Definition assert_in_prime_subgroup (p : Point) : option unit :=
  assert_cofactor_preimage p (cofactor_preimage_hint p).

(** [kem.nr], [dem.nr]. *)
Definition derive_cek (eph : Z) (compliance_pk : Point) : option Z :=
  _ ← assert_subgroup_scalar eph; derive_shared_key eph compliance_pk.
Definition wrap_cek (cek eph : Z) (in_pub : Point) : option Z :=
  _ ← assert_subgroup_scalar eph;
  pad ← derive_shared_key eph in_pub;
  Some (frAdd cek (poseidon2 [pad])).
Definition dem_keystream (cek : Z) (k : nat) : Z := poseidon2 [cek; Dem.ENC_DOMAIN; Z.of_nat k].
Definition dem_encrypt (cek : Z) (plaintext : list Z) : list Z :=
  imap (λ k p, frAdd p (dem_keystream cek k)) plaintext.

(** ** [lib.nr]: the inclusion proof *)
Fixpoint inclusion_loop (current : Z) (leaf_index : Z) (i : nat) (siblings : list Z) : option Z :=
  match siblings with
  | [] => Some current
  | sibling :: siblings =>
      let path_bit := Z.b2z (Z.testbit leaf_index (Z.of_nat i)) in
      if negb (sibling =? 0) then
        let left := frAdd current (path_bit * frSub sibling current mod MODULUS) in
        let right := frSub (frAdd current sibling) left in
        inclusion_loop (poseidonV1Hash3 left right (Z.of_nat i)) leaf_index (S i) siblings
      else _ ← assert (path_bit =? 0); inclusion_loop current leaf_index (S i) siblings
  end.
(** [to_le_bits] into the depth's bits asserts that the index fits. *)
Definition lean_imt_inclusion_proof (leaf leaf_index : Z) (siblings : list Z) : option Z :=
  _ ← assert (leaf_index <? 2 ^ 32); inclusion_loop leaf leaf_index 0 siblings.

(** ** [mint.nr] *)
Definition assert_valid_compliance_pk (c : Point) : option unit :=
  _ ← assert (inCurve c); _ ← assert (check_subgroup c); assert (negb (is_zero c)).
Definition assert_valid_recipient_key (p : Point) : option unit :=
  _ ← assert (inCurve p); _ ← assert (check_subgroup p); assert (negb (is_zero p)).

Record Common := mkCommon { c_leaf : Z; c_eph_pub : Point; c_cek : Z; c_ciphertext : list Z }.
Definition mint_common (n : Note) (eph : Z) (compliance_pk : Point) : option Common :=
  _ ← assert_subgroup_scalar eph;
  _ ← assert (negb (owner n =? 0));
  _ ← assert (noteVersion n =? NOTE_VERSION);
  _ ← assert_valid_note_type (noteType n);
  _ ← assert (conditionsHash n =? 0);
  _ ← assert_asset_id (assetId n);
  cek ← derive_cek eph compliance_pk;
  _ ← assert (psi n =? psi_of cek);
  Some (mkCommon (note_leaf n) (derive_public_key eph) cek (dem_encrypt cek (Mint.transmitted_fields n))).

Record SelfMint := mkSelfMint { sm_leaf : Z; sm_eph_pub : Point; sm_ciphertext : list Z }.
Definition mint_deposit (n : Note) (eph : Z) (compliance_pk : Point) : option SelfMint :=
  c ← mint_common n eph compliance_pk;
  _ ← assert (is_even_y (c_eph_pub c));
  Some (mkSelfMint (c_leaf c) (c_eph_pub c) (c_ciphertext c)).
Definition mint_self_note (n : Note) (eph : Z) (compliance_pk : Point) : option SelfMint :=
  _ ← assert (noteType n =? NOTE_TYPE_STANDARD);
  c ← mint_common n eph compliance_pk;
  _ ← assert (is_even_y (c_eph_pub c));
  Some (mkSelfMint (c_leaf c) (c_eph_pub c) (c_ciphertext c)).

Record IncomingMint := mkIncomingMint {
  im_leaf : Z; im_eph_pub : Point; im_tag : Z; im_cek_wrap : Z; im_ciphertext : list Z }.
Definition mint_incoming_note (n : Note) (eph : Z) (compliance_pk spend_pub view_pub : Point) :
    option IncomingMint :=
  let is_std := Z.b2z (noteType n =? NOTE_TYPE_STANDARD) in
  let is_ms := Z.b2z (noteType n =? NOTE_TYPE_MULTISIG) in
  _ ← assert (is_std + is_ms =? 1);
  _ ← assert (Z.b2z (spend_pub.1 =? view_pub.1) =? is_std);
  _ ← assert (is_std * frSub spend_pub.2 view_pub.2 =? 0);
  _ ← assert_in_prime_subgroup spend_pub;
  _ ← assert (inCurve spend_pub);
  _ ← assert (negb (is_zero spend_pub));
  _ ← assert_valid_recipient_key view_pub;
  _ ← assert (owner n =? pubkey_owner spend_pub);
  c ← mint_common n eph compliance_pk;
  _ ← assert (is_even_y view_pub);
  _ ← assert (is_even_y (c_eph_pub c));
  cek_wrap ← wrap_cek (c_cek c) eph view_pub;
  Some (mkIncomingMint (c_leaf c) (c_eph_pub c) view_pub.1 cek_wrap (c_ciphertext c)).

(** ** [spend.nr] *)
Definition spend_membership_nullifier (n : Note) (leaf_index : Z) (path : list Z) : option (Z * Z) :=
  _ ← assert (noteVersion n =? NOTE_VERSION);
  _ ← assert_asset_id (assetId n);
  computed_root ← lean_imt_inclusion_proof (note_leaf n) leaf_index path;
  Some (nullifier (psi n) leaf_index, computed_root).
Definition verify_spend (n : Note) (spend_scalar leaf_index : Z) (path : list Z) : option (Z * Z) :=
  _ ← assert_subgroup_scalar spend_scalar;
  _ ← assert (owner n =? pubkey_owner (derive_public_key spend_scalar));
  _ ← assert (noteType n =? NOTE_TYPE_STANDARD);
  spend_membership_nullifier n leaf_index path.

(** ** The circuits *)
(** A [Note] parameter: its value is a 128-bit integer. *)
Definition note_input (n : Note) : option unit := assert ((0 <=? value n) && (value n <? 2 ^ 128)).
(** A [[Field; TREE_DEPTH]] parameter. *)
Definition path_input (path : list Z) : option unit := assert (length path =? TREE_DEPTH)%nat.

Record DepositMap := mkDepositMap { d_compliance : Point; d_note : Note; d_eph : Z }.
Record DepositOut := mkDepositOut {
  do_leaf : Z; do_eph_x : Z; do_value : Z; do_asset : Z; do_ciphertext : list Z }.
Definition deposit (m : DepositMap) : option DepositOut :=
  _ ← note_input (d_note m);
  _ ← assert_valid_compliance_pk (d_compliance m);
  _ ← assert (parents (d_note m) =? 0);
  minted ← mint_deposit (d_note m) (d_eph m) (d_compliance m);
  Some (mkDepositOut (sm_leaf minted) (sm_eph_pub minted).1 (value (d_note m)) (assetId (d_note m))
          (sm_ciphertext minted)).

Record TransferMap := mkTransferMap {
  t_compliance : Point; t_recipient_spend : Point; t_recipient_view : Point; t_old_note : Note;
  t_spend_scalar : Z; t_old_index : Z; t_old_path : list Z; t_memo_note : Note; t_memo_eph : Z;
  t_change_note : Note; t_change_eph : Z }.
Record TransferOut := mkTransferOut {
  to_nullifier : Z; to_root : Z; to_memo : IncomingMint; to_change : SelfMint }.
Definition transfer (m : TransferMap) : option TransferOut :=
  _ ← note_input (t_old_note m);
  _ ← note_input (t_memo_note m);
  _ ← note_input (t_change_note m);
  _ ← path_input (t_old_path m);
  _ ← assert_valid_compliance_pk (t_compliance m);
  '(nf, computed_root) ← verify_spend (t_old_note m) (t_spend_scalar m) (t_old_index m) (t_old_path m);
  _ ← assert (assetId (t_old_note m) =? assetId (t_memo_note m));
  _ ← assert (assetId (t_old_note m) =? assetId (t_change_note m));
  _ ← assert (negb (t_memo_eph m =? t_change_eph m));
  _ ← assert_conserved [value (t_old_note m)] [value (t_memo_note m); value (t_change_note m)] 0;
  _ ← assert (parents (t_memo_note m) =? PARENTS_HIDDEN);
  _ ← assert_parents_bound (t_change_note m) (t_old_index m) 0;
  memo ← mint_incoming_note (t_memo_note m) (t_memo_eph m) (t_compliance m) (t_recipient_spend m)
           (t_recipient_view m);
  change ← mint_self_note (t_change_note m) (t_change_eph m) (t_compliance m);
  Some (mkTransferOut nf computed_root memo change).

Record WithdrawMap := mkWithdrawMap {
  w_value : Z; w_recipient : Z; w_intent_hash : Z; w_compliance : Point; w_old_note : Note;
  w_spend_scalar : Z; w_old_index : Z; w_old_path : list Z; w_change_note : Note; w_change_eph : Z }.
Record WithdrawOut := mkWithdrawOut {
  wo_nullifier : Z; wo_root : Z; wo_asset : Z; wo_change : SelfMint }.
Definition withdraw (m : WithdrawMap) : option WithdrawOut :=
  _ ← assert ((0 <=? w_value m) && (w_value m <? 2 ^ 128));
  _ ← note_input (w_old_note m);
  _ ← note_input (w_change_note m);
  _ ← path_input (w_old_path m);
  _ ← assert_valid_compliance_pk (w_compliance m);
  _ ← assert (negb (w_recipient m =? 0));
  _ ← assert (w_intent_hash m =? 0);
  '(nf, computed_root) ← verify_spend (w_old_note m) (w_spend_scalar m) (w_old_index m) (w_old_path m);
  _ ← assert (assetId (w_old_note m) =? assetId (w_change_note m));
  _ ← assert_conserved [value (w_old_note m)] [value (w_change_note m)] (w_value m);
  _ ← assert_parents_bound (w_change_note m) (w_old_index m) 0;
  change ← mint_self_note (w_change_note m) (w_change_eph m) (w_compliance m);
  Some (mkWithdrawOut nf computed_root (assetId (w_old_note m)) change).

(** ** The circuits agree with the wallet *)
(** Halving decides parity. *)
Lemma is_even_y_spec p : in_field p.2 → is_even_y p = Keys.Keys.isEvenY p.
Proof.
  intros Hy. unfold is_even_y, Keys.Keys.isEvenY, in_field in *. change (Z.land p.2 1) with (Z.land p.2 (Z.ones 1)).
  rewrite Z.land_ones by lia. change (2 ^ 1) with 2. pose proof (Z.div_mod p.2 2). pose proof (Z.mod_pos_bound p.2 2).
  assert (EM : MODULUS = 2 * HALF_MODULUS - 1) by reflexivity.
  set (k := p.2 / 2) in *. destruct (Z.eqb_spec (p.2 mod 2) 0) as [E|E].
  - replace (p.2 * HALF_MODULUS) with (k + k * MODULUS) by nia. rewrite Z.mod_add, Z.mod_small by lia.
    apply Z.ltb_lt. lia.
  - replace (p.2 * HALF_MODULUS) with (k + HALF_MODULUS + k * MODULUS) by nia.
    rewrite Z.mod_add, Z.mod_small by lia. apply Z.ltb_ge. lia.
Qed.

Lemma select_left cur sib bit : in_field cur → in_field sib →
  frAdd cur (Z.b2z bit * frSub sib cur mod MODULUS) = if bit then sib else cur.
Proof.
  intros Hc Hs. unfold frAdd, frSub, in_field in *. destruct bit; cbn [Z.b2z].
  - rewrite Z.mul_1_l, Zmod_mod, Zplus_mod_idemp_r. replace (cur + (sib - cur)) with sib by ring. by apply Z.mod_small.
  - rewrite Z.mul_0_l, Zmod_0_l, Z.add_0_r. by apply Z.mod_small.
Qed.
Lemma select_right cur sib left : in_field cur → in_field sib → left = cur ∨ left = sib →
  frSub (frAdd cur sib) left = if decide (left = cur) then sib else cur.
Proof.
  intros Hc Hs. unfold frAdd, frSub, in_field in *. rewrite Zminus_mod_idemp_l. intros Hl.
  destruct (decide (left = cur)) as [->|Hne]; [|destruct Hl as [? | ->]; [done|]].
  - replace (cur + sib - cur) with sib by ring. by apply Z.mod_small.
  - replace (cur + sib - sib) with cur by ring. by apply Z.mod_small.
Qed.

Lemma path_bit_spec idx i : Z.land (Z.shiftr idx (Z.of_nat i)) 1 = Z.b2z (Z.testbit idx (Z.of_nat i)).
Proof.
  change (Z.land (Z.shiftr idx (Z.of_nat i)) 1) with (Z.land (Z.shiftr idx (Z.of_nat i)) (Z.ones 1)).
  rewrite Z.land_ones by lia. change (2 ^ 1) with 2. rewrite <- Z.bit0_mod, Z.shiftr_spec by lia.
  by rewrite Z.add_0_l.
Qed.

Definition accepts {E A} (r : result E A) : option A := match r with Ok a => Some a | Err _ => None end.

Lemma inclusion_loop_spec (Hv1 : ∀ xs, in_field (poseidon_v1 xs)) siblings : ∀ current idx i,
  in_field current → Forall in_field siblings →
  inclusion_loop current idx i siblings = accepts (Witness.fold_loop current idx i siblings).
Proof.
  induction siblings as [|sib siblings IH]; intros current idx i Hc Hs; [done|].
  apply Forall_cons in Hs as [Hsib Hs]. cbn [inclusion_loop Witness.fold_loop].
  rewrite path_bit_spec. set (bit := Z.testbit idx (Z.of_nat i)).
  destruct (sib =? 0); cbn [negb].
  - destruct bit; cbn; [done|]. by apply IH.
  - cbv zeta. rewrite select_left by done.
    assert (Hleft : (if bit then sib else current) = current ∨ (if bit then sib else current) = sib).
    { destruct bit; [by right|by left]. }
    rewrite (select_right current sib _ Hc Hsib Hleft).
    rewrite IH; [|apply Hv1|done].
    destruct bit; cbn [Z.b2z Z.eqb Pos.eqb]; [by destruct (decide (sib = current)) as [->|]|by rewrite decide_True].
Qed.

(** C18. Two languages, one tree: the inclusion proof of the circuits and the
    path fold of the wallet accept the same leaves, indices and siblings, and
    compute the same root, for field elements and a 32-bit index. *)
Theorem inclusion_agrees leaf idx siblings : (∀ xs, in_field (poseidon_v1 xs)) →
  in_field leaf → Forall in_field siblings → idx < 2 ^ 32 →
  lean_imt_inclusion_proof leaf idx siblings = accepts (Witness.foldPath leaf idx siblings).
Proof.
  intros Hv1 Hl Hs Hi. unfold lean_imt_inclusion_proof. rewrite assert_true by (by apply Z.ltb_lt).
  by apply inclusion_loop_spec.
Qed.

(** *** Keys and notes *)
Lemma assertValidPoint_spec p : Kem.assertValidPoint p = Ok tt →
  inCurve p = true ∧ check_subgroup p = true ∧ is_zero p = false.
Proof.
  unfold Kem.assertValidPoint, check_subgroup, is_zero. destruct (inCurve p); [|done]. cbn [negb].
  destruct ((p.1 =? 0) && (p.2 =? 1)); [done|].
  destruct (_ =? 0), (_ =? 1); try done.
Qed.
Lemma assertSubgroupScalar_spec x : Kem.assertSubgroupScalar x = Ok tt → assert_subgroup_scalar x = Some tt.
Proof.
  unfold Kem.assertSubgroupScalar, assert_subgroup_scalar. change Kem.BJJ_SUBGROUP_ORDER with SUBORDER.
  destruct (x =? 0); [done|]. destruct (Z.leb_spec SUBORDER x); [done|]. cbn.
  by rewrite assert_true by (by apply Z.ltb_lt).
Qed.
Lemma shared_key_spec k p : Kem.assertValidPoint p = Ok tt →
  derive_shared_key k p = Some (mulPointEscalar p k).1.
Proof.
  intros (Hc & Hs & _)%assertValidPoint_spec. unfold derive_shared_key. by rewrite !assert_true.
Qed.
Lemma deriveCek_spec eph p cek : Kem.deriveCek eph p = Ok cek →
  derive_cek eph p = Some cek ∧ assert_subgroup_scalar eph = Some tt ∧ assert_valid_compliance_pk p = Some tt.
Proof.
  unfold Kem.deriveCek. intros ([] & Hs & ([] & Hp & (-> & _)%newFr_inv)%bind_Ok)%bind_Ok.
  apply assertSubgroupScalar_spec in Hs. unfold derive_cek, assert_valid_compliance_pk.
  rewrite Hs. cbn. rewrite shared_key_spec by done. apply assertValidPoint_spec in Hp as (Hc & Hg & Hz).
  by rewrite Hz, !assert_true.
Qed.
Lemma wrapCek_spec cek eph p w : Kem.wrapCek cek eph p = Ok w →
  wrap_cek cek eph p = Some w ∧ assert_valid_recipient_key p = Some tt.
Proof.
  unfold Kem.wrapCek. intros ([] & Hs & ([] & Hp & (pad & (-> & _)%newFr_inv & [= <-])%bind_Ok)%bind_Ok)%bind_Ok.
  apply assertSubgroupScalar_spec in Hs. unfold wrap_cek, assert_valid_recipient_key.
  rewrite Hs. cbn. rewrite shared_key_spec by done. apply assertValidPoint_spec in Hp as (Hc & Hg & Hz).
  by rewrite Hz, !assert_true.
Qed.
Lemma leaf_spec n c : leaf n = Ok c → note_leaf n = c ∧ note_input n = Some tt.
Proof.
  unfold leaf, note_input. change TWO_POW_128 with (2 ^ 128).
  destruct (Z.ltb_spec (value n) 0), (Z.leb_spec (2 ^ 128) (value n)); cbn [orb]; try done.
  intros [= <-]. split; [done|]. apply assert_true. by rewrite (proj2 (Z.leb_le _ _)), (proj2 (Z.ltb_lt _ _)).
Qed.

(** The circuit accepts what [finish] mints, and publishes its leaf, its point
    and its encrypted fields. *)
Lemma mint_common_spec eph v own asset spend par cpk m : Mint.finish eph v own asset spend par cpk = Ok m →
  own ≠ 0 → asset < 2 ^ 160 →
  assert_valid_compliance_pk cpk = Some tt ∧ note_input (Mint.m_note m) = Some tt ∧
  ∃ ct, Dem.demEncrypt (Mint.m_cek m) (Mint.transmitted_fields (Mint.m_note m)) = Ok ct ∧
    mint_common (Mint.m_note m) eph cpk = Some (mkCommon (Mint.commitment m) (Mint.m_ephPub m) (Mint.m_cek m) ct).
Proof.
  intros (Hcek & Hv & Hn & Hl & _ & _ & He & _)%Mint.finish_Ok Hown Hasset.
  destruct (deriveCek_spec _ _ _ Hcek) as (Hd & Hs & Hp). destruct (leaf_spec _ _ Hl) as [Hleaf Hin].
  split_and!; [done|done|]. eexists. split; [reflexivity|]. unfold mint_common.
  rewrite Hs, Hd, Hleaf, Hn, He. cbn [mbind option_bind owner noteVersion noteType conditionsHash assetId psi].
  unfold assert_valid_note_type, assert_asset_id. change (256 ^ 20) with (2 ^ 160).
  rewrite (proj2 (Z.eqb_neq _ _) Hown), (proj2 (Z.ltb_lt _ _) Hasset). cbn [assert negb mbind option_bind].
  by rewrite Z.eqb_refl.
Qed.

(** ** What an accepted witness says *)
Lemma total_spec values : ∀ acc t, total acc values = Some t → t = acc + sumZ (λ v, v) values.
Proof.
  induction values as [|v values IH]; intros acc t; cbn [total]; rewrite ?sumZ_nil, ?sumZ_cons; [intros [= <-]; lia|].
  intros (a & Ha & Ht)%bind_Some. unfold add_u128 in Ha. destruct (_ <? _); [|done]. injection Ha as <-.
  apply IH in Ht. lia.
Qed.
Lemma conserved_sound inputs outputs out : assert_conserved inputs outputs out = Some tt →
  sumZ (λ v, v) inputs = out + sumZ (λ v, v) outputs.
Proof.
  unfold assert_conserved. intros (a & Ha & (b & Hb & E)%bind_Some)%bind_Some.
  apply assert_Some, Z.eqb_eq in E. apply total_spec in Ha, Hb. lia.
Qed.
Lemma note_input_Some n u : note_input n = Some u ↔ 0 <= value n < 2 ^ 128.
Proof. unfold note_input. rewrite assert_Some, andb_true_iff, Z.leb_le, Z.ltb_lt. done. Qed.

Lemma mint_common_sound n eph cpk c : mint_common n eph cpk = Some c →
  derive_cek eph cpk = Some (c_cek c) ∧ psi n = psi_of (c_cek c) ∧ noteVersion n = NOTE_VERSION ∧
  assetId n < 2 ^ 160 ∧ c_leaf c = note_leaf n ∧ c_eph_pub c = derive_public_key eph ∧
  c_ciphertext c = dem_encrypt (c_cek c) (Mint.transmitted_fields n).
Proof.
  unfold mint_common, assert_asset_id. change (256 ^ 20) with (2 ^ 160). intros H'. open_binds.
  by split_and!.
Qed.
Lemma mint_self_sound n eph cpk o : mint_self_note n eph cpk = Some o →
  noteType n = NOTE_TYPE_STANDARD ∧ ∃ c, mint_common n eph cpk = Some c ∧ is_even_y (c_eph_pub c) = true ∧
    o = mkSelfMint (c_leaf c) (c_eph_pub c) (c_ciphertext c).
Proof. unfold mint_self_note. intros H'. open_binds. split; [done|]. eexists. split; [eassumption|done]. Qed.
Lemma mint_incoming_sound n eph cpk sp vp o : mint_incoming_note n eph cpk sp vp = Some o →
  owner n = pubkey_owner sp ∧ (noteType n = NOTE_TYPE_STANDARD → sp.1 = vp.1) ∧
  (noteType n = NOTE_TYPE_MULTISIG → sp.1 ≠ vp.1) ∧ im_tag o = vp.1 ∧ is_even_y vp = true ∧
  ∃ c, mint_common n eph cpk = Some c ∧ im_leaf o = c_leaf c ∧ im_ciphertext o = c_ciphertext c ∧
    wrap_cek (c_cek c) eph vp = Some (im_cek_wrap o).
Proof.
  unfold mint_incoming_note. intros H'. open_binds.
  match goal with H : Z.b2z _ = Z.b2z _ |- _ => rename H into Hx end.
  split_and!; try done;
    [intros E; rewrite E in Hx; by destruct (Z.eqb_spec sp.1 vp.1)..|].
  eexists. split; [eassumption|]. by split_and!.
Qed.
Lemma verify_spend_sound n k idx path nf r : verify_spend n k idx path = Some (nf, r) →
  owner n = pubkey_owner (derive_public_key k) ∧ noteType n = NOTE_TYPE_STANDARD ∧
  nf = nullifier (psi n) idx ∧ idx < 2 ^ 32 ∧ lean_imt_inclusion_proof (note_leaf n) idx path = Some r.
Proof.
  unfold verify_spend, spend_membership_nullifier. intros H'. open_binds. split_and!; try done.
  unfold lean_imt_inclusion_proof in *. open_binds. done.
Qed.

(** C5. What a transfer proof shows, whoever made the witness.  Value is
    conserved over the integers, in 128 bits, and the asset is kept; the spent
    note belongs to the key, is in the tree of the public root at an index below
    [2^32], and the nullifier is the one of that index; the change is bound to
    the spent index, the memo hides it; the memo belongs to the recipient's spend
    key, and is tagged by the view key, the same point's coordinate for a
    standard note and another for a multisig note; and both published leaves
    commit to notes whose blinder is bound to a key that the compliance key can
    derive. *)
Theorem transfer_sound m o : 0 <= t_old_index m → transfer m = Some o →
  value (t_old_note m) = value (t_memo_note m) + value (t_change_note m) ∧
  0 <= value (t_memo_note m) < 2 ^ 128 ∧ 0 <= value (t_change_note m) < 2 ^ 128 ∧
  assetId (t_memo_note m) = assetId (t_old_note m) ∧ assetId (t_change_note m) = assetId (t_old_note m) ∧
  owner (t_old_note m) = pubkey_owner (derive_public_key (t_spend_scalar m)) ∧
  length (t_old_path m) = TREE_DEPTH ∧ t_old_index m < 2 ^ 32 ∧
  lean_imt_inclusion_proof (note_leaf (t_old_note m)) (t_old_index m) (t_old_path m) = Some (to_root o) ∧
  to_nullifier o = nullifier (psi (t_old_note m)) (t_old_index m) ∧
  parents (t_change_note m) = t_old_index m ∧ parents (t_memo_note m) = PARENTS_HIDDEN ∧
  owner (t_memo_note m) = pubkey_owner (t_recipient_spend m) ∧
  im_tag (to_memo o) = (t_recipient_view m).1 ∧
  (noteType (t_memo_note m) = NOTE_TYPE_STANDARD → (t_recipient_spend m).1 = (t_recipient_view m).1) ∧
  (noteType (t_memo_note m) = NOTE_TYPE_MULTISIG → (t_recipient_spend m).1 ≠ (t_recipient_view m).1) ∧
  im_leaf (to_memo o) = note_leaf (t_memo_note m) ∧ sm_leaf (to_change o) = note_leaf (t_change_note m) ∧
  ∃ cek cek', derive_cek (t_memo_eph m) (t_compliance m) = Some cek ∧ psi (t_memo_note m) = psi_of cek ∧
    derive_cek (t_change_eph m) (t_compliance m) = Some cek' ∧ psi (t_change_note m) = psi_of cek'.
Proof.
  intros Hidx. unfold transfer, path_input. intros H'. open_binds.
  repeat match goal with H : note_input _ = Some _ |- _ => apply note_input_Some in H end.
  match goal with H : verify_spend _ _ _ _ = Some (_, _) |- _ => apply verify_spend_sound in H as (? & ? & -> & ? & ?) end.
  match goal with H : assert_conserved _ _ _ = Some ?u |- _ => destruct u; apply conserved_sound in H; rewrite !sumZ_cons, !sumZ_nil in H end.
  match goal with H : mint_incoming_note _ _ _ _ _ = Some _ |- _ =>
    apply mint_incoming_sound in H as (? & ? & ? & ? & _ & c & Hc & ? & _) end.
  match goal with H : mint_self_note _ _ _ = Some _ |- _ =>
    apply mint_self_sound in H as (_ & c' & Hc' & _ & ->) end.
  apply mint_common_sound in Hc as (? & ? & _ & _ & ? & _), Hc' as (? & ? & _ & _ & ? & _).
  match goal with H : assert_parents_bound _ _ _ = Some _ |- _ => rename H into Hp end.
  unfold assert_parents_bound, pack_parents, frAdd in Hp. open_binds.
  change (0 mod 2 ^ 32 * 4294967296 mod MODULUS) with 0 in Hp.
  rewrite Z.add_0_r, (Z.mod_small _ (2 ^ 32)), Z.mod_small in Hp by (unfold MODULUS; lia).
  cbn [to_root to_nullifier to_memo to_change sm_leaf].
  split_and!; try first [done | lia | congruence]. exists (c_cek c), (c_cek c'). done.
Qed.

Context {L : BabyJubjubLaws}.

(** The product of a public key by the inverse of the cofactor is a preimage. *)
Lemma assert_in_prime_subgroup_spec k : 0 <= eight_inv → 8 * eight_inv =[subOrder] 1 → Kem.valid_scalar k →
  assert_in_prime_subgroup (Keys.Keys.publicKey k) = Some tt.
Proof.
  intros He Hinv [Hk _]. unfold assert_in_prime_subgroup, assert_cofactor_preimage, cofactor_preimage_hint, dbl.
  change (Keys.Keys.publicKey k) with (mulPointEscalar Base8 k).
  rewrite mul_mul by lia. rewrite !mul_add by nia. rewrite mul_curve by nia.
  assert (E : mulPointEscalar Base8 (k * eight_inv + k * eight_inv + (k * eight_inv + k * eight_inv)
    + (k * eight_inv + k * eight_inv + (k * eight_inv + k * eight_inv))) = mulPointEscalar Base8 k).
  { apply mul_order; [lia|nia|]. replace (_ + _) with (k * (8 * eight_inv)) by ring. rewrite Hinv.
    apply eqm_of_eq. ring. }
  rewrite E, !Z.eqb_refl. done.
Qed.
Lemma publicKey_even k : Kem.valid_scalar k → is_even_y (Keys.Keys.publicKey k) = Keys.Keys.isEvenY (Keys.Keys.publicKey k).
Proof. intros Hk. apply is_even_y_spec. rewrite Kem.public_gen by done. apply Bjj.gen_canonical. Qed.

(** A self note that the wallet mints is accepted. *)
Lemma mint_self_spec eph v spend asset cpk par m : Mint.mintSelfNote eph v spend asset cpk par = Ok m →
  Kem.valid_scalar eph → Keys.Keys.isEvenY (Keys.Keys.publicKey eph) = true →
  Keys.Keys.pubkeyOwner (Keys.Keys.publicKey spend) ≠ 0 → asset < 2 ^ 160 →
  assert_valid_compliance_pk cpk = Some tt ∧ note_input (Mint.m_note m) = Some tt ∧
  ∃ ct, Dem.demEncrypt (Mint.m_cek m) (Mint.transmitted_fields (Mint.m_note m)) = Ok ct ∧
    let out := Some (mkSelfMint (Mint.commitment m) (Mint.m_ephPub m) ct) in
    mint_self_note (Mint.m_note m) eph cpk = out ∧ mint_deposit (Mint.m_note m) eph cpk = out.
Proof.
  intros Hm He Hev Hown Hasset. pose proof (Mint.finish_Ok _ _ _ _ _ _ _ _ Hm) as (_ & _ & Hn & _ & _ & _ & Hpub & _).
  destruct (mint_common_spec _ _ _ _ _ _ _ _ Hm Hown Hasset) as (Hc & Hin & ct & Hct & Hmint).
  split_and!; [done|done|]. exists ct. split; [done|]. unfold mint_self_note, mint_deposit. rewrite Hmint, Hn.
  cbn. by rewrite Hpub, publicKey_even, Hev.
Qed.

(** The note of a payment to the address [inKey] is accepted. *)
Lemma mint_incoming_spec eph v inKey key asset cpk par m :
  Mint.mintIncomingNote eph v (Keys.Keys.publicKey inKey) key asset cpk par = Ok m →
  0 <= eight_inv → 8 * eight_inv =[subOrder] 1 →
  Kem.valid_scalar eph → Keys.Keys.isEvenY (Keys.Keys.publicKey eph) = true →
  Kem.valid_scalar inKey → Keys.Keys.isEvenY (Keys.Keys.publicKey inKey) = true →
  Keys.Keys.pubkeyOwner (Keys.Keys.publicKey inKey) ≠ 0 → asset < 2 ^ 160 →
  note_input (Mint.m_note m) = Some tt ∧
  ∃ w ct, Mint.m_cekWrap m = Some w ∧
    Dem.demEncrypt (Mint.m_cek m) (Mint.transmitted_fields (Mint.m_note m)) = Ok ct ∧
    mint_incoming_note (Mint.m_note m) eph cpk (Keys.Keys.publicKey inKey) (Keys.Keys.publicKey inKey)
    = Some (mkIncomingMint (Mint.commitment m) (Mint.m_ephPub m) (Mint.m_tag m) w ct).
Proof.
  intros Hm H8 Hinv He Hev Hi Hiev Hown Hasset. unfold Mint.mintIncomingNote in Hm.
  apply bind_Ok in Hm as (b & Hb & Hm). apply bind_Ok in Hm as (w & Hw & Hm).
  apply bind_Ok in Hm as (t & (-> & _)%newFr_inv & [= <-]). cbn [Mint.m_note Mint.m_cek Mint.commitment Mint.m_ephPub Mint.m_tag Mint.m_cekWrap].
  pose proof (Mint.finish_Ok _ _ _ _ _ _ _ _ Hb) as (_ & _ & Hn & _ & _ & _ & Hpub & _).
  destruct (mint_common_spec _ _ _ _ _ _ _ _ Hb Hown Hasset) as (Hc & Hin & ct & Hct & Hmint).
  destruct (wrapCek_spec _ _ _ _ Hw) as [Hwrap Hkey]. split; [done|]. exists w, ct. split_and!; [done|done|].
  unfold mint_incoming_note. rewrite (assert_in_prime_subgroup_spec inKey) by done.
  rewrite Hkey, Hmint. cbn [mbind option_bind c_cek c_leaf c_eph_pub c_ciphertext].
  rewrite Hn. cbn [noteType owner].
  unfold assert_valid_recipient_key in Hkey. destruct (inCurve _) eqn:Hcurve; [|done].
  destruct (check_subgroup _); [|done]. destruct (negb (is_zero _)) eqn:Hz; [|done].
  rewrite !Z.eqb_refl, Hpub, !publicKey_even, Hev, Hiev by done.
  change Keys.Keys.pubkeyOwner with pubkey_owner. rewrite ?Z.eqb_refl.
  unfold frSub. rewrite Z.sub_diag. cbn. by rewrite Hwrap.
Qed.

(** What a spendable note satisfies, and the circuit accepts. *)
Record spendable (n : Note) (spend_scalar : Z) : Prop := {
  sp_version : noteVersion n = NOTE_VERSION;
  sp_type : noteType n = NOTE_TYPE_STANDARD;
  sp_asset : assetId n < 2 ^ 160;
  sp_scalar : Kem.valid_scalar spend_scalar;
  sp_owner : owner n = Keys.Keys.pubkeyOwner (Keys.Keys.publicKey spend_scalar);
}.
Lemma verify_spend_spec n k leaf idx siblings root : (∀ xs, in_field (poseidon_v1 xs)) →
  spendable n k → Trace.Note.leaf n = Ok leaf → in_field leaf → Forall in_field siblings → idx < 2 ^ 32 →
  Witness.foldPath leaf idx siblings = Ok root →
  verify_spend n k idx siblings = Some (computeNullifier (psi n) idx, root).
Proof.
  intros Hv1 [Hver Hty Has Hk Ho] [Hleaf _]%leaf_spec Hl Hs Hi Hf. unfold verify_spend, spend_membership_nullifier.
  rewrite (assertSubgroupScalar_spec k) by (by apply Kem.assertSubgroupScalar_valid).
  change (pubkey_owner (derive_public_key k)) with (Keys.Keys.pubkeyOwner (Keys.Keys.publicKey k)).
  unfold assert_asset_id. change (256 ^ 20) with (2 ^ 160).
  rewrite Ho, Hver, Hty, Z.eqb_refl, (proj2 (Z.ltb_lt _ _) Has), Hleaf, (inclusion_agrees _ _ _ Hv1 Hl Hs Hi), Hf. by rewrite !Z.eqb_refl.
Qed.

Lemma conserved_spec a b c out : 0 <= a < 2 ^ 128 → 0 <= b → 0 <= c → 0 <= out → a = out + b + c →
  assert_conserved [a] [b; c] out = Some tt.
Proof.
  intros Ha Hb Hc Ho E. unfold assert_conserved, total, add_u128.
  do 3 (rewrite (proj2 (Z.ltb_lt _ _)) by lia; cbn [mbind option_bind]). rewrite <- E.
  apply assert_true. apply Z.eqb_eq. lia.
Qed.
Lemma parents_spec idx par : packParents idx 0 = Ok par →
  idx < 2 ^ 32 ∧ ∀ n, parents n = par → assert_parents_bound n idx 0 = Some tt.
Proof.
  unfold packParents, assertU32. destruct (Z.ltb_spec idx 0), (Z.ltb_spec 0xffffffff idx); try done. cbn.
  rewrite Z.add_0_r. intros [= <-]. split; [lia|]. intros n Hp. apply assert_true, Z.eqb_eq. rewrite Hp.
  unfold pack_parents, frAdd. change (0 mod 2 ^ 32 * 4294967296 mod MODULUS) with 0.
  rewrite Z.add_0_r, (Z.mod_small idx (2 ^ 32)) by lia. rewrite Z.mod_small; [done|unfold MODULUS; lia].
Qed.
End Circuit.
End Circuit.
