(* ===== verification/State.v ===== *)
(** * Wallet state ([packages/sdk/src/state], [discovery/reconcile.ts])

    [Counter] holds the ephemeral-counter interface as a class with its
    contract, and the in-memory, sealed and persistent stores as instances;
    [Reconcile] the ratchet of [discovery/reconcile.ts]; [KeyRepo] the key
    repository, proved against the interface; [Utxo] the note repository.
    JavaScript numbers are integers here (exact below 2^53); operations run
    one at a time, as the promise lock of each class serialises them. *)
From S2P Require Import Prelude Bytes Tss Keys.
Local Open Scope Z_scope.

(** ** The counter interface *)

Inductive CounterError :=
  | Bad_span (span : Z) | Write_failed | Sealed | Bad_base (base span : Z)
  | Out_of_span (used base span : Z) | Bad_target (t : Z).

(** [EphemeralReservation]; [commit] and [release] only validate. *)
Record EphemeralReservation := mkReservation { base : Z; span : Z }.
Definition commit (r : EphemeralReservation) (usedThrough : Z) : result CounterError unit :=
  if (usedThrough <? base r) || (base r + span r <=? usedThrough)
  then Err (Out_of_span usedThrough (base r) (span r)) else Ok tt.
Definition release (r : EphemeralReservation) : result CounterError unit := Ok tt.

Class EphemeralCounterStore (S : Type) := {
  reserve : string → Z → M S CounterError EphemeralReservation;
  highWater : string → S → Z;
}.

(** The contract: a reservation starts at or above the old high-water of its
    scope, and is durable on return; no call lowers any high-water. *)
Class CounterLaws (S : Type) `{EphemeralCounterStore S} : Prop := {
  reserve_ok scope n s s' r : reserve scope n s = (s', Ok r) →
    0 < n ∧ span r = n ∧ highWater scope s <= base r ∧ base r + n <= highWater scope s';
  reserve_mono scope scope' n s : highWater scope' s <= highWater scope' (reserve scope n s).1;
}.

Module Counter.

(** ** [InMemoryEphemeralCounterStore] *)
Record InMemory := mkInMemory { water : gmap string Z; failNext : bool }.

Definition mem_reserve (scope : string) (n : Z) : M InMemory CounterError EphemeralReservation :=
  if negb (0 <? n) then throw (Bad_span n)
  else
    s ← get;
    if failNext s then _ ← modify (λ s, mkInMemory (water s) false); throw Write_failed
    else
      let base := default 0 (water s !! scope) in
      _ ← modify (λ s, mkInMemory (<[scope := base + n]> (water s)) (failNext s));
      mret (mkReservation base n).
Definition mem_highWater (scope : string) (s : InMemory) : Z := default 0 (water s !! scope).
Definition snapshot (s : InMemory) : gmap string Z := water s.
Definition failNextWrite (s : InMemory) : InMemory := mkInMemory (water s) true.

#[export] Instance inMemoryStore : EphemeralCounterStore InMemory :=
  {| reserve := mem_reserve; highWater := mem_highWater |}.

(** ** [SealedEphemeralCounterStore] *)
Definition sealedStore : EphemeralCounterStore unit :=
  {| reserve _ _ := throw Sealed; highWater _ _ := 0 |}.

(** ** [PersistentEphemeralCounterStore] over a durable medium *)
Class CounterPersistence (P : Type) := {
  persist_read : P → gmap string Z;
  persist_reserve : string → Z → M P CounterError Z;
}.

Section persistent.
Context {P : Type} `{CounterPersistence P}.
Definition persistent_reserve (scope : string) (n : Z) : M P CounterError EphemeralReservation :=
  if negb (0 <? n) then throw (Bad_span n)
  else
    base ← persist_reserve scope n;
    if negb (isSafeInteger base) || (base <? 0) || negb (isSafeInteger (base + n))
    then throw (Bad_base base n)
    else mret (mkReservation base n).
Definition persistent_highWater (scope : string) (s : P) : Z := default 0 (persist_read s !! scope).
Definition persistentStore : EphemeralCounterStore P :=
  {| reserve := persistent_reserve; highWater := persistent_highWater |}.

(** What the medium promises: one durable transaction that selects a base at or
    above the recorded high-water and advances it. *)
Class PersistenceLaws : Prop := {
  persist_ok scope n (s s' : P) b : 0 < n → persist_reserve scope n s = (s', Ok b) →
    persistent_highWater scope s <= b ∧ b + n <= persistent_highWater scope s';
  persist_mono scope scope' n (s : P) : 0 < n →
    persistent_highWater scope' s <= persistent_highWater scope' (persist_reserve scope n s).1;
}.
End persistent.

(** *** The three stores meet the contract *)

Lemma mem_reserve_spec scope n s :
  mem_reserve scope n s =
  if negb (0 <? n) then (s, Err (Bad_span n))
  else if failNext s then (mkInMemory (water s) false, Err Write_failed)
  else (mkInMemory (<[scope := mem_highWater scope s + n]> (water s)) false,
        Ok (mkReservation (mem_highWater scope s) n)).
Proof.
  unfold mem_reserve. destruct (0 <? n); [|done].
  cbn [negb]. unfold get, mbind, M_bind. destruct s as [w f]. cbn [failNext water]. by destruct f.
Qed.

Lemma mem_highWater_insert scope scope' n w f :
  mem_highWater scope' (mkInMemory (<[scope := n]> w) f)
  = if decide (scope' = scope) then n else mem_highWater scope' (mkInMemory w f).
Proof.
  unfold mem_highWater. cbn [water]. case_decide as E.
  - subst. by rewrite lookup_insert_eq.
  - by rewrite lookup_insert_ne.
Qed.

#[export] Instance inMemory_laws : CounterLaws InMemory.
Proof.
  split; cbn [reserve highWater inMemoryStore]; intros *; rewrite mem_reserve_spec;
    destruct (Z.ltb_spec 0 n) as [Hn|Hn]; cbn [negb]; try done; destruct (failNext s); try done.
  - intros [= <- <-]. cbn [base span]. rewrite mem_highWater_insert, decide_True by done. lia.
  - cbn [fst]. rewrite mem_highWater_insert. case_decide as E; [subst; lia|].
    unfold mem_highWater. cbn [water]. lia.
Qed.

Lemma sealed_laws : @CounterLaws unit sealedStore.
Proof. split; [done|]. intros. cbn. lia. Qed.

Lemma persistent_laws `{PersistenceLaws P} : @CounterLaws P persistentStore.
Proof.
  split; cbn [reserve highWater persistentStore]; intros *; unfold persistent_reserve;
    destruct (Z.ltb_spec 0 n) as [Hn|Hn]; cbn [negb]; try done.
  - unfold mbind, M_bind. destruct (persist_reserve scope n s) as [s1 [b|e]] eqn:E; [|done].
    destruct (_ || _); [done|]. intros [= <- <-]. cbn [base span].
    destruct (persist_ok scope n s s1 b Hn E). lia.
  - pose proof (persist_mono scope scope' n s Hn) as Hm.
    unfold mbind, M_bind. destruct (persist_reserve scope n s) as [s1 [b|e]]; [|done].
    by destruct (_ || _).
Qed.

(** *** Reservations never overlap *)
Section reservations.
Context {S : Type} `{CounterLaws S}.

Inductive Call := Reserve (scope : string) (n : Z).
(** The granted spans of a run, with their scopes; a rejected call grants none. *)
Fixpoint run (calls : list Call) (s : S) : list (string * EphemeralReservation) * S :=
  match calls with
  | [] => ([], s)
  | Reserve scope n :: calls =>
      let '(s', out) := reserve scope n s in
      let '(granted, s'') := run calls s' in
      (match out with Ok r => (scope, r) :: granted | Err _ => granted end, s'')
  end.

Definition in_span (i : Z) (r : EphemeralReservation) : Prop := base r <= i < base r + span r.

Lemma run_spec calls s granted s' : run calls s = (granted, s') →
  (∀ scope, highWater scope s <= highWater scope s') ∧
  Forall (λ g, highWater g.1 s <= base g.2 ∧ base g.2 + span g.2 <= highWater g.1 s' ∧ 0 < span g.2)
    granted.
Proof.
  revert s granted s'. induction calls as [|[scope n] calls IH]; intros s granted s'; cbn [run].
  { intros [= <- <-]. split; [lia|constructor]. }
  pose proof (reserve_mono scope) as Hmono.
  destruct (reserve scope n s) as [s1 out] eqn:E1. destruct (run calls s1) as [g1 s2] eqn:E2.
  destruct (IH _ _ _ E2) as [Hle Hall]. intros [= <- <-].
  assert (Hle1 : ∀ scope', highWater scope' s <= highWater scope' s1)
    by (intros scope'; specialize (Hmono scope' n s); by rewrite E1 in Hmono).
  assert (Hall' : Forall (λ g, highWater g.1 s <= base g.2 ∧ base g.2 + span g.2 <= highWater g.1 s2 ∧ 0 < span g.2) g1).
  { eapply Forall_impl; [exact Hall|]. intros [sc r] (? & ? & ?). cbn [fst snd] in *.
    specialize (Hle1 sc). lia. }
  split; [intros sc; specialize (Hle1 sc); specialize (Hle sc); lia|].
  destruct out as [r|e]; [|done]. constructor; [|done]. cbn [fst snd].
  destruct (reserve_ok _ _ _ _ _ E1) as (? & ? & ? & ?). specialize (Hle scope). lia.
Qed.

(** No index is ever issued twice: for any store that meets the contract
    and any sequence of reservations on any scopes, some of them failing, the
    spans granted to one scope are non-empty, lie above every high-water before
    them and are pairwise disjoint, in particular from all spans of later calls. *)
Theorem reservations_disjoint calls s granted s' :
  run calls s = (granted, s') →
  ∀ k1 k2 scope r1 r2 i, (k1 < k2)%nat →
    granted !! k1 = Some (scope, r1) → granted !! k2 = Some (scope, r2) →
    highWater scope s <= base r1 ∧ 0 < span r1 ∧ (in_span i r1 → ~ in_span i r2).
Proof.
  revert s granted s'. induction calls as [|[sc n] calls IH]; intros s granted s'; cbn [run].
  { by intros [= <- <-]. }
  destruct (reserve sc n s) as [s1 out] eqn:E1. destruct (run calls s1) as [g1 s2] eqn:E2.
  intros [= <- <-] k1 k2 scope r1 r2 i Hk H1 H2.
  pose proof (reserve_mono sc scope n s) as Hmono. rewrite E1 in Hmono. cbn [fst] in Hmono.
  destruct (run_spec _ _ _ _ E2) as [_ Hall]. rewrite Forall_lookup in Hall.
  destruct out as [r|e]; [|destruct (IH _ _ _ E2 _ _ _ _ _ i Hk H1 H2) as (? & ? & ?); split_and!; [lia|done..]].
  destruct k2 as [|k2]; [lia|]. cbn in H2. destruct (Hall _ _ H2) as (Hb & _ & _). cbn [fst snd] in Hb.
  destruct k1 as [|k1].
  - cbn in H1. injection H1 as <- <-. destruct (reserve_ok _ _ _ _ _ E1) as (? & ? & ? & ?).
    unfold in_span. lia.
  - cbn in H1. destruct (IH _ _ _ E2 k1 k2 _ _ _ i ltac:(lia) H1 H2) as (? & ? & ?).
    split_and!; [lia|done..].
Qed.
End reservations.
End Counter.

(** ** [discovery/reconcile.ts] *)
Module Reconcile.
Section Reconcile.
Context {S : Type} `{CounterLaws S}.

Record IndexedTag := mkIndexedTag { index : Z; tag : Z }.
Record FirstOccurrence := mkFirst { first_tag : Z; occurrenceCount : Z }.
(** [DiscoverySource.probeFirst], one answer for a batch of tags. *)
Context (probeFirst : list Z → list FirstOccurrence).

Definition ratchetCounter (scope : string) (toExclusive : Z) : M S CounterError Z :=
  if toExclusive <? 0 then throw (Bad_target toExclusive)
  else
    s ← get;
    let current := highWater scope s in
    if toExclusive <=? current then mret current
    else _ ← reserve scope (toExclusive - current); mret toExclusive.

Definition occupiedTags (tags : list IndexedTag) : gset Z :=
  if (length tags =? 0)%nat then ∅
  else
    let probed := probeFirst (tag <$> tags) in
    let byTag := foldl (λ m t, <[tag t := index t]> m) (∅ : gmap Z Z) tags in
    foldl (λ occupied entry,
      if occurrenceCount entry <=? 0 then occupied
      else match byTag !! first_tag entry with
           | Some i => {[i]} ∪ occupied | None => occupied end) ∅ probed.

Record Reconciled := mkReconciled { rec_highWater : Z; rec_occupied : list Z }.
Definition reconcileCounterWithChain (scope : string) (candidates : list IndexedTag) :
    M S CounterError Reconciled :=
  let occupied := occupiedTags candidates in
  let sorted := order_by (λ i, i) (elements occupied) in
  let highest := default (-1) (last sorted) in
  w ← ratchetCounter scope (highest + 1);
  mret (mkReconciled w sorted).

Lemma byTag_lookup tags t : NoDup (tag <$> tags) → t ∈ tags →
  foldl (λ m t, <[tag t := index t]> m) (∅ : gmap Z Z) tags !! tag t = Some (index t).
Proof.
  induction tags as [|t' tags IH] using rev_ind; [by intros _ ?%not_elem_of_nil|].
  rewrite fmap_app, foldl_snoc, NoDup_app. intros (Hd & Hn & _) [Ht|Ht]%elem_of_app.
  - rewrite lookup_insert_ne; [by apply IH|]. intros E. apply (Hn (tag t)).
    + apply list_elem_of_fmap. eauto.
    + rewrite <- E. left.
  - apply list_elem_of_singleton in Ht as ->. apply lookup_insert_eq.
Qed.

Lemma occupied_fold (byTag : gmap Z Z) probed i : ∀ occ,
  i ∈ foldl (λ occupied entry,
      if occurrenceCount entry <=? 0 then occupied
      else match byTag !! first_tag entry with
           | Some i => {[i]} ∪ occupied | None => occupied end) occ probed ↔
  i ∈ (occ : gset Z) ∨ ∃ e, e ∈ probed ∧ 0 < occurrenceCount e ∧ byTag !! first_tag e = Some i.
Proof.
  induction probed as [|e probed IH]; intros occ; cbn [foldl].
  { split; [by left|]. intros [|(e & He%not_elem_of_nil & _)]; done. }
  rewrite IH. setoid_rewrite elem_of_cons. destruct (Z.leb_spec (occurrenceCount e) 0) as [Hc|Hc].
  - split; [naive_solver|]. intros [|(e' & [->|] & ? & ?)]; [by left|lia|naive_solver].
  - destruct (byTag !! first_tag e) as [j|] eqn:Hj.
    + rewrite elem_of_union, elem_of_singleton. naive_solver.
    + naive_solver.
Qed.

Lemma occupied_spec tags t e : NoDup (tag <$> tags) → t ∈ tags →
  e ∈ probeFirst (tag <$> tags) → first_tag e = tag t → 0 < occurrenceCount e →
  index t ∈ occupiedTags tags.
Proof.
  intros Hd Ht He Htag Hc. unfold occupiedTags.
  destruct (Nat.eqb_spec (length tags) 0) as [E|_].
  { apply nil_length_inv in E. subst. by apply not_elem_of_nil in Ht. }
  apply occupied_fold. right. exists e. rewrite Htag. by rewrite byTag_lookup.
Qed.

Lemma sorted_last_le (l : list Z) i : StronglySorted Z.le l → i ∈ l → i <= default (-1) (last l).
Proof.
  intros Hs. revert i. induction Hs as [|x l Hs IH Hall]; intros i; [by intros ?%not_elem_of_nil|].
  rewrite elem_of_cons. destruct l as [|y l]; [by intros [->|?%not_elem_of_nil]; simpl; lia|].
  change (last (x :: y :: l)) with (last (y :: l)). intros [->|Hi]; [|by apply IH].
  rewrite Forall_forall in Hall. transitivity y; [apply Hall; left|apply IH; left].
Qed.

Lemma ratchet_spec scope n s s' w : ratchetCounter scope n s = (s', Ok w) →
  n <= w ∧ w <= highWater scope s' ∧ highWater scope s <= highWater scope s'.
Proof.
  unfold ratchetCounter, get, mbind, M_bind, throw, mret, M_ret.
  destruct (n <? 0); [done|]. destruct (Z.leb_spec n (highWater scope s)) as [Hle|Hgt].
  { intros [= <- <-]. lia. }
  destruct (reserve scope (n - highWater scope s) s) as [s1 [r|e]] eqn:E; [|done].
  intros [= <- <-]. destruct (reserve_ok _ _ _ _ _ E) as (? & _ & ? & ?). lia.
Qed.

(** Reconciliation with the chain: after it returns, no index whose tag
    the discovery source reports as occupied can ever be reserved again, and
    no high-water was lowered. *)
Theorem reconcile_burns_occupied scope candidates s s' out :
  NoDup (tag <$> candidates) →
  reconcileCounterWithChain scope candidates s = (s', Ok out) →
  highWater scope s <= highWater scope s' ∧
  ∀ c e, c ∈ candidates → e ∈ probeFirst (tag <$> candidates) →
    first_tag e = tag c → 0 < occurrenceCount e →
    index c ∈ rec_occupied out ∧ index c < rec_highWater out ∧
    ∀ n s'' r, reserve scope n s' = (s'', Ok r) → index c < base r.
Proof.
  intros Hd. unfold reconcileCounterWithChain, mbind, M_bind, mret, M_ret.
  destruct (ratchetCounter _ _ s) as [s1 [w|e]] eqn:E; [|done]. intros [= <- <-].
  destruct (ratchet_spec _ _ _ _ _ E) as (H1 & H2 & H3). split; [done|].
  intros c e Hc He Htag Hcount. cbn [rec_occupied rec_highWater].
  assert (Hin : index c ∈ order_by (λ i, i) (elements (occupiedTags candidates))).
  { rewrite order_by_perm. apply elem_of_elements. by eapply occupied_spec. }
  pose proof (order_by_sorted (λ i, i) (elements (occupiedTags candidates))) as Hs.
  rewrite list_fmap_id in Hs. pose proof (sorted_last_le _ _ Hs Hin).
  split_and!; [done|lia|]. intros n s'' r Hr.
  destruct (reserve_ok _ _ _ _ _ Hr) as (_ & _ & ? & _). lia.
Qed.
End Reconcile.
End Reconcile.

(** ** [state/KeyRepository.ts] *)
Module KeyRepo.

(** The key derivations of [IDarkAccount]. *)
Class DarkAccount := {
  getSelfEphemeral : Z → Z;
  getIncomingKey : Z → Z;
  getSelfSpendPub : Point;
}.

Import Keys.Keys.
Section KeyRepo.
Context {S : Type} `{EphemeralCounterStore S} `{BabyJubjub} `{Poseidon2} `{DarkAccount}.

Definition DEFAULT_LOOKAHEAD_WINDOW : Z := 20.
Definition MAX_INDEX_ROLL : nat := 256.
Definition MAX_KEY_INDEX : Z := 1000000.
Definition SELF_EPH_SCOPE : string := "self".

(** A finite number by its floor, or a non-finite one. *)
Definition clampIndex (value : option Z) (floor : Z) : Z :=
  match value with
  | None => floor
  | Some v => Z.min (Z.max v floor) MAX_KEY_INDEX
  end.

Record KeyRepository := mkRepo {
  selfMintCounter : Z;
  selfScanIndex : Z;
  incomingIssueCounter : Z;
  incomingScanIndex : Z;
  highestMatchedSelf : Z;
  highestMatchedIncoming : Z;
  selfMap : gmap Z (Z * Z);
  incomingMap : gmap Z (Z * Z);
}.
Definition fresh : KeyRepository := mkRepo 0 0 0 0 (-1) (-1) ∅ ∅.

Inductive KeyError :=
  | Counter (e : CounterError) | No_even_self | No_even_incoming (start : Z) | Bad_tag (x : Z).
Record SelfEphemeral := mkSelf { eph : Z; ephPub : Point; tag : Z; index : Z }.
Record IncomingAddress := mkIncoming { inKey : Z; inPub : Point; in_index : Z }.

Definition W : Type := KeyRepository * S.
Definition on_store {A} (m : M S CounterError A) : M W KeyError A := λ w,
  let '(s, r) := m w.2 in
  ((w.1, s), match r with Ok a => Ok a | Err e => Err (Counter e) end).
Definition on_repo (f : KeyRepository → KeyRepository) : M W KeyError unit :=
  modify (λ w, (f w.1, w.2)).

Definition record_self (i : Z) (k : Z) (p : Point) (r : KeyRepository) : KeyRepository :=
  mkRepo (Z.max (selfMintCounter r) (i + 1))
    (if selfScanIndex r <? i + 1 then i + 1 else selfScanIndex r)
    (incomingIssueCounter r) (incomingScanIndex r) (highestMatchedSelf r) (highestMatchedIncoming r)
    (<[p.1 := (k, i)]> (selfMap r)) (incomingMap r).

(** The marked candidate is returned with the owner commitment it is bound to. *)
Fixpoint self_loop (attempts : nat) : M W KeyError (SelfEphemeral * Z) :=
  match attempts with
  | O => throw No_even_self
  | Datatypes.S attempts =>
      res ← on_store (reserve SELF_EPH_SCOPE 1);
      let index := base res in
      let eph := getSelfEphemeral index in
      let ephPub := publicKey eph in
      if negb (isEvenY ephPub) then self_loop attempts
      else
        _ ← lift Counter (commit res index);
        let ownerCommitment := pubkeyOwner getSelfSpendPub in
        _ ← on_repo (record_self index eph ephPub);
        mret (mkSelf eph ephPub ephPub.1 index, ownerCommitment)
  end.
Definition nextSelfEphemeral : M W KeyError (SelfEphemeral * Z) := self_loop MAX_INDEX_ROLL.

Definition record_incoming (i : Z) (k : Z) (p : Point) (r : KeyRepository) : KeyRepository :=
  mkRepo (selfMintCounter r) (selfScanIndex r) (i + 1)
    (if incomingScanIndex r <? i + 1 then i + 1 else incomingScanIndex r)
    (highestMatchedSelf r) (highestMatchedIncoming r)
    (selfMap r) (<[p.1 := (k, i)]> (incomingMap r)).

Fixpoint incoming_loop (attempts : nat) (start index : Z) : M W KeyError IncomingAddress :=
  match attempts with
  | O => throw (No_even_incoming start)
  | Datatypes.S attempts =>
      let inKey := getIncomingKey index in
      let inPub := publicKey inKey in
      if negb (isEvenY inPub) then incoming_loop attempts start (index + 1)
      else _ ← on_repo (record_incoming index inKey inPub); mret (mkIncoming inKey inPub index)
  end.
Definition nextIncomingAddress : M W KeyError IncomingAddress :=
  w ← get;
  incoming_loop MAX_INDEX_ROLL (incomingIssueCounter w.1) (incomingIssueCounter w.1).

(** [registerSelf(this.#selfScanIndex++)]. *)
Definition registerSelf (r : KeyRepository) : KeyRepository :=
  let index := selfScanIndex r in
  let eph := getSelfEphemeral index in
  let ephPub := publicKey eph in
  mkRepo (selfMintCounter r) (index + 1) (incomingIssueCounter r) (incomingScanIndex r)
    (highestMatchedSelf r) (highestMatchedIncoming r)
    (if negb (isEvenY ephPub) then selfMap r
     else match selfMap r !! ephPub.1 with
          | Some _ => selfMap r | None => <[ephPub.1 := (eph, index)]> (selfMap r) end)
    (incomingMap r).
Definition registerIncoming (r : KeyRepository) : KeyRepository :=
  let index := incomingScanIndex r in
  let inKey := getIncomingKey index in
  let inPub := publicKey inKey in
  mkRepo (selfMintCounter r) (selfScanIndex r) (incomingIssueCounter r) (index + 1)
    (highestMatchedSelf r) (highestMatchedIncoming r) (selfMap r)
    (if negb (isEvenY inPub) then incomingMap r
     else match incomingMap r !! inPub.1 with
          | Some _ => incomingMap r | None => <[inPub.1 := (inKey, index)]> (incomingMap r) end).

(** [while (scan < target)]: as many rounds as indices are missing. *)
Definition register_self_to (target : Z) (r : KeyRepository) : KeyRepository :=
  Nat.iter (Z.to_nat (target - selfScanIndex r)) registerSelf r.
Definition register_incoming_to (target : Z) (r : KeyRepository) : KeyRepository :=
  Nat.iter (Z.to_nat (target - incomingScanIndex r)) registerIncoming r.

Definition ensureSelfLookahead (window : Z) (r : KeyRepository) : KeyRepository * bool :=
  let target := Z.max (selfScanIndex r) (highestMatchedSelf r + 1 + window) in
  (register_self_to target r, selfScanIndex r <? target).
Definition ensureIncomingLookahead (window : Z) (r : KeyRepository) : KeyRepository * bool :=
  let target := Z.max (incomingScanIndex r) (highestMatchedIncoming r + 1 + window) in
  (register_incoming_to target r, incomingScanIndex r <? target).

(** [tagKey] rejects a value outside the field. *)
Definition tagKey (x : Z) : result KeyError Z :=
  if (0 <=? x) && (x <? BN254_SCALAR_FIELD_MODULUS) then Ok x else Err (Bad_tag x).

Definition set_matched_self (i : Z) (r : KeyRepository) : KeyRepository :=
  mkRepo (selfMintCounter r) (selfScanIndex r) (incomingIssueCounter r) (incomingScanIndex r)
    (if highestMatchedSelf r <? i then i else highestMatchedSelf r) (highestMatchedIncoming r)
    (selfMap r) (incomingMap r).
Definition recordIncomingMatch (i : Z) (r : KeyRepository) : KeyRepository :=
  mkRepo (selfMintCounter r) (selfScanIndex r) (incomingIssueCounter r) (incomingScanIndex r)
    (highestMatchedSelf r) (if highestMatchedIncoming r <? i then i else highestMatchedIncoming r)
    (selfMap r) (incomingMap r).

Definition matchSelfTag (t : Z) (r : KeyRepository) : KeyRepository * result KeyError (option (Z * Z)) :=
  match tagKey t with
  | Err e => (r, Err e)
  | Ok key => match selfMap r !! key with
              | Some (eph, i) => (set_matched_self i r, Ok (Some (eph, i)))
              | None => (r, Ok None) end
  end.
Definition matchIncomingTag (t : Z) (r : KeyRepository) : KeyRepository * result KeyError (option (Z * Z)) :=
  match tagKey t with
  | Err e => (r, Err e)
  | Ok key => match incomingMap r !! key with
              | Some (k, i) => (recordIncomingMatch i r, Ok (Some (k, i)))
              | None => (r, Ok None) end
  end.

(** A persisted state; its numbers may be corrupt. *)
Record KeyRepoState := mkState {
  st_selfMintCounter : option Z; st_selfScanIndex : option Z; st_incomingIssueCounter : option Z;
  st_incomingScanIndex : option Z; st_highestMatchedSelf : option Z; st_highestMatchedIncoming : option Z;
}.
Definition getState (r : KeyRepository) : KeyRepoState :=
  mkState (Some (selfMintCounter r)) (Some (selfScanIndex r)) (Some (incomingIssueCounter r))
    (Some (incomingScanIndex r)) (Some (highestMatchedSelf r)) (Some (highestMatchedIncoming r)).

Definition raise_mint (m : Z) (r : KeyRepository) : KeyRepository :=
  mkRepo (Z.max (selfMintCounter r) m) (selfScanIndex r) (incomingIssueCounter r)
    (incomingScanIndex r) (highestMatchedSelf r) (highestMatchedIncoming r) (selfMap r) (incomingMap r).
Definition raise_rest (st : KeyRepoState) (r : KeyRepository) : KeyRepository :=
  mkRepo (selfMintCounter r) (selfScanIndex r)
    (Z.max (incomingIssueCounter r) (clampIndex (st_incomingIssueCounter st) 0))
    (incomingScanIndex r)
    (Z.max (highestMatchedSelf r) (clampIndex (st_highestMatchedSelf st) (-1)))
    (Z.max (highestMatchedIncoming r) (clampIndex (st_highestMatchedIncoming st) (-1)))
    (selfMap r) (incomingMap r).
(** The registration loops at the end of [restore]. *)
Definition register_all (st : KeyRepoState) (r : KeyRepository) : KeyRepository :=
  let selfTarget := Z.max (clampIndex (st_selfScanIndex st) 0)
                          (clampIndex (Some (selfMintCounter r + DEFAULT_LOOKAHEAD_WINDOW)) 0) in
  let r := register_self_to selfTarget r in
  let incomingTarget := Z.max (clampIndex (st_incomingScanIndex st) 0) (incomingIssueCounter r) in
  let r := register_incoming_to incomingTarget r in
  let r := (ensureSelfLookahead DEFAULT_LOOKAHEAD_WINDOW r).1 in
  (ensureIncomingLookahead DEFAULT_LOOKAHEAD_WINDOW r).1.

Definition restore (st : KeyRepoState) : M W KeyError unit :=
  w ← get;
  let selfHighWater := clampIndex (Some (highWater SELF_EPH_SCOPE w.2)) 0 in
  _ ← on_repo (raise_mint (Z.max (clampIndex (st_selfMintCounter st) 0) selfHighWater));
  w ← get;
  _ ← (if selfHighWater <? selfMintCounter w.1
       then _ ← on_store (reserve SELF_EPH_SCOPE (selfMintCounter w.1 - selfHighWater)); mret tt
       else mret tt);
  on_repo (λ r, register_all st (raise_rest st r)).

(** *** Runs of a wallet, with restarts *)
Inductive Op :=
  | Next_self | Next_incoming | Self_lookahead (w : Z) | Incoming_lookahead (w : Z)
  | Match_self (t : Z) | Match_incoming (t : Z) | Record_incoming (i : Z)
  | Do_restore (st : KeyRepoState)
  (** a new repository on the same durable store *)
  | Restart.

Definition step (op : Op) (w : W) : W * option SelfEphemeral :=
  match op with
  | Next_self => let '(w', r) := nextSelfEphemeral w in
                 (w', match r with Ok (s, _) => Some s | Err _ => None end)
  | Next_incoming => ((nextIncomingAddress w).1, None)
  | Self_lookahead n => (((ensureSelfLookahead n w.1).1, w.2), None)
  | Incoming_lookahead n => (((ensureIncomingLookahead n w.1).1, w.2), None)
  | Match_self t => (((matchSelfTag t w.1).1, w.2), None)
  | Match_incoming t => (((matchIncomingTag t w.1).1, w.2), None)
  | Record_incoming i => ((recordIncomingMatch i w.1, w.2), None)
  | Do_restore st => ((restore st w).1, None)
  | Restart => ((fresh, w.2), None)
  end.
Fixpoint run (ops : list Op) (w : W) : W * list SelfEphemeral :=
  match ops with
  | [] => (w, [])
  | op :: ops => let '(w', out) := step op w in
                 let '(w'', issued) := run ops w' in
                 (w'', match out with Some s => s :: issued | None => issued end)
  end.

Context {CL : CounterLaws S}.
Local Notation water w := (highWater SELF_EPH_SCOPE w.2).

(** A derived ephemeral: its key material comes from its index. *)
Definition derived (s : SelfEphemeral) : Prop :=
  eph s = getSelfEphemeral (index s) ∧ ephPub s = publicKey (eph s) ∧
  tag s = (ephPub s).1 ∧ isEvenY (ephPub s) = true.

Lemma self_loop_spec n w w' r : self_loop n w = (w', r) →
  water w <= water w' ∧
  ∀ s o, r = Ok (s, o) → derived s ∧ water w <= index s < water w'.
Proof.
  revert w. induction n as [|n IH]; intros w; cbn [self_loop].
  { intros [= <- <-]. split; [lia|done]. }
  unfold mbind, M_bind at 1, on_store at 1.
  pose proof (reserve_mono SELF_EPH_SCOPE SELF_EPH_SCOPE 1 w.2) as Hm.
  destruct (reserve SELF_EPH_SCOPE 1 w.2) as [s1 [res|err]] eqn:E.
  2: { intros [= <- <-]. split; [done|done]. }
  destruct (reserve_ok _ _ _ _ _ E) as (_ & Hspan & Hb & Hb').
  destruct (isEvenY _) eqn:Heven; cbn [negb].
  2: { intros Hrun. destruct (IH _ Hrun) as [Hw1 Hs1]. cbn [fst snd] in *.
       split; [lia|]. intros s o Hr. destruct (Hs1 s o Hr). split; [done|lia]. }
  unfold M_bind at 1, lift, commit. rewrite Hspan.
  rewrite (proj2 (Z.ltb_ge _ _)), (proj2 (Z.leb_gt _ _)) by lia. cbn [orb].
  unfold M_bind, on_repo, modify, mret, M_ret. intros [= <- <-]. cbn [fst snd].
  split; [lia|]. intros s o [= <- <-]. cbn [index]. split; [done|lia].
Qed.

Lemma step_water op w : water w <= water (step op w).1 ∧
  ∀ s, (step op w).2 = Some s → derived s ∧ water w <= index s < water (step op w).1.
Proof.
  destruct op; cbn [step fst snd]; try (split; [lia|done]).
  - destruct (nextSelfEphemeral w) as [w' r] eqn:E. destruct (self_loop_spec _ _ _ _ E) as [Hw Hs].
    cbn [fst snd]. split; [done|]. intros s. destruct r as [[s' o]|]; [|done]. intros [= ->]. eauto.
  - split; [|done]. unfold nextIncomingAddress, get, mbind, M_bind.
    generalize (incomingIssueCounter w.1) at 1 as start. generalize (incomingIssueCounter w.1).
    induction MAX_INDEX_ROLL as [|n IH]; intros i start; cbn [incoming_loop]; [apply Z.le_refl|].
    destruct (negb _); [apply IH|]. apply Z.le_refl.
  - split; [|done]. unfold restore, get, mbind, M_bind, on_repo, modify, mret, M_ret. cbn [fst snd].
    destruct (_ <? _); [|apply Z.le_refl]. unfold on_store. cbn [snd].
    match goal with |- context [reserve SELF_EPH_SCOPE ?n w.2] =>
      pose proof (reserve_mono SELF_EPH_SCOPE SELF_EPH_SCOPE n w.2);
      destruct (reserve SELF_EPH_SCOPE n w.2) as [s1 [res|err]] end; done.
Qed.

Lemma keys_run_spec ops : ∀ w w' issued, run ops w = (w', issued) →
  water w <= water w' ∧
  StronglySorted Z.lt (index <$> issued) ∧
  Forall (λ s, derived s ∧ water w <= index s < water w') issued.
Proof.
  induction ops as [|op ops IH]; intros w w' issued; cbn [run].
  { intros [= <- <-]. split_and!; [lia|constructor|constructor]. }
  destruct (step_water op w) as [Hle Hout]. destruct (step op w) as [w1 out].
  destruct (run ops w1) as [w2 iss] eqn:E. cbn [fst snd] in *.
  destruct (IH _ _ _ E) as (Hle' & Hs & Hall). intros [= <- <-].
  assert (Hall' : Forall (λ s, derived s ∧ water w <= index s < water w2) iss).
  { eapply Forall_impl; [exact Hall|]. cbn. intros s (? & ?). split; [done|lia]. }
  split; [lia|]. destruct out as [s|]; [|done]. destruct (Hout s eq_refl) as [Hd Hi].
  split; [|constructor; [split; [done|lia]|done]]. rewrite fmap_cons. constructor; [done|].
  apply Forall_fmap. eapply Forall_impl; [exact Hall|]. cbn. intros s' (_ & ?). lia.
Qed.

(** C25. Self-ephemeral indices are strictly increasing over the whole life of
    a durable counter: over any run of wallet operations, restores from any
    persisted state and restarts included, every issued ephemeral is derived
    from its own index, has an even y, and no index comes back. *)
Theorem self_indices_never_reissued ops w w' issued : run ops w = (w', issued) →
  StronglySorted Z.lt (index <$> issued) ∧ NoDup (index <$> issued) ∧
  Forall (λ s, derived s ∧ water w <= index s < water w') issued.
Proof.
  intros Hr. destruct (keys_run_spec _ _ _ _ Hr) as (_ & Hs & Hall). split_and!; [done| |done].
  clear -Hs. induction Hs as [|x l _ IH Hx]; constructor; [|done].
  intros Hin. rewrite Forall_forall in Hx. specialize (Hx x Hin). lia.
Qed.

(** *** Recovery *)
Definition self_pub (i : Z) : Point := publicKey (getSelfEphemeral i).
(** The range of indices a restore can register. *)
Definition KEY_BOUND : Z := MAX_KEY_INDEX + DEFAULT_LOOKAHEAD_WINDOW + 1.
(** Different indices have different tags, and coordinates are reduced. *)
Definition tags_distinct : Prop := ∀ i j, 0 <= i < KEY_BOUND → 0 <= j < KEY_BOUND →
  isEvenY (self_pub i) = true → isEvenY (self_pub j) = true →
  (self_pub i).1 = (self_pub j).1 → i = j.
Definition tags_canonical : Prop := ∀ i, 0 <= (self_pub i).1 < BN254_SCALAR_FIELD_MODULUS.
Context (Hdist : tags_distinct) (Hcan : tags_canonical).

(** Exactly the even-y indices below the scan index are registered. *)
Definition registered (r : KeyRepository) : Prop :=
  0 <= selfScanIndex r <= KEY_BOUND ∧
  (∀ i, 0 <= i < selfScanIndex r → isEvenY (self_pub i) = true →
    selfMap r !! (self_pub i).1 = Some (getSelfEphemeral i, i)) ∧
  (∀ t e i, selfMap r !! t = Some (e, i) →
    0 <= i < selfScanIndex r ∧ isEvenY (self_pub i) = true ∧ t = (self_pub i).1).

Lemma registerSelf_spec r : registered r → selfScanIndex r < KEY_BOUND →
  registered (registerSelf r) ∧ selfScanIndex (registerSelf r) = selfScanIndex r + 1.
Proof.
  intros (Hb & Hin & Hout) Hlt. split; [|done]. unfold registered, registerSelf.
  set (n := selfScanIndex r) in *. cbn [selfScanIndex selfMap]. fold (self_pub n).
  destruct (isEvenY (self_pub n)) eqn:Hev; cbn [negb].
  2: { split_and!; [lia|lia| |].
       - intros i Hi Hei. apply Hin; [|done]. destruct (decide (i = n)) as [->|]; [congruence|lia].
       - intros t e i Hl. destruct (Hout _ _ _ Hl) as (? & ? & ?). split_and!; [lia|lia|done|done]. }
  destruct (selfMap r !! (self_pub n).1) as [[e j]|] eqn:Hl.
  { exfalso. destruct (Hout _ _ _ Hl) as (Hj & Hej & E). 
    assert (n = j) by (apply Hdist; [lia..|done|done|done]). lia. }
  split_and!; [lia|lia| |].
  - intros i Hi Hei. destruct (decide (i = n)) as [->|Hne]; [by rewrite lookup_insert_eq|].
    rewrite lookup_insert_ne; [apply Hin; [lia|done]|].
    intros E. apply Hne. symmetry. apply Hdist; [lia..|done|done|done].
  - intros t e i. rewrite lookup_insert_Some. intros [[<- [= <- <-]]|[_ Hl']].
    + split_and!; [lia|lia|done|done].
    + destruct (Hout _ _ _ Hl') as (? & ? & ?). split_and!; [lia|lia|done|done].
Qed.

Lemma register_self_to_spec target r : registered r → target <= KEY_BOUND →
  registered (register_self_to target r) ∧
  selfScanIndex (register_self_to target r) = Z.max (selfScanIndex r) target ∧
  selfMintCounter (register_self_to target r) = selfMintCounter r ∧
  highestMatchedSelf (register_self_to target r) = highestMatchedSelf r.
Proof.
  intros Hr Ht. unfold register_self_to.
  assert (Hn : ∀ n, selfScanIndex r + Z.of_nat n <= Z.max (selfScanIndex r) target →
    registered (Nat.iter n registerSelf r) ∧
    selfScanIndex (Nat.iter n registerSelf r) = selfScanIndex r + Z.of_nat n ∧
    selfMintCounter (Nat.iter n registerSelf r) = selfMintCounter r ∧
    highestMatchedSelf (Nat.iter n registerSelf r) = highestMatchedSelf r).
  { induction n as [|n IH]; intros Hle; [split_and!; [done|simpl; lia|done|done]|].
    destruct (IH ltac:(lia)) as (Hreg & Hscan & Hm & Hh).
    change (Nat.iter (Datatypes.S n) registerSelf r) with (registerSelf (Nat.iter n registerSelf r)).
    assert (selfScanIndex r <= KEY_BOUND) by apply Hr.
    destruct (registerSelf_spec _ Hreg) as [Hreg' Hs']; [lia|].
    split_and!; [done|rewrite Hs', Hscan; lia|by rewrite <- Hm|by rewrite <- Hh]. }
  destruct (Hn (Z.to_nat (target - selfScanIndex r)) ltac:(lia)) as (H1' & H2' & H3' & H4').
  split_and!; [done|rewrite H2'; lia|done|done].
Qed.

Lemma register_incoming_to_self target r :
  selfMap (register_incoming_to target r) = selfMap r ∧
  selfScanIndex (register_incoming_to target r) = selfScanIndex r ∧
  highestMatchedSelf (register_incoming_to target r) = highestMatchedSelf r.
Proof.
  unfold register_incoming_to. induction (Z.to_nat _) as [|n (IH1 & IH2 & IH3)]; [done|].
  change (Nat.iter (Datatypes.S n) registerIncoming r)
    with (registerIncoming (Nat.iter n registerIncoming r)). by rewrite <- IH1, <- IH2, <- IH3.
Qed.
Lemma register_incoming_to_registered target r :
  registered r → registered (register_incoming_to target r).
Proof. unfold registered. by destruct (register_incoming_to_self target r) as (-> & -> & _). Qed.

Lemma register_all_spec st r : registered r → selfScanIndex r <= MAX_KEY_INDEX →
  highestMatchedSelf r <= MAX_KEY_INDEX →
  registered (register_all st r) ∧
  Z.min (selfMintCounter r) MAX_KEY_INDEX <= selfScanIndex (register_all st r).
Proof.
  intros Hr Hs Hh. unfold register_all, ensureSelfLookahead, ensureIncomingLookahead. cbn [fst].
  set (target := Z.max (clampIndex _ 0) (clampIndex _ 0)).
  assert (Ht : Z.min (selfMintCounter r) MAX_KEY_INDEX <= target <= MAX_KEY_INDEX).
  { unfold target, clampIndex, DEFAULT_LOOKAHEAD_WINDOW, MAX_KEY_INDEX.
    destruct (st_selfScanIndex st); lia. }
  unfold MAX_KEY_INDEX, DEFAULT_LOOKAHEAD_WINDOW in *.
  destruct (register_self_to_spec target r Hr) as (Hr1 & Hs1 & _ & Hh1);
    [unfold KEY_BOUND, MAX_KEY_INDEX, DEFAULT_LOOKAHEAD_WINDOW; lia|].
  set (r1 := register_self_to target r) in *.
  set (tin := Z.max (clampIndex (st_incomingScanIndex st) 0) _).
  pose proof (register_incoming_to_registered tin r1 Hr1) as Hr2.
  destruct (register_incoming_to_self tin r1) as (_ & Hs2 & Hh2).
  set (r2 := register_incoming_to tin r1) in *.
  set (t3 := Z.max (selfScanIndex r2) _).
  destruct (register_self_to_spec t3 r2 Hr2) as (Hr3 & Hs3 & _);
    [unfold t3, KEY_BOUND, MAX_KEY_INDEX, DEFAULT_LOOKAHEAD_WINDOW; lia|].
  split; [by apply register_incoming_to_registered|].
  destruct (register_incoming_to_self (Z.max (incomingScanIndex (register_self_to t3 r2))
    (highestMatchedIncoming (register_self_to t3 r2) + 1 + 20)) (register_self_to t3 r2)) as (_ & -> & _).
  lia.
Qed.

Lemma fresh_registered : registered fresh.
Proof.
  unfold registered, fresh. cbn [selfScanIndex selfMap].
  split_and!; [lia|unfold KEY_BOUND, MAX_KEY_INDEX, DEFAULT_LOOKAHEAD_WINDOW; lia|intros; lia|].
  intros t e i. by rewrite lookup_empty.
Qed.

Lemma restore_fresh st s w : 0 <= highWater SELF_EPH_SCOPE s → restore st (fresh, s) = (w, Ok tt) →
  registered w.1 ∧ Z.min (highWater SELF_EPH_SCOPE s) MAX_KEY_INDEX <= selfScanIndex w.1.
Proof.
  intros Hs. unfold restore, get, mbind, M_bind, on_repo, modify, mret, M_ret. cbn [fst snd].
  set (hw := clampIndex (Some (highWater SELF_EPH_SCOPE s)) 0).
  set (r1 := raise_mint _ fresh).
  assert (Hhw : Z.min (highWater SELF_EPH_SCOPE s) MAX_KEY_INDEX <= selfMintCounter r1).
  { unfold r1, hw, clampIndex, MAX_KEY_INDEX. cbn [raise_mint selfMintCounter]. lia. }
  assert (Hall : registered (register_all st (raise_rest st r1)) ∧
    Z.min (highWater SELF_EPH_SCOPE s) MAX_KEY_INDEX <= selfScanIndex (register_all st (raise_rest st r1))).
  { destruct (register_all_spec st (raise_rest st r1)) as [Hreg Hscan].
    - exact fresh_registered.
    - cbn. unfold MAX_KEY_INDEX. lia.
    - cbn. unfold clampIndex, MAX_KEY_INDEX. destruct (st_highestMatchedSelf st); lia.
    - split; [done|]. etrans; [|exact Hscan]. cbn [raise_rest selfMintCounter]. lia. }
  destruct (hw <? selfMintCounter r1); [|by intros [= <-]].
  unfold on_store. cbn [snd]. destruct (reserve SELF_EPH_SCOPE _ s) as [s1 [res|err]]; [|done].
  by intros [= <-].
Qed.

(** C31. Recovery: restart a wallet on its durable store and restore it from
    any persisted state, even a corrupt or outdated one; if the restore
    succeeds, the tag of every self ephemeral issued before with an index below
    1,000,000 is recognised again, with its scalar and its index.  The restore
    clamps the durable counter to that bound, so that later tags are not
    registered by it.  The wallet's even keys of different indices are supposed
    to have different tags ([tags_distinct], no collision of derived keys), and
    tags to be field elements ([tags_canonical]). *)
Theorem restore_recovers ops s0 w issued st w' :
  0 <= highWater SELF_EPH_SCOPE s0 →
  run ops (fresh, s0) = (w, issued) →
  restore st (fresh, w.2) = (w', Ok tt) →
  ∀ s, s ∈ issued → index s < MAX_KEY_INDEX →
    (matchSelfTag (tag s) w'.1).2 = Ok (Some (eph s, index s)).
Proof.
  intros H0' Hrun Hres s Hs Hi. destruct (keys_run_spec _ _ _ _ Hrun) as (Hw & _ & Hall).
  cbn [snd] in *. rewrite Forall_forall in Hall. destruct (Hall s Hs) as [(He & Hp & Ht & Hev) Hin].
  destruct (restore_fresh st w.2 w') as [(_ & Hreg & _) Hscan]; [lia|done|].
  unfold matchSelfTag, tagKey. rewrite Ht, Hp, He. fold (self_pub (index s)).
  destruct (Hcan (index s)). rewrite (proj2 (Z.leb_le _ _)), (proj2 (Z.ltb_lt _ _)) by done.
  cbn [andb]. rewrite Hreg; [done|lia|]. unfold self_pub. by rewrite <- He, <- Hp.
Qed.
End KeyRepo.
End KeyRepo.

(** ** [state/UtxoRepository.ts] *)
Module Utxo.

Record WalletNote := mkWalletNote {
  assetId : Z; value : Z; commitment : Z; leafIndex : Z; nullifier : Z;
  spendScalar : Z; isIncoming : bool; derivationIndex : Z; spent : bool;
}.
Definition with_spent (b : bool) (n : WalletNote) : WalletNote :=
  mkWalletNote (assetId n) (value n) (commitment n) (leafIndex n) (nullifier n)
    (spendScalar n) (isIncoming n) (derivationIndex n) b.

(** A JavaScript [Map]: keys in order of first insertion. *)
Definition UtxoRepository : Type := list (Z * WalletNote).
Fixpoint map_get (key : Z) (m : UtxoRepository) : option WalletNote :=
  match m with [] => None | (k, n) :: m => if k =? key then Some n else map_get key m end.
Fixpoint map_set (key : Z) (v : WalletNote) (m : UtxoRepository) : UtxoRepository :=
  match m with
  | [] => [(key, v)]
  | (k, n) :: m => if k =? key then (k, v) :: m else (k, n) :: map_set key v m
  end.

Definition addNote (note : WalletNote) (r : UtxoRepository) : UtxoRepository :=
  let key := nullifier note in
  match map_get key r with
  | Some existing => map_set key (with_spent (spent existing || spent note) note) r
  | None => map_set key note r
  end.
Definition markSpent (key : Z) (r : UtxoRepository) : UtxoRepository * bool :=
  match map_get key r with
  | Some note => if negb (spent note) then (map_set key (with_spent true note) r, true) else (r, false)
  | None => (r, false)
  end.
Definition getAllNotes (r : UtxoRepository) : list WalletNote := r.*2.
Definition getUnspentNotes (r : UtxoRepository) : list WalletNote :=
  filter (λ n, spent n = false) (r.*2).
Definition getBalance (want : option Z) (r : UtxoRepository) : Z :=
  foldl (λ total n,
    match want with
    | Some a => if negb (assetId n =? a) then total else total + value n
    | None => total + value n end) 0 (getUnspentNotes r).

Inductive Op := Add (n : WalletNote) | Mark (key : Z).
Definition step (r : UtxoRepository) (op : Op) : UtxoRepository :=
  match op with Add n => addNote n r | Mark k => (markSpent k r).1 end.

(** What a history says of one nullifier: the last description of the note,
    spent once and for all by a spent description or a mark after the first. *)
Definition track (key : Z) (cur : option WalletNote) (op : Op) : option WalletNote :=
  match op with
  | Add n => if nullifier n =? key
             then Some (with_spent (spent n || match cur with Some o => spent o | None => false end) n)
             else cur
  | Mark k => if k =? key then with_spent true <$> cur else cur
  end.
Definition history (key : Z) (ops : list Op) : option WalletNote := foldl (track key) None ops.

Lemma map_get_set key key' v m :
  map_get key' (map_set key v m) = if decide (key' = key) then Some v else map_get key' m.
Proof.
  induction m as [|[k n] m IH]; cbn [map_set map_get].
  - destruct (Z.eqb_spec key key'); case_decide; congruence.
  - destruct (Z.eqb_spec k key) as [->|Hk]; cbn [map_get].
    + destruct (Z.eqb_spec key key'); case_decide; congruence.
    + rewrite IH. destruct (Z.eqb_spec k key') as [->|]; [|done]. by rewrite decide_False.
Qed.
Lemma map_set_keys key v m : (map_set key v m).*1 = if decide (key ∈ m.*1) then m.*1 else m.*1 ++ [key].
Proof.
  induction m as [|[k n] m IH]; cbn [map_set]; [by rewrite decide_False by apply not_elem_of_nil|].
  rewrite !fmap_cons. cbn [fst]. destruct (Z.eqb_spec k key) as [->|Hne].
  - rewrite decide_True by left. done.
  - rewrite fmap_cons, IH. cbn [fst].
    destruct (decide (key ∈ m.*1)); [rewrite decide_True by (by right); done|].
    rewrite decide_False; [done|]. by intros [->|]%elem_of_cons.
Qed.
Lemma map_get_elem key n (m : UtxoRepository) : NoDup m.*1 → (key, n) ∈ m ↔ map_get key m = Some n.
Proof.
  induction m as [|[k n'] m IH]; cbn [map_get]; [intros _; split; [by intros ?%not_elem_of_nil|done]|].
  rewrite fmap_cons, NoDup_cons. cbn [fst]. intros [Hn Hd]. rewrite elem_of_cons.
  destruct (Z.eqb_spec k key) as [->|Hne].
  - split; [|intros [= ->]; by left]. intros [[= ->]|Hin]; [done|]. destruct Hn.
    apply list_elem_of_fmap. by exists (key, n).
  - rewrite IH by done. split; [by intros [[= -> ->]|]|by right].
Qed.
Lemma with_spent_id n : with_spent (spent n) n = n.
Proof. by destruct n. Qed.
Lemma spent_id n b : spent n = b → with_spent b n = n.
Proof. intros <-. apply with_spent_id. Qed.

(** The keys are the nullifiers of the notes, without repetition. *)
Definition wf (r : UtxoRepository) : Prop :=
  NoDup r.*1 ∧ ∀ k n, map_get k r = Some n → nullifier n = k.

Lemma map_set_wf k n r : wf r → nullifier n = k → wf (map_set k n r).
Proof.
  intros [Hd Hk] Hn. split.
  - rewrite map_set_keys. case_decide as Hin; [done|]. apply NoDup_app. split_and!; [done| |apply NoDup_singleton].
    intros x Hx ->%list_elem_of_singleton. done.
  - intros k' n'. rewrite map_get_set. case_decide as E; [intros [= <-]; congruence|apply Hk].
Qed.

Lemma step_spec op r key : wf r →
  wf (step r op) ∧ map_get key (step r op) = track key (map_get key r) op.
Proof.
  intros Hw. destruct op as [n|k]; cbn [step track].
  - unfold addNote. destruct (map_get (nullifier n) r) as [o|] eqn:Ho;
      (split; [by apply map_set_wf|]); rewrite map_get_set;
      destruct (Z.eqb_spec (nullifier n) key) as [E|E]; case_decide; try congruence; subst.
    + rewrite Ho. by rewrite orb_comm.
    + rewrite Ho, orb_false_r. by rewrite with_spent_id.
  - unfold markSpent. destruct (map_get k r) as [o|] eqn:Ho.
    2: { split; [done|]. cbn [fst]. destruct (Z.eqb_spec k key) as [->|]; [|done]. by rewrite Ho. }
    destruct Hw as [Hd Hk]. pose proof (Hk _ _ Ho) as Hkey.
    destruct (spent o) eqn:Hs; cbn [negb fst].
    + split; [done|]. destruct (Z.eqb_spec k key) as [->|]; [|done].
      rewrite Ho. cbn. by rewrite spent_id.
    + split; [by apply map_set_wf|]. rewrite map_get_set.
      destruct (Z.eqb_spec k key) as [->|E]; case_decide; try congruence. by rewrite Ho.
Qed.

Lemma history_run_spec ops key : wf (foldl step [] ops) ∧ map_get key (foldl step [] ops) = history key ops.
Proof.
  unfold history. induction ops as [|op ops [Hw Hg]] using rev_ind.
  { split; [split; [constructor|done]|done]. }
  rewrite !foldl_snoc. destruct (step_spec op _ key Hw) as [Hw' ->]. by rewrite Hg.
Qed.

(** The note repository keeps exactly one note per nullifier, in the state
    its history gives: for any sequence of adds and marks, a note is listed as
    unspent if and only if it is the last description of its nullifier and no
    description, nor a mark after the first one, said it was spent; a rescan
    never revives a spent note, and the balance counts each nullifier once. *)
Theorem utxo_history ops : let r := foldl step [] ops in
  NoDup (nullifier <$> getAllNotes r) ∧
  (∀ n, n ∈ getAllNotes r ↔ history (nullifier n) ops = Some n) ∧
  (∀ n, n ∈ getUnspentNotes r ↔ history (nullifier n) ops = Some n ∧ spent n = false) ∧
  ∀ a, getBalance (Some a) r = sumZ value (filter (λ n, assetId n = a) (getUnspentNotes r)).
Proof.
  intros r. destruct (history_run_spec ops 0) as [[Hd Hk] _]. fold r in Hd, Hk.
  assert (Hall : ∀ n, n ∈ getAllNotes r ↔ history (nullifier n) ops = Some n).
  { intros n. destruct (history_run_spec ops (nullifier n)) as [_ <-]. fold r.
    rewrite <- map_get_elem by done. unfold getAllNotes. rewrite list_elem_of_fmap. split.
    - intros ([k n'] & -> & Hin). pose proof (proj1 (map_get_elem _ _ _ Hd) Hin) as Hg.
      cbn [snd]. by rewrite (Hk _ _ Hg).
    - intros Hin. by exists (nullifier n, n). }
  split_and!; [|done| |].
  - assert (nullifier <$> getAllNotes r = r.*1) as ->; [|done].
    unfold getAllNotes. rewrite <- list_fmap_compose. apply list_fmap_ext. intros i [k n] Hin. cbn.
    apply list_elem_of_lookup_2 in Hin. apply Hk. by apply map_get_elem.
  - intros n. unfold getUnspentNotes. rewrite list_elem_of_filter, <- Hall. tauto.
  - intros a. unfold getBalance. rewrite <- (Z.add_0_l (sumZ _ _)). generalize 0 as acc.
    induction (getUnspentNotes r) as [|n l IH]; intros acc; cbn [foldl]; [cbn; lia|].
    rewrite IH, filter_cons. destruct (Z.eqb_spec (assetId n) a); cbn [negb].
    + rewrite decide_True by done. rewrite sumZ_cons. lia.
    + by rewrite decide_False.
Qed.
End Utxo.

(** ** Witnesses *)
Module StateWitness.
Import Counter Reconcile KeyRepo.

Definition toy_store : InMemory := mkInMemory ∅ false.

Definition toy_calls : list Call :=
  [Reserve "self" 3; Reserve "self" 0; Reserve "m1" 2; Reserve "self" 1].
Lemma reservations_disjoint_witness : ∃ granted s',
  Counter.run toy_calls toy_store = (granted, s') ∧ length granted = 3%nat ∧
  ~ in_span 2 (mkReservation 3 1).
Proof.
  exists (Counter.run toy_calls toy_store).1, (Counter.run toy_calls toy_store).2.
  split; [by destruct (Counter.run toy_calls toy_store)|]. split; [reflexivity|].
  destruct (reservations_disjoint toy_calls toy_store (Counter.run toy_calls toy_store).1
    (Counter.run toy_calls toy_store).2 (surjective_pairing _)
    0 2 "self" (mkReservation 0 3) (mkReservation 3 1) 2) as (_ & _ & Hd);
    [lia|reflexivity|reflexivity|].
  apply Hd. unfold in_span. cbn [base span]. lia.
Defined.

Definition toy_probe (tags : list Z) : list FirstOccurrence := (λ t, mkFirst t (if t =? 30 then 2 else 0)) <$> tags.
Lemma reconcile_burns_occupied_witness :
  (reserve "self" 5 (mkInMemory {["self" := 4]} false)).2 = Ok (mkReservation 4 5) ∧
  3 < base (mkReservation 4 5).
Proof.
  split; [reflexivity|].
  destruct (reconcile_burns_occupied toy_probe "self"
    [mkIndexedTag 2 20; mkIndexedTag 3 30; mkIndexedTag 4 40] toy_store
    (mkInMemory {["self" := 4]} false) (mkReconciled 4 [3])) as [_ Hb].
  - apply (bool_decide_unpack _). by vm_compute.
  - vm_compute. reflexivity.
  - destruct (Hb (mkIndexedTag 3 30) (mkFirst 30 2)) as (_ & _ & Hres).
    + right. left.
    + right. left.
    + done.
    + done.
    + by apply (Hres 5 (mkInMemory {["self" := 9]} false)).
Defined.

(** A wallet whose tags are its indices. *)
#[local] Instance toy_curve : BabyJubjub := {|
  addPoint a b := (a.1 + b.1, a.2 + b.2); mulPointEscalar p k := (k, k);
  Base8 := (1, 1); subOrder := 13; inCurve _ := true |}.
#[local] Instance toy_poseidon : Poseidon2 := λ xs, sumZ (λ x, x) xs.
#[local] Instance toy_account : DarkAccount := {|
  getSelfEphemeral i := i mod 2 ^ 40; getIncomingKey i := i mod 2 ^ 40 + 2 ^ 40; getSelfSpendPub := (5, 5) |}.
Definition toy_ops : list Op := [Next_self; Next_self; Restart; Next_self; Next_incoming].
Definition toy_run : W * list SelfEphemeral := KeyRepo.run toy_ops (fresh, toy_store).

Lemma self_indices_never_reissued_witness : index <$> toy_run.2 = [0; 2; 4] ∧ NoDup (index <$> toy_run.2).
Proof.
  split; [reflexivity|].
  destruct (self_indices_never_reissued toy_ops (fresh, toy_store) toy_run.1 toy_run.2) as (_ & Hd & _);
    [apply surjective_pairing|done].
Defined.

Definition corrupt_state : KeyRepoState := mkState None (Some (-7)) (Some 3) None (Some 5) None.
Lemma restore_recovers_witness :
  (matchSelfTag 2 (restore corrupt_state (fresh, toy_run.1.2)).1.1).2 = Ok (Some (2, 2)).
Proof.
  assert (Hd : tags_distinct).
  { intros i j Hi Hj _ _ E. unfold KEY_BOUND, MAX_KEY_INDEX, DEFAULT_LOOKAHEAD_WINDOW in *.
    cbn in E. rewrite !Z.mod_small in E by lia. done. }
  assert (Hc : tags_canonical).
  { intros i. change (self_pub i).1 with (i mod 2 ^ 40). pose proof (Z.mod_pos_bound i (2 ^ 40)).
    unfold BN254_SCALAR_FIELD_MODULUS. lia. }
  apply (restore_recovers Hd Hc toy_ops toy_store toy_run.1 toy_run.2 corrupt_state
    (restore corrupt_state (fresh, toy_run.1.2)).1) with (s := mkSelf 2 (2, 2) 2 2).
  - vm_compute. discriminate.
  - vm_compute. reflexivity.
  - vm_compute. reflexivity.
  - right. left.
  - reflexivity.
Defined.
End StateWitness.
