(* ===== verification/Keyring.v ===== *)
(** * Compliance key history ([packages/sdk/src/note/complianceKeys.ts])

    [Ring] is [ComplianceKeyRing], [History] the validation of a complete
    history and the registry of histories it has certified (a weak set of
    object identities, here of allocated references). *)
From S2P Require Import Prelude Tss.
Local Open Scope Z_scope.

Definition COMPLIANCE_INITIAL_VERSION : Z := 1.

Record ComplianceKeyEpoch := mkEpoch { version : Z; pk : Point; fromBlock : option Z }.
Record ComplianceKeyRotation := mkRotation {
  oldVersion : Z; newVersion : Z; newX : Z; newY : Z; blockNumber : option Z }.

Inductive ComplianceKeyError :=
  | EMPTY_RING | DUPLICATE_VERSION (v : Z) | INVALID_VERSION_SEQUENCE
  | CURRENT_KEY_MISMATCH | INCOMPLETE_HISTORY.

(** ** [ComplianceKeyRing] *)
Module Ring.

(** The epochs of a ring, oldest first. *)
Notation ComplianceKeyRing := (list ComplianceKeyEpoch).

Fixpoint check_versions (epochs : list ComplianceKeyEpoch) (seen : gset Z) :
    result ComplianceKeyError unit :=
  match epochs with
  | [] => Ok tt
  | e :: es => if decide (version e ∈ seen) then Err (DUPLICATE_VERSION (version e))
               else check_versions es ({[version e]} ∪ seen)
  end.
Definition from (epochs : list ComplianceKeyEpoch) : result ComplianceKeyError ComplianceKeyRing :=
  if (length epochs =? 0)%nat then Err EMPTY_RING
  else _ ← check_versions epochs ∅; Ok (order_by version epochs).
Definition ring_of (key : Point) (block : option Z) : result ComplianceKeyError ComplianceKeyRing :=
  from [mkEpoch COMPLIANCE_INITIAL_VERSION key block].

Definition rotation_epoch (r : ComplianceKeyRotation) : ComplianceKeyEpoch :=
  mkEpoch (newVersion r) (newX r, newY r) (blockNumber r).

Fixpoint rotations_loop (rotations : list ComplianceKeyRotation)
    (epochs : list ComplianceKeyEpoch) (expectedOld : Z) :
    result ComplianceKeyError (list ComplianceKeyEpoch) :=
  match rotations with
  | [] => Ok epochs
  | r :: rs =>
      if negb (oldVersion r =? expectedOld) || negb (newVersion r =? expectedOld + 1)
      then Err INVALID_VERSION_SEQUENCE
      else rotations_loop rs (epochs ++ [rotation_epoch r]) (newVersion r)
  end.
Definition fromRotations (genesis : Point) (rotations : list ComplianceKeyRotation)
    (genesisBlock : option Z) : result ComplianceKeyError ComplianceKeyRing :=
  epochs ← rotations_loop rotations [mkEpoch COMPLIANCE_INITIAL_VERSION genesis genesisBlock]
             COMPLIANCE_INITIAL_VERSION;
  from epochs.

Definition current (ring : ComplianceKeyRing) : option Point := pk <$> last ring.
Definition currentVersion (ring : ComplianceKeyRing) : option Z := version <$> last ring.

Definition covers (blk : Z) (e : ComplianceKeyEpoch) : Prop :=
  match fromBlock e with Some b => b <= blk | None => False end.
#[export] Instance covers_dec blk e : Decision (covers blk e).
Proof. unfold covers. destruct (fromBlock e); apply _. Defined.

(** The covering epoch is dropped from the rest by identity, here by position. *)
Definition candidatesFor (block : option Z) (ring : ComplianceKeyRing) : list ComplianceKeyEpoch :=
  let newestFirst := reverse ring in
  match block with
  | None => newestFirst
  | Some blk =>
      match list_find (covers blk) newestFirst with
      | None => newestFirst
      | Some (i, covering) => covering :: delete i newestFirst
      end
  end.

Lemma check_versions_spec epochs seen :
  is_ok (check_versions epochs seen) = true ↔
  NoDup (version <$> epochs) ∧ ∀ e, e ∈ epochs → version e ∉ seen.
Proof.
  revert seen. induction epochs as [|e es IH]; intros seen; cbn [check_versions].
  { split; [|done]. intros _. split; [constructor|by intros ? ?%not_elem_of_nil]. }
  rewrite fmap_cons, NoDup_cons. case_decide as Hin.
  { split; [done|]. intros [_ Hs]. exfalso. apply (Hs e); [left|done]. }
  rewrite IH, list_elem_of_fmap. split.
  - intros [Hd Hs]. split; [split; [|done]|].
    + intros (e' & E & He'). specialize (Hs e' He'). set_solver.
    + intros e' [->|He']%elem_of_cons; [done|]. specialize (Hs e' He'). set_solver.
  - intros [[Hn Hd] Hs]. split; [done|]. intros e' He'.
    rewrite not_elem_of_union, not_elem_of_singleton. split; [|apply Hs; by right].
    intros E. apply Hn. eauto.
Qed.

Lemma from_spec epochs ring : from epochs = Ok ring →
  epochs ≠ [] ∧ NoDup (version <$> ring) ∧ ring ≡ₚ epochs ∧ StronglySorted Z.lt (version <$> ring).
Proof.
  unfold from. destruct (Nat.eqb_spec (length epochs) 0) as [|Hl]; [done|].
  pose proof (check_versions_spec epochs ∅) as Hc.
  destruct (check_versions epochs ∅) as [[]|]; [|done]. intros [= <-].
  destruct (proj1 Hc eq_refl) as [Hd _].
  assert (Hd' : NoDup (version <$> order_by version epochs)) by (by rewrite order_by_perm).
  split_and!; [by intros ->|done|apply order_by_perm|].
  pose proof (order_by_sorted version epochs) as Hs. revert Hd'.
  induction Hs as [|v l _ IH Hall]; intros Hd'; [constructor|].
  apply NoDup_cons in Hd' as [Hn Hd']. constructor; [by apply IH|].
  rewrite Forall_forall in *. intros x Hx. specialize (Hall x Hx).
  assert (x ≠ v) by (by intros ->). lia.
Qed.

(** In a list of descending versions, the first match is the newest one. *)
Lemma newest_find (P : ComplianceKeyEpoch → Prop) `{∀ e, Decision (P e)} l i e :
  StronglySorted (λ a b, version b < version a) l → list_find P l = Some (i, e) →
  P e ∧ ∀ e', e' ∈ l → P e' → version e' <= version e.
Proof.
  intros Hs. revert i. induction Hs as [|x l _ IH Hall]; intros i; cbn [list_find]; [done|].
  case_decide as Hx.
  - intros [= <- <-]. split; [done|]. rewrite Forall_forall in Hall.
    intros e' [->|He']%elem_of_cons _; [lia|]. specialize (Hall e' He'). lia.
  - destruct (list_find P l) as [[k y]|] eqn:Hl; [|done]. cbn. intros [= <- <-].
    destruct (IH k eq_refl) as [Hp Hm]. split; [done|].
    intros e' [->|He']%elem_of_cons Hpe; [done|by apply Hm].
Qed.

Lemma candidatesFor_perm block ring : candidatesFor block ring ≡ₚ ring.
Proof.
  unfold candidatesFor. destruct block as [blk|]; [|apply reverse_Permutation].
  destruct (list_find _ _) as [[i e]|] eqn:Hl; [|apply reverse_Permutation].
  apply list_find_Some in Hl as (Hi & _ & _).
  rewrite <- (delete_Permutation _ _ _ Hi). apply reverse_Permutation.
Qed.

(** The ring never withholds a key: whatever block a note was seen at, the
    candidates are all versions, each once; without a block, or when no epoch
    is known to cover it, the newest comes first; otherwise the newest epoch
    that started at or before the block does. *)
Theorem candidatesFor_complete epochs ring block : from epochs = Ok ring →
  candidatesFor block ring ≡ₚ epochs ∧ NoDup (version <$> candidatesFor block ring) ∧
  ∃ e rest, candidatesFor block ring = e :: rest ∧
    match block with
    | None => ∀ e', e' ∈ epochs → version e' <= version e
    | Some blk =>
        (covers blk e ∧ ∀ e', e' ∈ epochs → covers blk e' → version e' <= version e) ∨
        ((∀ e', e' ∈ epochs → ~ covers blk e') ∧ ∀ e', e' ∈ epochs → version e' <= version e)
    end.
Proof.
  intros Hf. destruct (from_spec _ _ Hf) as (Hne & Hd & Hp & Hs).
  pose proof (candidatesFor_perm block ring) as Hperm.
  assert (Hdesc : StronglySorted (λ a b, version b < version a) (reverse ring)).
  { apply (StronglySorted_reverse (λ a b, version a < version b)). clear -Hs.
    induction ring as [|e ring IH]; [constructor|]. rewrite fmap_cons in Hs.
    apply StronglySorted_cons in Hs as [Hall Hs]. constructor; [by apply IH|].
    rewrite Forall_fmap in Hall. eapply Forall_impl; [exact Hall|done]. }
  assert (Hin : ∀ e', e' ∈ epochs ↔ e' ∈ reverse ring) by (intros e'; by rewrite elem_of_reverse, Hp).
  split_and!; [by rewrite Hperm|by rewrite Hperm|].
  destruct (reverse ring) as [|e0 rest] eqn:Hrev.
  { exfalso. apply Hne, Permutation_nil_r. rewrite <- Hp, <- (reverse_Permutation ring). by rewrite Hrev. }
  assert (Hnewest : ∀ e', e' ∈ epochs → version e' <= version e0).
  { intros e'. rewrite Hin. apply StronglySorted_cons in Hdesc as [Hall _].
    rewrite Forall_forall in Hall. intros [->|He']%elem_of_cons; [lia|]. specialize (Hall e' He'). lia. }
  unfold candidatesFor. rewrite Hrev. destruct block as [blk|]; [|by exists e0, rest].
  destruct (list_find (covers blk) (e0 :: rest)) as [[i e]|] eqn:Hl.
  - eexists e, _. split; [done|]. left.
    destruct (newest_find _ _ _ _ Hdesc Hl) as [Hc Hmax]. split; [done|]. intros e'. rewrite Hin. apply Hmax.
  - eexists e0, rest. split; [done|]. right. split; [|done]. intros e'. rewrite Hin.
    apply list_find_None in Hl. rewrite Forall_forall in Hl. apply Hl.
Qed.
End Ring.

(** ** Complete histories *)
Module History.
Import Ring.

Definition samePoint (l r : Point) : bool := (l.1 =? r.1) && (l.2 =? r.2).
Definition version_ok (v : Z) : bool := isSafeInteger v && (COMPLIANCE_INITIAL_VERSION <=? v).
Definition assertVersion (v : Z) : result ComplianceKeyError unit :=
  guard_err (version_ok v) INVALID_VERSION_SEQUENCE.

Record HistoryInput := mkInput {
  genesisPk : Point; rotations : list ComplianceKeyRotation; currentPk : Point; currentVersion : Z }.
Record CompleteComplianceHistory := mkHistory {
  h_ring : list ComplianceKeyEpoch; h_currentPk : Point; h_currentVersion : Z }.

(** One round on the epochs so far, the expected version and the last block. *)
Definition check_block (previous : Z) (block : option Z) : result ComplianceKeyError Z :=
  match block with
  | None => Ok previous
  | Some b => if negb (isSafeInteger b) || (b <? 0) || (b <? previous)
              then Err INVALID_VERSION_SEQUENCE else Ok b
  end.
Fixpoint history_loop (rs : list ComplianceKeyRotation) (epochs : list ComplianceKeyEpoch)
    (expectedOld previousBlock : Z) : result ComplianceKeyError (list ComplianceKeyEpoch * Z) :=
  match rs with
  | [] => Ok (epochs, expectedOld)
  | r :: rs =>
      _ ← assertVersion (oldVersion r);
      _ ← assertVersion (newVersion r);
      if negb (oldVersion r =? expectedOld) || negb (newVersion r =? expectedOld + 1)
      then Err INVALID_VERSION_SEQUENCE
      else
        previousBlock ← check_block previousBlock (blockNumber r);
        history_loop rs (epochs ++ [rotation_epoch r]) (newVersion r) previousBlock
  end.

Definition check_history (input : HistoryInput) : result ComplianceKeyError CompleteComplianceHistory :=
  _ ← assertVersion (currentVersion input);
  '(epochs, expectedOld) ←
    history_loop (rotations input)
      [mkEpoch COMPLIANCE_INITIAL_VERSION (genesisPk input) None] COMPLIANCE_INITIAL_VERSION (-1);
  if negb (expectedOld =? currentVersion input) then Err INCOMPLETE_HISTORY
  else
    match last epochs with
    | None => Err INCOMPLETE_HISTORY
    | Some latest =>
        if negb (samePoint (pk latest) (currentPk input)) then Err CURRENT_KEY_MISMATCH
        else ring ← from epochs;
             Ok (mkHistory ring (currentPk input) (currentVersion input))
    end.

(** The module's weak set: a history is the object it was allocated as. *)
Record Registry := mkRegistry { next_ref : Z; completeHistories : gset Z }.
Definition completeComplianceHistory (input : HistoryInput) :
    M Registry ComplianceKeyError (Z * CompleteComplianceHistory) :=
  history ← lift (λ e, e) (check_history input);
  s ← get;
  _ ← modify (λ s, mkRegistry (next_ref s + 1) ({[next_ref s]} ∪ completeHistories s));
  mret (next_ref s, history).
Definition assertCompleteComplianceHistory (ref : Z) (s : Registry) : result ComplianceKeyError unit :=
  if decide (ref ∈ completeHistories s) then Ok tt else Err INCOMPLETE_HISTORY.

(** What a valid history is: versions count up from 1, the known blocks are
    safe naturals in order, and it ends at the configured key and version. *)
Fixpoint blocks_ok (previous : Z) (rs : list ComplianceKeyRotation) : Prop :=
  match rs with
  | [] => True
  | r :: rs => match blockNumber r with
               | None => blocks_ok previous rs
               | Some b => isSafeInteger b = true ∧ 0 <= b ∧ previous <= b ∧ blocks_ok b rs end
  end.
Fixpoint counts_up (old : Z) (rs : list ComplianceKeyRotation) : Prop :=
  match rs with
  | [] => True
  | r :: rs => oldVersion r = old ∧ newVersion r = old + 1 ∧ counts_up (old + 1) rs
  end.
Definition epochs_of (input : HistoryInput) : list ComplianceKeyEpoch :=
  mkEpoch COMPLIANCE_INITIAL_VERSION (genesisPk input) None :: (rotation_epoch <$> rotations input).
Definition valid_history (input : HistoryInput) : Prop :=
  counts_up 1 (rotations input) ∧ blocks_ok (-1) (rotations input) ∧
  currentVersion input = 1 + Z.of_nat (length (rotations input)) ∧
  currentVersion input <= MAX_SAFE ∧
  pk <$> last (epochs_of input) = Some (currentPk input).

Lemma samePoint_spec p p' : samePoint p p' = true ↔ p = p'.
Proof.
  unfold samePoint. destruct p, p'. cbn [fst snd]. rewrite andb_true_iff, !Z.eqb_eq.
  split; [by intros [-> ->]|by intros [= -> ->]].
Qed.
Lemma version_ok_spec v : version_ok v = true ↔ 1 <= v <= MAX_SAFE.
Proof.
  unfold version_ok, isSafeInteger, COMPLIANCE_INITIAL_VERSION, MAX_SAFE.
  rewrite !andb_true_iff, !Z.leb_le. lia.
Qed.
Lemma check_block_spec previous r rs :
  match check_block previous (blockNumber r) with
  | Ok b => blocks_ok previous (r :: rs) ↔ blocks_ok b rs
  | Err _ => ~ blocks_ok previous (r :: rs)
  end.
Proof.
  unfold check_block. cbn [blocks_ok]. destruct (blockNumber r) as [b|]; [|done].
  destruct (isSafeInteger b), (Z.ltb_spec b 0), (Z.ltb_spec b previous); cbn [negb orb];
    (intros (? & ? & ? & ?); (done || lia)) || (split; [tauto|intros; split_and!; (done || lia)]).
Qed.

Lemma history_loop_spec rs : ∀ epochs old previous, 1 <= old →
  match history_loop rs epochs old previous with
  | Ok (es, v) => es = epochs ++ (rotation_epoch <$> rs) ∧ v = old + Z.of_nat (length rs) ∧
                  counts_up old rs ∧ blocks_ok previous rs
  | Err _ => ~ (counts_up old rs ∧ blocks_ok previous rs ∧ old + Z.of_nat (length rs) <= MAX_SAFE)
  end.
Proof.
  induction rs as [|r rs IH]; intros epochs old previous Hold; cbn [history_loop length].
  { split_and!; [by rewrite app_nil_r|simpl; lia|done|done]. }
  unfold assertVersion, guard_err. pose proof (version_ok_spec (oldVersion r)) as Ho.
  pose proof (version_ok_spec (newVersion r)) as Hn. cbn [counts_up].
  destruct (version_ok (oldVersion r)); cbn [mbind result_bind].
  2: { intros ((Eo & _) & _ & Hm). enough (false = true) by done. apply Ho. lia. }
  destruct (version_ok (newVersion r)); cbn [mbind result_bind].
  2: { intros ((_ & E & _) & _ & Hm). enough (false = true) by done. apply Hn. lia. }
  destruct (Z.eqb_spec (oldVersion r) old) as [Eo|]; [|intros ((? & _) & _); done].
  destruct (Z.eqb_spec (newVersion r) (old + 1)) as [En|]; [|intros ((_ & ? & _) & _); done].
  cbn [negb orb]. pose proof (check_block_spec previous r rs) as Hb.
  destruct (check_block previous (blockNumber r)) as [b|e]; cbn [mbind result_bind]; [|tauto].
  rewrite En. specialize (IH (epochs ++ [rotation_epoch r]) (old + 1) b ltac:(lia)).
  destruct (history_loop rs _ _ b) as [[es v]|e].
  - destruct IH as (-> & -> & Hc & Hbl). rewrite <- (assoc_L (++)), fmap_cons. split_and!; [done|lia|done..|].
    by apply Hb.
  - intros ((_ & _ & Hc) & Hbl & Hm). apply IH. split_and!; [done|by apply Hb|lia].
Qed.

Lemma counts_up_versions old rs : counts_up old rs →
  StronglySorted Z.lt (old :: (newVersion <$> rs)).
Proof.
  revert old. induction rs as [|r rs IH]; intros old; cbn [counts_up].
  { repeat constructor. }
  intros (_ & En & Hc). specialize (IH _ Hc). rewrite fmap_cons, En.
  constructor; [done|]. apply StronglySorted_cons in IH as [Hall _].
  constructor; [lia|]. eapply Forall_impl; [exact Hall|]. cbn. intros. lia.
Qed.

Lemma js_sorted_version l : StronglySorted (λ a b, version a <= version b) (order_by version l).
Proof.
  pose proof (order_by_sorted version l) as Hs.
  induction (order_by version l) as [|x k IH]; [constructor|]. rewrite fmap_cons in Hs.
  apply StronglySorted_cons in Hs as [Hall Hs]. constructor; [by apply IH|].
  rewrite Forall_fmap in Hall. exact Hall.
Qed.

(** A list in strict version order is the ring it makes. *)
Lemma from_sorted epochs : epochs ≠ [] → StronglySorted Z.lt (version <$> epochs) →
  from epochs = Ok epochs.
Proof.
  intros Hne Hs.
  assert (Hd : NoDup (version <$> epochs)).
  { clear Hne. induction Hs as [|v l _ IH Hall]; constructor; [|done].
    intros Hin. rewrite Forall_forall in Hall. specialize (Hall v Hin). lia. }
  unfold from. destruct epochs as [|e es]; [done|]. cbn [length Nat.eqb].
  pose proof (check_versions_spec (e :: es) ∅) as Hc.
  destruct (check_versions (e :: es) ∅) as [[]|err].
  2: { enough (false = true) by done. apply Hc. split; [done|set_solver]. }
  cbn [mbind result_bind]. f_equal. remember (e :: es) as epochs eqn:Heq.
  apply (StronglySorted_unique_strong (λ a b, version a <= version b)).
  - intros a b Ha Hb H1 H2. rewrite order_by_perm in Ha.
    apply (NoDup_fmap_inj_on version epochs); [done|done|done|lia].
  - apply js_sorted_version.
  - clear -Hs. induction epochs as [|x l IH]; [constructor|]. rewrite fmap_cons in Hs.
    apply StronglySorted_cons in Hs as [Hall Hs]. constructor; [by apply IH|].
    rewrite Forall_fmap in Hall. eapply Forall_impl; [exact Hall|]. cbn. intros. lia.
  - apply order_by_perm.
Qed.

Lemma last_rotation (g : ComplianceKeyEpoch) rs old : counts_up old rs → version g = old →
  ∃ e, last (g :: (rotation_epoch <$> rs)) = Some e ∧ version e = old + Z.of_nat (length rs).
Proof.
  revert g old. induction rs as [|r rs IH]; intros g old Hc Hg.
  { exists g. split; [done|]. simpl. lia. }
  destruct Hc as (_ & En & Hc). destruct (IH (rotation_epoch r) (old + 1) Hc En) as (e & He & Hv).
  exists e. rewrite fmap_cons. split; [exact He|]. cbn [length]. lia.
Qed.

Lemma check_history_spec input :
  (is_ok (check_history input) = true ↔ valid_history input) ∧
  ∀ h, check_history input = Ok h →
    h = mkHistory (epochs_of input) (currentPk input) (currentVersion input).
Proof.
  unfold check_history, valid_history, assertVersion, guard_err.
  pose proof (version_ok_spec (currentVersion input)) as Hv.
  pose proof (history_loop_spec (rotations input)
    [mkEpoch COMPLIANCE_INITIAL_VERSION (genesisPk input) None] 1 (-1) ltac:(lia)) as Hloop.
  destruct (version_ok _); cbn [mbind result_bind].
  2: { split; [|done]. split; [done|]. intros (_ & _ & E & Hm & _). apply Hv. lia. }
  change COMPLIANCE_INITIAL_VERSION with 1 in *.
  destruct (history_loop _ _ 1 (-1)) as [[es v]|err]; cbn [mbind result_bind].
  2: { split; [|done]. split; [done|]. intros (Hc & Hb & E & Hm & _). exfalso. apply Hloop.
       split_and!; [done|done|lia]. }
  destruct Hloop as (-> & -> & Hc & Hb). change (?x :: [] ++ ?l) with (x :: l).
  change ([mkEpoch 1 (genesisPk input) None] ++ (rotation_epoch <$> rotations input))
    with (epochs_of input).
  destruct (Z.eqb_spec (1 + Z.of_nat (length (rotations input))) (currentVersion input)) as [E|E]; cbn [negb].
  2: { split; [|done]. split; [done|]. intros (_ & _ & E' & _). lia. }
  destruct (last (epochs_of input)) as [latest|] eqn:Hl.
  2: { split; [|done]. split; [done|]. intros (_ & _ & _ & _ & Hp). done. }
  destruct (samePoint (pk latest) (currentPk input)) eqn:Hp; cbn [negb].
  2: { split; [|done]. split; [done|]. intros (_ & _ & _ & _ & [= Hp']). by rewrite (proj2 (samePoint_spec _ _) Hp') in Hp. }
  apply samePoint_spec in Hp. rewrite from_sorted; [|done|].
  - cbn [mbind result_bind is_ok]. split; [|by intros h [= <-]]. split; [|done]. intros _.
    destruct (proj1 Hv eq_refl). split_and!; [done|done|lia|done|cbn; by rewrite Hp].
  - unfold epochs_of. rewrite fmap_cons, <- list_fmap_compose. by apply (counts_up_versions 1).
Qed.

(** A certified history is complete: an input is accepted if and only if
    its versions count up from 1 to the configured one, the known blocks are in
    order and it ends at the configured key; then the ring is the genesis key
    followed by every rotation, its newest entry is the configured key and
    version, the certificate holds for the returned object and for no other
    that had none, and a refused input certifies nothing. *)
Theorem completeComplianceHistory_spec input s :
  (is_ok (completeComplianceHistory input s).2 = true ↔ valid_history input) ∧
  match completeComplianceHistory input s with
  | (s', Ok (ref, h)) =>
      h_ring h = epochs_of input ∧ h_currentPk h = currentPk input ∧
      current (h_ring h) = Some (currentPk input) ∧
      Ring.currentVersion (h_ring h) = Some (currentVersion input) ∧
      assertCompleteComplianceHistory ref s' = Ok tt ∧
      ∀ ref', ref' ≠ ref →
        assertCompleteComplianceHistory ref' s' = assertCompleteComplianceHistory ref' s
  | (s', Err _) => s' = s
  end.
Proof.
  destruct (check_history_spec input) as [Hok Hh].
  unfold completeComplianceHistory, lift, get, modify, mbind, M_bind, mret, M_ret.
  destruct (check_history input) as [h|err]; cbn [is_ok snd] in *; [|done].
  split; [done|]. rewrite (Hh h eq_refl). cbn [h_ring h_currentPk].
  destruct (proj1 Hok eq_refl) as (Hc & _ & Hv & _ & Hp).
  destruct (last_rotation (mkEpoch COMPLIANCE_INITIAL_VERSION (genesisPk input) None)
    (rotations input) 1 Hc eq_refl) as (e & He & Hev).
  split_and!; [done|done|exact Hp| | |].
  - unfold Ring.currentVersion. unfold epochs_of. rewrite He. cbn. by rewrite Hev, Hv.
  - unfold assertCompleteComplianceHistory. cbn [completeHistories]. by rewrite decide_True by set_solver.
  - intros ref' Hne. unfold assertCompleteComplianceHistory. cbn [completeHistories].
    destruct (decide (ref' ∈ completeHistories s)).
    + by rewrite decide_True by set_solver.
    + by rewrite decide_False by set_solver.
Qed.
End History.

(** ** Witness: two rotations, the first one seen at block 100 *)
Module KeyringWitness.
Import Ring History.

Definition toy_epochs : list ComplianceKeyEpoch :=
  [mkEpoch 3 (7, 8) None; mkEpoch 1 (3, 4) (Some 0); mkEpoch 2 (5, 6) (Some 100)].
Lemma candidatesFor_complete_witness :
  candidatesFor (Some 150) (order_by version toy_epochs) ≡ₚ toy_epochs ∧
  head (version <$> candidatesFor (Some 150) (order_by version toy_epochs)) = Some 2.
Proof.
  split; [|reflexivity].
  apply (candidatesFor_complete toy_epochs (order_by version toy_epochs) (Some 150)).
  vm_compute. reflexivity.
Defined.
End KeyringWitness.
