(* ===== verification/Discovery.v ===== *)
(** * Private discovery ([packages/sdk/src/discovery])

    [Codec] is the 256-byte cell of [codec.ts], [Reconstruct] the refilling of
    the two stripped ciphertext words ([reconstruct.ts]), [Occupied] the test of
    [preflight.ts] that a row is an earlier note of this wallet.  A
    [Uint8Array] is a list of bytes, written at an offset by [set_bytes]. *)
From S2P Require Import Prelude Bytes Tss Keys Trace Mint Keyring.
Local Open Scope Z_scope.

(** ** [types.ts] *)
Definition RECORD_KIND_SELF : Z := 0.
Definition RECORD_KIND_INCOMING : Z := 1.
Definition HOWL_NOTE_LAYOUT_VERSION : Z := 1.
Definition HOWL_NOTE_RECORD_BYTES : nat := 246.
Definition HOWL_NOTE_CELL_BYTES : nat := 256.
Definition COMMITMENT_PREFIX_BYTES : nat := 16.
Definition CIPHERTEXT_KEPT_INDICES : list nat := [1; 2; 3; 4; 6]%nat.

Record HowlNoteRecord := mkHowl {
  layoutVersion : Z; recordKind : Z; leafIndex : Z; commitmentPrefix : list Z;
  ephemeralPkX : Z; cekWrap : Z; ciphertextKept : list Z }.

Inductive CodecError :=
  | Kept_words (n : nat) | Prefix_length (n : nat) | Leaf_not_u32 (x : Z)
  | Cell_length (n : nat) | Bad_layout (v : Z) | Bad_kind (k : Z) | Bad_padding (i : nat)
  | Field_error (e : MintError).

(** ** [codec.ts] *)
Module Codec.

Definition OFF_LAYOUT : nat := 0.
Definition OFF_KIND : nat := 1.
Definition OFF_LEAF_INDEX : nat := 2.
Definition OFF_COMMITMENT_PREFIX : nat := 6.
Definition OFF_EPH_X : nat := 22.
Definition OFF_CEK_WRAP : nat := 54.
Definition OFF_CIPHERTEXT : nat := 86.
Definition FIELD_BYTES : nat := 32.

(** [out.set(bytes, offset)] with room for them. *)
Definition set_bytes (out : list Z) (offset : nat) (bytes : list Z) : list Z :=
  take offset out ++ bytes ++ drop (offset + length bytes) out.
(** [src.subarray(offset, offset + n)]. *)
Definition subarray (src : list Z) (offset n : nat) : list Z := take n (drop offset src).

Definition putField (out : list Z) (offset : nat) (value : Z) : list Z :=
  set_bytes out offset (be_bytes 32 value).
Definition readField (src : list Z) (offset : nat) : result CodecError Z :=
  map_err Field_error (newFr (of_be (subarray src offset FIELD_BYTES))).

Definition encodeHowlNoteRecord (r : HowlNoteRecord) : result CodecError (list Z) :=
  if negb (length (ciphertextKept r) =? length CIPHERTEXT_KEPT_INDICES)%nat
  then Err (Kept_words (length (ciphertextKept r)))
  else if negb (length (commitmentPrefix r) =? COMMITMENT_PREFIX_BYTES)%nat
  then Err (Prefix_length (length (commitmentPrefix r)))
  else if (leafIndex r <? 0) || (0xffffffff <? leafIndex r) then Err (Leaf_not_u32 (leafIndex r))
  else
    let out := replicate HOWL_NOTE_CELL_BYTES 0 in
    let out := set_bytes out OFF_LAYOUT [layoutVersion r mod 256] in
    let out := set_bytes out OFF_KIND [recordKind r mod 256] in
    let out := set_bytes out OFF_LEAF_INDEX (be_bytes 4 (leafIndex r)) in
    let out := set_bytes out OFF_COMMITMENT_PREFIX (commitmentPrefix r) in
    let out := putField out OFF_EPH_X (ephemeralPkX r) in
    let out := putField out OFF_CEK_WRAP (cekWrap r) in
    Ok (foldl (λ out '(i, word), putField out (OFF_CIPHERTEXT + i * FIELD_BYTES) word) out
          (imap pair (ciphertextKept r))).

(** [for (let i = 246; i < 256; i++) if (cell[i] !== 0) throw]. *)
Fixpoint check_padding (tail : list Z) (i : nat) : result CodecError unit :=
  match tail with
  | [] => Ok tt
  | b :: tail => if negb (b =? 0) then Err (Bad_padding i) else check_padding tail (S i)
  end.

Definition decodeHowlNoteRecord (cell : list Z) : result CodecError HowlNoteRecord :=
  if negb (length cell =? HOWL_NOTE_CELL_BYTES)%nat then Err (Cell_length (length cell))
  else
    let version := nth OFF_LAYOUT cell 0 in
    if negb (version =? HOWL_NOTE_LAYOUT_VERSION) then Err (Bad_layout version)
    else
      let kind := nth OFF_KIND cell 0 in
      if negb (kind =? RECORD_KIND_SELF) && negb (kind =? RECORD_KIND_INCOMING) then Err (Bad_kind kind)
      else
        _ ← check_padding (drop HOWL_NOTE_RECORD_BYTES cell) HOWL_NOTE_RECORD_BYTES;
        let index := of_be (subarray cell OFF_LEAF_INDEX 4) in
        let prefix := subarray cell OFF_COMMITMENT_PREFIX COMMITMENT_PREFIX_BYTES in
        ephX ← readField cell OFF_EPH_X;
        wrap ← readField cell OFF_CEK_WRAP;
        words ← map_res (λ i, readField cell (OFF_CIPHERTEXT + i * FIELD_BYTES))
                  (List.seq 0 (length CIPHERTEXT_KEPT_INDICES));
        Ok (mkHowl version kind index prefix ephX wrap words).

(** [Array.every] over the prefix; an index past the commitment is [undefined]. *)
Definition commitmentPrefixMatches (r : HowlNoteRecord) (commitment : Z) : bool :=
  let expected := take COMMITMENT_PREFIX_BYTES (be_bytes 32 commitment) in
  forallb (λ '(i, b), match expected !! i with Some e => b =? e | None => false end)
    (imap pair (commitmentPrefix r)).

(** *** Cells are the concatenation of their fields *)
Definition segments (r : HowlNoteRecord) : list (list Z) :=
  [[layoutVersion r mod 256]; [recordKind r mod 256]; be_bytes 4 (leafIndex r); commitmentPrefix r;
   be_bytes 32 (ephemeralPkX r); be_bytes 32 (cekWrap r)]
  ++ (be_bytes 32 <$> ciphertextKept r) ++ [replicate 10 0].

Record valid_record (r : HowlNoteRecord) : Prop := {
  valid_version : layoutVersion r = HOWL_NOTE_LAYOUT_VERSION;
  valid_kind : recordKind r = RECORD_KIND_SELF ∨ recordKind r = RECORD_KIND_INCOMING;
  valid_index : 0 <= leafIndex r < 2 ^ 32;
  valid_prefix : length (commitmentPrefix r) = COMMITMENT_PREFIX_BYTES ∧ Forall is_byte (commitmentPrefix r);
  valid_eph : in_field (ephemeralPkX r);
  valid_wrap : in_field (cekWrap r);
  valid_words : length (ciphertextKept r) = 5%nat ∧ Forall in_field (ciphertextKept r);
}.

(** Writing at the end of what is written so far. *)
Lemma set_bytes_fill a bs n k : k = length a → (length bs <= n)%nat →
  set_bytes (a ++ replicate n 0) k bs = (a ++ bs) ++ replicate (n - length bs) 0.
Proof.
  intros -> Hn. unfold set_bytes. rewrite take_app_length, <- drop_drop, drop_app_length, drop_replicate.
  by rewrite (assoc_L (++)).
Qed.

Lemma encode_segments r : length (ciphertextKept r) = 5%nat →
  length (commitmentPrefix r) = COMMITMENT_PREFIX_BYTES → 0 <= leafIndex r < 2 ^ 32 →
  encodeHowlNoteRecord r = Ok (mjoin (segments r)).
Proof.
  intros Hw Hp Hi. unfold encodeHowlNoteRecord. rewrite Hw, Hp. cbn [negb Nat.eqb length CIPHERTEXT_KEPT_INDICES].
  rewrite (proj2 (Z.ltb_ge _ _)), (proj2 (Z.ltb_ge 0xffffffff _)) by lia. cbn [orb negb Nat.eqb COMMITMENT_PREFIX_BYTES].
  f_equal. unfold segments, putField. destruct r as [v k i pre ex cw ws].
  cbn [layoutVersion recordKind leafIndex commitmentPrefix ephemeralPkX cekWrap ciphertextKept] in *.
  destruct ws as [|w0 [|w1 [|w2 [|w3 [|w4 [|]]]]]]; try done.
  change (imap pair [w0; w1; w2; w3; w4])
    with [(0%nat, w0); (1%nat, w1); (2%nat, w2); (3%nat, w3); (4%nat, w4)]. cbn [foldl].
  change (replicate HOWL_NOTE_CELL_BYTES 0) with ([] ++ replicate 256 0).
  unfold COMMITMENT_PREFIX_BYTES, OFF_LAYOUT, OFF_KIND, OFF_LEAF_INDEX, OFF_COMMITMENT_PREFIX, OFF_EPH_X,
    OFF_CEK_WRAP, OFF_CIPHERTEXT, FIELD_BYTES in *.
  rewrite !set_bytes_fill by (rewrite ?length_app, ?length_be_bytes, ?Hp; simpl; lia).
  rewrite !length_be_bytes, Hp. cbn [length Nat.sub]. cbn [mjoin list_join fmap list_fmap app].
  rewrite <- !(assoc_L (++)), !app_nil_r. done.
Qed.

(** The slice of a concatenation at the offset of one of its segments. *)
Lemma drop_join {A} (segs : list (list A)) k : 
  drop (sum_list (length <$> take k segs)) (mjoin segs) = mjoin (drop k segs).
Proof.
  rewrite <- (take_drop k segs) at 2. rewrite join_app. apply drop_app_length'. by rewrite length_join.
Qed.
Lemma subarray_join segs k s off n : segs !! k = Some s → off = sum_list (length <$> take k segs) →
  n = length s → subarray (mjoin segs) off n = s.
Proof.
  intros Hk -> ->. unfold subarray. rewrite drop_join, (drop_S _ _ _ Hk).
  cbn [mjoin list_join]. by rewrite take_app_length.
Qed.

Lemma readField_join segs k x off : segs !! k = Some (be_bytes 32 x) → in_field x →
  off = sum_list (length <$> take k segs) → readField (mjoin segs) off = Ok x.
Proof.
  intros Hk Hx Ho. unfold readField. rewrite (subarray_join _ _ _ _ _ Hk Ho) by by rewrite length_be_bytes.
  rewrite of_be_be_bytes; [by rewrite newFr_Ok|].
  unfold in_field, MODULUS in Hx. change (256 ^ Z.of_nat 32) with (2 ^ 256). lia.
Qed.

(** [off_eq] computes an offset from the lengths of the segments before it. *)
Ltac off_eq Hp := cbn [take app fmap list_fmap sum_list_with length id]; unfold id;
  rewrite ?length_be_bytes, ?Hp; reflexivity.

Lemma decode_segments r : valid_record r → decodeHowlNoteRecord (mjoin (segments r)) = Ok r.
Proof.
  intros [Hv Hk Hi [Hp Hpb] He Hc [Hw Hwf]]. destruct r as [v k i pre ex cw ws].
  cbn [layoutVersion recordKind leafIndex commitmentPrefix ephemeralPkX cekWrap ciphertextKept] in *.
  destruct ws as [|w0 [|w1 [|w2 [|w3 [|w4 [|]]]]]]; try done. clear Hw.
  rewrite !Forall_cons in Hwf. destruct Hwf as (H0 & H1 & H2 & H3 & H4 & _).
  unfold segments.
  cbn [layoutVersion recordKind leafIndex commitmentPrefix ephemeralPkX cekWrap ciphertextKept app fmap list_fmap].
  match goal with |- context [mjoin ?l] => remember l as segs eqn:Es end.
  assert (Hlen : length (mjoin segs) = HOWL_NOTE_CELL_BYTES) by (rewrite length_join, Es; off_eq Hp).
  unfold decodeHowlNoteRecord. rewrite Hlen, Nat.eqb_refl. cbn [negb].
  assert (nth OFF_LAYOUT (mjoin segs) 0 = v) as ->.
  { rewrite Es. change (v mod 256 = v). by rewrite Hv. }
  assert (nth OFF_KIND (mjoin segs) 0 = k) as ->.
  { rewrite Es. change (k mod 256 = k). by destruct Hk as [-> | ->]. }
  rewrite Hv at 1. change (HOWL_NOTE_LAYOUT_VERSION =? HOWL_NOTE_LAYOUT_VERSION) with true. cbn [negb].
  assert (negb (k =? RECORD_KIND_SELF) && negb (k =? RECORD_KIND_INCOMING) = false) as ->.
  { by destruct Hk as [-> | ->]. }
  assert (HOWL_NOTE_RECORD_BYTES = sum_list (length <$> take 11 segs)) as E by (rewrite Es; off_eq Hp).
  rewrite E at 1. rewrite drop_join. clear E.
  assert (check_padding (mjoin (drop 11 segs)) HOWL_NOTE_RECORD_BYTES = Ok tt) as -> by by rewrite Es.
  cbn [mbind result_bind].
  rewrite (readField_join segs 4 ex OFF_EPH_X), (readField_join segs 5 cw OFF_CEK_WRAP) by (done || rewrite Es; (done || off_eq Hp)).
  cbn [mbind result_bind]. change (List.seq 0 (length CIPHERTEXT_KEPT_INDICES)) with [0; 1; 2; 3; 4]%nat. cbn [map_res].
  rewrite (readField_join segs 6 w0 (OFF_CIPHERTEXT + 0 * FIELD_BYTES)),
    (readField_join segs 7 w1 (OFF_CIPHERTEXT + 1 * FIELD_BYTES)),
    (readField_join segs 8 w2 (OFF_CIPHERTEXT + 2 * FIELD_BYTES)),
    (readField_join segs 9 w3 (OFF_CIPHERTEXT + 3 * FIELD_BYTES)),
    (readField_join segs 10 w4 (OFF_CIPHERTEXT + 4 * FIELD_BYTES)) by (done || rewrite Es; (done || off_eq Hp)).
  cbn [mbind result_bind].
  rewrite (subarray_join segs 2 (be_bytes 4 i)) by (rewrite ?Es; (done || off_eq Hp)).
  rewrite of_be_be_bytes by (change (256 ^ Z.of_nat 4) with (2 ^ 32); lia).
  rewrite (subarray_join segs 3 pre) by (rewrite ?Es; (done || off_eq Hp)). done.
Qed.

(** *** Every decodable cell is the encoding of its record *)
Lemma subarray_drop l o n : subarray l o n ++ drop (o + n) l = drop o l.
Proof. unfold subarray. by rewrite <- drop_drop, take_drop. Qed.
Lemma subarray_bytes l o n : Forall is_byte l → (o + n <= length l)%nat →
  Forall is_byte (subarray l o n) ∧ length (subarray l o n) = n.
Proof.
  intros Hf Hl. unfold subarray. split; [by apply Forall_take, Forall_drop|].
  rewrite length_take, length_drop. lia.
Qed.
Lemma be_bytes_subarray l o n : Forall is_byte l → (o + n <= length l)%nat →
  be_bytes n (of_be (subarray l o n)) = subarray l o n.
Proof.
  intros Hf Hl. destruct (subarray_bytes l o n Hf Hl) as [Hb Hn].
  rewrite <- (be_bytes_of_be (subarray l o n)) at 2 by done. by rewrite Hn.
Qed.
Lemma byte_subarray l o : Forall is_byte l → (o < length l)%nat → [nth o l 0 mod 256] = subarray l o 1.
Proof.
  intros Hf Hl. unfold subarray. destruct (lookup_lt_is_Some_2 l o Hl) as [x Hx].
  rewrite (drop_S _ _ _ Hx), (nth_lookup_Some _ _ _ _ Hx). cbn. rewrite take_0.
  rewrite Forall_lookup in Hf. by rewrite Z.mod_small by (specialize (Hf _ _ Hx); unfold is_byte in Hf; lia).
Qed.
Lemma check_padding_zero tail i : check_padding tail i = Ok tt → tail = replicate (length tail) 0.
Proof.
  revert i. induction tail as [|b tail IH]; intros i; [done|]. cbn [check_padding length replicate].
  destruct (Z.eqb_spec b 0) as [->|]; [|done]. cbn [negb]. intros H%IH. by rewrite <- H.
Qed.
Lemma readField_inv cell off x : Forall is_byte cell → (off + 32 <= length cell)%nat →
  readField cell off = Ok x → in_field x ∧ be_bytes 32 x = subarray cell off 32.
Proof.
  intros Hf Hl. unfold readField, FIELD_BYTES.
  destruct (newFr (of_be (subarray cell off 32))) as [y|] eqn:E; [|done]. cbn [map_err].
  intros [= <-]. apply newFr_inv in E as [-> Hin]. split; [done|by apply be_bytes_subarray].
Qed.

Lemma segments_decode cell r : Forall is_byte cell → decodeHowlNoteRecord cell = Ok r →
  valid_record r ∧ mjoin (segments r) = cell.
Proof.
  intros Hf. unfold decodeHowlNoteRecord.
  destruct (Nat.eqb_spec (length cell) HOWL_NOTE_CELL_BYTES) as [Hl|]; [|done]. cbn [negb].
  unfold HOWL_NOTE_CELL_BYTES in Hl.
  destruct (Z.eqb_spec (nth OFF_LAYOUT cell 0) HOWL_NOTE_LAYOUT_VERSION) as [Hv|]; [|done]. cbn [negb].
  destruct (negb _ && negb _) eqn:Hk; [done|].
  intros ([] & Hpad & (ex & Hex & (cw & Hcw & H)%bind_Ok)%bind_Ok)%bind_Ok.
  change (List.seq 0 (length CIPHERTEXT_KEPT_INDICES)) with [0; 1; 2; 3; 4]%nat in H. cbn [map_res] in H.
  apply bind_Ok in H as (ws & H & [= <-]).
  apply bind_Ok in H as (w0 & H0 & (r0 & H & [= <-])%bind_Ok).
  apply bind_Ok in H as (w1 & H1 & (r1 & H & [= <-])%bind_Ok).
  apply bind_Ok in H as (w2 & H2 & (r2 & H & [= <-])%bind_Ok).
  apply bind_Ok in H as (w3 & H3 & (r3 & H & [= <-])%bind_Ok).
  apply bind_Ok in H as (w4 & H4 & [= <-]).
  apply readField_inv in Hex as [Fex Eex]; [|done|rewrite Hl; by apply Nat.leb_le].
  apply readField_inv in Hcw as [Fcw Ecw]; [|done|rewrite Hl; by apply Nat.leb_le].
  apply readField_inv in H0 as [F0 E0]; [|done|rewrite Hl; by apply Nat.leb_le].
  apply readField_inv in H1 as [F1 E1]; [|done|rewrite Hl; by apply Nat.leb_le].
  apply readField_inv in H2 as [F2 E2]; [|done|rewrite Hl; by apply Nat.leb_le].
  apply readField_inv in H3 as [F3 E3]; [|done|rewrite Hl; by apply Nat.leb_le].
  apply readField_inv in H4 as [F4 E4]; [|done|rewrite Hl; by apply Nat.leb_le].
  destruct (subarray_bytes cell OFF_LEAF_INDEX 4 Hf) as [Bi Li]; [rewrite Hl; by apply Nat.leb_le|].
  destruct (subarray_bytes cell OFF_COMMITMENT_PREFIX COMMITMENT_PREFIX_BYTES Hf) as [Bp Lp]; [rewrite Hl; by apply Nat.leb_le|].
  pose proof (of_be_bound _ Bi) as Hi. rewrite Li in Hi.
  split.
  { split; cbn [layoutVersion recordKind leafIndex commitmentPrefix ephemeralPkX cekWrap ciphertextKept]; try done.
    - apply andb_false_iff in Hk as [E%negb_false_iff%Z.eqb_eq|E%negb_false_iff%Z.eqb_eq]; auto.
    - split; [done|]. by rewrite !Forall_cons. }
  apply check_padding_zero in Hpad. rewrite length_drop, Hl in Hpad.
  change (replicate _ 0) with (replicate 10 0) in Hpad.
  unfold segments. cbn [layoutVersion recordKind leafIndex commitmentPrefix ephemeralPkX cekWrap ciphertextKept].
  rewrite !byte_subarray by (done || rewrite Hl; by apply Nat.leb_le).
  rewrite be_bytes_subarray by (done || rewrite Hl; by apply Nat.leb_le).
  cbn [fmap list_fmap app mjoin list_join].
  rewrite Eex, Ecw, E0, E1, E2, E3, E4, app_nil_r, <- Hpad.
  let step o n := (change (drop _ cell) with (drop (o + n) cell); rewrite (subarray_drop cell o n)) in
  step (OFF_CIPHERTEXT + 4 * FIELD_BYTES)%nat 32%nat; step (OFF_CIPHERTEXT + 3 * FIELD_BYTES)%nat 32%nat;
  step (OFF_CIPHERTEXT + 2 * FIELD_BYTES)%nat 32%nat; step (OFF_CIPHERTEXT + 1 * FIELD_BYTES)%nat 32%nat;
  step (OFF_CIPHERTEXT + 0 * FIELD_BYTES)%nat 32%nat; step OFF_CEK_WRAP 32%nat; step OFF_EPH_X 32%nat;
  step OFF_COMMITMENT_PREFIX COMMITMENT_PREFIX_BYTES; step OFF_LEAF_INDEX 4%nat; step OFF_KIND 1%nat;
  step OFF_LAYOUT 1%nat.
  apply drop_0.
Qed.

(** The wire cell is a bijection: every valid record encodes to a cell that
    decodes to it, every cell that decodes holds a valid record and is exactly
    that record's encoding, and a record with a wrong number of words, prefix
    length or leaf index is refused. *)
Theorem cell_bijection r cell :
  (valid_record r → ∃ c, encodeHowlNoteRecord r = Ok c ∧ decodeHowlNoteRecord c = Ok r) ∧
  (Forall is_byte cell → decodeHowlNoteRecord cell = Ok r →
   valid_record r ∧ encodeHowlNoteRecord r = Ok cell) ∧
  (is_ok (encodeHowlNoteRecord r) = true ↔
   length (ciphertextKept r) = 5%nat ∧ length (commitmentPrefix r) = 16%nat ∧ 0 <= leafIndex r < 2 ^ 32).
Proof.
  split_and!.
  - intros Hr. pose proof Hr as [_ _ Hi [Hp _] _ _ [Hw _]]. exists (mjoin (segments r)).
    split; [by apply encode_segments|by apply decode_segments].
  - intros Hf Hd. destruct (segments_decode cell r Hf Hd) as [Hr E]. split; [done|].
    destruct Hr as [_ _ Hi [Hp _] _ _ [Hw _]]. by rewrite encode_segments, E.
  - split; [|intros (Hw & Hp & Hi); by rewrite encode_segments].
    unfold encodeHowlNoteRecord. destruct (Nat.eqb_spec (length (ciphertextKept r)) (length CIPHERTEXT_KEPT_INDICES)); [|done].
    destruct (Nat.eqb_spec (length (commitmentPrefix r)) COMMITMENT_PREFIX_BYTES); [|done]. cbn [negb].
    destruct (Z.ltb_spec (leafIndex r) 0), (Z.ltb_spec 0xffffffff (leafIndex r)); cbn [orb]; try done.
    intros _. split_and!; [done|done|lia|lia].
Qed.
End Codec.

(** ** [reconstruct.ts] *)
Module Reconstruct.
Section Reconstruct.
Context `{Poseidon2}.

Inductive ReconstructError := Kept_count (n : nat) | Missing_word (i : nat).

Definition keystream (cek index : Z) : Z := poseidon2 [cek; Dem.ENC_DOMAIN; index].
Definition STRIPPED_NOTE_VERSION_INDEX : nat := 0.
Definition STRIPPED_OWNER_INDEX : nat := 5.

(** The first hole of a sparse array, and its words when it has none. *)
Fixpoint words_of (full : list (option Z)) (i : nat) : result ReconstructError (list Z) :=
  match full with
  | [] => Ok []
  | None :: _ => Err (Missing_word i)
  | Some w :: full => ws ← words_of full (S i); Ok (w :: ws)
  end.

Definition reconstructCiphertext (r : HowlNoteRecord) (cek ownerCommitment : Z) :
    result ReconstructError (list Z) :=
  if negb (length (ciphertextKept r) =? length CIPHERTEXT_KEPT_INDICES)%nat
  then Err (Kept_count (length (ciphertextKept r)))
  else
    let full := replicate Dem.DEM_FIELDS None in
    let full := foldl (λ full '(i, wordIndex), <[wordIndex := ciphertextKept r !! i]> full) full
                  (imap pair CIPHERTEXT_KEPT_INDICES) in
    let versionPad := keystream cek (Z.of_nat STRIPPED_NOTE_VERSION_INDEX) in
    let ownerPad := keystream cek (Z.of_nat STRIPPED_OWNER_INDEX) in
    let full := <[STRIPPED_NOTE_VERSION_INDEX := Some (Z.rem (Mint.NOTE_VERSION + versionPad) MODULUS)]> full in
    let full := <[STRIPPED_OWNER_INDEX := Some (Z.rem (ownerCommitment + ownerPad) MODULUS)]> full in
    words_of full 0.

(** What the service keeps of a ciphertext. *)
Definition kept_words (ct : list Z) : list Z := omap (ct !!.) CIPHERTEXT_KEPT_INDICES.

Context {PF : Poseidon2Field}.

Lemma rem_frAdd a k : in_field a → Z.rem (a + poseidon2 k) MODULUS = frAdd a (poseidon2 k).
Proof. intros [Ha _]. pose proof (poseidon2_field k) as [Hk _]. apply Z.rem_mod_nonneg; unfold MODULUS; lia. Qed.

Lemma reconstruct_kept r cek n ct : Note.noteVersion n = Mint.NOTE_VERSION → in_field (Note.owner n) →
  Dem.demEncrypt cek (Mint.transmitted_fields n) = Ok ct → ciphertextKept r = kept_words ct →
  reconstructCiphertext r cek (Note.owner n) = Ok ct.
Proof.
  intros Hv Ho Hct Hk. unfold Dem.demEncrypt, Mint.transmitted_fields in Hct. rewrite Hv in Hct.
  injection Hct as <-. unfold reconstructCiphertext, keystream. rewrite Hk.
  rewrite !rem_frAdd by (done || unfold in_field, Mint.NOTE_VERSION, MODULUS; lia). reflexivity.
Qed.
End Reconstruct.
End Reconstruct.

(** ** [opensExistingSelfRecord] of [preflight.ts] *)
Module Occupied.
Import Reconstruct Codec.
Section Occupied.
Context `{BabyJubjub} `{Poseidon2}.

(** One attempt of the loop: [None] is the [catch]. *)
Definition opens_under (eph : Z) (r : HowlNoteRecord) (ownerCommitment : Z) (pk : Point) : option bool :=
  match Kem.deriveCek eph pk with
  | Err _ => None
  | Ok cek =>
      match reconstructCiphertext r cek ownerCommitment with
      | Err _ => None
      | Ok ciphertext =>
          match Dem.demDecrypt cek ciphertext with
          | Ok [p0; p1; p2; p3; p4; p5; p6] =>
              match Note.leaf (Note.mkNote p0 p1 p2 p3 p4 p5 (Note.computePsi cek) p6) with
              | Err _ => None
              | Ok commitment => Some (commitmentPrefixMatches r commitment)
              end
          | _ => None
          end
      end
  end.
Fixpoint open_loop (epochs : list ComplianceKeyEpoch) (eph : Z) (r : HowlNoteRecord)
    (ownerCommitment : Z) : bool :=
  match epochs with
  | [] => false
  | e :: epochs =>
      match opens_under eph r ownerCommitment (pk e) with
      | Some true => true
      | _ => open_loop epochs eph r ownerCommitment
      end
  end.
(** [history] is the object [ref] of the registry. *)
Definition opensExistingSelfRecord (reg : History.Registry) (ref : Z)
    (history : History.CompleteComplianceHistory) (eph : Z) (record : option HowlNoteRecord)
    (ownerCommitment : Z) : result ComplianceKeyError bool :=
  _ ← History.assertCompleteComplianceHistory ref reg;
  match record with
  | None => Ok false
  | Some r =>
      if negb (recordKind r =? RECORD_KIND_SELF) then Ok false
      else Ok (open_loop (Ring.candidatesFor None (History.h_ring history)) eph r ownerCommitment)
  end.

(** The row that the service serves for a note: its kept words and its prefix. *)
Definition row_of (r : HowlNoteRecord) (m : Mint.MintedNote) : Prop :=
  recordKind r = RECORD_KIND_SELF ∧
  commitmentPrefix r = take COMMITMENT_PREFIX_BYTES (be_bytes 32 (Mint.commitment m)) ∧
  ∃ ct, Dem.demEncrypt (Mint.m_cek m) (Mint.transmitted_fields (Mint.m_note m)) = Ok ct ∧
    ciphertextKept r = kept_words ct.

Lemma prefix_self r x : commitmentPrefix r = take COMMITMENT_PREFIX_BYTES (be_bytes 32 x) →
  commitmentPrefixMatches r x = true.
Proof.
  intros Hp. unfold commitmentPrefixMatches. rewrite <- Hp. apply forallb_forall.
  intros [i b] Hin%list_elem_of_In. apply elem_of_lookup_imap in Hin as (j & y & [= -> ->] & Hj).
  rewrite Hj. by apply Z.eqb_refl.
Qed.

Context {PF : Poseidon2Field}.

Lemma opens_own eph v spend asset par cpk m r :
  Mint.mintSelfNote eph v spend asset cpk par = Ok m → in_field asset → in_field par → row_of r m →
  opens_under eph r (Keys.Keys.pubkeyOwner (Keys.Keys.publicKey spend)) cpk = Some true.
Proof.
  intros Hm Ha Hp (_ & Hpre & ct & Hct & Hkept). unfold Mint.mintSelfNote in Hm.
  pose proof (Mint.finish_Ok _ _ _ _ _ _ _ _ Hm) as (Hcek & _ & Hn & _).
  destruct (Mint.minted_fields _ _ _ _ _ _ _ _ Hm (poseidon2_field _) Ha Hp) as (Hf & _ & Hpsi & Hl).
  unfold opens_under. rewrite Hcek.
  assert (Hown : Note.owner (Mint.m_note m) = Keys.Keys.pubkeyOwner (Keys.Keys.publicKey spend)) by (by rewrite Hn).
  rewrite <- Hown, (reconstruct_kept r _ (Mint.m_note m) ct) by (done || (by rewrite Hn) || by rewrite Hown; apply poseidon2_field).
  rewrite (Dem.demDecrypt_demEncrypt _ _ _ Hf Hct). unfold Mint.transmitted_fields. rewrite <- Hpsi.
  destruct (Mint.m_note m) as [? ? ? ? ? ? ? ?]. cbn in *. rewrite Hl. f_equal. by apply prefix_self.
Qed.

(** A used one-time key is recognised: if this wallet ever minted a self
    note with the candidate, under any compliance key of the certified history
    and for any amount, asset and parents, the row the service keeps of it (two
    ciphertext words dropped, sixteen bytes of the commitment) is found to be
    this wallet's; a missing row and a row of the incoming family never are. *)
Theorem used_ephemeral_occupied reg ref history eph v spend asset par e m r :
  History.assertCompleteComplianceHistory ref reg = Ok tt →
  e ∈ History.h_ring history → in_field asset → in_field par →
  Mint.mintSelfNote eph v spend asset (pk e) par = Ok m → row_of r m →
  let owner := Keys.Keys.pubkeyOwner (Keys.Keys.publicKey spend) in
  opensExistingSelfRecord reg ref history eph (Some r) owner = Ok true ∧
  (∀ o, opensExistingSelfRecord reg ref history eph None o = Ok false) ∧
  ∀ r' o, recordKind r' = RECORD_KIND_INCOMING → opensExistingSelfRecord reg ref history eph (Some r') o = Ok false.
Proof.
  intros Hreg He Ha Hp Hm Hr owner. subst owner. unfold opensExistingSelfRecord. rewrite Hreg. cbn [mbind result_bind].
  pose proof Hr as [Hkind _]. rewrite Hkind, Z.eqb_refl. cbn [negb].
  split_and!; [|done|by intros r' o ->]. f_equal.
  assert (Hin : e ∈ Ring.candidatesFor None (History.h_ring history)) by by apply elem_of_reverse.
  induction Hin as [x l|x y l Hin IH]; cbn [open_loop].
  - by rewrite (opens_own _ _ _ _ _ _ _ _ Hm Ha Hp Hr).
  - destruct (opens_under _ _ _ _) as [[]|]; [done|apply IH; done..].
Qed.
End Occupied.
End Occupied.

(** ** Witnesses *)
Module DiscoveryWitness.
Import EvenCurve MintWitness Codec Reconstruct Occupied.

Definition toy_history : History.CompleteComplianceHistory :=
  History.mkHistory [mkEpoch 1 (Keys.Keys.publicKey 2) None; mkEpoch 2 (Keys.Keys.publicKey 3) (Some 9)]
    (Keys.Keys.publicKey 3) 2.
Definition toy_registry : History.Registry := History.mkRegistry 1 {[0]}.
Definition toy_row (m : Mint.MintedNote) : HowlNoteRecord :=
  mkHowl 1 RECORD_KIND_SELF 7 (take 16 (be_bytes 32 (Mint.commitment m))) 0 0
    (match Dem.demEncrypt (Mint.m_cek m) (Mint.transmitted_fields (Mint.m_note m)) with
     | Ok ct => kept_words ct | Err _ => [] end).

Lemma used_ephemeral_occupied_witness : ∃ m,
  Mint.mintSelfNote 5 40 4 9 (Keys.Keys.publicKey 2) 0 = Ok m ∧
  opensExistingSelfRecord toy_registry 0 toy_history 5 (Some (toy_row m))
    (Keys.Keys.pubkeyOwner (Keys.Keys.publicKey 4)) = Ok true.
Proof.
  destruct (Mint.mintSelfNote 5 40 4 9 (Keys.Keys.publicKey 2) 0) as [m|] eqn:E; [|by vm_compute in E].
  exists m. split; [done|].
  apply (used_ephemeral_occupied toy_registry 0 toy_history 5 40 4 9 0
    (mkEpoch 1 (Keys.Keys.publicKey 2) None) m (toy_row m)); [by vm_compute|left| | |exact E|].
  - unfold in_field, MODULUS. lia.
  - unfold in_field, MODULUS. lia.
  - split_and!; [done|done|]. eexists. split; reflexivity.
Defined.

Definition toy_record : HowlNoteRecord := mkHowl 1 1 300 (replicate 16 7) 5 6 [1; 2; 3; 4; 5].
Lemma toy_cell : (encodeHowlNoteRecord toy_record ≫= decodeHowlNoteRecord) = Ok toy_record.
Proof. vm_compute. reflexivity. Qed.
End DiscoveryWitness.
