(* ===== verification/Preflight.v ===== *)
(** * Self-mint preflight ([packages/sdk/src/discovery/preflight.ts],
    [packages/sdk/src/types/ephemeral.ts])

    A one-time key reaches a transaction in four steps: it is derived from the
    durable counter and its object is marked with its provenance
    ([Provenance]), a preflight claims it, probes discovery that no earlier note
    of this wallet used it, and issues an opaque handle ([Preflight]), and an
    assembly consumes the handle once ([Authorization]).  An object is its
    identity, a number; the module's weak maps are finite maps over
    identities.  What comes from outside is a dynamic value ([JsVal]). *)
From stdpp Require Import pretty.
From S2P Require Import Prelude Bytes Tss Keys Trace Mint Keyring Discovery.
Local Open Scope Z_scope.

(** ** Dynamic values *)
Inductive JsVal :=
  | JUndefined | JNull | JNum (n : Z) (* an integer *) | JFraction (* any other number *)
  | JBig (n : Z) | JStr (s : string) | JFr (n : Z) | JBytes (l : list Z)
  | JArr (l : list JsVal) | JObj (fields : list (string * JsVal)).

Definition get_field (fields : list (string * JsVal)) (key : string) : JsVal :=
  match list_find (λ p, p.1 = key) fields with Some (_, p) => p.2 | None => JUndefined end.

Definition is_big (v : JsVal) (n : Z) : bool := match v with JBig m => m =? n | _ => false end.
Definition is_num (v : JsVal) (n : Z) : bool := match v with JNum m => m =? n | _ => false end.
Definition is_fr (v : JsVal) (n : Z) : bool := match v with JFr m => m =? n | _ => false end.
Definition element (l : list JsVal) (i : nat) : JsVal := default JUndefined (l !! i).

(** An object of the allocator: its identity and its fields. *)
Record Candidate := mkCandidate { c_ref : Z; c_fields : list (string * JsVal) }.
Definition reflect_get (c : Candidate) (key : string) : JsVal := get_field (c_fields c) key.

(** ** [types/ephemeral.ts] *)
Module Provenance.

Record DerivedSelfMintProvenance := mkProvenance {
  p_owner : Z; p_eph : Z; p_ephPub : Point; p_tag : Z; p_index : Z;
  p_memberId : option Z; p_j : option Z; claimed : bool }.
Notation Ledger := (gmap Z DerivedSelfMintProvenance).

(** A field of the wrong type. *)
Inductive TypeError := Type_error (key : string).

Definition optionalBigInt (c : Candidate) (key : string) : result TypeError (option Z) :=
  match reflect_get c key with
  | JUndefined => Ok None | JBig n => Ok (Some n) | _ => Err (Type_error key)
  end.

Definition markDerivedSelfMintCandidate (c : Candidate) (ownerCommitment : Z) :
    M Ledger TypeError Candidate :=
  match reflect_get c "eph", reflect_get c "ephPub", reflect_get c "tag", reflect_get c "index" with
  | JFr eph, JArr [JBig px; JBig py], JFr tag, JNum index =>
      memberId ← lift (λ e, e) (optionalBigInt c "memberId");
      j ← lift (λ e, e) (optionalBigInt c "j");
      _ ← modify <[c_ref c := mkProvenance ownerCommitment eph (px, py) tag index memberId j false]>;
      mret c
  | _, _, _, _ => throw (Type_error "candidate")
  end.

Inductive DerivedSelfMintClaim :=
  CLAIMED | UNKNOWN | OWNER_MISMATCH | PROVENANCE_MISMATCH | ALREADY_CLAIMED.

(** The comparisons of the fields with what was recorded. *)
Definition fields_match (c : Candidate) (p : DerivedSelfMintProvenance) : bool :=
  match reflect_get c "eph", reflect_get c "tag", reflect_get c "ephPub" with
  | JFr eph, JFr tag, JArr pub =>
      match optionalBigInt c "memberId", optionalBigInt c "j" with
      | Ok memberId, Ok j =>
          (eph =? p_eph p) && is_big (element pub 0) (p_ephPub p).1 && is_big (element pub 1) (p_ephPub p).2
          && (tag =? p_tag p) && is_num (reflect_get c "index") (p_index p)
          && bool_decide (memberId = p_memberId p) && bool_decide (j = p_j p)
      | _, _ => false
      end
  | _, _, _ => false
  end.

Definition claimDerivedSelfMintCandidate (c : Candidate) (ownerCommitment : Z) (l : Ledger) :
    Ledger * DerivedSelfMintClaim :=
  match l !! c_ref c with
  | None => (l, UNKNOWN)
  | Some p =>
      if negb (p_owner p =? ownerCommitment) then (l, OWNER_MISMATCH)
      else if negb (fields_match c p) then (l, PROVENANCE_MISMATCH)
      else if claimed p then (l, ALREADY_CLAIMED)
      else (<[c_ref c := mkProvenance (p_owner p) (p_eph p) (p_ephPub p) (p_tag p) (p_index p)
                (p_memberId p) (p_j p) true]> l, CLAIMED)
  end.
End Provenance.

(** ** Handles and their consumption *)
Module Authorization.

Record AuthorizedSelfMintCandidate := mkAuthorized { a_eph : Z; a_ephPub : Point; a_tag : Z; a_index : Z }.

(** The context that a preflight certifies; a history is an object with its
    contents. *)
Record SelfMintContext := mkContext {
  ownerCommitment : Z; compliancePk : Point; complianceVersion : Z;
  complianceHistory : Z * History.CompleteComplianceHistory;
  chainId : Z; poolAddress : string; deploymentAnchor : Z }.

(** The context that an assembly presents, its fields not yet checked. *)
Record ExpectedContext := mkExpected {
  x_ownerCommitment : JsVal; x_compliancePk : JsVal; x_complianceVersion : JsVal;
  x_complianceHistory : Z * History.CompleteComplianceHistory;
  x_chainId : JsVal; x_poolAddress : JsVal; x_deploymentAnchor : JsVal }.

Record CertifiedContext := mkCertified {
  k_ownerCommitment : Z; k_compliancePk : Point; k_complianceVersion : Z;
  k_complianceHistory : string; k_chainId : Z; k_poolAddress : string; k_deploymentAnchor : Z }.
Record AuthorizationState := mkAuthState {
  candidate : AuthorizedSelfMintCandidate; context : CertifiedContext; consumed : bool }.

Inductive SelfMintAuthorizationFailure :=
  UNKNOWN_AUTHORIZATION | AUTHORIZATION_CONSUMED | DUPLICATE_AUTHORIZATION | CONTEXT_MISMATCH.
Inductive AuthError :=
  | Authorization (reason : SelfMintAuthorizationFailure) | Compliance (e : ComplianceKeyError).

(** [s.toLowerCase()] of 7-bit text. *)
Definition lower_char (c : ascii) : ascii :=
  let n := nat_of_ascii c in if ((65 <=? n) && (n <=? 90))%nat then ascii_of_nat (n + 32) else c.
Fixpoint toLowerCase (s : string) : string :=
  match s with EmptyString => EmptyString | String c s => String (lower_char c) (toLowerCase s) end.

(** [${version}:${x}:${y}:${fromBlock ?? ""}]. *)
Definition epoch_text (e : ComplianceKeyEpoch) : string :=
  pretty (version e) +:+ ":" +:+ pretty (pk e).1 +:+ ":" +:+ pretty (pk e).2 +:+ ":"
  +:+ match fromBlock e with Some b => pretty b | None => "" end.
(** [texts.join("|")]. *)
Fixpoint join_bars (texts : list string) : string :=
  match texts with [] => "" | [t] => t | t :: texts => t +:+ "|" +:+ join_bars texts end.
Definition historyIdentity (reg : History.Registry) (h : Z * History.CompleteComplianceHistory) :
    result ComplianceKeyError string :=
  _ ← History.assertCompleteComplianceHistory h.1 reg;
  Ok (join_bars (epoch_text <$> History.h_ring h.2)).

(** Conjunction that stops at the first false: the history is only identified,
    and its certificate only required, when everything before it agrees. *)
Definition sameContext (reg : History.Registry) (certified : CertifiedContext) (expected : ExpectedContext) :
    result ComplianceKeyError bool :=
  match x_ownerCommitment expected, x_compliancePk expected, x_chainId expected,
        x_poolAddress expected, x_deploymentAnchor expected with
  | JFr owner, JArr [JBig px; JBig py], JBig chain, JStr pool, JBig anchor =>
      if (k_ownerCommitment certified =? owner) && ((k_compliancePk certified).1 =? px)
         && ((k_compliancePk certified).2 =? py)
         && is_num (x_complianceVersion expected) (k_complianceVersion certified)
      then
        identity ← historyIdentity reg (x_complianceHistory expected);
        Ok (String.eqb (k_complianceHistory certified) identity
            && (k_chainId certified =? chain)
            && String.eqb (k_poolAddress certified) (toLowerCase pool)
            && (k_deploymentAnchor certified =? anchor))
      else Ok false
  | _, _, _, _, _ => Ok false
  end.

(** The handles of the module and the map of their states. *)
Record Handles := mkHandles { next_handle : Z; authorizationStates : gmap Z AuthorizationState }.

Definition certify (reg : History.Registry) (c : SelfMintContext) : result ComplianceKeyError CertifiedContext :=
  identity ← historyIdentity reg (complianceHistory c);
  Ok (mkCertified (ownerCommitment c) (compliancePk c) (complianceVersion c) identity (chainId c)
        (toLowerCase (poolAddress c)) (deploymentAnchor c)).
Definition issueAuthorization (reg : History.Registry) (c : AuthorizedSelfMintCandidate)
    (ctx : SelfMintContext) : M Handles ComplianceKeyError Z :=
  certified ← lift (λ e, e) (certify reg ctx);
  s ← get;
  _ ← modify (λ s, mkHandles (next_handle s + 1)
                (<[next_handle s := mkAuthState c certified false]> (authorizationStates s)));
  mret (next_handle s).

(** A handle as the caller passes it: an object, or a primitive value. *)
Inductive Handle := HObj (ref : Z) | HPrim (n : Z).
#[export] Instance Handle_eq_dec : EqDecision Handle.
Proof. solve_decision. Defined.

Fixpoint check_handles (reg : History.Registry) (handles : list Handle) (expected : ExpectedContext)
    (states : gmap Z AuthorizationState) : result AuthError (list (Z * AuthorizationState)) :=
  match handles with
  | [] => Ok []
  | HPrim _ :: _ => Err (Authorization UNKNOWN_AUTHORIZATION)
  | HObj ref :: handles =>
      match states !! ref with
      | None => Err (Authorization UNKNOWN_AUTHORIZATION)
      | Some state =>
          if consumed state then Err (Authorization AUTHORIZATION_CONSUMED)
          else
            same ← map_err Compliance (sameContext reg (context state) expected);
            if negb same then Err (Authorization CONTEXT_MISMATCH)
            else rest ← check_handles reg handles expected states; Ok ((ref, state) :: rest)
      end
  end.

Definition same_candidate (l : list (Z * AuthorizationState)) : bool :=
  match l with
  | [(_, s0); (_, s1)] =>
      (a_eph (candidate s0) =? a_eph (candidate s1)) || (a_tag (candidate s0) =? a_tag (candidate s1))
  | _ => false
  end.

Definition mark_consumed (states : gmap Z AuthorizationState) (rs : Z * AuthorizationState) :
    gmap Z AuthorizationState :=
  <[rs.1 := mkAuthState (candidate rs.2) (context rs.2) true]> states.

(** *** The candidates whose handles are still good *)
Definition live (hs : Z * AuthorizationState) : option AuthorizedSelfMintCandidate :=
  if consumed hs.2 then None else Some (candidate hs.2).
Definition unconsumed (states : gmap Z AuthorizationState) : list AuthorizedSelfMintCandidate :=
  omap live (map_to_list states).

Definition consumeSelfMints (reg : History.Registry) (handles : list Handle) (expected : ExpectedContext) :
    M Handles AuthError (list AuthorizedSelfMintCandidate) :=
  if negb (length handles =? 1)%nat && negb (length handles =? 2)%nat
  then throw (Authorization UNKNOWN_AUTHORIZATION)
  else if decide (NoDup handles) then
    s ← get;
    states ← lift (λ e, e) (check_handles reg handles expected (authorizationStates s));
    if same_candidate states then throw (Authorization DUPLICATE_AUTHORIZATION)
    else
      _ ← modify (λ s, mkHandles (next_handle s) (foldl mark_consumed (authorizationStates s) states));
      mret (candidate ∘ snd <$> states)
  else throw (Authorization DUPLICATE_AUTHORIZATION).

Lemma omap_perm {A B} (f : A → option B) l k : l ≡ₚ k → omap f l ≡ₚ omap f k.
Proof.
  induction 1; cbn; repeat case_match; eauto using Permutation_trans; try by constructor.
Qed.
Lemma unconsumed_issue states h c k : states !! h = None →
  unconsumed (<[h := mkAuthState c k false]> states) ≡ₚ c :: unconsumed states.
Proof. intros Hh. unfold unconsumed. by rewrite (omap_perm _ _ _ (map_to_list_insert _ _ _ Hh)). Qed.
Lemma unconsumed_consume states h s : states !! h = Some s → consumed s = false →
  unconsumed states ≡ₚ candidate s :: unconsumed (mark_consumed states (h, s)).
Proof.
  intros Hh Hc. unfold mark_consumed. cbn [fst snd].
  rewrite <- (insert_delete_id states h s Hh) at 1. rewrite <- (insert_delete_eq states).
  unfold unconsumed. rewrite !(omap_perm _ _ _ (map_to_list_insert _ _ _ (lookup_delete_eq states h))).
  cbn. unfold live at 1 3. cbn [snd]. by rewrite Hc.
Qed.

Lemma mark_lookup_ne states h s h' : h' ≠ h → mark_consumed states (h, s) !! h' = states !! h'.
Proof. intros Hne. unfold mark_consumed. by rewrite lookup_insert_ne. Qed.

(** What a successful check has seen. *)
Lemma check_handles_spec reg hs expected states l : check_handles reg hs expected states = Ok l →
  hs = HObj ∘ fst <$> l ∧
  ∀ h s, (h, s) ∈ l → states !! h = Some s ∧ consumed s = false ∧
    sameContext reg (context s) expected = Ok true.
Proof.
  revert l. induction hs as [|[h|n] hs IH]; intros l; cbn [check_handles].
  - intros [= <-]. split; [done|]. by intros h s ?%not_elem_of_nil.
  - destruct (states !! h) as [s|] eqn:Hs; [|done]. destruct (consumed s) eqn:Hc; [done|].
    intros (same & Hsame & H)%bind_Ok. destruct same; [|done]. cbn [negb] in H.
    apply bind_Ok in H as (rest & Hrest & [= <-]). destruct (IH _ Hrest) as [-> Hall].
    split; [done|]. intros h' s' [[= -> ->]|Hin]%elem_of_cons; [|by apply Hall].
    split_and!; [done|done|]. destruct (sameContext _ _ _); [|done]. cbn in Hsame. congruence.
  - done.
Qed.

Lemma unconsumed_all states l : NoDup l.*1 → (∀ h s, (h, s) ∈ l → states !! h = Some s ∧ consumed s = false) →
  unconsumed states ≡ₚ (candidate ∘ snd <$> l) ++ unconsumed (foldl mark_consumed states l).
Proof.
  revert states. induction l as [|[h s] l IH]; intros states Hd Hl; [done|].
  rewrite fmap_cons, NoDup_cons in Hd. destruct Hd as [Hn Hd].
  destruct (Hl h s ltac:(left)) as [Hh Hc]. rewrite (unconsumed_consume _ _ _ Hh Hc).
  cbn [fmap list_fmap foldl app]. cbn [compose snd]. constructor. apply IH; [done|].
  intros h' s' Hin. rewrite mark_lookup_ne; [apply Hl; by right|].
  intros ->. apply Hn, list_elem_of_fmap. by exists (h, s').
Qed.

Lemma marked_out states l h : h ∉ l.*1 → foldl mark_consumed states l !! h = states !! h.
Proof.
  revert states. induction l as [|[h' s] l IH]; intros states Hn; [done|].
  rewrite fmap_cons, not_elem_of_cons in Hn. cbn [fst] in Hn. destruct Hn as [Hne Hn].
  cbn [foldl]. rewrite IH by done. by rewrite mark_lookup_ne.
Qed.
Lemma marked_in states l h s : NoDup l.*1 → (h, s) ∈ l →
  foldl mark_consumed states l !! h = Some (mkAuthState (candidate s) (context s) true).
Proof.
  revert states. induction l as [|[h' s'] l IH]; intros states Hd; [by intros ?%not_elem_of_nil|].
  rewrite fmap_cons, NoDup_cons in Hd. destruct Hd as [Hn Hd]. cbn [foldl].
  intros [[= -> ->]|Hin]%elem_of_cons; [|by apply IH].
  rewrite marked_out by done. unfold mark_consumed. by rewrite lookup_insert_eq.
Qed.

(** Everything a call of [consumeSelfMints] does. *)
Lemma consume_spec reg handles expected s :
  match consumeSelfMints reg handles expected s with
  | (s', Err _) => s' = s
  | (s', Ok out) =>
      ∃ l, handles = HObj ∘ fst <$> l ∧ NoDup l.*1 ∧ (length l = 1 ∨ length l = 2)%nat ∧
        out = candidate ∘ snd <$> l ∧ same_candidate l = false ∧
        (∀ h st, (h, st) ∈ l → authorizationStates s !! h = Some st ∧ consumed st = false ∧
           sameContext reg (context st) expected = Ok true) ∧
        next_handle s' = next_handle s ∧
        authorizationStates s' = foldl mark_consumed (authorizationStates s) l
  end.
Proof.
  unfold consumeSelfMints. destruct (negb _ && negb _) eqn:Hlen; [done|].
  destruct (decide (NoDup handles)) as [Hd|]; [|done].
  unfold mbind, M_bind, get, lift, modify, mret, M_ret, throw.
  destruct (check_handles reg handles expected (authorizationStates s)) as [l|e] eqn:Hc; [|done].
  destruct (same_candidate l) eqn:Hsame; [done|]. cbn [next_handle authorizationStates].
  apply check_handles_spec in Hc as [-> Hl]. exists l.
  assert (Hnd : NoDup l.*1).
  { rewrite list_fmap_compose in Hd. by apply NoDup_fmap_1 in Hd. }
  rewrite length_fmap in Hlen. apply andb_false_iff in Hlen as [H%negb_false_iff%Nat.eqb_eq|H%negb_false_iff%Nat.eqb_eq];
    split_and!; try done; by auto.
Qed.

(** Consumption is atomic and one-shot. A refused call changes nothing. An
    accepted one takes one or two different handles, each issued, unspent and
    certified for the presented context, returns their candidates in order,
    spends exactly these handles and no other, and from then on every call that
    includes one of them is refused, whatever context it presents. *)
Theorem consume_once reg handles expected s :
  match consumeSelfMints reg handles expected s with
  | (s', Err _) => s' = s
  | (s', Ok out) =>
      ∃ l, handles = HObj ∘ fst <$> l ∧ NoDup l.*1 ∧ (length l = 1 ∨ length l = 2)%nat ∧
        out = candidate ∘ snd <$> l ∧
        (∀ h st, (h, st) ∈ l → authorizationStates s !! h = Some st ∧ consumed st = false ∧
           sameContext reg (context st) expected = Ok true ∧
           authorizationStates s' !! h = Some (mkAuthState (candidate st) (context st) true)) ∧
        (∀ h, h ∉ l.*1 → authorizationStates s' !! h = authorizationStates s !! h) ∧
        ∀ handles' expected' reg' h, h ∈ handles → h ∈ handles' →
          is_ok (consumeSelfMints reg' handles' expected' s').2 = false
  end.
Proof.
  pose proof (consume_spec reg handles expected s) as Hs.
  destruct (consumeSelfMints reg handles expected s) as [s' [out|e]]; [|done].
  destruct Hs as (l & -> & Hd & Hlen & -> & _ & Hl & _ & Es). exists l.
  assert (Hin : ∀ h st, (h, st) ∈ l →
    authorizationStates s' !! h = Some (mkAuthState (candidate st) (context st) true)).
  { intros h st Hhs. rewrite Es. by apply marked_in. }
  split_and!; [done|done|done|done|..].
  - intros h st Hhs. destruct (Hl h st Hhs) as (? & ? & ?). split_and!; auto.
  - intros h Hn. rewrite Es. by apply marked_out.
  - intros handles' expected' reg' h0 ([h st] & -> & Hhs)%list_elem_of_fmap Hh'.
    pose proof (consume_spec reg' handles' expected' s') as Hs'.
    destruct (consumeSelfMints reg' handles' expected' s') as [s'' [out'|e]]; [|done].
    destruct Hs' as (l' & -> & _ & _ & _ & _ & Hl' & _).
    apply list_elem_of_fmap in Hh' as ([h' st'] & [= <-] & Hhs').
    destruct (Hl' _ _ Hhs') as (E' & Hc' & _). cbn [compose fst] in E'. rewrite (Hin _ _ Hhs) in E'.
    by injection E' as <-.
Qed.
End Authorization.

(** ** [SelfMintPreflight] *)
Module Preflight.
Import Provenance Authorization.

Definition PREFLIGHT_COLLISION_BATCH_SIZE : nat := 5.
Definition MAX_PREFLIGHT_CANDIDATES : nat := 256.

(** The collaborators: the allocator, which may write to the provenance ledger,
    and the discovery service; [None] is a rejected promise. *)
Class Environment (A : Type) := {
  next : A * Ledger → (A * Ledger) * option Candidate;
  probeFirst : list Z → A → A * option JsVal;
}.

Inductive SelfMintPreflightFailure :=
  | INVALID_COUNT | DISCOVERY_UNAVAILABLE | DISCOVERY_PROTOCOL | CANDIDATE_OWNER_MISMATCH
  | CANDIDATE_PROVENANCE_MISMATCH | CANDIDATE_ALREADY_CLAIMED | CANDIDATES_EXHAUSTED.
Inductive PreflightError :=
  | Failure (reason : SelfMintPreflightFailure) | Uncertified (e : ComplianceKeyError)
  | Allocator_failed | Bad_field (x : Z)
  (* the rounds of the search ran out; never returned *)
  | Out_of_rounds.

Definition isFr (v : JsVal) : bool := match v with JFr _ => true | _ => false end.
Definition validatedRecord (raw : JsVal) : result PreflightError HowlNoteRecord :=
  match raw with
  | JObj f =>
      match get_field f "layoutVersion", get_field f "recordKind", get_field f "leafIndex",
            get_field f "commitmentPrefix", get_field f "ephemeralPkX", get_field f "cekWrap",
            get_field f "ciphertextKept" with
      | JNum version, JNum kind, JNum leaf, JBytes prefix, JFr ephX, JFr wrap, JArr words =>
          if negb (version =? HOWL_NOTE_LAYOUT_VERSION)
             || (negb (kind =? RECORD_KIND_SELF) && negb (kind =? RECORD_KIND_INCOMING))
             || (leaf <? 0) || (0xffffffff <? leaf)
             || negb (length prefix =? COMMITMENT_PREFIX_BYTES)%nat
             || negb (length words =? length CIPHERTEXT_KEPT_INDICES)%nat
             || negb (forallb isFr words)
          then Err (Failure DISCOVERY_PROTOCOL)
          else Ok (mkHowl version kind leaf prefix ephX wrap
                     (omap (λ w, match w with JFr n => Some n | _ => None end) words))
      | _, _, _, _, _, _, _ => Err (Failure DISCOVERY_PROTOCOL)
      end
  | _ => Err (Failure DISCOVERY_PROTOCOL)
  end.

(** [/^0x[0-9a-fA-F]{40}$/]. *)
Fixpoint all_hex (s : string) : bool :=
  match s with EmptyString => true | String c s => match hex_value c with Some _ => all_hex s | None => false end end.
Definition is_address (s : string) : bool :=
  match s with
  | String "0" (String "x" s) => (String.length s =? 40)%nat && all_hex s
  | _ => false
  end.

(** The domain argument of the constructor, unchecked. *)
Record Domain := mkDomain { d_chainId : JsVal; d_poolAddress : JsVal; d_deploymentAnchor : JsVal }.

Section Preflight.
Context `{BabyJubjub} `{Poseidon2} {A : Type} `{Environment A} (reg : History.Registry).

(** [constructor]: the context an instance certifies. *)
Definition construct (history : Z * History.CompleteComplianceHistory) (owner : Z) (domain : option Domain) :
    result PreflightError SelfMintContext :=
  _ ← map_err Uncertified (History.assertCompleteComplianceHistory history.1 reg);
  match domain with
  | None => Err (Failure DISCOVERY_PROTOCOL)
  | Some d =>
      match d_chainId d, d_deploymentAnchor d with
      | JBig chain, JBig anchor =>
          if (chain <? 0) || (anchor <? 0) then Err (Failure DISCOVERY_PROTOCOL)
          else match d_poolAddress d with
               | JStr pool =>
                   if is_address pool
                   then Ok (mkContext owner (History.h_currentPk history.2)
                              (History.h_currentVersion history.2) history chain (toLowerCase pool) anchor)
                   else Err (Failure DISCOVERY_PROTOCOL)
               | _ => Err (Failure DISCOVERY_PROTOCOL)
               end
      | _, _ => Err (Failure DISCOVERY_PROTOCOL)
      end
  end.

(** What [take] reads and writes: the collaborators, the ledger, the handles
    and the instance's ready candidates. *)
Record State := mkState { env : A; ledger : Ledger; handles : Handles; ready : list AuthorizedSelfMintCandidate }.

Context (ctx : SelfMintContext).

Definition claim_error (c : DerivedSelfMintClaim) : option SelfMintPreflightFailure :=
  match c with
  | UNKNOWN => Some DISCOVERY_PROTOCOL
  | OWNER_MISMATCH => Some CANDIDATE_OWNER_MISMATCH
  | PROVENANCE_MISMATCH => Some CANDIDATE_PROVENANCE_MISMATCH
  | ALREADY_CLAIMED => Some CANDIDATE_ALREADY_CLAIMED
  | CLAIMED => None
  end.

Definition alloc_next : M State PreflightError Candidate := λ s,
  let '((a, l), c) := next (env s, ledger s) in
  (mkState a l (handles s) (ready s), match c with Some c => Ok c | None => Err Allocator_failed end).
Definition claim (c : Candidate) : M State PreflightError unit := λ s,
  let '(l, r) := claimDerivedSelfMintCandidate c (ownerCommitment ctx) (ledger s) in
  (mkState (env s) l (handles s) (ready s),
   match claim_error r with Some f => Err (Failure f) | None => Ok tt end).

(** The checks of a claimed candidate. *)
Definition check_candidate (c : Candidate) : result PreflightError AuthorizedSelfMintCandidate :=
  match reflect_get c "eph", reflect_get c "tag", reflect_get c "ephPub" with
  | JFr eph, JFr tag, JArr [JBig px; JBig py] =>
      let ephPub := Keys.Keys.publicKey eph in
      if negb (px =? ephPub.1) || negb (py =? ephPub.2) then Err (Failure DISCOVERY_PROTOCOL)
      else
        t ← map_err (λ _, Bad_field ephPub.1) (newFr ephPub.1);
        if negb (tag =? t) then Err (Failure DISCOVERY_PROTOCOL)
        else match reflect_get c "index" with
             | JNum index =>
                 if negb (isSafeInteger index) || (index <? 0) then Err (Failure DISCOVERY_PROTOCOL)
                 else Ok (mkAuthorized eph ephPub t index)
             | _ => Err (Failure DISCOVERY_PROTOCOL)
             end
  | _, _, _ => Err (Failure DISCOVERY_PROTOCOL)
  end.

Fixpoint allocate (count : nat) : M State PreflightError (list AuthorizedSelfMintCandidate) :=
  match count with
  | O => mret []
  | S count =>
      c ← alloc_next;
      _ ← claim c;
      a ← lift (λ e, e) (check_candidate c);
      rest ← allocate count;
      mret (a :: rest)
  end.

(** The answers of the service, checked against the tags asked for. *)
Fixpoint check_entries (requested : gset Z) (raw : list JsVal) (returned : gmap Z HowlNoteRecord) :
    result PreflightError (gmap Z HowlNoteRecord) :=
  match raw with
  | [] => Ok returned
  | JObj f :: raw =>
      match get_field f "tag", get_field f "occurrenceCount" with
      | JFr tag, JNum count =>
          if negb (isSafeInteger count) || (count <? 0) then Err (Failure DISCOVERY_PROTOCOL)
          else if decide (tag ∈ requested ∧ returned !! tag = None) then
            record ← validatedRecord (get_field f "record");
            check_entries requested raw (<[tag := record]> returned)
          else Err (Failure DISCOVERY_PROTOCOL)
      | _, _ => Err (Failure DISCOVERY_PROTOCOL)
      end
  | _ :: _ => Err (Failure DISCOVERY_PROTOCOL)
  end.

Definition push (c : AuthorizedSelfMintCandidate) : M State PreflightError unit :=
  modify (λ s, mkState (env s) (ledger s) (handles s) (ready s ++ [c])).
Fixpoint classify_loop (candidates : list AuthorizedSelfMintCandidate) (returned : gmap Z HowlNoteRecord) :
    M State PreflightError unit :=
  match candidates with
  | [] => mret tt
  | c :: candidates =>
      match returned !! a_tag c with
      | None => throw (Failure DISCOVERY_PROTOCOL)
      | Some record =>
          occupied ← lift Uncertified (Occupied.opensExistingSelfRecord reg (complianceHistory ctx).1
            (complianceHistory ctx).2 (a_eph c) (Some record) (ownerCommitment ctx));
          _ ← (if negb occupied then push c else mret tt);
          classify_loop candidates returned
      end
  end.
Definition probe (tags : list Z) : M State PreflightError JsVal := λ s,
  let '(a, r) := probeFirst tags (env s) in
  (mkState a (ledger s) (handles s) (ready s),
   match r with Some v => Ok v | None => Err (Failure DISCOVERY_UNAVAILABLE) end).
Definition classify (candidates : list AuthorizedSelfMintCandidate) : M State PreflightError unit :=
  let requestedTags := a_tag <$> candidates in
  rawResponse ← probe requestedTags;
  match rawResponse with
  | JArr raw =>
      if negb (length raw =? length candidates)%nat then throw (Failure DISCOVERY_PROTOCOL)
      else if decide (NoDup requestedTags) then
        returned ← lift (λ e, e) (check_entries (list_to_set requestedTags) raw ∅);
        classify_loop candidates returned
      else throw (Failure DISCOVERY_PROTOCOL)
  | _ => throw (Failure DISCOVERY_PROTOCOL)
  end.

Definition issue (c : AuthorizedSelfMintCandidate) : M State PreflightError Z := λ s,
  let '(h, r) := issueAuthorization reg c ctx (handles s) in
  (mkState (env s) (ledger s) h (ready s), map_err Uncertified r).
Fixpoint issue_all (cs : list AuthorizedSelfMintCandidate) : M State PreflightError (list Z) :=
  match cs with [] => mret [] | c :: cs => h ← issue c; hs ← issue_all cs; mret (h :: hs) end.

(** [while (this.#ready.length < count)]. *)
Fixpoint take_loop (rounds : nat) (count tested : nat) : M State PreflightError unit :=
  s ← get;
  if (count <=? length (ready s))%nat then mret tt
  else
    match rounds with
    | O => throw Out_of_rounds
    | S rounds =>
        let remaining := (MAX_PREFLIGHT_CANDIDATES - tested)%nat in
        if (remaining =? 0)%nat then throw (Failure CANDIDATES_EXHAUSTED)
        else
          batch ← allocate (Nat.min PREFLIGHT_COLLISION_BATCH_SIZE remaining);
          _ ← classify batch;
          take_loop rounds count (tested + length batch)
    end.

Definition first_batch (count : nat) : M State PreflightError nat :=
  s ← get;
  if (length (ready s) <? count)%nat then
    initial ← allocate (count - length (ready s)); _ ← classify initial; mret (length initial)
  else mret 0%nat.

(** [ready.splice(0, count)]. *)
Definition splice (count : nat) : M State PreflightError (list AuthorizedSelfMintCandidate) :=
  s ← get;
  _ ← modify (λ s, mkState (env s) (ledger s) (handles s) (drop count (ready s)));
  mret (firstn count (ready s)).

(** Calls of one instance run one after the other ([#takeTail]); [count] is the
    argument, an integer. *)
Definition take (count : Z) : M State PreflightError (list Z) :=
  if negb (count =? 1) && negb (count =? 2) then throw (Failure INVALID_COUNT)
  else
    let count := Z.to_nat count in
    tested ← first_batch count;
    _ ← take_loop (S MAX_PREFLIGHT_CANDIDATES) count tested;
    cs ← splice count;
    issue_all cs.

(** *** What a candidate that is ready has passed *)
Definition consistent (c : AuthorizedSelfMintCandidate) : Prop :=
  a_ephPub c = Keys.Keys.publicKey (a_eph c) ∧ newFr (a_ephPub c).1 = Ok (a_tag c) ∧
  isSafeInteger (a_index c) = true ∧ 0 <= a_index c.
(** The service answered the tag with a row that no epoch opens for the owner. *)
Definition answered_free (c : AuthorizedSelfMintCandidate) : Prop :=
  ∃ tags a a' raw f r, probeFirst tags a = (a', Some (JArr raw)) ∧ a_tag c ∈ tags ∧ JObj f ∈ raw ∧
    get_field f "tag" = JFr (a_tag c) ∧ validatedRecord (get_field f "record") = Ok r ∧
    Occupied.opensExistingSelfRecord reg (complianceHistory ctx).1 (complianceHistory ctx).2 (a_eph c)
      (Some r) (ownerCommitment ctx) = Ok false.
Definition good (c : AuthorizedSelfMintCandidate) : Prop := consistent c ∧ answered_free c.

Lemma check_candidate_spec c a : check_candidate c = Ok a →
  consistent a ∧ reflect_get c "index" = JNum (a_index a).
Proof.
  unfold check_candidate. destruct (reflect_get c "eph"); try done.
  destruct (reflect_get c "tag") as [| | | | | |tag| | |]; try done.
  destruct (reflect_get c "ephPub") as [| | | | | | | |[|[] [|[] []]]|]; try done.
  case_match; [done|]. intros (t & Ht & H')%bind_Ok. case_match; [done|].
  destruct (reflect_get c "index") as [| |i| | | | | | |]; try done.
  destruct (negb (isSafeInteger i) || (i <? 0)) eqn:Hi; [done|]. injection H' as <-.
  apply orb_false_iff in Hi as [?%negb_false_iff ?%Z.ltb_ge].
  unfold map_err in Ht. case_match; [|done]. injection Ht as <-. by split.
Qed.

Lemma check_entries_spec requested raw returned returned' : check_entries requested raw returned = Ok returned' →
  ∀ t r, returned' !! t = Some r → returned !! t = Some r ∨
    t ∈ requested ∧ ∃ f, JObj f ∈ raw ∧ get_field f "tag" = JFr t ∧ validatedRecord (get_field f "record") = Ok r.
Proof.
  revert returned. induction raw as [|v raw IH]; intros returned; cbn [check_entries].
  { intros [= <-]. by left. }
  destruct v as [| | | | | | | | |f]; try done.
  destruct (get_field f "tag") as [| | | | | |tag| | |] eqn:Htag; try done.
  destruct (get_field f "occurrenceCount"); try done. case_match; [done|].
  destruct (decide _) as [[Hreq Hnew]|]; [|done]. intros (r0 & Hr0 & Hrest)%bind_Ok t r Ht.
  destruct (IH _ Hrest t r Ht) as [[[<- <-]|[_ ?]]%lookup_insert_Some|(? & f' & Hf' & ?)].
  - right. split; [done|]. exists f. split; [left|done].
  - by left.
  - right. split; [done|]. exists f'. split; [by right|done].
Qed.

(** *** The shape of a search: lengths, readiness, handles left alone *)
Definition quiet (h : Handles) (s : State) : Prop := handles s = h ∧ Forall good (ready s).
Definition failed (h : Handles) (e : PreflightError) (s : State) : Prop := e ≠ Out_of_rounds ∧ quiet h s.

Lemma alloc_next_quiet h : hoare (quiet h) alloc_next (λ _, quiet h) (failed h).
Proof. intros s [Hh Hr]. unfold alloc_next. repeat case_match; simplify_eq; by repeat split. Qed.
Lemma claim_quiet h c : hoare (quiet h) (claim c) (λ _, quiet h) (failed h).
Proof. intros s [Hh Hr]. unfold claim. repeat case_match; simplify_eq; by repeat split. Qed.
Lemma check_candidate_errors c : check_candidate c ≠ Err Out_of_rounds.
Proof.
  unfold check_candidate, map_err, mbind, result_bind. repeat (case_match; try done); congruence.
Qed.
Lemma validatedRecord_errors v : validatedRecord v ≠ Err Out_of_rounds.
Proof. unfold validatedRecord. by repeat case_match. Qed.
Lemma check_entries_errors requested raw returned : check_entries requested raw returned ≠ Err Out_of_rounds.
Proof.
  revert returned. induction raw as [|v raw IH]; intros returned; cbn [check_entries]; [done|].
  repeat (case_match; try done). pose proof (validatedRecord_errors (get_field fields "record")).
  unfold mbind, result_bind. case_match; [apply IH|congruence].
Qed.

Lemma allocate_quiet h count : hoare (quiet h) (allocate count)
  (λ l s, quiet h s ∧ length l = count ∧ Forall consistent l) (failed h).
Proof.
  induction count as [|count IH]; cbn [allocate]; [by apply hoare_ret|].
  eapply hoare_bind; [apply alloc_next_quiet|]. intros c.
  eapply hoare_bind; [apply claim_quiet|]. intros [].
  eapply (hoare_bind _ (λ a s, quiet h s ∧ consistent a)).
  { apply hoare_lift. intros s Hs. pose proof (check_candidate_errors c).
    destruct (check_candidate c) as [a|e] eqn:E; [|by split; [congruence|]].
    split; [done|]. by apply check_candidate_spec in E as []. }
  intros a s [Hs Ha]. specialize (IH s Hs). unfold mbind, M_bind. destruct (allocate count s) as [s' [l|e]]; [|done].
  destruct IH as (? & <- & ?). cbn. split_and!; [done|done|by constructor].
Qed.

(** The rows of one answer of the service. *)
Definition answered (returned : gmap Z HowlNoteRecord) : Prop :=
  ∀ t r, returned !! t = Some r → ∃ tags a a' raw f, probeFirst tags a = (a', Some (JArr raw)) ∧ t ∈ tags ∧
    JObj f ∈ raw ∧ get_field f "tag" = JFr t ∧ validatedRecord (get_field f "record") = Ok r.

Lemma classify_loop_quiet h cs returned : Forall consistent cs → answered returned →
  hoare (quiet h) (classify_loop cs returned) (λ _, quiet h) (failed h).
Proof.
  intros Hcs Hret. induction Hcs as [|c cs Hc _ IH]; cbn [classify_loop]; [by apply hoare_ret|].
  destruct (returned !! a_tag c) as [r|] eqn:Hr; [|by apply hoare_throw].
  eapply (hoare_bind _ (λ occ s, quiet h s ∧ (occ = false → good c))).
  { apply hoare_lift. intros s Hs. destruct (Occupied.opensExistingSelfRecord _ _ _ _ _ _) as [occ|] eqn:Ho; [|done].
    split; [done|]. intros ->. split; [done|].
    destruct (Hret _ _ Hr) as (tags & a & a' & raw & f & ?). exists tags, a, a', raw, f, r. naive_solver. }
  intros occ. eapply (hoare_bind _ (λ _, quiet h)); [|intros []; exact IH].
  destruct occ; [by apply hoare_ret; intros s []|]. apply hoare_modify. intros s [[Hh Hf] Hg].
  split; [done|]. apply Forall_app_2; [done|]. constructor; auto.
Qed.

Lemma classify_quiet h cs : Forall consistent cs → hoare (quiet h) (classify cs) (λ _, quiet h) (failed h).
Proof.
  intros Hcs. unfold classify.
  eapply (hoare_bind _ (λ v s, quiet h s ∧ ∃ a a', probeFirst (a_tag <$> cs) a = (a', Some v))).
  { intros s [Hh Hr]. unfold probe. destruct (probeFirst _ _) as [a' [v|]] eqn:Hp; [|by repeat split].
    split; [by split|eauto]. }
  intros v. destruct v as [| | | | | | | |raw|]; try (apply hoare_throw; by intros ? []).
  case_match; [apply hoare_throw; by intros ? []|].
  destruct (decide _); [|apply hoare_throw; by intros ? []].
  eapply (hoare_bind _ (λ ret s, quiet h s ∧ answered ret)).
  { apply hoare_lift. intros s [Hs (a & a' & Hp)].
    pose proof (check_entries_errors (list_to_set (a_tag <$> cs)) raw ∅).
    destruct (check_entries _ _ _) as [ret|] eqn:He; [|by split; [congruence|]]. split; [done|].
    intros t r Ht. destruct (check_entries_spec _ _ _ _ He t r Ht) as [|(Hin & f & ?)]; [done|].
    exists (a_tag <$> cs), a, a', raw, f. set_solver. }
  intros ret s [Hs Hret]. by apply (classify_loop_quiet h).
Qed.

(** The candidates tested never exceed the limit, and each round tests one at
    least, so the rounds suffice. *)
Lemma take_loop_quiet h rounds count tested : (tested ≤ MAX_PREFLIGHT_CANDIDATES)%nat →
  (MAX_PREFLIGHT_CANDIDATES < tested + rounds)%nat →
  hoare (quiet h) (take_loop rounds count tested) (λ _ s, quiet h s ∧ (count ≤ length (ready s))%nat) (failed h).
Proof.
  revert tested. induction rounds as [|rounds IH]; intros tested Hmax Hrounds; [lia|]. cbn [take_loop].
  apply hoare_get. intros s0 Hs0. destruct (Nat.leb_spec count (length (ready s0))) as [Hle|Hgt].
  { apply hoare_ret. intros ? ->. by split. }
  destruct (Nat.eqb_spec (MAX_PREFLIGHT_CANDIDATES - tested) 0); [apply hoare_throw; intros ? ->; by split|].
  apply (hoare_at (quiet h)); [done|].
  eapply hoare_bind; [apply allocate_quiet|]. intros l s (Hs & Hl & Hall).
  refine (hoare_bind _ (λ _, quiet h) _ _ _ _ (classify_quiet h l Hall) _ s Hs). intros [].
  apply IH; unfold PREFLIGHT_COLLISION_BATCH_SIZE in *; lia.
Qed.
Lemma first_batch_quiet h count :
  hoare (quiet h) (first_batch count) (λ tested s, quiet h s ∧ (tested ≤ count)%nat) (failed h).
Proof.
  unfold first_batch. apply hoare_get. intros s0 Hs0. case_match; [|apply hoare_ret; intros ? ->; split; [done|lia]].
  apply (hoare_at (quiet h)); [done|].
  eapply hoare_bind; [apply allocate_quiet|]. intros l s (Hs & Hl & Hall).
  refine (hoare_bind _ (λ _, quiet h) _ _ _ _ (classify_quiet h l Hall) _ s Hs). intros [].
  apply hoare_ret. intros s' Hs'. split; [done|lia].
Qed.

(** *** Handles issued *)
Definition issue_one (k : CertifiedContext) (h : Handles) (c : AuthorizedSelfMintCandidate) : Handles :=
  mkHandles (next_handle h + 1) (<[next_handle h := mkAuthState c k false]> (authorizationStates h)).
Definition issued (k : CertifiedContext) (cs : list AuthorizedSelfMintCandidate) (h : Handles) : Handles :=
  foldl (issue_one k) h cs.

Lemma issue_spec c s : issue c s =
  match certify reg ctx with
  | Err e => (s, Err (Uncertified e))
  | Ok k => (mkState (env s) (ledger s) (issue_one k (handles s) c) (ready s), Ok (next_handle (handles s)))
  end.
Proof. unfold issue, issueAuthorization. destruct s as [a l h r], (certify reg ctx); reflexivity. Qed.
Lemma issue_all_spec cs s : cs ≠ [] →
  issue_all cs s =
  match certify reg ctx with
  | Err e => (s, Err (Uncertified e))
  | Ok k => (mkState (env s) (ledger s) (issued k cs (handles s)) (ready s),
             Ok (seqZ (next_handle (handles s)) (Z.of_nat (length cs))))
  end.
Proof.
  assert (Hstep : ∀ c cs s, issue_all (c :: cs) s = (h ← issue c; hs ← issue_all cs; mret (h :: hs)) s) by done.
  destruct (certify reg ctx) as [k|e] eqn:Hk.
  - intros _. revert s. induction cs as [|c cs IH]; intros s; [by destruct s|].
    rewrite Hstep. unfold mbind, M_bind. rewrite issue_spec, Hk, IH. cbn.
    by rewrite (seqZ_cons _ (Z.of_nat (S _))), Nat2Z.inj_succ, Z.pred_succ by lia.
  - destruct cs as [|c cs]; [done|]. intros _. rewrite Hstep. unfold mbind, M_bind. by rewrite issue_spec, Hk.
Qed.
(** The states of the handles issued, and the other states left alone. *)
Lemma issued_spec k cs h :
  next_handle (issued k cs h) = next_handle h + Z.of_nat (length cs) ∧
  (∀ ref, ref < next_handle h → authorizationStates (issued k cs h) !! ref = authorizationStates h !! ref) ∧
  ∀ i c, cs !! i = Some c →
    authorizationStates (issued k cs h) !! (next_handle h + Z.of_nat i) = Some (mkAuthState c k false).
Proof.
  revert h. induction cs as [|c cs IH]; intros h; [split_and!; try done; cbn; lia|].
  change (issued k (c :: cs) h) with (issued k cs (issue_one k h c)).
  destruct (IH (issue_one k h c)) as (En & Eo & Ec). cbn [issue_one next_handle authorizationStates] in *.
  split_and!.
  - rewrite En. cbn [length]. lia.
  - intros ref Href. rewrite Eo by lia. rewrite lookup_insert_ne; [done|lia].
  - intros [|i] c'; cbn [lookup list_lookup].
    + intros [= ->]. rewrite Z.add_0_r, Eo by lia. by rewrite lookup_insert_eq.
    + intros Hi. rewrite <- (Ec i c' Hi). f_equal. lia.
Qed.

(** The search of [take], before the handles are issued. *)
Definition search (count : nat) : M State PreflightError (list AuthorizedSelfMintCandidate) :=
  tested ← first_batch count; _ ← take_loop (S MAX_PREFLIGHT_CANDIDATES) count tested; splice count.
Lemma take_search count s : count = 1 ∨ count = 2 →
  take count s = (cs ← search (Z.to_nat count); issue_all cs) s.
Proof.
  unfold take, search, mbind, M_bind. intros [-> | ->]; cbn [Z.eqb Pos.eqb negb andb];
    destruct (first_batch _ s) as [s1 []]; try done; by destruct (take_loop _ _ _ s1) as [? []].
Qed.
Lemma search_quiet h count : (count ≤ MAX_PREFLIGHT_CANDIDATES)%nat →
  hoare (quiet h) (search count) (λ cs s, quiet h s ∧ length cs = count ∧ Forall good cs) (failed h).
Proof.
  intros Hcount. unfold search. eapply hoare_bind; [apply first_batch_quiet|]. intros tested s [Hs Htested].
  refine (hoare_bind _ (λ _ s, quiet h s ∧ (count ≤ length (ready s))%nat) _ _ _ _ _ _ s Hs).
  { apply take_loop_quiet; lia. }
  intros []. unfold splice. apply hoare_get. intros s0 [[Hh Hg] Hlen].
  eapply (hoare_bind _ (λ _, quiet h)).
  { apply hoare_modify. intros ? ->. split; [done|]. by apply Forall_drop. }
  intros []. apply hoare_ret. intros s' Hs'. split; [done|].
  rewrite length_firstn. split; [lia|by apply Forall_take].
Qed.

(** C28. What [take] promises.  It ends, whatever the allocator and the discovery
    service answer: the search never outruns its rounds.  When it fails no handle
    is issued.  When it succeeds it was asked for one or two, and returns that
    many new handles, consecutive, each of an unspent candidate certified for the
    instance's context whose point and tag are those of its scalar, and whose tag
    the service answered with a row that no epoch of the history opens for the
    owner; the handles issued before are as they were. *)
Theorem take_authorizes count s : Forall good (ready s) →
  match take count s with
  | (s', Err e) => e ≠ Out_of_rounds ∧ handles s' = handles s ∧ Forall good (ready s')
  | (s', Ok hs) =>
      let n := next_handle (handles s) in
      (count = 1 ∨ count = 2) ∧ hs = seqZ n count ∧ next_handle (handles s') = n + count ∧
      Forall good (ready s') ∧
      (∀ h, h < n → authorizationStates (handles s') !! h = authorizationStates (handles s) !! h) ∧
      ∃ k, certify reg ctx = Ok k ∧ ∀ h, h ∈ hs → ∃ c, good c ∧
        authorizationStates (handles s') !! h = Some (mkAuthState c k false)
  end.
Proof.
  intros Hgood. destruct (decide (count = 1 ∨ count = 2)) as [Hc|Hc].
  2: { unfold take. destruct (negb _ && negb _) eqn:E; [by split_and!|]. apply andb_false_iff in E.
       rewrite !negb_false_iff, !Z.eqb_eq in E. tauto. }
  rewrite take_search by done. unfold mbind, M_bind.
  pose proof (search_quiet (handles s) (Z.to_nat count) ltac:(unfold MAX_PREFLIGHT_CANDIDATES; lia) s
                (conj eq_refl Hgood)) as Hq.
  destruct (search _ s) as [s1 [cs|e]]; [|destruct Hq as [? []]; by split_and!].
  destruct Hq as ([Eh Hr] & Hlen & Hcs). rewrite issue_all_spec by (destruct cs; [cbn in Hlen; lia|done]).
  destruct (certify reg ctx) as [k|e] eqn:Hk; [|by split_and!].
  destruct (issued_spec k cs (handles s1)) as (En & Eo & Ec). cbn [handles ready].
  rewrite Eh, Hlen, Z2Nat.id in * by lia. split_and!; try done.
  exists k. split; [done|]. intros h Hh%elem_of_seqZ.
  destruct (lookup_lt_is_Some_2 cs (Z.to_nat (h - next_handle (handles s)))) as [c Hi]; [lia|].
  exists c. split; [by eapply Forall_lookup_1|]. rewrite <- (Ec _ _ Hi). f_equal. lia.
Qed.
End Preflight.
End Preflight.
