(* ===== verification/SelfMint.v ===== *)
(** * One-shot use of self ephemerals
    ([packages/sdk/src/discovery/preflight.ts] with
    [packages/sdk/src/state/KeyRepository.ts])

    Several preflights of one wallet, the consumption of their handles, and the
    other operations of the wallet, interleaved: [Step] is the relation of one
    completed call.  [AllocatorLaws] is what the preflight needs of an allocator;
    [Wallet] shows that the key repository, restarts and restores included, has
    it. *)
From S2P Require Import Prelude Bytes Tss Keys Trace Mint State Keyring Discovery Preflight.
Local Open Scope Z_scope.

Import Preflight.Provenance Preflight.Authorization Preflight.Preflight.
Notation Ledger := (gmap Z DerivedSelfMintProvenance).
Notation Held := AuthorizedSelfMintCandidate.

(** What an allocator promises: the ledger only grows, and no two of its entries
    have one owner and one index.  [evolves] is what else may happen to the
    collaborators between two calls. *)
Class AllocatorLaws (A : Type) `{Environment A} := {
  env_ok : A → Ledger → Prop;
  evolves : A * Ledger → A * Ledger → Prop;
  next_ok a l a' l' c : env_ok a l → next (a, l) = ((a', l'), c) → env_ok a' l' ∧ l ⊆ l';
  probe_ok a l a' tags r : env_ok a l → probeFirst tags a = (a', r) → env_ok a' l;
  claim_ok a l c o : env_ok a l → env_ok a (claimDerivedSelfMintCandidate c o l).1;
  evolves_ok a l a' l' : env_ok a l → evolves (a, l) (a', l') → env_ok a' l' ∧ l ⊆ l';
  env_distinct a l r r' p p' : env_ok a l → l !! r = Some p → l !! r' = Some p' →
    p_owner p = p_owner p' → p_index p = p_index p' → r = r';
}.

Module OneShot.
Section OneShot.
Context `{BabyJubjub} `{Poseidon2} {A : Type} `{AllocatorLaws A} (owner : Z).

(** ** The invariant *)
(** A candidate comes from a claimed entry of the ledger. *)
Definition backed (l : Ledger) (c : Held) : Prop :=
  ∃ r p, l !! r = Some p ∧ p_owner p = owner ∧ p_index p = a_index c ∧ p_eph p = a_eph c ∧ claimed p = true.
(** The candidates that can still be used, with those of [F]. *)
Definition pool (F : list Held) (s : State (A := A)) : list Held :=
  unconsumed (authorizationStates (handles s)) ++ ready s ++ F.
Definition fresh_handles (h : Handles) : Prop :=
  ∀ ref, next_handle h <= ref → authorizationStates h !! ref = None.
Record inv (F : list Held) (s : State (A := A)) : Prop := {
  inv_env : env_ok (env s) (ledger s);
  inv_backed : Forall (backed (ledger s)) (pool F s);
  inv_distinct : NoDup (a_index <$> pool F s);
  inv_fresh : fresh_handles (handles s);
}.

Lemma backed_mono l l' c : l ⊆ l' → backed l c → backed l' c.
Proof. intros Hl (r & p & ? & ?). exists r, p. split; [by eapply lookup_weaken|done]. Qed.

(** A state that holds no more than another, with a ledger that only grew. *)
Lemma inv_shrink F F' s s' : inv F s → env_ok (env s') (ledger s') →
  (∀ c, backed (ledger s) c → backed (ledger s') c) → fresh_handles (handles s') →
  pool F' s' ⊆+ pool F s → inv F' s'.
Proof.
  intros [_ Hb Hd _] Henv Hl Hf (k & Hk)%submseteq_Permutation. split; [done| | |done].
  - apply (Forall_impl _ _ _ Hb) in Hl. rewrite Hk in Hl. by apply Forall_app in Hl as [].
  - rewrite Hk, fmap_app in Hd. by apply NoDup_app in Hd as [].
Qed.
Lemma inv_pool F F' s s' : inv F s → env s' = env s → ledger s' = ledger s →
  fresh_handles (handles s') → pool F' s' ⊆+ pool F s → inv F' s'.
Proof. intros Hi Ea El. apply (inv_shrink F); [done| |]; rewrite ?Ea, ?El; [apply Hi|done]. Qed.
Lemma inv_weaken F F' s : inv F s → F' ⊆+ F → inv F' s.
Proof.
  intros Hi HF. apply (inv_pool F F' s s); [done|done|done|apply Hi|]. unfold pool.
  apply submseteq_app; [done|]. by apply submseteq_app.
Qed.

(** ** The operations of a preflight *)
Context (reg : History.Registry) (ctx : SelfMintContext) (Howner : ownerCommitment ctx = owner).

Lemma alloc_next_inv F : hoare (inv F) alloc_next (λ _, inv F) (λ _, inv F).
Proof.
  intros s Hs. unfold alloc_next. destruct (next _) as [[a l] c] eqn:E.
  destruct (next_ok _ _ _ _ _ (inv_env _ _ Hs) E) as [Henv Hl].
  assert (inv F (mkState a l (handles s) (ready s))).
  { apply (inv_shrink F F s); [done|done| |apply Hs|done]. intros c0. by apply backed_mono. }
  by destruct c.
Qed.

Lemma fields_match_spec c p : fields_match c p = true →
  reflect_get c "eph" = JFr (p_eph p) ∧ reflect_get c "index" = JNum (p_index p).
Proof.
  unfold fields_match. destruct (reflect_get c "eph") as [| | | | | |e| | |]; try done.
  destruct (reflect_get c "tag"); try done. destruct (reflect_get c "ephPub"); try done.
  destruct (optionalBigInt c "memberId"), (optionalBigInt c "j"); try done. rewrite !andb_true_iff.
  intros ((((((->%Z.eqb_eq & _) & _) & _) & Hi) & _) & _). split; [done|].
  unfold is_num in Hi. destruct (reflect_get c "index"); try done. by apply Z.eqb_eq in Hi as ->.
Qed.

(** A claimed object can back one candidate more. *)
Lemma claim_inv F c : hoare (inv F) (claim ctx c)
  (λ _ s, ∃ e i, reflect_get c "eph" = JFr e ∧ reflect_get c "index" = JNum i ∧
     ∀ a, a_eph a = e → a_index a = i → inv (a :: F) s) (λ _, inv F).
Proof.
  intros s Hs. unfold claim. pose proof (claim_ok _ _ c (ownerCommitment ctx) (inv_env _ _ Hs)) as Hok.
  unfold claimDerivedSelfMintCandidate in *. destruct s as [a l h r]. cbn [env ledger handles ready] in *.
  destruct (l !! c_ref c) as [p|] eqn:Hp; [|exact Hs]. destruct (Z.eqb_spec (p_owner p) (ownerCommitment ctx)) as [Ho|];
    [|exact Hs]. cbn [negb] in *. destruct (fields_match c p) eqn:Hm; [|exact Hs]. cbn [negb] in *.
  destruct (claimed p) eqn:Hc; [exact Hs|]. cbn [fst claim_error] in *.
  destruct (fields_match_spec _ _ Hm) as [He Hi]. exists (p_eph p), (p_index p). split_and!; [done|done|].
  intros a0 Ee Ei. destruct Hs as [Henv Hb Hd Hf]. cbn [env ledger handles ready] in *. rewrite Forall_forall in Hb.
  assert (Hpool : ∀ s, pool (a0 :: F) s ≡ₚ a0 :: pool F s).
  { intros s. unfold pool. by rewrite <- !Permutation_middle. }
  split; [done| | |done]; rewrite Hpool.
  - constructor.
    + eexists (c_ref c), _. cbn [ledger]. rewrite lookup_insert_eq. split; [done|]. cbn. split_and!; congruence.
    + apply Forall_forall. intros c' Hc'. destruct (Hb c' Hc') as (r' & p' & Hr' & Hp'). exists r', p'.
      split; [|done]. cbn [ledger]. rewrite lookup_insert_ne; [done|]. intros <-.
      rewrite Hp in Hr'. injection Hr' as <-. naive_solver congruence.
  - rewrite fmap_cons. constructor; [|done]. intros (c' & Ec & Hc')%list_elem_of_fmap.
    destruct (Hb c' Hc') as (r' & p' & Hr' & Ho' & Hi' & _ & Hcl). 
    assert (c_ref c = r') as <- by (eapply (env_distinct a l); eauto; congruence).
    congruence.
Qed.

Lemma check_candidate_scalar c e a : reflect_get c "eph" = JFr e → check_candidate c = Ok a → a_eph a = e.
Proof.
  unfold check_candidate. intros ->. destruct (reflect_get c "tag") as [| | | | | |tag| | |]; try done.
  destruct (reflect_get c "ephPub") as [| | | | | | | |[|[] [|[] []]]|]; try done.
  case_match; [done|]. intros (t & _ & Ha)%bind_Ok. repeat (case_match; try done). by injection Ha as <-.
Qed.

Lemma allocate_inv F n : hoare (inv F) (allocate ctx n) (λ l, inv (l ++ F)) (λ _, inv F).
Proof.
  revert F. induction n as [|n IH]; intros F; cbn [allocate]; [by apply hoare_ret|].
  eapply hoare_bind; [apply alloc_next_inv|]. intros c. eapply hoare_bind; [apply claim_inv|]. intros [].
  eapply (hoare_bind _ (λ a, inv (a :: F))).
  { apply hoare_lift. intros s (e & i & He & Hi & Hall). destruct (check_candidate c) as [a|] eqn:Ha.
    - apply Hall; [by eapply check_candidate_scalar|]. apply check_candidate_spec in Ha as [_ Ha]. congruence.
    - apply (inv_weaken (mkAuthorized e (0, 0) 0 i :: F)); [by apply Hall|by apply submseteq_cons]. }
  intros a. eapply (hoare_bind _ (λ l, inv (l ++ a :: F))).
  { eapply hoare_conseq; [apply IH|done|done|]. intros ? s Hs.
    apply (inv_weaken (a :: F)); [done|by apply submseteq_cons]. }
  intros l. apply hoare_ret. intros s Hs. apply (inv_weaken (l ++ a :: F)); [done|].
  cbn [app]. by rewrite <- Permutation_middle.
Qed.

Lemma classify_loop_inv F cs returned :
  hoare (inv (cs ++ F)) (classify_loop reg ctx cs returned) (λ _, inv F) (λ _, inv F).
Proof.
  induction cs as [|c cs IH]; cbn [classify_loop app]; [by apply hoare_ret|].
  assert (Hdrop : ∀ s, inv (c :: cs ++ F) s → inv (cs ++ F) s).
  { intros s Hs. apply (inv_weaken (c :: cs ++ F)); [done|by apply submseteq_cons]. }
  assert (Hall : ∀ s, inv (c :: cs ++ F) s → inv F s).
  { intros s Hs%Hdrop. apply (inv_weaken (cs ++ F)); [done|by apply submseteq_inserts_l]. }
  destruct (returned !! a_tag c); [|by apply hoare_throw].
  eapply (hoare_bind _ (λ _, inv (c :: cs ++ F))).
  { apply hoare_lift. intros s Hs. destruct (Occupied.opensExistingSelfRecord _ _ _ _ _ _); auto. }
  intros occ. eapply (hoare_bind _ (λ _, inv (cs ++ F))); [|intros []; exact IH].
  destruct occ; cbn [negb]; [by apply hoare_ret|]. apply hoare_modify. intros s Hs.
  apply (inv_pool (c :: cs ++ F) _ s); try done; [apply Hs|]. unfold pool. cbn [handles ready].
  by rewrite <- (assoc_L (++)).
Qed.
Lemma probe_inv F tags : hoare (inv F) (probe tags) (λ _, inv F) (λ _, inv F).
Proof.
  intros s Hs. unfold probe. destruct (probeFirst tags (env s)) as [a r] eqn:E.
  assert (inv F (mkState a (ledger s) (handles s) (ready s))).
  { apply (inv_shrink F F s); [done| |done|apply Hs|done]. eapply probe_ok; [apply Hs|done]. }
  by destruct r.
Qed.
Lemma classify_inv F cs : hoare (inv (cs ++ F)) (classify reg ctx cs) (λ _, inv F) (λ _, inv F).
Proof.
  assert (Hall : ∀ s, inv (cs ++ F) s → inv F s).
  { intros s Hs. apply (inv_weaken (cs ++ F)); [done|by apply submseteq_inserts_l]. }
  unfold classify. eapply (hoare_bind _ (λ _, inv (cs ++ F))).
  { eapply hoare_conseq; [apply (probe_inv (cs ++ F))|done|done|by intros ? s Hs; apply Hall]. }
  intros v. destruct v as [| | | | | | | |raw|]; try by apply hoare_throw.
  case_match; [by apply hoare_throw|]. destruct (decide _); [|by apply hoare_throw].
  eapply (hoare_bind _ (λ _, inv (cs ++ F))); [|intros; apply classify_loop_inv].
  apply hoare_lift. intros s Hs. destruct (check_entries _ _ _); auto.
Qed.

Lemma batch_inv {B} F n (k : list Held → M State PreflightError B) (Q : B → State → Prop) :
  (∀ batch, hoare (inv F) (k batch) Q (λ _, inv F)) →
  hoare (inv F) (batch ← allocate ctx n; _ ← classify reg ctx batch; k batch) Q (λ _, inv F).
Proof.
  intros Hk. eapply hoare_bind; [apply allocate_inv|]. intros batch.
  eapply hoare_bind; [apply classify_inv|]. intros []. apply Hk.
Qed.
Lemma take_loop_inv F rounds count tested :
  hoare (inv F) (take_loop reg ctx rounds count tested) (λ _, inv F) (λ _, inv F).
Proof.
  revert tested. induction rounds as [|rounds IH]; intros tested; cbn [take_loop];
    apply hoare_get; intros s0 Hs0; case_match; try (apply hoare_ret; by intros ? ->).
  - apply hoare_throw. by intros ? ->.
  - case_match; [apply hoare_throw; by intros ? ->|]. apply (hoare_at (inv F)); [done|]. apply batch_inv. auto.
Qed.
Lemma search_inv F count : hoare (inv F) (search reg ctx count) (λ cs, inv (cs ++ F)) (λ _, inv F).
Proof.
  unfold search. eapply (hoare_bind _ (λ _, inv F)).
  { unfold first_batch. apply hoare_get. intros s0 Hs0. apply (hoare_at (inv F)); [done|].
    case_match; [|by apply hoare_ret]. apply batch_inv. intros. by apply hoare_ret. }
  intros tested. eapply hoare_bind; [apply take_loop_inv|]. intros [].
  unfold splice. apply hoare_get. intros s0 Hs0. eapply (hoare_bind _ (λ _, inv (firstn count (ready s0) ++ F))).
  - apply hoare_modify. intros ? ->. apply (inv_pool F _ s0); try done; [apply Hs0|].
    unfold pool. cbn [handles ready]. apply submseteq_app; [done|].
    rewrite (assoc_L (++)). apply submseteq_app; [|done].
    rewrite <- (take_drop count (ready s0)) at 3. by rewrite (Permutation_app_comm (drop _ _)).
  - intros []. by apply hoare_ret.
Qed.

Lemma issue_all_inv F cs : hoare (inv (cs ++ F)) (issue_all reg ctx cs) (λ _, inv F) (λ _, inv F).
Proof.
  induction cs as [|c cs IH]; cbn [issue_all]; [by apply hoare_ret|].
  eapply (hoare_bind _ (λ _, inv (cs ++ F))).
  - intros s Hs. rewrite issue_spec. destruct (certify reg ctx) as [k|e].
    + apply (inv_pool (c :: cs ++ F) _ s); try done.
      * intros ref Href. cbn in *. rewrite lookup_insert_ne by lia. apply Hs. lia.
      * unfold pool. cbn [handles ready issue_one authorizationStates].
        rewrite unconsumed_issue by (apply Hs; lia). cbn [app].
        by rewrite <- !Permutation_middle.
    + apply (inv_weaken (c :: cs ++ F)); [done|]. cbn [app]; by apply submseteq_cons, submseteq_inserts_l.
  - intros h. eapply hoare_bind; [exact IH|]. intros hs. by apply hoare_ret.
Qed.
Lemma take_inv F count : hoare (inv F) (take reg ctx count) (λ _, inv F) (λ _, inv F).
Proof.
  intros s Hs. destruct (decide (count = 1 ∨ count = 2)) as [Hc|Hc].
  - rewrite take_search by done.
    exact (hoare_bind _ _ _ _ _ _ (search_inv F (Z.to_nat count)) (issue_all_inv F) s Hs).
  - unfold take. destruct (negb _ && negb _) eqn:E; [done|]. apply andb_false_iff in E.
    rewrite !negb_false_iff, !Z.eqb_eq in E. tauto.
Qed.
End OneShot.

(** ** Runs *)
Section Runs.
Context `{BabyJubjub} `{Poseidon2} {A : Type} `{AllocatorLaws A} (owner : Z).

(** The preflights that were constructed, each with its context and its ready
    candidates. *)
Record World := mkWorld {
  w_env : A; w_ledger : Ledger; w_handles : Handles; w_preflights : list (SelfMintContext * list Held) }.
Definition world0 (a : A) : World := mkWorld a ∅ (mkHandles 0 ∅) [].

(** One completed call, with the candidates that it hands to an assembly; calls
    may fail, and the registry of histories may be another at each. *)
Inductive Step : World → list Held → World → Prop :=
  | Step_construct a l h ps reg history domain ctx :
      construct reg history owner domain = Ok ctx →
      Step (mkWorld a l h ps) [] (mkWorld a l h (ps ++ [(ctx, [])]))
  | Step_take a l h ps reg i ctx ready count a' l' h' ready' r :
      ps !! i = Some (ctx, ready) →
      take reg ctx count (Preflight.Preflight.mkState a l h ready) = (Preflight.Preflight.mkState a' l' h' ready', r) →
      Step (mkWorld a l h ps) [] (mkWorld a' l' h' (<[i := (ctx, ready')]> ps))
  | Step_consume a l h ps reg hs expected h' out :
      consumeSelfMints reg hs expected h = (h', Ok out) →
      Step (mkWorld a l h ps) out (mkWorld a l h' ps)
  | Step_refused a l h ps reg hs expected h' e :
      consumeSelfMints reg hs expected h = (h', Err e) →
      Step (mkWorld a l h ps) [] (mkWorld a l h' ps)
  | Step_evolve a l h ps a' l' : evolves (a, l) (a', l') → Step (mkWorld a l h ps) [] (mkWorld a' l' h ps).

Inductive Run : World → list Held → World → Prop :=
  | Run_nil w : Run w [] w
  | Run_step w out w' outs w'' : Step w out w' → Run w' outs w'' → Run w (out ++ outs) w''.

(** The candidates of all preflights are those of one state, with the candidates
    already consumed as its frame. *)
Definition winv (spent : list Held) (w : World) : Prop :=
  inv owner (mjoin (w_preflights w).*2 ++ spent)
    (Preflight.Preflight.mkState (w_env w) (w_ledger w) (w_handles w) []) ∧
  Forall (λ p, ownerCommitment p.1 = owner) (w_preflights w).

Lemma inv_move F F' a l h r r' : inv owner F (Preflight.Preflight.mkState a l h r) →
  r ++ F ≡ₚ r' ++ F' → inv owner F' (Preflight.Preflight.mkState a l h r').
Proof.
  intros Hi HF. apply (inv_pool owner F F' _ _ Hi); [done|done|apply Hi|].
  unfold pool. cbn [ready handles]. by rewrite HF.
Qed.

Lemma consume_inv F a l h reg hs expected :
  inv owner F (Preflight.Preflight.mkState a l h []) →
  match consumeSelfMints reg hs expected h with
  | (h', Ok out) => inv owner (F ++ out) (Preflight.Preflight.mkState a l h' [])
  | (h', Err _) => h' = h
  end.
Proof.
  intros Hi. pose proof (consume_spec reg hs expected h) as Hs.
  destruct (consumeSelfMints reg hs expected h) as [h' [out|e]]; [|done].
  destruct Hs as (l0 & _ & Hd & _ & -> & _ & Hl & En & Es).
  apply (inv_pool owner F _ _ _ Hi); [done|done|..].
  - intros ref Href. cbn in *. rewrite Es, marked_out; [apply Hi; cbn; lia|].
    intros ([? st] & -> & Hin)%list_elem_of_fmap. destruct (Hl _ _ Hin) as (E & _).
    rewrite (inv_fresh _ _ _ Hi) in E; [done|]. cbn in *. lia.
  - unfold pool. cbn [ready handles app]. rewrite Es.
    rewrite (unconsumed_all (authorizationStates h) l0 Hd) by naive_solver.
    rewrite (Permutation_app_comm F). rewrite !(assoc_L (++)).
    apply submseteq_app; [|done]. by rewrite Permutation_app_comm.
Qed.

Lemma join_insert (ps : list (SelfMintContext * list Held)) i ctx r r' : ps !! i = Some (ctx, r) →
  ∃ rest, mjoin ps.*2 ≡ₚ r ++ rest ∧ mjoin (<[i := (ctx, r')]> ps).*2 ≡ₚ r' ++ rest.
Proof.
  revert i. induction ps as [|[c q] ps IH]; intros [|i]; cbn; [done|done|..].
  - intros [= -> ->]. by exists (mjoin ps.*2).
  - intros Hi. destruct (IH i Hi) as (rest & E & E'). exists (q ++ rest). split.
    + transitivity (q ++ r ++ rest); [by apply Permutation_app_head|apply Permutation_app_swap_app].
    + transitivity (q ++ r' ++ rest); [by apply Permutation_app_head|apply Permutation_app_swap_app].
Qed.

Lemma step_winv spent w out w' : winv spent w → Step w out w' → winv (spent ++ out) w'.
Proof.
  intros [Hi Ho] Hstep. destruct Hstep as [a l h ps reg history domain ctx Hc
    |a l h ps reg i ctx ready count a' l' h' ready' r Hps Ht|a l h ps reg hs expected h' out Hc
    |a l h ps reg hs expected h' e Hc|a l h ps a' l' He]; cbn in *; rewrite ?app_nil_r in *.
  - split.
    + eapply inv_move; [exact Hi|]. cbn. rewrite fmap_app, join_app. cbn. by rewrite app_nil_r.
    + apply Forall_app_2; [done|]. constructor; [|done]. clear -Hc. unfold construct in Hc.
      apply bind_Ok in Hc as (? & _ & Hc). repeat (case_match; try done). by injection Hc as <-.
  - destruct (join_insert ps i ctx ready ready' Hps) as (rest & E & E').
    assert (Hctx : ownerCommitment ctx = owner) by exact (Forall_lookup_1 _ _ _ _ Ho Hps).
    split; [|cbn; apply Forall_insert; [done|exact Hctx]].
    assert (Hi' : inv owner (rest ++ spent) (Preflight.Preflight.mkState a l h ready)).
    { eapply inv_move; [exact Hi|]. cbn. by rewrite E, <- (assoc_L (++)). }
    pose proof (take_inv owner reg ctx Hctx (rest ++ spent) count _ Hi') as Ht'. rewrite Ht in Ht'.
    assert (Hi'' : inv owner (rest ++ spent) (Preflight.Preflight.mkState a' l' h' ready')) by (by destruct r).
    eapply inv_move; [exact Hi''|]. cbn. by rewrite E', <- (assoc_L (++)).
  - pose proof (consume_inv _ a l h reg hs expected Hi) as Hc'. rewrite Hc in Hc'. split; [|done].
    eapply inv_move; [exact Hc'|]. cbn. by rewrite <- (assoc_L (++)).
  - pose proof (consume_inv _ a l h reg hs expected Hi) as Hc'. rewrite Hc in Hc'. by subst h'.
  - split; [|done]. destruct (evolves_ok _ _ _ _ (inv_env _ _ _ Hi) He) as [Henv Hl].
    apply (inv_shrink owner _ _ _ _ Hi); [done| |apply Hi|done]. intros c. by apply backed_mono.
Qed.

Lemma run_winv spent w outs w' : Run w outs w' → winv spent w → winv (spent ++ outs) w'.
Proof.
  intros Hr. revert spent. induction Hr as [w|w out w1 outs w2 Hs _ IH]; intros spent Hi.
  - by rewrite app_nil_r.
  - rewrite (assoc_L (++)). by eapply IH, step_winv.
Qed.

Lemma winv_world0 a : env_ok a ∅ → winv [] (world0 a).
Proof.
  intros Ha. split; [|done]. split; cbn; [exact Ha|constructor|constructor|]. intros ref _. apply lookup_empty.
Qed.
(** One-shot use, for any allocator that keeps the laws: in any run of several
    preflights of one owner, consumptions of their handles and whatever else moves
    the collaborators, the candidates handed to assemblies have pairwise distinct
    indices, and each is a claimed entry of the ledger, with its scalar. *)
Lemma run_spent a outs w : env_ok a ∅ → Run (world0 a) outs w →
  env_ok (w_env w) (w_ledger w) ∧ NoDup (a_index <$> outs) ∧ Forall (backed owner (w_ledger w)) outs.
Proof.
  intros Ha Hr. destruct (run_winv [] _ _ _ Hr (winv_world0 a Ha)) as [[Henv Hb Hd _] _].
  unfold pool in *. cbn in *. rewrite (assoc_L (++)) in Hb, Hd.
  apply Forall_app in Hb as [_ Hb]. rewrite fmap_app in Hd. by apply NoDup_app in Hd as (_ & _ & ?).
Qed.
End Runs.
End OneShot.

(** ** Ledgers whose entries have distinct indices *)
Definition distinct_index (l : Ledger) : Prop :=
  ∀ r r' p p', l !! r = Some p → l !! r' = Some p' → p_index p = p_index p' → r = r'.
Lemma distinct_insert l r p : distinct_index l →
  (∀ r' q, l !! r' = Some q → r' ≠ r → p_index q ≠ p_index p) → distinct_index (<[r := p]> l).
Proof.
  intros Hd Hn r1 r2 p1 p2. rewrite !lookup_insert_Some.
  intros [[<- <-]|[Hr Hp]] [[<- <-]|[Hr' Hp']] E; [done|by destruct (Hn _ _ Hp')|by destruct (Hn _ _ Hp)|by eapply Hd].
Qed.
(** A claim changes nothing but the mark of one entry. *)
Lemma claim_preserves (P : Z → DerivedSelfMintProvenance → Prop) l c o :
  (∀ r p, P r p → P r (mkProvenance (p_owner p) (p_eph p) (p_ephPub p) (p_tag p) (p_index p) (p_memberId p) (p_j p) true)) →
  map_Forall P l → distinct_index l →
  map_Forall P (claimDerivedSelfMintCandidate c o l).1 ∧ distinct_index (claimDerivedSelfMintCandidate c o l).1.
Proof.
  intros HP Hall Hd. unfold claimDerivedSelfMintCandidate.
  destruct (l !! c_ref c) as [p|] eqn:Hp; [|by split]. repeat case_match; try by split. cbn [fst]. split.
  - apply map_Forall_insert_2; [|done]. by apply HP, Hall.
  - apply distinct_insert; [done|]. cbn [p_index]. intros r' q Hq Hne E. by destruct (Hne (Hd _ _ _ _ Hq Hp E)).
Qed.

(** ** The wallet's allocator *)
Module Wallet.
Import State.KeyRepo.
Section Wallet.
Context {S : Type} `{EphemeralCounterStore S} `{BabyJubjub} `{Poseidon2} `{DarkAccount}.
Context {D : Type} (discovery : list Z → D → D * option JsVal).

(** The key repository, the identity of the next object, and the discovery
    service. *)
Record Env := mkEnv { repo : W (S := S); next_ref : Z; service : D }.

(** [{ eph, ephPub, tag: new Fr(ephPub[0]), index }]. *)
Definition candidate_object (ref : Z) (s : SelfEphemeral) : Candidate :=
  mkCandidate ref [("eph", JFr (eph s)); ("ephPub", JArr [JBig (ephPub s).1; JBig (ephPub s).2]);
                   ("tag", JFr (tag s)); ("index", JNum (index s))].
Definition wallet_next (al : Env * Ledger) : (Env * Ledger) * option Candidate :=
  let '(a, l) := al in
  match nextSelfEphemeral (repo a) with
  | (w, Err _) => ((mkEnv w (next_ref a) (service a), l), None)
  | (w, Ok (s, ownerCommitment)) =>
      let '(l, r) := markDerivedSelfMintCandidate (candidate_object (next_ref a) s) ownerCommitment l in
      ((mkEnv w (next_ref a + 1) (service a), l), match r with Ok c => Some c | Err _ => None end)
  end.
Instance wallet_environment : Environment Env := {|
  next := wallet_next;
  probeFirst tags a := let '(d, r) := discovery tags (service a) in (mkEnv (repo a) (next_ref a) d, r) |}.

(** What else the wallet does with its repository, a restart with a new
    repository on the same store included; the service changes at will. *)
Inductive wallet_evolves : Env * Ledger → Env * Ledger → Prop :=
  | Evolve_next al al' c : wallet_next al = (al', c) → wallet_evolves al al'
  | Evolve_op op a l d : op ≠ Next_self →
      wallet_evolves (a, l) (mkEnv (step op (repo a)).1 (next_ref a) d, l).

Context {CL : CounterLaws S}.
Definition wallet_owner : Z := Keys.Keys.pubkeyOwner getSelfSpendPub.
Notation water a := (highWater SELF_EPH_SCOPE (repo a).2).

(** An entry of the ledger is of an object made before, and of a reserved index. *)
Definition entry_ok (a : Env) (r : Z) (p : DerivedSelfMintProvenance) : Prop :=
  r < next_ref a ∧ p_owner p = wallet_owner ∧ p_eph p = getSelfEphemeral (p_index p) ∧ p_index p < water a.
Definition wallet_ok (a : Env) (l : Ledger) : Prop :=
  map_Forall (entry_ok a) l ∧ distinct_index l.

Lemma wallet_ok_mono a a' l : wallet_ok a l → next_ref a <= next_ref a' → water a <= water a' → wallet_ok a' l.
Proof.
  intros [He Hd] Hr Hw. split; [|done]. intros r p Hp. destruct (He r p Hp) as (? & ? & ? & ?).
  split_and!; [lia|done|done|lia].
Qed.
Lemma wallet_next_ok a l a' l' c : wallet_ok a l → wallet_next (a, l) = ((a', l'), c) →
  wallet_ok a' l' ∧ l ⊆ l'.
Proof.
  intros Hok. unfold wallet_next. destruct (nextSelfEphemeral (repo a)) as [w r] eqn:E.
  destruct (self_loop_spec _ _ _ _ E) as [Hw Hs]. destruct r as [[s o]|e].
  2: { intros [= <- <- <-]. split; [|done]. apply (wallet_ok_mono a); [done|done|exact Hw]. }
  intros [= <- <- <-]. destruct (Hs s o eq_refl) as [(He & _) Hi].
  assert (Ho : o = wallet_owner).
  { clear -E. unfold nextSelfEphemeral in E. revert E. generalize (repo a). generalize MAX_INDEX_ROLL.
    intros n. induction n as [|n IH]; intros w0; cbn [self_loop]; [done|].
    unfold mbind, M_bind at 1, on_store at 1. destruct (reserve _ _ _) as [s1 [res|]]; [|done].
    destruct (negb _); [apply IH|]. unfold M_bind at 1, lift. destruct (commit _ _); [|done].
    by intros [= _ _ <-]. }
  assert (Hnew : l !! next_ref a = None).
  { destruct (l !! next_ref a) as [p|] eqn:Hp; [|done]. destruct Hok as [Hall _].
    destruct (Hall _ _ Hp) as (? & _). lia. }
  cbn [candidate_object c_ref]. split; [|by apply insert_subseteq].
  destruct (wallet_ok_mono a (mkEnv w (next_ref a + 1) (service a)) l Hok) as [Hall Hd]; [cbn; lia|exact Hw|].
  split.
  - apply map_Forall_insert_2; [|done]. split_and!; cbn [next_ref repo p_owner p_index p_eph]; [lia|done|done|lia].
  - apply distinct_insert; [done|]. cbn [p_index]. intros r q Hq _. destruct Hok as [Hall' _].
    destruct (Hall' _ _ Hq) as (_ & _ & _ & ?). lia.
Qed.

(** The key repository over a durable counter is a lawful allocator. *)
Instance wallet_laws : AllocatorLaws Env.
Proof.
  refine {| env_ok := wallet_ok; evolves := wallet_evolves |}.
  - intros a l a' l' c. apply wallet_next_ok.
  - intros a l a' tags r Hok. cbn. destruct (discovery _ _) as [d r']. intros [= <- <-].
    by apply (wallet_ok_mono a).
  - intros a l c o [Hall Hd]. by apply claim_preserves.
  - intros a l a' l' Hok He. inversion He as [? ? c Hn|op a0 l0 d Hop]; subst.
    + by eapply wallet_next_ok.
    + split; [|done]. apply (wallet_ok_mono a); [done|done|]. apply step_water.
  - intros a l r r' p p' [_ Hd] Hp Hp' _. by apply Hd.
Defined.

(** C10. Over the whole life of a wallet, no self ephemeral is used twice: in
    any run of several preflights, consumptions, other operations of the key
    repository, restores from any persisted state and restarts, the candidates
    handed to assemblies have pairwise distinct indices, and each scalar is the
    derivation of its index. *)
Theorem no_ephemeral_reused s0 d outs w :
  OneShot.Run wallet_owner (OneShot.world0 (mkEnv (fresh, s0) 0 d)) outs w →
  NoDup (a_index <$> outs) ∧ Forall (λ c, a_eph c = getSelfEphemeral (a_index c)) outs.
Proof.
  intros Hr. assert (Hok0 : env_ok (mkEnv (fresh, s0) 0 d) ∅).
  { split; [apply map_Forall_empty|]. intros r r' p p' Hp. by rewrite lookup_empty in Hp. }
  destruct (OneShot.run_spent wallet_owner (mkEnv (fresh, s0) 0 d) outs w Hok0 Hr) as (Hok & Hd & Hb).
  split; [done|]. apply (Forall_impl _ _ _ Hb). intros c (r & p & Hp & _ & <- & <- & _).
  destruct Hok as [Hall _]. by destruct (Hall _ _ Hp) as (_ & _ & ? & _).
Qed.
End Wallet.
End Wallet.

(** ** Witnesses *)
Module SelfMintWitness.
Import EvenCurve MintWitness DiscoveryWitness State.Counter State.KeyRepo Wallet.

#[local] Instance toy_account : DarkAccount := {|
  getSelfEphemeral i := i + 1; getIncomingKey i := i + 7; getSelfSpendPub := Keys.Keys.publicKey 4 |}.

(** A service that knows no note, and serves its padding of the other kind. *)
Definition padded (t : Z) : JsVal :=
  JObj [("tag", JFr t); ("occurrenceCount", JNum 0);
        ("record", JObj [("layoutVersion", JNum 1); ("recordKind", JNum RECORD_KIND_INCOMING);
           ("leafIndex", JNum 0); ("commitmentPrefix", JBytes (replicate 16 0)); ("ephemeralPkX", JFr t);
           ("cekWrap", JFr 0); ("ciphertextKept", JArr (replicate 5 (JFr 0)))])].
Definition toy_service (tags : list Z) (n : Z) : Z * option JsVal := (n + 1, Some (JArr (padded <$> tags))).
#[local] Existing Instance wallet_environment.
#[local] Instance toy_environment : Environment Env := wallet_environment toy_service.

Definition toy_env : Env := mkEnv (fresh, mkInMemory ∅ false) 0 0.
Definition toy_context : SelfMintContext :=
  mkContext wallet_owner (Keys.Keys.publicKey 3) 2 (0, toy_history) 1 "0xabababababababababababababababababababab" 0.
Definition toy_start : State := Preflight.Preflight.mkState toy_env ∅ (mkHandles 0 ∅) [].
Definition toy_take := take toy_registry toy_context 2 toy_start.

Lemma take_authorizes_witness : toy_take.2 = Ok [0; 1] ∧
  ∃ k c, authorizationStates (handles toy_take.1) !! 1 = Some (mkAuthState c k false) ∧
    a_ephPub c = Keys.Keys.publicKey (a_eph c).
Proof.
  assert (E : toy_take.2 = Ok [0; 1]) by (vm_compute; reflexivity). split; [exact E|].
  pose proof (take_authorizes toy_registry toy_context 2 toy_start (Forall_nil_2 _)) as Ht.
  change (take toy_registry toy_context 2 toy_start) with toy_take in Ht.
  destruct toy_take as [s r]. cbn [snd] in E. rewrite E in Ht.
  destruct Ht as (_ & _ & _ & _ & _ & k & _ & Hk). destruct (Hk 1) as (c & [[Hc _] _] & Hl); [right; left|].
  by exists k, c.
Defined.

(** One preflight of the wallet, one take of two, one consumption of both. *)
Definition toy_expected : ExpectedContext :=
  mkExpected (JFr wallet_owner) (JArr [JBig (Keys.Keys.publicKey 3).1; JBig (Keys.Keys.publicKey 3).2])
    (JNum 2) (0, toy_history) (JBig 1) (JStr "0xABababababababababababababababababababab") (JBig 0).
Definition toy_consume := consumeSelfMints toy_registry [HObj 1; HObj 0] toy_expected (handles toy_take.1).
Definition toy_out : list Held := match toy_consume.2 with Ok out => out | Err _ => [] end.
Lemma no_ephemeral_reused_witness : (a_index <$> toy_out) = [1; 0] ∧ NoDup (a_index <$> toy_out).
Proof.
  split; [vm_compute; reflexivity|].
  set (w1 := OneShot.mkWorld (env toy_take.1) (ledger toy_take.1) toy_consume.1 [(toy_context, ready toy_take.1)]).
  apply (no_ephemeral_reused toy_service (mkInMemory ∅ false) 0 toy_out w1).
  change toy_out with ([] ++ [] ++ toy_out ++ []).
  eapply OneShot.Run_step; [|eapply OneShot.Run_step; [|eapply OneShot.Run_step; [|apply OneShot.Run_nil]]].
  - apply (OneShot.Step_construct wallet_owner _ ∅ (mkHandles 0 ∅) [] toy_registry (0, toy_history)
      (Some (mkDomain (JBig 1) (JStr "0xabABabababababababababababababababababab") (JBig 0))) toy_context).
    vm_compute. reflexivity.
  - apply (OneShot.Step_take wallet_owner _ _ _ _ toy_registry 0 toy_context [] 2 (env toy_take.1) (ledger toy_take.1)
      (handles toy_take.1) (ready toy_take.1) toy_take.2); [done|].
    change (take toy_registry toy_context 2 _) with toy_take. by destruct toy_take as [[] ?].
  - apply (OneShot.Step_consume wallet_owner _ _ _ _ toy_registry [HObj 1; HObj 0] toy_expected).
    vm_compute. reflexivity.
Defined.
End SelfMintWitness.
