(* ===== verification/Assemble.v ===== *)
(** * Transaction assembly ([packages/sdk/src/tx/assemble.ts]) and its way into
    the circuits ([packages/prover/src/marshal.ts],
    [packages/prover/src/circuits/builders.ts])

    [Assemble] turns spendable notes and an intent into the inputs of a circuit,
    consuming the handles of the outputs' ephemerals ([Preflight.v]); it runs on
    the state of these handles.  [Marshal] is the prover's conversion into the
    parameters of the circuits' [main] functions ([Circuits.v]), where a text
    stands for the number it denotes. *)
From S2P Require Import Prelude Bytes Zq Tss Tree Keys Trace Mint Circuits Keyring Discovery Preflight SelfMint.
Local Open Scope Z_scope.
#[local] Arguments Circuit.assert_conserved : simpl never.

(** ** [marshal.ts], [builders.ts] *)
Module Marshal.
Import Trace.Note Circuit.

Definition U128_MAX : Z := Z.shiftl 1 128 - 1.
Inductive ProofInputError :=
  | Exceeds_u128 | Both_recipients | Needs_multisig_memo | Shared_x | No_recipient | Needs_multisig_recipient.

Record MultisigMemoRecipient := mkMultisigRecipient { r_gpk : Point; r_viewPub : Point }.

Definition marshalU128 (v : Z) : result ProofInputError Z :=
  if U128_MAX <? v then Err Exceeds_u128 else Ok v.
Definition marshalNote (n : Note) : result ProofInputError Note :=
  if U128_MAX <? value n then Err Exceeds_u128 else Ok n.

(** The spend and view points of the memo's recipient. *)
Definition memoRecipientPoints (memoNoteType : Z) (inPub : option Point) (multisig : option MultisigMemoRecipient) :
    result ProofInputError (Point * Point) :=
  let wantsMultisig := memoNoteType =? Circuit.NOTE_TYPE_MULTISIG in
  match multisig with
  | Some ms =>
      match inPub with
      | Some _ => Err Both_recipients
      | None =>
          if negb wantsMultisig then Err Needs_multisig_memo
          else if (r_gpk ms).1 =? (r_viewPub ms).1 then Err Shared_x
          else Ok (r_gpk ms, r_viewPub ms)
      end
  | None =>
      match inPub with
      | None => Err No_recipient
      | Some p => if wantsMultisig then Err Needs_multisig_recipient else Ok (p, p)
      end
  end.

Record DepositInputs := mkDepositInputs { di_compliancePk : Point; di_note : Note; di_eph : Z }.
Record TransferInputs := mkTransferInputs {
  ti_compliancePk : Point; ti_recipientInPub : option Point; ti_recipientMultisig : option MultisigMemoRecipient;
  ti_oldNote : Note; ti_spendScalar : Z; ti_oldNoteIndex : Z; ti_oldNotePath : list Z;
  ti_memoNote : Note; ti_memoEph : Z; ti_changeNote : Note; ti_changeEph : Z }.
Record WithdrawInputs := mkWithdrawInputs {
  wi_withdrawValue : Z; wi_recipient : Z; wi_intentHash : Z; wi_compliancePk : Point; wi_oldNote : Note;
  wi_spendScalar : Z; wi_oldNoteIndex : Z; wi_oldNotePath : list Z; wi_changeNote : Note; wi_changeEph : Z }.

Definition buildDepositInputMap (i : DepositInputs) : result ProofInputError DepositMap :=
  note ← marshalNote (di_note i); Ok (mkDepositMap (di_compliancePk i) note (di_eph i)).
Definition buildTransferInputMap (i : TransferInputs) : result ProofInputError TransferMap :=
  '(spend, view) ← memoRecipientPoints (noteType (ti_memoNote i)) (ti_recipientInPub i) (ti_recipientMultisig i);
  old_note ← marshalNote (ti_oldNote i);
  memo_note ← marshalNote (ti_memoNote i);
  change_note ← marshalNote (ti_changeNote i);
  Ok (mkTransferMap (ti_compliancePk i) spend view old_note (ti_spendScalar i) (ti_oldNoteIndex i)
        (ti_oldNotePath i) memo_note (ti_memoEph i) change_note (ti_changeEph i)).
Definition buildWithdrawInputMap (i : WithdrawInputs) : result ProofInputError WithdrawMap :=
  withdraw_value ← marshalU128 (wi_withdrawValue i);
  old_note ← marshalNote (wi_oldNote i);
  change_note ← marshalNote (wi_changeNote i);
  Ok (mkWithdrawMap withdraw_value (wi_recipient i) (wi_intentHash i) (wi_compliancePk i) old_note
        (wi_spendScalar i) (wi_oldNoteIndex i) (wi_oldNotePath i) change_note (wi_changeEph i)).
End Marshal.

(** ** [assemble.ts] *)
Module Assemble.
Import Trace.Note Preflight.Authorization Marshal.

(** A note the wallet holds; the value of a [ProverNoteInput] is a field element. *)
Record SpendableNote := mkSpendable { sn_note : Note; sn_leaf : Z; sn_leafIndex : Z; sn_spendScalar : Z }.
Record AssemblyContext := mkAssemblyContext {
  x_compliancePk : Point; x_version : Z; x_history : Z * History.CompleteComplianceHistory;
  x_chain : Z; x_pool : string; x_anchor : Z }.

Inductive AssemblyReason :=
  MERKLE_INDEX_MISMATCH | NEGATIVE_VALUE | JOIN_SELF | JOIN_ASSET_MISMATCH | JOIN_ROOT_MISMATCH.
Inductive AssembleError :=
  | AssemblyError (reason : AssemblyReason)
  | Merkle (e : Witness.WitnessSourceError) | Unauthorized (e : AuthError)
  | Minting (e : MintError) | Packing (e : NoteError) | Not_fr (x : Z).

Section Assemble.
Context `{BabyJubjub} `{Poseidon2}.
(** The registry of histories, the Merkle source and the context. *)
Context (reg : History.Registry) (witnessFor : Z → result Witness.WitnessSourceError Witness.MerkleWitness)
  (ctx : AssemblyContext).
Notation A := (M Handles AssembleError).

Record Spend := mkSpend { s_index : Z; s_path : list Z; s_root : Z }.
Definition openSpend (input : SpendableNote) : result AssembleError Spend :=
  w ← map_err Merkle (witnessFor (sn_leaf input));
  if negb (Witness.leafIndex w =? sn_leafIndex input) then Err (AssemblyError MERKLE_INDEX_MISMATCH)
  else Ok (mkSpend (Witness.leafIndex w) (Witness.siblings w) (Witness.root w)).
Definition assertPositive (v : Z) : result AssembleError unit :=
  if v <? 0 then Err (AssemblyError NEGATIVE_VALUE) else Ok tt.
Definition selfMintContext (ownerCommitment : Z) : ExpectedContext :=
  mkExpected (JFr ownerCommitment) (JArr [JBig (x_compliancePk ctx).1; JBig (x_compliancePk ctx).2])
    (JNum (x_version ctx)) (x_history ctx) (JBig (x_chain ctx)) (JStr (x_pool ctx)) (JBig (x_anchor ctx)).

(** [consumeSelfMints(handles, selfMintContext(ctx, owner of spendScalar))]. *)
Definition consume (handles : list Handle) (spendScalar : Z) : A (list AuthorizedSelfMintCandidate) := λ s,
  let '(s, r) := consumeSelfMints reg handles
    (selfMintContext (Keys.Keys.pubkeyOwner (Keys.Keys.publicKey spendScalar))) s in
  (s, map_err Unauthorized r).
(** [const [m] = ...], [const [m1, m2] = ...]: a missing element is undefined,
    and reading its scalar throws; no consumption returns so few. *)
Definition consume1 (handle : Handle) (spendScalar : Z) : A AuthorizedSelfMintCandidate :=
  ms ← consume [handle] spendScalar;
  match ms with m :: _ => mret m | [] => throw (Unauthorized (Authorization UNKNOWN_AUTHORIZATION)) end.
Definition consume2 (handle1 handle2 : Handle) (spendScalar : Z) :
    A (AuthorizedSelfMintCandidate * AuthorizedSelfMintCandidate) :=
  ms ← consume [handle1; handle2] spendScalar;
  match ms with
  | m1 :: m2 :: _ => mret (m1, m2)
  | _ => throw (Unauthorized (Authorization UNKNOWN_AUTHORIZATION))
  end.
Definition pure {X} (r : result AssembleError X) : A X := lift (λ e, e) r.
Definition packing (p0 p1 : Z) : result AssembleError Z := map_err Packing (packParents p0 p1).
Definition toFr (x : Z) : result AssembleError Z := map_err (λ _, Not_fr x) (newFr x).
Definition self_note (eph v spendScalar asset par : Z) : result AssembleError Mint.MintedNote :=
  map_err Minting (Mint.mintSelfNote eph v spendScalar asset (x_compliancePk ctx) par).

(** *** Deposit *)
Record DepositRequest := mkDepositRequest { dr_value : Z; dr_assetId : Z; dr_spendScalar : Z; dr_selfMint : Handle }.
Record AssembledDeposit := mkAssembledDeposit { ad_inputs : DepositInputs; ad_minted : Mint.MintedNote }.
Definition assembleDeposit (req : DepositRequest) : A AssembledDeposit :=
  _ ← pure (assertPositive (dr_value req));
  selfMint ← consume1 (dr_selfMint req) (dr_spendScalar req);
  minted ← pure (self_note (a_eph selfMint) (dr_value req) (dr_spendScalar req) (dr_assetId req) 0);
  mret (mkAssembledDeposit (mkDepositInputs (x_compliancePk ctx) (Mint.m_note minted) (a_eph selfMint)) minted).

(** *** Withdrawal *)
Record WithdrawRequest := mkWithdrawRequest {
  wr_input : SpendableNote; wr_value : Z; wr_recipient : Z; wr_selfSpendScalar : Z; wr_changeMint : Handle;
  wr_intentHash : option Z }.
Record AssembledWithdraw := mkAssembledWithdraw {
  aw_inputs : WithdrawInputs; aw_change : Mint.MintedNote; aw_root : Z }.
Definition assembleWithdraw (req : WithdrawRequest) : A AssembledWithdraw :=
  spend ← pure (openSpend (wr_input req));
  let changeValue := value (sn_note (wr_input req)) - wr_value req in
  _ ← pure (assertPositive changeValue);
  changeMint ← consume1 (wr_changeMint req) (wr_selfSpendScalar req);
  par ← pure (packing (s_index spend) 0);
  change ← pure (self_note (a_eph changeMint) changeValue (wr_selfSpendScalar req)
                   (assetId (sn_note (wr_input req))) par);
  withdrawValue ← pure (toFr (wr_value req));
  mret (mkAssembledWithdraw
    (mkWithdrawInputs withdrawValue (wr_recipient req) (default 0 (wr_intentHash req)) (x_compliancePk ctx)
       (sn_note (wr_input req)) (sn_spendScalar (wr_input req)) (s_index spend) (s_path spend)
       (Mint.m_note change) (a_eph changeMint))
    change (s_root spend)).

(** *** Transfer *)
Record TransferRequest := mkTransferRequest {
  tr_input : SpendableNote; tr_value : Z; tr_recipientInPub : Point; tr_recipientInKey : Z;
  tr_selfSpendScalar : Z; tr_memoEph : Z; tr_changeMint : Handle }.
Record AssembledTransfer := mkAssembledTransfer {
  at_inputs : TransferInputs; at_memo : Mint.MintedNote; at_change : Mint.MintedNote; at_root : Z }.
Definition assembleTransfer (req : TransferRequest) : A AssembledTransfer :=
  spend ← pure (openSpend (tr_input req));
  let changeValue := value (sn_note (tr_input req)) - tr_value req in
  _ ← pure (assertPositive changeValue);
  changeMint ← consume1 (tr_changeMint req) (tr_selfSpendScalar req);
  memo ← pure (map_err Minting (Mint.mintIncomingNote (tr_memoEph req) (tr_value req) (tr_recipientInPub req)
                 (tr_recipientInKey req) (assetId (sn_note (tr_input req))) (x_compliancePk ctx) PARENTS_HIDDEN));
  par ← pure (packing (s_index spend) 0);
  change ← pure (self_note (a_eph changeMint) changeValue (tr_selfSpendScalar req)
                   (assetId (sn_note (tr_input req))) par);
  mret (mkAssembledTransfer
    (mkTransferInputs (x_compliancePk ctx) (Some (tr_recipientInPub req)) None (sn_note (tr_input req))
       (sn_spendScalar (tr_input req)) (s_index spend) (s_path spend) (Mint.m_note memo) (tr_memoEph req)
       (Mint.m_note change) (a_eph changeMint))
    memo change (s_root spend)).

(** *** Split *)
Record SplitRequest := mkSplitRequest {
  sr_input : SpendableNote; sr_value1 : Z; sr_selfSpendScalar : Z; sr_mint1 : Handle; sr_mint2 : Handle }.
Record SplitInputs := mkSplitInputs {
  si_compliancePk : Point; si_noteIn : Note; si_spendScalar : Z; si_indexIn : Z; si_pathIn : list Z;
  si_noteOut1 : Note; si_eph1 : Z; si_noteOut2 : Note; si_eph2 : Z }.
Record AssembledSplit := mkAssembledSplit {
  as_inputs : SplitInputs; as_out1 : Mint.MintedNote; as_out2 : Mint.MintedNote; as_root : Z }.
Definition assembleSplit (req : SplitRequest) : A AssembledSplit :=
  spend ← pure (openSpend (sr_input req));
  let value2 := value (sn_note (sr_input req)) - sr_value1 req in
  _ ← pure (assertPositive (sr_value1 req));
  _ ← pure (assertPositive value2);
  '(mint1, mint2) ← consume2 (sr_mint1 req) (sr_mint2 req) (sr_selfSpendScalar req);
  par ← pure (packing (s_index spend) 0);
  out1 ← pure (self_note (a_eph mint1) (sr_value1 req) (sr_selfSpendScalar req) (assetId (sn_note (sr_input req))) par);
  out2 ← pure (self_note (a_eph mint2) value2 (sr_selfSpendScalar req) (assetId (sn_note (sr_input req))) par);
  mret (mkAssembledSplit
    (mkSplitInputs (x_compliancePk ctx) (sn_note (sr_input req)) (sn_spendScalar (sr_input req)) (s_index spend)
       (s_path spend) (Mint.m_note out1) (a_eph mint1) (Mint.m_note out2) (a_eph mint2))
    out1 out2 (s_root spend)).

(** *** Join *)
Record JoinRequest := mkJoinRequest {
  jr_inputA : SpendableNote; jr_inputB : SpendableNote; jr_selfSpendScalar : Z; jr_selfMint : Handle }.
Record JoinInputs := mkJoinInputs {
  ji_compliancePk : Point; ji_noteA : Note; ji_spendScalarA : Z; ji_indexA : Z; ji_pathA : list Z;
  ji_noteB : Note; ji_spendScalarB : Z; ji_indexB : Z; ji_pathB : list Z; ji_noteOut : Note; ji_ephOut : Z }.
Record AssembledJoin := mkAssembledJoin { aj_inputs : JoinInputs; aj_out : Mint.MintedNote; aj_root : Z }.
Definition assembleJoin (req : JoinRequest) : A AssembledJoin :=
  if sn_leafIndex (jr_inputA req) =? sn_leafIndex (jr_inputB req) then throw (AssemblyError JOIN_SELF)
  else
    let '(lo, hi) := if sn_leafIndex (jr_inputA req) <? sn_leafIndex (jr_inputB req)
                     then (jr_inputA req, jr_inputB req) else (jr_inputB req, jr_inputA req) in
    if negb (assetId (sn_note lo) =? assetId (sn_note hi)) then throw (AssemblyError JOIN_ASSET_MISMATCH)
    else
      a ← pure (openSpend lo);
      b ← pure (openSpend hi);
      if negb (s_root a =? s_root b) then throw (AssemblyError JOIN_ROOT_MISMATCH)
      else
        let total := value (sn_note lo) + value (sn_note hi) in
        selfMint ← consume1 (jr_selfMint req) (jr_selfSpendScalar req);
        par ← pure (packing (s_index a) (s_index b));
        out ← pure (self_note (a_eph selfMint) total (jr_selfSpendScalar req) (assetId (sn_note lo)) par);
        mret (mkAssembledJoin
          (mkJoinInputs (x_compliancePk ctx) (sn_note lo) (sn_spendScalar lo) (s_index a) (s_path a)
             (sn_note hi) (sn_spendScalar hi) (s_index b) (s_path b) (Mint.m_note out) (a_eph selfMint))
          out (s_root a)).

(** ** What an assembly consumes *)
(** The handle that [consume1] accepted held the candidate that it returns. *)
Lemma consume1_Ok h k s s' m : consume1 h k s = (s', Ok m) →
  ∃ ref st, h = HObj ref ∧ authorizationStates s !! ref = Some st ∧ consumed st = false ∧ m = candidate st ∧
    sameContext reg (context st) (selfMintContext (Keys.Keys.pubkeyOwner (Keys.Keys.publicKey k))) = Ok true ∧
    authorizationStates s' = mark_consumed (authorizationStates s) (ref, st).
Proof.
  unfold consume1. intros (s1 & ms & Hc & Hm)%M_bind_Ok. unfold consume in Hc.
  pose proof (consume_spec reg [h] (selfMintContext (Keys.Keys.pubkeyOwner (Keys.Keys.publicKey k))) s) as Hs.
  destruct (consumeSelfMints _ _ _ s) as [s2 r]. injection Hc as <- Hr%map_err_Ok. subst r.
  destruct Hs as (l & Hl & _ & _ & -> & _ & Hall & _ & Hst).
  destruct l as [|[ref st] [|]]; try done. injection Hl as ->. cbn in Hm. injection Hm as <- <-.
  destruct (Hall ref st) as (? & ? & ?); [left|]. by exists ref, st.
Qed.

(** ** Assembled transactions prove *)
(** A source whose witnesses fold to the root they name, as both sources of
    [witnessSources.ts] ensure. *)
Definition witness_verified `{PoseidonV1} : Prop := ∀ leaf w, witnessFor leaf = Ok w →
  length (Witness.siblings w) = Circuit.TREE_DEPTH ∧ Forall in_field (Witness.siblings w) ∧
  Witness.foldPath leaf (Witness.leafIndex w) (Witness.siblings w) = Ok (Witness.root w).

(** A note of the wallet with its key. *)
Definition owned (sn : SpendableNote) : Prop :=
  Circuit.spendable (sn_note sn) (sn_spendScalar sn) ∧ leaf (sn_note sn) = Ok (sn_leaf sn) ∧ in_field (sn_leaf sn).
(** The scalar behind a handle: in range, of an even public key, and not [avoid]. *)
Definition sound_handle (s : Handles) (h : Handle) (avoid : Z) : Prop :=
  ∀ ref st, h = HObj ref → authorizationStates s !! ref = Some st →
    Kem.valid_scalar (a_eph (candidate st)) ∧
    Keys.Keys.isEvenY (Keys.Keys.publicKey (a_eph (candidate st))) = true ∧ a_eph (candidate st) ≠ avoid.
Definition even_key (k : Z) : Prop :=
  Kem.valid_scalar k ∧ Keys.Keys.isEvenY (Keys.Keys.publicKey k) = true.

Lemma openSpend_Ok `{PoseidonV1} sn sp : witness_verified → openSpend sn = Ok sp →
  s_index sp = sn_leafIndex sn ∧ length (s_path sp) = Circuit.TREE_DEPTH ∧ Forall in_field (s_path sp) ∧
  Witness.foldPath (sn_leaf sn) (s_index sp) (s_path sp) = Ok (s_root sp).
Proof.
  intros Hw. unfold openSpend. intros (w & Hf%map_err_Ok & Ho)%bind_Ok.
  destruct (Z.eqb_spec (Witness.leafIndex w) (sn_leafIndex sn)) as [E|]; [|done].
  injection Ho as <-. by destruct (Hw _ _ Hf) as (? & ? & ?).
Qed.
Lemma marshal_ok n : Circuit.note_input n = Some tt → marshalNote n = Ok n.
Proof.
  intros Hv%Circuit.note_input_Some. unfold marshalNote, U128_MAX. change (Z.shiftl 1 128) with (2 ^ 128).
  by rewrite (proj2 (Z.ltb_ge _ _)) by lia.
Qed.
Lemma path_ok path : length path = Circuit.TREE_DEPTH → Circuit.path_input path = Some tt.
Proof. intros E. unfold Circuit.path_input. rewrite E. by apply assert_true. Qed.

(** The self note behind an assembled change or output. *)
Lemma self_note_proves eph v k asset par m : self_note eph v k asset par = Ok m →
  0 <= v < 2 ^ 128 ∧ assetId (Mint.m_note m) = asset ∧ value (Mint.m_note m) = v ∧
  parents (Mint.m_note m) = par ∧ owner (Mint.m_note m) = Keys.Keys.pubkeyOwner (Keys.Keys.publicKey k) ∧
  noteType (Mint.m_note m) = Mint.NOTE_TYPE_STANDARD ∧
  Mint.mintSelfNote eph v k asset (x_compliancePk ctx) par = Ok m.
Proof.
  unfold self_note. rewrite map_err_Ok. intros Hm.
  pose proof (Mint.finish_Ok _ _ _ _ _ _ _ _ Hm) as (_ & Hv & -> & _). done.
Qed.
Lemma incoming_note_proves eph v p key asset cpk par m : Mint.mintIncomingNote eph v p key asset cpk par = Ok m →
  0 <= v < 2 ^ 128 ∧ assetId (Mint.m_note m) = asset ∧ value (Mint.m_note m) = v ∧
  parents (Mint.m_note m) = par ∧ noteType (Mint.m_note m) = Mint.NOTE_TYPE_STANDARD.
Proof.
  unfold Mint.mintIncomingNote. intros (b & Hb & (w & _ & (t & _ & [= <-])%bind_Ok)%bind_Ok)%bind_Ok.
  pose proof (Mint.finish_Ok _ _ _ _ _ _ _ _ Hb) as (_ & Hv & Hn & _). cbn [Mint.m_note]. by rewrite Hn.
Qed.

Context `{PoseidonV1} {L : BabyJubjubLaws} (eight_inv : Z).
Context (Hv1 : ∀ xs, in_field (poseidon_v1 xs)) (Height : 0 <= eight_inv)
  (Hinv : 8 * eight_inv =[subOrder] 1) (Hsource : witness_verified).

Lemma owned_spend sn sp par : owned sn → openSpend sn = Ok sp → packing (s_index sp) 0 = Ok par →
  Circuit.path_input (s_path sp) = Some tt ∧ Circuit.note_input (sn_note sn) = Some tt ∧ s_index sp < 2 ^ 32 ∧
  Circuit.verify_spend (sn_note sn) (sn_spendScalar sn) (s_index sp) (s_path sp)
  = Some (computeNullifier (psi (sn_note sn)) (s_index sp), s_root sp).
Proof.
  intros (Hs & Hl & Hf) Ho Hp%map_err_Ok. destruct (openSpend_Ok _ _ Hsource Ho) as (_ & Hlen & Hfield & Hfold).
  destruct (Circuit.parents_spec _ _ Hp) as [Hi _].
  split_and!; [by apply path_ok|by eapply Circuit.leaf_spec|done|]. by eapply Circuit.verify_spend_spec.
Qed.

(** C1. A transfer that is assembled proves.  For a note of the wallet, a
    verified Merkle source, a recipient with an even key and distinct even
    ephemerals, whatever [assembleTransfer] returns marshals into inputs that the
    transfer circuit accepts, and the public outputs are those the wallet
    expects: the root it opened against, the nullifier of the note, the memo's
    leaf, tag and wrapped key, the change's leaf; the memo carries the amount, the
    change the rest, and the recipient's part of the handle is spent. *)
Theorem assembleTransfer_proves req inKey s s' out :
  owned (tr_input req) → tr_recipientInPub req = Keys.Keys.publicKey inKey → even_key inKey →
  even_key (tr_memoEph req) → sound_handle s (tr_changeMint req) (tr_memoEph req) →
  Keys.Keys.pubkeyOwner (Keys.Keys.publicKey inKey) ≠ 0 →
  Keys.Keys.pubkeyOwner (Keys.Keys.publicKey (tr_selfSpendScalar req)) ≠ 0 →
  assembleTransfer req s = (s', Ok out) →
  ∃ m o, buildTransferInputMap (at_inputs out) = Ok m ∧ Circuit.transfer eight_inv m = Some o ∧
    Circuit.to_root o = at_root out ∧
    Circuit.to_nullifier o = computeNullifier (psi (sn_note (tr_input req))) (sn_leafIndex (tr_input req)) ∧
    Circuit.im_leaf (Circuit.to_memo o) = Mint.commitment (at_memo out) ∧
    Circuit.im_tag (Circuit.to_memo o) = Mint.m_tag (at_memo out) ∧
    Some (Circuit.im_cek_wrap (Circuit.to_memo o)) = Mint.m_cekWrap (at_memo out) ∧
    Circuit.sm_leaf (Circuit.to_change o) = Mint.commitment (at_change out) ∧
    value (Mint.m_note (at_memo out)) = tr_value req ∧
    value (Mint.m_note (at_change out)) = value (sn_note (tr_input req)) - tr_value req ∧
    owner (Mint.m_note (at_change out)) = Keys.Keys.pubkeyOwner (Keys.Keys.publicKey (tr_selfSpendScalar req)).
Proof.
  intros Hown Hpub Hin Hmemo Hh Hz Hz' Hrun. unfold assembleTransfer, pure in Hrun.
  apply M_bind_Ok in Hrun as (? & sp & [-> Hsp]%lift_Ok & Hrun).
  apply M_bind_Ok in Hrun as (? & [] & [-> _]%lift_Ok & Hrun).
  apply M_bind_Ok in Hrun as (s1 & c & Hc & Hrun).
  apply M_bind_Ok in Hrun as (? & memo & [-> Hme%map_err_Ok]%lift_Ok & Hrun).
  apply M_bind_Ok in Hrun as (? & par & [-> Hpar]%lift_Ok & Hrun).
  apply M_bind_Ok in Hrun as (? & change & [-> Hch]%lift_Ok & Hrun). injection Hrun as <- <-.
  destruct (consume1_Ok _ _ _ _ _ Hc) as (ref & st & Eh & Hst & _ & -> & _).
  destruct (Hh _ _ Eh Hst) as (Hce & Hcev & Hne).
  destruct (owned_spend _ _ _ Hown Hsp Hpar) as (Hpath & Hnote & _ & Hverify).
  destruct (openSpend_Ok _ _ Hsource Hsp) as (Eidx & _).
  apply map_err_Ok in Hpar. destruct (Circuit.parents_spec _ _ Hpar) as [_ Hbound].
  destruct (self_note_proves _ _ _ _ _ _ Hch) as (Hvc & Hca & Hcv & Hcp & Hco & Hct & Hmint).
  destruct (incoming_note_proves _ _ _ _ _ _ _ _ Hme) as (Hvm & Hma & Hmv & Hmp & Hmt).
  rewrite Hpub in Hme. pose proof (Circuit.sp_asset _ _ (proj1 Hown)) as Hasset.
  destruct (Circuit.mint_incoming_spec eight_inv _ _ _ _ _ _ _ _ Hme) as (Hmin & w & ctm & Hw & _ & Hmc);
    try first [done | apply Hmemo | apply Hin].
  destruct (Circuit.mint_self_spec _ _ _ _ _ _ _ Hmint Hce Hcev Hz' Hasset) as (Hcpk & Hcin & ctc & _ & Hcc & _).
  unfold buildTransferInputMap. cbn [at_inputs ti_memoNote ti_recipientInPub ti_recipientMultisig ti_oldNote ti_changeNote].
  rewrite Hmt. cbn [memoRecipientPoints Z.eqb Mint.NOTE_TYPE_STANDARD Circuit.NOTE_TYPE_MULTISIG mbind result_bind].
  rewrite !marshal_ok by done. cbn [mbind result_bind]. eexists _, _. split; [reflexivity|].
  unfold Circuit.transfer. cbn. rewrite Hpub, Hnote, Hmin, Hcin, Hpath, Hcpk. cbn.
  rewrite Hverify. cbn. rewrite Hma, Hca, Z.eqb_refl, Hmp, Hmv, Hcv, Hmc, Hcc.
  rewrite (Circuit.conserved_spec _ (tr_value req) (value (sn_note (tr_input req)) - tr_value req) 0)
    by (try (apply Circuit.note_input_Some in Hnote); lia).
  rewrite (Hbound (Mint.m_note change)) by done.
  rewrite (proj2 (Z.eqb_neq (tr_memoEph req) _)) by congruence. cbn.
  split; [reflexivity|]. cbn. by rewrite Eidx, Hw.
Qed.

(** A withdrawal that is assembled proves: its inputs marshal and the
    withdraw circuit accepts them, with the root and the nullifier of the note, the
    note's asset and the change's leaf as public outputs, and the change is the
    note's value less the amount. *)
Theorem assembleWithdraw_proves req s s' out :
  owned (wr_input req) → sound_handle s (wr_changeMint req) 0 →
  wr_recipient req ≠ 0 → default 0 (wr_intentHash req) = 0 →
  Keys.Keys.pubkeyOwner (Keys.Keys.publicKey (wr_selfSpendScalar req)) ≠ 0 →
  assembleWithdraw req s = (s', Ok out) →
  ∃ m o, buildWithdrawInputMap (aw_inputs out) = Ok m ∧ Circuit.withdraw m = Some o ∧
    Circuit.w_value m = wr_value req ∧ Circuit.wo_root o = aw_root out ∧
    Circuit.wo_nullifier o = computeNullifier (psi (sn_note (wr_input req))) (sn_leafIndex (wr_input req)) ∧
    Circuit.wo_asset o = assetId (sn_note (wr_input req)) ∧
    Circuit.sm_leaf (Circuit.wo_change o) = Mint.commitment (aw_change out) ∧
    value (Mint.m_note (aw_change out)) = value (sn_note (wr_input req)) - wr_value req.
Proof.
  intros Hown Hh Hrec Hintent Hz Hrun. unfold assembleWithdraw, pure in Hrun.
  apply M_bind_Ok in Hrun as (? & sp & [-> Hsp]%lift_Ok & Hrun).
  apply M_bind_Ok in Hrun as (? & [] & [-> _]%lift_Ok & Hrun).
  apply M_bind_Ok in Hrun as (s1 & c & Hc & Hrun).
  apply M_bind_Ok in Hrun as (? & par & [-> Hpar]%lift_Ok & Hrun).
  apply M_bind_Ok in Hrun as (? & change & [-> Hch]%lift_Ok & Hrun).
  apply M_bind_Ok in Hrun as (? & v & [-> Hv]%lift_Ok & Hrun). injection Hrun as <- <-.
  unfold toFr in Hv. apply map_err_Ok, newFr_inv in Hv as [-> [Hpos _]].
  destruct (consume1_Ok _ _ _ _ _ Hc) as (ref & st & Eh & Hst & _ & -> & _).
  destruct (Hh _ _ Eh Hst) as (Hce & Hcev & _).
  destruct (owned_spend _ _ _ Hown Hsp Hpar) as (Hpath & Hnote & _ & Hverify).
  destruct (openSpend_Ok _ _ Hsource Hsp) as (Eidx & _).
  apply map_err_Ok in Hpar. destruct (Circuit.parents_spec _ _ Hpar) as [_ Hbound].
  destruct (self_note_proves _ _ _ _ _ _ Hch) as (Hvc & Hca & Hcv & Hcp & _ & _ & Hmint).
  pose proof (Circuit.sp_asset _ _ (proj1 Hown)) as Hasset.
  destruct (Circuit.mint_self_spec _ _ _ _ _ _ _ Hmint Hce Hcev Hz Hasset) as (Hcpk & Hcin & ctc & _ & Hcc & _).
  pose proof (proj1 (Circuit.note_input_Some _ _) Hnote) as Hold.
  unfold buildWithdrawInputMap, marshalU128, U128_MAX. change (Z.shiftl 1 128) with (2 ^ 128).
  cbn [aw_inputs wi_withdrawValue wi_oldNote wi_changeNote].
  rewrite (proj2 (Z.ltb_ge _ _)) by lia. rewrite !marshal_ok by done. cbn [mbind result_bind].
  eexists _, _. split; [reflexivity|]. unfold Circuit.withdraw. cbn.
  rewrite Hnote, Hcin, Hpath, Hcpk, (proj2 (Z.leb_le _ _)), (proj2 (Z.ltb_lt _ _)) by lia. cbn.
  rewrite (proj2 (Z.eqb_neq _ _) Hrec), Hintent. cbn. rewrite Hverify. cbn.
  rewrite Hca, Z.eqb_refl, Hcv, Hcc, (Hbound (Mint.m_note change)) by done.
  assert (Hcons : Circuit.assert_conserved [value (sn_note (wr_input req))]
    [value (sn_note (wr_input req)) - wr_value req] (wr_value req) = Some tt).
  { unfold Circuit.assert_conserved, Circuit.total, Circuit.add_u128.
    do 2 (rewrite (proj2 (Z.ltb_lt _ _)) by lia; cbn [mbind option_bind]). apply assert_true, Z.eqb_eq. lia. }
  rewrite Hcons. cbn. split; [reflexivity|]. cbn. by rewrite Eidx.
Qed.

(** A deposit that is assembled proves: the deposit circuit accepts its
    inputs and publishes the amount, the asset and the minted note's leaf and
    tag. *)
Theorem assembleDeposit_proves req s s' out :
  sound_handle s (dr_selfMint req) 0 → dr_assetId req < 2 ^ 160 →
  Keys.Keys.pubkeyOwner (Keys.Keys.publicKey (dr_spendScalar req)) ≠ 0 →
  assembleDeposit req s = (s', Ok out) →
  ∃ m o, buildDepositInputMap (ad_inputs out) = Ok m ∧ Circuit.deposit m = Some o ∧
    Circuit.do_value o = dr_value req ∧ Circuit.do_asset o = dr_assetId req ∧
    Circuit.do_leaf o = Mint.commitment (ad_minted out) ∧ Circuit.do_eph_x o = Mint.m_tag (ad_minted out) ∧
    owner (Mint.m_note (ad_minted out)) = Keys.Keys.pubkeyOwner (Keys.Keys.publicKey (dr_spendScalar req)).
Proof.
  intros Hh Hasset Hz Hrun. unfold assembleDeposit, pure in Hrun.
  apply M_bind_Ok in Hrun as (? & [] & [-> _]%lift_Ok & Hrun).
  apply M_bind_Ok in Hrun as (s1 & c & Hc & Hrun).
  apply M_bind_Ok in Hrun as (? & minted & [-> Hm]%lift_Ok & Hrun). injection Hrun as <- <-.
  destruct (consume1_Ok _ _ _ _ _ Hc) as (ref & st & Eh & Hst & _ & -> & _).
  destruct (Hh _ _ Eh Hst) as (He & Hev & _).
  destruct (self_note_proves _ _ _ _ _ _ Hm) as (Hv & Ha & Ev & Hp & Ho & _ & Hmint).
  destruct (Circuit.mint_self_spec _ _ _ _ _ _ _ Hmint He Hev Hz Hasset) as (Hcpk & Hin & ct & _ & _ & Hd).
  pose proof (Mint.finish_Ok _ _ _ _ _ _ _ _ Hmint) as (_ & _ & _ & _ & _ & _ & Epub & _ & Etag & _).
  unfold buildDepositInputMap. cbn [ad_inputs di_note]. rewrite marshal_ok by done. cbn [mbind result_bind].
  eexists _, _. split; [reflexivity|]. unfold Circuit.deposit. cbn. rewrite Hin, Hcpk, Hp. cbn. rewrite Hd. cbn.
  split; [reflexivity|]. cbn. by rewrite Ev, Ha, Epub, Etag.
Qed.

Lemma consume2_distinct h1 h2 k s s' m1 m2 : consume2 h1 h2 k s = (s', Ok (m1, m2)) → a_eph m1 ≠ a_eph m2.
Proof.
  unfold consume2. intros (s1 & ms & Hc & Hm)%M_bind_Ok. unfold consume in Hc.
  pose proof (consume_spec reg [h1; h2] (selfMintContext (Keys.Keys.pubkeyOwner (Keys.Keys.publicKey k))) s) as Hs.
  destruct (consumeSelfMints _ _ _ s) as [s2 r]. injection Hc as <- Hr%map_err_Ok. subst r.
  destruct Hs as (l & Hl & _ & _ & -> & Hsame & _).
  destruct l as [|[r1 st1] [|[r2 st2] [|]]]; try done. cbn in Hm. injection Hm as <- <- <-.
  cbn in Hsame. apply orb_false_iff in Hsame as [E%Z.eqb_neq _]. done.
Qed.
Lemma assembleJoin_comm a b k h :
  assembleJoin (mkJoinRequest b a k h) = assembleJoin (mkJoinRequest a b k h).
Proof.
  unfold assembleJoin. cbn [jr_inputA jr_inputB jr_selfSpendScalar jr_selfMint].
  rewrite (Z.eqb_sym (sn_leafIndex b)).
  destruct (Z.eqb_spec (sn_leafIndex a) (sn_leafIndex b)); [done|].
  destruct (Z.ltb_spec (sn_leafIndex a) (sn_leafIndex b)), (Z.ltb_spec (sn_leafIndex b) (sn_leafIndex a)); done || lia.
Qed.
(** A join of a pair in order. *)
Lemma assembleJoin_Ok a b k h s s' out : sn_leafIndex a < sn_leafIndex b →
  assembleJoin (mkJoinRequest a b k h) s = (s', Ok out) →
  let n := Mint.m_note (aj_out out) in
  value n = value (sn_note a) + value (sn_note b) ∧ assetId n = assetId (sn_note a) ∧
  assetId (sn_note a) = assetId (sn_note b) ∧
  owner n = Keys.Keys.pubkeyOwner (Keys.Keys.publicKey k) ∧
  unpackParents (parents n) = Ok (sn_leafIndex a, sn_leafIndex b) ∧
  (∃ p, openSpend a = Ok (mkSpend (sn_leafIndex a) p (aj_root out))) ∧
  ∃ p, openSpend b = Ok (mkSpend (sn_leafIndex b) p (aj_root out)).
Proof.
  intros Hlt. unfold assembleJoin, pure. cbn [jr_inputA jr_inputB jr_selfSpendScalar jr_selfMint].
  rewrite (proj2 (Z.eqb_neq _ _)), (proj2 (Z.ltb_lt _ _)) by lia.
  destruct (Z.eqb_spec (assetId (sn_note a)) (assetId (sn_note b))) as [Ea|]; [|done]. cbn [negb].
  intros (? & sa & [-> Ha]%lift_Ok & Hrun)%M_bind_Ok.
  apply M_bind_Ok in Hrun as (? & sb & [-> Hb]%lift_Ok & Hrun).
  destruct (Z.eqb_spec (s_root sa) (s_root sb)) as [Er|]; [|done]. cbn [negb] in Hrun.
  apply M_bind_Ok in Hrun as (s1 & c & Hc & Hrun).
  apply M_bind_Ok in Hrun as (? & par & [-> Hpar%map_err_Ok]%lift_Ok & Hrun).
  apply M_bind_Ok in Hrun as (? & o & [-> Ho]%lift_Ok & Hrun). injection Hrun as <- <-.
  destruct (self_note_proves _ _ _ _ _ _ Ho) as (_ & Hoa & Hov & Hop & Hoo & _). cbn [aj_out aj_root].
  destruct (openSpend_Ok _ _ Hsource Ha) as (Eia & _), (openSpend_Ok _ _ Hsource Hb) as (Eib & _).
  rewrite Hoa, Hov, Hop, Hoo, <- Eia, <- Eib. apply unpack_pack in Hpar. split_and!; try done.
  - exists (s_path sa). by destruct sa.
  - exists (s_path sb). rewrite Er. by destruct sb.
Qed.

(** Splitting conserves: the two outputs sum to the input, have its asset,
    the owner of the given key, the input's index as their parent, and different
    ephemerals. *)
Theorem split_conserves req s s' out : assembleSplit req s = (s', Ok out) →
  let old := sn_note (sr_input req) in
  let n1 := Mint.m_note (as_out1 out) in let n2 := Mint.m_note (as_out2 out) in
  value n1 + value n2 = value old ∧ value n1 = sr_value1 req ∧ 0 <= value n2 ∧
  assetId n1 = assetId old ∧ assetId n2 = assetId old ∧
  owner n1 = Keys.Keys.pubkeyOwner (Keys.Keys.publicKey (sr_selfSpendScalar req)) ∧ owner n2 = owner n1 ∧
  unpackParents (parents n1) = Ok (sn_leafIndex (sr_input req), 0) ∧ parents n2 = parents n1 ∧
  si_eph1 (as_inputs out) ≠ si_eph2 (as_inputs out).
Proof.
  intros Hrun. cbv zeta. unfold assembleSplit, pure in Hrun.
  apply M_bind_Ok in Hrun as (? & sp & [-> Hsp]%lift_Ok & Hrun).
  apply M_bind_Ok in Hrun as (? & [] & [-> _]%lift_Ok & Hrun).
  apply M_bind_Ok in Hrun as (? & [] & [-> _]%lift_Ok & Hrun).
  apply M_bind_Ok in Hrun as (s1 & [m1 m2] & Hc & Hrun).
  apply M_bind_Ok in Hrun as (? & par & [-> Hpar%map_err_Ok]%lift_Ok & Hrun).
  apply M_bind_Ok in Hrun as (? & o1 & [-> Hm1]%lift_Ok & Hrun).
  apply M_bind_Ok in Hrun as (? & o2 & [-> Hm2]%lift_Ok & Hrun). injection Hrun as <- <-.
  destruct (self_note_proves _ _ _ _ _ _ Hm1) as (_ & Ha1 & Hv1' & Hp1 & Ho1 & _).
  destruct (self_note_proves _ _ _ _ _ _ Hm2) as (Hr2 & Ha2 & Hv2' & Hp2 & Ho2 & _).
  destruct (openSpend_Ok _ _ Hsource Hsp) as (Eidx & _). cbn [as_out1 as_out2 as_inputs si_eph1 si_eph2].
  rewrite Hp1, Hp2, Ho1, Ho2, Ha1, Ha2, Hv1', Hv2', <- Eidx. apply unpack_pack in Hpar.
  split_and!; try done; [lia|lia|]. by eapply consume2_distinct.
Qed.

(** Joining conserves, whatever the order of the inputs: the output is the
    sum of the two, of their one asset and of the given owner, its parents are the
    two indices in increasing order, and both inputs open against the returned
    root. *)
Theorem join_conserves req s s' out : assembleJoin req s = (s', Ok out) →
  let a := jr_inputA req in let b := jr_inputB req in let n := Mint.m_note (aj_out out) in
  value n = value (sn_note a) + value (sn_note b) ∧
  assetId n = assetId (sn_note a) ∧ assetId n = assetId (sn_note b) ∧
  owner n = Keys.Keys.pubkeyOwner (Keys.Keys.publicKey (jr_selfSpendScalar req)) ∧
  (∃ lo hi, lo < hi ∧ unpackParents (parents n) = Ok (lo, hi) ∧
    lo = Z.min (sn_leafIndex a) (sn_leafIndex b) ∧ hi = Z.max (sn_leafIndex a) (sn_leafIndex b)) ∧
  (∃ p, openSpend a = Ok (mkSpend (sn_leafIndex a) p (aj_root out))) ∧
  ∃ p, openSpend b = Ok (mkSpend (sn_leafIndex b) p (aj_root out)).
Proof.
  destruct req as [a b k h]. cbn [jr_inputA jr_inputB jr_selfSpendScalar]. intros Hrun. cbv zeta.
  destruct (Z.lt_total (sn_leafIndex a) (sn_leafIndex b)) as [Hlt|[E|Hlt]].
  - destruct (assembleJoin_Ok _ _ _ _ _ _ _ Hlt Hrun) as (? & ? & ? & ? & ? & ? & ?).
    split_and!; try done; [congruence|]. exists (sn_leafIndex a), (sn_leafIndex b). split_and!; [done|done|lia|lia].
  - unfold assembleJoin in Hrun. cbn in Hrun. by rewrite E, Z.eqb_refl in Hrun.
  - rewrite <- assembleJoin_comm in Hrun.
    destruct (assembleJoin_Ok _ _ _ _ _ _ _ Hlt Hrun) as (? & ? & ? & ? & ? & ? & ?).
    split_and!; try done; [lia|congruence|].
    exists (sn_leafIndex b), (sn_leafIndex a). split_and!; [done|done|lia|lia].
Qed.

(** A refused consumption changes nothing. *)
Lemma consume1_Err h k s s' e : consume1 h k s = (s', Err e) → s' = s.
Proof.
  unfold consume1, mbind, M_bind. unfold consume.
  pose proof (consume_spec reg [h] (selfMintContext (Keys.Keys.pubkeyOwner (Keys.Keys.publicKey k))) s) as Hs.
  destruct (consumeSelfMints _ _ _ s) as [s2 [ms|e']]; cbn [map_err]; [|by intros [= <- _]].
  destruct Hs as (l & Hl & _ & _ & -> & _). destruct l as [|x l]; [done|]. cbn. by intros [= _].
Qed.

(** What a failed transfer costs.  Either it failed before the handle was
    consumed and nothing changed, or the handle is spent and the failure is of
    minting or of the packed index: those of a value or a key outside the range,
    which no check precedes. *)
Theorem transfer_failure req s s' e : assembleTransfer req s = (s', Err e) →
  s' = s ∨
  (∃ m, consume1 (tr_changeMint req) (tr_selfSpendScalar req) s = (s', Ok m)) ∧
  ((∃ e', e = Minting e') ∨ ∃ e', e = Packing e').
Proof.
  unfold assembleTransfer, pure. unfold mbind at 1, M_bind at 1, lift at 1.
  destruct (openSpend _) as [sp|]; [|intros [= <- _]; by left].
  unfold mbind at 1, M_bind at 1, lift at 1.
  destruct (assertPositive _) as [[]|]; [|intros [= <- _]; by left].
  unfold mbind at 1, M_bind at 1.
  destruct (consume1 _ _ s) as [s1 [m|e1]] eqn:Hc; [|intros [= <- _]; left; by eapply consume1_Err].
  unfold mbind, M_bind, lift, packing, self_note, map_err. intros Hrun. right.
  repeat case_match; simplify_eq; split; eauto.
Qed.
End Assemble.
End Assemble.

(** ** Witnesses: two notes of one owner in a tree of two leaves *)
Module AssembleWitness.
Import EvenCurve MintWitness DiscoveryWitness SelfMint.SelfMintWitness Trace.Note
  Preflight.Authorization Marshal Assemble.

#[local] Instance sum_v1 : PoseidonV1 := λ xs, sumZ (λ x, x) xs mod MODULUS.
Lemma sum_v1_field xs : in_field (poseidon_v1 xs).
Proof. apply Z.mod_pos_bound. reflexivity. Qed.

Definition toy_owner : Z := Keys.Keys.pubkeyOwner (Keys.Keys.publicKey 4).
Definition toy_note (v : Z) : Note := mkNote 1 9 0 0 v toy_owner 3 0.
Definition leaf_a : Z := poseidon2 [1; 9; 0; 0; 100; toy_owner; 3; 0].
Definition leaf_b : Z := poseidon2 [1; 9; 0; 0; 50; toy_owner; 3; 0].
Definition toy_root : Z := poseidonV1Hash3 leaf_a leaf_b 0.
Definition toy_source (l : Z) : result Witness.WitnessSourceError Witness.MerkleWitness :=
  if l =? leaf_a then Ok (Witness.mkMerkleWitness 0 (leaf_b :: replicate 31 0) toy_root)
  else if l =? leaf_b then Ok (Witness.mkMerkleWitness 1 (leaf_a :: replicate 31 0) toy_root)
  else Err (Witness.WitnessError Witness.LEAF_NOT_FOUND).
Lemma toy_source_verified : witness_verified toy_source.
Proof.
  assert (Hz : ∀ x, in_field x → Forall in_field (x :: replicate 31 0)).
  { intros x Hx. constructor; [done|]. by apply Forall_replicate. }
  intros l w. unfold toy_source. destruct (Z.eqb_spec l leaf_a) as [->|_].
  { intros [= <-]. split_and!; [done|apply Hz; apply poseidon2_field|reflexivity]. }
  destruct (Z.eqb_spec l leaf_b) as [->|_]; [|done].
  intros [= <-]. split_and!; [done|apply Hz; apply poseidon2_field|reflexivity].
Qed.

Definition toy_a : SpendableNote := mkSpendable (toy_note 100) leaf_a 0 4.
Definition toy_b : SpendableNote := mkSpendable (toy_note 50) leaf_b 1 4.
Lemma owned_a : owned toy_a.
Proof. split_and!; [|reflexivity|apply poseidon2_field]. by split. Qed.

Definition toy_ctx : AssemblyContext :=
  mkAssemblyContext (Keys.Keys.publicKey 3) 2 (0, toy_history) 1 "0xABABabababababababababababababababababab" 0.
Definition toy_handles : Preflight.Authorization.Handles := Preflight.Preflight.handles toy_take.1.
Lemma toy_handle ref avoid : ref = 0 ∨ ref = 1 → avoid ≠ 1 → avoid ≠ 2 → sound_handle toy_handles (HObj ref) avoid.
Proof.
  intros Href H1 H2 ref' st [= <-] E. destruct Href as [-> | ->]; vm_compute in E; injection E as <-;
    (split_and!; [apply valid_small; cbn; lia|reflexivity|cbn; congruence]).
Qed.
Lemma even_small k : 0 < k < 13 → Keys.Keys.isEvenY (Keys.Keys.publicKey k) = true → even_key k.
Proof. intros Hk He. split; [by apply valid_small|done]. Qed.
Lemma inverse_of_8 : 8 * 5 =[subOrder] 1.
Proof. by apply eqm_iff. Qed.

Definition toy_transfer : TransferRequest := mkTransferRequest toy_a 40 (Keys.Keys.publicKey 7) 7 4 5 (HObj 0).
Definition transferred := assembleTransfer toy_registry toy_source toy_ctx toy_transfer toy_handles.
Lemma assembleTransfer_proves_witness : ∃ out m o, transferred.2 = Ok out ∧
  buildTransferInputMap (at_inputs out) = Ok m ∧ Circuit.transfer 5 m = Some o ∧ Circuit.to_root o = toy_root ∧
  value (Mint.m_note (at_change out)) = 60.
Proof.
  destruct transferred as [s' [out|e]] eqn:E; [|vm_compute in E; discriminate E].
  destruct (assembleTransfer_proves toy_registry toy_source toy_ctx 5 sum_v1_field ltac:(lia) inverse_of_8
    toy_source_verified toy_transfer 7 toy_handles s' out) as (m & o & Hm & Ho & Hr & _ & _ & _ & _ & _ & _ & Hc & _).
  - apply owned_a.
  - reflexivity.
  - apply even_small; [cbn; lia|by vm_compute].
  - apply even_small; [cbn; lia|by vm_compute].
  - apply toy_handle; [by left|done|done].
  - by vm_compute.
  - by vm_compute.
  - exact E.
  - exists out, m, o. split_and!; [reflexivity|exact Hm|exact Ho| |exact Hc]. rewrite Hr. vm_compute in E. by injection E as <- <-.
Defined.

Definition toy_withdraw : WithdrawRequest := mkWithdrawRequest toy_a 40 77 4 (HObj 1) None.
Definition withdrawn := assembleWithdraw toy_registry toy_source toy_ctx toy_withdraw toy_handles.
Lemma assembleWithdraw_proves_witness : ∃ out m o, withdrawn.2 = Ok out ∧
  buildWithdrawInputMap (aw_inputs out) = Ok m ∧ Circuit.withdraw m = Some o ∧ Circuit.w_value m = 40 ∧
  Circuit.wo_asset o = 9.
Proof.
  destruct withdrawn as [s' [out|e]] eqn:E; [|vm_compute in E; discriminate E].
  destruct (assembleWithdraw_proves toy_registry toy_source toy_ctx sum_v1_field toy_source_verified toy_withdraw
    toy_handles s' out) as (m & o & Hm & Ho & Hv & _ & _ & Ha & _).
  - apply owned_a.
  - apply toy_handle; [by right|done|done].
  - done.
  - reflexivity.
  - by vm_compute.
  - exact E.
  - exists out, m, o. exact (conj eq_refl (conj Hm (conj Ho (conj Hv Ha)))).
Defined.

Definition toy_deposit : DepositRequest := mkDepositRequest 40 9 4 (HObj 1).
Definition deposited := assembleDeposit toy_registry toy_ctx toy_deposit toy_handles.
Lemma assembleDeposit_proves_witness : ∃ out m o, deposited.2 = Ok out ∧
  buildDepositInputMap (ad_inputs out) = Ok m ∧ Circuit.deposit m = Some o ∧ Circuit.do_value o = 40.
Proof.
  destruct deposited as [s' [out|e]] eqn:E; [|vm_compute in E; discriminate E].
  destruct (assembleDeposit_proves toy_registry toy_ctx toy_deposit toy_handles s' out)
    as (m & o & Hm & Ho & Hv & _).
  - apply toy_handle; [by right|done|done].
  - reflexivity.
  - by vm_compute.
  - exact E.
  - exists out, m, o. exact (conj eq_refl (conj Hm (conj Ho Hv))).
Defined.

Definition toy_split : SplitRequest := mkSplitRequest toy_a 30 4 (HObj 1) (HObj 0).
Definition split_done := assembleSplit toy_registry toy_source toy_ctx toy_split toy_handles.
Lemma split_conserves_witness : ∃ out, split_done.2 = Ok out ∧
  value (Mint.m_note (as_out1 out)) + value (Mint.m_note (as_out2 out)) = 100.
Proof.
  destruct split_done as [s' [out|e]] eqn:E; [|vm_compute in E; discriminate E]. exists out. split; [reflexivity|].
  by destruct (split_conserves toy_registry toy_source toy_ctx toy_source_verified toy_split toy_handles s' out E).
Defined.

Definition toy_join : JoinRequest := mkJoinRequest toy_b toy_a 4 (HObj 0).
Definition joined := assembleJoin toy_registry toy_source toy_ctx toy_join toy_handles.
Lemma join_conserves_witness : ∃ out, joined.2 = Ok out ∧ value (Mint.m_note (aj_out out)) = 150.
Proof.
  destruct joined as [s' [out|e]] eqn:E; [|vm_compute in E; discriminate E]. exists out. split; [reflexivity|].
  by destruct (join_conserves toy_registry toy_source toy_ctx toy_source_verified toy_join toy_handles s' out E).
Defined.

(** A value past 128 bits is refused only by minting. *)
Definition toy_overdraft : TransferRequest :=
  mkTransferRequest toy_a (-1) (Keys.Keys.publicKey 7) 7 4 5 (HObj 0).
Lemma transfer_failure_witness : ∃ s' e, assembleTransfer toy_registry toy_source toy_ctx toy_overdraft toy_handles = (s', Err e) ∧
  consumed <$> (authorizationStates s' !! 0) = Some true ∧
  (s' = toy_handles ∨ ∃ m, consume1 toy_registry toy_ctx (HObj 0) 4 toy_handles = (s', Ok m)).
Proof.
  destruct (assembleTransfer toy_registry toy_source toy_ctx toy_overdraft toy_handles) as [s' [out|e]] eqn:E;
    [vm_compute in E; discriminate E|]. exists s', e. split_and!; [done| |].
  - vm_compute in E. by injection E as <- _.
  - destruct (transfer_failure toy_registry toy_source toy_ctx toy_overdraft toy_handles s' e E) as [|[H _]]; [by left|by right].
Defined.

(** The circuit's two theorems on the assembled transfer. *)
Lemma inclusion_agrees_witness :
  Circuit.lean_imt_inclusion_proof leaf_b 1 (leaf_a :: replicate 31 0) = Some toy_root.
Proof.
  rewrite (Circuit.inclusion_agrees leaf_b 1 (leaf_a :: replicate 31 0) sum_v1_field); [reflexivity| | |lia].
  - apply poseidon2_field.
  - constructor; [apply poseidon2_field|]. by apply Forall_replicate.
Defined.
Lemma transfer_sound_witness : ∃ m o, Circuit.transfer 5 m = Some o ∧
  value (Circuit.t_old_note m) = value (Circuit.t_memo_note m) + value (Circuit.t_change_note m).
Proof.
  destruct transferred as [s' [out|e]] eqn:E; [|vm_compute in E; discriminate E].
  destruct (buildTransferInputMap (at_inputs out)) as [m|] eqn:Em;
    [|vm_compute in E; injection E as _ <-; vm_compute in Em; discriminate Em].
  destruct (Circuit.transfer 5 m) as [o|] eqn:Eo;
    [|vm_compute in E; injection E as _ <-; vm_compute in Em; injection Em as <-; vm_compute in Eo; discriminate Eo].
  exists m, o. split; [exact Eo|].
  apply (Circuit.transfer_sound 5 m o); [|exact Eo].
  vm_compute in E. injection E as _ <-. vm_compute in Em. injection Em as <-. by vm_compute.
Defined.
End AssembleWitness.
