(* ===== verification/Multisig.v ===== *)
(** * Group notes ([frost/multisigNote.ts], [frost/groupViewKey.ts])

    [GroupView] derives the view key of a group, [MultisigNote] the key material
    of its notes: receiving addresses, self ephemerals from a durable counter,
    and what a member recomputes to read a note.  [GroupAllocator] shows that a
    member's ephemerals keep the laws of an allocator, so that the one-shot
    theorems hold for groups as well.  [Fr.toString] is a parameter. *)
From stdpp Require Import pretty.
From S2P Require Import Prelude Bytes Zq Tss Dkg Keys Trace Mint State Keyring Discovery Compliance Frost Preflight SelfMint.
Local Open Scope Z_scope.

Inductive MsError :=
  | Ms_key (e : KeyErr) | Ms_mint (e : MintError) | Ms_counter (e : CounterError)
  | Ms_authorization (e : Preflight.Authorization.AuthError) | Ms_provenance (e : Preflight.Provenance.TypeError)
  | View_odd | No_even_view | No_even_tag (member start : Z) | No_even_reservation (member : Z)
  | Inconsistent_pub | Inconsistent_tag.

(** ** [groupViewKey.ts] *)
Module GroupView.
Import Keys.Keys.
Section GroupView.
Context `{BabyJubjub} `{Poseidon2}.

Definition MS_VIEW_LABEL : string := "kakure.msView".
Definition MAX_VIEW_ROLL : nat := 256.
Record GroupViewKey := mkViewKey { vk_v : Z; vk_V : Point; vk_roll : Z }.

(** The scalar of one roll. *)
Definition view_at (secret : Z) (gpk : Point) (roll : Z) : result MsError Z :=
  x ← map_err Ms_key (toFr gpk.1);
  y ← map_err Ms_key (toFr gpk.2);
  i ← map_err Ms_key (toFr roll);
  let salt := poseidon2 [x; y; i] in
  k ← map_err Ms_key (derive MS_VIEW_LABEL secret (Some salt));
  Ok (toBjjScalar k).
Fixpoint view_loop (attempts : nat) (secret : Z) (gpk : Point) (roll : Z) : result MsError GroupViewKey :=
  match attempts with
  | O => Err No_even_view
  | S attempts =>
      v ← view_at secret gpk roll;
      let V := publicKey v in
      if isEvenY V then Ok (mkViewKey v V roll) else view_loop attempts secret gpk (roll + 1)
  end.
(** Both entry points run this loop: the deprecated one on a member's own view
    key, the other on the secret that the group shares. *)
Definition deriveGroupViewKey (skView : Z) (gpk : Point) : result MsError GroupViewKey :=
  view_loop MAX_VIEW_ROLL skView gpk 0.
Definition deriveGroupViewKeyFromSecret (gvs : Z) (gpk : Point) : result MsError GroupViewKey :=
  view_loop MAX_VIEW_ROLL gvs gpk 0.

Lemma view_loop_spec n secret gpk roll k : view_loop n secret gpk roll = Ok k →
  view_at secret gpk (vk_roll k) = Ok (vk_v k) ∧ vk_V k = publicKey (vk_v k) ∧ isEvenY (vk_V k) = true ∧
  roll <= vk_roll k < roll + Z.of_nat n ∧
  ∀ j, roll <= j < vk_roll k → ∃ v, view_at secret gpk j = Ok v ∧ isEvenY (publicKey v) = false.
Proof.
  revert roll. induction n as [|n IH]; intros roll; cbn [view_loop]; [done|].
  intros (v & Hv & H3)%bind_Ok. revert H3. destruct (isEvenY (publicKey v)) eqn:Ev.
  - intros [= <-]. cbn [vk_roll vk_V vk_v]. split_and!; [done..|lia|lia|intros; lia].
  - intros (H1 & H2 & H3 & H4 & H5)%IH. split_and!; [done..|lia|lia|].
    intros j Hj. destruct (decide (j = roll)) as [->|]; [by eauto|]. apply H5. lia.
Qed.

(** *** One key for the whole group *)
Context {L : BabyJubjubLaws} {PF : Poseidon2Field}.

Lemma even_nonzero k : 0 <= k < subOrder → isEvenY (publicKey k) = true → 0 < k.
Proof.
  intros Hk He. destruct (decide (k = 0)) as [->|]; [|lia]. unfold isEvenY, publicKey in He. by rewrite mul_zero in He.
Qed.
Lemma toBjjScalar_bound k : in_field k → 0 <= toBjjScalar k < subOrder.
Proof.
  intros [Hk _]. pose proof Bjj.q_pos. unfold Bjj.SUBORDER in *. unfold toBjjScalar.
  rewrite Z.rem_mod_nonneg by lia. apply Z.mod_pos_bound. lia.
Qed.
Lemma derive_field purpose master nonce k : derive purpose master nonce = Ok k → in_field k.
Proof. unfold derive. intros (p & _ & [= <-])%bind_Ok. apply PF. Qed.
Lemma view_at_bound secret gpk roll v : view_at secret gpk roll = Ok v → 0 <= v < subOrder.
Proof.
  unfold view_at. intros (x & _ & (y & _ & (i & _ & (k & Hk%map_err_Ok & [= <-])%bind_Ok)%bind_Ok)%bind_Ok)%bind_Ok.
  by eapply toBjjScalar_bound, derive_field.
Qed.

(** One receiving key for the group: members that hold the same valid
    contributions, in whatever order they arrived, derive the same view key or
    fail alike; the key is the scalar of the first roll whose point has an even
    y, it is not zero, and the published point is its public key. *)
Theorem group_view_agreement sha256 contribs contribs' gpk :
  contribs ≡ₚ contribs' → GroupSecret.valid contribs →
  ∃ gvs, GroupSecret.combineGroupViewContributions sha256 contribs gpk = Ok gvs ∧
    GroupSecret.combineGroupViewContributions sha256 contribs' gpk = Ok gvs ∧
    ∀ k, deriveGroupViewKeyFromSecret gvs gpk = Ok k →
      vk_V k = publicKey (vk_v k) ∧ isEvenY (vk_V k) = true ∧ 0 < vk_v k < subOrder ∧ 0 <= vk_roll k < 256 ∧
      ∀ j, 0 <= j < vk_roll k → ∃ v, view_at gvs gpk j = Ok v ∧ isEvenY (publicKey v) = false.
Proof.
  intros Hp Hv. destruct (GroupSecret.combineGroupViewContributions_order sha256 contribs contribs' gpk Hp) as (Hok & _ & He).
  specialize (He Hv). apply Hok in Hv.
  destruct (GroupSecret.combineGroupViewContributions sha256 contribs gpk) as [gvs|]; [|done].
  exists gvs. split_and!; [done|done|]. intros k Hk. apply view_loop_spec in Hk as (Hat & HV & Hev & Hr & Hmin).
  pose proof (view_at_bound _ _ _ _ Hat) as Hb. rewrite HV in Hev.
  pose proof (even_nonzero _ Hb Hev). change (Z.of_nat MAX_VIEW_ROLL) with 256 in Hr.
  split_and!; [done|congruence|lia|lia|lia|lia|done].
Qed.
End GroupView.
End GroupView.

(** ** [multisigNote.ts] *)
Module MultisigNote.
Import Keys.Keys Kem State.
Section MultisigNote.
Context `{BabyJubjub} `{Poseidon2} (fr_toString : Z → string).

Definition SELF_EPH_LABEL : string := "kakure.msSelfEph".
Definition IN_KEY_LABEL : string := "kakure.msInKey".
Definition MAX_INDEX_ROLL : nat := 256.

Definition depositScope (v memberId : Z) : string :=
  "msSelf:" +:+ fr_toString (poseidon2 [v]) +:+ ":" +:+ pretty memberId.

Record MultisigAddress := mkAddress { ad_owner : Z; ad_gpk : Point; ad_viewPub : Point; ad_index : Z }.
Definition assertEvenYViewPub (viewPub : Point) : result MsError unit :=
  if negb (isEvenY viewPub) then Err View_odd else Ok tt.

Definition deriveMultisigIncomingKey (v index : Z) : result KeyErr Z :=
  i ← toFr index; k ← derive IN_KEY_LABEL v (Some i); Ok (toBjjScalar k).

Record IncomingKeyAt := mkKeyAt { ka_index : Z; ka_viewKey : Z; ka_viewPub : Point }.
Definition multisigIncomingKeyAt (v startIndex : Z) : result KeyErr IncomingKeyAt :=
  canonical ← rollToEvenY (deriveMultisigIncomingKey v) startIndex;
  viewKey ← deriveMultisigIncomingKey v (Keys.Keys.index canonical);
  Ok (mkKeyAt (Keys.Keys.index canonical) viewKey (pub canonical)).

Definition multisigAddress (gpk : Point) (v index : Z) : result MsError MultisigAddress :=
  let ownerCommitment := BjjSuite.multisigOwner gpk in
  key ← map_err Ms_key (multisigIncomingKeyAt v index);
  _ ← assertEvenYViewPub (ka_viewPub key);
  Ok (mkAddress ownerCommitment gpk (ka_viewPub key) (ka_index key)).

Record IncomingMultisigNote := mkIncomingNote {
  im_owner : Z; im_cek : Z; im_cekWrap : Z; im_tag : Z; im_ephPub : Point }.
Definition buildIncomingMultisigNote (eph : Z) (compliancePk gpk viewPub : Point) :
    result MsError IncomingMultisigNote :=
  _ ← assertEvenYViewPub viewPub;
  let owner := BjjSuite.multisigOwner gpk in
  cek ← map_err Ms_mint (deriveCek eph compliancePk);
  cekWrap ← map_err Ms_mint (wrapCek cek eph viewPub);
  tag ← map_err Ms_key (toFr viewPub.1);
  Ok (mkIncomingNote owner cek cekWrap tag (Bjj.scalarBaseMul eph)).

Definition memberReadIncoming (cekWrap v : Z) (ephPub : Point) : result MintError Z := unwrapCek cekWrap v ephPub.

Definition memberSalt (memberId j : Z) : result KeyErr Z :=
  m ← toFr memberId; j ← toFr j; Ok (poseidon2 [m; j]).
Definition deriveSelfEph (v memberId j : Z) : result KeyErr (Z * Point) :=
  salt ← memberSalt memberId j;
  k ← derive SELF_EPH_LABEL v (Some salt);
  let eph := toBjjScalar k in
  Ok (eph, Bjj.scalarBaseMul eph).

Record CanonicalMultisigSelfTag := mkSelfTag { st_eph : Z; st_ephPub : Point; st_j : Z; st_tag : Z }.
Fixpoint self_tag_loop (attempts : nat) (v memberId startJ j : Z) : result MsError CanonicalMultisigSelfTag :=
  match attempts with
  | O => Err (No_even_tag memberId startJ)
  | S attempts =>
      '(eph, ephPub) ← map_err Ms_key (deriveSelfEph v memberId j);
      if isEvenY ephPub then tag ← map_err Ms_key (toFr ephPub.1); Ok (mkSelfTag eph ephPub j tag)
      else self_tag_loop attempts v memberId startJ (j + 1)
  end.
Definition canonicalMultisigSelfTag (v memberId startJ : Z) : result MsError CanonicalMultisigSelfTag :=
  self_tag_loop MAX_INDEX_ROLL v memberId startJ startJ.

(** *** A self note from an authorization *)
Import Preflight.Provenance Preflight.Authorization.

Record SelfMultisigNote := mkSelfNote { sn_cek : Z; sn_tag : Z; sn_ephPub : Point }.
Record SelfMintDomain := mkMintDomain { sd_chainId : JsVal; sd_poolAddress : JsVal; sd_deploymentAnchor : JsVal }.
Definition buildSelfNote (reg : History.Registry) (authorization : Handle) (compliancePk : Point)
    (complianceVersion : JsVal) (history : Z * History.CompleteComplianceHistory) (domain : SelfMintDomain)
    (gpk : Point) : M Handles MsError SelfMultisigNote :=
  let ownerCommitment := BjjSuite.multisigOwner gpk in
  mints ← (λ s, let '(s, r) := consumeSelfMints reg [authorization]
                  (mkExpected (JFr ownerCommitment) (JArr [JBig compliancePk.1; JBig compliancePk.2])
                     complianceVersion history (sd_chainId domain) (sd_poolAddress domain)
                     (sd_deploymentAnchor domain)) s in
                (s, map_err Ms_authorization r));
  match mints with
  | mint :: _ =>
      let ephPub := Bjj.scalarBaseMul (a_eph mint) in
      if negb (ephPub.1 =? (a_ephPub mint).1) || negb (ephPub.2 =? (a_ephPub mint).2) then throw Inconsistent_pub
      else
        x ← lift Ms_key (toFr ephPub.1);
        if negb (a_tag mint =? x) then throw Inconsistent_tag
        else cek ← lift Ms_mint (deriveCek (a_eph mint) compliancePk); mret (mkSelfNote cek (a_tag mint) ephPub)
  | [] => throw Inconsistent_pub
  end.

Definition memberReadSelf (v memberId j : Z) (compliancePk : Point) : result MsError Z :=
  e ← map_err Ms_key (deriveSelfEph v memberId j); map_err Ms_mint (deriveCek e.1 compliancePk).

(** *** Ephemerals from the durable counter *)
Section counter.
Context {S : Type} `{EphemeralCounterStore S}.

Record MultisigSelfMint := mkMint { mm_eph : Z; mm_ephPub : Point; mm_tag : Z; mm_j : Z; mm_memberId : Z; mm_index : Z }.
Fixpoint deposit_loop (attempts : nat) (v memberId : Z) (gpk : Point) : M S MsError (MultisigSelfMint * Z) :=
  match attempts with
  | O => throw (No_even_reservation memberId)
  | Datatypes.S attempts =>
      reservation ← (λ s, let '(s, r) := reserve (depositScope v memberId) 1 s in (s, map_err Ms_counter r));
      let j := base reservation in
      e ← lift Ms_key (deriveSelfEph v memberId j);
      if negb (isEvenY e.2) then deposit_loop attempts v memberId gpk
      else
        _ ← lift Ms_counter (commit reservation j);
        tag ← lift Ms_key (toFr e.2.1);
        mret (mkMint e.1 e.2 tag j memberId j, BjjSuite.multisigOwner gpk)
  end.
(** The mint is returned with the owner commitment it is marked with. *)
Definition multisigDepositEph (v memberId : Z) (gpk : Point) : M S MsError (MultisigSelfMint * Z) :=
  deposit_loop MAX_INDEX_ROLL v memberId gpk.

(** [markDerivedSelfMintCandidate({ eph, ephPub, tag, j, memberId, index })]. *)
Definition mint_object (ref : Z) (m : MultisigSelfMint) : Candidate :=
  mkCandidate ref [("eph", JFr (mm_eph m)); ("ephPub", JArr [JBig (mm_ephPub m).1; JBig (mm_ephPub m).2]);
                   ("tag", JFr (mm_tag m)); ("j", JBig (mm_j m)); ("memberId", JBig (mm_memberId m));
                   ("index", JNum (mm_index m))].

Context {CL : CounterLaws S}.
Lemma deposit_loop_spec n v memberId gpk s s' r : deposit_loop n v memberId gpk s = (s', r) →
  let scope := depositScope v memberId in
  (∀ sc, highWater sc s <= highWater sc s') ∧
  ∀ m o, r = Ok (m, o) → o = BjjSuite.multisigOwner gpk ∧ mm_memberId m = memberId ∧ mm_j m = mm_index m ∧
    deriveSelfEph v memberId (mm_index m) = Ok (mm_eph m, mm_ephPub m) ∧ isEvenY (mm_ephPub m) = true ∧
    mm_tag m = (mm_ephPub m).1 ∧ highWater scope s <= mm_index m < highWater scope s'.
Proof.
  cbv zeta. set (scope := depositScope v memberId).
  revert s. induction n as [|n IH]; intros s; cbn [deposit_loop]; [intros [= <- <-]; split; [done|done]|].
  fold scope. unfold mbind at 1, M_bind at 1.
  assert (Hm : ∀ sc, highWater sc s <= highWater sc (reserve scope 1 s).1) by (intros; apply reserve_mono).
  destruct (reserve scope 1 s) as [s1 [res|err]] eqn:E; cbn [map_err]; cbn [fst] in Hm.
  2: { intros [= <- <-]. split; [exact Hm|done]. }
  destruct (reserve_ok _ _ _ _ _ E) as (_ & Hspan & Hb & Hb').
  unfold mbind at 1, M_bind at 1, lift at 1.
  destruct (deriveSelfEph v memberId (base res)) as [[e p]|] eqn:Ed; cbn [snd fst].
  2: { intros [= <- <-]. split; [exact Hm|done]. }
  destruct (isEvenY p) eqn:Ev; cbn [negb].
  2: { intros [Hw Hs]%IH. split; [intros sc; specialize (Hw sc); specialize (Hm sc); lia|].
       intros m o Hr. destruct (Hs m o Hr) as (? & ? & ? & ? & ? & ? & ?). pose proof (Hm scope). split_and!; [done..|lia|lia]. }
  unfold mbind at 1, M_bind at 1, lift at 1, commit. rewrite Hspan.
  rewrite (proj2 (Z.ltb_ge _ _)), (proj2 (Z.leb_gt _ _)) by lia. cbn [orb].
  unfold mbind, M_bind, lift. destruct (toFr p.1) as [t|] eqn:Et; [|intros [= <- <-]; split; [exact Hm|done]].
  intros [= <- <-]. split; [exact Hm|]. intros m o [= <- <-]. cbn.
  assert (t = p.1) as -> by (revert Et; unfold toFr; destruct (_ && _); by intros [= <-]).
  split_and!; [done..|lia|lia].
Qed.
End counter.
End MultisigNote.
End MultisigNote.

(** ** A member's counter as an allocator of self mints *)
Module GroupAllocator.
Import State MultisigNote Preflight.Provenance Preflight.Authorization Preflight.Preflight.
Section GroupAllocator.
Context {S : Type} `{EphemeralCounterStore S} `{BabyJubjub} `{Poseidon2}.
Context (fr_toString : Z → string) (v memberId : Z) (gpk : Point).
Context {D : Type} (discovery : list Z → D → D * option JsVal).

(** The durable counters, the identity of the next object, and the discovery
    service. *)
Record Env := mkEnv { counters : S; next_ref : Z; service : D }.

Definition group_next (al : Env * Ledger) : (Env * Ledger) * option Candidate :=
  let '(a, l) := al in
  match multisigDepositEph fr_toString v memberId gpk (counters a) with
  | (s, Err _) => ((mkEnv s (next_ref a) (service a), l), None)
  | (s, Ok (m, ownerCommitment)) =>
      let '(l, r) := markDerivedSelfMintCandidate (mint_object (next_ref a) m) ownerCommitment l in
      ((mkEnv s (next_ref a + 1) (service a), l), match r with Ok c => Some c | Err _ => None end)
  end.
Instance group_environment : Environment Env := {|
  next := group_next;
  probeFirst tags a := let '(d, r) := discovery tags (service a) in (mkEnv (counters a) (next_ref a) d, r) |}.

(** What else may happen: another deposit, any reservation on the shared store
    (of another member, group or wallet), a restart on the same store. *)
Inductive group_evolves : Env * Ledger → Env * Ledger → Prop :=
  | Evolve_next al al' c : group_next al = (al', c) → group_evolves al al'
  | Evolve_reserve a l scope n ref d : next_ref a <= ref →
      group_evolves (a, l) (mkEnv (reserve scope n (counters a)).1 ref d, l).

Context {CL : CounterLaws S}.
Notation water a := (highWater (depositScope fr_toString v memberId) (counters a)).

Definition entry_ok (a : Env) (r : Z) (p : DerivedSelfMintProvenance) : Prop :=
  r < next_ref a ∧ p_owner p = BjjSuite.multisigOwner gpk ∧
  deriveSelfEph v memberId (p_index p) = Ok (p_eph p, p_ephPub p) ∧ p_index p < water a.
Definition group_ok (a : Env) (l : Ledger) : Prop :=
  map_Forall (entry_ok a) l ∧ distinct_index l.

Lemma group_ok_mono a a' l : group_ok a l → next_ref a <= next_ref a' → water a <= water a' → group_ok a' l.
Proof.
  intros [He Hd] Hr Hw. split; [|done]. intros r p Hp. destruct (He r p Hp) as (? & ? & ? & ?).
  split_and!; [lia|done|done|lia].
Qed.
Lemma group_next_ok a l a' l' c : group_ok a l → group_next (a, l) = ((a', l'), c) → group_ok a' l' ∧ l ⊆ l'.
Proof.
  intros Hok. unfold group_next, multisigDepositEph.
  destruct (deposit_loop _ _ _ _ _ _) as [s r] eqn:E. destruct (deposit_loop_spec _ _ _ _ _ _ _ _ E) as [Hw Hs].
  pose proof (Hw (depositScope fr_toString v memberId)) as Hw'. destruct r as [[m o]|e].
  2: { intros [= <- <- <-]. split; [|done]. by apply (group_ok_mono a). }
  intros [= <- <- <-]. destruct (Hs m o eq_refl) as (-> & _ & _ & Hd & _ & _ & Hi).
  assert (Hnew : l !! next_ref a = None).
  { destruct (l !! next_ref a) as [p|] eqn:Hp; [|done]. destruct Hok as [Hall _]. destruct (Hall _ _ Hp) as (? & _). lia. }
  cbn [mint_object c_ref]. split; [|by apply insert_subseteq].
  destruct (group_ok_mono a (mkEnv s (next_ref a + 1) (service a)) l Hok) as [Hall Hdist]; [cbn; lia|exact Hw'|].
  split.
  - apply map_Forall_insert_2; [|done]. cbn [p_owner p_index p_eph p_ephPub]. split_and!; cbn [next_ref counters p_index];
      [lia|done|by destruct (mm_ephPub m)|lia].
  - apply distinct_insert; [done|]. cbn [p_index]. intros r q Hq _. destruct Hok as [Hall' _].
    destruct (Hall' _ _ Hq) as (_ & _ & _ & ?). lia.
Qed.

Instance group_laws : AllocatorLaws Env.
Proof.
  refine {| env_ok := group_ok; evolves := group_evolves |}.
  - intros a l a' l' c. apply group_next_ok.
  - intros a l a' tags r Hok. cbn. destruct (discovery _ _) as [d r']. intros [= <- <-].
    by apply (group_ok_mono a).
  - intros a l c o [Hall Hd]. by apply claim_preserves.
  - intros a l a' l' Hok He. inversion He as [? ? c Hn|a0 l0 scope n ref d Href]; subst.
    + by eapply group_next_ok.
    + split; [|done]. apply (group_ok_mono a); [done|done|]. apply reserve_mono.
  - intros a l r r' p p' [_ Hd] Hp Hp' _. by apply Hd.
Defined.

(** C11. A group member never mints with one self ephemeral twice: in any run
    of preflights over the member's durable counter, consumptions of their
    handles, other deposits, reservations of anybody else on the shared store
    and restarts, the candidates handed to mints have pairwise distinct
    indices, and each scalar is the derivation of its index in the member's
    family. *)
Theorem group_ephemeral_once s0 ref d outs w :
  OneShot.Run (BjjSuite.multisigOwner gpk) (OneShot.world0 (mkEnv s0 ref d)) outs w →
  NoDup (a_index <$> outs) ∧ Forall (λ c, ∃ p, deriveSelfEph v memberId (a_index c) = Ok (a_eph c, p)) outs.
Proof.
  intros Hr. assert (Hok0 : env_ok (mkEnv s0 ref d) ∅).
  { split; [apply map_Forall_empty|]. intros r r' p p' Hp. by rewrite lookup_empty in Hp. }
  destruct (OneShot.run_spent _ (mkEnv s0 ref d) outs w Hok0 Hr) as (Hok & Hd & Hb).
  split; [done|]. apply (Forall_impl _ _ _ Hb). intros c (r & p & Hp & _ & <- & <- & _).
  destruct Hok as [Hall _]. destruct (Hall _ _ Hp) as (_ & _ & Hder & _). by exists (p_ephPub p).
Qed.
End GroupAllocator.
End GroupAllocator.

(** ** Witnesses on the toy group *)
Module MultisigWitness.
Import EvenCurve MintWitness DiscoveryWitness State.Counter MultisigNote GroupAllocator
  Preflight.Provenance Preflight.Authorization Preflight.Preflight.

Definition toy_sha (l : list Z) : list Z := (λ b, Z.rem b 7) <$> l.
Lemma group_view_agreement_witness :
  ∃ gvs k, GroupSecret.combineGroupViewContributions toy_sha ComplianceWitness.toy_gvcs (3, 1) = Ok gvs ∧
    GroupView.deriveGroupViewKeyFromSecret gvs (3, 1) = Ok k ∧
    GroupView.vk_V k = Keys.Keys.publicKey (GroupView.vk_v k) ∧ 0 < GroupView.vk_v k.
Proof.
  destruct (GroupView.group_view_agreement toy_sha ComplianceWitness.toy_gvcs (reverse ComplianceWitness.toy_gvcs) (3, 1))
    as (gvs & Hg & _ & Hk).
  - symmetry. apply reverse_Permutation.
  - split_and!; [done|repeat constructor|]. apply (bool_decide_unpack _). by vm_compute.
  - assert (E : ∃ k, GroupView.deriveGroupViewKeyFromSecret gvs (3, 1) = Ok k).
    { vm_compute in Hg. injection Hg as <-. eexists. vm_compute. reflexivity. }
    destruct E as [k E]. exists gvs, k. destruct (Hk k E) as (HV & _ & Hv & _). split_and!; [done|done|done|lia].
Defined.

(** One preflight of a member, one take of one, one consumption. *)
Definition toy_string (x : Z) : string := pretty x.
Definition toy_gpk : Point := Keys.Keys.publicKey 6.
#[local] Existing Instance group_environment.
#[local] Instance toy_environment : Environment (Env (S := InMemory) (D := Z)) :=
  group_environment toy_string 11 2 toy_gpk SelfMintWitness.toy_service.
Definition toy_context : SelfMintContext :=
  mkContext (BjjSuite.multisigOwner toy_gpk) (Keys.Keys.publicKey 3) 2 (0, toy_history) 1
    "0xabababababababababababababababababababab" 0.
Definition toy_start : State (A := Env (S := InMemory) (D := Z)) :=
  Preflight.Preflight.mkState (mkEnv (mkInMemory ∅ false) 0 0) ∅ (mkHandles 0 ∅) [].
Definition toy_take := take toy_registry toy_context 2 toy_start.
Definition toy_expected : ExpectedContext :=
  mkExpected (JFr (BjjSuite.multisigOwner toy_gpk)) (JArr [JBig (Keys.Keys.publicKey 3).1; JBig (Keys.Keys.publicKey 3).2])
    (JNum 2) (0, toy_history) (JBig 1) (JStr "0xABababababababababababababababababababab") (JBig 0).
Definition toy_consume := consumeSelfMints toy_registry [HObj 1; HObj 0] toy_expected (handles toy_take.1).
Definition toy_out : list Held := match toy_consume.2 with Ok out => out | Err _ => [] end.
Lemma group_ephemeral_once_witness : length toy_out = 2%nat ∧ NoDup (a_index <$> toy_out).
Proof.
  split; [vm_compute; reflexivity|].
  set (w1 := OneShot.mkWorld (env toy_take.1) (ledger toy_take.1) toy_consume.1 [(toy_context, ready toy_take.1)]).
  apply (group_ephemeral_once toy_string 11 2 toy_gpk SelfMintWitness.toy_service (mkInMemory ∅ false) 0 0 toy_out w1).
  change toy_out with ([] ++ [] ++ toy_out ++ []).
  eapply OneShot.Run_step; [|eapply OneShot.Run_step; [|eapply OneShot.Run_step; [|apply OneShot.Run_nil]]].
  - apply (OneShot.Step_construct _ _ ∅ (mkHandles 0 ∅) [] toy_registry (0, toy_history)
      (Some (mkDomain (JBig 1) (JStr "0xabABabababababababababababababababababab") (JBig 0))) toy_context).
    vm_compute. reflexivity.
  - apply (OneShot.Step_take _ _ _ _ _ toy_registry 0 toy_context [] 2 (env toy_take.1) (ledger toy_take.1)
      (handles toy_take.1) (ready toy_take.1) toy_take.2); [done|].
    change (take toy_registry toy_context 2 _) with toy_take. by destruct toy_take as [[] ?].
  - apply (OneShot.Step_consume _ _ _ _ _ toy_registry [HObj 1; HObj 0] toy_expected).
    vm_compute. reflexivity.
Defined.
End MultisigWitness.
