(* ===== verification/Gap.v ===== *)
(** * Gap-limit scanning

    What the single-key and the group scanner have in common: tags are
    registered up to a window beyond the highest index matched in each family
    of keys, and a pass over the feed moves the highest matches.  [GapScanner]
    is the interface, [GapLaws] what its clients rely on; the lemmas say what a
    pass does, and that a pass after which a window must grow has reached an
    entry that no pass had reached before, so the number of passes is bounded
    by the number of the wallet's own entries. *)
From S2P Require Import Prelude.
Local Open Scope Z_scope.

(** A scanner state [R], an event of the feed [E], a family of keys [F]. *)
Class GapScanner (R E F : Type) := {
  touch : R → E → R;
  (** the family and index whose registered tag the event carries *)
  slot : R → E → option (F * Z);
  (** the highest index matched in a family *)
  high : R → F → Z;
}.

Class GapLaws (R E F : Type) `{GapScanner R E F} := {
  (** the same tags and the same registered indices *)
  same_tags : relation R;
  (** no tag is forgotten and no match falls *)
  grows : relation R;
  same_tags_equiv :: Equivalence same_tags;
  grows_preorder :: PreOrder grows;
  slot_same r r' e : same_tags r r' → slot r e = slot r' e;
  slot_grows r r' e x : grows r r' → slot r e = Some x → slot r' e = Some x;
  high_grows r r' f : grows r r' → high r f <= high r' f;
  touch_same r e : same_tags r (touch r e);
  touch_grows r e : grows r (touch r e);
  touch_reaches r e f i : slot r e = Some (f, i) → i <= high (touch r e) f;
  touch_justified r e f : high (touch r e) f = high r f ∨ slot r e = Some (f, high (touch r e) f);
}.

Section Gap.
Context {R E F : Type} `{GapLaws R E F}.
Implicit Types (r : R) (e : E) (f : F).

Definition pass r (events : list E) : R := foldl touch r events.

(** The event carries one of the wallet's tags; its index has been reached. *)
Definition own r e : Prop := is_Some (slot r e).
Definition accounted r e : Prop := match slot r e with Some (f, i) => i <= high r f | None => False end.
#[export] Instance own_dec r e : Decision (own r e).
Proof. apply _. Defined.
#[export] Instance accounted_dec r e : Decision (accounted r e).
Proof. unfold accounted. destruct (slot r e) as [[]|]; apply _. Defined.
Definition count_own r (events : list E) : nat := length (filter (own r) events).
Definition count_accounted r (events : list E) : nat := length (filter (accounted r) events).

Lemma accounted_grows r r' e : grows r r' → accounted r e → accounted r' e.
Proof.
  intros Hg. unfold accounted. destruct (slot r e) as [[f i]|] eqn:Es; [|done].
  rewrite (slot_grows _ _ _ _ Hg Es). pose proof (high_grows _ _ f Hg). lia.
Qed.
Lemma accounted_own r events : (count_accounted r events <= count_own r events)%nat.
Proof. apply filter_length_le. intros e. unfold accounted, own. by destruct (slot r e). Qed.
Lemma count_accounted_grows r r' events : grows r r' → (count_accounted r events <= count_accounted r' events)%nat.
Proof. intros Hg. apply filter_length_le. intros e. by apply accounted_grows. Qed.

(** A pass keeps the tags, reaches all of the wallet's entries, and only their
    indices become the highest match of their family. *)
Lemma pass_spec r events : let r' := pass r events in
  same_tags r r' ∧ grows r r' ∧ (∀ e, e ∈ events → own r e → accounted r' e) ∧
  ∀ f, high r' f = high r f ∨ ∃ e, e ∈ events ∧ slot r e = Some (f, high r' f).
Proof.
  unfold pass. revert r. induction events as [|e events IH]; intros r; cbn [foldl].
  { split_and!; [done..|by intros ? ?%not_elem_of_nil|by left]. }
  pose proof (touch_same r e) as T1. pose proof (touch_grows r e) as G1.
  destruct (IH (touch r e)) as (T2 & G2 & A2 & J2).
  set (r2 := foldl touch (touch r e) events) in *.
  split_and!; [by etrans|by etrans| |].
  - intros ev [->|Hev]%elem_of_cons [[f i] Hs].
    + apply (accounted_grows (touch r e)); [done|]. unfold accounted. rewrite <- (slot_same _ _ _ T1), Hs.
      by apply touch_reaches.
    + apply A2; [done|]. rewrite (slot_same _ _ _ T1) in Hs. by exists (f, i).
  - intros f. destruct (J2 f) as [->|(ev & Hev & Hs)].
    + destruct (touch_justified r e f) as [|Hs]; [by left|]. right. exists e. by split; [left|].
    + right. exists ev. rewrite (slot_same _ _ _ T1). by split; [right|].
Qed.

Lemma pass_progress r events f bound : high r f <= bound → bound < high (pass r events) f →
  (count_accounted r events < count_accounted (pass r events) events)%nat.
Proof.
  intros Hle Hlt. destruct (pass_spec r events) as (T & G & A & J).
  destruct (J f) as [E'|(e & He & Hs)]; [lia|].
  apply (filter_length_lt (accounted r) (accounted (pass r events))) with (x := e); [|done| |].
  - intros ev. by apply accounted_grows.
  - apply A; [done|]. by exists (f, high (pass r events) f).
  - unfold accounted. rewrite Hs. lia.
Qed.
End Gap.
