(* ===== verification/Scan.v ===== *)
(** * Wallet scan ([packages/sdk/src/sync/NoteProcessor.ts],
    [packages/sdk/src/sync/ScanEngine.ts])

    [Processor] trial-decrypts one published note against a wallet's keys,
    [Engine] drives it over the indexer's feed until the lookahead windows stop
    growing.  A text read with [BigInt] is the number it denotes, [None] when
    [BigInt] throws.  The derived keys, the ring of compliance keys and the
    transport are parameters. *)
From S2P Require Import Prelude Bytes Zq Tss Dkg Keys Tree Trace Mint Circuits State Keyring Gap.
Local Open Scope Z_scope.

Inductive ScanError :=
  | Bad_number | Fetch_failed
  | Field_error (e : MintError) | Key_error (e : KeyErr) | Tag_error (e : KeyRepo.KeyError)
  | Tree_error (e : Sdk.TreeError).

(** [BigInt(text)], [toFr(text)]. *)
Definition big_int (text : option Z) : result ScanError Z :=
  match text with Some x => Ok x | None => Err Bad_number end.
Definition toFr (text : option Z) : result ScanError Z :=
  x ← big_int text; map_err Field_error (newFr x).

(** ** [types.ts] *)
Inductive EventType := NEW_NOTE | NEW_MEMO.
Record UnprocessedEvent := mkEvent {
  type : EventType; blockNumber : Z; txHash : string;
  e_leafIndex : Z; e_commitment : option Z; ephemeralX : Z; packedCiphertext : list (option Z);
  e_tag : option Z; cekWrap : option Z }.

(** ** [NoteProcessor.ts] *)
Module Processor.
Import Note Mint Kem Dem KeyRepo Ring.

Record WalletNote := mkFound {
  w_note : Note; w_commitment : Z; w_leafIndex : Z; w_nullifier : Z; w_spendScalar : Z;
  w_isIncoming : bool; w_derivationIndex : Z; w_spent : bool }.
Inductive RecoverOutcome := Recovered (w : WalletNote) | LeafMismatch | Rejected.

Section Processor.
Context `{BabyJubjub} `{Poseidon2} `{DarkAccount}.
Context (getSelfSpendScalar : Z) (ring : list ComplianceKeyEpoch).

Definition ASSET_MODULUS : Z := Z.shiftl 1 160.

Definition recover (cek : Z) (packed : list (option Z)) (commitment leafIndex spendScalar : Z)
    (isIncoming : bool) (derivationIndex : Z) : result ScanError RecoverOutcome :=
  ciphertext ← map_res toFr packed;
  plaintext ← map_err Field_error (demDecrypt cek ciphertext);
  let psi := computePsi cek in
  let field := Trace.field plaintext in
  let note := mkNote (field 0%nat) (field 1%nat) (field 2%nat) (field 3%nat) (field 4%nat) (field 5%nat)
                psi (field 6%nat) in
  rebuilt ← map_err (λ e, Field_error (Note_error e)) (leaf note);
  if negb (rebuilt =? commitment) then Ok LeafMismatch
  else if negb (noteType note =? NOTE_TYPE_STANDARD) then Ok Rejected
  else if owner note =? 0 then Ok Rejected
  else if ASSET_MODULUS <=? assetId note then Ok Rejected
  else
    let selfOwner := Keys.Keys.pubkeyOwner (Keys.Keys.publicKey spendScalar) in
    if negb (owner note =? selfOwner) then Ok Rejected
    else
      idx ← map_err Field_error (newFr leafIndex);
      let nullifier := computeNullifier psi idx in
      Ok (Recovered (mkFound note commitment leafIndex nullifier spendScalar isIncoming derivationIndex false)).

(** The loop over the candidate keys: [None] when it falls through, else what
    the method returns.  A failing [recover] is caught, a failing [deriveCek]
    is not. *)
Fixpoint epochs_loop (epochs : list ComplianceKeyEpoch) (eph : Z)
    (recover : Z → result ScanError RecoverOutcome) : result ScanError (option (option WalletNote)) :=
  match epochs with
  | [] => Ok None
  | epoch :: epochs =>
      cek ← map_err Field_error (deriveCek eph (pk epoch));
      match recover cek with
      | Ok (Recovered note) => Ok (Some (Some note))
      | Ok Rejected => Ok (Some None)
      | Ok LeafMismatch | Err _ => epochs_loop epochs eph recover
      end
  end.

(** The repository the processor shares, and its count of unopenable notes. *)
Definition P : Type := KeyRepository * Z.
Definition on_keys {A} (f : KeyRepository → KeyRepository * result KeyError A) : M P ScanError A := λ s,
  let '(r, a) := f s.1 in
  ((r, s.2), match a with Ok x => Ok x | Err e => Err (Tag_error e) end).
Definition pure {A} (r : result ScanError A) : M P ScanError A := lift (λ e, e) r.
Definition reportUnopenable : M P ScanError unit := modify (λ s, (s.1, s.2 + 1)).

(** [try { ... } catch { return null }]. *)
Definition caught (m : M P ScanError (option WalletNote)) (s : P) : P * option WalletNote :=
  match m s with (s, Ok w) => (s, w) | (s, Err _) => (s, None) end.

Definition processNewNote (event : UnprocessedEvent) : P → P * option WalletNote := caught (
  found ← on_keys (matchSelfTag (ephemeralX event));
  match found with
  | None => mret None
  | Some (eph, index) =>
      commitment ← pure (toFr (e_commitment event));
      opened ← pure (epochs_loop (candidatesFor (Some (blockNumber event)) ring) eph (λ cek,
        recover cek (packedCiphertext event) commitment (e_leafIndex event) getSelfSpendScalar false index));
      match opened with
      | Some note => mret note
      | None => _ ← reportUnopenable; mret None
      end
  end).

Definition processMemo (event : UnprocessedEvent) : P → P * option WalletNote := caught (
  match e_tag event, cekWrap event with
  | Some tag, Some cekWrap =>
      found ← on_keys (matchIncomingTag tag);
      match found with
      | None => mret None
      | Some (inKey, index) =>
          ephPub ← pure (map_err Key_error (Keys.Fields.recoverEvenY (ephemeralX event)));
          wrapped ← pure (map_err Field_error (newFr cekWrap));
          cek ← pure (map_err Field_error (unwrapCek wrapped inKey ephPub));
          commitment ← pure (toFr (e_commitment event));
          outcome ← pure (recover cek (packedCiphertext event) commitment (e_leafIndex event) inKey true index);
          match outcome with
          | Recovered note =>
              _ ← on_keys (λ r, (recordIncomingMatch index r, Ok tt)); mret (Some note)
          | _ => mret None
          end
      end
  | _, _ => mret None
  end).

Definition process (event : UnprocessedEvent) : P → P * option WalletNote :=
  match type event with NEW_NOTE => processNewNote event | NEW_MEMO => processMemo event end.
(** *** What a recovered note is *)
Record genuine (w : WalletNote) : Prop := {
  g_leaf : leaf (w_note w) = Ok (w_commitment w);
  g_type : noteType (w_note w) = NOTE_TYPE_STANDARD;
  g_asset : assetId (w_note w) < 2 ^ 160;
  g_owned : owner (w_note w) = Keys.Keys.pubkeyOwner (Keys.Keys.publicKey (w_spendScalar w)) ∧ owner (w_note w) ≠ 0;
  g_nullifier : w_nullifier w = computeNullifier (psi (w_note w)) (w_leafIndex w);
  g_unspent : w_spent w = false;
}.
Lemma recover_sound cek packed c li k inc di w : recover cek packed c li k inc di = Ok (Recovered w) →
  genuine w ∧ w_commitment w = c ∧ w_leafIndex w = li ∧ w_spendScalar w = k ∧
  w_isIncoming w = inc ∧ w_derivationIndex w = di.
Proof.
  unfold recover. intros (ct & _ & (pt & _ & (c' & Hc & H2)%bind_Ok)%bind_Ok)%bind_Ok.
  apply map_err_Ok in Hc. revert H2.
  destruct (Z.eqb_spec c' c) as [->|]; cbn [negb]; [|done].
  match type of Hc with leaf ?n = _ => set (note := n) in * end.
  assert (Hpsi : psi note = computePsi cek) by done. clearbody note.
  destruct (Z.eqb_spec (noteType note) NOTE_TYPE_STANDARD) as [Ht|]; cbn [negb]; [|done].
  destruct (Z.eqb_spec (owner note) 0) as [|Ho]; [done|].
  destruct (Z.leb_spec ASSET_MODULUS (assetId note)) as [|Ha]; [done|].
  destruct (Z.eqb_spec (owner note) (Keys.Keys.pubkeyOwner (Keys.Keys.publicKey k))) as [Hk|]; cbn [negb]; [|done].
  intros (i & [-> _]%map_err_Ok%newFr_inv & [= <-])%bind_Ok. rewrite <- Hpsi. by repeat split.
Qed.

Lemma epochs_loop_sound epochs eph rec w : epochs_loop epochs eph rec = Ok (Some (Some w)) →
  ∃ e cek, e ∈ epochs ∧ deriveCek eph (pk e) = Ok cek ∧ rec cek = Ok (Recovered w).
Proof.
  induction epochs as [|e epochs IH]; cbn [epochs_loop]; [done|].
  intros (cek & Hc%map_err_Ok & H2)%bind_Ok.
  assert (Hrest : epochs_loop epochs eph rec = Ok (Some (Some w)) →
    ∃ e' cek, e' ∈ e :: epochs ∧ deriveCek eph (pk e') = Ok cek ∧ rec cek = Ok (Recovered w)).
  { intros (e' & cek' & ? & ?)%IH. exists e', cek'. split; [by right|done]. }
  destruct (rec cek) as [[w'| |]|] eqn:Er; [|by apply Hrest|done|by apply Hrest].
  injection H2 as ->. exists e, cek. split_and!; [left|done|done].
Qed.

(** The first key that opens the note decides, whatever keys fail before it. *)
Definition fails (r : result ScanError RecoverOutcome) : Prop :=
  match r with Ok LeafMismatch | Err _ => True | _ => False end.
Lemma epochs_loop_opens epochs eph rec cek w :
  (∀ e, e ∈ epochs → ∃ cek', deriveCek eph (pk e) = Ok cek' ∧ (cek' = cek ∨ fails (rec cek'))) →
  (∃ e, e ∈ epochs ∧ deriveCek eph (pk e) = Ok cek) → rec cek = Ok (Recovered w) →
  epochs_loop epochs eph rec = Ok (Some (Some w)).
Proof.
  intros Hall Hex Hw. induction epochs as [|e epochs IH]; [by destruct Hex as (? & []%not_elem_of_nil & _)|].
  cbn [epochs_loop]. destruct (Hall e ltac:(left)) as (cek' & Hd & Hc). rewrite Hd. cbn [map_err mbind result_bind].
  destruct (decide (cek' = cek)) as [->|Hne]; [by rewrite Hw|]. destruct Hc as [|Hf]; [done|].
  assert (Hrest : epochs_loop epochs eph rec = Ok (Some (Some w))).
  { apply IH; [intros e' He'; apply Hall; by right|]. destruct Hex as (e' & [->|He']%elem_of_cons & Hd'); [congruence|by eauto]. }
  unfold fails in Hf. destruct (rec cek') as [[]|]; done.
Qed.

(** *** What processing does to the key repository *)
Definition matched (event : UnprocessedEvent) (r : KeyRepository) : KeyRepository * result KeyError (option (Z * Z)) :=
  match type event with
  | NEW_NOTE => matchSelfTag (ephemeralX event) r
  | NEW_MEMO => match e_tag event, cekWrap event with
                | Some t, Some _ => matchIncomingTag t r
                | _, _ => (r, Ok None)
                end
  end.
(** What processing returns, the count of unopenable notes aside. *)
Definition outcome (r : KeyRepository) (event : UnprocessedEvent) : option WalletNote := (process event (r, 0)).2.

Lemma record_twice t r r' k i : matchIncomingTag t r = (r', Ok (Some (k, i))) → recordIncomingMatch i r' = r'.
Proof.
  unfold matchIncomingTag. destruct (tagKey t) as [key|]; [|done]. destruct (incomingMap r !! key) as [[k' i']|]; [|done].
  intros [= <- <- <-]. unfold recordIncomingMatch. cbn. destruct (Z.ltb_spec (highestMatchedIncoming r) i'); cbn;
    [by rewrite Z.ltb_irrefl|by rewrite (proj2 (Z.ltb_ge _ _))].
Qed.

Lemma process_keys event r u : (process event (r, u)).1.1 = (matched event r).1 ∧
  (process event (r, u)).2 = outcome r event.
Proof.
  unfold outcome, process, matched. destruct (type event).
  - unfold processNewNote, caught, on_keys, mbind, M_bind. cbn [fst].
    destruct (matchSelfTag _ r) as [r' [[[eph i]|]|e]]; [|done|done]. unfold pure, lift. cbn [fst].
    destruct (toFr _) as [c|]; [|done]. cbn [fst]. by destruct (epochs_loop _ _ _) as [[w|]|].
  - unfold processMemo, caught. destruct (e_tag event) as [t|]; [|done]. destruct (cekWrap event) as [w|]; [|done].
    unfold on_keys, mbind, M_bind. cbn [fst].
    destruct (matchIncomingTag t r) as [r' [[[k i]|]|e]] eqn:Em; [|done|done]. unfold pure, lift. cbn [fst].
    destruct (map_err _ (Keys.Fields.recoverEvenY _)); [|done]. destruct (map_err _ (newFr w)); [|done].
    destruct (map_err _ (unwrapCek _ _ _)); [|done]. destruct (toFr _); [|done].
    destruct (recover _ _ _ _ _ _ _) as [[w'| |]|]; try done. cbn [fst].
    by rewrite (record_twice _ _ _ _ _ Em).
Qed.

(** Where the key of a found note comes from. *)
Definition keyed (r : KeyRepository) (event : UnprocessedEvent) (w : WalletNote) : Prop :=
  ∃ k, (matched event r).2 = Ok (Some (k, w_derivationIndex w)) ∧
    match type event with
    | NEW_NOTE => w_isIncoming w = false ∧ w_spendScalar w = getSelfSpendScalar
    | NEW_MEMO => w_isIncoming w = true ∧ w_spendScalar w = k
    end.
Lemma outcome_sound r event w : outcome r event = Some w →
  genuine w ∧ keyed r event w ∧ toFr (e_commitment event) = Ok (w_commitment w) ∧ w_leafIndex w = e_leafIndex event.
Proof.
  unfold outcome, keyed, process, matched. destruct (type event).
  - unfold processNewNote, caught, on_keys, mbind, M_bind. cbn [fst].
    destruct (matchSelfTag _ r) as [r' [[[eph i]|]|e]]; [|done|done]. unfold pure, lift. cbn [snd].
    destruct (toFr _) as [c|] eqn:Ec; [|done]. destruct (epochs_loop _ _ _) as [[w'|]|] eqn:El; [|done|done]. cbn.
    intros ->. apply epochs_loop_sound in El as (e & cek & _ & _ & Hr).
    apply recover_sound in Hr as (Hg & <- & <- & <- & Hi & <-). split_and!; [done| |done|done]. by eexists.
  - unfold processMemo, caught. destruct (e_tag event) as [t|]; [|done]. destruct (cekWrap event) as [cw|]; [|done].
    unfold on_keys, mbind, M_bind. cbn [fst].
    destruct (matchIncomingTag t r) as [r' [[[k i]|]|e]] eqn:Em; [|done|done]. unfold pure, lift. cbn [snd].
    destruct (map_err _ (Keys.Fields.recoverEvenY _)); [|done]. destruct (map_err _ (newFr cw)); [|done].
    destruct (map_err _ (unwrapCek _ _ _)) as [cek|]; [|done]. destruct (toFr _) as [c|] eqn:Ec; [|done].
    destruct (recover cek _ c _ k true i) as [[w'| |]|] eqn:Er; try done. cbn. intros [= ->].
    apply recover_sound in Er as (Hg & <- & <- & <- & Hi & <-). split_and!; [done| |done|done]. by eexists.
Qed.
Lemma outcome_ext r r' event : (matched event r).2 = (matched event r').2 → outcome r event = outcome r' event.
Proof.
  unfold outcome, process, matched. destruct (type event).
  - unfold processNewNote, caught, on_keys, mbind, M_bind. cbn [fst].
    destruct (matchSelfTag _ r) as [r1 x], (matchSelfTag _ r') as [r2 y]. cbn [snd]. intros <-.
    destruct x as [[[eph i]|]|e]; [|done..]. unfold pure, lift. cbn [snd].
    destruct (toFr _); [|done]. by destruct (epochs_loop _ _ _) as [[]|].
  - unfold processMemo, caught. destruct (e_tag event) as [t|]; [|done]. destruct (cekWrap event) as [cw|]; [|done].
    unfold on_keys, mbind, M_bind. cbn [fst].
    destruct (matchIncomingTag _ r) as [r1 x], (matchIncomingTag _ r') as [r2 y]. cbn [snd]. intros <-.
    destruct x as [[[eph i]|]|e]; [|done..]. unfold pure, lift. cbn [snd].
    destruct (map_err _ (Keys.Fields.recoverEvenY _)); [|done]. destruct (map_err _ (newFr cw)); [|done].
    destruct (map_err _ (unwrapCek _ _ _)); [|done]. destruct (toFr _); [|done].
    by destruct (recover _ _ _ _ _ _ _) as [[]|].
Qed.

(** *** A minted note opens with its content key *)
Lemma toFr_Ok x : in_field x → toFr (Some x) = Ok x.
Proof. intros Hx. unfold toFr. cbn. by rewrite newFr_Ok. Qed.
Lemma map_res_toFr l : Forall in_field l → map_res toFr (Some <$> l) = Ok l.
Proof.
  induction 1 as [|x l Hx _ IH]; [done|]. rewrite fmap_cons. cbn [map_res].
  rewrite toFr_Ok by done. cbn [mbind result_bind]. by rewrite IH.
Qed.
Lemma demEncrypt_field cek pt ct : demEncrypt cek pt = Ok ct → Forall in_field ct.
Proof.
  unfold demEncrypt. destruct (negb _); [done|]. intros [= <-]. rewrite Forall_lookup. intros i x.
  rewrite list_lookup_imap. destruct (pt !! i); [|done]. intros [= <-]. unfold frAdd, in_field.
  apply Z.mod_pos_bound. unfold MODULUS. lia.
Qed.

(** The note that scanning a minted note yields. *)
Definition found_note (m : MintedNote) (leafIndex : Z) (isIncoming : bool) (derivationIndex : Z) : WalletNote :=
  mkFound (m_note m) (Mint.commitment m) leafIndex (computeNullifier (m_psi m) leafIndex) (m_spendScalar m)
    isIncoming derivationIndex false.

Lemma rebuild_note n : let field := Trace.field (transmitted_fields n) in
  mkNote (field 0%nat) (field 1%nat) (field 2%nat) (field 3%nat) (field 4%nat) (field 5%nat) (psi n) (field 6%nat) = n.
Proof. by destruct n. Qed.

Lemma recover_minted eph v k asset par cpk m ct li inc di :
  finish eph v (Keys.Keys.pubkeyOwner (Keys.Keys.publicKey k)) asset k par cpk = Ok m →
  in_field (Keys.Keys.pubkeyOwner (Keys.Keys.publicKey k)) →
  Keys.Keys.pubkeyOwner (Keys.Keys.publicKey k) ≠ 0 → 0 <= asset < 2 ^ 160 → in_field par → in_field li →
  demEncrypt (m_cek m) (transmitted_fields (m_note m)) = Ok ct →
  recover (m_cek m) (Some <$> ct) (Mint.commitment m) li k inc di = Ok (Recovered (found_note m li inc di)).
Proof.
  intros Hm Hof Ho Ha Hp Hli Hct.
  assert (Hasset : in_field asset) by (unfold in_field, MODULUS; lia).
  destruct (minted_fields _ _ _ _ _ _ _ _ Hm Hof Hasset Hp) as (Hf & _ & Hpsi' & Hl).
  destruct (finish_Ok _ _ _ _ _ _ _ _ Hm) as (_ & _ & Hn & _ & Hpsi & _ & _ & Hs & _).
  unfold recover. rewrite map_res_toFr by (by eapply demEncrypt_field). cbn [mbind result_bind].
  rewrite (demDecrypt_demEncrypt _ _ _ Hf Hct). cbn [map_err mbind result_bind].
  rewrite <- Hpsi', (rebuild_note (m_note m)). unfold found_note. rewrite Hpsi, <- Hpsi', Hs.
  rewrite Hl. cbn [map_err mbind result_bind]. rewrite Z.eqb_refl. cbn [negb].
  assert (noteType (m_note m) = NOTE_TYPE_STANDARD) as -> by by rewrite Hn.
  assert (assetId (m_note m) = asset) as -> by by rewrite Hn.
  assert (owner (m_note m) = Keys.Keys.pubkeyOwner (Keys.Keys.publicKey k)) as -> by by rewrite Hn.
  rewrite (proj2 (Z.eqb_neq _ _) Ho), !Z.eqb_refl. cbn [negb]. unfold ASSET_MODULUS. change (Z.shiftl 1 160) with (2 ^ 160).
  rewrite (proj2 (Z.leb_gt _ _)) by lia. cbn [negb]. by rewrite newFr_Ok.
Qed.
End Processor.
End Processor.

(** ** Lookahead: what a pass may do to the key repository *)
Module Lookahead.
Import KeyRepo Processor.
Section Lookahead.
Context `{BabyJubjub} `{DarkAccount}.

(** *** The key repository as a gap-limit scanner *)
#[export] Instance repository_scanner : GapScanner KeyRepository UnprocessedEvent EventType := {|
  touch r event := (matched event r).1;
  slot r event := match (matched event r).2 with Ok (Some (_, i)) => Some (type event, i) | _ => None end;
  high r ty := match ty with NEW_NOTE => highestMatchedSelf r | NEW_MEMO => highestMatchedIncoming r end;
|}.

(** Registered tags are never forgotten and the highest matches never fall. *)
Record repo_grows (r r' : KeyRepository) : Prop := {
  gr_self : selfMap r ⊆ selfMap r';
  gr_incoming : incomingMap r ⊆ incomingMap r';
  gr_high_self : highestMatchedSelf r <= highestMatchedSelf r';
  gr_high_incoming : highestMatchedIncoming r <= highestMatchedIncoming r';
}.
Definition repo_same (r r' : KeyRepository) : Prop :=
  selfMap r = selfMap r' ∧ incomingMap r = incomingMap r' ∧
  selfScanIndex r = selfScanIndex r' ∧ incomingScanIndex r = incomingScanIndex r'.

Lemma matched_same r r' event : repo_same r r' → (matched event r).2 = (matched event r').2.
Proof.
  intros (E1 & E2 & _). unfold matched, matchSelfTag, matchIncomingTag. rewrite E1, E2.
  destruct (type event); [|destruct (e_tag event), (cekWrap event); [|done..]];
    (destruct (tagKey _); [|done]; by destruct (_ !! _) as [[]|]).
Qed.
Lemma matched_grows r r' event k i : repo_grows r r' → (matched event r).2 = Ok (Some (k, i)) →
  (matched event r').2 = Ok (Some (k, i)).
Proof.
  intros [Hs Hi _ _]. unfold matched, matchSelfTag, matchIncomingTag.
  destruct (type event); [|destruct (e_tag event), (cekWrap event); [|done..]];
    (destruct (tagKey _) as [key|]; [|done]).
  - destruct (selfMap r !! key) as [[]|] eqn:E; [|done]. rewrite (lookup_weaken _ _ _ _ E Hs). done.
  - destruct (incomingMap r !! key) as [[]|] eqn:E; [|done]. rewrite (lookup_weaken _ _ _ _ E Hi). done.
Qed.

(** What one event does, by cases on the registered tag that it carries. *)
Lemma matched_cases r event : (matched event r).1 = r ∧ (∀ k i, (matched event r).2 ≠ Ok (Some (k, i))) ∨
  ∃ k i, (matched event r).2 = Ok (Some (k, i)) ∧
    (matched event r).1 = match type event with NEW_NOTE => set_matched_self i r | NEW_MEMO => recordIncomingMatch i r end.
Proof.
  unfold matched, matchSelfTag, matchIncomingTag.
  destruct (type event); [|destruct (e_tag event), (cekWrap event); [|by left..]];
    (destruct (tagKey _) as [key|]; [|by left]); destruct (_ !! key) as [[k i]|]; by (left + right; eauto).
Qed.

#[export] Instance repo_grows_preorder : PreOrder repo_grows.
Proof.
  split; [intros r; by split|]. intros r1 r2 r3 [] []. split; (etrans; [eassumption|done]).
Qed.
#[export] Instance repository_laws : GapLaws KeyRepository UnprocessedEvent EventType.
Proof.
  apply (Build_GapLaws _ _ _ repository_scanner repo_same repo_grows); unfold touch, slot, high; cbn [repository_scanner].
  - split; [done|by intros r r' (? & ? & ? & ?)|].
    intros r1 r2 r3 (? & ? & ? & ?) (? & ? & ? & ?). split_and!; congruence.
  - apply _.
  - intros r r' event T. by rewrite (matched_same _ _ _ T).
  - intros r r' event x G. destruct (matched event r).2 as [[[k i]|]|] eqn:E; [|done..].
    by rewrite (matched_grows _ _ _ _ _ G E).
  - intros r r' [] []; done.
  - intros r event. destruct (matched_cases r event) as [[-> _]|(k & i & _ & ->)]; [done|by destruct (type event)].
  - intros r event. destruct (matched_cases r event) as [[-> _]|(k & i & _ & ->)]; [done|].
    destruct (type event); split; cbn; (done || case_match; lia).
  - intros r event ty j. destruct (matched_cases r event) as [[-> Hn]|(k & i & -> & ->)].
    + destruct (matched event r).2 as [[[k i]|]|]; [by edestruct Hn|done..].
    + intros [= <- <-]. destruct (type event); cbn; case_match; lia.
  - intros r event ty. destruct (matched_cases r event) as [[-> Hn]|(k & i & -> & ->)]; [by left|].
    destruct (type event), ty; cbn; first [by left|case_match; [by right|by left]].
Defined.

(** The registrations of one family leave the other family alone. *)
Lemma register_self_to_frame target r : let r' := register_self_to target r in
  repo_grows r r' ∧ highestMatchedSelf r' = highestMatchedSelf r ∧
  highestMatchedIncoming r' = highestMatchedIncoming r ∧
  incomingScanIndex r' = incomingScanIndex r ∧ selfScanIndex r' = Z.max (selfScanIndex r) target.
Proof.
  assert (Hn : ∀ n, let r' := Nat.iter n registerSelf r in
    repo_grows r r' ∧ highestMatchedSelf r' = highestMatchedSelf r ∧
    highestMatchedIncoming r' = highestMatchedIncoming r ∧
    incomingScanIndex r' = incomingScanIndex r ∧ selfScanIndex r' = selfScanIndex r + Z.of_nat n).
  { induction n as [|n (IH1 & IH2 & IH3 & IH4 & IH5)]; [split_and!; [done..|simpl; lia]|].
    cbn [Nat.iter nat_rect]. fold (Nat.iter n registerSelf r) in *. set (r1 := Nat.iter n registerSelf r) in *.
    split_and!; [|done..|cbn [registerSelf selfScanIndex]; lia]. etrans; [exact IH1|].
    split; [|done..]. unfold registerSelf. cbn [selfMap]. destruct (negb _); [done|].
    destruct (selfMap r1 !! _) as [[]|] eqn:El; [done|by apply insert_subseteq]. }
  destruct (Hn (Z.to_nat (target - selfScanIndex r))) as (? & ? & ? & ? & E). unfold register_self_to.
  split_and!; [done..|rewrite E; lia].
Qed.
Lemma register_incoming_to_frame target r : let r' := register_incoming_to target r in
  repo_grows r r' ∧ highestMatchedSelf r' = highestMatchedSelf r ∧
  highestMatchedIncoming r' = highestMatchedIncoming r ∧
  selfScanIndex r' = selfScanIndex r ∧ incomingScanIndex r' = Z.max (incomingScanIndex r) target.
Proof.
  assert (Hn : ∀ n, let r' := Nat.iter n registerIncoming r in
    repo_grows r r' ∧ highestMatchedSelf r' = highestMatchedSelf r ∧
    highestMatchedIncoming r' = highestMatchedIncoming r ∧
    selfScanIndex r' = selfScanIndex r ∧ incomingScanIndex r' = incomingScanIndex r + Z.of_nat n).
  { induction n as [|n (IH1 & IH2 & IH3 & IH4 & IH5)]; [split_and!; [done..|simpl; lia]|].
    cbn [Nat.iter nat_rect]. fold (Nat.iter n registerIncoming r) in *. set (r1 := Nat.iter n registerIncoming r) in *.
    split_and!; [|done..|cbn [registerIncoming incomingScanIndex]; lia]. etrans; [exact IH1|].
    split; [done| |done..]. unfold registerIncoming. cbn [incomingMap]. destruct (negb _); [done|].
    destruct (incomingMap r1 !! _) as [[]|] eqn:El; [done|by apply insert_subseteq]. }
  destruct (Hn (Z.to_nat (target - incomingScanIndex r))) as (? & ? & ? & ? & E). unfold register_incoming_to.
  split_and!; [done..|rewrite E; lia].
Qed.

(** Both windows lie within the registered indices. *)
Definition quiet (window : Z) (r : KeyRepository) : Prop :=
  highestMatchedSelf r + 1 + window <= selfScanIndex r ∧
  highestMatchedIncoming r + 1 + window <= incomingScanIndex r.
(** The two extensions that follow a pass. *)
Definition extend (window : Z) (r : KeyRepository) : KeyRepository * bool :=
  let '(r1, ext1) := ensureSelfLookahead window r in
  let '(r2, ext2) := ensureIncomingLookahead window r1 in (r2, ext1 || ext2).

Lemma extend_spec window r : let '(r', ext) := extend window r in
  repo_grows r r' ∧ quiet window r' ∧ highestMatchedSelf r' = highestMatchedSelf r ∧
  highestMatchedIncoming r' = highestMatchedIncoming r ∧
  selfScanIndex r' = Z.max (selfScanIndex r) (highestMatchedSelf r + 1 + window) ∧
  (ext = true ∧ ~ quiet window r ∨ ext = false ∧ r' = r).
Proof.
  unfold extend, ensureSelfLookahead, ensureIncomingLookahead.
  set (t1 := Z.max (selfScanIndex r) _).
  destruct (register_self_to_frame t1 r) as (G1 & A1 & A2 & A3 & A4).
  destruct (register_incoming_to_frame (Z.max (incomingScanIndex (register_self_to t1 r))
    (highestMatchedIncoming (register_self_to t1 r) + 1 + window)) (register_self_to t1 r))
    as (G2 & B1 & B2 & B3 & B4).
  assert (E1 : t1 <= selfScanIndex r → register_self_to t1 r = r).
  { intros Hle. unfold register_self_to. by replace (Z.to_nat _) with O by lia. }
  split_and!; [by etrans|unfold quiet; rewrite B1, B2, B3, B4, A1, A2, A4; lia|congruence|congruence|
    rewrite B3, A4; lia|].
  unfold quiet. rewrite A2, A3 in *.
  destruct (Z.ltb_spec (selfScanIndex r) t1); [left; split; [done|lia]|]. cbn [orb]. rewrite E1 in * by done.
  destruct (Z.ltb_spec (incomingScanIndex r) (Z.max (incomingScanIndex r) (highestMatchedIncoming r + 1 + window)));
    [left; split; [done|lia]|]. right. split; [done|]. unfold register_incoming_to. by replace (Z.to_nat _) with O by lia.
Qed.

(** When a window must grow after a pass, the pass has reached a new entry. *)
Lemma repository_progress window r events : quiet window r → ~ quiet window (pass r events) →
  (count_accounted r events < count_accounted (pass r events) events)%nat.
Proof.
  intros [Hs Hi] Hnq. destruct (pass_spec r events) as ((_ & _ & Es & Ei) & _). unfold quiet in Hnq.
  rewrite <- Es, <- Ei in Hnq.
  destruct (decide (highestMatchedSelf (pass r events) + 1 + window <= selfScanIndex r)).
  - apply (pass_progress r events NEW_MEMO (incomingScanIndex r - 1 - window)); cbn; lia.
  - apply (pass_progress r events NEW_NOTE (selfScanIndex r - 1 - window)); cbn; lia.
Qed.
End Lookahead.
End Lookahead.

(** ** [ScanEngine.ts] *)
Record IndexerNoteInserted := mkIndexed {
  leaf_index : Z; n_leaf : option Z; eph_pub_x : option Z;
  n_tag : option (option Z); cek_wrap : option (option Z); ciphertext : list (option Z); n_root : string }.

Module Engine.
Import KeyRepo Processor Utxo.
Section Engine.
Context `{BabyJubjub} `{Poseidon2} `{PoseidonV1} `{DarkAccount}.
Context (getSelfSpendScalar : Z) (ring : list ComplianceKeyEpoch).
Context (fetchNotes : Z → option (list IndexerNoteInserted)).

Definition DEFAULT_PROBE_EXTRA_WINDOW : Z := 100.
Definition maxPasses : nat := 64.

Definition toUnprocessedEvent (n : IndexerNoteInserted) : result ScanError UnprocessedEvent :=
  memo ← (match n_tag n, cek_wrap n with
          | Some t, Some w => t ← big_int t; w ← big_int w; Ok (Some (t, w))
          | _, _ => Ok None
          end);
  x ← big_int (eph_pub_x n);
  Ok (mkEvent (match memo with Some _ => NEW_MEMO | None => NEW_NOTE end) (leaf_index n) (n_root n)
        (leaf_index n) (n_leaf n) x (ciphertext n) (fst <$> memo) (snd <$> memo)).

(** What the note repository keeps of a note. *)
Definition stored (w : Processor.WalletNote) : Utxo.WalletNote :=
  mkWalletNote (Note.assetId (w_note w)) (Note.value (w_note w)) (w_commitment w) (w_leafIndex w)
    (w_nullifier w) (w_spendScalar w) (w_isIncoming w) (w_derivationIndex w) (w_spent w).

Record State := mkEngine {
  keys : KeyRepository; unopenable : Z; utxos : UtxoRepository; merkleTree : option Sdk.LeanIMT }.

(** [merkleTree.insert(toFr(n.leaf))], when the note is the tree's next leaf. *)
Definition grow (n : IndexerNoteInserted) : M State ScanError unit := λ s,
  match merkleTree s with
  | Some t =>
      if leaf_index n =? Z.of_nat (Sdk.nextLeafIndex t) then
        match (x ← toFr (n_leaf n); map_err Tree_error (Sdk.insert t x)) with
        | Ok (t, _) => (mkEngine (keys s) (unopenable s) (utxos s) (Some t), Ok tt)
        | Err e => (s, Err e)
        end
      else (s, Ok tt)
  | None => (s, Ok tt)
  end.
Definition receive (event : UnprocessedEvent) : M State ScanError unit := λ s,
  let '((r, u), found) := process getSelfSpendScalar ring event (keys s, unopenable s) in
  (mkEngine r u (match found with Some w => addNote (stored w) (utxos s) | None => utxos s end)
     (merkleTree s), Ok tt).

Fixpoint scanOnce (notes : list IndexerNoteInserted) : M State ScanError unit :=
  match notes with
  | [] => mret tt
  | n :: notes =>
      _ ← grow n;
      event ← lift (λ e, e) (toUnprocessedEvent n);
      _ ← receive event;
      scanOnce notes
  end.

Definition lookahead (ensure : KeyRepository → KeyRepository * bool) : M State ScanError bool := λ s,
  let '(r, extended) := ensure (keys s) in (mkEngine r (unopenable s) (utxos s) (merkleTree s), Ok extended).

Fixpoint passes_loop (passes : nat) (notes : list IndexerNoteInserted) (window : Z) : M State ScanError unit :=
  match passes with
  | O => mret tt
  | S passes =>
      _ ← scanOnce notes;
      ext1 ← lookahead (ensureSelfLookahead window);
      ext2 ← lookahead (ensureIncomingLookahead window);
      if negb ext1 && negb ext2 then mret tt else passes_loop passes notes window
  end.
Definition scanPasses (fromLeafIndex window : Z) : M State ScanError unit :=
  _ ← lookahead (ensureSelfLookahead window);
  _ ← lookahead (ensureIncomingLookahead window);
  match fetchNotes fromLeafIndex with
  | None => throw Fetch_failed
  | Some notes => passes_loop maxPasses notes window
  end.

Definition sync (lookaheadWindow fromLeafIndex : Z) : M State ScanError unit :=
  scanPasses fromLeafIndex lookaheadWindow.
Definition probe (lookaheadWindow fromLeafIndex extraWindow : Z) : M State ScanError bool :=
  s ← get;
  let before := length (getAllNotes (utxos s)) in
  _ ← scanPasses fromLeafIndex (lookaheadWindow + extraWindow);
  s ← get;
  mret (before <? length (getAllNotes (utxos s)))%nat.

(** *** One pass *)
Import Lookahead.
Local Notation outcome := (outcome getSelfSpendScalar ring).

Definition collect (r : KeyRepository) (us : UtxoRepository) (event : UnprocessedEvent) : UtxoRepository :=
  match outcome r event with Some w => addNote (stored w) us | None => us end.

Lemma outcome_same r r' event : same_tags r r' → outcome r event = outcome r' event.
Proof. intros H'. apply outcome_ext. by apply matched_same. Qed.
Lemma outcome_grows r r' event w : grows r r' → outcome r event = Some w → outcome r' event = Some w.
Proof.
  intros Hg Ho. destruct (outcome_sound _ _ _ _ _ Ho) as (_ & (k & Hk & _) & _). rewrite <- Ho. symmetry.
  apply outcome_ext. rewrite Hk. by rewrite (matched_grows _ _ _ _ _ Hg Hk).
Qed.

Lemma receive_eq event s : ∃ u, receive event s
  = (mkEngine (touch (keys s) event) u (collect (keys s) (utxos s) event) (merkleTree s), Ok tt).
Proof.
  unfold receive, collect. destruct (process_keys getSelfSpendScalar ring event (keys s) (unopenable s)) as [Ek Eo].
  destruct (process _ _ _ _) as [[r u] found]. cbn [fst snd] in *. subst. by exists u.
Qed.
Lemma grow_frame n s s' : grow n s = (s', Ok tt) → keys s' = keys s ∧ unopenable s' = unopenable s ∧ utxos s' = utxos s.
Proof.
  unfold grow. destruct (merkleTree s) as [t|]; [|by intros [= <-]]. destruct (_ =? _); [|by intros [= <-]].
  destruct (_ ≫= _) as [[]|]; [|done]. by intros [= <-].
Qed.

Lemma scanOnce_Ok notes s s' : scanOnce notes s = (s', Ok tt) →
  ∃ events, map_res toUnprocessedEvent notes = Ok events ∧ keys s' = pass (keys s) events ∧
    utxos s' = foldl (collect (keys s)) (utxos s) events.
Proof.
  revert s. induction notes as [|n notes IH]; intros s; cbn [scanOnce map_res].
  { intros [= <-]. by exists []. }
  intros (s1 & [] & (Ek & _ & Eu)%grow_frame & (s2 & event & [-> Hev]%lift_Ok & (s3 & [] & Hr & Hs)%M_bind_Ok)%M_bind_Ok)%M_bind_Ok.
  destruct (receive_eq event s1) as [u Hr']. rewrite Hr' in Hr. injection Hr as <-.
  destruct (IH _ Hs) as (events & He & Hk & Hu). cbn [keys utxos] in *.
  exists (event :: events). rewrite Hev. cbn [mbind result_bind]. rewrite He. split_and!; [done|by rewrite Hk, Ek|].
  rewrite Hu, Ek, Eu. cbn [foldl]. clear -H. generalize (collect (keys s) (utxos s) event) as us.
  pose proof (touch_same (keys s) event) as T. induction events as [|ev events IH]; intros us; [done|].
  cbn [foldl]. rewrite IH. f_equal. unfold collect. by rewrite <- (outcome_same _ _ _ T).
Qed.

Lemma scanOnce_events notes events s s' : map_res toUnprocessedEvent notes = Ok events →
  scanOnce notes s = (s', Ok tt) →
  keys s' = pass (keys s) events ∧ utxos s' = foldl (collect (keys s)) (utxos s) events.
Proof. intros He (events' & He' & Hk & Hu)%scanOnce_Ok. rewrite He in He'. by injection He' as <-. Qed.

(** *** What the repository collects *)
Lemma addNote_get n us k : map_get k (addNote n us) =
  if decide (k = nullifier n)
  then Some (with_spent (match map_get k us with Some o => spent o || spent n | None => spent n end) n)
  else map_get k us.
Proof.
  unfold addNote. destruct (map_get (nullifier n) us) as [o|] eqn:E; rewrite map_get_set; case_decide as Hk; subst;
    try done; rewrite E; [done|]. by rewrite with_spent_id.
Qed.
Lemma addNote_listed n us x : x ∈ getAllNotes (addNote n us) → x ∈ getAllNotes us ∨ ∃ b, x = with_spent b n.
Proof.
  assert (Hset : ∀ k v m, x ∈ getAllNotes (map_set k v m) → x ∈ getAllNotes m ∨ x = v).
  { intros k v m. unfold getAllNotes. induction m as [|[k' n'] m IH]; cbn [map_set].
    - intros ->%list_elem_of_singleton. by right.
    - destruct (k' =? k); rewrite !fmap_cons, !elem_of_cons; cbn [snd]; [|naive_solver].
      intros [->|]; [by right|by left; right]. }
  unfold addNote. destruct (map_get _ us) as [o|]; intros [? | ->]%Hset; eauto.
  right. exists (spent n). by rewrite with_spent_id.
Qed.

Lemma collect_found r us events event w : event ∈ events → outcome r event = Some w →
  (∀ ev w', ev ∈ events → outcome r ev = Some w' → w_nullifier w' = w_nullifier w → w' = w) →
  ∃ b, map_get (w_nullifier w) (foldl (collect r) us events) = Some (with_spent b (stored w)).
Proof.
  intros Hin Ho Hu. induction events as [|ev events IH] using rev_ind; [by apply not_elem_of_nil in Hin|].
  rewrite foldl_snoc. unfold collect at 1.
  assert (Hlast : ∀ w', outcome r ev = Some w' → w_nullifier w' = w_nullifier w → w' = w).
  { intros w'. apply Hu, elem_of_app. right. left. }
  destruct (outcome r ev) as [w'|] eqn:Eo.
  - rewrite addNote_get. cbn [nullifier stored]. case_decide as Hk.
    + rewrite (Hlast w' eq_refl (eq_sym Hk)). by eexists.
    + apply IH; [|intros ev' w'' ?; apply Hu, elem_of_app; by left].
      apply elem_of_app in Hin as [?| ->%list_elem_of_singleton]; [done|congruence].
  - apply IH; [|intros ev' w'' ?; apply Hu, elem_of_app; by left].
    apply elem_of_app in Hin as [?| ->%list_elem_of_singleton]; [done|congruence].
Qed.
Lemma collect_listed r us events x : x ∈ getAllNotes (foldl (collect r) us events) →
  x ∈ getAllNotes us ∨ ∃ event w b, event ∈ events ∧ outcome r event = Some w ∧ x = with_spent b (stored w).
Proof.
  induction events as [|ev events IH] using rev_ind; [by left|]. rewrite foldl_snoc. unfold collect at 1.
  assert (Hrest : x ∈ getAllNotes (foldl (collect r) us events) →
    x ∈ getAllNotes us ∨ ∃ event w b, event ∈ events ++ [ev] ∧ outcome r event = Some w ∧ x = with_spent b (stored w)).
  { intros [|(ev' & w & b & ? & ?)]%IH; [by left|]. right. exists ev', w, b. split; [apply elem_of_app; by left|done]. }
  destruct (outcome r ev) as [w|] eqn:Eo; [|done]. intros [Hx|[b ->]]%addNote_listed; [by apply Hrest|].
  right. exists ev, w, b. split_and!; [apply elem_of_app; right; left|done|done].
Qed.

(** *** The loop over passes *)
Definition with_keys (r : KeyRepository) (s : State) : State := mkEngine r (unopenable s) (utxos s) (merkleTree s).

Lemma passes_S n notes window s s' : passes_loop (S n) notes window s = (s', Ok tt) → ∃ s1,
  scanOnce notes s = (s1, Ok tt) ∧
  let '(r, extended) := extend window (keys s1) in
  if extended then passes_loop n notes window (with_keys r s1) = (s', Ok tt) else s' = with_keys r s1.
Proof.
  cbn [passes_loop]. intros (s1 & [] & Hs & H3)%M_bind_Ok. exists s1. split; [done|]. revert H3.
  unfold mbind, M_bind, lookahead, extend. destruct (ensureSelfLookahead window (keys s1)) as [r1 e1]. cbn [keys].
  destruct (ensureIncomingLookahead window r1) as [r2 e2]. cbn [unopenable utxos merkleTree].
  destruct e1, e2; cbn; [done..|]. by intros [= <-].
Qed.

(** What a note of the repository comes from. *)
Definition backed (r : KeyRepository) (us : UtxoRepository) (events : list UnprocessedEvent) (x : Utxo.WalletNote) : Prop :=
  x ∈ getAllNotes us ∨ ∃ event w b, event ∈ events ∧ outcome r event = Some w ∧ x = with_spent b (stored w).
(** The last pass ran over every tag that is registered at the end. *)
Definition settled (s : State) (events : list UnprocessedEvent) : Prop :=
  ∃ us, utxos s = foldl (collect (keys s)) us events.

Lemma collect_same r r' us events : same_tags r r' → foldl (collect r) us events = foldl (collect r') us events.
Proof.
  intros T. revert us. induction events as [|ev events IH]; intros us; [done|]. cbn [foldl]. rewrite IH.
  unfold collect. by rewrite (outcome_same _ _ _ T).
Qed.

Lemma passes_spec n notes events window s s' : map_res toUnprocessedEvent notes = Ok events →
  quiet window (keys s) → passes_loop n notes window s = (s', Ok tt) →
  grows (keys s) (keys s') ∧ quiet window (keys s') ∧
  (∀ x, x ∈ getAllNotes (utxos s') → backed (keys s') (utxos s) events x) ∧
  (settled s' events ∨ (n + count_accounted (keys s) events <= count_accounted (keys s') events)%nat).
Proof.
  intros He. revert s. induction n as [|n IH]; intros s Hq.
  { intros [= <-]. split_and!; [done|done|by left|by right]. }
  intros (s1 & Hs & Hloop)%passes_S. destruct (scanOnce_events _ _ _ _ He Hs) as [Hk Hu].
  destruct (pass_spec (keys s) events) as (T & G & _). rewrite <- Hk in T, G.
  pose proof (extend_spec window (keys s1)) as Hext. destruct (extend window (keys s1)) as [r ext].
  destruct Hext as (G' & Hq' & _ & _ & _ & Hcase).
  assert (Hlisted : ∀ x, x ∈ getAllNotes (utxos s1) → backed (keys s1) (utxos s) events x).
  { intros x. rewrite Hu, (collect_same _ _ _ _ T). apply collect_listed. }
  destruct ext.
  - destruct Hcase as [[_ Hnq]|[]]; [|done]. destruct (IH (with_keys r s1) Hq' Hloop) as (G2 & Hq2 & Hl2 & Hc2).
    cbn [with_keys keys utxos] in *. split_and!; [by repeat (etrans; [eassumption|])|done| |].
    + intros x [Hx|(ev & w & b & ?)]%Hl2; [|right; by eauto].
      destruct (Hlisted x Hx) as [|(ev & w & b & Hev & Ho & ->)]; [by left|]. right. exists ev, w, b.
      split_and!; [done| |done]. eapply outcome_grows; [|exact Ho]. by etrans.
    + destruct Hc2 as [|Hc2]; [by left|]. right. rewrite Hk in Hnq.
      pose proof (repository_progress _ _ _ Hq Hnq). pose proof (count_accounted_grows _ _ events G').
      rewrite <- Hk in *. lia.
  - destruct Hcase as [[]|[_ ->]]; [done|]. subst s'. cbn [with_keys keys utxos] in *.
    split_and!; [done|done|done|]. left. exists (utxos s). cbn [with_keys keys utxos]. by rewrite Hu, (collect_same _ _ _ _ T).
Qed.

Lemma scanPasses_spec from window s s' : scanPasses from window s = (s', Ok tt) →
  ∃ notes events, fetchNotes from = Some notes ∧ map_res toUnprocessedEvent notes = Ok events ∧
    grows (keys s) (keys s') ∧ quiet window (keys s') ∧
    (∀ x, x ∈ getAllNotes (utxos s') → backed (keys s') (utxos s) events x) ∧
    ((count_own (keys s') events < maxPasses)%nat → settled s' events).
Proof.
  unfold scanPasses. unfold mbind at 1 2, M_bind at 1 2, lookahead at 1 2.
  pose proof (extend_spec window (keys s)) as Hext. unfold extend in Hext.
  destruct (ensureSelfLookahead window (keys s)) as [r1 e1]. cbn [keys].
  destruct (ensureIncomingLookahead window r1) as [r e2]. cbn [unopenable utxos merkleTree].
  destruct Hext as (G & Hq & _). destruct (fetchNotes from) as [notes|]; [|done]. intros Hloop.
  assert (∃ events, map_res toUnprocessedEvent notes = Ok events) as [events He].
  { change maxPasses with (S 63) in Hloop. destruct (passes_S _ _ _ _ _ Hloop) as (s1 & (events & He & _)%scanOnce_Ok & _). eauto. }
  destruct (passes_spec _ _ _ _ (mkEngine r (unopenable s) (utxos s) (merkleTree s)) _ He Hq Hloop) as (G2 & Hq2 & Hl & Hc).
  cbn [keys utxos] in *. exists notes, events. split_and!; [done|done|by etrans|done|done|].
  intros Hlt. destruct Hc as [|Hc]; [done|]. pose proof (accounted_own (keys s') events). lia.
Qed.

(** *** Soundness *)

(** C19. Syncing only ever adds notes the wallet can spend: every note listed
    afterwards was there before or was opened from an entry of the feed; it
    then hashes to the entry's leaf at the entry's index, is of the standard
    type, its asset fits 160 bits, its owner is the commitment to the public
    key of the scalar stored with it, its nullifier is that of the leaf, and
    the scalar is the wallet's self-spend key or the incoming key registered
    under the entry's tag. *)
Theorem sync_sound window from s s' : sync window from s = (s', Ok tt) →
  ∃ notes events, fetchNotes from = Some notes ∧ map_res toUnprocessedEvent notes = Ok events ∧
  ∀ x, x ∈ getAllNotes (utxos s') → x ∈ getAllNotes (utxos s) ∨
    ∃ event w b, event ∈ events ∧ x = with_spent b (stored w) ∧ genuine w ∧
      toFr (e_commitment event) = Ok (w_commitment w) ∧ w_leafIndex w = e_leafIndex event ∧
      keyed getSelfSpendScalar (keys s') event w.
Proof.
  intros (notes & events & Hf & He & _ & _ & Hl & _)%scanPasses_spec. exists notes, events. split_and!; [done..|].
  intros x [|(ev & w & b & Hin & Ho & ->)]%Hl; [by left|]. right. exists ev, w, b.
  destruct (outcome_sound _ _ _ _ _ Ho) as (Hg & Hk & Hc & Hi). by split_and!.
Qed.

(** *** Completeness *)
Import Note Kem Dem Mint Keys.Keys.

(** The entry of the feed that publishes a minted note. *)
Definition published (m : MintedNote) (idx : Z) (n : IndexerNoteInserted) : Prop :=
  leaf_index n = idx ∧ n_leaf n = Some (Mint.commitment m) ∧ eph_pub_x n = Some (m_ephPub m).1 ∧
  (∃ ct, demEncrypt (m_cek m) (transmitted_fields (m_note m)) = Ok ct ∧ ciphertext n = Some <$> ct) ∧
  match m_cekWrap m with
  | Some w => n_tag n = Some (Some (m_tag m)) ∧ cek_wrap n = Some (Some w)
  | None => cek_wrap n = None
  end.

(** A key of the ring yields the content key [cek], no key fails the point
    checks, and the other keys do not open the entry. *)
Definition ring_opens (eph cek : Z) (rec : Z → result ScanError RecoverOutcome) : Prop :=
  (∃ e, e ∈ ring ∧ deriveCek eph (pk e) = Ok cek) ∧
  ∀ e, e ∈ ring → ∃ cek', deriveCek eph (pk e) = Ok cek' ∧ (cek' = cek ∨ fails (rec cek')).

Inductive addressed (r : KeyRepository) (m : MintedNote) (idx : Z) (ct : list (option Z)) : Processor.WalletNote → Prop :=
  | to_self eph v asset cpk par i :
      mintSelfNote eph v getSelfSpendScalar asset cpk par = Ok m →
      0 <= asset < 2 ^ 160 → in_field par → pubkeyOwner (publicKey getSelfSpendScalar) ≠ 0 →
      selfMap r !! (publicKey eph).1 = Some (eph, i) →
      ring_opens eph (m_cek m) (λ cek, recover cek ct (Mint.commitment m) idx getSelfSpendScalar false i) →
      addressed r m idx ct (found_note m idx false i)
  | to_address eph v inKey asset ck par i :
      valid_scalar eph → valid_scalar ck → valid_scalar inKey →
      mintIncomingNote eph v (publicKey inKey) inKey asset (publicKey ck) par = Ok m →
      0 <= asset < 2 ^ 160 → in_field par → pubkeyOwner (publicKey inKey) ≠ 0 →
      incomingMap r !! (publicKey inKey).1 = Some (inKey, i) →
      Keys.Fields.recoverEvenY (publicKey eph).1 = Ok (publicKey eph) →
      addressed r m idx ct (found_note m idx true i).

Context {L : BabyJubjubLaws} {PF : Poseidon2Field}.

Lemma leaf_field n c : Note.leaf n = Ok c → in_field c.
Proof. unfold Note.leaf. destruct (_ || _); [done|]. intros [= <-]. apply PF. Qed.
Lemma tagKey_Ok x : in_field x → tagKey x = Ok x.
Proof. intros [H1' H2']. unfold tagKey. by rewrite (proj2 (Z.leb_le _ _)), (proj2 (Z.ltb_lt _ _)). Qed.
Lemma finish_tag_field eph v own asset spend par cpk m : finish eph v own asset spend par cpk = Ok m →
  in_field (publicKey eph).1.
Proof.
  unfold finish. intros (cek & _ & (c & _ & (v' & _ & (t & [_ Ht]%newFr_inv & _)%bind_Ok)%bind_Ok)%bind_Ok)%bind_Ok. done.
Qed.

Lemma outcome_self r m idx n event eph v asset cpk par i :
  in_field idx → published m idx n → toUnprocessedEvent n = Ok event →
  mintSelfNote eph v getSelfSpendScalar asset cpk par = Ok m →
  0 <= asset < 2 ^ 160 → in_field par → pubkeyOwner (publicKey getSelfSpendScalar) ≠ 0 →
  selfMap r !! (publicKey eph).1 = Some (eph, i) →
  ring_opens eph (m_cek m) (λ cek, recover cek (ciphertext n) (Mint.commitment m) idx getSelfSpendScalar false i) →
  outcome r event = Some (found_note m idx false i).
Proof.
  intros Hidx (Hn & Hleaf & Hx & (ct & Hct & Hcipher) & Hm') He Hm Ha Hp Ho Hmap [Hex Hall]. unfold mintSelfNote in Hm.
  pose proof (finish_tag_field _ _ _ _ _ _ _ _ Hm) as Hxf.
  destruct (finish_Ok _ _ _ _ _ _ _ _ Hm) as (_ & _ & _ & Hl & _ & _ & Heph & _ & _ & _ & Hw & _).
  rewrite Hw in Hm'. rewrite Heph in Hx. revert He. unfold toUnprocessedEvent. rewrite Hm', Hx.
  intros He.
  assert (event = mkEvent NEW_NOTE idx (n_root n) idx (Some (Mint.commitment m)) (publicKey eph).1 (ciphertext n) None None) as ->.
  { rewrite Hn, Hleaf in He. destruct (n_tag n); by injection He as <-. }
  clear He.
  unfold Processor.outcome, process, processNewNote, caught, on_keys, matchSelfTag, pure, lift, mbind, M_bind.
  cbn [type ephemeralX e_commitment packedCiphertext e_leafIndex blockNumber fst snd].
  rewrite tagKey_Ok, Hmap, toFr_Ok by (done || by eapply leaf_field).
  rewrite (epochs_loop_opens _ _ _ (m_cek m) (found_note m idx false i)); [done| | |].
  - intros e. rewrite (Ring.candidatesFor_perm _ ring). apply Hall.
  - destruct Hex as (e & He' & Hd). exists e. by rewrite (Ring.candidatesFor_perm _ ring).
  - rewrite Hcipher. eapply recover_minted; [done|apply PF|done..].
Qed.

Lemma outcome_address r m idx n event eph v inKey asset ck par i :
  in_field idx → published m idx n → toUnprocessedEvent n = Ok event →
  valid_scalar eph → valid_scalar ck → valid_scalar inKey →
  mintIncomingNote eph v (publicKey inKey) inKey asset (publicKey ck) par = Ok m →
  0 <= asset < 2 ^ 160 → in_field par → pubkeyOwner (publicKey inKey) ≠ 0 →
  incomingMap r !! (publicKey inKey).1 = Some (inKey, i) →
  Keys.Fields.recoverEvenY (publicKey eph).1 = Ok (publicKey eph) →
  outcome r event = Some (found_note m idx true i).
Proof.
  intros Hidx (Hn & Hleaf & Hx & (ct & Hct & Hcipher) & Hm') He Hve Hvc Hvi Hm Ha Hp Ho Hmap Hrec.
  unfold mintIncomingNote in Hm. apply bind_Ok in Hm as (b & Hb & (w & Hw & (t & [-> Ht]%newFr_inv & [= <-])%bind_Ok)%bind_Ok).
  cbn [m_cekWrap m_tag Mint.commitment m_ephPub m_note m_cek] in *.
  destruct (finish_Ok _ _ _ _ _ _ _ _ Hb) as (_ & _ & _ & Hl & _ & _ & Heph & _ & _ & _ & _ & Hcf).
  destruct Hm' as [Htag Hwrap]. rewrite Heph in Hx. revert He. unfold toUnprocessedEvent. rewrite Htag, Hwrap, Hx.
  cbn [mbind result_bind big_int]. intros [= <-].
  unfold Processor.outcome, process, processMemo, caught, on_keys, matchIncomingTag, pure, lift, mbind, M_bind.
  cbn [type ephemeralX e_commitment packedCiphertext e_leafIndex e_tag cekWrap fmap option_fmap option_map fst snd].
  destruct (unwrap_wrap (m_cek b) eph inKey Hcf Hve Hvi) as (w' & Hw' & Hun).
  rewrite Hw in Hw'. injection Hw' as <-.
  assert (Hwf : in_field w).
  { revert Hw. unfold wrapCek. intros (_ & _ & (_ & _ & (pad & _ & [= <-])%bind_Ok)%bind_Ok)%bind_Ok.
    unfold frAdd, in_field. apply Z.mod_pos_bound. done. }
  rewrite tagKey_Ok, Hmap by done. cbn [fst snd]. rewrite Hrec. cbn [map_err]. rewrite newFr_Ok by done. cbn [map_err].
  rewrite Hun, Hleaf, toFr_Ok by (by eapply leaf_field). cbn [map_err]. rewrite Hn, Hcipher.
  rewrite (recover_minted eph v inKey asset par (publicKey ck) b ct) by (done || apply PF). cbn [snd].
  done.
Qed.

(** C15. From minting to the balance: if the feed publishes a note minted for
    the wallet - for one of its registered self ephemerals under a key of its
    ring, or for one of its registered incoming addresses - and fewer than 64
    entries of the feed carry the wallet's tags, then a sync that returns has
    put exactly that note under its nullifier, with its value, asset and
    spending scalar, whatever order the notes are in and however often the
    windows had to grow; and both windows are clear beyond the highest match. *)
Theorem sync_receives window from s s' notes events n m idx w :
  sync window from s = (s', Ok tt) → fetchNotes from = Some notes → map_res toUnprocessedEvent notes = Ok events →
  (count_own (keys s') events < maxPasses)%nat →
  n ∈ notes → published m idx n → in_field idx → addressed (keys s') m idx (ciphertext n) w →
  (∀ event w', event ∈ events → outcome (keys s') event = Some w' → w_nullifier w' = w_nullifier w → w' = w) →
  quiet window (keys s') ∧ w_note w = m_note m ∧ w_nullifier w = computeNullifier (m_psi m) idx ∧
  ∃ b, map_get (w_nullifier w) (utxos s') = Some (with_spent b (stored w)).
Proof.
  intros (notes' & events' & Hf' & He' & _ & Hq & _ & Hset)%scanPasses_spec Hf He Hcount Hn Hpub Hidx Haddr Huniq.
  rewrite Hf in Hf'. injection Hf' as <-. rewrite He in He'. injection He' as <-.
  destruct (Hset Hcount) as [us Hus].
  assert (∃ event, event ∈ events ∧ toUnprocessedEvent n = Ok event) as (event & Hin & Hev).
  { clear -He Hn. revert events He. induction Hn as [n notes|n n' notes _ IH]; intros events; cbn [map_res];
      intros (ev & Hev & (evs & Hevs & [= <-])%bind_Ok)%bind_Ok.
    - exists ev. split; [left|done].
    - destruct (IH _ Hevs) as (ev' & ? & ?). exists ev'. split; [by right|done]. }
  assert (Ho : outcome (keys s') event = Some w).
  { destruct Haddr as [|e0 v k0 asset ck par i]; [eapply outcome_self; eassumption|].
    by eapply (outcome_address _ m idx n event e0 v k0 asset ck par). }
  split_and!; [done|by destruct Haddr|by destruct Haddr|]. rewrite Hus. by eapply collect_found.
Qed.

(** *** How far a sync can reach *)

(** Every registered self tag lies below the scan index, and so does every match. *)
Definition indexed (r : KeyRepository) : Prop :=
  highestMatchedSelf r < selfScanIndex r ∧ ∀ key k i, selfMap r !! key = Some (k, i) → i < selfScanIndex r.

Lemma registerSelf_indexed r : indexed r → indexed (registerSelf r).
Proof.
  intros [Hh Hm]. unfold indexed, registerSelf. cbn [highestMatchedSelf selfScanIndex selfMap]. split; [lia|].
  intros key k i. destruct (negb _); [intros ?%Hm; lia|].
  destruct (selfMap r !! _) as [[]|]; [intros ?%Hm; lia|].
  rewrite lookup_insert_Some. intros [[_ [= <- <-]]|[_ ?%Hm]]; lia.
Qed.
Lemma registerIncoming_indexed r : indexed r → indexed (registerIncoming r).
Proof. done. Qed.
Lemma iter_inv {A} (P : A → Prop) (f : A → A) n x : (∀ x, P x → P (f x)) → P x → P (Nat.iter n f x).
Proof. intros Hf Hx. induction n; [done|]. by apply Hf. Qed.

Lemma extend_reach window r : 0 <= window → indexed r →
  indexed (extend window r).1 ∧ selfScanIndex (extend window r).1 <= selfScanIndex r + window.
Proof.
  intros Hw Hi. pose proof (extend_spec window r) as Hs.
  assert (Hi' : indexed (extend window r).1).
  { unfold extend, ensureSelfLookahead, ensureIncomingLookahead, register_self_to, register_incoming_to. cbn [fst].
    apply iter_inv; [apply registerIncoming_indexed|]. apply iter_inv; [apply registerSelf_indexed|done]. }
  destruct (extend window r) as [r' ext]. cbn [fst] in *. destruct Hs as (_ & _ & _ & _ & -> & _).
  split; [done|]. destruct Hi. lia.
Qed.
Lemma pass_indexed r events : indexed r → indexed (pass r events) ∧ selfScanIndex (pass r events) = selfScanIndex r.
Proof.
  intros [Hh Hm]. destruct (pass_spec r events) as ((Es & _ & Ei & _) & _ & _ & J). unfold indexed. rewrite <- Es, <- Ei.
  split_and!; [|done|done]. specialize (J NEW_NOTE). cbn [high repository_scanner] in J.
  destruct J as [->|(ev & _ & Hs)]; [done|]. revert Hs. cbn [slot repository_scanner]. unfold matched, matchSelfTag.
  destruct (type ev) eqn:Ety; [|by destruct (_ : _ * result _ _).2 as [[[]|]|]].
  destruct (tagKey _) as [key|]; [|done]. destruct (selfMap r !! key) as [[k i]|] eqn:El; [|done].
  cbn. intros [= <-]. by eapply Hm.
Qed.

Lemma passes_reach n notes window s s' : 0 <= window → indexed (keys s) →
  passes_loop n notes window s = (s', Ok tt) →
  indexed (keys s') ∧ selfScanIndex (keys s') <= selfScanIndex (keys s) + Z.of_nat n * window.
Proof.
  intros Hw. revert s. induction n as [|n IH]; intros s Hi; [intros [= <-]; split; [done|lia]|].
  intros (s1 & (events & _ & Hk & _)%scanOnce_Ok & Hl)%passes_S.
  destruct (pass_indexed (keys s) events Hi) as [Hi1 Hs1]. rewrite <- Hk in *.
  destruct (extend_reach window (keys s1) Hw Hi1) as [Hi2 Hs2].
  destruct (extend window (keys s1)) as [r []]; cbn [fst] in *.
  - destruct (IH (with_keys r s1) Hi2 Hl) as [Hi3 Hs3]. cbn [with_keys keys] in Hs3. split; [done|nia].
  - subst s'. cbn [with_keys keys]. split; [done|nia].
Qed.

(** C39. The reach of one sync: it registers at most 65 windows of new self
    indices, so no self note with a later index is among those it lists,
    however many of the wallet's notes the feed holds; a wallet that starts
    from its seed alone finds self notes below index 1300 with the default
    window of 20. *)
Theorem sync_reach window from s s' : 0 <= window → indexed (keys s) → sync window from s = (s', Ok tt) →
  selfScanIndex (keys s') <= selfScanIndex (keys s) + 65 * window ∧
  ∀ x, x ∈ getAllNotes (utxos s') → x ∈ getAllNotes (utxos s) ∨ isIncoming x = true ∨
    derivationIndex x < selfScanIndex (keys s) + 65 * window.
Proof.
  intros Hw Hi Hsync. pose proof Hsync as Hsync'.
  apply scanPasses_spec in Hsync' as (notes & events & Hf & _ & _ & _ & Hl & _).
  assert (Hr : indexed (keys s') ∧ selfScanIndex (keys s') <= selfScanIndex (keys s) + 65 * window).
  { revert Hsync. unfold sync, scanPasses. unfold mbind at 1 2, M_bind at 1 2, lookahead at 1 2.
    pose proof (extend_reach window (keys s) Hw Hi) as He. unfold extend in He.
    destruct (ensureSelfLookahead window (keys s)) as [r1 e1]. cbn [keys].
    destruct (ensureIncomingLookahead window r1) as [r e2]. cbn [unopenable utxos merkleTree fst] in *.
    rewrite Hf. destruct He as [Hi1 Hs1]. intros [Hi2 Hs2]%passes_reach; [|done|done].
    cbn [keys] in Hs2. split; [done|]. change (Z.of_nat maxPasses) with 64 in Hs2. lia. }
  destruct Hr as [[_ Hm] Hr]. split; [done|]. intros x [|(ev & w & b & _ & Ho & ->)]%Hl; [by left|]. right.
  destruct (outcome_sound _ _ _ _ _ Ho) as (_ & (k & Hk & Hty) & _). cbn [with_spent stored isIncoming derivationIndex].
  revert Hk. unfold matched. destruct (type ev); [|left; apply Hty]. right. revert Hk. unfold matchSelfTag.
  destruct (tagKey _) as [key|]; [|done]. destruct (selfMap (keys s') !! key) as [[k' i]|] eqn:El; [|done].
  cbn. intros [= -> <-]. specialize (Hm _ _ _ El). lia.
Qed.

(** *** The local tree *)

(** The feed serves the pool's leaves from index [from]. *)
Fixpoint serves (pool : list Z) (from : nat) (notes : list IndexerNoteInserted) : Prop :=
  match notes with
  | [] => from = length pool
  | n :: notes => leaf_index n = Z.of_nat from ∧ (∃ x, pool !! from = Some x ∧ n_leaf n = Some x) ∧
                  is_ok (toUnprocessedEvent n) = true ∧ serves pool (S from) notes
  end.
Definition tree_at (d : nat) (leaves : list Z) (s : State) : Prop :=
  ∃ t, merkleTree s = Some t ∧ Tree.Spec.sdk_repr t d leaves.

Lemma scanOnce_tree d pool notes : (1 <= d)%nat → Forall (λ x, in_field x ∧ x ≠ 0) pool →
  Z.of_nat (length pool) <= 2 ^ Z.of_nat d → ∀ from done s, serves pool from notes → (from <= done <= length pool)%nat →
  tree_at d (take done pool) s → ∃ s', scanOnce notes s = (s', Ok tt) ∧ tree_at d pool s'.
Proof.
  intros Hd Hpool Hcap. induction notes as [|n notes IH]; intros from done s; cbn [serves scanOnce].
  { intros -> Hle Ht. exists s. split; [done|]. replace done with (length pool) in Ht by lia. by rewrite firstn_all in Ht. }
  intros (Hi & (x & Hx & Hl) & Hok & Hs) Hle (t & Ht & Hr).
  destruct (toUnprocessedEvent n) as [event|] eqn:He; [|done].
  assert (Hg : ∃ s1 done', grow n s = (s1, Ok tt) ∧ (S from <= done' <= length pool)%nat ∧ tree_at d (take done' pool) s1).
  { unfold grow. rewrite Ht. pose proof (Tree.Spec.sr_index _ _ _ Hr) as Hidx. rewrite length_take in Hidx.
    assert (Hlt : (from < length pool)%nat) by (by eapply lookup_lt_Some).
    destruct (Z.eqb_spec (leaf_index n) (Z.of_nat (Sdk.nextLeafIndex t))) as [E|Hne].
    - assert (done = from) as -> by lia. rewrite Forall_forall in Hpool.
      destruct (Hpool x) as [Hxf Hx0]; [by eapply list_elem_of_lookup_2|].
      destruct (Tree.Spec.sdk_insert_repr t d _ x Hr Hd Hx0) as (t' & Hins & Hr'); [rewrite length_take; lia|].
      rewrite Hl, toFr_Ok by done. cbn [mbind result_bind]. rewrite Hins. cbn [map_err].
      eexists _, (S from). split_and!; [done|lia|lia|]. exists t'. split; [done|]. by rewrite (take_S_r _ _ x).
    - exists s, done. split_and!; [done|lia|lia|by exists t]. }
  destruct Hg as (s1 & done' & Hg & Hle' & Ht'). destruct (receive_eq event s1) as [u Hr'].
  destruct (IH (S from) done' (mkEngine (touch (keys s1) event) u (collect (keys s1) (utxos s1) event) (merkleTree s1)))
    as (s' & Hs' & Hd'); [done|done|done|]. exists s'. split; [|done].
  rewrite M_bind_Ok. exists s1, tt. split; [done|]. rewrite M_bind_Ok. exists s1, event. split; [by apply lift_Ok|].
  rewrite M_bind_Ok. eauto.
Qed.

Lemma passes_tree d pool from notes window n : (1 <= d)%nat → Forall (λ x, in_field x ∧ x ≠ 0) pool →
  Z.of_nat (length pool) <= 2 ^ Z.of_nat d → serves pool from notes →
  ∀ done s, (from <= done <= length pool)%nat → tree_at d (take done pool) s →
  ∃ s', passes_loop (S n) notes window s = (s', Ok tt) ∧ tree_at d pool s'.
Proof.
  intros Hd Hpool Hcap Hs. induction n as [|n IH]; intros done s Hle Ht;
    destruct (scanOnce_tree d pool notes Hd Hpool Hcap from done s Hs Hle Ht) as (s1 & Hs1 & t & Ht1 & Hr1);
    pose proof (extend_spec window (keys s1)) as Hext; unfold extend in Hext; 
    cbn [passes_loop]; unfold mbind at 1, M_bind at 1; rewrite Hs1; unfold mbind, M_bind, lookahead;
    destruct (ensureSelfLookahead window (keys s1)) as [r1 e1]; cbn [keys];
    destruct (ensureIncomingLookahead window r1) as [r2 e2]; cbn [unopenable utxos merkleTree].
  - destruct e1, e2; (eexists; split; [done|by exists t]).
  - destruct (IH (length pool) (mkEngine r2 (unopenable s1) (utxos s1) (merkleTree s1))) as (s' & Hs' & Ht'); [lia| |].
    { exists t. by rewrite firstn_all. }
    destruct e1, e2; [by exists s'..|]. eexists. split; [done|by exists t].
Qed.

Lemma scanPasses_tree d pool from notes window done s : (1 <= d)%nat → Forall (λ x, in_field x ∧ x ≠ 0) pool →
  Z.of_nat (length pool) <= 2 ^ Z.of_nat d → fetchNotes (Z.of_nat from) = Some notes → serves pool from notes →
  (from <= done <= length pool)%nat → tree_at d (take done pool) s →
  ∃ s', scanPasses (Z.of_nat from) window s = (s', Ok tt) ∧ tree_at d pool s'.
Proof.
  intros Hd Hpool Hcap Hf Hs Hle (t & Ht & Hr). unfold scanPasses.
  unfold mbind at 1 2, M_bind at 1 2, lookahead at 1 2. destruct (ensureSelfLookahead window (keys s)) as [r1 e1].
  cbn [keys]. destruct (ensureIncomingLookahead window r1) as [r2 e2]. cbn [unopenable utxos merkleTree]. rewrite Hf.
  apply (passes_tree d pool from notes window 63 Hd Hpool Hcap Hs done); [done|by exists t].
Qed.

(** The local tree: when the indexer serves the pool's leaves from an
    index that the tree has reached, with readable entries, a sync returns,
    and whatever the number of passes the tree then holds exactly the pool's
    leaves and has the pool's root. *)
Theorem sync_tree d pool from notes window done s : (1 <= d)%nat → Forall (λ x, in_field x ∧ x ≠ 0) pool →
  Z.of_nat (length pool) <= 2 ^ Z.of_nat d → fetchNotes (Z.of_nat from) = Some notes → serves pool from notes →
  (from <= done <= length pool)%nat → tree_at d (take done pool) s →
  ∃ s' t, sync window (Z.of_nat from) s = (s', Ok tt) ∧ merkleTree s' = Some t ∧
    Sdk.nextLeafIndex t = length pool ∧ Sdk.getRoot t = Tree.Spec.root d pool.
Proof.
  intros Hd Hpool Hcap Hf Hs Hle Ht.
  destruct (scanPasses_tree d pool from notes window done s Hd Hpool Hcap Hf Hs Hle Ht) as (s' & Hs' & t' & Ht' & Hr').
  exists s', t'. split_and!; [done|done|apply Hr'|apply Hr'].
Qed.
End Engine.
End Engine.

(** ** Witnesses: a wallet of the toy group whose two notes need a second pass *)
Module ScanWitness.
Import EvenCurve MintWitness Mint KeyRepo Processor Lookahead Engine.

#[local] Instance sum_v1 : PoseidonV1 := λ xs, sumZ (λ x, x) xs mod MODULUS.
#[local] Instance toy_account : DarkAccount := {|
  getSelfEphemeral i := i mod 12 + 1; getIncomingKey i := i mod 12 + 1; getSelfSpendPub := Keys.Keys.publicKey 4 |}.
Definition toy_ring : list ComplianceKeyEpoch := [mkEpoch 1 (Keys.Keys.publicKey 3) (Some 0); mkEpoch 2 (Keys.Keys.publicKey 5) (Some 9)].
Definition toy_entry (idx eph v : Z) : IndexerNoteInserted :=
  match mintSelfNote eph v 4 9 (Keys.Keys.publicKey 3) 0 with
  | Ok m => mkIndexed idx (Some (Mint.commitment m)) (Some (m_ephPub m).1) (Some (Some (m_tag m))) None
              (match Dem.demEncrypt (m_cek m) (transmitted_fields (m_note m)) with Ok ct => Some <$> ct | Err _ => [] end) ""
  | Err _ => mkIndexed idx None None None None [] ""
  end.
Definition toy_feed : list IndexerNoteInserted := [toy_entry 0 5 40; toy_entry 1 2 50].
Definition toy_fetch (from : Z) : option (list IndexerNoteInserted) := Some (drop (Z.to_nat from) toy_feed).
Definition toy_tree : Sdk.LeanIMT := Sdk.mkLeanIMT 2 [[]; []] 0 0.
Definition toy_start : Engine.State := mkEngine fresh 0 [] (Some toy_tree).
Definition toy_synced : Engine.State := (sync 4 toy_ring toy_fetch 3 0 toy_start).1.
Lemma toy_sync : sync 4 toy_ring toy_fetch 3 0 toy_start = (toy_synced, Ok tt).
Proof. vm_compute. reflexivity. Qed.

Lemma sync_sound_witness : Utxo.value <$> Utxo.getAllNotes (utxos toy_synced) = [50; 40] ∧
  ∀ x, x ∈ Utxo.getAllNotes (utxos toy_synced) → ∃ w b, x = Utxo.with_spent b (stored w) ∧ genuine w.
Proof.
  split; [vm_compute; reflexivity|]. intros x Hx.
  destruct (sync_sound 4 toy_ring toy_fetch 3 0 toy_start toy_synced toy_sync) as (notes & events & _ & _ & Hall).
  destruct (Hall x Hx) as [Hn|(event & w & b & _ & -> & Hg & _)]; [by apply not_elem_of_nil in Hn|]. by exists w, b.
Defined.

Lemma sync_reach_witness : selfScanIndex (keys toy_synced) = 8 ∧ 8 <= 65 * 3.
Proof.
  split; [vm_compute; reflexivity|].
  destruct (sync_reach 4 toy_ring toy_fetch 3 0 toy_start toy_synced) as [Hr _].
  - lia.
  - split; [done|]. intros key k i Hk. change ((∅ : gmap Z (Z * Z)) !! key = Some (k, i)) in Hk. by rewrite lookup_empty in Hk.
  - apply toy_sync.
  - vm_compute in Hr |- *. exact Hr.
Defined.

Definition toy_pool : list Z := (λ n, default 0 (n_leaf n)) <$> toy_feed.
Lemma sync_tree_witness : ∃ s' t, sync 4 toy_ring toy_fetch 3 0 toy_start = (s', Ok tt) ∧ merkleTree s' = Some t ∧
  Sdk.nextLeafIndex t = 2%nat ∧ Sdk.getRoot t = Tree.Spec.root 2 toy_pool.
Proof.
  apply (sync_tree 4 toy_ring toy_fetch 2 toy_pool 0 toy_feed 3 0 toy_start).
  - lia.
  - apply (bool_decide_unpack _). vm_compute. done.
  - vm_compute. discriminate.
  - reflexivity.
  - repeat split; (eexists; split; [reflexivity|vm_compute; reflexivity]) || vm_compute; reflexivity.
  - simpl. lia.
  - exists toy_tree. split; [done|]. by apply Tree.Spec.sdk_new_repr.
Defined.
End ScanWitness.

(** ** Witness: the two points of order two with canonical coordinates *)
Module ReceiveWitness.
Import Mint MintWitness KeyRepo Processor Lookahead Engine Keys.Fields Keys.Keys.

Definition pt (k : Z) : Point := (0, if k mod 2 =? 0 then 1 else BJJ_P - 1).
Definition ix (p : Point) : Z := if p.2 =? 1 then 0 else 1.
#[local] Instance two_points : BabyJubjub := {|
  addPoint a b := pt (ix a + ix b);
  mulPointEscalar p k := pt (ix p * k);
  Base8 := (0, BJJ_P - 1);
  subOrder := 2;
  inCurve p := (p.1 =? 0) && ((p.2 =? 1) || (p.2 =? BJJ_P - 1));
|}.
Lemma ix_pt k : ix (pt k) =[2] k.
Proof.
  unfold ix, pt. cbn [snd]. pose proof (Z.mod_pos_bound k 2). apply eqm_iff.
  destruct (Z.eqb_spec (k mod 2) 0) as [E|E]; [by rewrite E|]. change (BJJ_P - 1 =? 1) with false.
  cbv iota. change (1 mod 2) with 1. lia.
Qed.
Lemma scan_pt_eqm j k : j =[2] k → pt j = pt k.
Proof. rewrite eqm_iff. unfold pt. by intros ->. Qed.
#[local] Instance two_points_laws : BabyJubjubLaws.
Proof.
  split; unfold mulPointEscalar, addPoint, Base8, subOrder, inCurve, two_points; cbn [fst snd];
    change (ix (0, BJJ_P - 1)) with 1.
  - split; [lia|]. intros n Hn. lia.
  - done.
  - intros j k _ _. apply scan_pt_eqm. rewrite !ix_pt. apply eqm_of_eq. ring.
  - intros j k _ _. apply scan_pt_eqm. rewrite !ix_pt. apply eqm_of_eq. ring.
  - intros j k _ _ E. rewrite <- (Z.mul_1_l j), <- (Z.mul_1_l k), <- (ix_pt (1 * j)), E. apply ix_pt.
  - intros k j _ _ E. apply scan_pt_eqm. by rewrite E.
  - intros k _. unfold pt. cbn [fst snd]. by destruct ((1 * k) mod 2 =? 0).
  - intros p k _ _. unfold canonical, pt. cbn [fst snd]. by destruct ((ix p * k) mod 2 =? 0).
  - intros [x y]. cbn [fst snd]. rewrite andb_true_iff, orb_true_iff, !Z.eqb_eq.
    intros [-> [-> | ->]] _ _; [exists 0|exists 1]; (split; [lia|done]).
Qed.

(** At zero the curve equation has the roots 1 and -1, of which -1 is even. *)
Lemma recover_zero : recoverEvenY (publicKey 1).1 = Ok (publicKey 1).
Proof.
  change (publicKey 1) with (0, BJJ_P - 1). cbn [fst]. rewrite recoverEvenY_eq.
  change (invP _) with (invP 1). assert (invP 1 = Ok 1) as -> by (vm_compute; reflexivity).
  cbn [mbind result_bind]. change (modP (modP (1 - modP (BJJ_A * modP (0 * 0))) * 1)) with 1.
  assert (sqrtP 1 = Ok 1) as ->; [|vm_compute; reflexivity].
  unfold sqrtP. rewrite odd_loop_P. generalize (powP (nonresidue_loop 256 2) odd_part). intros c.
  vm_compute. reflexivity.
Qed.

#[local] Instance sum_v1 : PoseidonV1 := λ xs, sumZ (λ x, x) xs mod MODULUS.
#[local] Instance toy_account : DarkAccount := {|
  getSelfEphemeral _ := 1; getIncomingKey _ := 1; getSelfSpendPub := publicKey 1 |}.
Definition toy_minted : MintedNote :=
  match mintIncomingNote 1 40 (publicKey 1) 1 9 (publicKey 1) 0 with
  | Ok m => m
  | Err _ => mkMinted (Trace.Note.mkNote 0 0 0 0 0 0 0 0) 0 0 (0, 0) 0 0 0 0 None None
  end.
Definition toy_entry : IndexerNoteInserted :=
  mkIndexed 0 (Some (Mint.commitment toy_minted)) (Some (m_ephPub toy_minted).1) (Some (Some (m_tag toy_minted)))
    (Some (m_cekWrap toy_minted))
    (match Dem.demEncrypt (m_cek toy_minted) (transmitted_fields (m_note toy_minted)) with Ok ct => Some <$> ct | Err _ => [] end) "".
Definition toy_fetch (from : Z) : option (list IndexerNoteInserted) := Some [toy_entry].
(** The wallet has registered its first address. *)
Definition toy_start : Engine.State :=
  mkEngine (registerIncoming fresh) 0 [] (Some (Sdk.mkLeanIMT 2 [[]; []] 0 0)).
Definition toy_found : Processor.WalletNote := found_note toy_minted 0 true 0.

Lemma toy_event : ∃ event, map_res toUnprocessedEvent [toy_entry] = Ok [event].
Proof. eexists. vm_compute. reflexivity. Qed.

Lemma zero_in_field : in_field 0.
Proof. done. Qed.
Lemma toy_published : published toy_minted 0 toy_entry.
Proof. repeat split. eexists. split; vm_compute; reflexivity. Qed.
Lemma toy_valid : Kem.valid_scalar 1.
Proof. unfold Kem.valid_scalar, Kem.BJJ_SUBGROUP_ORDER. cbn. lia. Qed.
Lemma toy_mint : mintIncomingNote 1 40 (publicKey 1) 1 9 (publicKey 1) 0 = Ok toy_minted.
Proof. vm_compute. reflexivity. Qed.
Lemma toy_owner : pubkeyOwner (publicKey 1) ≠ 0.
Proof. vm_compute. discriminate. Qed.
Lemma toy_addressed r : incomingMap r !! 0 = Some (1, 0) →
  addressed 1 [] r toy_minted 0 (ciphertext toy_entry) toy_found.
Proof.
  intros Hr. apply (to_address _ _ _ _ _ _ 1 40 1 9 1 0 0); first
    [exact toy_valid|exact toy_mint|exact zero_in_field|exact toy_owner|exact Hr|exact recover_zero|lia].
Qed.
Lemma toy_outcome r event : incomingMap r !! 0 = Some (1, 0) → toUnprocessedEvent toy_entry = Ok event →
  Processor.outcome 1 [] r event = Some toy_found.
Proof.
  intros Hr He. apply (outcome_address 1 [] r toy_minted 0 toy_entry event 1 40 1 9 1 0 0); first
    [exact toy_valid|exact toy_mint|exact zero_in_field|exact toy_owner|exact Hr|exact recover_zero
    |exact toy_published|exact He|lia].
Qed.

Lemma sync_receives_witness : ∃ s', sync 1 [] toy_fetch 20 0 toy_start = (s', Ok tt) ∧
  ∃ b, Utxo.map_get (w_nullifier toy_found) (utxos s') = Some (Utxo.with_spent b (stored toy_found)) ∧
       Utxo.value (stored toy_found) = 40.
Proof.
  destruct (scanPasses_tree 1 [] toy_fetch 2 [Mint.commitment toy_minted] 0 [toy_entry] 20 0 toy_start)
    as (s' & Hs & _).
  - lia.
  - apply (bool_decide_unpack _). vm_compute. done.
  - vm_compute. discriminate.
  - reflexivity.
  - repeat split; (eexists; split; [reflexivity|vm_compute; reflexivity]) || vm_compute; reflexivity.
  - simpl. lia.
  - exists (Sdk.mkLeanIMT 2 [[]; []] 0 0). split; [done|]. by apply Tree.Spec.sdk_new_repr.
  - exists s'. split; [exact Hs|]. destruct toy_event as [event Hev].
    destruct (scanPasses_spec _ _ _ _ _ _ _ Hs) as (notes & events & [= <-] & He & [_ Hin _ _] & _).
    assert (Hin' : incomingMap (keys s') !! 0 = Some (1, 0)).
    { eapply lookup_weaken; [|exact Hin]. vm_compute. reflexivity. }
    destruct (sync_receives 1 [] toy_fetch 20 0 toy_start s' [toy_entry] [event] toy_entry toy_minted 0 toy_found Hs)
      as (_ & _ & _ & b & Hb); [reflexivity|exact Hev| |left|exact toy_published|exact zero_in_field|exact (toy_addressed _ Hin')| |].
    + unfold count_own, maxPasses. pose proof (length_filter (own (keys s')) [event]) as Hl. simpl length in Hl. lia.
    + intros ev w' ->%list_elem_of_singleton Ho _.
      assert (Hread : toUnprocessedEvent toy_entry = Ok event).
      { revert Hev. cbn [map_res]. intros (ev & Hr & (? & _ & [= ->])%bind_Ok)%bind_Ok. done. }
      enough (Processor.outcome 1 [] (keys s') event = Some toy_found) by congruence.
      exact (toy_outcome _ _ Hin' Hread).
    + exists b. split; [exact Hb|vm_compute; reflexivity].
Defined.
End ReceiveWitness.
