(* ===== verification/MultisigScan.v ===== *)
(** * The group scanner ([frost/multisigScan.ts], [MultisigScanEngine] of
    [sync/ScanEngine.ts])

    [Scanner] registers the self tags of every member and the group's receiving
    addresses, and reads one published note; [GroupEngine] repeats the feed until
    no new tag is registered.  A window is an integer; a text is the number that
    [BigInt] reads, as in [Scan]. *)
From S2P Require Import Prelude Bytes Zq Tss Dkg Keys Trace Mint Circuits State Keyring Discovery Frost Preflight SelfMint Multisig Gap Scan.
Local Open Scope Z_scope.

Inductive GroupScanError :=
  | Event_error (e : ScanError) | Group_error (e : MsError) | Bad_window (window : Z)
  | Undiscoverable
  (* the rounds of a loop ran out; never returned *)
  | Out_of_rounds.

Module Scanner.
Import Note Mint Kem Dem Ring Keys.Keys MultisigNote Scan.Processor.

Definition ASSET_MODULUS : Z := Z.shiftl 1 160.
Definition DEFAULT_SELF_WINDOW : Z := 100.
Definition MIN_LOOKAHEAD_WINDOW : Z := 16.
Definition MAX_SELF_ROLL : Z := 1000.
Definition DEFAULT_INCOMING_WINDOW : Z := 20.

Record MultisigNoteView := mkView {
  v_note : Note; v_commitment : Z; v_leafIndex : Z; v_nullifier : Z; v_isIncoming : bool;
  v_memberId : option Z; v_derivationJ : option Z }.
Record SelfSource := mkSelfSource { ss_memberId : Z; ss_j : Z; ss_eph : Z }.
Record IncomingSource := mkIncomingSource { in_index : Z; in_viewKey : Z }.

Record MultisigScanConfig := mkConfig {
  cfg_v : Z; cfg_gpk : Point; cfg_ring : list ComplianceKeyEpoch; cfg_memberIds : list Z;
  cfg_selfWindow : option Z; cfg_incomingWindow : option Z }.
Record MultisigScanner := mkScanner {
  sc_v : Z; complianceKeys : list ComplianceKeyEpoch; expectedOwner : Z; memberIds : list Z;
  incomingTags : gmap Z IncomingSource; selfTags : gmap Z SelfSource;
  selfScanJ : gmap Z Z; highestMatchedSelf : gmap Z Z;
  incomingScanIndex : Z; highestMatchedIncoming : Z; unopenable : Z }.

Section Scanner.
Context `{BabyJubjub} `{Poseidon2}.
Notation G := (M MultisigScanner GroupScanError).

Definition assertWindow (window : Z) : result GroupScanError Z :=
  if window <? MIN_LOOKAHEAD_WINDOW then Err (Bad_window window) else Ok window.
Definition key_err {A} (r : result KeyErr A) : result GroupScanError A := map_err (λ e, Group_error (Ms_key e)) r.
Definition tagKey (x : Z) : result GroupScanError Z := key_err (toFr x).

Definition with_self (tags : gmap Z SelfSource) (s : MultisigScanner) : MultisigScanner :=
  mkScanner (sc_v s) (complianceKeys s) (expectedOwner s) (memberIds s) (incomingTags s) tags (selfScanJ s)
    (highestMatchedSelf s) (incomingScanIndex s) (highestMatchedIncoming s) (unopenable s).
Definition with_scanJ (m : gmap Z Z) (s : MultisigScanner) : MultisigScanner :=
  mkScanner (sc_v s) (complianceKeys s) (expectedOwner s) (memberIds s) (incomingTags s) (selfTags s) m
    (highestMatchedSelf s) (incomingScanIndex s) (highestMatchedIncoming s) (unopenable s).
Definition with_incoming (tags : gmap Z IncomingSource) (index : Z) (s : MultisigScanner) : MultisigScanner :=
  mkScanner (sc_v s) (complianceKeys s) (expectedOwner s) (memberIds s) tags (selfTags s) (selfScanJ s)
    (highestMatchedSelf s) index (highestMatchedIncoming s) (unopenable s).
Definition match_self (src : SelfSource) (s : MultisigScanner) : MultisigScanner :=
  mkScanner (sc_v s) (complianceKeys s) (expectedOwner s) (memberIds s) (incomingTags s) (selfTags s) (selfScanJ s)
    (if default (-1) (highestMatchedSelf s !! ss_memberId src) <? ss_j src
     then <[ss_memberId src := ss_j src]> (highestMatchedSelf s) else highestMatchedSelf s)
    (incomingScanIndex s) (highestMatchedIncoming s) (unopenable s).
Definition match_incoming (src : IncomingSource) (s : MultisigScanner) : MultisigScanner :=
  mkScanner (sc_v s) (complianceKeys s) (expectedOwner s) (memberIds s) (incomingTags s) (selfTags s) (selfScanJ s)
    (highestMatchedSelf s) (incomingScanIndex s)
    (if highestMatchedIncoming s <? in_index src then in_index src else highestMatchedIncoming s) (unopenable s).
Definition count_unopenable (s : MultisigScanner) : MultisigScanner :=
  mkScanner (sc_v s) (complianceKeys s) (expectedOwner s) (memberIds s) (incomingTags s) (selfTags s) (selfScanJ s)
    (highestMatchedSelf s) (incomingScanIndex s) (highestMatchedIncoming s) (unopenable s + 1).

(** The indices from [next] on, [rounds] of them: the even ones get a tag. *)
Fixpoint self_range (rounds : nat) (memberId next : Z) (advanced : bool) : G bool :=
  match rounds with
  | O => mret advanced
  | S rounds =>
      s ← get;
      e ← lift (λ e, e) (key_err (deriveSelfEph (sc_v s) memberId next));
      if isEvenY e.2 then
        key ← lift (λ e, e) (tagKey e.2.1);
        let fresh := match selfTags s !! key with None => true | Some _ => false end in
        _ ← modify (λ s, with_self (<[key := mkSelfSource memberId next e.1]> (selfTags s)) s);
        self_range rounds memberId (next + 1) (advanced || fresh)
      else self_range rounds memberId (next + 1) advanced
  end.
Fixpoint members_loop (members : list Z) (window : Z) (advanced : bool) : G bool :=
  match members with
  | [] => mret advanced
  | memberId :: members =>
      s ← get;
      let matched := default (-1) (highestMatchedSelf s !! memberId) in
      let target := matched + 1 + window in
      let next := default 0 (selfScanJ s !! memberId) in
      advanced ← self_range (Z.to_nat (target - next)) memberId next advanced;
      _ ← modify (λ s, with_scanJ (<[memberId := Z.max next target]> (selfScanJ s)) s);
      members_loop members window advanced
  end.
Definition ensureSelfLookahead (window : Z) : G bool :=
  _ ← lift (λ e, e) (assertWindow window);
  s ← get;
  members_loop (memberIds s) window false.

Fixpoint incoming_range (rounds : nat) (target : Z) (advanced : bool) : G bool :=
  s ← get;
  if incomingScanIndex s <? target then
    match rounds with
    | O => throw Out_of_rounds
    | S rounds =>
        k ← lift (λ e, e) (key_err (multisigIncomingKeyAt (sc_v s) (incomingScanIndex s)));
        key ← lift (λ e, e) (tagKey (ka_viewPub k).1);
        let fresh := match incomingTags s !! key with None => true | Some _ => false end in
        _ ← modify (λ s, with_incoming (<[key := mkIncomingSource (ka_index k) (ka_viewKey k)]> (incomingTags s))
                           (ka_index k + 1) s);
        incoming_range rounds target (advanced || fresh)
    end
  else mret advanced.
Definition ensureIncomingLookahead (window : Z) : G bool :=
  _ ← lift (λ e, e) (assertWindow window);
  s ← get;
  let target := highestMatchedIncoming s + 1 + window in
  incoming_range (Z.to_nat (target - incomingScanIndex s)) target false.

(** *** [create] *)
Fixpoint create_members (members : list Z) (limit : Z) : G unit :=
  match members with
  | [] => mret tt
  | memberId :: members =>
      _ ← self_range (Z.to_nat limit) memberId 0 false;
      _ ← modify (λ s, with_scanJ (<[memberId := limit]> (selfScanJ s)) s);
      create_members members limit
  end.
Fixpoint create_incoming (rounds : nat) (limit : Z) : G unit :=
  s ← get;
  let next := incomingScanIndex s in
  if next <? limit then
    match rounds with
    | O => throw Out_of_rounds
    | S rounds =>
        k ← lift (λ e, e) (key_err (multisigIncomingKeyAt (sc_v s) next));
        if limit <=? ka_index k then mret tt
        else
          key ← lift (λ e, e) (tagKey (ka_viewPub k).1);
          _ ← modify (λ s, with_incoming (<[key := mkIncomingSource (ka_index k) (ka_viewKey k)]> (incomingTags s))
                             (ka_index k + 1) s);
          create_incoming rounds limit
    end
  else mret tt.
Definition create_run (cfg : MultisigScanConfig) (window : Z) : G unit :=
  _ ← create_members (cfg_memberIds cfg) (Z.min window MAX_SELF_ROLL);
  incomingWindow ← lift (λ e, e) (assertWindow (default DEFAULT_INCOMING_WINDOW (cfg_incomingWindow cfg)));
  let incomingLimit := Z.min incomingWindow MAX_SELF_ROLL in
  _ ← create_incoming (Z.to_nat incomingLimit) incomingLimit;
  modify (λ s, with_incoming (incomingTags s) incomingLimit s).
Definition create (cfg : MultisigScanConfig) : result GroupScanError MultisigScanner :=
  address ← map_err Group_error (multisigAddress (cfg_gpk cfg) (cfg_v cfg) 0);
  window ← assertWindow (default DEFAULT_SELF_WINDOW (cfg_selfWindow cfg));
  let start := mkScanner (cfg_v cfg) (cfg_ring cfg) (ad_owner address) (cfg_memberIds cfg) ∅ ∅ ∅ ∅ 0 (-1) 0 in
  match create_run cfg window start with (s, Ok _) => Ok s | (_, Err e) => Err e end.

(** *** [readNote] *)
Definition recover (event : UnprocessedEvent) (owner' cek : Z) (isIncoming : bool) (memberId derivationJ : option Z) :
    result ScanError (option MultisigNoteView) :=
  ciphertext ← map_res Scan.toFr (packedCiphertext event);
  plaintext ← map_err Field_error (demDecrypt cek ciphertext);
  let psi := computePsi cek in
  let field := Trace.field plaintext in
  let note := mkNote (field 0%nat) (field 1%nat) (field 2%nat) (field 3%nat) (field 4%nat) (field 5%nat)
                psi (field 6%nat) in
  commitment ← Scan.toFr (e_commitment event);
  rebuilt ← map_err (λ e, Field_error (Note_error e)) (leaf note);
  if negb (rebuilt =? commitment) then Ok None
  else if negb (noteType note =? NOTE_TYPE_MULTISIG) then Ok None
  else if negb (owner note =? owner') then Ok None
  else if ASSET_MODULUS <=? assetId note then Ok None
  else
    idx ← map_err Field_error (newFr (e_leafIndex event));
    let nullifier := computeNullifier psi idx in
    Ok (Some (mkView note commitment (e_leafIndex event) nullifier isIncoming memberId derivationJ)).

Definition event_err {A} (r : result ScanError A) : G A := lift Event_error r.

Definition readIncoming (event : UnprocessedEvent) : G (option MultisigNoteView) :=
  match e_tag event, cekWrap event with
  | Some tag, Some cekWrap =>
      key ← lift (λ e, e) (tagKey tag);
      s ← get;
      match incomingTags s !! key with
      | None => mret None
      | Some source =>
          _ ← modify (match_incoming source);
          ephPub ← event_err (map_err Key_error (Keys.Fields.recoverEvenY (ephemeralX event)));
          wrapped ← event_err (map_err Field_error (newFr cekWrap));
          cek ← event_err (map_err Field_error (memberReadIncoming wrapped (in_viewKey source) ephPub));
          event_err (recover event (expectedOwner s) cek true None (Some (in_index source)))
      end
  | _, _ => mret None
  end.

(** [None]: no key of the ring opens the note. *)
Fixpoint epochs_loop (epochs : list ComplianceKeyEpoch) (eph : Z)
    (recover : Z → result ScanError (option MultisigNoteView)) : result ScanError (option MultisigNoteView) :=
  match epochs with
  | [] => Ok None
  | epoch :: epochs =>
      cek ← map_err Field_error (deriveCek eph (pk epoch));
      match recover cek with
      | Ok (Some view) => Ok (Some view)
      | Ok None | Err _ => epochs_loop epochs eph recover
      end
  end.
Definition readSelf (event : UnprocessedEvent) : G (option MultisigNoteView) :=
  key ← lift (λ e, e) (tagKey (ephemeralX event));
  s ← get;
  match selfTags s !! key with
  | None => mret None
  | Some source =>
      _ ← modify (match_self source);
      view ← event_err (epochs_loop (candidatesFor (Some (blockNumber event)) (complianceKeys s)) (ss_eph source)
               (λ cek, recover event (expectedOwner s) cek false (Some (ss_memberId source)) (Some (ss_j source))));
      match view with
      | Some view => mret (Some view)
      | None => _ ← modify count_unopenable; mret None
      end
  end.

(** [try { ... } catch { return null }]. *)
Definition readNote (event : UnprocessedEvent) (s : MultisigScanner) : MultisigScanner * option MultisigNoteView :=
  match (match type event with NEW_MEMO => readIncoming event | NEW_NOTE => readSelf event end) s with
  | (s, Ok view) => (s, view)
  | (s, Err _) => (s, None)
  end.

(** *** Events of notes about to be sent *)
Definition selfNoteEvent (leafIndex : Z) (commitment : Z) (ephPub : Point) (packed : list Z) : UnprocessedEvent :=
  mkEvent NEW_NOTE 0 "" leafIndex (Some commitment) ephPub.1 (Some <$> packed) None None.
Definition incomingNoteEvent (leafIndex commitment : Z) (ephPub : Point) (tag cekWrap : Z) (packed : list Z) : UnprocessedEvent :=
  mkEvent NEW_MEMO 0 "" leafIndex (Some commitment) ephPub.1 (Some <$> packed) (Some tag) (Some cekWrap).
Definition assertSelfNoteDiscoverable (leafIndex commitment : Z) (ephPub : Point) (packed : list Z) : G MultisigNoteView := λ s,
  let '(s, view) := readNote (selfNoteEvent leafIndex commitment ephPub packed) s in
  (s, match view with Some view => Ok view | None => Err Undiscoverable end).
End Scanner.
End Scanner.

(** ** [MultisigScanEngine] *)
Module GroupEngine.
Import Scanner Scan.Engine.
Section GroupEngine.
Context `{BabyJubjub} `{Poseidon2}.
Context (fetchNotes : Z → option (list IndexerNoteInserted)).
Notation G := (M MultisigScanner GroupScanError).

Definition maxPasses : nat := 64.
Fixpoint read_all (events : list UnprocessedEvent) (s : MultisigScanner) : MultisigScanner * list MultisigNoteView :=
  match events with
  | [] => (s, [])
  | event :: events =>
      let '(s, view) := readNote event s in
      let '(s, found) := read_all events s in
      (s, match view with Some v => v :: found | None => found end)
  end.
Fixpoint passes_loop (passes : nat) (events : list UnprocessedEvent) (window : Z) (found : list MultisigNoteView) :
    G (list MultisigNoteView) :=
  match passes with
  | O => mret found
  | S passes =>
      found ← (λ s, let '(s, found) := read_all events s in (s, Ok found));
      ext1 ← ensureSelfLookahead window;
      ext2 ← ensureIncomingLookahead window;
      if negb ext1 && negb ext2 then mret found else passes_loop passes events window found
  end.
Definition sync (lookaheadWindow fromLeafIndex : Z) : G (list MultisigNoteView) :=
  match fetchNotes fromLeafIndex with
  | None => throw (Event_error Fetch_failed)
  | Some notes =>
      events ← lift Event_error (map_res toUnprocessedEvent notes);
      passes_loop maxPasses events lookaheadWindow []
  end.
End GroupEngine.
End GroupEngine.
