(* ===== verification/GroupScan.v ===== *)
(** * What the group scanner promises

    [Tags] proves that the scanner's tag maps are exactly the even indices below
    its scan indices; [GroupReach] makes it a gap-limit scanner in the sense of
    [Gap], so that [sync]'s passes settle. *)
From S2P Require Import Prelude Bytes Zq Tss Dkg Keys Trace Mint Circuits State Keyring Discovery Frost Preflight SelfMint Multisig Gap Scan MultisigScan.
Local Open Scope Z_scope.

(** ** The registered tags *)
Module Tags.
Import Mint Keys.Keys MultisigNote Scanner.
Section Tags.
Context `{BabyJubjub} `{Poseidon2}.
Implicit Types (s : MultisigScanner) (scan : gmap Z Z) (key : Z).
Notation upto scan m := (default 0 (scan !! m)).

(** A source of a tag: a member's index below its scan index whose ephemeral
    has the tag as the x of an even point. *)
Definition at_self (v : Z) (members : list Z) scan key (src : SelfSource) : Prop :=
  ss_memberId src ∈ members ∧ 0 <= ss_j src < upto scan (ss_memberId src) ∧
  ∃ p, deriveSelfEph v (ss_memberId src) (ss_j src) = Ok (ss_eph src, p) ∧ isEvenY p = true ∧ key = p.1.
Definition at_incoming (v limit key : Z) (src : IncomingSource) : Prop :=
  0 <= in_index src < limit ∧ deriveMultisigIncomingKey v (in_index src) = Ok (in_viewKey src) ∧
  isEvenY (publicKey (in_viewKey src)) = true ∧ key = (publicKey (in_viewKey src)).1.

(** The map holds every source, and one source per tag. *)
Definition exact_self v members scan (tags : gmap Z SelfSource) : Prop :=
  ∀ key src, tags !! key = Some src ↔ at_self v members scan key src.
Definition exact_incoming v limit (tags : gmap Z IncomingSource) : Prop :=
  ∀ key src, tags !! key = Some src ↔ at_incoming v limit key src.
Definition exact s : Prop :=
  exact_self (sc_v s) (memberIds s) (selfScanJ s) (selfTags s) ∧
  exact_incoming (sc_v s) (incomingScanIndex s) (incomingTags s) ∧
  (∀ m, 0 <= upto (selfScanJ s) m) ∧ 0 <= incomingScanIndex s.

(** No two indices below the scan indices derive the same tag. *)
Definition distinct_self v members scan : Prop :=
  ∀ key src src', at_self v members scan key src → at_self v members scan key src' → src = src'.
Definition distinct_incoming v limit : Prop :=
  ∀ key src src', at_incoming v limit key src → at_incoming v limit key src' → src = src'.
Definition distinct s : Prop :=
  distinct_self (sc_v s) (memberIds s) (selfScanJ s) ∧ distinct_incoming (sc_v s) (incomingScanIndex s).

Definition scan_le scan scan' : Prop := ∀ m, upto scan m <= upto scan' m.
#[export] Instance scan_le_preorder : PreOrder scan_le.
Proof. split; [by intros ??|]. intros ??? Ha Hb m. by etrans; [apply Ha|apply Hb]. Qed.
Lemma at_self_le v ms scan scan' key src : scan_le scan scan' → at_self v ms scan key src → at_self v ms scan' key src.
Proof. intros Hle (Hm & Hj & Hp). specialize (Hle (ss_memberId src)). split_and!; [done|lia|lia|done]. Qed.
Lemma distinct_self_le v ms scan scan' : scan_le scan scan' → distinct_self v ms scan' → distinct_self v ms scan.
Proof. intros Hle Hd key src src' H1 H2. by eapply Hd; eapply at_self_le. Qed.
Lemma at_incoming_le v i i' key src : i <= i' → at_incoming v i key src → at_incoming v i' key src.
Proof. intros Hle (Hi & Hp). split; [lia|done]. Qed.
Lemma distinct_incoming_le v i i' : i <= i' → distinct_incoming v i' → distinct_incoming v i.
Proof. intros Hle Hd key src src' H1 H2. by eapply Hd; eapply at_incoming_le. Qed.
Lemma upto_insert scan m x m' : upto (<[m := x]> scan) m' = if decide (m' = m) then x else upto scan m'.
Proof. case_decide; subst; [by rewrite lookup_insert_eq|by rewrite lookup_insert_ne]. Qed.
Lemma scan_le_insert scan m x : upto scan m <= x → scan_le scan (<[m := x]> scan).
Proof. intros Hx m'. rewrite upto_insert. case_decide; subst; lia. Qed.

(** *** One index more *)

(** The scan index of a member moved to [n] at least. *)
Definition advance scan m n : gmap Z Z := <[m := Z.max (upto scan m) n]> scan.
Lemma advance_le scan m n : scan_le scan (advance scan m n).
Proof. apply scan_le_insert. lia. Qed.
Lemma advance_advance scan m n n' : n <= n' → advance (advance scan m n) m n' = advance scan m n'.
Proof.
  intros Hn. unfold advance. rewrite upto_insert. case_decide; [|done]. rewrite insert_insert_eq. f_equal. lia.
Qed.

Lemma at_self_advance v ms scan m n key src : 0 <= n <= upto scan m →
  at_self v ms (advance scan m (n + 1)) key src →
  at_self v ms scan key src ∨ ss_memberId src = m ∧ ss_j src = n.
Proof.
  intros Hn (Hm & Hj & Hp). unfold advance in Hj. rewrite upto_insert in Hj. revert Hj. case_decide as E; intros Hj.
  - destruct (decide (ss_j src = n)); [by right|]. left. split_and!; [done|lia|rewrite E; lia|done].
  - left. split_and!; [done|lia|lia|done].
Qed.
Lemma exact_self_even v ms scan tags m n e p : m ∈ ms → exact_self v ms scan tags → 0 <= n <= upto scan m →
  distinct_self v ms (advance scan m (n + 1)) → deriveSelfEph v m n = Ok (e, p) → isEvenY p = true →
  exact_self v ms (advance scan m (n + 1)) (<[p.1 := mkSelfSource m n e]> tags) ∧
  ∀ src, tags !! p.1 = Some src → src = mkSelfSource m n e.
Proof.
  intros Hm Hex Hn Hd He Hp.
  assert (Hnew : at_self v ms (advance scan m (n + 1)) p.1 (mkSelfSource m n e)).
  { split_and!; cbn; [done|lia| |by eauto]. unfold advance. rewrite upto_insert. case_decide; [lia|done]. }
  assert (Hmono : ∀ key src, tags !! key = Some src → at_self v ms (advance scan m (n + 1)) key src).
  { intros key src Hl. apply Hex in Hl. eapply at_self_le; [apply advance_le|done]. }
  split; [|intros src Hl; by apply (Hd p.1); [apply Hmono|]].
  intros key src. rewrite lookup_insert_Some. split.
  - intros [[<- <-]|[_ Hl]]; [done|by apply Hmono].
  - intros Hat. destruct (decide (p.1 = key)) as [<-|Hk]; [left; split; [done|by apply (Hd p.1)]|right]. split; [done|].
    apply Hex. destruct (at_self_advance _ _ _ _ _ _ _ Hn Hat) as [|[E1 E2]]; [done|].
    destruct Hat as (_ & _ & p' & He' & _ & ->). rewrite E1, E2, He in He'. injection He' as _ <-. done.
Qed.
Lemma exact_self_odd v ms scan tags m n e p : exact_self v ms scan tags → 0 <= n <= upto scan m →
  deriveSelfEph v m n = Ok (e, p) → isEvenY p = false → exact_self v ms (advance scan m (n + 1)) tags.
Proof.
  intros Hex Hn He Hp key src. rewrite (Hex key src). split; [apply at_self_le, advance_le|]. intros Hat.
  destruct (at_self_advance _ _ _ _ _ _ _ Hn Hat) as [|[E1 E2]]; [done|].
  destruct Hat as (_ & _ & p' & He' & Hp' & _). rewrite E1, E2, He in He'. injection He' as _ <-. congruence.
Qed.

(** *** A range of indices *)
Lemma tagKey_inv x y : tagKey x = Ok y → y = x ∧ in_field x.
Proof. unfold tagKey, key_err, toFr. destruct (Z.leb_spec 0 x), (Z.ltb_spec x MODULUS); by intros [= <-]. Qed.
Lemma key_err_Ok {A} (r : result KeyErr A) a : key_err r = Ok a ↔ r = Ok a.
Proof. apply map_err_Ok. Qed.

(** One index, as a map update. *)
Lemma self_range_S n m next adv s s' b : self_range (S n) m next adv s = (s', Ok b) →
  ∃ e p, deriveSelfEph (sc_v s) m next = Ok (e, p) ∧
    if isEvenY p then
      self_range n m (next + 1) (adv || match selfTags s !! p.1 with None => true | Some _ => false end)
        (with_self (<[p.1 := mkSelfSource m next e]> (selfTags s)) s) = (s', Ok b)
    else self_range n m (next + 1) adv s = (s', Ok b).
Proof.
  cbn [self_range]. intros (s1 & a & [= <- <-] & (s2 & [e p] & [-> He%key_err_Ok]%lift_Ok & Hr)%M_bind_Ok)%M_bind_Ok.
  exists e, p. split; [done|]. cbn [snd fst] in Hr. destruct (isEvenY p); [|done].
  apply M_bind_Ok in Hr as (s3 & key & [-> [-> _]%tagKey_inv]%lift_Ok & (s4 & [] & [= <-] & Hr)%M_bind_Ok). done.
Qed.
Lemma with_self_frame tags s : let s' := with_self tags s in
  sc_v s' = sc_v s ∧ memberIds s' = memberIds s ∧ selfTags s' = tags ∧ ∀ t, with_self t s' = with_self t s.
Proof. done. Qed.

Lemma self_range_frame n m next adv s s' b : self_range n m next adv s = (s', Ok b) → s' = with_self (selfTags s') s.
Proof.
  revert next adv s. induction n as [|n IH]; intros next adv s; [intros [= <- <-]; by destruct s|].
  intros (e & p & _ & Hr)%self_range_S. destruct (isEvenY p); apply IH in Hr; [|done]. exact Hr.
Qed.
Lemma self_range_spec n m next adv scan s s' b : self_range n m next adv s = (s', Ok b) →
  m ∈ memberIds s → exact_self (sc_v s) (memberIds s) scan (selfTags s) → 0 <= next <= upto scan m →
  distinct_self (sc_v s) (memberIds s) (advance scan m (next + Z.of_nat n)) →
  exact_self (sc_v s) (memberIds s) (advance scan m (next + Z.of_nat n)) (selfTags s') ∧
  (b = false → adv = false ∧ selfTags s' = selfTags s) ∧ (n = O → b = adv).
Proof.
  intros Hr Hm. revert next adv scan s Hm Hr. induction n as [|n IH]; intros next adv scan s Hm Hr Hex Hn Hd.
  { injection Hr as <- <-. rewrite Z.add_0_r. split_and!; [|done|done]. intros key src.
    rewrite (Hex key src). unfold advance. rewrite Z.max_l by lia. split; apply at_self_le; intros m';
    rewrite upto_insert; case_decide; subst; lia. }
  apply self_range_S in Hr as (e & p & He & Hr).
  assert (E : ∀ sc, advance (advance sc m (next + 1)) m (next + 1 + Z.of_nat n) = advance sc m (next + Z.of_nat (S n))).
  { intros sc. rewrite advance_advance by lia. f_equal. lia. }
  assert (Hd1 : distinct_self (sc_v s) (memberIds s) (advance scan m (next + 1))).
  { eapply distinct_self_le; [|exact Hd]. rewrite <- E. apply advance_le. }
  assert (Hn1 : 0 <= next + 1 <= upto (advance scan m (next + 1)) m).
  { unfold advance. rewrite upto_insert. case_decide; [lia|done]. }
  destruct (isEvenY p) eqn:Ep.
  - destruct (exact_self_even _ _ _ _ _ _ _ _ Hm Hex Hn Hd1 He Ep) as [Hex1 Hold].
    destruct (IH (next + 1) _ (advance scan m (next + 1))
      (with_self (<[p.1 := mkSelfSource m next e]> (selfTags s)) s) Hm Hr Hex1 Hn1) as (Hex2 & Hb & _).
    { rewrite E. exact Hd. }
    rewrite E in Hex2. split_and!; [exact Hex2| |lia].
    intros Hf. destruct (Hb Hf) as [Ha Ht]. apply orb_false_iff in Ha as [Ha Hfresh]. split; [done|].
    rewrite Ht. cbn [selfTags with_self]. destruct (selfTags s !! p.1) as [src|] eqn:El; [|done].
    rewrite (Hold src eq_refl) in El. by apply insert_id.
  - pose proof (exact_self_odd _ _ _ _ _ _ _ _ Hex Hn He Ep) as Hex1.
    destruct (IH (next + 1) _ (advance scan m (next + 1)) _ Hm Hr Hex1 Hn1) as (Hex2 & Hb & _).
    { rewrite E. exact Hd. }
    rewrite E in Hex2. by split_and!.
Qed.

(** *** All members *)
Definition target s window m : Z := default (-1) (highestMatchedSelf s !! m) + 1 + window.

Lemma members_loop_cons m l window adv s s' b : members_loop (m :: l) window adv s = (s', Ok b) →
  ∃ s1 b1, let next := upto (selfScanJ s) m in let n := Z.to_nat (target s window m - next) in
    self_range n m next adv s = (s1, Ok b1) ∧ s1 = with_self (selfTags s1) s ∧
    members_loop l window b1 (with_scanJ (advance (selfScanJ s) m (next + Z.of_nat n)) s1) = (s', Ok b).
Proof.
  cbn [members_loop]. intros (s0 & a & [= <- <-] & (s1 & b1 & Hr & (s2 & [] & [= <-] & Hl)%M_bind_Ok)%M_bind_Ok)%M_bind_Ok.
  pose proof (self_range_frame _ _ _ _ _ _ _ Hr) as Hf. exists s1, b1. cbv zeta. split_and!; [exact Hr|exact Hf|].
  rewrite Hf in Hl |- *. cbn [selfScanJ with_self] in Hl. unfold advance, target.
  replace (Z.max (upto (selfScanJ s) m) (upto (selfScanJ s) m + Z.of_nat _))
    with (Z.max (upto (selfScanJ s) m) (default (-1) (highestMatchedSelf s !! m) + 1 + window)) by lia. exact Hl.
Qed.

(** The loop changes nothing but the tags and the scan indices, which grow. *)
Lemma members_loop_frame l window adv s s' b : members_loop l window adv s = (s', Ok b) →
  s' = with_scanJ (selfScanJ s') (with_self (selfTags s') s) ∧ scan_le (selfScanJ s) (selfScanJ s').
Proof.
  revert adv s. induction l as [|m l IH]; intros adv s; [intros [= <- <-]; split; [by destruct s|done]|].
  intros (s1 & b1 & _ & -> & [Hf Hle]%IH)%members_loop_cons. split; [exact Hf|].
  etrans; [apply advance_le|exact Hle].
Qed.
Lemma members_loop_spec l window adv s s' b : members_loop l window adv s = (s', Ok b) →
  l ⊆ memberIds s → (∀ m, 0 <= upto (selfScanJ s) m) →
  exact_self (sc_v s) (memberIds s) (selfScanJ s) (selfTags s) →
  distinct_self (sc_v s) (memberIds s) (selfScanJ s') →
  exact_self (sc_v s) (memberIds s) (selfScanJ s') (selfTags s') ∧
  (∀ m, m ∈ l → target s window m <= upto (selfScanJ s') m) ∧
  (b = false → adv = false ∧ selfTags s' = selfTags s) ∧
  ((∀ m, m ∈ l → target s window m <= upto (selfScanJ s) m) → b = adv).
Proof.
  revert adv s. induction l as [|m l IH]; intros adv s.
  { intros [= <- <-] _ _ Hex _. split_and!; [done|intros ? []%not_elem_of_nil|done|done]. }
  intros (s1 & b1 & Hr & Hf & Hl)%members_loop_cons Hin Hpos Hex Hd. cbv zeta in *.
  set (next := upto (selfScanJ s) m) in *. set (n := Z.to_nat (target s window m - next)) in *.
  set (scan1 := advance (selfScanJ s) m (next + Z.of_nat n)) in *.
  assert (Hle : scan_le (selfScanJ s) scan1) by apply advance_le.
  pose proof (members_loop_frame _ _ _ _ _ _ Hl) as [_ Hle1]. cbn [selfScanJ with_scanJ] in Hle1.
  destruct (self_range_spec _ _ _ _ (selfScanJ s) _ _ _ Hr) as (Hex1 & Hb1 & Hn1).
  { apply Hin. left. }
  { done. }
  { pose proof (Hpos m). unfold next. lia. }
  { by eapply distinct_self_le. }
  rewrite Hf in Hl. destruct (IH _ _ Hl) as (Hex2 & Hq & Hb2 & Hn2); cbn [memberIds selfScanJ selfTags sc_v with_scanJ with_self].
  { intros x Hx. apply Hin. by right. }
  { intros m'. pose proof (Hpos m'). pose proof (Hle m'). lia. }
  { done. }
  { done. }
  cbn [memberIds selfScanJ selfTags sc_v with_scanJ with_self] in *.
  assert (Hm : target s window m <= upto scan1 m).
  { unfold scan1, advance. rewrite upto_insert. case_decide; [lia|done]. }
  split_and!; [done| | |].
  - intros m' [->|Hm']%elem_of_cons; [pose proof (Hle1 m); lia|]. by apply Hq.
  - intros [-> Ht]%Hb2. destruct (Hb1 eq_refl) as [-> Ht1]. split; [done|congruence].
  - intros Hquiet. rewrite Hn2, Hn1; [done| |].
    + pose proof (Hquiet m ltac:(left)). lia.
    + intros m' Hm'. pose proof (Hquiet m' ltac:(by right)). pose proof (Hle m'). unfold target in *. cbn. lia.
Qed.

(** *** Receiving addresses *)
Lemma incomingKeyAt_spec v i k : multisigIncomingKeyAt v i = Ok k → i <= ka_index k ∧
  deriveMultisigIncomingKey v (ka_index k) = Ok (ka_viewKey k) ∧ isEvenY (publicKey (ka_viewKey k)) = true ∧
  ka_viewPub k = publicKey (ka_viewKey k) ∧
  ∀ j, i <= j < ka_index k → ∃ x, deriveMultisigIncomingKey v j = Ok x ∧ isEvenY (publicKey x) = false.
Proof.
  unfold multisigIncomingKeyAt, rollToEvenY. intros (c & (Hi & (x & Hx & Hev & Hp) & Hodd)%roll_loop_Ok & H2)%bind_Ok.
  apply bind_Ok in H2 as (y & Hy & [= <-]). rewrite Hx in Hy. injection Hy as <-. cbn. by split_and!.
Qed.
Definition source (k : IncomingKeyAt) : IncomingSource := mkIncomingSource (ka_index k) (ka_viewKey k).

(** Indices that are all odd add no source. *)
Lemma exact_incoming_odd v i i' tags : exact_incoming v i tags → i <= i' →
  (∀ j, i <= j < i' → ∃ x, deriveMultisigIncomingKey v j = Ok x ∧ isEvenY (publicKey x) = false) →
  exact_incoming v i' tags.
Proof.
  intros Hex Hle Hodd key src. rewrite (Hex key src). split; [by apply at_incoming_le|]. intros (Hi & Hd & Hev & Hk).
  destruct (decide (in_index src < i)); [by split_and!; try lia|]. destruct (Hodd (in_index src)) as (x & Hx & Hx'); [lia|].
  congruence.
Qed.
Lemma exact_incoming_step v i k tags : exact_incoming v i tags → 0 <= i → multisigIncomingKeyAt v i = Ok k →
  distinct_incoming v (ka_index k + 1) →
  exact_incoming v (ka_index k + 1) (<[(ka_viewPub k).1 := source k]> tags) ∧
  ∀ src, tags !! (ka_viewPub k).1 = Some src → src = source k.
Proof.
  intros Hex Hi (Hk & Hd & Hev & Hpub & Hodd)%incomingKeyAt_spec Hdist. rewrite Hpub.
  pose proof (exact_incoming_odd _ _ _ _ Hex Hk Hodd) as Hex1.
  assert (Hnew : at_incoming v (ka_index k + 1) (publicKey (ka_viewKey k)).1 (source k)) by (split_and!; cbn; done || lia).
  assert (Hmono : ∀ key src, tags !! key = Some src → at_incoming v (ka_index k + 1) key src).
  { intros key src Hl. apply Hex1 in Hl. by apply (at_incoming_le _ (ka_index k)); [lia|]. }
  split; [|intros src Hl; by apply (Hdist (publicKey (ka_viewKey k)).1); [apply Hmono|]].
  intros key src. rewrite lookup_insert_Some. split.
  - intros [[<- <-]|[_ Hl]]; [done|by apply Hmono].
  - intros Hat. destruct (decide ((publicKey (ka_viewKey k)).1 = key)) as [<-|Hne]; [left; split; [done|by apply (Hdist (publicKey (ka_viewKey k)).1)]|].
    right. split; [done|]. apply Hex1. destruct Hat as (Hlt & Hd' & Hev' & ->). split_and!; [lia| |done..].
    destruct (decide (in_index src = ka_index k)) as [E|]; [|lia]. rewrite E, Hd in Hd'. injection Hd' as E'. congruence.
Qed.

(** One registration of either loop. *)
Definition register_at s (k : IncomingKeyAt) : MultisigScanner :=
  with_incoming (<[(ka_viewPub k).1 := source k]> (incomingTags s)) (ka_index k + 1) s.

Lemma incoming_range_spec n limit adv s s' b : incoming_range n limit adv s = (s', Ok b) →
  s' = with_incoming (incomingTags s') (incomingScanIndex s') s ∧ incomingScanIndex s <= incomingScanIndex s' ∧
  limit <= incomingScanIndex s' ∧ (limit <= incomingScanIndex s → b = adv) ∧
  (0 <= incomingScanIndex s → exact_incoming (sc_v s) (incomingScanIndex s) (incomingTags s) →
   distinct_incoming (sc_v s) (incomingScanIndex s') →
   exact_incoming (sc_v s) (incomingScanIndex s') (incomingTags s') ∧
   (b = false → adv = false ∧ incomingTags s' = incomingTags s)).
Proof.
  revert adv s. induction n as [|n IH]; intros adv s; cbn [incoming_range];
    intros (s0 & a & [= <- <-] & Hr)%M_bind_Ok; revert Hr;
    destruct (Z.ltb_spec (incomingScanIndex s) limit) as [Hlt|Hge]; try done;
    try (intros [= <- <-]; split_and!; [by destruct s|done|done|done|done]).
  intros (s1 & k & [-> Hk%key_err_Ok]%lift_Ok & (s2 & key & [-> [-> _]%tagKey_inv]%lift_Ok &
    (s3 & [] & [= <-] & Hr)%M_bind_Ok)%M_bind_Ok)%M_bind_Ok.
  change (with_incoming _ _ _) with (register_at s k) in Hr. pose proof Hk as (Hle & _)%incomingKeyAt_spec.
  destruct (IH _ _ Hr) as (Hf & Hle1 & Hlim & _ & Hex1). cbn [register_at incomingScanIndex incomingTags sc_v with_incoming] in *.
  split_and!; [exact Hf|lia|done|lia|].
  intros Hpos Hex Hd. destruct (exact_incoming_step _ _ _ _ Hex Hpos Hk) as [Hex2 Hold].
  { by apply (distinct_incoming_le _ _ (incomingScanIndex s')). }
  destruct (Hex1 ltac:(lia) Hex2 Hd) as [Hex3 Hb]. split; [done|]. intros [[Ha Hfresh]%orb_false_iff Ht]%Hb.
  split; [done|]. rewrite Ht. destruct (incomingTags s !! (ka_viewPub k).1) as [src|] eqn:El; [|done].
  rewrite (Hold src eq_refl) in El. by apply insert_id.
Qed.

(** The rounds that the loops are given do not run out: every round moves the
    scan index. *)
Lemma incoming_range_rounds n limit adv s : limit - incomingScanIndex s <= Z.of_nat n →
  (incoming_range n limit adv s).2 ≠ Err Out_of_rounds.
Proof.
  revert adv s. induction n as [|n IH]; intros adv s Hn; cbn [incoming_range]; unfold get, mbind at 1, M_bind at 1;
    destruct (Z.ltb_spec (incomingScanIndex s) limit); try done; [lia|].
  unfold mbind, M_bind, lift. destruct (multisigIncomingKeyAt _ _) as [k|] eqn:Hk; [|done]. cbn [key_err map_err].
  apply incomingKeyAt_spec in Hk as [Hle _]. destruct (tagKey _) as [key|] eqn:Ht; [|by revert Ht; unfold tagKey, key_err; destruct (toFr _); intros [= <-]].
  cbn [modify snd]. apply IH. cbn. lia.
Qed.
Lemma create_incoming_rounds n limit s : limit - incomingScanIndex s <= Z.of_nat n →
  (create_incoming n limit s).2 ≠ Err Out_of_rounds.
Proof.
  revert s. induction n as [|n IH]; intros s Hn; cbn [create_incoming]; unfold get, mbind at 1, M_bind at 1;
    destruct (Z.ltb_spec (incomingScanIndex s) limit); try done; [lia|].
  unfold mbind, M_bind, lift. destruct (multisigIncomingKeyAt _ _) as [k|] eqn:Hk; [|done]. cbn [key_err map_err].
  apply incomingKeyAt_spec in Hk as [Hle _]. destruct (limit <=? ka_index k); [done|].
  destruct (tagKey _) as [key|] eqn:Ht; [|by revert Ht; unfold tagKey, key_err; destruct (toFr _); intros [= <-]].
  cbn [modify snd]. apply IH. cbn. lia.
Qed.
End Tags.
End Tags.

(** ** The scanner as a gap-limit scanner *)
Module GroupLookahead.
Import Mint Keys.Keys Kem MultisigNote Scanner Tags.
Section GroupLookahead.
Context `{BabyJubjub} `{Poseidon2}.
Implicit Types (s : MultisigScanner) (event : UnprocessedEvent) (src : SelfSource + IncomingSource).
Notation upto scan m := (default 0 (scan !! m)).

(** The source registered under the event's tag, and the note it opens. *)
Definition matched event s : option (SelfSource + IncomingSource) :=
  match type event with
  | NEW_NOTE => match tagKey (ephemeralX event) with Ok key => inl <$> selfTags s !! key | Err _ => None end
  | NEW_MEMO => match e_tag event, cekWrap event with
                | Some tag, Some _ =>
                    match tagKey tag with Ok key => inr <$> incomingTags s !! key | Err _ => None end
                | _, _ => None
                end
  end.
Definition opened event (ring : list ComplianceKeyEpoch) (owner' : Z) src : result ScanError (option MultisigNoteView) :=
  match src with
  | inl src => epochs_loop (Ring.candidatesFor (Some (blockNumber event)) ring) (ss_eph src)
                 (λ cek, recover event owner' cek false (Some (ss_memberId src)) (Some (ss_j src)))
  | inr src =>
      ephPub ← map_err Key_error (Keys.Fields.recoverEvenY (ephemeralX event));
      wrapped ← match cekWrap event with Some w => map_err Field_error (newFr w) | None => Err Bad_number end;
      cek ← map_err Field_error (memberReadIncoming wrapped (in_viewKey src) ephPub);
      recover event owner' cek true None (Some (in_index src))
  end.
Definition view s event : option MultisigNoteView :=
  match matched event s with
  | Some src => match opened event (complianceKeys s) (expectedOwner s) src with Ok v => v | Err _ => None end
  | None => None
  end.
(** What reading moves: the highest match of the source's family. *)
Definition reach src s : MultisigScanner :=
  match src with inl src => match_self src s | inr src => match_incoming src s end.
Definition same_but_count s s' : Prop := ∃ u, s' = mkScanner (sc_v s) (complianceKeys s) (expectedOwner s) (memberIds s)
  (incomingTags s) (selfTags s) (selfScanJ s) (highestMatchedSelf s) (incomingScanIndex s) (highestMatchedIncoming s) u.

Lemma readNote_eq event s : (readNote event s).2 = view s event ∧
  same_but_count (match matched event s with Some src => reach src s | None => s end) (readNote event s).1.
Proof.
  assert (Hid : ∀ s, same_but_count s s) by (intros s'; exists (unopenable s'); by destruct s').
  unfold readNote, view, matched. destruct (type event).
  - unfold readSelf, mbind, M_bind, lift, get, modify, event_err. destruct (tagKey (ephemeralX event)) as [key|]; [|done].
    destruct (selfTags s !! key) as [src|]; [|done]. cbn [fmap option_fmap option_map reach opened].
    unfold lift. cbn [blockNumber]. destruct (epochs_loop _ _ _) as [[v|]|]; [done| |done]. split; [done|].
    by exists (unopenable s + 1).
  - unfold readIncoming. destruct (e_tag event) as [tag|]; [|done]. destruct (cekWrap event) as [w|] eqn:Ew; [|done].
    unfold mbind, M_bind, lift, get, modify, event_err. destruct (tagKey tag) as [key|]; [|done].
    destruct (incomingTags s !! key) as [src|]; [|done]. cbn [fmap option_fmap option_map reach opened].
    rewrite Ew. unfold lift, mbind. destruct (Keys.Fields.recoverEvenY _); cbn [map_err result_bind]; [|done].
    destruct (newFr w); cbn [map_err result_bind]; [|done].
    destruct (memberReadIncoming _ _ _); cbn [map_err result_bind]; [|done]. by destruct (recover _ _ _ _ _ _).
Qed.

(** *** The laws of a gap-limit scanner *)
Definition family src : option Z * Z :=
  match src with inl src => (Some (ss_memberId src), ss_j src) | inr src => (None, in_index src) end.
#[export] Instance group_scanner : GapScanner MultisigScanner UnprocessedEvent (option Z) := {|
  touch s event := (readNote event s).1;
  slot s event := family <$> matched event s;
  high s f := match f with Some m => default (-1) (highestMatchedSelf s !! m) | None => highestMatchedIncoming s end;
|}.

Definition group_same s s' : Prop :=
  selfTags s = selfTags s' ∧ incomingTags s = incomingTags s' ∧ selfScanJ s = selfScanJ s' ∧
  incomingScanIndex s = incomingScanIndex s' ∧ sc_v s = sc_v s' ∧ memberIds s = memberIds s' ∧
  complianceKeys s = complianceKeys s' ∧ expectedOwner s = expectedOwner s'.
Record group_grows s s' : Prop := {
  gg_self : selfTags s ⊆ selfTags s';
  gg_incoming : incomingTags s ⊆ incomingTags s';
  gg_high f : high s f <= high s' f;
  gg_v : sc_v s = sc_v s';
  gg_members : memberIds s = memberIds s';
  gg_ring : complianceKeys s = complianceKeys s';
  gg_owner : expectedOwner s = expectedOwner s';
}.
#[export] Instance group_same_equiv : Equivalence group_same.
Proof.
  split; [done|by intros s s' (? & ? & ? & ? & ? & ? & ? & ?)|].
  intros s1 s2 s3 (? & ? & ? & ? & ? & ? & ? & ?) (? & ? & ? & ? & ? & ? & ? & ?). unfold group_same. split_and!; congruence.
Qed.
#[export] Instance group_grows_preorder : PreOrder group_grows.
Proof.
  split; [intros s; by split|]. intros s1 s2 s3 [] [].
  split; [by etrans|by etrans|intros f; etrans; eauto|congruence..].
Qed.

Lemma matched_tags event s s' : selfTags s = selfTags s' → incomingTags s = incomingTags s' →
  matched event s = matched event s'.
Proof. unfold matched. by intros -> ->. Qed.
Lemma group_matched_grows event s s' src : group_grows s s' → matched event s = Some src → matched event s' = Some src.
Proof.
  intros [Hs Hi _ _ _ _ _]. unfold matched. destruct (type event); [|destruct (e_tag event), (cekWrap event); [|done..]];
    (destruct (tagKey _) as [key|]; [|done]); intros (x & Hx & ->)%fmap_Some.
  - by rewrite (lookup_weaken _ _ _ _ Hx Hs).
  - by rewrite (lookup_weaken _ _ _ _ Hx Hi).
Qed.
Lemma high_reach src s f : high (reach src s) f = high s f ∨ family src = (f, high (reach src s) f).
Proof.
  destruct src as [src|src], f as [m|]; cbn; try by left.
  - case_match; [|by left]. destruct (decide (m = ss_memberId src)) as [->|]; [right|left]; [by rewrite lookup_insert_eq|].
    by rewrite lookup_insert_ne.
  - case_match; [by right|by left].
Qed.
Lemma high_reached src s : (family src).2 <= high (reach src s) (family src).1 ∧ ∀ f, high s f <= high (reach src s) f.
Proof.
  destruct src as [src|src]; cbn;
    match goal with |- context [?a <? ?b] => destruct (Z.ltb_spec a b) as [Hlt|Hge] end; cbn.
  - rewrite lookup_insert_eq. split; [done|]. intros [m|]; [|done].
    destruct (decide (m = ss_memberId src)) as [->|]; [rewrite lookup_insert_eq; cbn; lia|by rewrite lookup_insert_ne].
  - done.
  - split; [lia|]. intros [m|]; lia.
  - split; [lia|]. by intros [m|].
Qed.

Lemma touch_frame s event : group_same s (touch s event) ∧
  ∀ f, high (touch s event) f = high (match matched event s with Some src => reach src s | None => s end) f.
Proof.
  cbn [touch group_scanner]. destruct (readNote_eq event s) as [_ [u ->]]. split; [|done].
  by destruct (matched event s) as [[|]|].
Qed.
#[export] Instance group_laws : GapLaws MultisigScanner UnprocessedEvent (option Z).
Proof.
  apply (Build_GapLaws _ _ _ group_scanner group_same group_grows _ _).
  - intros s s' event T. cbn [slot group_scanner]. f_equal. by apply matched_tags; apply T.
  - intros s s' event x G. cbn [slot group_scanner]. intros (src & Hm & ->)%fmap_Some.
    by rewrite (group_matched_grows _ _ _ _ G Hm).
  - intros s s' f []. done.
  - intros s event. apply touch_frame.
  - intros s event. destruct (touch_frame s event) as [(E1 & E2 & _ & _ & ? & ? & ? & ?) Hh].
    split; [by rewrite E1|by rewrite E2| |done..]. intros f. rewrite Hh.
    destruct (matched event s) as [src|]; [apply high_reached|done].
  - intros s event f i. cbn [slot group_scanner]. intros (src & Hm & E)%fmap_Some.
    rewrite (proj2 (touch_frame s event)), Hm. destruct (high_reached src s) as [Hr _]. by rewrite <- E in Hr.
  - intros s event f. rewrite (proj2 (touch_frame s event)). cbn [slot group_scanner].
    destruct (matched event s) as [src|]; [|by left]. destruct (high_reach src s f) as [|E]; [by left|right].
    cbn [fmap option_fmap option_map]. by rewrite E.
Defined.
End GroupLookahead.
End GroupLookahead.

(** ** [sync] *)
Module GroupSync.
Import Mint Keys.Keys Kem MultisigNote Scanner GroupEngine Tags GroupLookahead.
Section GroupSync.
Context `{BabyJubjub} `{Poseidon2}.
Implicit Types (s : MultisigScanner) (events : list UnprocessedEvent).
Notation upto scan m := (default 0 (scan !! m)).

(** Every window lies within the registered indices. *)
Definition quiet (window : Z) s : Prop :=
  (∀ m, m ∈ memberIds s → target s window m <= upto (selfScanJ s) m) ∧
  highestMatchedIncoming s + 1 + window <= incomingScanIndex s.

Lemma ensure_spec window s s1 b1 s2 b2 : ensureSelfLookahead window s = (s1, Ok b1) →
  ensureIncomingLookahead window s1 = (s2, Ok b2) → exact s → distinct s2 →
  exact s2 ∧ quiet window s2 ∧ group_grows s s2 ∧
  (b1 || b2 = false → selfTags s2 = selfTags s ∧ incomingTags s2 = incomingTags s) ∧ (quiet window s → b1 || b2 = false).
Proof.
  intros (s0 & w & [-> _]%lift_Ok & (s0' & a & [= <- <-] & Hm)%M_bind_Ok)%M_bind_Ok.
  intros (s0 & w' & [-> _]%lift_Ok & (s0' & a & [= <- <-] & Hi)%M_bind_Ok)%M_bind_Ok (Hs & Hin & Hpos & Hpos') [Hd Hd'].
  apply members_loop_frame in Hm as Hf; destruct Hf as [Hf Hle].
  apply incoming_range_spec in Hi as (Hf2 & Hle2 & Hlim & Hn2 & Hex2).
  rewrite Hf2, Hf in Hd. cbn in Hd. rewrite Hf2 in Hd'. rewrite Hf in Hd', Hex2, Hlim, Hn2, Hle2. cbn in Hd', Hex2, Hlim, Hn2, Hle2.
  destruct (members_loop_spec _ _ _ _ _ _ Hm) as (Hex1 & Hq & Hb1 & Hn1); [done..|].
  destruct (Hex2 Hpos' Hin Hd') as [Hex3 Hb2].
  assert (Hexact : exact s2).
  { unfold exact. rewrite Hf2, Hf. cbn. split_and!; [done|done| |lia]. intros m. pose proof (Hpos m). pose proof (Hle m). lia. }
  split; [done|]. rewrite Hf2, Hf. split_and!.
  - split; cbn; [exact Hq|lia].
  - split; cbn; [| |by intros [m|]|done..].
    + apply map_subseteq_spec. intros key src Hk. apply Hex1. apply Hs in Hk. by eapply at_self_le.
    + apply map_subseteq_spec. intros key src Hk. apply Hex3. apply Hin in Hk. by apply (at_incoming_le _ (incomingScanIndex s)).
  - cbn. intros [Ha Hb]%orb_false_iff. by destruct (Hb1 Ha), (Hb2 Hb).
  - intros [Hqs Hqi]. rewrite Hn1, Hn2 by done. done.
Qed.

(** When a window must grow after a pass, the pass has reached a new entry. *)
Lemma group_progress window s events : quiet window s → ~ quiet window (pass s events) →
  (count_accounted s events < count_accounted (pass s events) events)%nat.
Proof.
  intros [Hs Hi] Hnq. destruct (pass_spec s events) as ((_ & _ & Es & Ei & _ & Em & _) & _). unfold quiet in Hnq.
  rewrite <- Es, <- Ei, <- Em in Hnq.
  destruct (decide (highestMatchedIncoming (pass s events) + 1 + window <= incomingScanIndex s)).
  - destruct (decide (Forall (λ m, target (pass s events) window m <= upto (selfScanJ s) m) (memberIds s))) as [Hall|Hall].
    { rewrite Forall_forall in Hall. by destruct Hnq. }
    apply not_Forall_Exists, Exists_exists in Hall as (m & Hm & Hlt); [|apply _]. specialize (Hs m Hm).
    cbn beta in Hlt. unfold target in *. apply (pass_progress s events (Some m) (upto (selfScanJ s) m - 1 - window)); cbn in *; lia.
  - apply (pass_progress s events None (incomingScanIndex s - 1 - window)); cbn; lia.
Qed.

Lemma view_same s s' event : selfTags s = selfTags s' → incomingTags s = incomingTags s' →
  complianceKeys s = complianceKeys s' → expectedOwner s = expectedOwner s' → view s event = view s' event.
Proof. intros H1 H2 H3 H4. unfold view. by rewrite (matched_tags event s s'), H3, H4. Qed.
Lemma read_all_eq events s : read_all events s = (pass s events, omap (view s) events).
Proof.
  revert s. induction events as [|event events IH]; intros s; [done|]. cbn [read_all].
  destruct (readNote_eq event s) as [Hv _]. pose proof (touch_frame s event) as [(E1 & E2 & _ & _ & _ & _ & E3 & E4) _].
  cbn [touch group_scanner] in *. destruct (readNote event s) as [s1 v] eqn:Er. cbn [fst snd] in *. subst v.
  rewrite IH. unfold pass. cbn [foldl]. cbn [touch group_scanner]. rewrite Er. cbn [fst]. f_equal. cbn [omap list_omap].
  assert (Homap : omap (view s1) events = omap (view s) events).
  { apply list_omap_ext, Forall_Forall2_diag, Forall_true. intros ev. symmetry. by apply view_same. }
  rewrite Homap. by destruct (view s event).
Qed.

(** *** The loop over passes *)
Record scans s s' : Prop := {
  sn_v : sc_v s = sc_v s'; sn_members : memberIds s = memberIds s';
  sn_self : scan_le (selfScanJ s) (selfScanJ s');
  sn_incoming : incomingScanIndex s <= incomingScanIndex s' }.
#[export] Instance scans_preorder : PreOrder scans.
Proof. split; [intros s; by split|]. intros s1 s2 s3 [] []. split; [congruence|congruence|by etrans|lia]. Qed.
Lemma distinct_scans s s' : scans s s' → distinct s' → distinct s.
Proof.
  intros [Ev Em Hs Hi] [Hd Hd']. split; [|rewrite Ev; by apply (distinct_incoming_le _ _ (incomingScanIndex s'))].
  rewrite Ev, Em. by eapply distinct_self_le.
Qed.
Lemma ensure_scans window s s1 b1 s2 b2 : ensureSelfLookahead window s = (s1, Ok b1) →
  ensureIncomingLookahead window s1 = (s2, Ok b2) → scans s s2.
Proof.
  intros (s0 & w & [-> _]%lift_Ok & (s0' & a & [= <- <-] & Hm)%M_bind_Ok)%M_bind_Ok.
  intros (s0 & w' & [-> _]%lift_Ok & (s0' & a & [= <- <-] & Hi)%M_bind_Ok)%M_bind_Ok.
  apply members_loop_frame in Hm as [Hf Hle]. apply incoming_range_spec in Hi as (Hf2 & Hle2 & _).
  rewrite Hf in Hle2. split; rewrite Hf2; [by rewrite Hf|by rewrite Hf|done|done].
Qed.
Lemma pass_scans s events : scans s (pass s events).
Proof.
  destruct (pass_spec s events) as ((_ & _ & Es & Ei & Ev & Em & _) & _).
  split; [done|done|by rewrite <- Es|by rewrite <- Ei].
Qed.
Lemma pass_exact s events : exact s → exact (pass s events).
Proof.
  destruct (pass_spec s events) as ((Et & Et' & Es & Ei & Ev & Em & _) & _). unfold exact.
  by rewrite <- Et, <- Et', <- Es, <- Ei, <- Ev, <- Em.
Qed.
Lemma view_grows s s' event v : group_grows s s' → view s event = Some v → view s' event = Some v.
Proof.
  intros G. unfold view. destruct (matched event s) as [src|] eqn:Em; [|done].
  rewrite (group_matched_grows _ _ _ _ G Em). by destruct G as [_ _ _ _ _ -> ->].
Qed.

Lemma group_passes_S n events window found s s' f : passes_loop (S n) events window found s = (s', Ok f) →
  ∃ s1 s2 b1 b2, ensureSelfLookahead window (pass s events) = (s1, Ok b1) ∧
    ensureIncomingLookahead window s1 = (s2, Ok b2) ∧
    if b1 || b2 then passes_loop n events window (omap (view s) events) s2 = (s', Ok f)
    else s' = s2 ∧ f = omap (view s) events.
Proof.
  cbn [passes_loop]. intros (s0 & fs & Hr & (s1 & b1 & H1 & (s2 & b2 & H2 & Hl)%M_bind_Ok)%M_bind_Ok)%M_bind_Ok.
  rewrite read_all_eq in Hr. injection Hr as <- <-. exists s1, s2, b1, b2. split_and!; [done|done|].
  destruct b1, b2; cbn in *; [done..|]. by injection Hl as <- <-.
Qed.
Lemma passes_scans n events window found s s' f : passes_loop n events window found s = (s', Ok f) → scans s s'.
Proof.
  revert found s. induction n as [|n IH]; intros found s; [by intros [= <- <-]|].
  intros (s1 & s2 & b1 & b2 & H1' & H2' & Hl)%group_passes_S. etrans; [apply (pass_scans s events)|].
  etrans; [by eapply ensure_scans|]. destruct (b1 || b2); [by eapply IH|]. destruct Hl as [-> _]. done.
Qed.

(** One pass and the growth that follows it. *)
Lemma round_spec window events s s1 b1 s2 b2 : ensureSelfLookahead window (pass s events) = (s1, Ok b1) →
  ensureIncomingLookahead window s1 = (s2, Ok b2) → exact s → distinct s2 →
  exact s2 ∧ quiet window s2 ∧ group_grows s s2 ∧
  (b1 || b2 = false → omap (view s) events = omap (view s2) events) ∧
  (b1 || b2 = true → quiet window s → (count_accounted s events < count_accounted s2 events)%nat).
Proof.
  intros H1' H2' Hex Hd. destruct (ensure_spec _ _ _ _ _ _ H1' H2') as (Hex2 & Hq2 & G2 & Hsame & Hb); [by apply pass_exact|done|].
  destruct (pass_spec s events) as ((Et & Et' & _ & _ & _ & _ & Er & Eo) & G & _).
  split_and!; [done|done|by etrans| |].
  - intros [Hs Hi]%Hsame. apply list_omap_ext, Forall_Forall2_diag, Forall_true. intros ev. destruct G2.
    apply view_same; congruence.
  - intros Hg Hq. pose proof (count_accounted_grows _ _ events G2).
    enough (count_accounted s events < count_accounted (pass s events) events)%nat by lia.
    apply (group_progress window); [done|]. intros Hq'. rewrite (Hb Hq') in Hg. done.
Qed.

Lemma group_passes_spec n events window found s s' f : passes_loop n events window found s = (s', Ok f) →
  exact s → quiet window s → distinct s' →
  exact s' ∧ quiet window s' ∧ group_grows s s' ∧
  (∀ v, v ∈ f → v ∈ found ∨ ∃ event, event ∈ events ∧ view s' event = Some v) ∧
  (f = omap (view s') events ∨ (n + count_accounted s events <= count_accounted s' events)%nat).
Proof.
  revert found s. induction n as [|n IH]; intros found s.
  { intros [= <- <-] Hex Hq Hd. split_and!; [done|done|done|by left|by right]. }
  intros (s1 & s2 & b1 & b2 & H1' & H2' & Hl)%group_passes_S Hex Hq Hd.
  assert (Hd2 : distinct s2).
  { eapply distinct_scans; [|exact Hd]. destruct (b1 || b2); [by eapply passes_scans|by destruct Hl as [-> _]]. }
  destruct (round_spec _ _ _ _ _ _ _ H1' H2' Hex Hd2) as (Hex2 & Hq2 & G2 & Hsame & Hprog).
  destruct (b1 || b2).
  - destruct (IH _ _ Hl Hex2 Hq2 Hd) as (Hex3 & Hq3 & G3 & Hf & Hc). split_and!; [done|done|by etrans| |].
    + intros v [(ev & Hev & Hv)%list_elem_of_omap|]%Hf; [|by right]. right. exists ev. split; [done|].
      eapply view_grows; [|exact Hv]. by etrans.
    + destruct Hc as [|Hc]; [by left|right]. specialize (Hprog eq_refl Hq). lia.
  - destruct Hl as [-> ->]. rewrite (Hsame eq_refl). split_and!; [done|done|done| |by left].
    intros v (ev & Hev & Hv)%list_elem_of_omap. right. by exists ev.
Qed.

Context (fetchNotes : Z → option (list IndexerNoteInserted)).
Lemma sync_spec window from s s' f : sync fetchNotes window from s = (s', Ok f) → exact s → distinct s' →
  ∃ notes events, fetchNotes from = Some notes ∧ map_res Scan.Engine.toUnprocessedEvent notes = Ok events ∧
    exact s' ∧ quiet window s' ∧ group_grows s s' ∧
    (∀ v, v ∈ f → ∃ event, event ∈ events ∧ view s' event = Some v) ∧
    ((count_own s' events < 63)%nat → f = omap (view s') events).
Proof.
  unfold sync. destruct (fetchNotes from) as [notes|]; [|done]. intros (s0 & events & [-> He]%lift_Ok & Hl)%M_bind_Ok Hex Hd.
  exists notes, events. split; [done|]. split; [done|].
  change maxPasses with (S 63) in Hl. apply group_passes_S in Hl as (s1 & s2 & b1 & b2 & H1' & H2' & Hl).
  assert (Hd2 : distinct s2).
  { eapply distinct_scans; [|exact Hd]. destruct (b1 || b2); [by eapply passes_scans|by destruct Hl as [-> _]]. }
  destruct (round_spec _ _ _ _ _ _ _ H1' H2' Hex Hd2) as (Hex2 & Hq2 & G2 & Hsame & _).
  destruct (b1 || b2).
  - destruct (group_passes_spec _ _ _ _ _ _ _ Hl Hex2 Hq2 Hd) as (Hex3 & Hq3 & G3 & Hf & Hc).
    split_and!; [done|done|by etrans| |].
    + intros v [(ev & Hev & Hv)%list_elem_of_omap|]%Hf; [|done]. exists ev. split; [done|].
      eapply view_grows; [|exact Hv]. by etrans.
    + intros Hlt. destruct Hc as [|Hc]; [done|]. pose proof (accounted_own s' events). lia.
  - destruct Hl as [-> ->]. rewrite (Hsame eq_refl). split_and!; [done|done|done| |done].
    intros v (ev & Hev & Hv)%list_elem_of_omap. by exists ev.
Qed.
End GroupSync.
End GroupSync.

(** ** [create] *)
Module GroupCreate.
Import Mint Keys.Keys Kem MultisigNote Scanner Tags.
Section GroupCreate.
Context `{BabyJubjub} `{Poseidon2}.
Implicit Types (s : MultisigScanner).
Notation upto scan m := (default 0 (scan !! m)).

Lemma create_members_frame l limit s s' : create_members l limit s = (s', Ok tt) → 0 <= limit →
  (∀ m, upto (selfScanJ s) m <= limit) →
  s' = with_scanJ (selfScanJ s') (with_self (selfTags s') s) ∧ scan_le (selfScanJ s) (selfScanJ s') ∧
  (∀ m, upto (selfScanJ s') m <= limit) ∧ ∀ m, m ∈ l → upto (selfScanJ s') m = limit.
Proof.
  intros Hr Hl. revert s Hr. induction l as [|m l IH]; intros s; cbn [create_members].
  { intros [= <-] Hb. split_and!; [by destruct s|done|done|intros ? []%not_elem_of_nil]. }
  intros (s1 & b & Hr & (s2 & [] & [= <-] & Hc)%M_bind_Ok)%M_bind_Ok Hb. apply self_range_frame in Hr as Hf.
  rewrite Hf in Hc. apply IH in Hc as (Hf1 & Hle & Hb1 & Hin); cbn in *.
  - assert (Hm : scan_le (selfScanJ s) (<[m:=limit]> (selfScanJ s))) by (apply scan_le_insert, Hb).
    split_and!; [exact Hf1|by etrans|done|]. intros m' [->|Hm']%elem_of_cons; [|by apply Hin].
    pose proof (Hle m). pose proof (Hb1 m). rewrite upto_insert in *. case_decide; [lia|done].
  - intros m'. rewrite upto_insert. case_decide; [lia|apply Hb].
Qed.
Lemma create_members_spec l limit s s' : create_members l limit s = (s', Ok tt) → 0 <= limit → l ⊆ memberIds s →
  (∀ m, 0 <= upto (selfScanJ s) m <= limit) →
  exact_self (sc_v s) (memberIds s) (selfScanJ s) (selfTags s) → distinct_self (sc_v s) (memberIds s) (selfScanJ s') →
  exact_self (sc_v s) (memberIds s) (selfScanJ s') (selfTags s').
Proof.
  intros Hr Hl. revert s Hr. induction l as [|m l IH]; intros s; cbn [create_members]; [by intros [= <-]|].
  intros (s1 & b & Hr & (s2 & [] & [= <-] & Hc)%M_bind_Ok)%M_bind_Ok Hin Hb Hex Hd. apply self_range_frame in Hr as Hf.
  rewrite Hf in Hc. assert (Hb1 : ∀ m', 0 <= upto (<[m:=limit]> (selfScanJ s)) m' <= limit).
  { intros m'. rewrite upto_insert. case_decide; [lia|apply Hb]. }
  pose proof (create_members_frame _ _ _ _ Hc Hl) as (_ & Hle & _ & _); [intros m'; apply Hb1|]. cbn in Hle.
  assert (Hadv : advance (selfScanJ s) m (0 + Z.of_nat (Z.to_nat limit)) = <[m:=limit]> (selfScanJ s)).
  { unfold advance. f_equal. pose proof (Hb m). lia. }
  apply self_range_spec with (scan := selfScanJ s) in Hr as (Hex1 & _); [|apply Hin; left|done|pose proof (Hb m); lia|].
  - rewrite Hadv in Hex1. apply (IH _ Hc); cbn; [intros x Hx; apply Hin; by right|exact Hb1|exact Hex1|exact Hd].
  - rewrite Hadv. by eapply distinct_self_le.
Qed.

Lemma create_incoming_spec n limit s s' : create_incoming n limit s = (s', Ok tt) → 0 <= incomingScanIndex s <= limit →
  s' = with_incoming (incomingTags s') (incomingScanIndex s') s ∧
  (exact_incoming (sc_v s) (incomingScanIndex s) (incomingTags s) → distinct_incoming (sc_v s) limit →
   exact_incoming (sc_v s) limit (incomingTags s')).
Proof.
  revert s. induction n as [|n IH]; intros s; cbn [create_incoming]; intros (s0 & a & [= <- <-] & Hr)%M_bind_Ok Hb; revert Hr;
    destruct (Z.ltb_spec (incomingScanIndex s) limit) as [Hlt|Hge]; try done;
    try (intros [= <-]; split; [by destruct s|]; by replace limit with (incomingScanIndex s) by lia).
  intros (s1 & k & [-> Hk%key_err_Ok]%lift_Ok & Hr)%M_bind_Ok. apply incomingKeyAt_spec in Hk as Hspec.
  destruct Hspec as (Hle & Hd & Hev & Hp & Hodd). revert Hr. destruct (Z.leb_spec limit (ka_index k)) as [Hlim|Hlim].
  { intros [= <-]. split; [by destruct s|]. intros Hex _.
    eapply exact_incoming_odd; [exact Hex|lia|]. intros j Hj. apply Hodd. lia. }
  intros (s2 & key & [-> [-> _]%tagKey_inv]%lift_Ok & (s3 & [] & [= <-] & Hr)%M_bind_Ok)%M_bind_Ok.
  change (with_incoming _ _ _) with (register_at s k) in Hr.
  destruct (IH _ Hr) as (Hf & Hex1); cbn [register_at incomingScanIndex incomingTags sc_v with_incoming] in *; [lia|].
  split; [exact Hf|]. intros Hex Hdist. apply Hex1; [|done].
  apply (exact_incoming_step _ _ _ _ Hex); [lia|done|]. apply (distinct_incoming_le _ _ limit); [lia|done].
Qed.

(** What a new scanner holds. *)
Definition self_limit (cfg : MultisigScanConfig) : Z := Z.min (default DEFAULT_SELF_WINDOW (cfg_selfWindow cfg)) MAX_SELF_ROLL.
Definition incoming_limit (cfg : MultisigScanConfig) : Z :=
  Z.min (default DEFAULT_INCOMING_WINDOW (cfg_incomingWindow cfg)) MAX_SELF_ROLL.

Lemma assertWindow_Ok w x : assertWindow w = Ok x ↔ x = w ∧ MIN_LOOKAHEAD_WINDOW <= w.
Proof. unfold assertWindow. destruct (Z.ltb_spec w MIN_LOOKAHEAD_WINDOW); naive_solver lia. Qed.

Lemma create_spec cfg s : create cfg = Ok s →
  16 <= self_limit cfg ∧ 16 <= incoming_limit cfg ∧
  sc_v s = cfg_v cfg ∧ memberIds s = cfg_memberIds cfg ∧ complianceKeys s = cfg_ring cfg ∧
  expectedOwner s = BjjSuite.multisigOwner (cfg_gpk cfg) ∧ highestMatchedSelf s = ∅ ∧ highestMatchedIncoming s = -1 ∧
  (∀ m, m ∈ cfg_memberIds cfg → upto (selfScanJ s) m = self_limit cfg) ∧ incomingScanIndex s = incoming_limit cfg ∧
  (distinct s → exact s).
Proof.
  unfold create. intros (ad & Ha%map_err_Ok & (w & [-> Hw]%assertWindow_Ok & Hr)%bind_Ok)%bind_Ok.
  assert (ad_owner ad = BjjSuite.multisigOwner (cfg_gpk cfg)) as Eo.
  { revert Ha. unfold multisigAddress. by intros (k & _ & (_ & _ & [= <-])%bind_Ok)%bind_Ok. }
  rewrite Eo in Hr. clear ad Ha Eo. set (start := mkScanner _ _ _ _ _ _ _ _ _ _ _) in Hr.
  destruct (create_run cfg _ start) as [s1 [[]|]] eqn:Hrun; [|done]. injection Hr as ->. revert Hrun. unfold create_run.
  intros (s1 & [] & Hm & (s2 & iw & [-> [-> Hiw]%assertWindow_Ok]%lift_Ok & (s3 & [] & Hi & [= <-])%M_bind_Ok)%M_bind_Ok)%M_bind_Ok.
  fold (self_limit cfg) in Hm. fold (incoming_limit cfg) in *. unfold MIN_LOOKAHEAD_WINDOW in *.
  assert (Hl : 16 <= self_limit cfg) by (unfold self_limit, MAX_SELF_ROLL; lia).
  assert (Hl' : 16 <= incoming_limit cfg) by (unfold incoming_limit, MAX_SELF_ROLL; lia).
  pose proof (create_members_frame _ _ _ _ Hm) as (Hf & Hle & Hb & Hin); [lia|intros m; cbn; rewrite lookup_empty; cbn; lia|].
  assert (Hi0 : incomingScanIndex s1 = 0) by (by rewrite Hf).
  pose proof (create_incoming_spec _ _ _ _ Hi) as [Hf2 Hex2]; [rewrite Hi0; lia|].
  rewrite Hi0 in Hex2. rewrite Hf in Hf2, Hex2. cbn in Hex2. rewrite Hf2. cbn.
  split_and!; first [done|exact Hin|idtac].
  - intros [Hd Hd']. cbn in Hd, Hd'. split_and!; cbn; [| | |lia].
    + apply (create_members_spec _ _ _ _ Hm); [lia|done|intros m; cbn; rewrite lookup_empty; cbn; lia| |exact Hd].
      intros key src. cbn. rewrite lookup_empty. split; [done|]. intros (_ & Hj & _). rewrite lookup_empty in Hj. cbn in Hj. lia.
    + apply Hex2; [|exact Hd']. intros key src. rewrite lookup_empty. split; [done|]. intros (Hj & _). lia.
    + intros m. pose proof (Hle m) as Hm'. cbn in Hm'. rewrite lookup_empty in Hm'. exact Hm'.
Qed.
End GroupCreate.
End GroupCreate.

(** ** What the scanner reports *)
Module GroupReceive.
Import Note Mint Keys.Keys Kem Dem MultisigNote Scanner GroupEngine Tags GroupLookahead GroupSync GroupCreate.
Section GroupReceive.
Context `{BabyJubjub} `{Poseidon2}.
Context (fetchNotes : Z → option (list IndexerNoteInserted)).
Implicit Types (s : MultisigScanner) (event : UnprocessedEvent) (v : MultisigNoteView).
Notation upto scan m := (default 0 (scan !! m)).

(** The states of a scanner of a group: a new one, then events read, windows
    grown and feeds synced. *)
Inductive reached (cfg : MultisigScanConfig) : MultisigScanner → Prop :=
  | Created s : create cfg = Ok s → reached cfg s
  | Read s event : reached cfg s → reached cfg (readNote event s).1
  | Ensured s s1 s2 b1 b2 window : reached cfg s → ensureSelfLookahead window s = (s1, Ok b1) →
      ensureIncomingLookahead window s1 = (s2, Ok b2) → reached cfg s2
  | Synced s s' f window from : reached cfg s → sync fetchNotes window from s = (s', Ok f) → reached cfg s'.

Lemma read_pass event s : (readNote event s).1 = pass s [event].
Proof. done. Qed.
Lemma sync_scans window from s s' f : sync fetchNotes window from s = (s', Ok f) → scans s s'.
Proof.
  unfold sync. destruct (fetchNotes from) as [notes|]; [|done]. intros (s0 & events & [-> _]%lift_Ok & Hl)%M_bind_Ok.
  by eapply passes_scans.
Qed.
Lemma reached_exact cfg s : reached cfg s → distinct s → exact s.
Proof.
  induction 1 as [s Hc|s event _ IH|s s1 s2 b1 b2 window _ IH H1' H2'|s s' f window from _ IH Hs]; intros Hd.
  - by apply (create_spec cfg s Hc).
  - rewrite read_pass in Hd |- *. apply pass_exact, IH. eapply distinct_scans; [apply pass_scans|exact Hd].
  - apply (ensure_spec _ _ _ _ _ _ H1' H2'); [|done]. apply IH. eapply distinct_scans; [|exact Hd]. by eapply ensure_scans.
  - destruct (sync_spec _ _ _ _ _ _ Hs) as (? & ? & _ & _ & Hex & _); [|done|done].
    apply IH. eapply distinct_scans; [|exact Hd]. by eapply sync_scans.
Qed.
Lemma reached_cfg cfg s : reached cfg s → sc_v s = cfg_v cfg ∧ memberIds s = cfg_memberIds cfg ∧
  complianceKeys s = cfg_ring cfg ∧ expectedOwner s = BjjSuite.multisigOwner (cfg_gpk cfg).
Proof.
  assert (Hpass : ∀ s events, let s' := pass s events in
    sc_v s = sc_v s' ∧ memberIds s = memberIds s' ∧ complianceKeys s = complianceKeys s' ∧ expectedOwner s = expectedOwner s').
  { intros s0 events. by destruct (pass_spec s0 events) as ((_ & _ & _ & _ & ? & ? & ? & ?) & _). }
  assert (Hens : ∀ window s s1 b1 s2 b2, ensureSelfLookahead window s = (s1, Ok b1) →
    ensureIncomingLookahead window s1 = (s2, Ok b2) →
    sc_v s = sc_v s2 ∧ memberIds s = memberIds s2 ∧ complianceKeys s = complianceKeys s2 ∧ expectedOwner s = expectedOwner s2).
  { intros window s0 s1 b1 s2 b2 (s3 & w & [-> _]%lift_Ok & (s0' & a & [= <- <-] & Hm)%M_bind_Ok)%M_bind_Ok.
    intros (s3 & w' & [-> _]%lift_Ok & (s0' & a & [= <- <-] & Hi)%M_bind_Ok)%M_bind_Ok.
    apply members_loop_frame in Hm as [Hf _]. apply incoming_range_spec in Hi as (Hf2 & _). rewrite Hf2, Hf. done. }
  assert (Hloop : ∀ n events window found s s' f, passes_loop n events window found s = (s', Ok f) →
    sc_v s = sc_v s' ∧ memberIds s = memberIds s' ∧ complianceKeys s = complianceKeys s' ∧ expectedOwner s = expectedOwner s').
  { induction n as [|n IH]; intros events window found s0 s' f; [by intros [= <- <-]|].
    intros (s1 & s2 & b1 & b2 & H1' & H2' & Hl)%group_passes_S. destruct (Hpass s0 events) as (? & ? & ? & ?).
    destruct (Hens _ _ _ _ _ _ H1' H2') as (? & ? & ? & ?).
    destruct (b1 || b2); [destruct (IH _ _ _ _ _ _ Hl) as (? & ? & ? & ?)|destruct Hl as [-> _]]; split_and!; congruence. }
  induction 1 as [s Hc|s event _ IH|s s1 s2 b1 b2 window _ IH H1' H2'|s s' f window from _ IH Hs];
    try destruct IH as (E1 & E2 & E3 & E4).
  - by apply create_spec in Hc as (_ & _ & ? & ? & ? & ? & _).
  - rewrite read_pass. destruct (Hpass s [event]) as (? & ? & ? & ?). split_and!; congruence.
  - destruct (Hens _ _ _ _ _ _ H1' H2') as (? & ? & ? & ?). split_and!; congruence.
  - revert Hs. unfold sync. destruct (fetchNotes from) as [notes|]; [|done].
    intros (s0 & events & [-> _]%lift_Ok & Hl)%M_bind_Ok. destruct (Hloop _ _ _ _ _ _ _ Hl) as (? & ? & ? & ?).
    split_and!; congruence.
Qed.

(** *** Soundness *)

(** What a reported note is: [owner'] is the group's owner commitment, [src]
    the source registered under the entry's tag. *)
Record genuine (owner' : Z) event (src : SelfSource + IncomingSource) v : Prop := {
  gn_leaf : leaf (v_note v) = Ok (v_commitment v);
  gn_commitment : Scan.toFr (e_commitment event) = Ok (v_commitment v);
  gn_type : noteType (v_note v) = NOTE_TYPE_MULTISIG;
  gn_owner : owner (v_note v) = owner';
  gn_asset : assetId (v_note v) < 2 ^ 160;
  gn_index : v_leafIndex v = e_leafIndex event;
  gn_nullifier : v_nullifier v = computeNullifier (psi (v_note v)) (v_leafIndex v);
  gn_source : match src with
              | inl src => v_isIncoming v = false ∧ v_memberId v = Some (ss_memberId src) ∧ v_derivationJ v = Some (ss_j src)
              | inr src => v_isIncoming v = true ∧ v_memberId v = None ∧ v_derivationJ v = Some (in_index src)
              end }.

Lemma group_recover_sound event owner' cek inc m j v : recover event owner' cek inc m j = Ok (Some v) →
  leaf (v_note v) = Ok (v_commitment v) ∧ Scan.toFr (e_commitment event) = Ok (v_commitment v) ∧
  noteType (v_note v) = NOTE_TYPE_MULTISIG ∧ owner (v_note v) = owner' ∧ assetId (v_note v) < 2 ^ 160 ∧
  v_leafIndex v = e_leafIndex event ∧ v_nullifier v = computeNullifier (psi (v_note v)) (v_leafIndex v) ∧
  v_isIncoming v = inc ∧ v_memberId v = m ∧ v_derivationJ v = j.
Proof.
  unfold recover. intros (ct & _ & (pt & _ & (c & Hc & (c' & Hl%map_err_Ok & Hr)%bind_Ok)%bind_Ok)%bind_Ok)%bind_Ok.
  revert Hl Hr. match goal with |- leaf ?n = _ → _ => set (note := n) end.
  assert (Hpsi : psi note = computePsi cek) by done. clearbody note. intros Hl.
  destruct (Z.eqb_spec c' c) as [->|]; cbn [negb]; [|done].
  destruct (Z.eqb_spec (noteType note) NOTE_TYPE_MULTISIG) as [Ht|]; cbn [negb]; [|done].
  destruct (Z.eqb_spec (owner note) owner') as [Ho|]; cbn [negb]; [|done].
  destruct (Z.leb_spec ASSET_MODULUS (assetId note)) as [|Ha]; [done|].
  intros (i & [-> _]%map_err_Ok%newFr_inv & [= <-])%bind_Ok. cbn. rewrite <- Hpsi. by split_and!.
Qed.
Lemma group_epochs_loop_sound epochs eph rec v : epochs_loop epochs eph rec = Ok (Some v) → ∃ cek, rec cek = Ok (Some v).
Proof.
  induction epochs as [|e epochs IH]; cbn [epochs_loop]; [done|]. intros (cek & _ & Hr)%bind_Ok.
  destruct (rec cek) as [[v'|]|] eqn:Er; [injection Hr as ->; by eauto|by apply IH..].
Qed.
Lemma opened_sound event ring owner' src v : opened event ring owner' src = Ok (Some v) → genuine owner' event src v.
Proof.
  destruct src as [src|src]; unfold opened.
  - intros (cek & (? & ? & ? & ? & ? & ? & ? & ? & ? & ?)%group_recover_sound)%group_epochs_loop_sound. by split.
  - intros (p & _ & (w & _ & (cek & _ & (? & ? & ? & ? & ? & ? & ? & ? & ? & ?)%group_recover_sound)%bind_Ok)%bind_Ok)%bind_Ok.
    by split.
Qed.
Lemma view_sound s event v : view s event = Some v →
  ∃ src, matched event s = Some src ∧ genuine (expectedOwner s) event src v.
Proof.
  unfold view. destruct (matched event s) as [src|]; [|done]. intros Ho. exists src. split; [done|].
  apply (opened_sound event (complianceKeys s)). by destruct (opened _ _ _ _) as [o|]; [rewrite Ho|].
Qed.

(** *** Completeness *)

(** The event publishes [note], encrypted under [cek], for the owner. *)
Record carries (owner' : Z) event (note : Note) (c cek : Z) : Prop := {
  ca_leaf : leaf note = Ok c;
  ca_type : noteType note = NOTE_TYPE_MULTISIG;
  ca_owner : owner note = owner';
  ca_asset : assetId note < 2 ^ 160;
  ca_psi : psi note = computePsi cek;
  ca_fields : Forall in_field (transmitted_fields note);
  ca_commitment : e_commitment event = Some c;
  ca_index : in_field (e_leafIndex event);
  ca_cipher : ∃ ct, demEncrypt cek (transmitted_fields note) = Ok ct ∧ packedCiphertext event = Some <$> ct }.
Definition view_of (note : Note) (c : Z) event (isIncoming : bool) (memberId j : option Z) : MultisigNoteView :=
  mkView note c (e_leafIndex event) (computeNullifier (psi note) (e_leafIndex event)) isIncoming memberId j.

(** A key of the ring yields [cek], no key fails the point checks, and the
    other keys do not open the entry. *)
Definition ring_opens (ring : list ComplianceKeyEpoch) (eph cek : Z)
    (rec : Z → result ScanError (option MultisigNoteView)) : Prop :=
  (∃ e, e ∈ ring ∧ deriveCek eph (pk e) = Ok cek) ∧
  ∀ e, e ∈ ring → ∃ cek', deriveCek eph (pk e) = Ok cek' ∧ (cek' = cek ∨ ∀ v, rec cek' ≠ Ok (Some v)).

(** The entries meant for the group: a member's self note at a registered
    index, or a payment to a registered receiving address. *)
Inductive to_group s event : MultisigNoteView → Prop :=
  | To_member note c cek m j e p :
      type event = NEW_NOTE → ephemeralX event = p.1 →
      m ∈ memberIds s → j < upto (selfScanJ s) m → deriveSelfEph (sc_v s) m j = Ok (e, p) → isEvenY p = true →
      carries (expectedOwner s) event note c cek →
      ring_opens (complianceKeys s) e cek (λ cek, recover event (expectedOwner s) cek false (Some m) (Some j)) →
      to_group s event (view_of note c event false (Some m) (Some j))
  | To_address note c eph cpk gpk b index k :
      type event = NEW_MEMO → ephemeralX event = (im_ephPub b).1 → e_tag event = Some (im_tag b) →
      cekWrap event = Some (im_cekWrap b) →
      index < incomingScanIndex s → deriveMultisigIncomingKey (sc_v s) index = Ok k →
      valid_scalar k → valid_scalar eph →
      buildIncomingMultisigNote eph cpk gpk (publicKey k) = Ok b →
      Keys.Fields.recoverEvenY (im_ephPub b).1 = Ok (im_ephPub b) →
      carries (expectedOwner s) event note c (im_cek b) →
      to_group s event (view_of note c event true None (Some index)).

Context {L : BabyJubjubLaws} {PF : Poseidon2Field}.

Lemma recover_carried owner' event note c cek inc m j : carries owner' event note c cek →
  recover event owner' cek inc m j = Ok (Some (view_of note c event inc m j)).
Proof.
  intros [Hl Ht Ho Ha Hp Hf Hc Hi (ct & Hct & Hpk)]. unfold recover, view_of.
  rewrite Hpk, Processor.map_res_toFr by (by eapply Processor.demEncrypt_field). cbn [mbind result_bind].
  rewrite (demDecrypt_demEncrypt _ _ _ Hf Hct). cbn [map_err mbind result_bind].
  rewrite <- Hp, (Processor.rebuild_note note), Hc, Processor.toFr_Ok by (unfold leaf in Hl; case_match; [done|injection Hl as <-; apply PF]).
  cbn [mbind result_bind]. rewrite Hl. cbn [map_err mbind result_bind]. rewrite Ht, Ho, !Z.eqb_refl. cbn [negb].
  unfold ASSET_MODULUS. change (Z.shiftl 1 160) with (2 ^ 160). rewrite (proj2 (Z.leb_gt _ _)) by done.
  by rewrite newFr_Ok.
Qed.
Lemma group_epochs_loop_opens ring epochs eph rec cek v : epochs ≡ₚ ring → ring_opens ring eph cek rec →
  rec cek = Ok (Some v) → epochs_loop epochs eph rec = Ok (Some v).
Proof.
  intros Hperm [Hex Hall] Hv. setoid_rewrite <- Hperm in Hex. setoid_rewrite <- Hperm in Hall. clear Hperm.
  induction epochs as [|e epochs IH]; [by destruct Hex as (? & []%not_elem_of_nil & _)|].
  cbn [epochs_loop]. destruct (Hall e ltac:(left)) as (cek' & Hd & Hc). rewrite Hd. cbn [map_err mbind result_bind].
  destruct (decide (cek' = cek)) as [->|Hne]; [by rewrite Hv|]. destruct Hc as [|Hf]; [done|].
  assert (Hrest : epochs_loop epochs eph rec = Ok (Some v)).
  { apply IH; [|intros e' He'; apply Hall; by right]. destruct Hex as (e' & [->|He']%elem_of_cons & Hd'); [congruence|by eauto]. }
  destruct (rec cek') as [[v'|]|]; [by edestruct Hf|done..].
Qed.
Lemma toFr_pos x y : Keys.Keys.toFr x = Ok y → 0 <= x ∧ y = x.
Proof. unfold Keys.Keys.toFr. destruct (Z.leb_spec 0 x); [|done]. destruct (_ <? _); by intros [= <-]. Qed.
Lemma group_tagKey_Ok x : in_field x → tagKey x = Ok x.
Proof.
  intros [H1' H2']. unfold tagKey, key_err, Keys.Keys.toFr. by rewrite (proj2 (Z.leb_le _ _)), (proj2 (Z.ltb_lt _ _)).
Qed.
Lemma deriveSelfEph_spec w m j e p : deriveSelfEph w m j = Ok (e, p) → 0 <= j ∧ in_field p.1.
Proof.
  unfold deriveSelfEph, memberSalt. intros (salt & (m' & _ & (j' & [Hj _]%toFr_pos & _)%bind_Ok)%bind_Ok & (k & _ & [= _ <-])%bind_Ok)%bind_Ok.
  split; [done|]. apply Bjj.gen_canonical.
Qed.

Lemma view_to_group s event v : exact s → to_group s event v → view s event = Some v.
Proof.
  intros (Hs & Hi & _) Hto. unfold view, matched.
  destruct Hto as [note c cek m j e p -> -> Hm Hj Hd Hev Hc Hr|note c eph cpk gpk b index k -> Hx -> Hw Hidx Hd Hk He Hb Hrec Hc].
  - destruct (deriveSelfEph_spec _ _ _ _ _ Hd) as [Hj0 Hp]. rewrite (group_tagKey_Ok _ Hp).
    assert (selfTags s !! p.1 = Some (mkSelfSource m j e)) as -> by (apply Hs; split_and!; [done|done|done|by exists p]).
    cbn [fmap option_fmap option_map opened ss_eph ss_memberId ss_j].
    rewrite (group_epochs_loop_opens (complianceKeys s) _ _ _ cek (view_of note c event false (Some m) (Some j)));
      [done|apply Ring.candidatesFor_perm|done|by apply recover_carried].
  - rewrite Hw. revert Hb. unfold buildIncomingMultisigNote, assertEvenYViewPub.
    destruct (isEvenY (publicKey k)) eqn:Hev; cbn [negb]; [|done].
    intros (_ & _ & (cek & Hcek%map_err_Ok & (wrap & Hwrap%map_err_Ok & (t & [Ht1 ->]%map_err_Ok%toFr_pos & Hb)%bind_Ok)%bind_Ok)%bind_Ok)%bind_Ok.
    injection Hb as <-. cbn [im_cek im_tag im_ephPub im_cekWrap] in *.
    assert (Hcf : in_field cek) by (revert Hcek; unfold deriveCek; by intros (_ & _ & (_ & _ & [-> ?]%newFr_inv)%bind_Ok)%bind_Ok).
    destruct (unwrap_wrap cek eph k Hcf He Hk) as (w' & Hw' & Hun). rewrite Hwrap in Hw'. injection Hw' as <-.
    assert (Hwf : in_field wrap).
    { revert Hwrap. unfold wrapCek. intros (_ & _ & (_ & _ & (pad & _ & [= <-])%bind_Ok)%bind_Ok)%bind_Ok.
      unfold frAdd, in_field. apply Z.mod_pos_bound. done. }
    rewrite group_tagKey_Ok by by apply publicKey_field.
    assert (Hi0 : 0 <= index) by (revert Hd; unfold deriveMultisigIncomingKey; by intros (? & [? _]%toFr_pos & _)%bind_Ok).
    assert (incomingTags s !! (publicKey k).1 = Some (mkIncomingSource index k)) as -> by (apply Hi; by split_and!).
    cbn [fmap option_fmap option_map opened in_viewKey in_index]. rewrite Hx, Hrec, Hw. cbn [map_err mbind result_bind].
    rewrite newFr_Ok by done. cbn [map_err mbind result_bind]. unfold memberReadIncoming.
    rewrite <- (public_gen eph He), Hun. cbn [map_err mbind result_bind]. by rewrite (recover_carried _ _ note c).
Qed.

(** C23. The scanner's tags: in every state a scanner of a group reaches, if no
    two indices below its scan indices derive one tag, a tag is registered
    exactly when it is the x of the even ephemeral of one of the members at an
    index below the member's scan index, with that member, index and scalar,
    and likewise for the receiving addresses; and the owner it accepts is the
    group's. *)
Theorem group_tags_exact cfg s : reached cfg s → distinct s →
  (∀ key src, selfTags s !! key = Some src ↔ at_self (cfg_v cfg) (cfg_memberIds cfg) (selfScanJ s) key src) ∧
  (∀ key src, incomingTags s !! key = Some src ↔ at_incoming (cfg_v cfg) (incomingScanIndex s) key src) ∧
  expectedOwner s = BjjSuite.multisigOwner (cfg_gpk cfg).
Proof.
  intros Hr Hd. destruct (reached_exact _ _ Hr Hd) as (Hs & Hi & _). destruct (reached_cfg _ _ Hr) as (Ev & Em & _ & Eo).
  rewrite Ev in Hs, Hi. rewrite Em in Hs. by split_and!.
Qed.

(** Syncing a group only reports notes of the group: each reported note was
    opened from an entry of the feed that carries a tag registered for a member
    or a receiving address; it hashes to the entry's leaf, is of the multisig
    type, belongs to the group's owner commitment, its asset fits 160 bits, its
    nullifier is that of the leaf, and it is attributed to the member and index
    of the tag. *)
Theorem group_sync_sound cfg s window from s' found : reached cfg s →
  sync fetchNotes window from s = (s', Ok found) → distinct s' →
  ∃ notes events, fetchNotes from = Some notes ∧ map_res Scan.Engine.toUnprocessedEvent notes = Ok events ∧
    ∀ v, v ∈ found → ∃ event src, event ∈ events ∧ matched event s' = Some src ∧
      genuine (BjjSuite.multisigOwner (cfg_gpk cfg)) event src v.
Proof.
  intros Hr Hs Hd. assert (Hr' : reached cfg s') by (by eapply Synced).
  assert (Hex : exact s) by (eapply reached_exact; [done|eapply distinct_scans; [by eapply sync_scans|done]]).
  destruct (sync_spec _ _ _ _ _ _ Hs Hex Hd) as (notes & events & Hf & He & _ & _ & _ & Hv & _).
  exists notes, events. split_and!; [done|done|]. intros v Hin. destruct (Hv v Hin) as (event & Hev & Hview).
  destruct (view_sound _ _ _ Hview) as (src & Hm & Hg). destruct (reached_cfg _ _ Hr') as (_ & _ & _ & Eo).
  rewrite Eo in Hg. by exists event, src.
Qed.

(** C26. Syncing a group finds its notes: when fewer than 63 entries of the feed
    carry the group's tags and the tags of the registered keys are distinct, a sync that returns reports each entry meant for
    the group once and in the order of the feed, with its note, member and
    index, however often the windows had to grow; and the windows of all
    members and of the receiving addresses are clear beyond the highest match. *)
Theorem group_sync_receives cfg s window from s' found notes events : reached cfg s →
  sync fetchNotes window from s = (s', Ok found) → distinct s' →
  fetchNotes from = Some notes → map_res Scan.Engine.toUnprocessedEvent notes = Ok events →
  (count_own s' events < 63)%nat →
  found = omap (view s') events ∧ quiet window s' ∧
  ∀ event v, event ∈ events → to_group s' event v → view s' event = Some v ∧ v ∈ found.
Proof.
  intros Hr Hs Hd Hf He Hc.
  assert (Hex : exact s) by (eapply reached_exact; [done|eapply distinct_scans; [by eapply sync_scans|done]]).
  destruct (sync_spec _ _ _ _ _ _ Hs Hex Hd) as (notes' & events' & Hf' & He' & Hex' & Hq & _ & _ & Hall).
  rewrite Hf in Hf'. injection Hf' as <-. rewrite He in He'. injection He' as <-. rewrite (Hall Hc).
  split_and!; [done|done|]. intros event v Hin Hto. pose proof (view_to_group _ _ _ Hex' Hto) as Hv.
  split; [done|]. apply list_elem_of_omap. by exists event.
Qed.

(** A deposit's tag can be found: a note minted with the member's durable
    counter at an index below the window of a new scanner of the group passes
    the check that precedes its broadcast, and the check returns the note. *)
Theorem deposit_discoverable {S : Type} `{EphemeralCounterStore S} {CL : CounterLaws S} fr_toString cfg s m gpk
    (st st' : S) mint o li c cek ct note :
  create cfg = Ok s → distinct s → m ∈ cfg_memberIds cfg →
  multisigDepositEph fr_toString (cfg_v cfg) m gpk st = (st', Ok (mint, o)) → mm_index mint < self_limit cfg →
  let event := selfNoteEvent li c (mm_ephPub mint) ct in
  carries (BjjSuite.multisigOwner (cfg_gpk cfg)) event note c cek →
  ring_opens (cfg_ring cfg) (mm_eph mint) cek
    (λ cek, recover event (BjjSuite.multisigOwner (cfg_gpk cfg)) cek false (Some m) (Some (mm_index mint))) →
  ∃ s', assertSelfNoteDiscoverable li c (mm_ephPub mint) ct s
    = (s', Ok (mkView note c li (computeNullifier (psi note) li) false (Some m) (Some (mm_index mint)))).
Proof.
  intros Hc Hd Hm Hmint Hlt event Hcar Hring.
  destruct (create_spec _ _ Hc) as (_ & _ & Ev & Em & Er & Eo & _ & _ & Hscan & _ & Hex). specialize (Hex Hd).
  destruct (deposit_loop_spec _ _ _ _ _ _ _ _ Hmint) as [_ Hspec].
  destruct (Hspec mint o eq_refl) as (_ & _ & _ & Hder & Hev & _).
  assert (Hto : to_group s event (view_of note c event false (Some m) (Some (mm_index mint)))).
  { eapply (To_member s event note c cek m (mm_index mint)); rewrite ?Em, ?Ev, ?Er, ?Eo; try done.
    by rewrite Hscan. }
  apply (view_to_group _ _ _ Hex) in Hto. destruct (readNote_eq event s) as [Hv _]. rewrite Hto in Hv.
  unfold assertSelfNoteDiscoverable. fold event. destruct (readNote event s) as [s1 v1]. cbn [snd] in Hv. subst v1.
  by exists s1.
Qed.
End GroupReceive.
End GroupReceive.

(** ** Witnesses on a group of order 211 *)
Module GroupScanWitness.
Import MintWitness Note Mint Keys.Keys Kem Dem MultisigNote Scanner GroupEngine Tags GroupLookahead GroupSync GroupCreate
  GroupReceive State.Counter.

Definition pt (k : Z) : Point := (k mod 211, if k mod 211 =? 0 then 1 else 2).
#[local] Instance wide_curve : BabyJubjub := {|
  addPoint a b := pt (a.1 + b.1);
  mulPointEscalar p k := pt (p.1 * k);
  Base8 := (1, 2);
  subOrder := 211;
  inCurve p := (0 <=? p.1) && (p.1 <? 211) && (p.2 =? (if p.1 =? 0 then 1 else 2));
|}.
Lemma prime_211 : Z.prime 211.
Proof.
  split; [lia|]. intros n Hn Hd.
  assert (Hall : Forall (λ n, 211 mod n ≠ 0) (seqZ 2 209)) by (apply (bool_decide_unpack _); by vm_compute).
  rewrite Forall_forall in Hall. apply (Hall n); [apply elem_of_seqZ; lia|]. apply Z.mod_divide; [lia|done].
Qed.
Lemma group_pt_fst k : (pt k).1 =[211] k.
Proof. apply eqm_mod. Qed.
Lemma group_pt_eqm j k : j =[211] k → pt j = pt k.
Proof. rewrite eqm_iff. unfold pt. by intros ->. Qed.
#[local] Instance wide_curve_laws : BabyJubjubLaws.
Proof.
  split; unfold mulPointEscalar, addPoint, Base8, subOrder, inCurve, wide_curve; cbn [fst snd].
  - apply prime_211.
  - done.
  - intros j k _ _. apply group_pt_eqm. rewrite !group_pt_fst. apply eqm_of_eq. ring.
  - intros j k _ _. apply group_pt_eqm. rewrite !group_pt_fst. apply eqm_of_eq. ring.
  - intros j k _ _ E. rewrite <- (Z.mul_1_l j), <- (Z.mul_1_l k), <- (group_pt_fst (1 * j)), E. apply group_pt_fst.
  - intros k j _ _ E. apply group_pt_eqm. by rewrite E.
  - intros k _. pose proof (Z.mod_pos_bound (1 * k) 211). unfold pt. cbn [fst snd].
    by rewrite (proj2 (Z.leb_le _ _)), (proj2 (Z.ltb_lt _ _)), Z.eqb_refl by lia.
  - intros p k _ _. pose proof (Z.mod_pos_bound (p.1 * k) 211). unfold canonical, pt.
    cbn [fst snd]. unfold BN254_SCALAR_FIELD_MODULUS. destruct (_ =? 0); lia.
  - intros [x y]. cbn [fst snd]. rewrite !andb_true_iff, Z.leb_le, Z.ltb_lt, Z.eqb_eq.
    intros [Hx ->] _ _. exists x. split; [lia|]. unfold pt. by rewrite Z.mul_1_l, Z.mod_small by lia.
Qed.

(** Distinctness is decided by listing the tags. *)
Definition self_tag (v : Z) (i : Z * Z) : option Z :=
  match deriveSelfEph v i.1 i.2 with Ok (_, p) => Some p.1 | Err _ => None end.
Definition in_tag (v i : Z) : option Z :=
  match deriveMultisigIncomingKey v i with Ok k => Some (publicKey k).1 | Err _ => None end.
Lemma NoDup_fmap_inj {A B} (f : A → B) (l : list A) x y : NoDup (f <$> l) → x ∈ l → y ∈ l → f x = f y → x = y.
Proof.
  intros Hn [i Hi]%list_elem_of_lookup [j Hj]%list_elem_of_lookup E.
  enough (i = j) by (subst; congruence). apply (NoDup_lookup _ i j (f x) Hn); rewrite list_lookup_fmap; [by rewrite Hi|by rewrite Hj, E].
Qed.
Lemma distinct_check s :
  NoDup (self_tag (sc_v s) <$> (memberIds s ≫= λ m, (λ j, (m, j)) <$> seqZ 0 (default 0 (selfScanJ s !! m)))) →
  NoDup (in_tag (sc_v s) <$> seqZ 0 (incomingScanIndex s)) → distinct s.
Proof.
  intros Hs Hi. split.
  - intros key [m j e] [m' j' e'] (Hm & Hj & p & Hp & _ & ->) (Hm' & Hj' & p' & Hp' & _ & E). cbn in *.
    assert ((m, j) = (m', j')) as [= <- <-].
    { assert (Hin : ∀ m j, m ∈ memberIds s → 0 <= j < default 0 (selfScanJ s !! m) →
        (m, j) ∈ (memberIds s ≫= λ m, (λ j, (m, j)) <$> seqZ 0 (default 0 (selfScanJ s !! m)))).
      { intros m0 j0 Hm0 Hj0. apply list_elem_of_bind. exists m0. split; [|done].
        apply list_elem_of_fmap. exists j0. split; [done|]. apply elem_of_seqZ. lia. }
      apply (NoDup_fmap_inj _ _ _ _ Hs); [by apply Hin..|]. unfold self_tag. cbn. rewrite Hp, Hp'. congruence. }
    rewrite Hp in Hp'. by injection Hp' as <- _.
  - intros key [i k] [i' k'] (Hi1 & Hk & _ & ->) (Hi2 & Hk' & _ & E). cbn in *.
    assert (i = i') as <-; [|congruence].
    apply (NoDup_fmap_inj _ _ _ _ Hi); [apply elem_of_seqZ; lia..|]. unfold in_tag. rewrite Hk, Hk'. cbn. by rewrite E.
Qed.

Definition toy_gpk : Point := publicKey 6.
Definition toy_cfg : MultisigScanConfig :=
  mkConfig 11 toy_gpk [mkEpoch 1 (publicKey 3) (Some 0); mkEpoch 2 (publicKey 5) (Some 9)] [0; 100] (Some 16) (Some 16).
Definition toy_note (cek : Z) : Note :=
  mkNote NOTE_VERSION 9 NOTE_TYPE_MULTISIG 0 40 (BjjSuite.multisigOwner toy_gpk) (computePsi cek) 0.
Definition toy_eph (m j : Z) : Z := match deriveSelfEph 11 m j with Ok (e, _) => e | Err _ => 0 end.
Definition toy_cek (m j : Z) : Z := match deriveCek (toy_eph m j) (publicKey 3) with Ok c => c | Err _ => 0 end.
Definition toy_leaf (m j : Z) : Z := match leaf (toy_note (toy_cek m j)) with Ok c => c | Err _ => 0 end.
Definition toy_ct (m j : Z) : list Z :=
  match demEncrypt (toy_cek m j) (transmitted_fields (toy_note (toy_cek m j))) with Ok ct => ct | Err _ => [] end.
Definition toy_entry (idx m j : Z) : IndexerNoteInserted :=
  mkIndexed idx (Some (toy_leaf m j)) (Some (publicKey (toy_eph m j)).1) None None (Some <$> toy_ct m j) "".
(** The second note lies outside the first window. *)
Definition toy_feed : list IndexerNoteInserted := [toy_entry 0 0 20; toy_entry 1 0 10; toy_entry 2 100 3].
Definition toy_fetch (_ : Z) : option (list IndexerNoteInserted) := Some toy_feed.
Definition toy_scanner : MultisigScanner := match create toy_cfg with Ok s => s | Err _ => mkScanner 0 [] 0 [] ∅ ∅ ∅ ∅ 0 0 0 end.
Lemma toy_create : create toy_cfg = Ok toy_scanner.
Proof. vm_compute. reflexivity. Qed.
Definition toy_synced : MultisigScanner * result GroupScanError (list MultisigNoteView) :=
  sync toy_fetch 16 0 toy_scanner.
Definition reported (r : result GroupScanError (list MultisigNoteView)) : list MultisigNoteView :=
  match r with Ok f => f | Err _ => [] end.
Definition toy_found : list MultisigNoteView := reported toy_synced.2.
Lemma group_toy_sync : sync toy_fetch 16 0 toy_scanner = (toy_synced.1, Ok toy_found).
Proof. vm_compute. reflexivity. Qed.
Lemma toy_members : memberIds toy_synced.1 = [0; 100].
Proof. vm_compute. reflexivity. Qed.
Lemma toy_ring : complianceKeys toy_synced.1 = [mkEpoch 1 (publicKey 3) (Some 0); mkEpoch 2 (publicKey 5) (Some 9)].
Proof. vm_compute. reflexivity. Qed.
Lemma toy_distinct : distinct toy_synced.1.
Proof. apply distinct_check; apply (bool_decide_unpack _); by vm_compute. Qed.

Lemma group_tags_exact_witness : selfTags toy_synced.1 !! (publicKey (toy_eph 0 20)).1 = Some (mkSelfSource 0 20 (toy_eph 0 20)).
Proof.
  apply (group_tags_exact toy_fetch toy_cfg toy_synced.1).
  - eapply Synced; [apply Created, toy_create|apply group_toy_sync].
  - apply toy_distinct.
  - split_and!; [left|by vm_compute|vm_compute; reflexivity|eexists; split_and!; vm_compute; reflexivity].
Defined.
Lemma group_sync_sound_witness : length toy_found = 3%nat ∧ ∀ v, v ∈ toy_found → owner (v_note v) = BjjSuite.multisigOwner toy_gpk.
Proof.
  split; [vm_compute; reflexivity|]. intros v Hv.
  destruct (group_sync_sound toy_fetch toy_cfg toy_scanner 16 0 toy_synced.1 toy_found
    (Created _ _ _ toy_create) group_toy_sync toy_distinct) as (notes & events & _ & _ & Hall).
  destruct (Hall v Hv) as (event & src & _ & _ & Hg). apply Hg.
Defined.

(** A toy note is well formed and only the first key of the ring opens it. *)
Lemma toy_carries event m j : e_commitment event = Some (toy_leaf m j) → in_field (e_leafIndex event) →
  packedCiphertext event = Some <$> toy_ct m j → leaf (toy_note (toy_cek m j)) = Ok (toy_leaf m j) →
  Forall in_field (transmitted_fields (toy_note (toy_cek m j))) →
  demEncrypt (toy_cek m j) (transmitted_fields (toy_note (toy_cek m j))) = Ok (toy_ct m j) →
  carries (BjjSuite.multisigOwner toy_gpk) event (toy_note (toy_cek m j)) (toy_leaf m j) (toy_cek m j).
Proof.
  intros Hc Hi Hp Hl Hf He. split; first [exact Hc|exact Hi|exact Hl|exact Hf|done|idtac].
  exists (toy_ct m j). split; [exact He|exact Hp].
Qed.
#[local] Instance in_field_dec x : Decision (in_field x).
Proof. unfold in_field. apply _. Defined.

Definition toy_events : list UnprocessedEvent :=
  match map_res Scan.Engine.toUnprocessedEvent toy_feed with Ok e => e | Err _ => [] end.
Definition toy_event : UnprocessedEvent := default (mkEvent NEW_MEMO 0 "" 0 None 0 [] None None) (toy_events !! 0%nat).
Definition toy_view : MultisigNoteView := view_of (toy_note (toy_cek 0 20)) (toy_leaf 0 20) toy_event false (Some 0) (Some 20).
Lemma group_sync_receives_witness : toy_view ∈ toy_found ∧ value (v_note toy_view) = 40.
Proof.
  split; [|done].
  destruct (group_sync_receives toy_fetch toy_cfg toy_scanner 16 0 toy_synced.1 toy_found toy_feed toy_events)
    as (_ & _ & Hall).
  - exact (Created _ _ _ toy_create).
  - exact group_toy_sync.
  - exact toy_distinct.
  - reflexivity.
  - vm_compute. reflexivity.
  - apply (Nat.le_lt_trans _ (length toy_events)); [apply length_filter|]. vm_compute. lia.
  - apply (Hall toy_event toy_view); [left|].
    apply (To_member toy_synced.1 toy_event (toy_note (toy_cek 0 20)) (toy_leaf 0 20) (toy_cek 0 20) 0 20
      (toy_eph 0 20) (publicKey (toy_eph 0 20))).
    + vm_compute. reflexivity.
    + vm_compute. reflexivity.
    + rewrite toy_members. left.
    + vm_compute. reflexivity.
    + vm_compute. reflexivity.
    + vm_compute. reflexivity.
    + apply toy_carries; [vm_compute; reflexivity|vm_compute; split; [discriminate|reflexivity]|vm_compute; reflexivity..| |
        vm_compute; reflexivity].
      apply (bool_decide_unpack _). vm_compute. exact I.
    + rewrite toy_ring. split; [exists (mkEpoch 1 (publicKey 3) (Some 0)); split; [left|by vm_compute]|].
      intros e [->|[->|[]%not_elem_of_nil]%elem_of_cons]%elem_of_cons.
      * exists (toy_cek 0 20). split; [by vm_compute|by left].
      * eexists. split; [vm_compute; reflexivity|]. right. intros v. by vm_compute.
Defined.

Definition toy_mint : MultisigSelfMint := mkMint (toy_eph 0 0) (publicKey (toy_eph 0 0)) (publicKey (toy_eph 0 0)).1 0 0 0.
Lemma toy_deposit : ∃ st', multisigDepositEph MultisigWitness.toy_string 11 0 toy_gpk (mkInMemory ∅ false)
  = (st', Ok (toy_mint, BjjSuite.multisigOwner toy_gpk)).
Proof. eexists. vm_compute. reflexivity. Qed.
Lemma toy_scanner_distinct : distinct toy_scanner.
Proof. apply distinct_check; apply (bool_decide_unpack _); by vm_compute. Qed.
Lemma toy_cfg_ring : cfg_ring toy_cfg = [mkEpoch 1 (publicKey 3) (Some 0); mkEpoch 2 (publicKey 5) (Some 9)].
Proof. reflexivity. Qed.
Lemma deposit_discoverable_witness : ∃ s' v,
  assertSelfNoteDiscoverable 7 (toy_leaf 0 0) (mm_ephPub toy_mint) (toy_ct 0 0) toy_scanner = (s', Ok v) ∧
  value (v_note v) = 40 ∧ v_memberId v = Some 0 ∧ v_leafIndex v = 7.
Proof.
  destruct toy_deposit as [st' Hst].
  destruct (deposit_discoverable MultisigWitness.toy_string toy_cfg toy_scanner 0 toy_gpk (mkInMemory ∅ false) st' toy_mint
    (BjjSuite.multisigOwner toy_gpk) 7 (toy_leaf 0 0) (toy_cek 0 0) (toy_ct 0 0) (toy_note (toy_cek 0 0)))
    as [s' Hs'].
  - exact toy_create.
  - exact toy_scanner_distinct.
  - left.
  - exact Hst.
  - vm_compute. reflexivity.
  - apply toy_carries; [reflexivity|vm_compute; split; [discriminate|reflexivity]|reflexivity|vm_compute; reflexivity| |
      vm_compute; reflexivity].
    apply (bool_decide_unpack _). vm_compute. exact I.
  - rewrite toy_cfg_ring. split; [exists (mkEpoch 1 (publicKey 3) (Some 0)); split; [left|by vm_compute]|].
    intros e [->|[->|[]%not_elem_of_nil]%elem_of_cons]%elem_of_cons.
    + exists (toy_cek 0 0). split; [by vm_compute|by left].
    + eexists. split; [vm_compute; reflexivity|]. right. intros v. by vm_compute.
  - exists s'. eexists. split; [exact Hs'|]. split_and!; reflexivity.
Defined.
End GroupScanWitness.
