(* ===== verification/Coordinator.v ===== *)
(** * The message coordinator's store ([packages/coordinator/src/db/store.ts])

    [MessageStore] is the SQLite table as a list of rows, with the clock an
    argument of each call. *)
From S2P Require Import Prelude.
Local Open Scope Z_scope.

Module Coordinator.

Definition TTL_MS : Z := 24 * 60 * 60 * 1000.

Record Envelope := mkEnvelope { session_id : string; seq : Z; kind : string; ciphertext : string }.
Record Row := mkRow { envelope : Envelope; created_at : Z }.
Notation MessageStore := (list Row).
Inductive StoreError := SequenceConflict (session : string) (seq : Z).

Definition rows_of (s : string) (db : MessageStore) : list Row :=
  filter (λ r, session_id (envelope r) = s) db.

(** [SELECT MAX(...)]. *)
Definition max_opt (l : list Z) : option Z :=
  match l with [] => None | x :: l => Some (foldl Z.max x l) end.
Definition nextSeq (s : string) (db : MessageStore) : Z :=
  match max_opt (seq ∘ envelope <$> rows_of s db) with None => 0 | Some m => m + 1 end.

Definition append (now : Z) (e : Envelope) : M MessageStore StoreError unit :=
  db ← get;
  let expectedSeq := nextSeq (session_id e) db in
  if negb (seq e =? expectedSeq) then throw (SequenceConflict (session_id e) (seq e))
  else modify (λ db, db ++ [mkRow e now]).

(** [ORDER BY seq ASC]. *)
Definition since (s : string) (since : option Z) (db : MessageStore) : list Envelope :=
  order_by seq (filter (λ e, default (-1) since < seq e) (envelope <$> rows_of s db)).

Definition expired (cutoff : Z) (db : MessageStore) (s : string) : bool :=
  match max_opt (created_at <$> rows_of s db) with None => false | Some m => m <? cutoff end.
Definition sweepExpired (now : Z) (db : MessageStore) : MessageStore * Z :=
  let cutoff := now - TTL_MS in
  let kept := filter (λ r, expired cutoff db (session_id (envelope r)) = false) db in
  (kept, Z.of_nat (length db - length kept)).

(** *** Runs *)
Inductive Op := Append (now : Z) (e : Envelope) | Sweep (now : Z).
Definition step (db : MessageStore) (op : Op) : MessageStore :=
  match op with Append now e => (append now e db).1 | Sweep now => (sweepExpired now db).1 end.

Definition seqs (s : string) (db : MessageStore) : list Z := seq ∘ envelope <$> rows_of s db.
(** Every session numbers its messages 0, 1, 2, ... in order of arrival. *)
Definition contiguous (db : MessageStore) : Prop :=
  ∀ s, seqs s db = Z.of_nat <$> List.seq 0 (length (rows_of s db)).

Lemma max_opt_seq n : max_opt (Z.of_nat <$> List.seq 0 n) = match n with O => None | S n => Some (Z.of_nat n) end.
Proof.
  destruct n as [|n]; [done|]. cbn [List.seq fmap list_fmap max_opt]. f_equal.
  assert (Hg : ∀ a, foldl Z.max (Z.of_nat a) (Z.of_nat <$> List.seq (S a) n) = Z.of_nat (a + n)).
  { induction n as [|n IH]; intros a; [simpl; by rewrite Nat.add_0_r|].
    cbn [List.seq fmap list_fmap foldl]. replace (Z.max (Z.of_nat a) (Z.of_nat (S a))) with (Z.of_nat (S a)) by lia.
    etrans; [apply IH|]. f_equal. lia. }
  apply (Hg O).
Qed.
Lemma nextSeq_contiguous s db : contiguous db → nextSeq s db = Z.of_nat (length (rows_of s db)).
Proof.
  intros Hc. unfold nextSeq. fold (seqs s db). rewrite (Hc s), max_opt_seq.
  destruct (length (rows_of s db)); lia.
Qed.

Lemma rows_of_app s db db' : rows_of s (db ++ db') = rows_of s db ++ rows_of s db'.
Proof. apply filter_app. Qed.
Lemma rows_of_filter s (P : string → bool) db :
  rows_of s (filter (λ r, P (session_id (envelope r)) = false) db)
  = if P s then [] else rows_of s db.
Proof.
  unfold rows_of. rewrite list_filter_filter. destruct (P s) eqn:Hp.
  - induction db as [|r db IH]; [done|]. rewrite filter_cons, decide_False; [done|].
    intros [E ?]. rewrite E in *. congruence.
  - apply list_filter_iff. intros r. split; [by intros [? _]|]. intros E. by rewrite E.
Qed.

Lemma append_spec now e db : contiguous db →
  append now e db =
  if decide (seq e = Z.of_nat (length (rows_of (session_id e) db)))
  then (db ++ [mkRow e now], Ok tt) else (db, Err (SequenceConflict (session_id e) (seq e))).
Proof.
  intros Hc. unfold append, get, modify, throw, mbind, M_bind. rewrite nextSeq_contiguous by done.
  case_decide as E; [by rewrite (proj2 (Z.eqb_eq _ _) E)|by rewrite (proj2 (Z.eqb_neq _ _) E)].
Qed.

Lemma step_contiguous db op : contiguous db → contiguous (step db op).
Proof.
  intros Hc s. destruct op as [now e|now]; cbn [step].
  - rewrite append_spec by done. case_decide as E; cbn [fst]; [|apply Hc].
    unfold seqs. rewrite rows_of_app, fmap_app. fold (seqs s db). rewrite (Hc s), length_app.
    unfold rows_of at 2 4. rewrite filter_cons. cbn [envelope]. case_decide as Hs.
    + cbn [length fmap list_fmap]. rewrite filter_nil, Nat.add_1_r, seq_S, fmap_app. subst s.
      cbn. by rewrite E.
    + rewrite filter_nil. cbn [length fmap list_fmap]. by rewrite app_nil_r, Nat.add_0_r.
  - unfold seqs, sweepExpired. cbn [fst]. rewrite (rows_of_filter s (expired (now - TTL_MS) db)).
    destruct (expired _ _ s); [done|apply Hc].
Qed.

Lemma run_contiguous ops db : contiguous db → contiguous (foldl step db ops).
Proof. revert db. induction ops as [|op ops IH]; intros db Hc; [done|]. by apply IH, step_contiguous. Qed.

Lemma max_opt_elem l x : x ∈ l → ∃ m, max_opt l = Some m ∧ x <= m ∧ m ∈ l.
Proof.
  destruct l as [|y l]; [by intros ?%not_elem_of_nil|]. cbn [max_opt]. intros Hx.
  assert (Hg : ∀ a, a <= foldl Z.max a l ∧ (∀ z, z ∈ l → z <= foldl Z.max a l) ∧
    (foldl Z.max a l = a ∨ foldl Z.max a l ∈ l)).
  { clear. induction l as [|z l IH]; intros a; cbn [foldl].
    { split_and!; [lia|by intros ? ?%not_elem_of_nil|by left]. }
    destruct (IH (Z.max a z)) as (H1 & H2 & H3). split_and!; [lia| |].
    - intros z' [->|Hz]%elem_of_cons; [lia|by apply H2].
    - destruct H3 as [->|]; [|right; by right]. destruct (Z.max_spec a z) as [[_ ->]|[_ ->]];
        [right; left|by left]. }
  destruct (Hg y) as (H1 & H2 & H3). eexists. split; [done|]. split.
  - apply elem_of_cons in Hx as [->|Hx]; [done|by apply H2].
  - destruct H3 as [->|]; [left|by right].
Qed.

(** C35. The coordinator loses and reorders nothing: after any sequence of
    append attempts and sweeps, every session holds messages numbered 0 to
    n - 1; an append is accepted exactly for number n and is otherwise refused
    without effect; reading since k returns exactly the messages above k in
    order; and a sweep removes a session whole if and only if it has messages
    and every one of them is older than the time to live, leaving every other
    session untouched. *)
Theorem store_contract ops s : let db := foldl step [] ops in
  let n := length (rows_of s db) in
  seqs s db = Z.of_nat <$> List.seq 0 n ∧
  (∀ now e, session_id e = s →
    append now e db = if decide (seq e = Z.of_nat n) then (db ++ [mkRow e now], Ok tt)
                      else (db, Err (SequenceConflict s (seq e)))) ∧
  (∀ k, since s k db ≡ₚ filter (λ e, default (-1) k < seq e) (envelope <$> rows_of s db) ∧
        StronglySorted Z.le (seq <$> since s k db)) ∧
  (∀ now, rows_of s (sweepExpired now db).1 =
     if decide (n ≠ O ∧ Forall (λ r, created_at r < now - TTL_MS) (rows_of s db)) then [] else rows_of s db).
Proof.
  intros db n. assert (Hc : contiguous db) by (by apply run_contiguous).
  split_and!; [apply Hc| | |].
  - intros now e <-. by apply append_spec.
  - intros k. unfold since. split; [apply order_by_perm|apply order_by_sorted].
  - intros now. unfold sweepExpired. cbn [fst].
    rewrite (rows_of_filter s (expired (now - TTL_MS) db)). unfold n, expired.
    destruct (rows_of s db) as [|r rs] eqn:Hr; [cbn; by case_decide|]. rewrite <- Hr.
    destruct (max_opt_elem (created_at <$> rows_of s db) (created_at r)) as (m & Hmax & _ & Hm).
    { rewrite Hr. left. }
    rewrite Hmax. assert (Hall : (m <? now - TTL_MS) = true ↔ Forall (λ r, created_at r < now - TTL_MS) (rows_of s db)).
    { rewrite Z.ltb_lt, Forall_forall. split.
      - intros Hlt r' Hr'. destruct (max_opt_elem (created_at <$> rows_of s db) (created_at r'))
          as (m' & Hm' & Hle & _); [apply list_elem_of_fmap; eauto|].
        rewrite Hmax in Hm'. injection Hm' as <-. lia.
      - intros Hf. apply list_elem_of_fmap in Hm as (r' & -> & Hr'). by apply Hf. }
    destruct (m <? now - TTL_MS); case_decide as Hd; try done.
    + destruct Hd. split; [by rewrite Hr|]. by apply Hall.
    + destruct Hd as [_ Hf]. by apply Hall in Hf.
Qed.
End Coordinator.
