(* ===== verification/Solana.v ===== *)
(** * Solana accounts and wire format ([packages/sdk/src/solana/])

    [Borsh] is the hand-written encoder and decoder ([borsh.ts]), [Pool] reads
    the pool account ([poolAccounts.ts]) and the program's accessors of the same
    bytes ([programs/kakure_pool/src/state.rs]), [Address] derives the seeds of
    the program's accounts and the field encodings ([pda.ts], [assetId.ts],
    [recipientField.ts], [helpers.rs]).  A public key is its 32 bytes. *)
From S2P Require Import Prelude Bytes.
Local Open Scope Z_scope.

Notation PublicKey := (list Z).

(** ** [borsh.ts] *)
Module Borsh.
Inductive BorshError :=
  (* [RangeError] of [writeUInt32LE] and [writeBigUInt64LE] *)
  | Out_of_range (v : Z)
  | Element_length (n : nat)
  | Unexpected_end (need offset have : nat)
  (* [new PublicKey] of more than 32 bytes *)
  | Invalid_public_key.

(** *** [BorshWriter]: the chunks written so far *)
Definition BorshWriter : Type := list (list Z).
Definition new : BorshWriter := [].
Definition w_u8 (v : Z) (w : BorshWriter) : BorshWriter := w ++ [[Z.land v 255]].
Definition w_u32 (v : Z) (w : BorshWriter) : result BorshError BorshWriter :=
  if (v <? 0) || (2 ^ 32 <=? v) then Err (Out_of_range v) else Ok (w ++ [le_bytes 4 v]).
Definition w_u64 (v : Z) (w : BorshWriter) : result BorshError BorshWriter :=
  if (v <? 0) || (2 ^ 64 <=? v) then Err (Out_of_range v) else Ok (w ++ [le_bytes 8 v]).
Definition w_bool (v : bool) (w : BorshWriter) : BorshWriter := w_u8 (if v then 1 else 0) w.
Definition w_bytes (v : list Z) (w : BorshWriter) : BorshWriter := w ++ [v].
Definition w_pubkey (v : PublicKey) (w : BorshWriter) : BorshWriter := w_bytes v w.
Definition w_vecU8 (v : list Z) (w : BorshWriter) : result BorshError BorshWriter :=
  w ← w_u32 (Z.of_nat (length v)) w; Ok (w_bytes v w).
Fixpoint fixed32_loop (vs : list (list Z)) (w : BorshWriter) : result BorshError BorshWriter :=
  match vs with
  | [] => Ok w
  | v :: vs => if negb (length v =? 32)%nat then Err (Element_length (length v)) else fixed32_loop vs (w_bytes v w)
  end.
Definition w_vecFixed32 (vs : list (list Z)) (w : BorshWriter) : result BorshError BorshWriter :=
  w ← w_u32 (Z.of_nat (length vs)) w; fixed32_loop vs w.
Definition toBuffer (w : BorshWriter) : list Z := concat w.

(** *** [BorshReader] *)
Record BorshReader := mkReader { data : list Z; offset : nat }.
Notation R := (M BorshReader BorshError).
Definition need (n : nat) : R unit := λ r,
  if (length (data r) <? offset r + n)%nat then (r, Err (Unexpected_end n (offset r) (length (data r)))) else (r, Ok tt).
(** The bytes at the offset, which then moves past them. *)
Definition advance (n : nat) : R (list Z) := λ r,
  (mkReader (data r) (offset r + n), Ok (take n (drop (offset r) (data r)))).
Definition r_bytes (n : nat) : R (list Z) := _ ← need n; advance n.
Definition r_u8 : R Z := b ← r_bytes 1; mret (default 0 (b !! 0%nat)).
Definition r_u32 : R Z := b ← r_bytes 4; mret (of_le b).
Definition r_u64 : R Z := b ← r_bytes 8; mret (of_le b).
Definition r_bool : R bool := v ← r_u8; mret (negb (v =? 0)).
Definition r_pubkey : R PublicKey := r_bytes 32.
Definition remaining (r : BorshReader) : nat := (length (data r) - offset r)%nat.

(** *** What is written is read back *)

Inductive Item :=
  | IU8 (v : Z) | IU32 (v : Z) | IU64 (v : Z) | IBool (b : bool) | IBytes (l : list Z) | IPubkey (k : PublicKey).
Definition write (i : Item) (w : BorshWriter) : result BorshError BorshWriter :=
  match i with
  | IU8 v => Ok (w_u8 v w) | IU32 v => w_u32 v w | IU64 v => w_u64 v w | IBool b => Ok (w_bool b w)
  | IBytes l => Ok (w_bytes l w) | IPubkey k => Ok (w_pubkey k w)
  end.
Fixpoint write_all (l : list Item) (w : BorshWriter) : result BorshError BorshWriter :=
  match l with [] => Ok w | i :: l => w ← write i w; write_all l w end.
(** Reading an item of the same kind. *)
Definition read (i : Item) : R Item :=
  match i with
  | IU8 _ => v ← r_u8; mret (IU8 v) | IU32 _ => v ← r_u32; mret (IU32 v) | IU64 _ => v ← r_u64; mret (IU64 v)
  | IBool _ => b ← r_bool; mret (IBool b) | IBytes l => b ← r_bytes (length l); mret (IBytes b)
  | IPubkey _ => k ← r_pubkey; mret (IPubkey k)
  end.
Fixpoint read_all (l : list Item) : R (list Item) :=
  match l with [] => mret [] | i :: l => x ← read i; xs ← read_all l; mret (x :: xs) end.
Definition fits (i : Item) : Prop :=
  match i with
  | IU8 v => is_byte v | IU32 v => 0 <= v < 2 ^ 32 | IU64 v => 0 <= v < 2 ^ 64
  | IBool _ | IBytes _ => True | IPubkey k => length k = 32%nat
  end.
Definition image (i : Item) : list Z :=
  match i with
  | IU8 v => [v] | IU32 v => le_bytes 4 v | IU64 v => le_bytes 8 v | IBool b => [if b then 1 else 0]
  | IBytes l => l | IPubkey k => k
  end.

Lemma land_255 v : is_byte v → Z.land v 255 = v.
Proof. intros Hv. change 255 with (Z.ones 8). rewrite Z.land_ones by lia. by apply Z.mod_small. Qed.
Lemma toBuffer_snoc w l : toBuffer (w ++ [l]) = toBuffer w ++ l.
Proof. unfold toBuffer. rewrite concat_app. simpl. by rewrite app_nil_r. Qed.
Lemma w_u32_Ok v w : 0 <= v < 2 ^ 32 → w_u32 v w = Ok (w ++ [le_bytes 4 v]).
Proof. intros Hv. unfold w_u32. by rewrite (proj2 (Z.ltb_ge _ _)), (proj2 (Z.leb_gt _ _)) by lia. Qed.
Lemma w_u64_Ok v w : 0 <= v < 2 ^ 64 → w_u64 v w = Ok (w ++ [le_bytes 8 v]).
Proof. intros Hv. unfold w_u64. by rewrite (proj2 (Z.ltb_ge _ _)), (proj2 (Z.leb_gt _ _)) by lia. Qed.
Lemma write_fits i w : fits i → ∃ w', write i w = Ok w' ∧ toBuffer w' = toBuffer w ++ image i.
Proof.
  destruct i as [v|v|v|b|l|k]; cbn [fits write image]; intros Hf.
  - eexists. split; [done|]. unfold w_u8. by rewrite toBuffer_snoc, land_255.
  - rewrite w_u32_Ok by done. eexists. split; [done|apply toBuffer_snoc].
  - rewrite w_u64_Ok by done. eexists. split; [done|apply toBuffer_snoc].
  - eexists. split; [done|]. unfold w_bool, w_u8. rewrite toBuffer_snoc. by destruct b.
  - eexists. split; [done|]. apply toBuffer_snoc.
  - eexists. split; [done|]. apply toBuffer_snoc.
Qed.
Lemma write_all_fits l w : Forall fits l → ∃ w', write_all l w = Ok w' ∧ toBuffer w' = toBuffer w ++ concat (image <$> l).
Proof.
  intros Hl. revert w. induction Hl as [|i l Hi _ IH]; intros w; cbn [write_all fmap list_fmap concat].
  { exists w. by rewrite app_nil_r. }
  destruct (write_fits i w Hi) as (w1 & -> & E1). cbn [mbind result_bind].
  destruct (IH w1) as (w2 & -> & E2). exists w2. split; [done|]. by rewrite E2, E1, <- app_assoc.
Qed.

Lemma r_bytes_app pre l post : r_bytes (length l) (mkReader (pre ++ l ++ post) (length pre))
  = (mkReader (pre ++ l ++ post) (length (pre ++ l)), Ok l).
Proof.
  unfold r_bytes, mbind, M_bind, need, advance. cbn [data offset]. rewrite (proj2 (Nat.ltb_ge _ _)) by (rewrite !length_app; lia).
  cbn [data offset]. by rewrite length_app, drop_app_length, firstn_app, firstn_all, Nat.sub_diag, app_nil_r.
Qed.
Lemma read_image i pre post : fits i → read i (mkReader (pre ++ image i ++ post) (length pre))
  = (mkReader (pre ++ image i ++ post) (length (pre ++ image i)), Ok i).
Proof.
  intros Hf. assert (Hb := r_bytes_app pre (image i) post).
  destruct i as [v|v|v|b|l|k]; cbn [fits image read] in *; unfold r_u8, r_u32, r_u64, r_bool, r_pubkey, r_u8, mbind, M_bind;
    rewrite ?length_le_bytes in Hb; cbn [length] in Hb; rewrite ?Hf in Hb; rewrite Hb; try done.
  - by rewrite of_le_le_bytes.
  - by rewrite of_le_le_bytes.
  - by destruct b.
Qed.

(** Borsh round trip: any sequence of values in their ranges is written
    without error, and a reader of the buffer that asks for the same kinds in
    the same order returns the values and has nothing left; a [u32] or [u64]
    out of range is refused, never truncated. *)
Theorem borsh_roundtrip l : Forall fits l →
  ∃ w, write_all l new = Ok w ∧
    ∃ r, read_all l (mkReader (toBuffer w) 0) = (r, Ok l) ∧ remaining r = O ∧
    ∀ v, ~ 0 <= v < 2 ^ 64 → w_u64 v w = Err (Out_of_range v).
Proof.
  intros Hl. destruct (write_all_fits l new Hl) as (w & Hw & E). exists w. split; [done|].
  rewrite E. change (toBuffer new) with (@nil Z). cbn [app].
  assert (Hr : ∀ pre l, Forall fits l → read_all l (mkReader (pre ++ concat (image <$> l)) (length pre))
    = (mkReader (pre ++ concat (image <$> l)) (length (pre ++ concat (image <$> l))), Ok l)).
  { clear. intros pre l Hl. revert pre. induction Hl as [|i l Hi _ IH]; intros pre; cbn [read_all fmap list_fmap concat].
    { by rewrite app_nil_r. }
    unfold mbind at 1, M_bind at 1. rewrite (read_image i pre (concat (image <$> l)) Hi).
    unfold mbind, M_bind. rewrite app_assoc. by rewrite (IH (pre ++ image i)). }
  eexists. split_and!; [exact (Hr [] l Hl)|unfold remaining; cbn; lia|].
  intros v Hv. unfold w_u64. destruct (Z.ltb_spec v 0); [done|]. by rewrite (proj2 (Z.leb_le _ _)) by lia.
Qed.
Lemma borsh_roundtrip_witness : Forall fits [IU8 7; IU64 (2 ^ 64 - 1); IBool true; IBytes [1; 2; 3]] ∧
  ∃ w, write_all [IU8 7; IU64 (2 ^ 64 - 1); IBool true; IBytes [1; 2; 3]] new = Ok w ∧ length (toBuffer w) = 13%nat.
Proof.
  assert (Hf : Forall fits [IU8 7; IU64 (2 ^ 64 - 1); IBool true; IBytes [1; 2; 3]]) by (repeat constructor; cbn; lia).
  split; [exact Hf|]. destruct (borsh_roundtrip _ Hf) as (w & Hw & _). exists w. split; [exact Hw|].
  vm_compute in Hw. injection Hw as <-. reflexivity.
Defined.
End Borsh.

(** ** The pool account: the program's accessors ([state.rs]) *)
Module State.
Definition TREE_DEPTH : Z := 32.
Definition ROOT_RING : Z := 256.
Definition NUM_VERIFIERS : Z := 7.
Definition OFF_AUTHORITY : Z := 0.
Definition OFF_PAUSED : Z := 32.
Definition OFF_COMPLIANCE_VERSION : Z := 33.
Definition OFF_COMPLIANCE_PK_X : Z := 37.
Definition OFF_COMPLIANCE_PK_Y : Z := 69.
Definition OFF_VERIFIERS : Z := 101.
Definition OFF_NEXT_LEAF_INDEX : Z := OFF_VERIFIERS + NUM_VERIFIERS * 32.
Definition OFF_SIDE_NODES : Z := OFF_NEXT_LEAF_INDEX + 8.
Definition OFF_ROOT_CURSOR : Z := OFF_SIDE_NODES + TREE_DEPTH * 32.
Definition OFF_ROOTS : Z := OFF_ROOT_CURSOR + 1.
Definition POOL_LEN : Z := OFF_ROOTS + ROOT_RING * 32.

(** [&data[off..off + len]] and [data[off..off + v.len()].copy_from_slice(v)]. *)
Definition slice (data : list Z) (off len : Z) : list Z := take (Z.to_nat len) (drop (Z.to_nat off) data).
Definition splice (data : list Z) (off : Z) (v : list Z) : list Z :=
  take (Z.to_nat off) data ++ v ++ drop (Z.to_nat off + length v) data.
Definition byte_at (data : list Z) (off : Z) : Z := default 0 (data !! Z.to_nat off).

Definition authority (data : list Z) : PublicKey := slice data OFF_AUTHORITY 32.
Definition paused (data : list Z) : bool := negb (byte_at data OFF_PAUSED =? 0).
Definition compliance_version (data : list Z) : Z := of_le (slice data OFF_COMPLIANCE_VERSION 4).
Definition compliance_pk_x (data : list Z) : list Z := slice data OFF_COMPLIANCE_PK_X 32.
Definition compliance_pk_y (data : list Z) : list Z := slice data OFF_COMPLIANCE_PK_Y 32.
Definition verifier (data : list Z) (circuit_id : Z) : option PublicKey :=
  if NUM_VERIFIERS <=? circuit_id then None else Some (slice data (OFF_VERIFIERS + circuit_id * 32) 32).
Definition next_leaf_index (data : list Z) : Z := of_le (slice data OFF_NEXT_LEAF_INDEX 8).
Definition side_node (data : list Z) (level : Z) : list Z := slice data (OFF_SIDE_NODES + level * 32) 32.
Definition root_cursor (data : list Z) : Z := byte_at data OFF_ROOT_CURSOR.
Definition root_at (data : list Z) (idx : Z) : list Z := slice data (OFF_ROOTS + idx * 32) 32.
Definition set_root_at (data : list Z) (idx : Z) (v : list Z) : list Z := splice data (OFF_ROOTS + idx * 32) v.
Definition set_root_cursor (data : list Z) (v : Z) : list Z := splice data OFF_ROOT_CURSOR [v].
(** [cur.wrapping_add(1)] on a byte. *)
Definition push_root (data : list Z) (root : list Z) : list Z :=
  let cur := root_cursor data in
  let data := set_root_at data cur root in
  set_root_cursor data ((cur + 1) mod 256).

(** *** Reading back what was spliced *)
Lemma splice_length data off v : 0 <= off → off + Z.of_nat (length v) <= Z.of_nat (length data) →
  length (splice data off v) = length data.
Proof. intros Ho Hl. unfold splice. rewrite !length_app, length_take, length_drop. lia. Qed.
Lemma lookup_splice data off v i : 0 <= off → off + Z.of_nat (length v) <= Z.of_nat (length data) →
  splice data off v !! i =
  if decide (off <= Z.of_nat i < off + Z.of_nat (length v)) then v !! (i - Z.to_nat off)%nat else data !! i.
Proof.
  intros Ho Hl. unfold splice. case_decide as Hd.
  - rewrite lookup_app_r by (rewrite length_take; lia). rewrite length_take, lookup_app_l by lia. f_equal. lia.
  - destruct (decide (i < Z.to_nat off)%nat).
    + rewrite lookup_app_l by (rewrite length_take; lia). by rewrite lookup_take_lt by lia.
    + rewrite lookup_app_r by (rewrite length_take; lia). rewrite length_take, lookup_app_r by lia.
      rewrite lookup_drop. f_equal. lia.
Qed.
Lemma lookup_slice data off len i : 0 <= off → 0 <= len →
  slice data off len !! i = if decide (Z.of_nat i < len) then data !! (Z.to_nat off + i)%nat else None.
Proof.
  intros Ho Hl. unfold slice. case_decide.
  - rewrite lookup_take_lt by lia. by rewrite lookup_drop.
  - by rewrite lookup_take_ge by lia.
Qed.
Lemma slice_splice data off v len : len = Z.of_nat (length v) → 0 <= off →
  off + Z.of_nat (length v) <= Z.of_nat (length data) → slice (splice data off v) off len = v.
Proof.
  intros -> Ho Hl. apply list_eq. intros i. rewrite lookup_slice by lia. case_decide.
  - rewrite lookup_splice by done. rewrite decide_True by lia. f_equal. lia.
  - symmetry. apply lookup_ge_None_2. lia.
Qed.
(** A slice that does not meet the bytes written is unchanged. *)
Lemma slice_splice_ne data off v off' len : 0 <= off → off + Z.of_nat (length v) <= Z.of_nat (length data) →
  0 <= off' → 0 <= len → off' + len <= off ∨ off + Z.of_nat (length v) <= off' →
  slice (splice data off v) off' len = slice data off' len.
Proof.
  intros Ho Hl Ho' Hlen Hdis. apply list_eq. intros i. rewrite !lookup_slice by lia. case_decide; [|done].
  rewrite lookup_splice by done. by rewrite decide_False by lia.
Qed.

Lemma byte_at_slice data off : 0 <= off → byte_at data off = default 0 (slice data off 1 !! 0%nat).
Proof. intros Ho. rewrite lookup_slice by lia. rewrite decide_True by lia. unfold byte_at. by rewrite Nat.add_0_r. Qed.

(** *** The ring of roots *)
Section Ring.
Context (data : list Z) (Hlen : Z.of_nat (length data) = POOL_LEN) (Hcur : 0 <= root_cursor data < 256).

Lemma push_root_spec root : length root = 32%nat →
  let data' := push_root data root in
  Z.of_nat (length data') = POOL_LEN ∧ root_cursor data' = (root_cursor data + 1) mod 256 ∧
  root_at data' (root_cursor data) = root ∧
  (∀ i, 0 <= i < 256 → i ≠ root_cursor data → root_at data' i = root_at data i) ∧
  ∀ off len, 0 <= off → 0 <= len → off + len <= 1357 → slice data' off len = slice data off len.
Proof.
  intros Hr. cbv zeta. unfold push_root, set_root_cursor, set_root_at. set (cur := root_cursor data) in *.
  unfold POOL_LEN, OFF_ROOTS, OFF_ROOT_CURSOR, OFF_SIDE_NODES, OFF_NEXT_LEAF_INDEX, OFF_VERIFIERS, NUM_VERIFIERS, TREE_DEPTH, ROOT_RING in *.
  set (d1 := splice data _ root).
  assert (Hl1 : length d1 = length data) by (apply splice_length; rewrite ?Hr; lia).
  assert (Hl2 : ∀ v, length (splice d1 1357 [v]) = length data).
  { intros v. rewrite splice_length; cbn [length]; lia. }
  split_and!.
  - rewrite Hl2. lia.
  - unfold root_cursor, byte_at, OFF_ROOT_CURSOR, OFF_SIDE_NODES, OFF_NEXT_LEAF_INDEX, OFF_VERIFIERS, NUM_VERIFIERS, TREE_DEPTH.
    rewrite lookup_splice by (cbn [length]; lia). rewrite decide_True by (cbn [length]; lia). done.
  - unfold root_at, OFF_ROOTS, OFF_ROOT_CURSOR, OFF_SIDE_NODES, OFF_NEXT_LEAF_INDEX, OFF_VERIFIERS, NUM_VERIFIERS, TREE_DEPTH.
    rewrite slice_splice_ne by (cbn [length]; lia). apply slice_splice; lia.
  - intros i Hi Hne. unfold root_at, OFF_ROOTS, OFF_ROOT_CURSOR, OFF_SIDE_NODES, OFF_NEXT_LEAF_INDEX, OFF_VERIFIERS, NUM_VERIFIERS, TREE_DEPTH.
    rewrite slice_splice_ne by (cbn [length]; lia). apply slice_splice_ne; lia.
  - intros off len Ho Hl Hle. rewrite slice_splice_ne by (cbn [length]; lia). apply slice_splice_ne; lia.
Qed.
End Ring.
End State.

(** ** The client's decoder of the same account ([poolAccounts.ts]) *)
Module PoolAccounts.
Inductive PoolError := Pool_length (n : nat) | Root_length (n : nat) | No_such_slot (idx : Z).

Definition TREE_DEPTH : Z := 32.
Definition ROOT_RING : Z := 256.
Definition NUM_VERIFIERS : Z := 7.
Definition OFF_AUTHORITY : Z := 0.
Definition OFF_PAUSED : Z := 32.
Definition OFF_COMPLIANCE_VERSION : Z := 33.
Definition OFF_COMPLIANCE_PK_X : Z := 37.
Definition OFF_COMPLIANCE_PK_Y : Z := 69.
Definition OFF_VERIFIERS : Z := 101.
Definition OFF_NEXT_LEAF_INDEX : Z := OFF_VERIFIERS + NUM_VERIFIERS * 32.
Definition OFF_SIDE_NODES : Z := OFF_NEXT_LEAF_INDEX + 8.
Definition OFF_ROOT_CURSOR : Z := OFF_SIDE_NODES + TREE_DEPTH * 32.
Definition OFF_ROOTS : Z := OFF_ROOT_CURSOR + 1.
Definition POOL_LEN : Z := OFF_ROOTS + ROOT_RING * 32.

Record PoolAccount := mkPool {
  p_authority : PublicKey; p_paused : bool; p_complianceVersion : Z;
  p_compliancePkX : list Z; p_compliancePkY : list Z; p_verifiers : list PublicKey;
  p_nextLeafIndex : Z; p_sideNodes : list (list Z); p_rootCursor : Z; p_roots : list (list Z) }.

(** [data.subarray(offset, offset + 32)]. *)
Definition slice32 (data : list Z) (offset : Z) : list Z := take 32 (drop (Z.to_nat offset) data).
(** The fields of the returned account. *)
Definition pool_fields (data : list Z) : PoolAccount :=
  let byte off := default 0 (data !! Z.to_nat off) in
  mkPool
    (slice32 data OFF_AUTHORITY)
    (negb (byte OFF_PAUSED =? 0))
    (of_le (take 4 (drop (Z.to_nat OFF_COMPLIANCE_VERSION) data)))
    (slice32 data OFF_COMPLIANCE_PK_X)
    (slice32 data OFF_COMPLIANCE_PK_Y)
    ((λ i, slice32 data (OFF_VERIFIERS + i * 32)) <$> seqZ 0 NUM_VERIFIERS)
    (of_le (take 8 (drop (Z.to_nat OFF_NEXT_LEAF_INDEX) data)))
    ((λ level, slice32 data (OFF_SIDE_NODES + level * 32)) <$> seqZ 0 TREE_DEPTH)
    (byte OFF_ROOT_CURSOR)
    ((λ i, slice32 data (OFF_ROOTS + i * 32)) <$> seqZ 0 ROOT_RING).
Definition decodePool (data : list Z) : result PoolError PoolAccount :=
  if negb (Z.of_nat (length data) =? POOL_LEN) then Err (Pool_length (length data)) else Ok (pool_fields data).

Definition isKnownRoot (pool : PoolAccount) (root : list Z) : result PoolError bool :=
  if negb (length root =? 32)%nat then Err (Root_length (length root))
  else Ok (existsb (λ r, bool_decide (r = root)) (p_roots pool)).

(** The steps back from the cursor: [None] when the loop ends. *)
Fixpoint ring_loop (steps : nat) (step : Z) (pool : PoolAccount) (target : list Z) : result PoolError (option Z) :=
  match steps with
  | O => Ok None
  | S steps =>
      let idx := Z.rem (p_rootCursor pool - 1 - step + ROOT_RING * 2) ROOT_RING in
      match p_roots pool !! Z.to_nat idx with
      | None => Err (No_such_slot idx)
      | Some r => if bool_decide (r = target) then Ok (Some idx) else ring_loop steps (step + 1) pool target
      end
  end.
Definition rootIndexFor (pool : PoolAccount) (root : list Z) : result PoolError (option Z) :=
  if negb (length root =? 32)%nat then Err (Root_length (length root))
  else ring_loop (Z.to_nat ROOT_RING) 0 pool root.

(** *** The client reads what the program reads *)
Lemma lookup_ring {A} (f : Z → A) n i : 0 <= i < n → (f <$> seqZ 0 n) !! Z.to_nat i = Some (f i).
Proof. intros Hi. rewrite list_lookup_fmap, lookup_seqZ_lt by lia. cbn. f_equal. f_equal. lia. Qed.
Lemma decodePool_spec data p : decodePool data = Ok p →
  Z.of_nat (length data) = State.POOL_LEN ∧
  p_authority p = State.authority data ∧ p_paused p = State.paused data ∧
  p_complianceVersion p = State.compliance_version data ∧
  p_compliancePkX p = State.compliance_pk_x data ∧ p_compliancePkY p = State.compliance_pk_y data ∧
  p_nextLeafIndex p = State.next_leaf_index data ∧ p_rootCursor p = State.root_cursor data ∧
  (∀ i, 0 <= i < 256 → p_roots p !! Z.to_nat i = Some (State.root_at data i)) ∧
  (∀ i, 0 <= i < 7 → Some (default [] (p_verifiers p !! Z.to_nat i)) = State.verifier data i) ∧
  ∀ i, 0 <= i < 32 → p_sideNodes p !! Z.to_nat i = Some (State.side_node data i).
Proof.
  unfold decodePool. destruct (Z.eqb_spec (Z.of_nat (length data)) POOL_LEN) as [E|]; cbn [negb]; [|done].
  intros Hp. assert (p = pool_fields data) as -> by congruence. clear Hp.
  do 8 (split; [done|]). split; [|split]; intros i Hi; unfold pool_fields;
    cbn [p_roots p_verifiers p_sideNodes]; rewrite lookup_ring by done; [done| |done].
  unfold State.verifier. by rewrite (proj2 (Z.leb_gt _ _)) by (unfold State.NUM_VERIFIERS; lia).
Qed.

(** The slot that was written [age] pushes before the cursor. *)
Definition slot (cursor age : Z) : Z := (cursor - 1 - age) mod 256.
Lemma slot_bound cursor age : 0 <= slot cursor age < 256.
Proof. apply Z.mod_pos_bound. lia. Qed.
Lemma slot_index cursor age : 0 <= cursor < 256 → 0 <= age < 256 →
  Z.rem (cursor - 1 - age + ROOT_RING * 2) ROOT_RING = slot cursor age.
Proof.
  intros Hc Ha. unfold ROOT_RING, slot. rewrite Z.rem_mod_nonneg by lia.
  change (256 * 2) with (2 * 256). by rewrite Z.mod_add by lia.
Qed.
Lemma slot_inj cursor a b : 0 <= a < 256 → 0 <= b < 256 → slot cursor a = slot cursor b → a = b.
Proof.
  intros Ha Hb E. unfold slot in E. apply (f_equal (λ x, (cursor - 1 - x) mod 256)) in E.
  rewrite !Zminus_mod_idemp_r in E. replace (cursor - 1 - (cursor - 1 - a)) with a in E by lia.
  replace (cursor - 1 - (cursor - 1 - b)) with b in E by lia. by rewrite !Z.mod_small in E by lia.
Qed.
Lemma slot_all cursor i : 0 <= cursor < 256 → 0 <= i < 256 → ∃ age, 0 <= age < 256 ∧ slot cursor age = i.
Proof.
  intros Hc Hi. exists ((cursor - 1 - i) mod 256). split; [apply Z.mod_pos_bound; lia|]. unfold slot.
  rewrite Zminus_mod_idemp_r. replace (cursor - 1 - (cursor - 1 - i)) with i by lia. by apply Z.mod_small.
Qed.

Lemma ring_loop_spec data p target steps step : decodePool data = Ok p → 0 <= State.root_cursor data < 256 →
  0 <= step → step + Z.of_nat steps <= 256 →
  match ring_loop steps step p target with
  | Ok (Some idx) => ∃ age, step <= age < step + Z.of_nat steps ∧ idx = slot (State.root_cursor data) age ∧
      State.root_at data idx = target ∧
      ∀ a, step <= a < age → State.root_at data (slot (State.root_cursor data) a) ≠ target
  | Ok None => ∀ a, step <= a < step + Z.of_nat steps → State.root_at data (slot (State.root_cursor data) a) ≠ target
  | Err _ => False
  end.
Proof.
  intros Hp Hc. destruct (decodePool_spec _ _ Hp) as (_ & _ & _ & _ & _ & _ & _ & Ec & Hroots & _). revert step.
  induction steps as [|steps IH]; intros step Hs Hb; cbn [ring_loop]; [intros a Ha; lia|].
  rewrite Ec, slot_index by lia. rewrite Hroots by apply slot_bound. case_bool_decide as E.
  - exists step. split_and!; [lia|lia|done|done|intros a Ha; lia].
  - specialize (IH (step + 1) ltac:(lia) ltac:(lia)). destruct (ring_loop steps (step + 1) p target) as [[idx|]|].
    + destruct IH as (age & Ha & Hi & Hr & Hy). exists age. split_and!; [lia|lia|done|done|].
      intros a Ha'. destruct (decide (a = step)) as [->|]; [done|apply Hy; lia].
    + intros a Ha. destruct (decide (a = step)) as [->|]; [done|apply IH; lia].
    + done.
Qed.

(** Pushing fewer roots than the slot is young leaves it alone. *)
Lemma push_survives roots data age : Forall (λ r, length r = 32%nat) roots →
  Z.of_nat (length data) = State.POOL_LEN → 0 <= State.root_cursor data < 256 →
  0 <= age → age + Z.of_nat (length roots) < 256 →
  let data' := foldl State.push_root data roots in
  State.root_at data' (slot (State.root_cursor data) age) = State.root_at data (slot (State.root_cursor data) age) ∧
  ∀ off len, 0 <= off → 0 <= len → off + len <= 1357 → State.slice data' off len = State.slice data off len.
Proof.
  intros Hr. revert data age. induction Hr as [|root roots Hr _ IH]; intros data age Hl Hc Ha Hn; cbn [foldl]; [done|].
  cbn [length] in Hn. destruct (State.push_root_spec data Hl Hc root Hr) as (Hl1 & Hc1 & _ & Hne & Hlow).
  destruct (IH (State.push_root data root) (age + 1) Hl1) as (E1 & E2); [rewrite Hc1; apply Z.mod_pos_bound; lia|lia|lia|].
  assert (Es : slot (State.root_cursor (State.push_root data root)) (age + 1) = slot (State.root_cursor data) age).
  { rewrite Hc1. unfold slot. rewrite <- Z.sub_add_distr, Zminus_mod_idemp_l. f_equal. lia. }
  rewrite Es in E1. split; [|intros off len ? ? ?; rewrite E2 by done; by apply Hlow]. rewrite E1. apply Hne; [apply slot_bound|].
  (* the cursor is the slot of age 255 + 1 *)
  intros E. assert (E' : slot (State.root_cursor data) age = slot (State.root_cursor data) 255).
  { rewrite E. unfold slot. replace (State.root_cursor data - 1 - 255) with (State.root_cursor data + (-1) * 256) by lia.
    rewrite Z.mod_add by lia. by rewrite Z.mod_small. }
  apply slot_inj in E'; lia.
Qed.
End PoolAccounts.

(** ** Account addresses and field encodings ([pda.ts], [assetId.ts], [recipientField.ts]) *)

(** What [@solana/web3.js] provides. *)
Record AccountMeta := mkMeta { pubkey : PublicKey; isSigner : bool; isWritable : bool }.
Record TransactionInstruction := mkIx { programId : PublicKey; keys : list AccountMeta; ix_data : list Z }.
Class Web3 := {
  findProgramAddressSync : list (list Z) → PublicKey → PublicKey * Z;
  fromBase58 : string → PublicKey;
  systemProgramId : PublicKey;
  setComputeUnitLimit : Z → TransactionInstruction;
}.
(** [sha256], 32 bytes. *)
Class Sha256 := sha256 : list Z → list Z.
Class Sha256Laws `{Sha256} : Prop := sha256_digest l : length (sha256 l) = 32%nat ∧ Forall is_byte (sha256 l).

(** [TextEncoder.encode], [Buffer.from(text)] of ASCII text. *)
Definition text_bytes (s : string) : list Z := (λ c, Z.of_N (N_of_ascii c)) <$> String.list_ascii_of_string s.

Module Address.
Inductive SeedError := Asset_length (n : nat) | Nullifier_length (n : nat).
Section Address.
Context `{Web3} `{Sha256}.

Definition poolPda (programId : PublicKey) : PublicKey * Z := findProgramAddressSync [text_bytes "pool"] programId.
Definition assetPda (programId : PublicKey) (assetIdBytes : list Z) : result SeedError (PublicKey * Z) :=
  if negb (length assetIdBytes =? 20)%nat then Err (Asset_length (length assetIdBytes))
  else Ok (findProgramAddressSync [text_bytes "asset"; assetIdBytes] programId).
Definition nullifierPda (programId : PublicKey) (nullifierBytes : list Z) : result SeedError (PublicKey * Z) :=
  if negb (length nullifierBytes =? 32)%nat then Err (Nullifier_length (length nullifierBytes))
  else Ok (findProgramAddressSync [text_bytes "nullifier"; nullifierBytes] programId).
Definition BPF_LOADER_UPGRADEABLE_PROGRAM_ID : PublicKey := fromBase58 "BPFLoaderUpgradeab1e11111111111111111111111".
Definition programDataAddress (programId : PublicKey) : PublicKey * Z :=
  findProgramAddressSync [programId] BPF_LOADER_UPGRADEABLE_PROGRAM_ID.

Definition ASSET_DOMAIN : list Z := text_bytes "kakure.asset.v1".
Definition assetId (mint : PublicKey) : list Z := take 20 (sha256 (ASSET_DOMAIN ++ mint)).
Definition RECIPIENT_DOMAIN : list Z := text_bytes "kakure.recipient.v1".
Definition recipientField (destinationTokenAccount : PublicKey) : list Z :=
  let digest := sha256 (RECIPIENT_DOMAIN ++ destinationTokenAccount) in
  <[0%nat := 0]> digest.

(** *** The program's encodings ([helpers.rs]) *)
Definition asset_id_bytes (mint : PublicKey) : list Z := take 20 (sha256 (text_bytes "kakure.asset.v1" ++ mint)).
Definition asset_id_field (mint : PublicKey) : list Z := replicate 12 0 ++ asset_id_bytes mint.
Definition recipient_field (destination : PublicKey) : list Z :=
  <[0%nat := 0]> (sha256 (text_bytes "kakure.recipient.v1" ++ destination)).

Context {HL : Sha256Laws}.

Lemma of_be_app_bound a b k : Forall is_byte b → of_be a = 0 → length b = k → 0 <= of_be (a ++ b) < 256 ^ Z.of_nat k.
Proof. intros Hb Ha <-. rewrite of_be_app, Ha. pose proof (of_be_bound b Hb). lia. Qed.

(** The field inputs that the program recomputes: the wallet's recipient
    encoding is the program's, and it is a 32-byte canonical field element
    whatever the account; the wallet's asset id, as the field the circuits
    take, is the program's and fits 160 bits. *)
Theorem field_encodings account mint :
  recipientField account = recipient_field account ∧
  length (recipientField account) = 32%nat ∧ 0 <= of_be (recipientField account) < BN254_SCALAR_FIELD_MODULUS ∧
  replicate 12 0 ++ assetId mint = asset_id_field mint ∧
  length (asset_id_field mint) = 32%nat ∧ 0 <= of_be (asset_id_field mint) < 2 ^ 160.
Proof.
  split; [done|]. destruct (sha256_digest (RECIPIENT_DOMAIN ++ account)) as [Hl Hb].
  split; [unfold recipientField; by rewrite length_insert|]. split; [|split; [done|]].
  - unfold recipientField. destruct (sha256 (RECIPIENT_DOMAIN ++ account)) as [|b0 l]; [done|].
    cbn [list_insert insert]. apply Forall_cons in Hb as [_ Hb]. cbn [length] in Hl. injection Hl as Hl.
    pose proof (of_be_app_bound [0] l 31 Hb eq_refl Hl) as Hb'. cbn [app] in Hb'. unfold BN254_SCALAR_FIELD_MODULUS. lia.
  - destruct (sha256_digest (text_bytes "kakure.asset.v1" ++ mint)) as [Hl' Hb'].
    assert (Hlen : length (asset_id_bytes mint) = 20%nat) by (unfold asset_id_bytes; rewrite length_take; lia).
    split; [unfold asset_id_field; rewrite length_app, length_replicate; lia|].
    unfold asset_id_field. change (2 ^ 160) with (256 ^ Z.of_nat 20). apply of_be_app_bound; [by apply Forall_take|done|done].
Qed.
End Address.
End Address.

(** A digest for the witnesses. *)
Module ShaWitness.
#[export] Instance toy_sha : Sha256 := λ l, be_bytes 32 (foldl (λ acc b, (acc * 31 + b) mod 2 ^ 256) 7 l).
#[export] Instance toy_sha_laws : Sha256Laws.
Proof. intros l. split; [apply length_be_bytes|apply be_bytes_bytes]. Qed.

Lemma field_encodings_witness :
  of_be (Address.recipientField (replicate 32 9)) < BN254_SCALAR_FIELD_MODULUS ∧
  Address.recipientField (replicate 32 9) ≠ sha256 (Address.RECIPIENT_DOMAIN ++ replicate 32 9).
Proof.
  destruct (Address.field_encodings (replicate 32 9) (replicate 32 5)) as (_ & _ & [_ Hlt] & _).
  split; [exact Hlt|]. vm_compute. discriminate.
Defined.
End ShaWitness.
