(* ===== verification/TxBuilder.v ===== *)
(** * Instructions of the pool program ([solana/txBuilder.ts], [tx/ports.ts],
    [programs/kakure_pool])

    [TxBuilder] builds every instruction from a proof bundle; [Program] is the
    program's Borsh decoding of its instruction type; [Wire] shows what is written
    and read.  The handlers of the program are in [Pool.v]. *)
From S2P Require Import Prelude Bytes Solana.
Local Open Scope Z_scope.

(** ** [tx/ports.ts] *)
Inductive CircuitId :=
  | Deposit | Transfer | Withdraw | TransferMultisig | SplitMultisig | JoinMultisig | WithdrawMultisig.
#[export] Instance CircuitId_eq_dec : EqDecision CircuitId.
Proof. solve_decision. Defined.
(** The number of the enum. *)
Definition circuit_number (c : CircuitId) : Z :=
  match c with
  | Deposit => 0 | Transfer => 1 | Withdraw => 2 | TransferMultisig => 3 | SplitMultisig => 4 | JoinMultisig => 5
  | WithdrawMultisig => 6
  end.
Definition PUBLIC_INPUT_COUNT (c : CircuitId) : nat :=
  match c with
  | Deposit => 13 | Transfer => 24 | Withdraw => 17 | TransferMultisig => 24 | SplitMultisig => 22 | JoinMultisig => 14
  | WithdrawMultisig => 17
  end.
Record ProofBundle := mkBundle { circuitId : CircuitId; proof : list Z; publicInputs : list (list Z) }.

(** ** [txBuilder.ts] *)
Module TxBuilder.
Import Borsh PoolAccounts Address.

Inductive TxError :=
  | Public_input_count (c : CircuitId) (n : nat) | Public_input_length (n : nat) | Proof_length (c : CircuitId) (n : nat)
  | No_root (c : CircuitId) | Root_missing (at_ : nat) | RootNotInRingError (c : CircuitId)
  | Circuit_mismatch
  | Compliance_length | Verifier_count (n : nat) | Genesis_length (n : nat)
  | Borsh_error (e : BorshError) | Pool_error (e : PoolError).

Definition COMPRESSED_PROOF_LEN : nat := 192.
Record PublicInputLayout := mkLayout { stripIndices : list nat; rootIndexAt : option nat }.
Definition LAYOUT (c : CircuitId) : PublicInputLayout :=
  match c with
  | Deposit => mkLayout [0; 1]%nat None
  | Transfer | TransferMultisig | SplitMultisig => mkLayout [0; 1; 3]%nat (Some 3%nat)
  | JoinMultisig => mkLayout [0; 1; 4]%nat (Some 4%nat)
  | Withdraw | WithdrawMultisig => mkLayout [3; 4; 6]%nat (Some 6%nat)
  end.
(** [inputs.filter((_, i) => !remove.has(i))], the first input being number [i]. *)
Fixpoint strip (remove : list nat) (i : nat) (inputs : list (list Z)) : list (list Z) :=
  match inputs with
  | [] => []
  | x :: inputs => if bool_decide (i ∈ remove) then strip remove (S i) inputs else x :: strip remove (S i) inputs
  end.
Definition wirePublicInputs (bundle : ProofBundle) : list (list Z) :=
  strip (stripIndices (LAYOUT (circuitId bundle))) 0 (publicInputs bundle).
Definition resolveRootIndex (bundle : ProofBundle) (pool : PoolAccount) : result TxError Z :=
  match rootIndexAt (LAYOUT (circuitId bundle)) with
  | None => Err (No_root (circuitId bundle))
  | Some at_ =>
      match publicInputs bundle !! at_ with
      | None => Err (Root_missing at_)
      | Some root =>
          idx ← map_err Pool_error (rootIndexFor pool root);
          match idx with None => Err (RootNotInRingError (circuitId bundle)) | Some idx => Ok idx end
      end
  end.

Definition KAKURE_COMPUTE_UNIT_LIMIT : Z := 1400000.
Fixpoint check_words (words : list (list Z)) : result TxError unit :=
  match words with
  | [] => Ok tt
  | w :: words => if negb (length w =? 32)%nat then Err (Public_input_length (length w)) else check_words words
  end.
Definition assertPublicInputs (bundle : ProofBundle) : result TxError unit :=
  if negb (length (publicInputs bundle) =? PUBLIC_INPUT_COUNT (circuitId bundle))%nat
  then Err (Public_input_count (circuitId bundle) (length (publicInputs bundle)))
  else check_words (publicInputs bundle).
Definition assertCompressedProof (bundle : ProofBundle) : result TxError (list Z) :=
  if negb (length (proof bundle) =? COMPRESSED_PROOF_LEN)%nat
  then Err (Proof_length (circuitId bundle) (length (proof bundle))) else Ok (proof bundle).
Definition writeProofAndWireInputs (w : BorshWriter) (bundle : ProofBundle) : result TxError BorshWriter :=
  _ ← assertPublicInputs bundle;
  p ← assertCompressedProof bundle;
  map_err Borsh_error (w_vecFixed32 (wirePublicInputs bundle) (w_bytes p w)).

(** [IxTag]. *)
Definition tag_Initialize : Z := 0.
Definition tag_SetVerifier : Z := 1.
Definition tag_RotateComplianceKey : Z := 2.
Definition tag_SetPaused : Z := 3.
Definition tag_Deposit : Z := 4.
Definition tag_Transfer : Z := 5.
Definition tag_TransferMultisig : Z := 6.
Definition tag_SplitMultisig : Z := 7.
Definition tag_JoinMultisig : Z := 8.
Definition tag_Withdraw : Z := 9.
Definition tag_WithdrawMultisig : Z := 10.

Record InitializeArgs := mkInitArgs { i_compliancePkX : list Z; i_compliancePkY : list Z; i_verifiers : list PublicKey; i_genesisLeaf : list Z }.
Record InitializeAccounts := mkInitAccounts { ia_authority : PublicKey; ia_programData : PublicKey }.
Record AdminAccounts := mkAdminAccounts { aa_pool : PublicKey; aa_authority : PublicKey }.
Record DepositAccounts := mkDepositAccounts {
  da_pool : PublicKey; da_asset : PublicKey; da_mint : PublicKey; da_vault : PublicKey;
  da_depositorTokenAccount : PublicKey; da_depositor : PublicKey; da_verifierProgram : PublicKey;
  da_tokenProgram : option PublicKey; da_associatedTokenProgram : option PublicKey }.
Record SpendAccounts := mkSpendAccounts {
  sa_pool : PublicKey; sa_nullifier : PublicKey; sa_payer : PublicKey; sa_verifierProgram : PublicKey }.
Record JoinMultisigAccounts := mkJoinAccounts {
  ja_pool : PublicKey; ja_nullifierA : PublicKey; ja_nullifierB : PublicKey; ja_payer : PublicKey; ja_verifierProgram : PublicKey }.
Record WithdrawAccounts := mkWithdrawAccounts {
  wa_pool : PublicKey; wa_asset : PublicKey; wa_mint : PublicKey; wa_nullifier : PublicKey; wa_vault : PublicKey;
  wa_destinationTokenAccount : PublicKey; wa_payer : PublicKey; wa_verifierProgram : PublicKey;
  wa_tokenProgram : option PublicKey }.

Section TxBuilder.
Context `{Web3} (program : PublicKey).
Notation T := (result TxError).

Definition TOKEN_PROGRAM_ID : PublicKey := fromBase58 "TokenkegQfeZyiNwAJbNbGKPFXCWuBvf9Ss623VQ5DA".
Definition ASSOCIATED_TOKEN_PROGRAM_ID : PublicKey := fromBase58 "ATokenGPvbdGVxr1b2hvZbsiqW5xWH25efTNsLJA8knL".
Definition computeBudgetIx : TransactionInstruction := setComputeUnitLimit KAKURE_COMPUTE_UNIT_LIMIT.
Definition poolAddress : PublicKey := (poolPda program).1.
Definition ix (data : BorshWriter) (keys : list AccountMeta) : TransactionInstruction := mkIx program keys (toBuffer data).

Definition initialize (args : InitializeArgs) (accounts : InitializeAccounts) : T (list TransactionInstruction) :=
  if negb (length (i_compliancePkX args) =? 32)%nat || negb (length (i_compliancePkY args) =? 32)%nat
  then Err Compliance_length
  else if negb (length (i_verifiers args) =? 7)%nat then Err (Verifier_count (length (i_verifiers args)))
  else if negb (length (i_genesisLeaf args) =? 32)%nat then Err (Genesis_length (length (i_genesisLeaf args)))
  else
    let w := w_bytes (i_compliancePkY args) (w_bytes (i_compliancePkX args) (w_u8 tag_Initialize new)) in
    let w := foldl (λ w v, w_pubkey v w) w (i_verifiers args) in
    let w := w_bytes (i_genesisLeaf args) w in
    Ok [computeBudgetIx; ix w [
      mkMeta (ia_authority accounts) true true;
      mkMeta poolAddress false true;
      mkMeta (ia_programData accounts) false false;
      mkMeta systemProgramId false false]].
Definition setVerifier (circuitId : CircuitId) (verifierProgram : PublicKey) (accounts : AdminAccounts) : TransactionInstruction :=
  ix (w_pubkey verifierProgram (w_u8 (circuit_number circuitId) (w_u8 tag_SetVerifier new)))
    [mkMeta (aa_authority accounts) true false; mkMeta (aa_pool accounts) false true].
Definition rotateComplianceKey (x y : list Z) (accounts : AdminAccounts) : T TransactionInstruction :=
  if negb (length x =? 32)%nat || negb (length y =? 32)%nat then Err Compliance_length
  else Ok (ix (w_bytes y (w_bytes x (w_u8 tag_RotateComplianceKey new)))
    [mkMeta (aa_authority accounts) true false; mkMeta (aa_pool accounts) false true]).
Definition setPaused (paused : bool) (accounts : AdminAccounts) : TransactionInstruction :=
  ix (w_bool paused (w_u8 tag_SetPaused new))
    [mkMeta (aa_authority accounts) true false; mkMeta (aa_pool accounts) false true].

Definition deposit (bundle : ProofBundle) (amount : Z) (accounts : DepositAccounts) : T (list TransactionInstruction) :=
  if negb (bool_decide (circuitId bundle = Deposit)) then Err Circuit_mismatch
  else
    w ← writeProofAndWireInputs (w_u8 tag_Deposit new) bundle;
    w ← map_err Borsh_error (w_u64 amount w);
    Ok [computeBudgetIx; ix w [
      mkMeta (da_depositor accounts) true true;
      mkMeta (da_pool accounts) false true;
      mkMeta (da_asset accounts) false true;
      mkMeta (da_mint accounts) false false;
      mkMeta (da_vault accounts) false true;
      mkMeta (da_depositorTokenAccount accounts) false true;
      mkMeta (default TOKEN_PROGRAM_ID (da_tokenProgram accounts)) false false;
      mkMeta (default ASSOCIATED_TOKEN_PROGRAM_ID (da_associatedTokenProgram accounts)) false false;
      mkMeta systemProgramId false false;
      mkMeta (da_verifierProgram accounts) false false]].

Definition spendLike (tag : Z) (circuit : CircuitId) (bundle : ProofBundle) (accounts : SpendAccounts) (pool : PoolAccount) :
    T (list TransactionInstruction) :=
  if negb (bool_decide (circuitId bundle = circuit)) then Err Circuit_mismatch
  else
    rootIndex ← resolveRootIndex bundle pool;
    w ← writeProofAndWireInputs (w_u8 tag new) bundle;
    let w := w_u8 rootIndex w in
    Ok [computeBudgetIx; ix w [
      mkMeta (sa_payer accounts) true true;
      mkMeta (sa_pool accounts) false true;
      mkMeta (sa_nullifier accounts) false true;
      mkMeta systemProgramId false false;
      mkMeta (sa_verifierProgram accounts) false false]].
Definition transfer (bundle : ProofBundle) (accounts : SpendAccounts) (pool : PoolAccount) :=
  spendLike tag_Transfer Transfer bundle accounts pool.
Definition transferMultisig (bundle : ProofBundle) (accounts : SpendAccounts) (pool : PoolAccount) :=
  spendLike tag_TransferMultisig TransferMultisig bundle accounts pool.
Definition splitMultisig (bundle : ProofBundle) (accounts : SpendAccounts) (pool : PoolAccount) :=
  spendLike tag_SplitMultisig SplitMultisig bundle accounts pool.

Definition joinMultisig (bundle : ProofBundle) (accounts : JoinMultisigAccounts) (pool : PoolAccount) :
    T (list TransactionInstruction) :=
  if negb (bool_decide (circuitId bundle = JoinMultisig)) then Err Circuit_mismatch
  else
    rootIndex ← resolveRootIndex bundle pool;
    w ← writeProofAndWireInputs (w_u8 tag_JoinMultisig new) bundle;
    let w := w_u8 rootIndex w in
    Ok [computeBudgetIx; ix w [
      mkMeta (ja_payer accounts) true true;
      mkMeta (ja_pool accounts) false true;
      mkMeta (ja_nullifierA accounts) false true;
      mkMeta (ja_nullifierB accounts) false true;
      mkMeta systemProgramId false false;
      mkMeta (ja_verifierProgram accounts) false false]].

Definition withdrawLike (tag : Z) (circuit : CircuitId) (bundle : ProofBundle) (amount : Z) (accounts : WithdrawAccounts)
    (pool : PoolAccount) : T (list TransactionInstruction) :=
  if negb (bool_decide (circuitId bundle = circuit)) then Err Circuit_mismatch
  else
    rootIndex ← resolveRootIndex bundle pool;
    w ← writeProofAndWireInputs (w_u8 tag new) bundle;
    w ← map_err Borsh_error (w_u64 amount w);
    let w := w_u8 rootIndex w in
    Ok [computeBudgetIx; ix w [
      mkMeta (wa_payer accounts) true true;
      mkMeta (wa_pool accounts) false true;
      mkMeta (wa_nullifier accounts) false true;
      mkMeta (wa_asset accounts) false false;
      mkMeta (wa_mint accounts) false false;
      mkMeta (wa_vault accounts) false true;
      mkMeta (wa_destinationTokenAccount accounts) false true;
      mkMeta (default TOKEN_PROGRAM_ID (wa_tokenProgram accounts)) false false;
      mkMeta systemProgramId false false;
      mkMeta (wa_verifierProgram accounts) false false]].
Definition withdraw (bundle : ProofBundle) (amount : Z) (accounts : WithdrawAccounts) (pool : PoolAccount) :=
  withdrawLike tag_Withdraw Withdraw bundle amount accounts pool.
Definition withdrawMultisig (bundle : ProofBundle) (amount : Z) (accounts : WithdrawAccounts) (pool : PoolAccount) :=
  withdrawLike tag_WithdrawMultisig WithdrawMultisig bundle amount accounts pool.
End TxBuilder.
End TxBuilder.

(** ** What the program decodes ([instruction.rs]) *)
Module Program.

Inductive PoolInstruction :=
  | I_Initialize (compliance_pk_x compliance_pk_y : list Z) (verifiers : list PublicKey) (genesis_leaf : list Z)
  | I_SetVerifier (circuit_id : Z) (program : PublicKey)
  | I_RotateComplianceKey (x y : list Z)
  | I_SetPaused (paused : bool)
  | I_Deposit (proof : list Z) (public_inputs : list (list Z)) (amount : Z)
  | I_Transfer (proof : list Z) (public_inputs : list (list Z)) (root_index : Z)
  | I_TransferMultisig (proof : list Z) (public_inputs : list (list Z)) (root_index : Z)
  | I_SplitMultisig (proof : list Z) (public_inputs : list (list Z)) (root_index : Z)
  | I_JoinMultisig (proof : list Z) (public_inputs : list (list Z)) (root_index : Z)
  | I_Withdraw (proof : list Z) (public_inputs : list (list Z)) (amount root_index : Z)
  | I_WithdrawMultisig (proof : list Z) (public_inputs : list (list Z)) (amount root_index : Z)
  | I_VerifyOnly (circuit_id : Z) (proof : list Z) (public_inputs : list (list Z)).

(** *** Borsh decoding: a value and the bytes after it *)
Definition D (A : Type) : Type := list Z → option (A * list Z).
#[export] Instance D_ret : MRet D := λ A a l, Some (a, l).
#[export] Instance D_bind : MBind D := λ A B f m l, '(a, l) ← m l; f a l.
Definition d_array (n : nat) : D (list Z) := λ l, if (length l <? n)%nat then None else Some (take n l, drop n l).
Definition d_u8 : D Z := λ l, match l with [] => None | b :: l => Some (b, l) end.
Definition d_u32 : D Z := b ← d_array 4; mret (of_le b).
Definition d_u64 : D Z := b ← d_array 8; mret (of_le b).
Definition d_fail {A} : D A := λ _, None.
Definition d_bool : D bool := b ← d_u8; if b =? 0 then mret false else if b =? 1 then mret true else d_fail.
Fixpoint d_repeat (n : nat) : D (list (list Z)) :=
  match n with O => mret [] | S n => x ← d_array 32; xs ← d_repeat n; mret (x :: xs) end.
Definition d_vec32 : D (list (list Z)) := n ← d_u32; d_repeat (Z.to_nat n).
Definition d_proof : D (list Z) := d_array 192.

Definition d_instruction : D PoolInstruction :=
  tag ← d_u8;
  if tag =? 0 then x ← d_array 32; y ← d_array 32; v ← d_repeat 7; g ← d_array 32; mret (I_Initialize x y v g)
  else if tag =? 1 then c ← d_u8; p ← d_array 32; mret (I_SetVerifier c p)
  else if tag =? 2 then x ← d_array 32; y ← d_array 32; mret (I_RotateComplianceKey x y)
  else if tag =? 3 then p ← d_bool; mret (I_SetPaused p)
  else if tag =? 4 then p ← d_proof; i ← d_vec32; a ← d_u64; mret (I_Deposit p i a)
  else if tag =? 5 then p ← d_proof; i ← d_vec32; r ← d_u8; mret (I_Transfer p i r)
  else if tag =? 6 then p ← d_proof; i ← d_vec32; r ← d_u8; mret (I_TransferMultisig p i r)
  else if tag =? 7 then p ← d_proof; i ← d_vec32; r ← d_u8; mret (I_SplitMultisig p i r)
  else if tag =? 8 then p ← d_proof; i ← d_vec32; r ← d_u8; mret (I_JoinMultisig p i r)
  else if tag =? 9 then p ← d_proof; i ← d_vec32; a ← d_u64; r ← d_u8; mret (I_Withdraw p i a r)
  else if tag =? 10 then p ← d_proof; i ← d_vec32; a ← d_u64; r ← d_u8; mret (I_WithdrawMultisig p i a r)
  else if tag =? 11 then c ← d_u8; p ← d_proof; i ← d_vec32; mret (I_VerifyOnly c p i)
  else d_fail.
(** [PoolInstruction::try_from_slice]: no byte may be left. *)
Definition try_from_slice (data : list Z) : option PoolInstruction :=
  match d_instruction data with Some (i, []) => Some i | _ => None end.
End Program.

(** ** The wallet's instruction on the wire *)
Module Wire.
Import Borsh PoolAccounts TxBuilder Program.

(** *** Decoding what was encoded *)
Lemma D_bind_Some {A B} (m : D A) (f : A → D B) l a l' : m l = Some (a, l') → (m ≫= f) l = f a l'.
Proof. intros Hm. unfold mbind, D_bind. by rewrite Hm. Qed.
Lemma d_array_app n l rest : length l = n → d_array n (l ++ rest) = Some (l, rest).
Proof.
  intros <-. unfold d_array. rewrite (proj2 (Nat.ltb_ge _ _)) by (rewrite length_app; lia).
  by rewrite take_app_length, drop_app_length.
Qed.
Lemma d_u32_app x rest : 0 <= x < 2 ^ 32 → d_u32 (le_bytes 4 x ++ rest) = Some (x, rest).
Proof.
  intros Hx. unfold d_u32. rewrite (D_bind_Some _ _ _ _ _ (d_array_app 4 _ rest (length_le_bytes 4 x))).
  unfold mret, D_ret. by rewrite (of_le_le_bytes 4 x).
Qed.
Lemma d_u64_app x rest : 0 <= x < 2 ^ 64 → d_u64 (le_bytes 8 x ++ rest) = Some (x, rest).
Proof.
  intros Hx. unfold d_u64. rewrite (D_bind_Some _ _ _ _ _ (d_array_app 8 _ rest (length_le_bytes 8 x))).
  unfold mret, D_ret. by rewrite (of_le_le_bytes 8 x).
Qed.
Definition words (l : list (list Z)) : Prop := Forall (λ w, length w = 32%nat) l.
Lemma d_repeat_app l rest : words l → d_repeat (length l) (concat l ++ rest) = Some (l, rest).
Proof.
  induction 1 as [|w l Hw _ IH]; [done|]. cbn [length d_repeat concat]. rewrite <- app_assoc.
  by rewrite (D_bind_Some _ _ _ _ _ (d_array_app 32 w _ Hw)), (D_bind_Some _ _ _ _ _ IH).
Qed.
Lemma d_vec32_app l rest : words l → Z.of_nat (length l) < 2 ^ 32 →
  d_vec32 (le_bytes 4 (Z.of_nat (length l)) ++ concat l ++ rest) = Some (l, rest).
Proof.
  intros Hl Hn. unfold d_vec32. rewrite (D_bind_Some _ _ _ _ _ (d_u32_app _ _ (conj (Nat2Z.is_nonneg _) Hn))).
  rewrite Nat2Z.id. by apply d_repeat_app.
Qed.

(** *** What the builder writes *)
Lemma check_words_Ok l : check_words l = Ok tt ↔ words l.
Proof.
  induction l as [|w l IH]; cbn [check_words]; [split; [by constructor|done]|]. unfold words. rewrite Forall_cons, <- IH.
  destruct (Nat.eqb_spec (length w) 32); cbn [negb]; naive_solver.
Qed.
Lemma fixed32_loop_words l w : words l → ∃ w', fixed32_loop l w = Ok w' ∧ toBuffer w' = toBuffer w ++ concat l.
Proof.
  intros Hl. revert w. induction Hl as [|x l Hx _ IH]; intros w; cbn [fixed32_loop concat].
  { exists w. by rewrite app_nil_r. }
  rewrite Hx. cbn [negb Nat.eqb]. destruct (IH (w_bytes x w)) as (w' & Hw & E). exists w'. split; [exact Hw|].
  unfold w_bytes in E. by rewrite E, toBuffer_snoc, <- app_assoc.
Qed.
Lemma strip_words remove i l : words l → words (strip remove i l).
Proof.
  intros Hl. revert i. induction Hl as [|x l Hx _ IH]; intros i; cbn [strip]; [constructor|].
  case_bool_decide; [apply IH|]. by constructor; [|apply IH].
Qed.
Lemma strip_beyond remove i l : Forall (λ j, (j < i)%nat) remove → strip remove i l = l.
Proof.
  revert i. induction l as [|x l IH]; intros i Hr; cbn [strip]; [done|].
  rewrite bool_decide_eq_false_2 by (rewrite Forall_forall in Hr; intros Hi%Hr; lia). f_equal. apply IH.
  eapply Forall_impl; [exact Hr|]. cbn. lia.
Qed.
Lemma strip_length remove i l : (length (strip remove i l) <= length l)%nat.
Proof. revert i. induction l as [|x l IH]; intros i; cbn [strip length]; [done|]. specialize (IH (S i)). case_bool_decide; cbn; lia. Qed.

Definition well_formed (b : ProofBundle) : Prop :=
  length (publicInputs b) = PUBLIC_INPUT_COUNT (circuitId b) ∧ words (publicInputs b) ∧ length (proof b) = 192%nat.
Definition payload (b : ProofBundle) : list Z :=
  proof b ++ le_bytes 4 (Z.of_nat (length (wirePublicInputs b))) ++ concat (wirePublicInputs b).
Lemma wire_small b : well_formed b → words (wirePublicInputs b) ∧ Z.of_nat (length (wirePublicInputs b)) < 2 ^ 32.
Proof.
  intros (Hn & Hw & _). split; [by apply strip_words|].
  pose proof (strip_length (stripIndices (LAYOUT (circuitId b))) 0 (publicInputs b)). unfold wirePublicInputs.
  assert (PUBLIC_INPUT_COUNT (circuitId b) <= 24)%nat by (destruct (circuitId b); cbn; lia). lia.
Qed.
Lemma write_inputs_wf w b : well_formed b →
  ∃ w', writeProofAndWireInputs w b = Ok w' ∧ toBuffer w' = toBuffer w ++ payload b.
Proof.
  intros Hwf. destruct (wire_small b Hwf) as [Hw Hn]. destruct Hwf as (Hc & Hp & Hl).
  unfold writeProofAndWireInputs, assertPublicInputs, assertCompressedProof, COMPRESSED_PROOF_LEN.
  rewrite Hc, Nat.eqb_refl. cbn [negb]. rewrite (proj2 (check_words_Ok _) Hp), Hl. cbn [negb Nat.eqb mbind result_bind].
  unfold w_vecFixed32. rewrite w_u32_Ok by lia. cbn [mbind result_bind].
  destruct (fixed32_loop_words (wirePublicInputs b) (w_bytes (proof b) w ++ [le_bytes 4 (Z.of_nat (length (wirePublicInputs b)))]) Hw)
    as (w' & -> & E). exists w'. split; [done|]. rewrite E, toBuffer_snoc. unfold w_bytes, payload.
  by rewrite toBuffer_snoc, <- !app_assoc.
Qed.
Lemma write_inputs_inv w b w' : writeProofAndWireInputs w b = Ok w' → well_formed b ∧ toBuffer w' = toBuffer w ++ payload b.
Proof.
  intros Hr. assert (Hwf : well_formed b).
  { revert Hr. unfold writeProofAndWireInputs. intros ([] & Hp & (p & Hq & _)%bind_Ok)%bind_Ok. revert Hp Hq.
    unfold assertPublicInputs, assertCompressedProof, COMPRESSED_PROOF_LEN.
    destruct (Nat.eqb_spec (length (publicInputs b)) (PUBLIC_INPUT_COUNT (circuitId b))); cbn [negb]; [|done].
    intros Hw%check_words_Ok. destruct (Nat.eqb_spec (length (proof b)) 192); cbn [negb]; [|done]. intros _. split; [done|by split]. }
  split; [done|]. destruct (write_inputs_wf w b Hwf) as (w1 & E1 & E2). rewrite E1 in Hr. by injection Hr as <-.
Qed.
Lemma d_payload {A} b rest (k : list Z → list (list Z) → D A) : well_formed b →
  (p ← d_proof; i ← d_vec32; k p i) (payload b ++ rest) = k (proof b) (wirePublicInputs b) rest.
Proof.
  intros Hwf. destruct (wire_small b Hwf) as [Hw Hn]. destruct Hwf as (_ & _ & Hl). unfold payload, d_proof. rewrite <- !app_assoc.
  by rewrite (D_bind_Some _ _ _ _ _ (d_array_app 192 _ _ Hl)), (D_bind_Some _ _ _ _ _ (d_vec32_app _ _ Hw Hn)).
Qed.

(** *** A call of the builder *)
Inductive Call :=
  | C_deposit (amount : Z) (accounts : DepositAccounts)
  | C_transfer (accounts : SpendAccounts) | C_transferMultisig (accounts : SpendAccounts)
  | C_splitMultisig (accounts : SpendAccounts) | C_joinMultisig (accounts : JoinMultisigAccounts)
  | C_withdraw (amount : Z) (accounts : WithdrawAccounts) | C_withdrawMultisig (amount : Z) (accounts : WithdrawAccounts).
Definition circuit_of (c : Call) : CircuitId :=
  match c with
  | C_deposit _ _ => Deposit | C_transfer _ => Transfer | C_transferMultisig _ => TransferMultisig
  | C_splitMultisig _ => SplitMultisig | C_joinMultisig _ => JoinMultisig | C_withdraw _ _ => Withdraw
  | C_withdrawMultisig _ _ => WithdrawMultisig
  end.
Definition amount_of (c : Call) : option Z :=
  match c with C_deposit a _ | C_withdraw a _ | C_withdrawMultisig a _ => Some a | _ => None end.

Section Wire.
Context `{Web3} (program : PublicKey).

Definition perform (c : Call) (b : ProofBundle) (pool : PoolAccount) : result TxError (list TransactionInstruction) :=
  match c with
  | C_deposit a acc => deposit program b a acc
  | C_transfer acc => transfer program b acc pool
  | C_transferMultisig acc => transferMultisig program b acc pool
  | C_splitMultisig acc => splitMultisig program b acc pool
  | C_joinMultisig acc => joinMultisig program b acc pool
  | C_withdraw a acc => withdraw program b a acc pool
  | C_withdrawMultisig a acc => withdrawMultisig program b a acc pool
  end.

(** What a call writes after the tag: the payload, the amount and the root's
    index, in the order of the instruction's fields. *)
Definition tag_of (c : Call) : Z :=
  match c with
  | C_deposit _ _ => 4 | C_transfer _ => 5 | C_transferMultisig _ => 6 | C_splitMultisig _ => 7 | C_joinMultisig _ => 8
  | C_withdraw _ _ => 9 | C_withdrawMultisig _ _ => 10
  end.
Definition instruction_of (c : Call) (b : ProofBundle) (r : Z) : PoolInstruction :=
  let p := proof b in
  let i := wirePublicInputs b in
  match c with
  | C_deposit a _ => I_Deposit p i a | C_transfer _ => I_Transfer p i r
  | C_transferMultisig _ => I_TransferMultisig p i r | C_splitMultisig _ => I_SplitMultisig p i r
  | C_joinMultisig _ => I_JoinMultisig p i r | C_withdraw a _ => I_Withdraw p i a r
  | C_withdrawMultisig a _ => I_WithdrawMultisig p i a r
  end.
(** The accounts of a call, in the order in which they are passed. *)
Definition metas (c : Call) : list AccountMeta :=
  match c with
  | C_deposit _ a =>
      [mkMeta (da_depositor a) true true; mkMeta (da_pool a) false true; mkMeta (da_asset a) false true;
       mkMeta (da_mint a) false false; mkMeta (da_vault a) false true; mkMeta (da_depositorTokenAccount a) false true;
       mkMeta (default TOKEN_PROGRAM_ID (da_tokenProgram a)) false false;
       mkMeta (default ASSOCIATED_TOKEN_PROGRAM_ID (da_associatedTokenProgram a)) false false;
       mkMeta systemProgramId false false; mkMeta (da_verifierProgram a) false false]
  | C_transfer a | C_transferMultisig a | C_splitMultisig a =>
      [mkMeta (sa_payer a) true true; mkMeta (sa_pool a) false true; mkMeta (sa_nullifier a) false true;
       mkMeta systemProgramId false false; mkMeta (sa_verifierProgram a) false false]
  | C_joinMultisig a =>
      [mkMeta (ja_payer a) true true; mkMeta (ja_pool a) false true; mkMeta (ja_nullifierA a) false true;
       mkMeta (ja_nullifierB a) false true; mkMeta systemProgramId false false; mkMeta (ja_verifierProgram a) false false]
  | C_withdraw _ a | C_withdrawMultisig _ a =>
      [mkMeta (wa_payer a) true true; mkMeta (wa_pool a) false true; mkMeta (wa_nullifier a) false true;
       mkMeta (wa_asset a) false false; mkMeta (wa_mint a) false false; mkMeta (wa_vault a) false true;
       mkMeta (wa_destinationTokenAccount a) false true; mkMeta (default TOKEN_PROGRAM_ID (wa_tokenProgram a)) false false;
       mkMeta systemProgramId false false; mkMeta (wa_verifierProgram a) false false]
  end.
Definition amount_bytes (c : Call) : list Z := match amount_of c with Some a => le_bytes 8 a | None => [] end.
Definition index_bytes (c : Call) (r : Z) : list Z := match c with C_deposit _ _ => [] | _ => [r] end.
Definition amount_fits (c : Call) : Prop := match amount_of c with Some a => 0 <= a < 2 ^ 64 | None => True end.

Lemma w_u64_inv a w w' : w_u64 a w = Ok w' → 0 <= a < 2 ^ 64 ∧ toBuffer w' = toBuffer w ++ le_bytes 8 a.
Proof.
  unfold w_u64. destruct (Z.ltb_spec a 0), (Z.leb_spec (2 ^ 64) a); cbn [orb]; try done. intros [= <-].
  split; [lia|apply toBuffer_snoc].
Qed.
Lemma toBuffer_u8 v w : toBuffer (w_u8 v w) = toBuffer w ++ [Z.land v 255].
Proof. apply toBuffer_snoc. Qed.
(** Either shape of the builder's methods. *)
Lemma perform_inv c b pool ixs : perform c b pool = Ok ixs →
  circuitId b = circuit_of c ∧ well_formed b ∧ amount_fits c ∧
  ∃ r ix, (match c with C_deposit _ _ => r = 0 | _ => resolveRootIndex b pool = Ok r end) ∧
    ixs = [computeBudgetIx; ix] ∧ programId ix = program ∧
    ix_data ix = [tag_of c] ++ payload b ++ amount_bytes c ++ (match c with C_deposit _ _ => [] | _ => [Z.land r 255] end) ∧
    keys ix = metas c.
Proof.
  destruct c; cbn [perform]; unfold deposit, transfer, transferMultisig, splitMultisig, spendLike, joinMultisig, withdraw,
    withdrawMultisig, withdrawLike; (case_bool_decide as Hc; cbn [negb]; [|done]).
  1: intros (w & [Hwf Ew]%write_inputs_inv & (w1 & [Ha Ew1]%map_err_Ok%w_u64_inv & [= <-])%bind_Ok)%bind_Ok.
  2-5: intros (r & Hr & (w & [Hwf Ew]%write_inputs_inv & [= <-])%bind_Ok)%bind_Ok.
  6-7: intros (r & Hr & (w & [Hwf Ew]%write_inputs_inv & (w1 & [Ha Ew1]%map_err_Ok%w_u64_inv & [= <-])%bind_Ok)%bind_Ok)%bind_Ok.
  all: split; [done|]; split; [done|]; split; [first [done|exact I]|].
  1: exists 0. 2-7: exists r.
  all: eexists; split; [done|]; split; [done|]; split; [done|]; (split; [|done]); cbn [ix_data ix].
  all: rewrite ?toBuffer_u8, ?Ew1, ?Ew, ?toBuffer_u8; cbn [amount_bytes amount_of tag_of]; rewrite ?app_nil_r, <- ?app_assoc; done.
Qed.

Lemma try_from_slice_built c b r : well_formed b → amount_fits c → 0 <= r < 256 →
  try_from_slice ([tag_of c] ++ payload b ++ amount_bytes c ++ index_bytes c r) = Some (instruction_of c b r).
Proof.
  intros Hwf Ha Hr. unfold try_from_slice, d_instruction. cbn [app].
  rewrite (D_bind_Some d_u8 _ _ (tag_of c) (payload b ++ amount_bytes c ++ index_bytes c r)) by done.
  destruct c; cbn [tag_of Z.eqb Pos.eqb amount_bytes amount_of index_bytes instruction_of amount_fits] in *;
    rewrite d_payload by done; first [by rewrite (D_bind_Some _ _ _ _ _ (d_u64_app _ _ Ha))|done|idtac].
Qed.

(** *** Injecting what was stripped *)

(** The positions of the compliance key, and the pool's key there. *)
Definition key_at (c : CircuitId) : nat * nat :=
  match c with Withdraw | WithdrawMultisig => (3, 4)%nat | _ => (0, 1)%nat end.
Definition bound_key (data : list Z) (b : ProofBundle) : Prop :=
  publicInputs b !! (key_at (circuitId b)).1 = Some (State.compliance_pk_x data) ∧
  publicInputs b !! (key_at (circuitId b)).2 = Some (State.compliance_pk_y data).
Definition root_word (b : ProofBundle) : option (list Z) := at_ ← rootIndexAt (LAYOUT (circuitId b)); publicInputs b !! at_.

Ltac strip_step := cbn [strip]; match goal with |- context [bool_decide ?P] =>
  let b := eval vm_compute in (bool_decide P) in change (bool_decide P) with b; cbv iota end.
Lemma strip_013 (x0 x1 x2 x3 : list Z) rest : strip [0; 1; 3]%nat 0 (x0 :: x1 :: x2 :: x3 :: rest) = x2 :: rest.
Proof. do 4 strip_step. rewrite strip_beyond; [done|repeat constructor; lia]. Qed.
Lemma strip_014 (x0 x1 x2 x3 x4 : list Z) rest : strip [0; 1; 4]%nat 0 (x0 :: x1 :: x2 :: x3 :: x4 :: rest) = x2 :: x3 :: rest.
Proof. do 5 strip_step. rewrite strip_beyond; [done|repeat constructor; lia]. Qed.
Lemma strip_346 (x0 x1 x2 x3 x4 x5 x6 : list Z) rest :
  strip [3; 4; 6]%nat 0 (x0 :: x1 :: x2 :: x3 :: x4 :: x5 :: x6 :: rest) = x0 :: x1 :: x2 :: x5 :: rest.
Proof. do 7 strip_step. rewrite strip_beyond; [done|repeat constructor; lia]. Qed.
Lemma strip_01 (x0 x1 : list Z) rest : strip [0; 1]%nat 0 (x0 :: x1 :: rest) = rest.
Proof. do 2 strip_step. rewrite strip_beyond; [done|repeat constructor; lia]. Qed.

Definition verifier_key (data : list Z) (c : CircuitId) : PublicKey :=
  State.slice data (State.OFF_VERIFIERS + circuit_number c * 32) 32.
Lemma resolve_inv b pool data r : decodePool data = Ok pool → 0 <= State.root_cursor data < 256 →
  resolveRootIndex b pool = Ok r →
  ∃ root age, root_word b = Some root ∧ 0 <= age < 256 ∧ r = slot (State.root_cursor data) age ∧
    State.root_at data r = root ∧ ∀ a, 0 <= a < age → State.root_at data (slot (State.root_cursor data) a) ≠ root.
Proof.
  intros Hp Hc. unfold resolveRootIndex, root_word. destruct (rootIndexAt _) as [at_|]; [|done]. cbn [mbind option_bind].
  destruct (publicInputs b !! at_) as [root|] eqn:Er; [|done]. intros ([idx|] & Hi%map_err_Ok & H2)%bind_Ok; [|done].
  injection H2 as <-. exists root. revert Hi. unfold rootIndexFor. destruct (negb _); [done|].
  pose proof (ring_loop_spec data pool root (Z.to_nat ROOT_RING) 0 Hp Hc ltac:(done) ltac:(done)) as Hs.
  change (Z.of_nat (Z.to_nat ROOT_RING)) with 256 in Hs. intros E. rewrite E in Hs.
  destruct Hs as (age & Ha & Hi & Hr & Hy). exists age. split_and!; [done|lia|lia|done|done|exact Hy].
Qed.

Lemma resolve_total b pool data : decodePool data = Ok pool → 0 <= State.root_cursor data < 256 → well_formed b →
  circuitId b ≠ Deposit →
  ∃ root, root_word b = Some root ∧
  match resolveRootIndex b pool with
  | Ok r => 0 <= r < 256 ∧ State.root_at data r = root
  | Err e => e = RootNotInRingError (circuitId b) ∧ ∀ i, 0 <= i < 256 → State.root_at data i ≠ root
  end.
Proof.
  intros Hp Hc (Hn & Hw & _) Hnd. unfold root_word, resolveRootIndex.
  assert (Hat : ∃ at_, rootIndexAt (LAYOUT (circuitId b)) = Some at_ ∧ (at_ < length (publicInputs b))%nat).
  { rewrite Hn. destruct (circuitId b); try done; cbn; eexists; (split; [done|lia]). }
  destruct Hat as (at_ & -> & Hlt). cbn [mbind option_bind]. apply lookup_lt_is_Some in Hlt as [root Er]. rewrite Er.
  exists root. split; [done|]. unfold words in Hw. rewrite Forall_lookup in Hw. specialize (Hw at_ root Er). unfold rootIndexFor. rewrite Hw. cbn [negb Nat.eqb].
  pose proof (ring_loop_spec data pool root (Z.to_nat ROOT_RING) 0 Hp Hc ltac:(done) ltac:(done)) as Hs.
  change (Z.of_nat (Z.to_nat ROOT_RING)) with 256 in Hs.
  destruct (ring_loop _ 0 pool root) as [[idx|]|]; cbn [map_err mbind result_bind]; [| |done].
  - destruct Hs as (age & Ha & -> & Hr & _). split; [apply slot_bound|done].
  - split; [done|]. intros i Hi. destruct (slot_all (State.root_cursor data) i Hc Hi) as (a & Ha & <-). apply Hs. lia.
Qed.

(** C40. When the builder refuses: for a well-formed bundle of the call's
    circuit and an amount of 64 bits it fails exactly when the proof's root is
    in no slot of the pool's ring, and then with the error that says so; a
    deposit has no root and never fails; and no malformed bundle, bundle of
    another circuit or larger amount is ever put on the wire. *)
Theorem builder_refusals c b data pool : decodePool data = Ok pool → 0 <= State.root_cursor data < 256 →
  match perform c b pool with
  | Ok _ => circuitId b = circuit_of c ∧ well_formed b ∧ amount_fits c ∧
      (circuitId b = Deposit ∨ ∃ i root, 0 <= i < 256 ∧ root_word b = Some root ∧ State.root_at data i = root)
  | Err e => ~ (circuitId b = circuit_of c ∧ well_formed b ∧ amount_fits c) ∨
      e = RootNotInRingError (circuitId b) ∧
      ∃ root, root_word b = Some root ∧ ∀ i, 0 <= i < 256 → State.root_at data i ≠ root
  end.
Proof.
  intros Hd Hc. destruct (perform c b pool) as [ixs|e] eqn:Hp.
  - destruct (perform_inv _ _ _ _ Hp) as (Hcirc & Hwf & Ha & _). split_and!; [done|done|done|].
    destruct (decide (circuitId b = Deposit)) as [|Hnd]; [by left|right].
    destruct (resolve_total b pool data Hd Hc Hwf Hnd) as (root & Er & Hres).
    destruct (perform_inv _ _ _ _ Hp) as (_ & _ & _ & r & _ & Hr & _).
    assert (Hr' : resolveRootIndex b pool = Ok r) by (rewrite Hcirc in Hnd; by destruct c).
    rewrite Hr' in Hres. exists r, root. by destruct Hres.
  - destruct (decide (circuitId b = circuit_of c)) as [Hcirc|]; [|by left; intros (? & _)].
    destruct (decide (length (publicInputs b) = PUBLIC_INPUT_COUNT (circuitId b) ∧
      Forall (λ w, length w = 32%nat) (publicInputs b) ∧ length (proof b) = 192%nat)) as [Hwf|]; [|by left; intros (_ & ? & _)].
    assert (Hdec : Decision (amount_fits c)) by (unfold amount_fits; destruct (amount_of c); apply _).
    destruct (decide (amount_fits c)) as [Ha|]; [|by left; intros (_ & _ & ?)].
    right. destruct (decide (circuitId b = Deposit)) as [Hdep|Hnd].
    { destruct c; try (rewrite Hdep in Hcirc; discriminate). exfalso. revert Hp. cbn [perform]. unfold deposit. rewrite Hdep. cbn [negb bool_decide].
      rewrite bool_decide_eq_true_2 by done. cbn [negb]. destruct (write_inputs_wf (w_u8 tag_Deposit new) b Hwf) as (w & -> & _).
      cbn [mbind result_bind]. by rewrite (w_u64_Ok _ _ Ha). }
    destruct (resolve_total b pool data Hd Hc Hwf Hnd) as (root & Er & Hres).
    destruct (resolveRootIndex b pool) as [r|e'] eqn:Hr.
    + exfalso. revert Hp.
      destruct c; cbn [perform circuit_of] in *; try done; unfold transfer, transferMultisig, splitMultisig, spendLike,
        joinMultisig, withdraw, withdrawMultisig, withdrawLike; rewrite bool_decide_eq_true_2 by done; cbn [negb]; rewrite Hr;
        cbn [mbind result_bind];
        match goal with |- context [writeProofAndWireInputs ?w b] => destruct (write_inputs_wf w b Hwf) as (w' & -> & _) end;
        cbn [mbind result_bind]; first [done|by rewrite (w_u64_Ok _ _ Ha)].
    + destruct Hres as [-> Hno].
      assert (e = RootNotInRingError (circuitId b)) as ->; [|split; [done|by exists root]]. revert Hp.
      destruct c; cbn [perform circuit_of] in *; try done; unfold transfer, transferMultisig, splitMultisig, spendLike,
        joinMultisig, withdraw, withdrawMultisig, withdrawLike; rewrite bool_decide_eq_true_2 by done; cbn [negb]; rewrite Hr;
        cbn [mbind result_bind]; by intros [= ->].
Qed.
End Wire.
End Wire.

(** ** Witness: a withdrawal against a pool that has one root *)
Module WireWitness.
Import PoolAccounts TxBuilder Wire.

Definition word (n : Z) : list Z := be_bytes 32 n.
#[local] Instance toy_web3 : Web3 := {|
  findProgramAddressSync seeds program := (take 32 (concat seeds ++ program ++ replicate 32 0), 255);
  fromBase58 s := take 32 (text_bytes s);
  systemProgramId := replicate 32 0;
  setComputeUnitLimit units := mkIx (word 99) [] (2 :: le_bytes 4 units) |}.
Definition toy_data : list Z :=
  State.push_root (State.splice (State.splice (replicate (Z.to_nat State.POOL_LEN) 0) 37 (word 103)) 69 (word 104)) (word 106).
Definition toy_pool : PoolAccount := pool_fields toy_data.
Definition toy_inputs : list (list Z) := word <$> ([40; 101; 0; 103; 104; 105; 106] ++ seqZ 107 10).
Definition toy_bundle : ProofBundle := mkBundle Withdraw (replicate 192 1) toy_inputs.
Definition toy_accounts : WithdrawAccounts :=
  mkWithdrawAccounts (word 1) (word 2) (word 3) (word 4) (word 5) (word 6) (word 7) (word 8) None.
Definition toy_call : Call := C_withdraw 40 toy_accounts.
Definition toy_built : result TxError (list TransactionInstruction) := perform (word 50) toy_call toy_bundle toy_pool.
Definition toy_ixs : list TransactionInstruction := match toy_built with Ok l => l | Err _ => [] end.
Lemma toy_decodes : decodePool toy_data = Ok toy_pool.
Proof. unfold decodePool. assert ((Z.of_nat (length toy_data) =? POOL_LEN) = true) as -> by (vm_compute; reflexivity). done. Qed.
Lemma toy_builds : perform (word 50) toy_call toy_bundle toy_pool = Ok toy_ixs.
Proof. vm_compute. reflexivity. Qed.

Lemma builder_refusals_witness : ∃ i, 0 <= i < 256 ∧ State.root_at toy_data i = word 106.
Proof.
  assert (Hc : 0 <= State.root_cursor toy_data < 256) by (vm_compute; split; [discriminate|reflexivity]).
  pose proof (builder_refusals (word 50) toy_call toy_bundle toy_data toy_pool toy_decodes Hc) as Hr.
  rewrite toy_builds in Hr. destruct Hr as (_ & _ & _ & [Hd|(i & root & Hi & Hw & Ha)]); [discriminate Hd|].
  exists i. split; [exact Hi|]. rewrite Ha. vm_compute in Hw. injection Hw as <-. vm_compute. reflexivity.
Defined.
End WireWitness.
