(* ===== verification/Prover.v ===== *)
(** * From the prover's files to the verifier ([packages/prover],
    [packages/helper/src/wire.ts], [programs/kakure_pool/src/verify.rs])

    [Decode] reads and writes the two files of the prover, [Compress] packs a
    proof into the 192 bytes of an instruction, [Verify] is the program's side:
    it unpacks the proof and builds the data of the verifier's instruction.
    [Base64] is the text form in which a helper process returns a bundle. *)
From S2P Require Import Prelude Bytes Solana TxBuilder.
Local Open Scope Z_scope.

(** [bytes.slice(from, to)]. *)
Definition cut (l : list Z) (from to : Z) : list Z := take (Z.to_nat (to - from)) (drop (Z.to_nat from) l).
Definition lenZ {A} (l : list A) : Z := Z.of_nat (length l).

Inductive ProofError :=
  | Not_32_bytes (n : Z) | Not_canonical_Fr (v : Z)
  | Witness_short (n : Z) | Not_public (n : Z) | Entries_count (entries n : Z) | Witness_length (n expected : Z)
  | Proof_short (n : Z) | Proof_length (n expected : Z) | Input_length (i : Z)
  | Not_canonical_Fq (y : Z) | G1_length (n : Z) | G2_length (n : Z) | Commitment_count (n : Z)
  | Input_count (c : CircuitId) (n : Z).
Notation X := (result ProofError).

(** ** [decode.ts] *)
Module Decode.
Definition FR_MODULUS : Z := 21888242871839275222246405745257275088548364400416034343698204186575808495617.
Definition beToBigIntFr (bytes : list Z) : Z := foldl (λ v b, Z.lor (Z.shiftl v 8) b) 0 bytes.
Definition assertCanonicalFr (entry : list Z) : X Z :=
  if negb (lenZ entry =? 32) then Err (Not_32_bytes (lenZ entry))
  else let v := beToBigIntFr entry in if FR_MODULUS <=? v then Err (Not_canonical_Fr v) else Ok v.

(** [view.getUint32(offset, false)]. *)
Definition getUint32 (l : list Z) (offset : Z) : Z := of_be (cut l offset (offset + 4)).
Fixpoint entries_loop (n : nat) (i : Z) (pw : list Z) : X (list (list Z)) :=
  match n with
  | O => Ok []
  | S n =>
      let offset := 12 + i * 32 in
      let entry := cut pw offset (offset + 32) in
      _ ← assertCanonicalFr entry;
      entries ← entries_loop n (i + 1) pw;
      Ok (entry :: entries)
  end.
Definition decodePublicWitness (pw : list Z) : X (list (list Z)) :=
  if lenZ pw <? 12 then Err (Witness_short (lenZ pw))
  else
    let nrPublic := getUint32 pw 0 in
    let nrPrivate := getUint32 pw 4 in
    let entriesCount := getUint32 pw 8 in
    if negb (nrPrivate =? 0) then Err (Not_public nrPrivate)
    else if negb (entriesCount =? nrPublic) then Err (Entries_count entriesCount nrPublic)
    else
      let expectedLen := 12 + entriesCount * 32 in
      if negb (lenZ pw =? expectedLen) then Err (Witness_length (lenZ pw) expectedLen)
      else entries_loop (Z.to_nat entriesCount) 0 pw.

Record DecodedProof := mkDecoded { a : list Z; b : list Z; c : list Z; commitmentCount : Z; commitments : list Z; commitmentPok : list Z }.
Definition decodeProof (proof : list Z) : X DecodedProof :=
  if lenZ proof <? 260 then Err (Proof_short (lenZ proof))
  else
    let commitmentCount := getUint32 proof 256 in
    let expectedLen := 260 + 64 * commitmentCount + 64 in
    if negb (lenZ proof =? expectedLen) then Err (Proof_length (lenZ proof) expectedLen)
    else
      let commitmentsEnd := 260 + 64 * commitmentCount in
      Ok (mkDecoded (cut proof 0 64) (cut proof 64 192) (cut proof 192 256) commitmentCount
        (cut proof 260 commitmentsEnd) (cut proof commitmentsEnd (commitmentsEnd + 64))).

(** [setUint32] keeps the low 32 bits; the entries are written one after the
    other behind the header. *)
Fixpoint write_entries (i : Z) (publicInputs : list (list Z)) : X (list Z) :=
  match publicInputs with
  | [] => Ok []
  | entry :: publicInputs =>
      if negb (lenZ entry =? 32) then Err (Input_length i)
      else
        _ ← assertCanonicalFr entry;
        out ← write_entries (i + 1) publicInputs;
        Ok (entry ++ out)
  end.
Definition encodePublicWitness (publicInputs : list (list Z)) : X (list Z) :=
  let n := lenZ publicInputs in
  out ← write_entries 0 publicInputs;
  Ok (be_bytes 4 n ++ be_bytes 4 0 ++ be_bytes 4 n ++ out).
Definition proofBytesForChain (proof : list Z) (publicInputs : list (list Z)) : X (list Z) :=
  pw ← encodePublicWitness publicInputs; Ok (proof ++ pw).
End Decode.

(** ** [compress.ts] *)
Module Compress.
Import Decode.
Definition FQ_MODULUS : Z := 21888242871839275222246405745257275088696311157297823662689037894645226208583.
Definition SIGN_FLAG_BIT : Z := 0x80.
Definition beToBigInt (bytes : list Z) : Z := foldl (λ v b, Z.lor (Z.shiftl v 8) b) 0 bytes.
Definition isAllZero (bytes : list Z) : bool := forallb (λ b, b =? 0) bytes.
Definition assertCanonicalFq (y : Z) : X unit :=
  if (y <? 0) || (FQ_MODULUS <=? y) then Err (Not_canonical_Fq y) else Ok tt.
Definition fqSignFlagBit (y : Z) : bool :=
  let negY := Z.rem (FQ_MODULUS - y) FQ_MODULUS in negY <? y.
Definition fq2SignFlagBit (y0 y1 : Z) : bool :=
  let negY0 := Z.rem (FQ_MODULUS - y0) FQ_MODULUS in
  let negY1 := Z.rem (FQ_MODULUS - y1) FQ_MODULUS in
  if negb (y0 =? negY0) then negY0 <? y0 else negY1 <? y1.
(** [out[0] = (out[0] ?? 0) | SIGN_FLAG_BIT]: an assignment outside a typed
    array does nothing. *)
Definition set_flag (flag : bool) (out : list Z) : list Z :=
  match out with x :: out => (if flag then Z.lor x SIGN_FLAG_BIT else x) :: out | [] => [] end.
Definition compressG1 (uncompressed : list Z) : X (list Z) :=
  if negb (lenZ uncompressed =? 64) then Err (G1_length (lenZ uncompressed))
  else if isAllZero uncompressed then Ok (replicate 32 0)
  else
    let x := cut uncompressed 0 32 in
    let y := beToBigInt (cut uncompressed 32 64) in
    _ ← assertCanonicalFq (beToBigInt x);
    _ ← assertCanonicalFq y;
    Ok (set_flag (fqSignFlagBit y) x).
Definition compressG2 (uncompressed : list Z) : X (list Z) :=
  if negb (lenZ uncompressed =? 128) then Err (G2_length (lenZ uncompressed))
  else if isAllZero uncompressed then Ok (replicate 64 0)
  else
    let x := cut uncompressed 0 64 in
    let y0 := beToBigInt (cut uncompressed 64 96) in
    let y1 := beToBigInt (cut uncompressed 96 128) in
    _ ← assertCanonicalFq (beToBigInt (cut x 0 32));
    _ ← assertCanonicalFq (beToBigInt (cut x 32 64));
    _ ← assertCanonicalFq y0;
    _ ← assertCanonicalFq y1;
    Ok (set_flag (fq2SignFlagBit y0 y1) x).
(** The five pieces fill the 192 bytes without a gap. *)
Definition compressDecodedProof (decoded : DecodedProof) : X (list Z) :=
  if negb (commitmentCount decoded =? 1) then Err (Commitment_count (commitmentCount decoded))
  else
    a ← compressG1 (Decode.a decoded);
    b ← compressG2 (Decode.b decoded);
    c ← compressG1 (Decode.c decoded);
    m ← compressG1 (commitments decoded);
    k ← compressG1 (commitmentPok decoded);
    Ok (a ++ b ++ c ++ m ++ k).
Definition compressProof (proof : list Z) : X (list Z) := decoded ← decodeProof proof; compressDecodedProof decoded.

(** The end of [prove]: the bundle of the two files that the prover wrote. *)
Definition bundle_of_files (circuitId : CircuitId) (proof pw : list Z) : X ProofBundle :=
  publicInputs ← decodePublicWitness pw;
  if negb (length publicInputs =? PUBLIC_INPUT_COUNT circuitId)%nat then Err (Input_count circuitId (lenZ publicInputs))
  else
    compressedProof ← compressProof proof;
    Ok (mkBundle circuitId compressedProof publicInputs).
End Compress.

(** ** [verify.rs] *)
(** The point compression of the curve, which the runtime provides, and the
    curve itself: [on_g1 x y] and [on_g2 x0 x1 y0 y1] for canonical coordinates. *)
Class Bn254 := {
  on_g1 : Z → Z → Prop;
  on_g2 : Z → Z → Z → Z → Prop;
  alt_bn128_g1_decompress : list Z → option (list Z);
  alt_bn128_g2_decompress : list Z → option (list Z)
}.
Definition canonical_fq (x : Z) : Prop := 0 <= x < Compress.FQ_MODULUS.
Definition fq_neg (x : Z) : Z := (Compress.FQ_MODULUS - x) mod Compress.FQ_MODULUS.
(** The first byte carries two flags above the coordinate: the top one says
    that [y] is the greater of the two roots, the next one is infinity. *)
Definition unflag (l : list Z) : list Z := match l with x :: l => x mod 64 :: l | [] => [] end.
Definition greater_flag (l : list Z) : bool := Z.testbit (default 0 (head l)) 7.
Definition infinity_flag (l : list Z) : bool := Z.testbit (default 0 (head l)) 6.
Definition greater2 (y0 y1 : Z) : Prop := fq_neg y0 < y0 ∨ y0 = fq_neg y0 ∧ fq_neg y1 < y1.
(** What the decompression does, and that neither curve has a point with
    [x = 0] (3 and 82 are no squares modulo the prime). *)
Class Bn254Laws `{Bn254} : Prop := {
  g1_zero : alt_bn128_g1_decompress (replicate 32 0) = Some (replicate 64 0);
  g2_zero : alt_bn128_g2_decompress (replicate 64 0) = Some (replicate 128 0);
  g1_root l x y : Forall is_byte l → length l = 32%nat → l ≠ replicate 32 0 → infinity_flag l = false →
    on_g1 x y → canonical_fq x → canonical_fq y → of_be (unflag l) = x →
    (greater_flag l = true ↔ fq_neg y < y) →
    alt_bn128_g1_decompress l = Some (be_bytes 32 x ++ be_bytes 32 y);
  g2_root l x0 x1 y0 y1 : Forall is_byte l → length l = 64%nat → l ≠ replicate 64 0 → infinity_flag l = false →
    on_g2 x0 x1 y0 y1 → canonical_fq x0 → canonical_fq x1 → canonical_fq y0 → canonical_fq y1 →
    of_be (unflag (cut l 0 32)) = x0 → of_be (cut l 32 64) = x1 →
    (greater_flag l = true ↔ greater2 y0 y1) →
    alt_bn128_g2_decompress l = Some (be_bytes 32 x0 ++ be_bytes 32 x1 ++ be_bytes 32 y0 ++ be_bytes 32 y1);
  g1_x y : ~ on_g1 0 y;
  g2_x y0 y1 : ~ on_g2 0 0 y0 y1
}.

Module Verify.
Section Verify.
Context `{Bn254}.
Inductive VerifyError := InvalidProof | IncorrectProgramId | VerifierUnset.
Notation V := (result VerifyError).
Definition or_invalid {A} (o : option A) : V A := match o with Some x => Ok x | None => Err InvalidProof end.
Definition decompress_proof (compressed : list Z) : V (list Z) :=
  a ← or_invalid (alt_bn128_g1_decompress (cut compressed 0 32));
  b ← or_invalid (alt_bn128_g2_decompress (cut compressed 32 96));
  c ← or_invalid (alt_bn128_g1_decompress (cut compressed 96 128));
  commitment ← or_invalid (alt_bn128_g1_decompress (cut compressed 128 160));
  pok ← or_invalid (alt_bn128_g1_decompress (cut compressed 160 192));
  Ok (a ++ b ++ c ++ be_bytes 4 1 ++ commitment ++ pok).
(** [verify_cpi] up to [invoke]: the verifier it calls and the data it hands over. *)
Definition verify_cpi (verifier_program verifier_key : PublicKey) (proof : list Z) (public_inputs : list (list Z)) :
    V (PublicKey * list Z) :=
  if negb (bool_decide (verifier_program = verifier_key)) then Err IncorrectProgramId
  else if bool_decide (verifier_key = replicate 32 0) then Err VerifierUnset
  else
    let n := lenZ public_inputs in
    Ok (verifier_key, proof ++ be_bytes 4 n ++ be_bytes 4 0 ++ be_bytes 4 n ++ concat public_inputs).
End Verify.
End Verify.

(** ** [wire.ts] of the helper *)
Module Base64.
Definition B64_CHARS : string := "ABCDEFGHIJKLMNOPQRSTUVWXYZabcdefghijklmnopqrstuvwxyz0123456789+/".
(** [B64_CHARS[i]]: outside the string the text of [undefined] is appended. *)
Definition char_at (i : Z) : string :=
  match String.get (Z.to_nat i) B64_CHARS with Some ch => String ch "" | None => "undefined" end.
Definition group (b0 : Z) (b1 b2 : option Z) : string :=
  char_at (Z.shiftr b0 2)
  +:+ char_at (Z.lor (Z.shiftl (Z.land b0 0x03) 4) (match b1 with None => 0 | Some b1 => Z.shiftr b1 4 end))
  +:+ match b1 with
      | None => "="
      | Some b1 => char_at (Z.lor (Z.shiftl (Z.land b1 0x0f) 2) (match b2 with None => 0 | Some b2 => Z.shiftr b2 6 end))
      end
  +:+ match b2 with None => "=" | Some b2 => char_at (Z.land b2 0x3f) end.
Fixpoint toBase64 (bytes : list Z) : string :=
  match bytes with
  | [] => ""
  | [b0] => group b0 None None
  | [b0; b1] => group b0 (Some b1) None
  | b0 :: b1 :: b2 :: bytes => group b0 (Some b1) (Some b2) +:+ toBase64 bytes
  end.

Fixpoint indexOf (i : Z) (s : string) (ch : ascii) : option Z :=
  match s with
  | EmptyString => None
  | String ch' s => if Ascii.eqb ch' ch then Some i else indexOf (i + 1) s ch
  end.
(** [b64.replace(/=+$/, "")]. *)
Fixpoint drop_pad (l : list ascii) : list ascii :=
  match l with ch :: l' => if Ascii.eqb ch "=" then drop_pad l' else l | [] => [] end.
Fixpoint decode_loop (clean : list ascii) (buffer bits : Z) (bytes : list Z) : list Z :=
  match clean with
  | [] => bytes
  | ch :: clean =>
      match indexOf 0 B64_CHARS ch with
      | None => decode_loop clean buffer bits bytes
      | Some val =>
          let buffer := to_int32 (Z.lor (to_int32 (Z.shiftl buffer 6)) val) in
          let bits := bits + 6 in
          if 8 <=? bits then
            let bits := bits - 8 in
            decode_loop clean buffer bits (bytes ++ [Z.land (Z.shiftr buffer bits) 0xff])
          else decode_loop clean buffer bits bytes
      end
  end.
Definition fromBase64 (b64 : string) : list Z :=
  decode_loop (reverse (drop_pad (reverse (String.list_ascii_of_string b64)))) 0 0 [].

Record ProveResponseBody := mkResponse { r_circuitId : CircuitId; r_proof : string; r_publicInputs : list string }.
Definition encodeProofBundle (bundle : ProofBundle) : ProveResponseBody :=
  mkResponse (circuitId bundle) (toBase64 (proof bundle)) (toBase64 <$> publicInputs bundle).
Definition decodeProofBundle (body : ProveResponseBody) : ProofBundle :=
  mkBundle (r_circuitId body) (fromBase64 (r_proof body)) (fromBase64 <$> r_publicInputs body).

(** *** The text carries the bytes *)
Lemma to_int32_eq x y : eqm32 x y → to_int32 x = to_int32 y.
Proof. unfold eqm32, to_int32. by intros ->. Qed.
Lemma to_int32_repr x : ∃ k, to_int32 x = x + k * 2 ^ 32.
Proof.
  unfold to_int32. pose proof (Z.div_mod x (2 ^ 32)) as Hd.
  destruct (Z.ltb_spec (x mod 2 ^ 32) (2 ^ 31)); [exists (- (x / 2 ^ 32))|exists (- (x / 2 ^ 32) - 1)]; lia.
Qed.
(** Shifting in six bits. *)
Lemma push_spec B v : 0 <= v < 64 → to_int32 (Z.lor (to_int32 (Z.shiftl (to_int32 B) 6)) v) = to_int32 (B * 64 + v).
Proof.
  intros Hv. apply to_int32_eq.
  assert (Hs : eqm32 (to_int32 (Z.shiftl (to_int32 B) 6)) (Z.shiftl B 6)).
  { unfold eqm32. rewrite to_int32_mod, !Z.shiftl_mul_pow2 by lia. destruct (to_int32_repr B) as [k ->].
    replace ((B + k * 2 ^ 32) * 2 ^ 6) with (B * 2 ^ 6 + k * 2 ^ 6 * 2 ^ 32) by lia. apply Z_mod_plus_full. }
  rewrite Hs, Z.lor_comm, lor_add_shift by lia. unfold eqm32. f_equal. lia.
Qed.
(** Taking eight bits out. *)
Lemma emit_spec B n : 0 <= n <= 24 → Z.land (Z.shiftr (to_int32 B) n) 0xff = (B / 2 ^ n) mod 256.
Proof.
  intros Hn. change 0xff with (Z.ones 8). rewrite Z.land_ones, Z.shiftr_div_pow2 by lia.
  destruct (to_int32_repr B) as [k ->].
  replace (2 ^ 32) with (2 ^ (24 - n) * 256 * 2 ^ n) by (rewrite <- (Z.mul_comm 256), <- Z.mul_assoc, <- Z.pow_add_r by lia; by replace (24 - n + n) with 24 by lia).
  replace (B + k * (2 ^ (24 - n) * 256 * 2 ^ n)) with (B + k * 2 ^ (24 - n) * 256 * 2 ^ n) by ring.
  assert (0 < 2 ^ n) by (apply Z.pow_pos_nonneg; lia).
  rewrite Z.div_add by lia. change (2 ^ 8) with 256. apply Z_mod_plus_full.
Qed.
Definition chr (i : Z) : ascii := default "="%char (String.get (Z.to_nat i) B64_CHARS).
Definition is_sextet (v : Z) : Prop := 0 <= v < 64.
Lemma chr_spec v : is_sextet v → char_at v = String (chr v) "" ∧ indexOf 0 B64_CHARS (chr v) = Some v ∧
  Ascii.eqb (chr v) "=" = false.
Proof.
  intros Hv. assert (Hall : Forall (λ v, char_at v = String (chr v) "" ∧ indexOf 0 B64_CHARS (chr v) = Some v ∧
    Ascii.eqb (chr v) "=" = false) (seqZ 0 64)).
  { vm_compute. repeat (constructor; [by split_and!|]). constructor. }
  rewrite Forall_forall in Hall. apply Hall, elem_of_seqZ. unfold is_sextet in Hv. lia.
Qed.
Lemma decode_chr v l B bits out : is_sextet v →
  decode_loop (chr v :: l) (to_int32 B) bits out =
  if 8 <=? bits + 6
  then decode_loop l (to_int32 (B * 64 + v)) (bits + 6 - 8) (out ++ [Z.land (Z.shiftr (to_int32 (B * 64 + v)) (bits + 6 - 8)) 0xff])
  else decode_loop l (to_int32 (B * 64 + v)) (bits + 6) out.
Proof.
  intros Hv. destruct (chr_spec v Hv) as (_ & Hi & _). cbn [decode_loop]. rewrite Hi, push_spec by done. done.
Qed.

(** The sextets of a group. *)
Definition s0 (b0 : Z) : Z := Z.shiftr b0 2.
Definition s1 (b0 b1 : Z) : Z := Z.lor (Z.shiftl (Z.land b0 0x03) 4) (Z.shiftr b1 4).
Definition s2 (b1 b2 : Z) : Z := Z.lor (Z.shiftl (Z.land b1 0x0f) 2) (Z.shiftr b2 6).
Definition s3 (b2 : Z) : Z := Z.land b2 0x3f.
Lemma div_byte b k : is_byte b → 0 <= k <= 8 → 0 <= b / 2 ^ k < 2 ^ (8 - k).
Proof.
  unfold is_byte. intros Hb Hk. assert (0 < 2 ^ k) by (apply Z.pow_pos_nonneg; lia).
  split; [apply Z.div_pos; lia|]. apply Z.div_lt_upper_bound; [lia|]. rewrite <- Z.pow_add_r by lia.
  replace (k + (8 - k)) with 8 by lia. lia.
Qed.
Lemma s0_eq b0 : s0 b0 = b0 / 4.
Proof. unfold s0. by rewrite Z.shiftr_div_pow2. Qed.
Lemma s1_eq b0 b1 : is_byte b1 → s1 b0 b1 = b0 mod 4 * 16 + b1 / 16.
Proof.
  intros Hb. unfold s1. change 0x03 with (Z.ones 2). rewrite Z.land_ones, Z.shiftr_div_pow2, Z.lor_comm, lor_add_shift by
    (try lia; apply (div_byte b1 4 Hb); lia). change (2 ^ 4) with 16. change (2 ^ 2) with 4. lia.
Qed.
Lemma s2_eq b1 b2 : is_byte b2 → s2 b1 b2 = b1 mod 16 * 4 + b2 / 64.
Proof.
  intros Hb. unfold s2. change 0x0f with (Z.ones 4). rewrite Z.land_ones, Z.shiftr_div_pow2, Z.lor_comm, lor_add_shift by
    (try lia; apply (div_byte b2 6 Hb); lia). change (2 ^ 4) with 16. change (2 ^ 2) with 4. change (2 ^ 6) with 64. lia.
Qed.
Lemma s3_eq b2 : s3 b2 = b2 mod 64.
Proof. unfold s3. change 0x3f with (Z.ones 6). by rewrite Z.land_ones. Qed.
Lemma sextets b0 b1 b2 : is_byte b0 → is_byte b1 → is_byte b2 →
  is_sextet (s0 b0) ∧ is_sextet (s1 b0 b1) ∧ is_sextet (s2 b1 b2) ∧ is_sextet (s3 b2).
Proof.
  intros H0 H1 H2. rewrite s0_eq, s1_eq, s2_eq, s3_eq by done. unfold is_sextet, is_byte in *.
  Z.to_euclidean_division_equations. lia.
Qed.

(** One, two or three bytes come back out of their sextets. *)
Lemma decode_one b0 B out : is_byte b0 →
  decode_loop [chr (s0 b0); chr (s1 b0 0)] (to_int32 B) 0 out = out ++ [b0].
Proof.
  intros H0. destruct (sextets b0 0 0 H0 ltac:(done) ltac:(done)) as (S0 & S1 & _).
  rewrite !decode_chr by done. change (8 <=? 0 + 6) with false. change (8 <=? 0 + 6 + 6) with true. cbv iota.
  change (0 + 6 + 6 - 8) with 4. cbn [decode_loop]. rewrite emit_spec by lia. do 2 f_equal.
  rewrite s0_eq, s1_eq by done. unfold is_byte in H0. change (2 ^ 4) with 16. Z.to_euclidean_division_equations. lia.
Qed.
Lemma decode_two b0 b1 B out : is_byte b0 → is_byte b1 →
  decode_loop [chr (s0 b0); chr (s1 b0 b1); chr (s2 b1 0)] (to_int32 B) 0 out = out ++ [b0; b1].
Proof.
  intros H0 H1. destruct (sextets b0 b1 0 H0 H1 ltac:(done)) as (S0 & S1 & S2 & _).
  rewrite !decode_chr by done. change (8 <=? 0 + 6) with false. change (8 <=? 0 + 6 + 6) with true.
  change (0 + 6 + 6 - 8) with 4. change (8 <=? 4 + 6) with true. cbv iota. change (4 + 6 - 8) with 2. cbn [decode_loop].
  rewrite !emit_spec, <- app_assoc by lia. cbn [app]. do 2 f_equal; [|f_equal];
    rewrite s0_eq, s1_eq, ?s2_eq by done; unfold is_byte in *; change (2 ^ 4) with 16; change (2 ^ 2) with 4;
    Z.to_euclidean_division_equations; lia.
Qed.
Lemma decode_three b0 b1 b2 l B out : is_byte b0 → is_byte b1 → is_byte b2 → ∃ B',
  decode_loop (chr (s0 b0) :: chr (s1 b0 b1) :: chr (s2 b1 b2) :: chr (s3 b2) :: l) (to_int32 B) 0 out =
  decode_loop l (to_int32 B') 0 (out ++ [b0; b1; b2]).
Proof.
  intros H0 H1 H2. destruct (sextets b0 b1 b2 H0 H1 H2) as (S0 & S1 & S2 & S3).
  rewrite !decode_chr by done. change (8 <=? 0 + 6) with false. change (8 <=? 0 + 6 + 6) with true.
  change (0 + 6 + 6 - 8) with 4. change (8 <=? 4 + 6) with true. change (4 + 6 - 8) with 2.
  change (8 <=? 2 + 6) with true. cbv iota. change (2 + 6 - 8) with 0. rewrite !emit_spec, <- !app_assoc by lia. cbn [app].
  eexists. f_equal. do 2 f_equal; [|f_equal; [|f_equal]];
    rewrite s0_eq, s1_eq, ?s2_eq, ?s3_eq by done; unfold is_byte in *; change (2 ^ 4) with 16; change (2 ^ 2) with 4;
    change (2 ^ 0) with 1; Z.to_euclidean_division_equations; lia.
Qed.

Definition text (l : list ascii) : string := String.string_of_list_ascii l.
(** The sextets of a byte string and the number of pad characters. *)
Fixpoint body (bytes : list Z) : list ascii :=
  match bytes with
  | [] => []
  | [b0] => [chr (s0 b0); chr (s1 b0 0)]
  | [b0; b1] => [chr (s0 b0); chr (s1 b0 b1); chr (s2 b1 0)]
  | b0 :: b1 :: b2 :: bytes => chr (s0 b0) :: chr (s1 b0 b1) :: chr (s2 b1 b2) :: chr (s3 b2) :: body bytes
  end.
Fixpoint pads (bytes : list Z) : nat :=
  match bytes with [] => 0 | [_] => 2 | [_; _] => 1 | _ :: _ :: _ :: bytes => pads bytes end%nat.
(** Induction by groups of three. *)
Lemma groups_ind (P : list Z → Prop) : P [] → (∀ b0, P [b0]) → (∀ b0 b1, P [b0; b1]) →
  (∀ b0 b1 b2 l, P l → P (b0 :: b1 :: b2 :: l)) → ∀ l, P l.
Proof.
  intros H0 H1 H2 H3. fix IH 1. intros [|b0 [|b1 [|b2 l]]]; [done|apply H1|apply H2|apply H3, IH].
Qed.
Lemma chars_app s s' : String.list_ascii_of_string (s +:+ s') = String.list_ascii_of_string s ++ String.list_ascii_of_string s'.
Proof. induction s as [|ch s IH]; [done|]. change (ch :: String.list_ascii_of_string (s +:+ s') = ch :: (String.list_ascii_of_string s ++ String.list_ascii_of_string s')). by rewrite IH. Qed.
Lemma toBase64_chars l : Forall is_byte l →
  String.list_ascii_of_string (toBase64 l) = body l ++ replicate (pads l) "="%char.
Proof.
  induction l as [|b0|b0 b1|b0 b1 b2 l IH] using groups_ind; rewrite ?Forall_cons; [done| | |].
  - intros [H0 _]. destruct (sextets b0 0 0 H0 ltac:(done) ltac:(done)) as (S0 & S1 & _).
    cbn [toBase64]. unfold group. rewrite !chars_app. change (Z.lor _ 0) with (s1 b0 0). fold (s0 b0).
    by rewrite (proj1 (chr_spec _ S0)), (proj1 (chr_spec _ S1)).
  - intros (H0 & H1 & _). destruct (sextets b0 b1 0 H0 H1 ltac:(done)) as (S0 & S1 & S2 & _).
    cbn [toBase64]. unfold group. rewrite !chars_app. fold (s0 b0) (s1 b0 b1). change (Z.lor _ 0) with (s2 b1 0).
    by rewrite (proj1 (chr_spec _ S0)), (proj1 (chr_spec _ S1)), (proj1 (chr_spec _ S2)).
  - intros (H0 & H1 & H2 & Hl). destruct (sextets b0 b1 b2 H0 H1 H2) as (S0 & S1 & S2 & S3).
    cbn [toBase64]. unfold group. rewrite !chars_app. fold (s0 b0) (s1 b0 b1) (s2 b1 b2) (s3 b2).
    by rewrite (proj1 (chr_spec _ S0)), (proj1 (chr_spec _ S1)), (proj1 (chr_spec _ S2)), (proj1 (chr_spec _ S3)), IH.
Qed.
Lemma body_no_pad l : Forall is_byte l → Forall (λ ch, Ascii.eqb ch "=" = false) (body l).
Proof.
  induction l as [|b0|b0 b1|b0 b1 b2 l IH] using groups_ind; rewrite ?Forall_cons; [by constructor| | |].
  - intros [H0 _]. destruct (sextets b0 0 0 H0 ltac:(done) ltac:(done)) as (S0 & S1 & _).
    cbn [body]. rewrite !Forall_cons. by split_and!; try apply chr_spec.
  - intros (H0 & H1 & _). destruct (sextets b0 b1 0 H0 H1 ltac:(done)) as (S0 & S1 & S2 & _).
    cbn [body]. rewrite !Forall_cons. by split_and!; try apply chr_spec.
  - intros (H0 & H1 & H2 & Hl). destruct (sextets b0 b1 b2 H0 H1 H2) as (S0 & S1 & S2 & S3).
    cbn [body]. rewrite !Forall_cons. split_and!; try (by apply chr_spec). by apply IH.
Qed.
Lemma drop_pad_replicate n l : drop_pad (replicate n "="%char ++ l) = drop_pad l.
Proof. by induction n as [|n IH]. Qed.
Lemma drop_pad_none l : Forall (λ ch, Ascii.eqb ch "=" = false) l → drop_pad l = l.
Proof. intros [|ch l' Hch _]; [done|]. cbn. by rewrite Hch. Qed.
Lemma decode_body l : Forall is_byte l → ∀ B out, decode_loop (body l) (to_int32 B) 0 out = out ++ l.
Proof.
  induction l as [|b0|b0 b1|b0 b1 b2 l IH] using groups_ind; rewrite ?Forall_cons.
  - intros _ B out. by rewrite app_nil_r.
  - intros [H0 _] B out. by apply decode_one.
  - intros (H0 & H1 & _) B out. by apply decode_two.
  - intros (H0 & H1 & H2 & Hl) B out. cbn [body]. destruct (decode_three b0 b1 b2 (body l) B out H0 H1 H2) as [B' ->].
    rewrite IH by done. by rewrite <- app_assoc.
Qed.
Lemma fromBase64_toBase64 l : Forall is_byte l → fromBase64 (toBase64 l) = l.
Proof.
  intros Hl. unfold fromBase64. rewrite toBase64_chars, reverse_app, reverse_replicate, drop_pad_replicate, drop_pad_none
    by (try apply Forall_reverse, body_no_pad; done).
  rewrite reverse_involutive. apply (decode_body l Hl 0 []).
Qed.

(** The helper's answer: a bundle of byte strings survives the base64
    text of the JSON answer, at every length, although the decoder never masks
    its 32-bit accumulator. *)
Theorem bundle_roundtrip bundle : Forall is_byte (proof bundle) → Forall (Forall is_byte) (publicInputs bundle) →
  decodeProofBundle (encodeProofBundle bundle) = bundle.
Proof.
  intros Hp Hi. unfold decodeProofBundle, encodeProofBundle. cbn [r_circuitId r_proof r_publicInputs].
  rewrite fromBase64_toBase64 by done. destruct bundle as [c p i]. cbn in *. f_equal. rewrite <- list_fmap_compose.
  etrans; [|apply list_fmap_id]. apply list_fmap_ext. intros k l Hk. cbn. apply fromBase64_toBase64.
  rewrite Forall_lookup in Hi. by eapply Hi.
Qed.
Lemma bundle_roundtrip_witness :
  toBase64 [0; 255; 127; 16] = "AP9/EA==" ∧
  decodeProofBundle (encodeProofBundle (mkBundle Deposit [1; 2; 255] [[0; 7]; [200]])) = mkBundle Deposit [1; 2; 255] [[0; 7]; [200]].
Proof.
  split; [vm_compute; reflexivity|]. apply bundle_roundtrip; repeat constructor; unfold is_byte; lia.
Defined.
End Base64.

(** ** The files reach the verifier *)
Module Files.
Import Decode Compress Verify.

Lemma lenZ_app {A} (l k : list A) : lenZ (l ++ k) = lenZ l + lenZ k.
Proof. unfold lenZ. rewrite length_app. lia. Qed.
Lemma lenZ_be n x : lenZ (be_bytes n x) = Z.of_nat n.
Proof. unfold lenZ. by rewrite length_be_bytes. Qed.
Lemma cut_mid pre l post from to : from = lenZ pre → to = from + lenZ l → cut (pre ++ l ++ post) from to = l.
Proof.
  unfold cut, lenZ. intros -> ->. replace (Z.to_nat (_ + _ - _)) with (length l) by lia.
  rewrite Nat2Z.id, drop_app_length. apply take_app_length.
Qed.
Lemma cut_end pre l from to : from = lenZ pre → to = from + lenZ l → cut (pre ++ l) from to = l.
Proof. intros Hf Ht. rewrite <- (app_nil_r l) at 1. by apply cut_mid. Qed.
Lemma cut_split l from to : 0 <= from <= to → to <= lenZ l → l = cut l 0 from ++ cut l from to ++ cut l to (lenZ l).
Proof.
  unfold cut, lenZ. intros Hf Ht. rewrite Z.sub_0_r, drop_0. rewrite <- (take_drop (Z.to_nat from) l) at 1. f_equal.
  rewrite <- (take_drop (Z.to_nat (to - from)) (drop (Z.to_nat from) l)) at 1. f_equal.
  rewrite drop_drop. replace (Z.to_nat from + Z.to_nat (to - from))%nat with (Z.to_nat to) by lia.
  symmetry. apply take_ge. rewrite length_drop. lia.
Qed.
Lemma length_cut l from to : 0 <= from <= to → to <= lenZ l → lenZ (cut l from to) = to - from.
Proof. unfold cut, lenZ. intros Hf Ht. rewrite length_take, length_drop. lia. Qed.
Lemma cut_bytes l from to : Forall is_byte l → Forall is_byte (cut l from to).
Proof. intros Hl. by apply Forall_take, Forall_drop. Qed.
Lemma cut_cut l from to a b : 0 <= a <= b → b <= to - from → 0 <= from → cut (cut l from to) a b = cut l (from + a) (from + b).
Proof.
  unfold cut. intros Ha Hb Hf. rewrite skipn_firstn_comm, take_take, drop_drop. f_equal; [lia|]. f_equal. lia.
Qed.

Lemma cut_app l a b c : 0 <= a <= b → b <= c → cut l a c = cut l a b ++ cut l b c.
Proof.
  intros Ha Hb. unfold cut. rewrite <- (take_drop (Z.to_nat (b - a)) (take (Z.to_nat (c - a)) _)) at 1.
  rewrite take_take, skipn_firstn_comm, drop_drop. f_equal; f_equal; [lia|lia|f_equal; lia].
Qed.

(** *** The public inputs *)
Definition entry_ok (e : list Z) : Prop := lenZ e = 32 ∧ beToBigIntFr e < FR_MODULUS.
Lemma assertCanonicalFr_Ok e v : assertCanonicalFr e = Ok v ↔ entry_ok e ∧ v = beToBigIntFr e.
Proof.
  unfold assertCanonicalFr, entry_ok. destruct (Z.eqb_spec (lenZ e) 32) as [->|]; cbn [negb]; [|naive_solver].
  destruct (Z.leb_spec FR_MODULUS (beToBigIntFr e)); naive_solver lia.
Qed.
Lemma write_entries_Ok l i out : write_entries i l = Ok out ↔ Forall entry_ok l ∧ out = concat l.
Proof.
  revert i out. induction l as [|e l IH]; intros i out; cbn [write_entries concat].
  - split; [intros [= <-]; by split; [constructor|]|by intros [_ ->]].
  - rewrite Forall_cons. destruct (Z.eqb_spec (lenZ e) 32) as [Hl|Hl]; cbn [negb]; [|split; [done|by intros [[[? _] _] _]]].
    rewrite bind_Ok. setoid_rewrite assertCanonicalFr_Ok. setoid_rewrite bind_Ok. setoid_rewrite IH. naive_solver.
Qed.
Lemma entries_loop_Ok n i pw es : 0 <= i → 12 + (i + Z.of_nat n) * 32 <= lenZ pw →
  entries_loop n i pw = Ok es ↔ Forall entry_ok es ∧ length es = n ∧ concat es = cut pw (12 + i * 32) (12 + (i + Z.of_nat n) * 32).
Proof.
  revert i es. induction n as [|n IH]; intros i es Hi Hl; cbn [entries_loop].
  - replace (cut pw _ _) with (@nil Z) by (unfold cut; by replace (Z.to_nat _) with O by lia).
    split; [by intros [= <-]|]. intros (_ & He & _). by destruct es.
  - set (e := cut pw (12 + i * 32) (12 + i * 32 + 32)).
    assert (He : lenZ e = 32) by (unfold e; rewrite length_cut; lia).
    assert (Hsplit : cut pw (12 + i * 32) (12 + (i + Z.of_nat (S n)) * 32)
      = e ++ cut pw (12 + (i + 1) * 32) (12 + (i + 1 + Z.of_nat n) * 32)).
    { rewrite (cut_app pw _ (12 + i * 32 + 32)) by lia. unfold e. do 2 f_equal; lia. }
    rewrite Hsplit, bind_Ok. setoid_rewrite assertCanonicalFr_Ok. setoid_rewrite bind_Ok.
    split.
    + intros (v & [Hok _] & es' & (Hes & Hn & Hc)%IH & [= <-]); [|lia..]. cbn. by rewrite Forall_cons, Hn, Hc.
    + destruct es as [|e' es]; intros (Hok & Hn & Hc); [done|]. apply Forall_cons in Hok as [Hok Hes]. cbn [concat] in Hc.
      apply app_inj_1 in Hc as [-> Hc]; [|destruct Hok as [Hok _]; unfold lenZ in *; lia].
      exists (beToBigIntFr e). split; [done|]. exists es. split; [|done]. apply IH; [lia..|]. split; [done|]. split; [by injection Hn|done].
Qed.
Lemma lenZ_concat es : Forall entry_ok es → lenZ (concat es) = lenZ es * 32.
Proof.
  induction 1 as [|e es [He _] _ IH]; [done|]. cbn [concat]. rewrite lenZ_app, He, IH. unfold lenZ. cbn [length]. lia.
Qed.

(** Writing after reading: the file is the header and the inputs. *)
Lemma decode_encode pw es : Forall is_byte pw → decodePublicWitness pw = Ok es →
  Forall entry_ok es ∧ Forall (Forall is_byte) es ∧ encodePublicWitness es = Ok pw.
Proof.
  intros Hb. unfold decodePublicWitness.
  destruct (Z.ltb_spec (lenZ pw) 12) as [|H12]; [done|].
  destruct (Z.eqb_spec (getUint32 pw 4) 0) as [Hpriv|]; [|done]. cbn [negb].
  destruct (Z.eqb_spec (getUint32 pw 8) (getUint32 pw 0)) as [Hcnt|]; [|done]. cbn [negb].
  destruct (Z.eqb_spec (lenZ pw) (12 + getUint32 pw 8 * 32)) as [Hlen|]; [|done]. cbn [negb].
  set (n := getUint32 pw 8) in *. assert (Hn : 0 <= n) by lia.
  rewrite entries_loop_Ok by (unfold lenZ in *; lia). rewrite Z2Nat.id by done. intros (Hok & Hes & Hc).
  assert (Hword : ∀ off, 0 <= off → off + 4 <= lenZ pw → cut pw off (off + 4) = be_bytes 4 (getUint32 pw off)).
  { intros off Ho Hl. unfold getUint32. pose proof (be_bytes_of_be (cut pw off (off + 4)) (cut_bytes _ _ _ Hb)) as E.
    pose proof (length_cut pw off (off + 4)) as Ec.
    assert (length (cut pw off (off + 4)) = 4%nat) as E4 by (unfold lenZ in Ec; lia). rewrite E4 in E. by rewrite E. }
  assert (Hpw : pw = be_bytes 4 n ++ be_bytes 4 0 ++ be_bytes 4 n ++ concat es).
  { rewrite (cut_split pw 4 8) at 1 by lia. change 8 with (4 + 4) at 1. change (cut pw 0 4) with (cut pw 0 (0 + 4)).
    rewrite (Hword 4), (Hword 0), Hpriv, <- Hcnt by lia. fold n. do 2 f_equal.
    unfold n at 1. rewrite <- (Hword 8), Hc by lia. rewrite (cut_app pw _ (8 + 4)) by lia. do 2 f_equal. lia. }
  split; [done|]. split.
  - apply Forall_lookup. intros k e Hk. assert (Hcb : Forall is_byte (concat es)) by (rewrite Hc; by apply cut_bytes).
    rewrite <- (take_drop_middle es k e Hk), concat_app in Hcb. cbn [concat] in Hcb.
    by apply Forall_app in Hcb as [_ [Hcb _]%Forall_app].
  - unfold encodePublicWitness. apply bind_Ok. exists (concat es). split; [by apply write_entries_Ok|].
    rewrite Hpw. do 2 f_equal; [unfold lenZ; f_equal; lia|]. do 2 f_equal. f_equal. unfold lenZ. lia.
Qed.
(** Reading after writing. *)
Lemma encode_decode es pw : Z.of_nat (length es) < 2 ^ 32 → encodePublicWitness es = Ok pw → decodePublicWitness pw = Ok es.
Proof.
  intros Hn. unfold encodePublicWitness. rewrite bind_Ok. intros (out & (Hok & ->)%write_entries_Ok & Epw).
  pose proof (lenZ_concat es Hok) as Hl. set (n := lenZ es) in *. assert (0 <= n < 2 ^ 32) by (unfold n, lenZ in *; lia).
  assert (Hpw : pw = be_bytes 4 n ++ be_bytes 4 0 ++ be_bytes 4 n ++ concat es) by congruence. clear Epw.
  assert (Hlen : lenZ pw = 12 + n * 32) by (rewrite Hpw;  rewrite !lenZ_app, !lenZ_be, Hl; lia).
  assert (H0 : getUint32 pw 0 = n).
  { unfold getUint32. assert (cut pw 0 (0 + 4) = be_bytes 4 n) as -> by (rewrite Hpw; apply (cut_mid []); by rewrite ?lenZ_be).
    by apply of_be_be_bytes. }
  assert (H4 : getUint32 pw 4 = 0).
  { unfold getUint32. rewrite Hpw. rewrite cut_mid by by rewrite ?lenZ_be. by apply of_be_be_bytes. }
  assert (H8 : getUint32 pw 8 = n).
  { unfold getUint32. rewrite Hpw. rewrite app_assoc, cut_mid by by rewrite ?lenZ_app, ?lenZ_be. by apply of_be_be_bytes. }
  unfold decodePublicWitness. rewrite Hlen, H0, H4, H8.
  destruct (Z.ltb_spec (12 + n * 32) 12); [lia|]. rewrite !Z.eqb_refl. cbn [negb].
  rewrite (entries_loop_Ok (Z.to_nat n) 0 pw es) by (rewrite ?Hlen; lia). split; [done|]. split; [unfold n, lenZ; lia|].
  rewrite Z2Nat.id by lia. rewrite Hpw, !app_assoc, <- (app_nil_r (_ ++ concat es)), <- app_assoc.
  symmetry. apply cut_mid; rewrite ?lenZ_app, ?lenZ_be, ?Hl; lia.
Qed.

(** *** Compressed points *)
Lemma be_bytes_cons n x : 0 <= x < 256 ^ Z.of_nat (S n) → be_bytes (S n) x = x / 256 ^ Z.of_nat n :: be_bytes n (x mod 256 ^ Z.of_nat n).
Proof.
  intros Hx. assert (0 < 256 ^ Z.of_nat n) by (apply Z.pow_pos_nonneg; lia). rewrite pow256_S in Hx.
  assert (Hq : 0 <= x / 256 ^ Z.of_nat n < 256) by (split; [apply Z.div_pos; lia|apply Z.div_lt_upper_bound; lia]).
  set (l := x / 256 ^ Z.of_nat n :: be_bytes n (x mod 256 ^ Z.of_nat n)).
  assert (Hl : Forall is_byte l) by (constructor; [done|apply be_bytes_bytes]).
  assert (Ho : of_be l = x).
  { unfold l. rewrite of_be_cons, length_be_bytes, of_be_be_bytes by (apply Z.mod_pos_bound; lia).
    pose proof (Z.div_mod x (256 ^ Z.of_nat n)). lia. }
  rewrite <- Ho at 1. replace (S n) with (length l) by (unfold l; cbn [length]; by rewrite length_be_bytes).
  by apply be_bytes_of_be.
Qed.
Lemma be_bytes_inj n x y : 0 <= x < 256 ^ Z.of_nat n → 0 <= y < 256 ^ Z.of_nat n → be_bytes n x = be_bytes n y → x = y.
Proof. intros Hx Hy E. by rewrite <- (of_be_be_bytes n x), E, of_be_be_bytes. Qed.
Lemma be_bytes_zero n : be_bytes n 0 = replicate n 0.
Proof.
  unfold be_bytes. rewrite <- reverse_replicate. f_equal. induction n as [|n IH]; [done|].
  cbn [le_bytes replicate]. change (0 mod 256) with 0. change (0 / 256) with 0. by rewrite IH.
Qed.
Lemma canonical_small x : canonical_fq x → 0 <= x < 64 * 256 ^ Z.of_nat 31.
Proof. unfold canonical_fq. assert (FQ_MODULUS < 64 * 256 ^ Z.of_nat 31) by (vm_compute; reflexivity). lia. Qed.
Lemma canonical_word x : canonical_fq x → 0 <= x < 256 ^ Z.of_nat 32.
Proof. intros Hx%canonical_small. change 32%nat with (S 31). rewrite pow256_S. lia. Qed.
Lemma canonical_head x : canonical_fq x → ∃ h t, be_bytes 32 x = h :: t ∧ 0 <= h < 64.
Proof.
  intros Hx. rewrite (be_bytes_cons 31) by by apply canonical_word. eexists _, _. split; [done|].
  apply canonical_small in Hx. split; [apply Z.div_pos; lia|]. apply Z.div_lt_upper_bound; lia.
Qed.
Lemma flag_bits (f : bool) h : 0 <= h < 64 → let h' := if f then Z.lor h SIGN_FLAG_BIT else h in
  h' = h + (if f then 128 else 0) ∧ is_byte h' ∧ h' mod 64 = h ∧ Z.testbit h' 7 = f ∧ Z.testbit h' 6 = false.
Proof.
  intros Hh. unfold SIGN_FLAG_BIT, is_byte. assert (E : Z.lor h 128 = h + 128) by exact (lor_add_shift h 1 7 ltac:(lia) ltac:(lia)).
  destruct f; cbn zeta; rewrite ?E; rewrite !Z.testbit_odd, !Z.shiftr_div_pow2 by lia; split_and!; try lia;
    change (2 ^ 7) with 128; change (2 ^ 6) with 64.
  - replace ((h + 128) / 128) with 1 by (apply (Z.div_unique _ _ _ h); lia). done.
  - replace ((h + 128) / 64) with 2 by (apply (Z.div_unique _ _ _ h); lia). done.
  - by rewrite Z.div_small by lia.
  - by rewrite Z.div_small by lia.
Qed.
(** What [set_flag] leaves behind a canonical coordinate. *)
Lemma set_flag_spec f x rest : canonical_fq x → Forall is_byte rest → let l := set_flag f (be_bytes 32 x ++ rest) in
  Forall is_byte l ∧ length l = (32 + length rest)%nat ∧ unflag l = be_bytes 32 x ++ rest ∧ greater_flag l = f ∧ infinity_flag l = false ∧
  ∃ l0, l = l0 ++ rest ∧ lenZ l0 = 32 ∧ unflag l0 = be_bytes 32 x.
Proof.
  intros Hx Hr. destruct (canonical_head x Hx) as (h & t & E & Hh). pose proof (be_bytes_bytes 32 x) as Hb.
  pose proof (length_be_bytes 32 x) as Hlen. rewrite E in Hb, Hlen. apply Forall_cons in Hb as [_ Ht].
  destruct (flag_bits f h Hh) as (_ & Hbyte & Hmod & H7 & H6). rewrite E. cbn zeta. cbn [app set_flag].
  unfold unflag, greater_flag, infinity_flag. cbn [head default]. rewrite Hmod. split_and!; [|cbn [length] in *; rewrite length_app; lia|done|done|done|].
  - constructor; [done|]. by apply Forall_app.
  - exists ((if f then Z.lor h SIGN_FLAG_BIT else h) :: t). split; [done|]. split; [unfold lenZ; cbn [length] in *; lia|]. by rewrite Hmod.
Qed.
Lemma set_flag_zero f x rest : canonical_fq x → Forall is_byte rest → set_flag f (be_bytes 32 x ++ rest) = replicate (32 + length rest) 0 →
  x = 0 ∧ rest = replicate (length rest) 0.
Proof.
  intros Hx Hr E. destruct (set_flag_spec f x rest Hx Hr) as (_ & _ & Hu & _). rewrite E in Hu.
  rewrite replicate_add in Hu. change (unflag (replicate 32 0 ++ replicate (length rest) 0)) with (replicate 32 0 ++ replicate (length rest) 0) in Hu.
  apply app_inj_1 in Hu as [Hz Hu]; [|by rewrite length_be_bytes]. split; [|done]. rewrite <- be_bytes_zero in Hz. symmetry in Hz.
  by apply be_bytes_inj in Hz; [|apply canonical_word..].
Qed.

Lemma assertCanonicalFq_Ok x : canonical_fq x → assertCanonicalFq x = Ok tt.
Proof.
  unfold canonical_fq, assertCanonicalFq. intros [H0 H1].
  destruct (Z.ltb_spec x 0); [lia|]. destruct (Z.leb_spec FQ_MODULUS x); [lia|]. done.
Qed.
Lemma rem_neg y : canonical_fq y → Z.rem (FQ_MODULUS - y) FQ_MODULUS = fq_neg y.
Proof. unfold canonical_fq, fq_neg. intros Hy. apply Z.rem_mod_nonneg; lia. Qed.
Lemma fqSignFlagBit_spec y : canonical_fq y → fqSignFlagBit y = true ↔ fq_neg y < y.
Proof. intros Hy. unfold fqSignFlagBit. rewrite rem_neg by done. apply Z.ltb_lt. Qed.
Lemma fq2SignFlagBit_spec y0 y1 : canonical_fq y0 → canonical_fq y1 → fq2SignFlagBit y0 y1 = true ↔ greater2 y0 y1.
Proof.
  intros H0 H1. unfold fq2SignFlagBit, greater2. rewrite !rem_neg by done.
  destruct (Z.eqb_spec y0 (fq_neg y0)); cbn [negb]; rewrite Z.ltb_lt; naive_solver lia.
Qed.
Lemma beToBigInt_be n x : 0 <= x < 256 ^ Z.of_nat n → beToBigInt (be_bytes n x) = x.
Proof. intros Hx. unfold beToBigInt. rewrite foldl_lor_be by apply be_bytes_bytes. by apply of_be_be_bytes. Qed.
Lemma isAllZero_spec l : isAllZero l = true ↔ l = replicate (length l) 0.
Proof.
  unfold isAllZero. induction l as [|x l IH]; [done|]. cbn [forallb length replicate]. rewrite andb_true_iff, Z.eqb_eq, IH.
  split; [by intros [-> <-]|]. by intros [= -> <-].
Qed.

Section Files.
Context `{Bn254} {Laws : Bn254Laws}.
(** The 64 and 128 bytes of a point: infinity, or canonical coordinates. *)
Definition g1_bytes (p : list Z) : Prop :=
  p = replicate 64 0 ∨ ∃ x y, canonical_fq x ∧ canonical_fq y ∧ on_g1 x y ∧ p = be_bytes 32 x ++ be_bytes 32 y.
Definition g2_bytes (p : list Z) : Prop :=
  p = replicate 128 0 ∨ ∃ x0 x1 y0 y1, canonical_fq x0 ∧ canonical_fq x1 ∧ canonical_fq y0 ∧ canonical_fq y1 ∧
    on_g2 x0 x1 y0 y1 ∧ p = be_bytes 32 x0 ++ be_bytes 32 x1 ++ be_bytes 32 y0 ++ be_bytes 32 y1.
Lemma not_all_zero l n : length l = n → l ≠ replicate n 0 → isAllZero l = false.
Proof. intros <- Hl. destruct (isAllZero l) eqn:E; [|done]. by apply isAllZero_spec in E. Qed.

Lemma compressG1_spec p : g1_bytes p → ∃ l, compressG1 p = Ok l ∧ lenZ l = 32 ∧ alt_bn128_g1_decompress l = Some p.
Proof.
  intros [->|(x & y & Hx & Hy & Hon & ->)].
  - exists (replicate 32 0). split; [done|]. split; [done|]. apply g1_zero.
  - assert (Hx0 : x ≠ 0) by (intros ->; by apply (g1_x y)).
    assert (Hz : isAllZero (be_bytes 32 x ++ be_bytes 32 y) = false).
    { apply (not_all_zero _ 64); [by rewrite length_app, !length_be_bytes|]. change 64%nat with (32 + 32)%nat.
      rewrite replicate_add. intros [E _]%app_inj_1; [|by rewrite length_be_bytes, length_replicate].
      rewrite <- be_bytes_zero in E. by apply be_bytes_inj in E; [|apply canonical_word..]. }
    assert (C0 : cut (be_bytes 32 x ++ be_bytes 32 y) 0 32 = be_bytes 32 x) by (apply (cut_mid []); by rewrite ?lenZ_be).
    assert (C1 : cut (be_bytes 32 x ++ be_bytes 32 y) 32 64 = be_bytes 32 y).
    { apply cut_end; by rewrite ?lenZ_be. }
    destruct (set_flag_spec (fqSignFlagBit y) x [] Hx ltac:(constructor)) as (Hb & Hl & Hu & Hg & Hi & _). rewrite app_nil_r in *.
    exists (set_flag (fqSignFlagBit y) (be_bytes 32 x)). split; [|split].
    + unfold compressG1. rewrite lenZ_app, !lenZ_be, Hz, C0, C1, !beToBigInt_be, !assertCanonicalFq_Ok by (try apply canonical_word; done). done.
    + unfold lenZ. by rewrite Hl.
    + apply g1_root; [done|done| |done|done|done|done| |].
      * intros E. pose proof (set_flag_zero (fqSignFlagBit y) x [] Hx ltac:(constructor)) as Hs. rewrite app_nil_r in Hs. by destruct (Hs E).
      * rewrite Hu. by apply of_be_be_bytes, canonical_word.
      * rewrite Hg. by apply fqSignFlagBit_spec.
Qed.

Lemma compressG2_spec p : g2_bytes p → ∃ l, compressG2 p = Ok l ∧ lenZ l = 64 ∧ alt_bn128_g2_decompress l = Some p.
Proof.
  intros [->|(x0 & x1 & y0 & y1 & Hx0 & Hx1 & Hy0 & Hy1 & Hon & ->)].
  - exists (replicate 64 0). split; [done|]. split; [done|]. apply g2_zero.
  - assert (Hnz : ~ (x0 = 0 ∧ x1 = 0)) by (intros [-> ->]; by apply (g2_x y0 y1)).
    assert (Hzero : be_bytes 32 x0 ++ be_bytes 32 x1 ≠ replicate (32 + 32) 0).
    { rewrite replicate_add. intros [E0 E1]%app_inj_1; [|by rewrite length_be_bytes, length_replicate].
      rewrite <- be_bytes_zero in E0, E1. apply be_bytes_inj in E0; [|by apply canonical_word..].
      apply be_bytes_inj in E1; [|by apply canonical_word..]. by apply Hnz. }
    set (p := be_bytes 32 x0 ++ be_bytes 32 x1 ++ be_bytes 32 y0 ++ be_bytes 32 y1).
    assert (Hz : isAllZero p = false).
    { apply (not_all_zero _ 128); [unfold p; by rewrite !length_app, !length_be_bytes|]. unfold p. rewrite app_assoc.
      change 128%nat with (32 + 32 + 64)%nat. rewrite replicate_add. intros [E _]%app_inj_1; [done|].
      by rewrite length_app, !length_be_bytes, length_replicate. }
    assert (C : cut p 0 64 = be_bytes 32 x0 ++ be_bytes 32 x1).
    { unfold p. rewrite app_assoc. apply (cut_mid []); by rewrite ?lenZ_app, ?lenZ_be. }
    assert (C2 : cut p 64 96 = be_bytes 32 y0).
    { unfold p. rewrite app_assoc. apply cut_mid; by rewrite ?lenZ_app, ?lenZ_be. }
    assert (C3 : cut p 96 128 = be_bytes 32 y1).
    { unfold p. rewrite !app_assoc. apply cut_end; by rewrite ?lenZ_app, ?lenZ_be. }
    assert (C0 : cut (be_bytes 32 x0 ++ be_bytes 32 x1) 0 32 = be_bytes 32 x0) by (apply (cut_mid []); by rewrite ?lenZ_be).
    assert (C1 : cut (be_bytes 32 x0 ++ be_bytes 32 x1) 32 64 = be_bytes 32 x1).
    { apply cut_end; by rewrite ?lenZ_be. }
    set (f := fq2SignFlagBit y0 y1).
    destruct (set_flag_spec f x0 (be_bytes 32 x1) Hx0 (be_bytes_bytes 32 x1)) as (Hb & Hl & Hu & Hg & Hi & l0 & El & Hl0 & Hu0).
    exists (set_flag f (be_bytes 32 x0 ++ be_bytes 32 x1)). split; [|split].
    + unfold compressG2. assert (Hlen : lenZ p = 128) by (unfold p; by rewrite !lenZ_app, !lenZ_be).
      rewrite Hlen, Hz, C, C2, C3, C0, C1, !beToBigInt_be, !assertCanonicalFq_Ok by (try apply canonical_word; done). done.
    + unfold lenZ. by rewrite Hl, length_be_bytes.
    + apply g2_root; [done|by rewrite Hl, length_be_bytes| |done|done|done|done|done|done| | |].
      * intros E. pose proof (set_flag_zero f x0 (be_bytes 32 x1) Hx0 (be_bytes_bytes 32 x1)) as Hs. rewrite length_be_bytes in Hs.
        destruct (Hs E) as [E0 E1]. rewrite <- be_bytes_zero in E1. apply be_bytes_inj in E1; [|by apply canonical_word..]. by apply Hnz.
      * rewrite El. assert (cut (l0 ++ be_bytes 32 x1) 0 32 = l0) as -> by (apply (cut_mid []); by rewrite ?Hl0).
        rewrite Hu0. by apply of_be_be_bytes, canonical_word.
      * rewrite El. assert (cut (l0 ++ be_bytes 32 x1) 32 64 = be_bytes 32 x1) as ->.
        { apply cut_end; by rewrite ?Hl0, ?lenZ_be. }
        by apply of_be_be_bytes, canonical_word.
      * rewrite Hg. by apply fq2SignFlagBit_spec.
Qed.

Definition points_ok (d : DecodedProof) : Prop :=
  g1_bytes (Decode.a d) ∧ g2_bytes (Decode.b d) ∧ g1_bytes (Decode.c d) ∧ g1_bytes (commitments d) ∧ g1_bytes (commitmentPok d).
Lemma decodeProof_layout proof d : Forall is_byte proof → decodeProof proof = Ok d → commitmentCount d = 1 →
  proof = Decode.a d ++ Decode.b d ++ Decode.c d ++ be_bytes 4 1 ++ commitments d ++ commitmentPok d.
Proof.
  intros Hb. unfold decodeProof. destruct (Z.ltb_spec (lenZ proof) 260) as [|H260]; [done|].
  destruct (Z.eqb_spec (lenZ proof) (260 + 64 * getUint32 proof 256 + 64)) as [Hlen|]; [|done]. cbn [negb].
  intros [= <-]. cbn [commitmentCount Decode.a Decode.b Decode.c commitments commitmentPok]. intros Hc. rewrite Hc in *.
  assert (Hw : cut proof 256 (256 + 4) = be_bytes 4 1).
  { unfold getUint32 in Hc. rewrite <- Hc.
    pose proof (be_bytes_of_be _ (cut_bytes proof 256 (256 + 4) Hb)) as E. pose proof (length_cut proof 256 (256 + 4)) as El.
    assert (length (cut proof 256 (256 + 4)) = 4%nat) as E4 by (unfold lenZ in El; unfold lenZ in Hlen; lia). by rewrite E4 in E. }
  change (256 + 4) with 260 in Hw. rewrite <- Hw. change (260 + 64 * 1) with 324. change (324 + 64) with 388.
  rewrite <- !cut_app by done. unfold cut. rewrite drop_0, take_ge; [done|]. unfold lenZ in Hlen. lia.
Qed.

Lemma verify_data key proof es pw : encodePublicWitness es = Ok pw → key ≠ replicate 32 0 →
  verify_cpi key key proof es = Ok (key, proof ++ pw).
Proof.
  unfold encodePublicWitness, verify_cpi. rewrite bind_Ok. intros (out & (_ & ->)%write_entries_Ok & E) Hk.
  rewrite bool_decide_eq_true_2, bool_decide_eq_false_2 by done. cbn [negb]. congruence.
Qed.

(** C32. From the prover's files to the verifier: when the two files that the
    prover wrote for a circuit parse, with the circuit's number of inputs, one
    commitment and points of the curves, the bundle is built, it is well formed
    for the transaction builder, and the program that is given its proof and
    inputs unpacks exactly the proof file and hands the verifier exactly the
    bytes of the two files, one after the other. *)
Theorem files_reach_verifier c proof pw d es key : Forall is_byte proof → Forall is_byte pw →
  decodeProof proof = Ok d → commitmentCount d = 1 → points_ok d →
  decodePublicWitness pw = Ok es → length es = PUBLIC_INPUT_COUNT c → key ≠ replicate 32 0 →
  ∃ b, bundle_of_files c proof pw = Ok b ∧ circuitId b = c ∧ Wire.well_formed b ∧
    decompress_proof (TxBuilder.proof b) = Ok proof ∧
    verify_cpi key key proof (publicInputs b) = Ok (key, proof ++ pw) ∧
    proofBytesForChain proof (publicInputs b) = Ok (proof ++ pw).
Proof.
  intros Hpb Hwb Hd Hc (Pa & Pb & Pc & Pm & Pk) Hes Hn Hkey.
  destruct (decode_encode pw es Hwb Hes) as (Hok & _ & Henc).
  destruct (compressG1_spec _ Pa) as (la & Ea & La & Da). destruct (compressG2_spec _ Pb) as (lb & Eb & Lb & Db).
  destruct (compressG1_spec _ Pc) as (lc & Ec & Lc & Dc). destruct (compressG1_spec _ Pm) as (lm & Em & Lm & Dm).
  destruct (compressG1_spec _ Pk) as (lk & Ek & Lk & Dk).
  exists (mkBundle c (la ++ lb ++ lc ++ lm ++ lk) es). cbn [circuitId publicInputs TxBuilder.proof]. split.
  { unfold bundle_of_files. rewrite Hes. cbn [mbind result_bind]. rewrite Hn, Nat.eqb_refl. cbn [negb].
    unfold compressProof. rewrite Hd. cbn [mbind result_bind]. unfold compressDecodedProof.
    rewrite Hc, Ea, Eb, Ec, Em, Ek. done. }
  split; [done|]. split.
  { unfold Wire.well_formed. cbn [publicInputs circuitId TxBuilder.proof]. split; [done|]. split.
    - eapply Forall_impl; [exact Hok|]. intros e [He _]. unfold lenZ in He. lia.
    - rewrite !length_app. unfold lenZ in *. lia. }
  split.
  { unfold decompress_proof. set (l := la ++ lb ++ lc ++ lm ++ lk).
    assert (cut l 0 32 = la) as -> by (apply (cut_mid []); by rewrite ?La).
    assert (cut l 32 96 = lb) as -> by (apply cut_mid; by rewrite ?La, ?Lb).
    assert (cut l 96 128 = lc) as ->.
    { unfold l. rewrite app_assoc. apply cut_mid; rewrite ?lenZ_app; lia. }
    assert (cut l 128 160 = lm) as ->.
    { unfold l. rewrite (app_assoc la), (app_assoc (la ++ lb)). apply cut_mid; rewrite ?lenZ_app; lia. }
    assert (cut l 160 192 = lk) as ->.
    { unfold l. rewrite !app_assoc. apply cut_end; rewrite ?lenZ_app; lia. }
    rewrite Da, Db, Dc, Dm, Dk. cbn [or_invalid mbind result_bind]. f_equal. symmetry. by apply decodeProof_layout. }
  split; [by apply verify_data|]. unfold proofBytesForChain. by rewrite Henc.
Qed.

(** The witness file is the inputs and nothing else: writing canonical
    inputs and reading them back gives them again, and a file that is read is
    the one that writing its inputs produces. *)
Theorem public_witness_codec es pw :
  (encodePublicWitness es = Ok pw → Z.of_nat (length es) < 2 ^ 32 → decodePublicWitness pw = Ok es) ∧
  (decodePublicWitness pw = Ok es → Forall is_byte pw → encodePublicWitness es = Ok pw).
Proof.
  split; [intros; by apply encode_decode|]. intros Hd Hb. by destruct (decode_encode pw es Hb Hd) as (_ & _ & ?).
Qed.
End Files.
End Files.

(** ** Witness: a deposit's files over a toy curve *)
Module FilesWitness.
Import Decode Compress Verify Files.
(** The curve whose points have [y = 1] or its negative, and [x] not zero. *)
Definition toy_y (flag : bool) : Z := if flag then FQ_MODULUS - 1 else 1.
#[local] Instance toy_bn254 : Bn254 := {|
  on_g1 x y := 0 < x ∧ (y = toy_y false ∨ y = toy_y true);
  on_g2 x0 x1 y0 y1 := 0 < x0 ∧ y0 = 0 ∧ (y1 = toy_y false ∨ y1 = toy_y true);
  alt_bn128_g1_decompress l :=
    if isAllZero l then Some (replicate 64 0)
    else Some (be_bytes 32 (of_be (unflag l)) ++ be_bytes 32 (toy_y (greater_flag l)));
  alt_bn128_g2_decompress l :=
    if isAllZero l then Some (replicate 128 0)
    else Some (be_bytes 32 (of_be (unflag (cut l 0 32))) ++ be_bytes 32 (of_be (cut l 32 64)) ++ be_bytes 32 0 ++
      be_bytes 32 (toy_y (greater_flag l))) |}.
Lemma toy_flag f : fq_neg (toy_y f) < toy_y f ↔ f = true.
Proof. destruct f; vm_compute; split; try done; by intros []. Qed.
Lemma toy_sign l y : y = toy_y false ∨ y = toy_y true → (greater_flag l = true ↔ fq_neg y < y) → y = toy_y (greater_flag l).
Proof. intros [-> | ->] Hs; rewrite toy_flag in Hs; destruct (greater_flag l); [by destruct Hs as [H _]; specialize (H eq_refl)|done|done|by destruct Hs as [_ H]; specialize (H eq_refl)]. Qed.
#[local] Instance toy_bn254_laws : Bn254Laws.
Proof.
  split.
  - vm_compute. reflexivity.
  - vm_compute. reflexivity.
  - intros l x y Hb Hl Hnz Hi [Hx Hy] _ _ Hu Hs. cbn [alt_bn128_g1_decompress toy_bn254].
    rewrite (not_all_zero l 32), Hu, <- (toy_sign l y Hy Hs) by done. done.
  - intros l x0 x1 y0 y1 Hb Hl Hnz Hi (Hx & -> & Hy) _ _ _ _ Hu0 Hu1 Hs. cbn [alt_bn128_g2_decompress toy_bn254].
    rewrite (not_all_zero l 64), Hu0, Hu1 by done. do 4 f_equal. rewrite <- (toy_sign l y1 Hy); [done|]. rewrite Hs.
    unfold greater2. assert (fq_neg 0 = 0) as -> by (vm_compute; reflexivity). naive_solver lia.
  - intros y [Hx _]. lia.
  - intros y0 y1 [Hx _]. lia.
Qed.
Definition toy_g1 (x : Z) (f : bool) : list Z := be_bytes 32 x ++ be_bytes 32 (toy_y f).
Definition toy_file : list Z :=
  toy_g1 5 false ++ (be_bytes 32 6 ++ be_bytes 32 7 ++ be_bytes 32 0 ++ be_bytes 32 (toy_y true)) ++ toy_g1 8 true
  ++ be_bytes 4 1 ++ replicate 64 0 ++ toy_g1 9 true.
Definition toy_words : list (list Z) := be_bytes 32 <$> seqZ 100 13.
Definition toy_pw : list Z := be_bytes 4 13 ++ be_bytes 4 0 ++ be_bytes 4 13 ++ concat toy_words.
Definition toy_decoded : DecodedProof :=
  mkDecoded (toy_g1 5 false) (be_bytes 32 6 ++ be_bytes 32 7 ++ be_bytes 32 0 ++ be_bytes 32 (toy_y true)) (toy_g1 8 true)
    1 (replicate 64 0) (toy_g1 9 true).
Lemma toy_canonical : Forall canonical_fq [5; 6; 7; 8; 9; 0; toy_y false; toy_y true].
Proof. repeat (constructor; [vm_compute; split; [discriminate|reflexivity]|]). constructor. Qed.
Lemma toy_points : points_ok toy_decoded.
Proof.
  pose proof toy_canonical as Hc. rewrite !Forall_cons in Hc. destruct Hc as (H5 & H6 & H7 & H8 & H9 & H0 & Hf & Ht & _).
  split; [|split; [|split; [|split]]].
  - right. exists 5, (toy_y false). split; [exact H5|]. split; [exact Hf|]. split; [|reflexivity]. split; [lia|left; reflexivity].
  - right. exists 6, 7, 0, (toy_y true). split; [exact H6|]. split; [exact H7|]. split; [exact H0|]. split; [exact Ht|].
    split; [|reflexivity]. split; [lia|]. split; [reflexivity|right; reflexivity].
  - right. exists 8, (toy_y true). split; [exact H8|]. split; [exact Ht|]. split; [|reflexivity]. split; [lia|right; reflexivity].
  - left. reflexivity.
  - right. exists 9, (toy_y true). split; [exact H9|]. split; [exact Ht|]. split; [|reflexivity]. split; [lia|right; reflexivity].
Qed.
Lemma bytes_check l : forallb (λ b, (0 <=? b) && (b <? 256)) l = true → Forall is_byte l.
Proof.
  rewrite forallb_forall, Forall_forall. intros Hl b Hb. apply list_elem_of_In in Hb. specialize (Hl b Hb).
  apply andb_true_iff in Hl as [?%Z.leb_le ?%Z.ltb_lt]. done.
Qed.
Lemma files_reach_verifier_witness : ∃ b, bundle_of_files Deposit toy_file toy_pw = Ok b ∧ length (TxBuilder.proof b) = 192%nat ∧
  decompress_proof (TxBuilder.proof b) = Ok toy_file.
Proof.
  destruct (files_reach_verifier Deposit toy_file toy_pw toy_decoded toy_words (be_bytes 32 1)) as (b & Hb & _ & (_ & _ & Hl) & Hd & _).
  - apply bytes_check. vm_compute. reflexivity.
  - apply bytes_check. vm_compute. reflexivity.
  - vm_compute. reflexivity.
  - reflexivity.
  - exact toy_points.
  - vm_compute. reflexivity.
  - reflexivity.
  - vm_compute. discriminate.
  - exists b. split; [exact Hb|]. split; [exact Hl|exact Hd].
Defined.
Lemma public_witness_codec_witness : decodePublicWitness toy_pw = Ok toy_words ∧ encodePublicWitness toy_words = Ok toy_pw.
Proof.
  assert (He : encodePublicWitness toy_words = Ok toy_pw) by (vm_compute; reflexivity). split; [|exact He].
  apply public_witness_codec; [exact He|]. vm_compute. reflexivity.
Defined.
End FilesWitness.
