(* ===== verification/Pool.v ===== *)
(** * The pool program ([programs/kakure_pool])

    [Pool] holds the proof-carrying instructions as the program runs them on its
    accounts: the checks of each handler in their order, the insertion of the
    new leaves, the creation of the nullifiers and the call of the verifier.
    [PoolSpec] shows that an instruction the wallet built gets there, with
    exactly the proof and the public inputs it was proved for.  The runtime is
    [Syscalls], an address derivation that of [Web3].

    The handlers stop at the verifier's call: nothing follows it in a spend; the
    asset registry and the token transfers that follow it in a deposit and in a
    withdrawal are not modelled, nor are the administrator's instructions. *)
From S2P Require Import Prelude Bytes Solana TxBuilder Prover.
Local Open Scope Z_scope.

(** An account; one that does not exist is the system program's, with no data. *)
Record Account := mkAccount { acc_owner : PublicKey; acc_data : list Z }.

(** What the runtime provides: the Poseidon syscall, big-endian, which fails on
    an input that is no field element, and whether the system program lets a
    payer fund, allocate and assign an account of a size (lamports are not
    modelled). *)
Class Syscalls := {
  sol_poseidon : list (list Z) → option (list Z);
  allocates : PublicKey → PublicKey → Z → bool }.
(** A field element in 32 bytes. *)
Definition canonical_word (w : list Z) : Prop :=
  length w = 32%nat ∧ Forall is_byte w ∧ of_be w < BN254_SCALAR_FIELD_MODULUS.
Class SyscallLaws `{Syscalls} : Prop :=
  poseidon_word left right level : canonical_word left → canonical_word right → canonical_word level →
    ∃ h, sol_poseidon [left; right; level] = Some h ∧ canonical_word h.

Module Pool.
Import Solana.State Address TxBuilder Program.

(** [error.rs], and the errors of the runtime that the handlers return. *)
Inductive ProgramError :=
  | Paused | InvalidPublicInputCount | StaleRoot | NullifierSpent | InvalidLeaf | AmountMismatch | AssetMismatch
  | RecipientMismatch | IntentHashNotZero | UnsupportedMint
  | NotEnoughAccountKeys | MissingRequiredSignature | InvalidSeeds | IncorrectProgramId | InvalidAccountData
  | AccountAlreadyInitialized | InvalidArgument | System_failed | Verify_failed (e : Verify.VerifyError).
(** [events.rs]: what the log lines hold. *)
Inductive Event :=
  | NoteInserted (leaf_index : Z) (leaf eph_pub_x : list Z) (tag cek_wrap : option (list Z)) (ciphertext : list (list Z)) (root : list Z)
  | NullifierSpent_event (nullifier : list Z).
(** The accounts and the log of a transaction. *)
Record Tx := mkTx { accounts : PublicKey → Account; logs : list Event }.
Record AccountInfo := mkInfo { key : PublicKey; is_signer : bool }.
(** The call of the verifier: its program and the instruction's data. *)
Definition CPI : Type := PublicKey * list Z.

Notation P := (M Tx ProgramError).
Definition require (b : bool) (e : ProgramError) : P unit := if b then mret tt else throw e.
Definition pure {A} (r : result ProgramError A) : P A := lift (λ e, e) r.
Definition account (k : PublicKey) : P Account := tx ← get; mret (accounts tx k).
Definition set_account (k : PublicKey) (a : Account) : P unit :=
  modify (λ tx, mkTx (λ k', if decide (k' = k) then a else accounts tx k') (logs tx)).
Definition emit (e : Event) : P unit := modify (λ tx, mkTx (accounts tx) (logs tx ++ [e])).

Section Pool.
Context `{Web3} `{Sha256} `{Bn254} `{Syscalls}.

(** *** [state.rs], [pda.rs], [merkle.rs] *)
Definition set_side_node (data : list Z) (level : Z) (v : list Z) : list Z := splice data (OFF_SIDE_NODES + level * 32) v.
Definition set_next_leaf_index (data : list Z) (v : Z) : list Z := splice data OFF_NEXT_LEAF_INDEX (le_bytes 8 v).
Definition pool_pda (program_id : PublicKey) : PublicKey * Z := findProgramAddressSync [text_bytes "pool"] program_id.
Definition nullifier_pda (program_id : PublicKey) (nullifier : list Z) : PublicKey * Z :=
  findProgramAddressSync [text_bytes "nullifier"; nullifier] program_id.
Definition ASSET_LEN : Z := 32 + 32 + 20 + 1.
Definition asset_mint (data : list Z) : PublicKey := slice data 0 32.
Definition asset_vault (data : list Z) : PublicKey := slice data 32 32.
Definition zero_word : list Z := replicate 32 0.

Definition hash3 (left right : list Z) (level : Z) : result ProgramError (list Z) :=
  match sol_poseidon [left; right; be_bytes 32 level] with Some h => Ok h | None => Err InvalidLeaf end.
(** The loop from [level], with [todo] levels left. *)
Fixpoint insert_loop (todo : nat) (level : Z) (data node : list Z) (index : Z) : result ProgramError (list Z * list Z) :=
  match todo with
  | O => Ok (data, node)
  | S todo =>
      if Z.land index 1 =? 0 then
        let data := set_side_node data level node in
        if index =? 0 then Ok (data, node) else insert_loop todo (level + 1) data node (Z.shiftr index 1)
      else
        node ← hash3 (side_node data level) node level;
        insert_loop todo (level + 1) data node (Z.shiftr index 1)
  end.
Definition insert (data leaf : list Z) : result ProgramError (list Z * (Z * list Z)) :=
  if bool_decide (leaf = zero_word) then Err InvalidLeaf
  else
    let leaf_index := next_leaf_index data in
    if 2 ^ TREE_DEPTH <=? leaf_index then Err InvalidAccountData
    else
      '(data, node) ← insert_loop (Z.to_nat TREE_DEPTH) 0 data leaf leaf_index;
      Ok (push_root (set_next_leaf_index data (leaf_index + 1)) node, (leaf_index, node)).

(** *** The shared checks ([processor.rs]) *)
Definition TOKEN_2022_PROGRAM_ID : PublicKey := fromBase58 "TokenzQdBNbLqP5VEhdkAS6EPFLC1PHnBqCXEpPxuEb".
Definition token_program_supported (program : PublicKey) : bool :=
  bool_decide (program = TOKEN_PROGRAM_ID) || bool_decide (program = TOKEN_2022_PROGRAM_ID).
Definition expect_pool_pda (program_id : PublicKey) (pool_ai : AccountInfo) : P unit :=
  pool ← account (key pool_ai);
  require (bool_decide (key pool_ai = (pool_pda program_id).1) && bool_decide (acc_owner pool = program_id)) InvalidSeeds.
(** [Pool::new] on the account's data. *)
Definition load_pool (pool_ai : AccountInfo) : P (list Z) :=
  pool ← account (key pool_ai);
  _ ← require (Z.of_nat (length (acc_data pool)) =? POOL_LEN) InvalidAccountData;
  mret (acc_data pool).
Definition check_count (public_inputs : list (list Z)) (expected : nat) : P unit :=
  require (length public_inputs =? expected)%nat InvalidPublicInputCount.
Definition resolve_root (pool : list Z) (root_index : Z) : P (list Z) :=
  let root := root_at pool root_index in
  _ ← require (negb (bool_decide (root = zero_word))) StaleRoot;
  mret root.
Definition verifier_of (pool : list Z) (circuit_id : Z) : P PublicKey :=
  match verifier pool circuit_id with Some k => mret k | None => throw InvalidArgument end.
Definition create_pda_if_needed (program_id : PublicKey) (payer target : AccountInfo) (space : Z) : P unit :=
  a ← account (key target);
  _ ← require (negb (bool_decide (acc_owner a = program_id) || negb (bool_decide (acc_data a = [])))) AccountAlreadyInitialized;
  _ ← require (allocates (key payer) (key target) space) System_failed;
  set_account (key target) (mkAccount program_id (replicate (Z.to_nat space) 0)).
Definition create_nullifier (program_id : PublicKey) (payer nullifier_ai : AccountInfo) (nullifier : list Z) : P unit :=
  let '(expected, bump) := nullifier_pda program_id nullifier in
  _ ← require (bool_decide (key nullifier_ai = expected)) InvalidSeeds;
  a ← account (key nullifier_ai);
  _ ← require (negb (bool_decide (acc_owner a = program_id))) NullifierSpent;
  _ ← create_pda_if_needed program_id payer nullifier_ai 1;
  a ← account (key nullifier_ai);
  _ ← set_account (key nullifier_ai) (mkAccount (acc_owner a) (<[0%nat := bump]> (acc_data a)));
  emit (NullifierSpent_event nullifier).
(** The pool's data is read and written back at each insertion. *)
Definition insert_and_emit (pool_ai : AccountInfo) (leaf eph_pub_x : list Z) (tag cek_wrap : option (list Z))
    (ciphertext : list (list Z)) : P unit :=
  pool ← account (key pool_ai);
  r ← pure (insert (acc_data pool) leaf);
  let '(data, (leaf_index, root)) := r in
  _ ← set_account (key pool_ai) (mkAccount (acc_owner pool) data);
  emit (NoteInserted leaf_index leaf eph_pub_x tag cek_wrap ciphertext root).
Definition input (public_inputs : list (list Z)) (i : nat) : list Z := default [] (public_inputs !! i).
Definition ct7 (inputs : list (list Z)) (start : nat) : list (list Z) := take 7 (drop start inputs).
(** The amount as a field element. *)
Definition amount_field (amount : Z) : list Z := replicate 24 0 ++ be_bytes 8 amount.
Definition call_verifier (proof : list Z) (verifier_ai : AccountInfo) (verifier_key : PublicKey) (full : list (list Z)) : P CPI :=
  uncompressed ← lift Verify_failed (Verify.decompress_proof proof);
  lift Verify_failed (Verify.verify_cpi (key verifier_ai) verifier_key uncompressed full).

(** *** The handlers *)
Definition deposit (program_id : PublicKey) (infos : list AccountInfo) (proof : list Z) (public_inputs : list (list Z)) (amount : Z) : P CPI :=
  match infos with
  | depositor :: pool_ai :: asset_ai :: mint_ai :: vault_ai :: depositor_token_ai :: token_program_ai :: ata_program_ai
      :: system_program_ai :: verifier_ai :: _ =>
      _ ← require (is_signer depositor) MissingRequiredSignature;
      _ ← require (token_program_supported (key token_program_ai)) UnsupportedMint;
      _ ← require (bool_decide (key ata_program_ai = ASSOCIATED_TOKEN_PROGRAM_ID)) IncorrectProgramId;
      _ ← check_count public_inputs 11;
      mint ← account (key mint_ai);
      _ ← require (bool_decide (acc_owner mint = key token_program_ai)) UnsupportedMint;
      _ ← require (bool_decide (input public_inputs 2 = amount_field amount)) AmountMismatch;
      _ ← require (bool_decide (input public_inputs 3 = asset_id_field (key mint_ai))) AssetMismatch;
      pool ← load_pool pool_ai;
      _ ← require (negb (paused pool)) Paused;
      let full := [compliance_pk_x pool; compliance_pk_y pool] ++ public_inputs in
      verifier_key ← verifier_of pool 0;
      _ ← insert_and_emit pool_ai (input public_inputs 0) (input public_inputs 1) None None (ct7 public_inputs 4);
      call_verifier proof verifier_ai verifier_key full
  | _ => throw NotEnoughAccountKeys
  end.
Definition transfer_like (program_id : PublicKey) (infos : list AccountInfo) (proof : list Z) (public_inputs : list (list Z))
    (root_index circuit_id : Z) (expected_count : nat) : P CPI :=
  match infos with
  | payer :: pool_ai :: nullifier_ai :: system_program_ai :: verifier_ai :: _ =>
      _ ← require (is_signer payer) MissingRequiredSignature;
      _ ← expect_pool_pda program_id pool_ai;
      _ ← check_count public_inputs expected_count;
      let nullifier := input public_inputs 0 in
      pool ← load_pool pool_ai;
      _ ← require (negb (paused pool)) Paused;
      root ← resolve_root pool root_index;
      let full := [compliance_pk_x pool; compliance_pk_y pool; nullifier; root] ++ drop 1 public_inputs in
      verifier_key ← verifier_of pool circuit_id;
      _ ← insert_and_emit pool_ai (input public_inputs 1) (input public_inputs 2) (Some (input public_inputs 3))
            (Some (input public_inputs 4)) (ct7 public_inputs 5);
      _ ← insert_and_emit pool_ai (input public_inputs 12) (input public_inputs 13) None None (ct7 public_inputs 14);
      _ ← create_nullifier program_id payer nullifier_ai nullifier;
      call_verifier proof verifier_ai verifier_key full
  | _ => throw NotEnoughAccountKeys
  end.
Definition split_multisig (program_id : PublicKey) (infos : list AccountInfo) (proof : list Z) (public_inputs : list (list Z))
    (root_index : Z) : P CPI :=
  match infos with
  | payer :: pool_ai :: nullifier_ai :: system_program_ai :: verifier_ai :: _ =>
      _ ← require (is_signer payer) MissingRequiredSignature;
      _ ← expect_pool_pda program_id pool_ai;
      _ ← check_count public_inputs 19;
      let nullifier := input public_inputs 0 in
      pool ← load_pool pool_ai;
      _ ← require (negb (paused pool)) Paused;
      root ← resolve_root pool root_index;
      let full := [compliance_pk_x pool; compliance_pk_y pool; nullifier; root] ++ drop 1 public_inputs in
      verifier_key ← verifier_of pool 4;
      _ ← insert_and_emit pool_ai (input public_inputs 1) (input public_inputs 2) None None (ct7 public_inputs 3);
      _ ← insert_and_emit pool_ai (input public_inputs 10) (input public_inputs 11) None None (ct7 public_inputs 12);
      _ ← create_nullifier program_id payer nullifier_ai nullifier;
      call_verifier proof verifier_ai verifier_key full
  | _ => throw NotEnoughAccountKeys
  end.
Definition join_multisig (program_id : PublicKey) (infos : list AccountInfo) (proof : list Z) (public_inputs : list (list Z))
    (root_index : Z) : P CPI :=
  match infos with
  | payer :: pool_ai :: nullifier_a_ai :: nullifier_b_ai :: system_program_ai :: verifier_ai :: _ =>
      _ ← require (is_signer payer) MissingRequiredSignature;
      _ ← expect_pool_pda program_id pool_ai;
      _ ← check_count public_inputs 11;
      let nullifier_a := input public_inputs 0 in
      let nullifier_b := input public_inputs 1 in
      pool ← load_pool pool_ai;
      _ ← require (negb (paused pool)) Paused;
      root ← resolve_root pool root_index;
      let full := [compliance_pk_x pool; compliance_pk_y pool; nullifier_a; nullifier_b; root] ++ drop 2 public_inputs in
      verifier_key ← verifier_of pool 5;
      _ ← insert_and_emit pool_ai (input public_inputs 2) (input public_inputs 3) None None (ct7 public_inputs 4);
      _ ← create_nullifier program_id payer nullifier_a_ai nullifier_a;
      _ ← create_nullifier program_id payer nullifier_b_ai nullifier_b;
      call_verifier proof verifier_ai verifier_key full
  | _ => throw NotEnoughAccountKeys
  end.
Definition withdraw_like (program_id : PublicKey) (infos : list AccountInfo) (proof : list Z) (public_inputs : list (list Z))
    (amount root_index circuit_id : Z) : P CPI :=
  match infos with
  | payer :: pool_ai :: nullifier_ai :: asset_ai :: mint_ai :: vault_ai :: destination_ai :: token_program_ai
      :: system_program_ai :: verifier_ai :: _ =>
      _ ← require (is_signer payer) MissingRequiredSignature;
      mint ← account (key mint_ai);
      _ ← require (token_program_supported (key token_program_ai) && bool_decide (acc_owner mint = key token_program_ai)) IncorrectProgramId;
      _ ← check_count public_inputs 14;
      _ ← expect_pool_pda program_id pool_ai;
      let withdraw_value := input public_inputs 0 in
      let recipient := input public_inputs 1 in
      let intent_hash := input public_inputs 2 in
      let nullifier := input public_inputs 3 in
      _ ← require (bool_decide (intent_hash = zero_word)) IntentHashNotZero;
      _ ← require (bool_decide (withdraw_value = amount_field amount)) AmountMismatch;
      _ ← require (bool_decide (recipient = recipient_field (key destination_ai))) RecipientMismatch;
      asset ← account (key asset_ai);
      _ ← require (Z.of_nat (length (acc_data asset)) =? ASSET_LEN) InvalidAccountData;
      _ ← require (bool_decide (asset_mint (acc_data asset) = key mint_ai)) AssetMismatch;
      _ ← require (bool_decide (input public_inputs 4 = asset_id_field (key mint_ai))) AssetMismatch;
      _ ← require (bool_decide (asset_vault (acc_data asset) = key vault_ai)) InvalidSeeds;
      pool ← load_pool pool_ai;
      _ ← require (negb (paused pool)) Paused;
      root ← resolve_root pool root_index;
      let full := [withdraw_value; recipient; intent_hash; compliance_pk_x pool; compliance_pk_y pool; nullifier; root] ++ drop 4 public_inputs in
      verifier_key ← verifier_of pool circuit_id;
      _ ← insert_and_emit pool_ai (input public_inputs 5) (input public_inputs 6) None None (ct7 public_inputs 7);
      _ ← create_nullifier program_id payer nullifier_ai nullifier;
      call_verifier proof verifier_ai verifier_key full
  | _ => throw NotEnoughAccountKeys
  end.
(** [process] of the proof-carrying instructions; [None] for the others. *)
Definition process (program_id : PublicKey) (infos : list AccountInfo) (ix : PoolInstruction) : option (P CPI) :=
  match ix with
  | I_Deposit p i a => Some (deposit program_id infos p i a)
  | I_Transfer p i r => Some (transfer_like program_id infos p i r 1 21)
  | I_TransferMultisig p i r => Some (transfer_like program_id infos p i r 3 21)
  | I_SplitMultisig p i r => Some (split_multisig program_id infos p i r)
  | I_JoinMultisig p i r => Some (join_multisig program_id infos p i r)
  | I_Withdraw p i a r => Some (withdraw_like program_id infos p i a r 2)
  | I_WithdrawMultisig p i a r => Some (withdraw_like program_id infos p i a r 6)
  | _ => None
  end.
End Pool.
End Pool.

(** ** What a handler does with an instruction that the wallet built *)
Module PoolSpec.
Import Solana.State PoolAccounts Address TxBuilder Program Wire Pool.
Section Spec.
Context `{Web3} `{Sha256} `{Bn254} `{Syscalls} {SL : SyscallLaws} (program : PublicKey).

(** *** The insertion of a leaf *)
Record tree_ok (data : list Z) : Prop := {
  t_len : Z.of_nat (length data) = State.POOL_LEN; t_cursor : 0 <= root_cursor data < 256;
  t_next : 0 <= next_leaf_index data; t_sides : ∀ level, 0 <= level < 32 → canonical_word (side_node data level) }.
Definition good_leaf (leaf : list Z) : Prop := canonical_word leaf ∧ leaf ≠ zero_word.
Ltac offsets := unfold State.POOL_LEN, State.OFF_ROOTS, State.OFF_ROOT_CURSOR, State.OFF_SIDE_NODES, State.OFF_NEXT_LEAF_INDEX,
  State.OFF_VERIFIERS, State.NUM_VERIFIERS, State.TREE_DEPTH, State.ROOT_RING in *.

Lemma level_word level : 0 <= level < 32 → canonical_word (be_bytes 32 level).
Proof.
  intros Hl. split; [apply length_be_bytes|]. split; [apply be_bytes_bytes|].
  rewrite of_be_be_bytes by lia. unfold BN254_SCALAR_FIELD_MODULUS. lia.
Qed.
Lemma hash3_spec left right level : canonical_word left → canonical_word right → 0 <= level < 32 →
  ∃ h, hash3 left right level = Ok h ∧ canonical_word h.
Proof.
  intros Hl Hr Hlv. destruct (poseidon_word left right _ Hl Hr (level_word level Hlv)) as (h & Eh & Hh).
  exists h. unfold hash3. by rewrite Eh.
Qed.
(** Bytes outside the side nodes stay. *)
Definition same_outside (a b : Z) (data data' : list Z) : Prop :=
  ∀ off len, 0 <= off → 0 <= len → off + len <= a ∨ b <= off → slice data' off len = slice data off len.
Lemma set_side_node_spec data level node : Z.of_nat (length data) = State.POOL_LEN → 0 <= level < 32 → length node = 32%nat →
  let data' := set_side_node data level node in
  Z.of_nat (length data') = State.POOL_LEN ∧ side_node data' level = node ∧
  (∀ l, 0 <= l < 32 → l ≠ level → side_node data' l = side_node data l) ∧ same_outside 333 1357 data data'.
Proof.
  intros Hd Hl Hn. cbv zeta. unfold set_side_node, side_node, same_outside. offsets. split_and!.
  - by rewrite splice_length by lia.
  - apply slice_splice; lia.
  - intros l Hl' Hne. apply slice_splice_ne; lia.
  - intros off len ? ? ?. apply slice_splice_ne; lia.
Qed.
Lemma insert_loop_spec todo level data node index : Z.of_nat (length data) = State.POOL_LEN → 0 <= level → level + Z.of_nat todo <= 32 →
  canonical_word node → (∀ l, 0 <= l < 32 → canonical_word (side_node data l)) →
  ∃ data' node', insert_loop todo level data node index = Ok (data', node') ∧ Z.of_nat (length data') = State.POOL_LEN ∧
    canonical_word node' ∧ (∀ l, 0 <= l < 32 → canonical_word (side_node data' l)) ∧ same_outside 333 1357 data data'.
Proof.
  revert level data node index. induction todo as [|todo IH]; intros level data node index Hd Hl Hb Hn Hs; cbn [insert_loop].
  { by exists data, node. }
  destruct (Z.land index 1 =? 0).
  - pose proof (set_side_node_spec data level node Hd ltac:(lia) (proj1 Hn)) as (Hd' & Hat & Hne & Hout). cbv zeta.
    set (d := set_side_node data level node) in *.
    assert (Hs' : ∀ l, 0 <= l < 32 → canonical_word (side_node d l)).
    { intros l Hlr. destruct (decide (l = level)) as [->|E]; [by rewrite Hat|]. rewrite Hne by done. by apply Hs. }
    destruct (index =? 0); [by exists d, node|].
    destruct (IH (level + 1) d node (Z.shiftr index 1) Hd' ltac:(lia) ltac:(lia) Hn Hs') as (d2 & n2 & E & K1 & K2 & K3 & K4).
    exists d2, n2. split; [exact E|]. split_and!; [done..|]. intros off len ? ? ?. rewrite K4 by done. by apply Hout.
  - destruct (hash3_spec (side_node data level) node level (Hs level ltac:(lia)) Hn ltac:(lia)) as (h & -> & Hh). cbn [mbind result_bind].
    apply IH; [done|lia|lia|done|done].
Qed.
Lemma set_next_spec data v : Z.of_nat (length data) = State.POOL_LEN → 0 <= v < 2 ^ 64 →
  let data' := set_next_leaf_index data v in
  Z.of_nat (length data') = State.POOL_LEN ∧ next_leaf_index data' = v ∧ same_outside 325 333 data data'.
Proof.
  intros Hd Hv. cbv zeta. unfold set_next_leaf_index, next_leaf_index, same_outside. offsets.
  pose proof (length_le_bytes 8 v) as Hl8. split_and!.
  - by rewrite splice_length by (rewrite ?Hl8; lia).
  - rewrite slice_splice by (rewrite ?Hl8; lia). by apply of_le_le_bytes.
  - intros off len ? ? ?. apply slice_splice_ne; rewrite ?Hl8; lia.
Qed.
(** A leaf goes in, its root takes the cursor's slot, and nothing below the
    index changes. *)
Lemma insert_spec data leaf : tree_ok data → good_leaf leaf → next_leaf_index data < 2 ^ 32 →
  ∃ data' root, insert data leaf = Ok (data', (next_leaf_index data, root)) ∧ tree_ok data' ∧
    next_leaf_index data' = next_leaf_index data + 1 ∧ root_cursor data' = (root_cursor data + 1) mod 256 ∧
    (∀ i, 0 <= i < 256 → i ≠ root_cursor data → root_at data' i = root_at data i) ∧
    ∀ off len, 0 <= off → 0 <= len → off + len <= 325 → slice data' off len = slice data off len.
Proof.
  intros [Hd Hc Hnx Hs] [Hleaf Hnz] Hroom.
  destruct (insert_loop_spec (Z.to_nat State.TREE_DEPTH) 0 data leaf (next_leaf_index data) Hd ltac:(lia) ltac:(done) Hleaf Hs)
    as (d1 & node & E & Hd1 & Hnode & Hs1 & Ho1).
  destruct (set_next_spec d1 (next_leaf_index data + 1) Hd1 ltac:(lia)) as (Hd2 & Hn2 & Ho2). set (d2 := set_next_leaf_index d1 _) in *.
  assert (Hc2 : root_cursor d2 = root_cursor data).
  { unfold root_cursor. rewrite !byte_at_slice by done. offsets. rewrite Ho2 by lia. by rewrite Ho1 by lia. }
  assert (Hr2 : ∀ i, 0 <= i → root_at d2 i = root_at data i).
  { intros i Hi. unfold root_at. offsets. rewrite Ho2 by lia. by rewrite Ho1 by lia. }
  destruct (push_root_spec d2 Hd2 ltac:(rewrite Hc2; done) node (proj1 Hnode)) as (Hd3 & Hc3 & _ & Hne & Hlow).
  exists (push_root d2 node), node. split_and!.
  - unfold insert. rewrite bool_decide_eq_false_2 by done. unfold State.TREE_DEPTH at 1. rewrite (proj2 (Z.leb_gt _ _)) by lia.
    by rewrite E.
  - split; [done|rewrite Hc3; apply Z.mod_pos_bound; lia| |].
    + unfold next_leaf_index in *. offsets. rewrite Hlow by lia. lia.
    + intros l Hl. unfold side_node in *. offsets. rewrite Hlow, Ho2 by lia. by apply Hs1.
  - unfold next_leaf_index in *. offsets. rewrite Hlow by lia. done.
  - by rewrite Hc3, Hc2.
  - intros i Hi Hne'. rewrite Hne by (rewrite ?Hc2; done). by apply Hr2; lia.
  - intros off len ? ? ?. rewrite Hlow, Ho2 by lia. by apply Ho1; lia.
Qed.
(** Leaves one after the other. *)
Fixpoint insert_all (data : list Z) (leaves : list (list Z)) : result ProgramError (list Z) :=
  match leaves with [] => Ok data | leaf :: leaves => '(data, _) ← insert data leaf; insert_all data leaves end.
Lemma insert_all_spec leaves data : tree_ok data → Forall good_leaf leaves → next_leaf_index data + Z.of_nat (length leaves) <= 2 ^ 32 →
  ∃ data', insert_all data leaves = Ok data' ∧ tree_ok data' ∧
    next_leaf_index data' = next_leaf_index data + Z.of_nat (length leaves) ∧
    (∀ off len, 0 <= off → 0 <= len → off + len <= 325 → slice data' off len = slice data off len) ∧
    ∀ age, 0 <= age → age + Z.of_nat (length leaves) < 256 →
      root_at data' (slot (root_cursor data) age) = root_at data (slot (root_cursor data) age).
Proof.
  intros Hok Hl. revert data Hok. induction Hl as [|leaf leaves Hleaf _ IH]; intros data Hok Hroom; cbn [insert_all length] in *.
  { exists data. split_and!; [done|done|lia|done|done]. }
  destruct (insert_spec data leaf Hok Hleaf ltac:(lia)) as (d1 & root & -> & Hok1 & Hn1 & Hc1 & Hr1 & Ho1). cbn [mbind result_bind].
  destruct (IH d1 Hok1 ltac:(lia)) as (d2 & E & Hok2 & Hn2 & Ho2 & Hage). exists d2. split_and!; [done|done|lia| |].
  - intros off len ? ? ?. rewrite Ho2 by done. by apply Ho1.
  - intros age Ha Hb. destruct Hok as [_ Hc _ _].
    assert (Es : slot (root_cursor d1) (age + 1) = slot (root_cursor data) age).
    { rewrite Hc1. unfold slot. rewrite <- Z.sub_add_distr, Zminus_mod_idemp_l. f_equal. lia. }
    rewrite <- Es, Hage by lia. rewrite Es. apply Hr1; [apply slot_bound|].
    intros E'. assert (E2 : slot (root_cursor data) age = slot (root_cursor data) 255).
    { rewrite E'. unfold slot. replace (root_cursor data - 1 - 255) with (root_cursor data + (-1) * 256) by lia.
      rewrite Z.mod_add by lia. by rewrite Z.mod_small. }
    apply slot_inj in E2; lia.
Qed.

(** *** Steps *)
Lemma run_bind {A B} (m : M Tx ProgramError A) (f : A → M Tx ProgramError B) tx tx' a : m tx = (tx', Ok a) → (m ≫= f) tx = f a tx'.
Proof. intros E. unfold mbind, M_bind. by rewrite E. Qed.
Lemma run_require b e tx : b = true → require b e tx = (tx, Ok tt).
Proof. by intros ->. Qed.
Lemma run_account k tx : account k tx = (tx, Ok (accounts tx k)).
Proof. done. Qed.
Lemma run_load info tx d : acc_data (accounts tx (key info)) = d → Z.of_nat (length d) = State.POOL_LEN → load_pool info tx = (tx, Ok d).
Proof.
  intros <- Hl. unfold load_pool. rewrite (run_bind _ _ _ _ _ (run_account _ _)).
  by rewrite (run_bind _ _ _ _ _ (run_require _ _ _ (proj2 (Z.eqb_eq _ _) Hl))).
Qed.
Lemma run_root d r root tx : root_at d r = root → root ≠ zero_word → resolve_root d r tx = (tx, Ok root).
Proof. intros <- Hz. unfold resolve_root. by rewrite bool_decide_eq_false_2. Qed.
Lemma run_verifier d c n tx : n = circuit_number c → verifier_of d n tx = (tx, Ok (verifier_key d c)).
Proof. intros ->. unfold verifier_of, State.verifier, State.NUM_VERIFIERS. by destruct c. Qed.
Lemma run_pool_pda info tx : key info = (pool_pda program).1 → acc_owner (accounts tx (key info)) = program →
  expect_pool_pda program info tx = (tx, Ok tt).
Proof.
  intros Hk Ho. unfold expect_pool_pda. rewrite (run_bind _ _ _ _ _ (run_account _ _)). apply run_require.
  by rewrite bool_decide_eq_true_2, bool_decide_eq_true_2.
Qed.
(** What the log says was inserted and spent. *)
Definition inserted (l : list Event) : list (list Z) := omap (λ e, match e with NoteInserted _ leaf _ _ _ _ _ => Some leaf | _ => None end) l.
Definition spent (l : list Event) : list (list Z) := omap (λ e, match e with NullifierSpent_event n => Some n | _ => None end) l.
Lemma run_insert info leaf eph tag wrap ct tx o d : accounts tx (key info) = mkAccount o d → tree_ok d → good_leaf leaf → next_leaf_index d < 2 ^ 32 →
  ∃ d' r tx', insert d leaf = Ok (d', r) ∧ insert_and_emit info leaf eph tag wrap ct tx = (tx', Ok tt) ∧
    tree_ok d' ∧ next_leaf_index d' = next_leaf_index d + 1 ∧ accounts tx' (key info) = mkAccount o d' ∧
    (∀ k, k ≠ key info → accounts tx' k = accounts tx k) ∧
    inserted (logs tx') = inserted (logs tx) ++ [leaf] ∧ spent (logs tx') = spent (logs tx).
Proof.
  intros Ha Hok Hleaf Hroom. destruct (insert_spec d leaf Hok Hleaf Hroom) as (d' & root & E & Hok' & Hn & _).
  exists d', (next_leaf_index d, root). eexists. split; [exact E|]. split.
  { unfold insert_and_emit. rewrite (run_bind _ _ _ _ _ (run_account _ _)), Ha. unfold pure, lift, mbind at 1, M_bind at 1. cbn [acc_data acc_owner].
    rewrite E. reflexivity. }
  cbn [accounts logs]. split_and!; [done|done|by rewrite decide_True|intros k Hk; by rewrite decide_False| |].
  - unfold inserted. by rewrite omap_app.
  - unfold spent. by rewrite omap_app, app_nil_r.
Qed.
Lemma run_nullifier payer info n tx o : key info = (nullifier_pda program n).1 → accounts tx (key info) = mkAccount o [] → o ≠ program →
  allocates (key payer) (key info) 1 = true →
  ∃ tx', create_nullifier program payer info n tx = (tx', Ok tt) ∧ acc_owner (accounts tx' (key info)) = program ∧
    (∀ k, k ≠ key info → accounts tx' k = accounts tx k) ∧ inserted (logs tx') = inserted (logs tx) ∧ spent (logs tx') = spent (logs tx) ++ [n].
Proof.
  intros Hk Ha Ho Hal. destruct (nullifier_pda program n) as [expected bump] eqn:En. cbn [fst] in Hk. eexists. split.
  { unfold create_nullifier. rewrite En.
    rewrite (run_bind _ _ _ _ _ (run_require _ _ _ (bool_decide_eq_true_2 _ Hk))), (run_bind _ _ _ _ _ (run_account _ _)), Ha. cbn [acc_owner].
    rewrite bool_decide_eq_false_2 by done. rewrite (run_bind _ _ _ _ _ (run_require _ _ _ eq_refl)).
    unfold create_pda_if_needed. unfold mbind at 1, M_bind at 1. rewrite (run_bind _ _ _ _ _ (run_account _ _)), Ha. cbn [acc_owner acc_data].
    rewrite bool_decide_eq_false_2, bool_decide_eq_true_2 by done. cbn [negb orb]. rewrite (run_bind _ _ _ _ _ (run_require _ _ _ eq_refl)), Hal.
    rewrite (run_bind _ _ _ _ _ (run_require _ _ _ eq_refl)). reflexivity. }
  cbn [accounts logs]. split_and!.
  - rewrite decide_True by done. cbn [acc_owner]. by rewrite decide_True.
  - intros k Hne. by rewrite !decide_False.
  - unfold inserted. by rewrite omap_app, app_nil_r.
  - unfold spent. by rewrite omap_app.
Qed.

(** The header of a public witness and its words. *)
Definition witness_bytes (inputs : list (list Z)) : list Z :=
  be_bytes 4 (lenZ inputs) ++ be_bytes 4 0 ++ be_bytes 4 (lenZ inputs) ++ concat inputs.
Lemma run_call proof proof' info vk full tx : Verify.decompress_proof proof = Ok proof' → key info = vk → vk ≠ zero_word →
  call_verifier proof info vk full tx = (tx, Ok (vk, proof' ++ witness_bytes full)).
Proof.
  intros Hp <- Hz. unfold call_verifier, mbind, M_bind, lift. rewrite Hp. cbn [map_err]. unfold Verify.verify_cpi.
  rewrite bool_decide_eq_true_2 by done. cbn [negb]. by rewrite bool_decide_eq_false_2 by done.
Qed.

(** *** A bundle and a transaction that takes it *)
Definition word (b : ProofBundle) (i : nat) : list Z := input (publicInputs b) i.
(** The new leaves and the nullifiers among the public inputs. *)
Definition outputs (b : ProofBundle) : list (list Z) :=
  match circuitId b with
  | Deposit => [word b 2] | Transfer | TransferMultisig => [word b 4; word b 15] | SplitMultisig => [word b 4; word b 13]
  | JoinMultisig => [word b 5] | Withdraw | WithdrawMultisig => [word b 8]
  end.
Definition nullifiers (b : ProofBundle) : list (list Z) :=
  match circuitId b with
  | Deposit => [] | Transfer | TransferMultisig | SplitMultisig => [word b 2] | JoinMultisig => [word b 2; word b 3]
  | Withdraw | WithdrawMultisig => [word b 5]
  end.
Definition pool_key : PublicKey := (pool_pda program).1.
(** The account is the nullifier's, does not exist yet, and the payer can fund it. *)
Definition unspent (payer k n : list Z) (tx : Tx) : Prop :=
  k = (nullifier_pda program n).1 ∧ acc_owner (accounts tx k) ≠ program ∧ acc_data (accounts tx k) = [] ∧ allocates payer k 1 = true.
(** What the program checks of the accounts and the amount, besides the pool:
    [vk] is the verifier registered for the circuit. *)
Definition acceptable (c : Call) (b : ProofBundle) (vk : PublicKey) (tx : Tx) : Prop :=
  match c with
  | C_deposit amount a =>
      let token := default TOKEN_PROGRAM_ID (da_tokenProgram a) in
      da_pool a = pool_key ∧ da_verifierProgram a = vk ∧ token_program_supported token = true ∧
      default ASSOCIATED_TOKEN_PROGRAM_ID (da_associatedTokenProgram a) = ASSOCIATED_TOKEN_PROGRAM_ID ∧
      acc_owner (accounts tx (da_mint a)) = token ∧ word b 4 = amount_field amount ∧ word b 5 = asset_id_field (da_mint a)
  | C_transfer a | C_transferMultisig a | C_splitMultisig a =>
      sa_pool a = pool_key ∧ sa_verifierProgram a = vk ∧ unspent (sa_payer a) (sa_nullifier a) (word b 2) tx
  | C_joinMultisig a =>
      ja_pool a = pool_key ∧ ja_verifierProgram a = vk ∧ ja_nullifierA a ≠ ja_nullifierB a ∧
      unspent (ja_payer a) (ja_nullifierA a) (word b 2) tx ∧ unspent (ja_payer a) (ja_nullifierB a) (word b 3) tx
  | C_withdraw amount a | C_withdrawMultisig amount a =>
      let token := default TOKEN_PROGRAM_ID (wa_tokenProgram a) in
      let asset := acc_data (accounts tx (wa_asset a)) in
      wa_pool a = pool_key ∧ wa_verifierProgram a = vk ∧ token_program_supported token = true ∧
      acc_owner (accounts tx (wa_mint a)) = token ∧
      word b 0 = amount_field amount ∧ word b 1 = recipient_field (wa_destinationTokenAccount a) ∧ word b 2 = zero_word ∧
      Z.of_nat (length asset) = ASSET_LEN ∧ asset_mint asset = wa_mint a ∧ asset_vault asset = wa_vault a ∧
      word b 7 = asset_id_field (wa_mint a) ∧ unspent (wa_payer a) (wa_nullifier a) (word b 5) tx
  end.
Definition infos (c : Call) : list AccountInfo := (λ m, mkInfo (pubkey m) (isSigner m)) <$> metas c.
(** What the transaction has done when the verifier is called: the leaves are
    in the tree and on the log, the nullifiers are spent. *)
Record done_before_call (b : ProofBundle) (d : list Z) (tx tx' : Tx) : Prop := {
  dc_pool : ∃ d', insert_all d (outputs b) = Ok d' ∧ accounts tx' pool_key = mkAccount program d';
  dc_spent : Forall (λ n, acc_owner (accounts tx' (nullifier_pda program n).1) = program) (nullifiers b);
  dc_log : inserted (logs tx') = inserted (logs tx) ++ outputs b ∧ spent (logs tx') = spent (logs tx) ++ nullifiers b }.

(** *** The writes of a handler, one or two leaves and one or two nullifiers *)
Section Handler.
Context (d : list Z) (tx : Tx) (info : AccountInfo) (Hinfo : key info = pool_key) (Ha : accounts tx pool_key = mkAccount program d) (Hok : tree_ok d).

Lemma run_inserts1 l e t w x : good_leaf l → next_leaf_index d + 1 <= 2 ^ 32 →
  ∃ d' tx', insert_all d [l] = Ok d' ∧ insert_and_emit info l e t w x tx = (tx', Ok tt) ∧ accounts tx' pool_key = mkAccount program d' ∧
    (∀ k, k ≠ pool_key → accounts tx' k = accounts tx k) ∧
    inserted (logs tx') = inserted (logs tx) ++ [l] ∧ spent (logs tx') = spent (logs tx).
Proof.
  intros Hl Hn. destruct (run_insert info l e t w x tx program d) as (d' & r & tx' & E & Hr & _ & _ & Hp & Hk & Hi & Hs);
    [by rewrite Hinfo|done|done|lia|]. rewrite Hinfo in *. exists d', tx'. cbn [insert_all]. by rewrite E.
Qed.
Lemma run_inserts2 l1 e1 t1 w1 x1 l2 e2 t2 w2 x2 : good_leaf l1 → good_leaf l2 → next_leaf_index d + 2 <= 2 ^ 32 →
  ∃ d' tx1 tx', insert_all d [l1; l2] = Ok d' ∧ insert_and_emit info l1 e1 t1 w1 x1 tx = (tx1, Ok tt) ∧
    insert_and_emit info l2 e2 t2 w2 x2 tx1 = (tx', Ok tt) ∧ accounts tx' pool_key = mkAccount program d' ∧
    (∀ k, k ≠ pool_key → accounts tx' k = accounts tx k) ∧
    inserted (logs tx') = inserted (logs tx) ++ [l1; l2] ∧ spent (logs tx') = spent (logs tx).
Proof.
  intros Hl1 Hl2 Hn. destruct (run_insert info l1 e1 t1 w1 x1 tx program d) as (da & ra & txa & Ea & Hra & Hoka & Hna & Hpa & Hka & Hia & Hsa);
    [by rewrite Hinfo|done|done|lia|]. rewrite Hinfo in Hpa, Hka.
  destruct (run_insert info l2 e2 t2 w2 x2 txa program da) as (db & rb & txb & Eb & Hrb & _ & _ & Hpb & Hkb & Hib & Hsb);
    [by rewrite Hinfo|done|done|lia|]. rewrite Hinfo in Hpb, Hkb.
  exists db, txa, txb. cbn [insert_all]. rewrite Ea. cbn [mbind result_bind]. rewrite Eb. split_and!; try done.
  - intros k Hk. by rewrite Hkb, Hka.
  - by rewrite Hib, Hia, <- app_assoc.
  - by rewrite Hsb, Hsa.
Qed.
(** An unspent nullifier is not the pool, so it is still unspent after them. *)
Lemma unspent_other payer k n : unspent payer k n tx → k ≠ pool_key.
Proof. intros (_ & Ho & _) ->. by rewrite Ha in Ho. Qed.
End Handler.
Lemma run_unspent payer ninfo n tx : unspent (key payer) (key ninfo) n tx →
  ∃ tx', create_nullifier program payer ninfo n tx = (tx', Ok tt) ∧ acc_owner (accounts tx' (nullifier_pda program n).1) = program ∧
    (∀ k, k ≠ key ninfo → accounts tx' k = accounts tx k) ∧ inserted (logs tx') = inserted (logs tx) ∧ spent (logs tx') = spent (logs tx) ++ [n].
Proof.
  intros (Hk & Ho & Hd & Hal). rewrite <- Hk.
  destruct (run_nullifier payer ninfo n tx (acc_owner (accounts tx (key ninfo))) Hk) as (tx' & E & Hx); [|done|done|by exists tx'].
  destruct (accounts tx (key ninfo)) as [o dd]. cbn in *. by subst dd.
Qed.
Lemma unspent_same payer k n tx tx' : accounts tx' k = accounts tx k → unspent payer k n tx → unspent payer k n tx'.
Proof. intros E. unfold unspent. by rewrite E. Qed.

(** *** The handlers run *)
Section Runs.
Context (b : ProofBundle) (d : list Z) (r : Z) (tx : Tx) (proof' : list Z).
Let vk := verifier_key d (circuitId b).
Context (Hwf : well_formed b) (Hkey : bound_key d b) (Hpause : paused d = false)
  (Hroot : ∀ root, root_word b = Some root → root_at d r = root ∧ root ≠ zero_word)
  (Hok : tree_ok d) (Hpool : accounts tx pool_key = mkAccount program d) (Hout : Forall good_leaf (outputs b))
  (Hroom : next_leaf_index d + Z.of_nat (length (outputs b)) <= 2 ^ 32)
  (Hproof : Verify.decompress_proof (proof b) = Ok proof') (Hvk : vk ≠ zero_word).
Definition runs (h : P CPI) : Prop :=
  ∃ tx', h tx = (tx', Ok (vk, proof' ++ witness_bytes (publicInputs b))) ∧ done_before_call b d tx tx'.

Lemma load_ok s : load_pool (mkInfo pool_key s) tx = (tx, Ok d).
Proof. apply run_load; [|apply Hok]. cbn [key]. by rewrite Hpool. Qed.
Lemma pool_ok s : expect_pool_pda program (mkInfo pool_key s) tx = (tx, Ok tt).
Proof. apply run_pool_pda; [done|]. cbn [key]. by rewrite Hpool. Qed.
Lemma root_ok i : rootIndexAt (LAYOUT (circuitId b)) = Some i → (i < length (publicInputs b))%nat →
  resolve_root d r tx = (tx, Ok (word b i)) .
Proof.
  intros Hi Hlt. apply lookup_lt_is_Some in Hlt as [root Er]. destruct (Hroot root) as [Hat Hz].
  { unfold root_word. by rewrite Hi. }
  unfold word, input. rewrite Er. cbn [default]. by apply run_root.
Qed.
Lemma count_ok (l : list (list Z)) n : length l = n → check_count l n tx = (tx, Ok tt).
Proof. intros <-. apply run_require, Nat.eqb_refl. Qed.
Lemma unpaused_ok : require (negb (paused d)) Paused tx = (tx, Ok tt).
Proof. apply run_require. by rewrite Hpause. Qed.
Lemma finish_one n payer ninfo (l : list (list Z)) d' tx1 : outputs b = l → nullifiers b = [n] →
  insert_all d l = Ok d' → accounts tx1 pool_key = mkAccount program d' → (∀ k, k ≠ pool_key → accounts tx1 k = accounts tx k) →
  inserted (logs tx1) = inserted (logs tx) ++ l → spent (logs tx1) = spent (logs tx) →
  unspent (key payer) (key ninfo) n tx → ∃ tx', create_nullifier program payer ninfo n tx1 = (tx', Ok tt) ∧ done_before_call b d tx tx'.
Proof.
  intros El En Hins Hp Hk Hi Hs Hun. pose proof (unspent_other d tx Hpool _ _ _ Hun) as Hne.
  destruct (run_unspent payer ninfo n tx1 (unspent_same _ _ _ _ _ (Hk _ Hne) Hun)) as (tx' & E & Ho & Hk' & Hi' & Hs').
  exists tx'. split; [exact E|]. split; rewrite ?El, ?En.
  - exists d'. split; [done|]. by rewrite Hk'.
  - by repeat constructor.
  - by rewrite Hi', Hs', Hi, Hs.
Qed.

(** The wire form and the public inputs, from the words the program keeps. *)
Definition wire_head : list (list Z) :=
  match circuitId b with
  | Deposit => [] | Transfer | TransferMultisig | SplitMultisig => [word b 2] | JoinMultisig => [word b 2; word b 3]
  | Withdraw | WithdrawMultisig => [word b 0; word b 1; word b 2; word b 5]
  end.
Definition full_head : list (list Z) :=
  let x := compliance_pk_x d in let y := compliance_pk_y d in
  match circuitId b with
  | Deposit => [x; y] | Transfer | TransferMultisig | SplitMultisig => [x; y; word b 2; word b 3]
  | JoinMultisig => [x; y; word b 2; word b 3; word b 4]
  | Withdraw | WithdrawMultisig => [word b 0; word b 1; word b 2; x; y; word b 5; word b 6]
  end.
Lemma wire_spec : wirePublicInputs b = wire_head ++ drop (length full_head) (publicInputs b) ∧
  publicInputs b = full_head ++ drop (length full_head) (publicInputs b).
Proof.
  revert Hkey Hwf. unfold bound_key, well_formed, wirePublicInputs, wire_head, full_head, word, input.
  destruct b as [c p ins]. cbn [circuitId publicInputs]. intros [Hx Hy] (Hn & _).
  destruct c; cbn in Hn; (destruct ins as [|x0 [|x1 [|x2 [|x3 [|x4 [|x5 [|x6 rest]]]]]]]; try discriminate Hn); cbn in Hx, Hy;
    injection Hx as Hx; injection Hy as Hy; cbn [LAYOUT stripIndices];
    rewrite ?strip_01, ?strip_013, ?strip_014, ?strip_346, <- ?Hx, <- ?Hy; split; reflexivity.
Qed.
Lemma wire_word i : (length wire_head <= i)%nat → input (wirePublicInputs b) i = word b (length full_head + (i - length wire_head)).
Proof.
  intros Hi. destruct wire_spec as [-> _]. unfold word, input. by rewrite lookup_app_r, lookup_drop by done.
Qed.
Lemma wire_count n : (n + length full_head = PUBLIC_INPUT_COUNT (circuitId b) + length wire_head)%nat → length (wirePublicInputs b) = n.
Proof.
  intros Hn. destruct Hwf as (Hlen & _). destruct wire_spec as [-> _]. rewrite length_app, length_drop.
  assert (length full_head <= PUBLIC_INPUT_COUNT (circuitId b))%nat by (unfold full_head; destruct (circuitId b); cbn; lia). lia.
Qed.
Ltac step H := rewrite (run_bind _ _ _ _ _ H).
Ltac inserts := match goal with
  | |- context [(insert_and_emit ?i ?l1 ?e1 ?t1 ?w1 ?x1 ≫= λ _, insert_and_emit _ ?l2 ?e2 ?t2 ?w2 ?x2 ≫= _) tx] =>
      destruct (run_inserts2 d tx i eq_refl Hpool Hok l1 e1 t1 w1 x1 l2 e2 t2 w2 x2) as (d' & tx1 & tx2 & Hins & E1 & E2 & Hp2 & Hk2 & Hi2 & Hs2);
      [..|step E1; step E2]
  | |- context [(insert_and_emit ?i ?l1 ?e1 ?t1 ?w1 ?x1 ≫= _) tx] =>
      destruct (run_inserts1 d tx i eq_refl Hpool Hok l1 e1 t1 w1 x1) as (d' & tx2 & Hins & E1 & Hp2 & Hk2 & Hi2 & Hs2);
      [..|step E1]
  end.
Lemma transfer_runs acc : circuitId b = Transfer ∨ circuitId b = TransferMultisig → acceptable (C_transfer acc) b vk tx →
  runs (transfer_like program (infos (C_transfer acc)) (proof b) (wirePublicInputs b) r (circuit_number (circuitId b)) 21).
Proof.
  intros Hcase (Hpk & Hver & Hun).
  pose proof wire_spec as [Ew Ep]. pose proof wire_word as Hw. pose proof (wire_count 21) as Hcount.
  assert (Hsame : wire_head = [word b 2] ∧ full_head = [compliance_pk_x d; compliance_pk_y d; word b 2; word b 3] ∧ PUBLIC_INPUT_COUNT (circuitId b) = 24%nat ∧
    rootIndexAt (LAYOUT (circuitId b)) = Some 3%nat ∧ outputs b = [word b 4; word b 15] ∧ nullifiers b = [word b 2]).
  { unfold wire_head, full_head, outputs, nullifiers. by destruct Hcase as [-> | ->]. }
  destruct Hsame as (Eh & Ef & Ec & Er & Eo & En). rewrite Eh, Ef, ?Ec in *. rewrite Eo in Hout, Hroom. cbn [length] in *.
  apply Forall_cons in Hout as [Hl1 [Hl2 _]%Forall_cons].
  unfold infos. cbn [metas fmap list_fmap pubkey isSigner]. rewrite Hpk. unfold runs, transfer_like. cbv zeta.
  step (run_require true MissingRequiredSignature tx eq_refl). step (pool_ok false). step (count_ok _ _ (Hcount eq_refl)). step (load_ok false).
  step unpaused_ok. step (root_ok 3 Er ltac:(rewrite (proj1 Hwf), Ec; lia)). step (run_verifier d (circuitId b) _ tx eq_refl).
  rewrite (Hw 1%nat), (Hw 12%nat) by lia. cbn [Nat.sub Nat.add]. inserts; [done|done|lia|].
  assert (input (wirePublicInputs b) 0 = word b 2) as -> by by rewrite Ew.
  destruct (finish_one (word b 2) (mkInfo (sa_payer acc) true) (mkInfo (sa_nullifier acc) false) _ d' tx2 Eo En Hins Hp2 Hk2 Hi2 Hs2 Hun)
    as (tx' & E3 & Hdone). step E3. exists tx'. split; [|done].
  rewrite (run_call _ proof' _ vk) by done. do 5 f_equal. rewrite Ew. symmetry. exact Ep.
Qed.
(** The facts of a circuit: [n] words on the wire, the root at [i]. *)
Ltac prepare Hc n i :=
  pose proof wire_spec as [Ew Ep]; pose proof wire_word as Hw; pose proof (wire_count n) as Hcount; pose proof (root_ok i) as Hrt;
  pose proof (eq_refl (outputs b)) as Eo; pose proof (eq_refl (nullifiers b)) as En; pose proof (proj1 Hwf) as Hlen;
  unfold wire_head, full_head in *; unfold outputs at 2 in Eo; unfold nullifiers at 2 in En; unfold runs, vk in *; rewrite Hc in *;
  cbn [length PUBLIC_INPUT_COUNT LAYOUT rootIndexAt] in *; rewrite Eo in Hout, Hroom; cbn [length] in *.
Lemma split_runs acc : circuitId b = SplitMultisig → acceptable (C_splitMultisig acc) b vk tx →
  runs (split_multisig program (infos (C_splitMultisig acc)) (proof b) (wirePublicInputs b) r).
Proof.
  intros Hc (Hpk & Hver & Hun).
  prepare Hc 19%nat 3%nat. apply Forall_cons in Hout as [Hl1 [Hl2 _]%Forall_cons].
  unfold infos. cbn [metas fmap list_fmap pubkey isSigner]. rewrite Hpk. unfold split_multisig. cbv zeta.
  step (run_require true MissingRequiredSignature tx eq_refl). step (pool_ok false). step (count_ok _ _ (Hcount eq_refl)). step (load_ok false).
  step unpaused_ok. step (Hrt eq_refl ltac:(lia)). step (run_verifier d SplitMultisig 4 tx eq_refl).
  rewrite (Hw 1%nat), (Hw 10%nat) by lia. cbn [Nat.sub Nat.add]. inserts; [done|done|lia|].
  assert (input (wirePublicInputs b) 0 = word b 2) as -> by by rewrite Ew.
  destruct (finish_one (word b 2) (mkInfo (sa_payer acc) true) (mkInfo (sa_nullifier acc) false) _ d' tx2 Eo En Hins Hp2 Hk2 Hi2 Hs2 Hun)
    as (tx' & E3 & Hdone). step E3. exists tx'. split; [|done].
  rewrite (run_call _ proof' _ (verifier_key d SplitMultisig)) by done. do 5 f_equal. rewrite Ew. symmetry. exact Ep.
Qed.
Lemma join_runs acc : circuitId b = JoinMultisig → acceptable (C_joinMultisig acc) b vk tx →
  runs (join_multisig program (infos (C_joinMultisig acc)) (proof b) (wirePublicInputs b) r).
Proof.
  intros Hc (Hpk & Hver & Hdiff & HunA & HunB). prepare Hc 11%nat 4%nat. apply Forall_cons in Hout as [Hl1 _].
  unfold infos. cbn [metas fmap list_fmap pubkey isSigner]. rewrite Hpk. unfold join_multisig. cbv zeta.
  step (run_require true MissingRequiredSignature tx eq_refl). step (pool_ok false). step (count_ok _ _ (Hcount eq_refl)). step (load_ok false).
  step unpaused_ok. step (Hrt eq_refl ltac:(lia)). step (run_verifier d JoinMultisig 5 tx eq_refl).
  rewrite (Hw 2%nat) by lia. cbn [Nat.sub Nat.add]. inserts; [done|lia|].
  assert (input (wirePublicInputs b) 0 = word b 2) as -> by by rewrite Ew.
  assert (input (wirePublicInputs b) 1 = word b 3) as -> by by rewrite Ew.
  pose proof (unspent_other d tx Hpool _ _ _ HunA) as HneA. pose proof (unspent_other d tx Hpool _ _ _ HunB) as HneB.
  destruct (run_unspent (mkInfo (ja_payer acc) true) (mkInfo (ja_nullifierA acc) false) _ tx2 (unspent_same _ _ _ _ _ (Hk2 _ HneA) HunA))
    as (tx3 & E3 & Ho3 & Hk3 & Hi3 & Hs3). step E3. cbn [key] in Hk3.
  assert (Hsame : accounts tx3 (ja_nullifierB acc) = accounts tx (ja_nullifierB acc)) by (rewrite Hk3 by done; by apply Hk2).
  destruct (run_unspent (mkInfo (ja_payer acc) true) (mkInfo (ja_nullifierB acc) false) _ tx3 (unspent_same _ _ _ _ _ Hsame HunB))
    as (tx4 & E4 & Ho4 & Hk4 & Hi4 & Hs4). step E4. cbn [key] in Hk4. exists tx4. split.
  - rewrite (run_call _ proof' _ (verifier_key d JoinMultisig)) by done. do 5 f_equal. rewrite Ew. symmetry. exact Ep.
  - split; rewrite ?Eo, ?En.
    + exists d'. split; [done|]. by rewrite Hk4, Hk3.
    + constructor; [|by repeat constructor]. destruct HunA as [EA _]. rewrite <- EA in Ho3 |- *. by rewrite Hk4.
    + by rewrite Hi4, Hi3, Hi2, Hs4, Hs3, Hs2, <- app_assoc.
Qed.
Lemma withdraw_runs amount acc : circuitId b = Withdraw ∨ circuitId b = WithdrawMultisig → acceptable (C_withdraw amount acc) b vk tx →
  runs (withdraw_like program (infos (C_withdraw amount acc)) (proof b) (wirePublicInputs b) amount r (circuit_number (circuitId b))).
Proof.
  intros Hcase (Hpk & Hver & Htok & Hmint & Hamt & Hrec & Hint & Hlen & Hamint & Hvault & Hasset & Hun).
  pose proof wire_spec as [Ew Ep]. pose proof wire_word as Hw. pose proof (wire_count 14) as Hcount.
  assert (Hsame : wire_head = [word b 0; word b 1; word b 2; word b 5] ∧
    full_head = [word b 0; word b 1; word b 2; compliance_pk_x d; compliance_pk_y d; word b 5; word b 6] ∧ PUBLIC_INPUT_COUNT (circuitId b) = 17%nat ∧
    rootIndexAt (LAYOUT (circuitId b)) = Some 6%nat ∧ outputs b = [word b 8] ∧ nullifiers b = [word b 5]).
  { unfold wire_head, full_head, outputs, nullifiers. by destruct Hcase as [-> | ->]. }
  destruct Hsame as (Eh & Ef & Ec & Er & Eo & En). rewrite Eh, Ef, ?Ec in *. rewrite Eo in Hout, Hroom. cbn [length] in *.
  apply Forall_cons in Hout as [Hl1 _].
  unfold infos. cbn [metas fmap list_fmap pubkey isSigner]. rewrite Hpk. unfold runs, withdraw_like. cbv zeta.
  step (run_require true MissingRequiredSignature tx eq_refl). step (run_account (wa_mint acc) tx).
  step (run_require _ IncorrectProgramId tx (andb_true_intro (conj Htok (bool_decide_eq_true_2 _ Hmint)))).
  step (count_ok _ _ (Hcount eq_refl)). step (pool_ok false).
  assert (Hi : input (wirePublicInputs b) 0 = word b 0 ∧ input (wirePublicInputs b) 1 = word b 1 ∧ input (wirePublicInputs b) 2 = word b 2 ∧
    input (wirePublicInputs b) 3 = word b 5) by by rewrite Ew. destruct Hi as (-> & -> & -> & ->).
  step (run_require _ IntentHashNotZero tx (bool_decide_eq_true_2 _ Hint)). step (run_require _ AmountMismatch tx (bool_decide_eq_true_2 _ Hamt)).
  step (run_require _ RecipientMismatch tx (bool_decide_eq_true_2 _ Hrec)). step (run_account (wa_asset acc) tx).
  step (run_require _ InvalidAccountData tx (proj2 (Z.eqb_eq _ _) Hlen)). step (run_require _ AssetMismatch tx (bool_decide_eq_true_2 _ Hamint)).
  rewrite (Hw 4%nat), (Hw 5%nat) by lia. cbn [Nat.sub Nat.add]. step (run_require _ AssetMismatch tx (bool_decide_eq_true_2 _ Hasset)).
  step (run_require _ InvalidSeeds tx (bool_decide_eq_true_2 _ Hvault)).
  step (load_ok false). step unpaused_ok. step (root_ok 6 Er ltac:(rewrite (proj1 Hwf), Ec; lia)). step (run_verifier d (circuitId b) _ tx eq_refl).
  inserts; [done|lia|].
  destruct (finish_one (word b 5) (mkInfo (wa_payer acc) true) (mkInfo (wa_nullifier acc) false) _ d' tx2 Eo En Hins Hp2 Hk2 Hi2 Hs2 Hun)
    as (tx' & E3 & Hdone). step E3. exists tx'. split; [|done].
  rewrite (run_call _ proof' _ vk) by done. do 5 f_equal. rewrite Ew. symmetry. exact Ep.
Qed.
Lemma deposit_runs amount acc : circuitId b = Deposit → acceptable (C_deposit amount acc) b vk tx →
  runs (deposit program (infos (C_deposit amount acc)) (proof b) (wirePublicInputs b) amount).
Proof.
  intros Hc (Hpk & Hver & Htok & Hata & Hmint & Hamt & Hasset). prepare Hc 11%nat 0%nat. apply Forall_cons in Hout as [Hl1 _].
  unfold infos. cbn [metas fmap list_fmap pubkey isSigner]. rewrite Hpk. unfold deposit. cbv zeta.
  step (run_require true MissingRequiredSignature tx eq_refl). step (run_require _ UnsupportedMint tx Htok).
  step (run_require _ IncorrectProgramId tx (bool_decide_eq_true_2 _ Hata)). step (count_ok _ _ (Hcount eq_refl)).
  step (run_account (da_mint acc) tx). step (run_require _ UnsupportedMint tx (bool_decide_eq_true_2 _ Hmint)).
  rewrite (Hw 0%nat), (Hw 2%nat), (Hw 3%nat) by lia. cbn [Nat.sub Nat.add].
  step (run_require _ AmountMismatch tx (bool_decide_eq_true_2 _ Hamt)). step (run_require _ AssetMismatch tx (bool_decide_eq_true_2 _ Hasset)).
  step (load_ok false). step unpaused_ok. step (run_verifier d Deposit 0 tx eq_refl). inserts; [done|lia|].
  exists tx2. split.
  - rewrite (run_call _ proof' _ (verifier_key d Deposit)) by done. do 5 f_equal. rewrite Ew. symmetry. exact Ep.
  - split; rewrite ?Eo, ?En; [by exists d'|constructor|by rewrite Hi2, Hs2, app_nil_r].
Qed.
Lemma process_runs c : circuitId b = circuit_of c → acceptable c b vk tx →
  ∃ h, process program (infos c) (instruction_of c b r) = Some h ∧ runs h.
Proof.
  intros Hc Hacc. destruct c; cbn [circuit_of] in Hc; eexists; (split; [reflexivity|]).
  - by apply deposit_runs.
  - pose proof (transfer_runs accounts0 (or_introl Hc) Hacc) as Ht. by rewrite Hc in Ht.
  - pose proof (transfer_runs accounts0 (or_intror Hc) Hacc) as Ht. by rewrite Hc in Ht.
  - by apply split_runs.
  - by apply join_runs.
  - pose proof (withdraw_runs amount accounts0 (or_introl Hc) Hacc) as Ht. by rewrite Hc in Ht.
  - pose proof (withdraw_runs amount accounts0 (or_intror Hc) Hacc) as Ht. by rewrite Hc in Ht.
Qed.
End Runs.

(** How many roots the pool has had since the proof's, if the proof has one. *)
Definition root_age (data : list Z) (b : ProofBundle) (age : Z) : Prop :=
  ∀ root, root_word b = Some root → root_at data (slot (root_cursor data) age) = root ∧
    ∀ a, 0 <= a < age → root_at data (slot (root_cursor data) a) ≠ root.
(** The slot that the builder chose holds the proof's root. *)
Lemma root_slot c b data pool r : decodePool data = Ok pool → 0 <= root_cursor data < 256 → circuitId b = circuit_of c →
  (match c with C_deposit _ _ => r = 0 | _ => resolveRootIndex b pool = Ok r end) →
  ∃ age, 0 <= age < 256 ∧ 0 <= r < 256 ∧ root_age data b age ∧ ∀ root, root_word b = Some root → r = slot (root_cursor data) age.
Proof.
  intros Hd Hc Hcirc Hr. destruct c; [exists 0; subst r; unfold root_age, root_word; rewrite Hcirc; by split_and!|..];
    destruct (resolve_inv _ _ _ _ Hd Hc Hr) as (root & age & Er & Hage & Hs & Hroot & Hy);
    exists age; (split; [done|]); (split; [subst r; apply slot_bound|]); unfold root_age; rewrite Er;
    (split; intros root' [= <-]; [split; [by rewrite <- Hs|done]|done]).
Qed.

(** C29. From the wallet to the verifier.  When the builder returns for a proof
    bundle and the pool account it was given, it returns the compute budget and
    one instruction of the pool program, which the program decodes with no byte
    left.  Let others insert leaves meanwhile, fewer than the root ring of 256 has
    slots left before that of the proof's root, which [age] newer roots follow,
    is reused, and let the transaction meet what the handler checks ([acceptable]): the pool account,
    the registered verifier, supported token accounts of the mint, a deposit's
    or withdrawal's amount, asset and recipient equal to the public inputs, a
    zero intent hash, and nullifiers that are distinct and unspent, with a payer
    who can fund their accounts.  Then the handler goes through: it puts the new
    leaves in the tree and on the log, marks the nullifiers spent, and calls the
    verifier registered for the circuit with exactly the bundle's proof, unpacked,
    and its public inputs - the compliance key and the root that were left out
    of the wire form are put back where they stood.  This holds when the bundle's
    key is the pool's, its root is not the zero word, its leaves are nonzero
    field elements and the tree has room for them, its proof unpacks, a verifier
    is registered and the pool is not paused. *)
Theorem built_instruction_verifies c b data pool ixs proof' : perform program c b pool = Ok ixs → decodePool data = Ok pool →
  tree_ok data → bound_key data b → paused data = false → root_word b ≠ Some zero_word → Forall good_leaf (outputs b) →
  Verify.decompress_proof (proof b) = Ok proof' → verifier_key data (circuitId b) ≠ zero_word →
  ∃ ix pix age, ixs = [computeBudgetIx; ix] ∧ programId ix = program ∧ try_from_slice (ix_data ix) = Some pix ∧ 0 <= age < 256 ∧
    root_age data b age ∧
    ∀ leaves data' tx, Forall good_leaf leaves → insert_all data leaves = Ok data' → age + Z.of_nat (length leaves) < 256 →
      next_leaf_index data + Z.of_nat (length leaves) + Z.of_nat (length (outputs b)) <= 2 ^ 32 →
      accounts tx pool_key = mkAccount program data' → acceptable c b (verifier_key data (circuitId b)) tx →
      ∃ h tx', process program ((λ m, mkInfo (pubkey m) (isSigner m)) <$> keys ix) pix = Some h ∧
        h tx = (tx', Ok (verifier_key data (circuitId b), proof' ++ witness_bytes (publicInputs b))) ∧
        done_before_call b data' tx tx'.
Proof.
  intros Hb Hd Hok Hk Hpause Hzero Hout Hproof Hvk. destruct (perform_inv _ _ _ _ _ Hb) as (Hcirc & Hwf & Ha & r & ix & Hr & -> & Hprog & Hdata & Hkeys).
  destruct (root_slot c b data pool r Hd (t_cursor _ Hok) Hcirc Hr) as (age & Hage & Hr256 & Hold & Hroot).
  assert (Hbytes : ix_data ix = [tag_of c] ++ payload b ++ amount_bytes c ++ index_bytes c r).
  { rewrite Hdata. destruct c; cbn [index_bytes]; rewrite ?Borsh.land_255 by done; done. }
  exists ix, (instruction_of c b r), age. split; [done|]. split; [done|].
  split; [rewrite Hbytes; by apply try_from_slice_built|]. split; [done|]. split; [done|]. intros leaves data' tx Hleaves Hins Hn Hroom Hpool Hacc.
  destruct (insert_all_spec leaves data Hok Hleaves ltac:(lia)) as (d2 & E & Hok' & Hnext & Hlow & Hslot). rewrite Hins in E. injection E as <-.
  assert (Hvk' : verifier_key data' (circuitId b) = verifier_key data (circuitId b)).
  { unfold verifier_key. apply Hlow; unfold State.OFF_VERIFIERS; destruct (circuitId b); unfold circuit_number; lia. }
  rewrite <- Hvk' in Hacc, Hvk |- *. rewrite Hkeys.
  destruct (process_runs b data' r tx proof' Hwf) with (c := c) as (h & Hh & tx' & Hrun & Hdone).
  - destruct Hk as [Hx Hy]. unfold bound_key, compliance_pk_x, compliance_pk_y in *.
    rewrite !Hlow by (unfold State.OFF_COMPLIANCE_PK_X, State.OFF_COMPLIANCE_PK_Y; lia). done.
  - revert Hpause. unfold paused. rewrite !byte_at_slice by done. by rewrite Hlow.
  - intros root Er. rewrite (Hroot root Er), Hslot by lia. split; [by apply Hold|]. intros ->. by apply Hzero.
  - exact Hok'.
  - exact Hpool.
  - exact Hout.
  - rewrite Hnext. exact Hroom.
  - exact Hproof.
  - exact Hvk.
  - exact Hcirc.
  - exact Hacc.
  - by exists h, tx'.
Qed.
End Spec.
End PoolSpec.

(** ** Witness: a withdrawal that meets every check, after another leaf *)
Module PoolWitness.
Import Solana.State PoolAccounts Address TxBuilder Program Wire Pool PoolSpec ShaWitness.
#[local] Existing Instance Prover.FilesWitness.toy_bn254.

Definition be32 (n : Z) : list Z := be_bytes 32 n.
Definition toy_program : PublicKey := be32 50.
#[local] Instance toy_web3 : Web3 := {|
  findProgramAddressSync seeds program := (sha256 (concat seeds ++ program), 255);
  fromBase58 s := take 32 (text_bytes s ++ replicate 32 0);
  systemProgramId := replicate 32 0;
  setComputeUnitLimit units := mkIx (be32 99) [] (2 :: le_bytes 4 units) |}.
#[local] Instance toy_syscalls : Syscalls := {|
  sol_poseidon l := Some (be32 (foldl (λ acc w, (acc * 31 + of_be w) mod BN254_SCALAR_FIELD_MODULUS) 7 l));
  allocates _ _ _ := true |}.
#[local] Instance toy_syscall_laws : SyscallLaws.
Proof.
  intros left right level _ _ _. eexists. split; [reflexivity|]. cbn [foldl].
  match goal with |- context [be32 (?x mod _)] => pose proof (Z.mod_pos_bound x BN254_SCALAR_FIELD_MODULUS ltac:(done)) as Hb end.
  split; [apply length_be_bytes|]. split; [apply be_bytes_bytes|]. unfold be32. rewrite of_be_be_bytes; [lia|].
  assert (BN254_SCALAR_FIELD_MODULUS < 256 ^ Z.of_nat 32) by done. lia.
Qed.

(** The accounts: the pool, its asset and mint, nothing else. *)
Definition mint : PublicKey := be32 3.
Definition vault : PublicKey := be32 5.
Definition destination : PublicKey := be32 6.
Definition verifier_program : PublicKey := be32 8.
Definition toy_data : list Z :=
  push_root (splice (splice (splice (replicate (Z.to_nat State.POOL_LEN) 0) OFF_COMPLIANCE_PK_X (be32 103)) OFF_COMPLIANCE_PK_Y (be32 104))
    (OFF_VERIFIERS + 2 * 32) verifier_program) (be32 106).
Definition toy_pool : PoolAccount := pool_fields toy_data.
Definition toy_accounts : WithdrawAccounts :=
  mkWithdrawAccounts (pool_pda toy_program).1 (be32 2) mint (nullifier_pda toy_program (be32 105)).1 vault destination (be32 7)
    verifier_program None.
Definition toy_call : Call := C_withdraw 40 toy_accounts.
Definition toy_proof : list Z :=
  match Prover.Compress.bundle_of_files Deposit Prover.FilesWitness.toy_file Prover.FilesWitness.toy_pw with Ok b => proof b | Err _ => [] end.
Definition toy_inputs : list (list Z) :=
  [amount_field 40; recipient_field destination; zero_word; be32 103; be32 104; be32 105; be32 106; asset_id_field mint]
  ++ (be32 <$> seqZ 108 9).
Definition toy_bundle : ProofBundle := mkBundle Withdraw toy_proof toy_inputs.
Definition toy_ixs : list TransactionInstruction :=
  match perform toy_program toy_call toy_bundle toy_pool with Ok l => l | Err _ => [] end.
(** The pool after somebody else's leaf. *)
Definition toy_later : list Z := match insert_all toy_data [be32 200] with Ok d => d | Err _ => [] end.
Definition toy_tx : Tx :=
  mkTx (λ k, if decide (k = (pool_pda toy_program).1) then mkAccount toy_program toy_later
    else if decide (k = be32 2) then mkAccount toy_program (mint ++ vault ++ asset_id_bytes mint ++ [255])
    else if decide (k = mint) then mkAccount TOKEN_PROGRAM_ID []
    else mkAccount systemProgramId []) [].
Lemma toy_tree : tree_ok toy_data.
Proof.
  split; [vm_compute; reflexivity|vm_compute; split; [discriminate|reflexivity]|vm_compute; discriminate|].
  intros level Hl.
  assert (E : forallb (λ l, bool_decide (side_node toy_data l = zero_word)) (seqZ 0 32) = true) by (vm_compute; reflexivity).
  rewrite forallb_forall in E. specialize (E level). rewrite bool_decide_eq_true in E. rewrite E.
  - split; [done|]. split; [by repeat constructor|done].
  - apply list_elem_of_In, elem_of_seqZ. lia.
Qed.
Lemma toy_good n : 0 < n < BN254_SCALAR_FIELD_MODULUS → good_leaf (be32 n).
Proof.
  intros Hn. assert (BN254_SCALAR_FIELD_MODULUS < 256 ^ Z.of_nat 32) by done.
  split; [split; [apply length_be_bytes|split; [apply be_bytes_bytes|]]|].
  - unfold be32. rewrite of_be_be_bytes; lia.
  - intros E. assert (Hz : of_be (be32 n) = 0) by (rewrite E; done). unfold be32 in Hz. rewrite of_be_be_bytes in Hz; lia.
Qed.
Lemma toy_acceptable : acceptable toy_program toy_call toy_bundle verifier_program toy_tx.
Proof. vm_compute. repeat (split; [first [reflexivity|discriminate]|]). reflexivity. Qed.
Lemma built_instruction_verifies_witness :
  ∃ ix pix h tx', toy_ixs !! 1%nat = Some ix ∧ try_from_slice (ix_data ix) = Some pix ∧
    process toy_program ((λ m, mkInfo (pubkey m) (isSigner m)) <$> keys ix) pix = Some h ∧
    h toy_tx = (tx', Ok (verifier_program, Prover.FilesWitness.toy_file ++ witness_bytes toy_inputs)) ∧
    inserted (logs tx') = [be32 108] ∧ spent (logs tx') = [be32 105].
Proof.
  destruct (built_instruction_verifies toy_program toy_call toy_bundle toy_data toy_pool toy_ixs Prover.FilesWitness.toy_file)
    as (ix & pix & age & Eix & _ & Epix & Hage & Hold & Hrun).
  - vm_compute. reflexivity.
  - unfold decodePool. assert ((Z.of_nat (length toy_data) =? POOL_LEN) = true) as -> by (vm_compute; reflexivity). reflexivity.
  - exact toy_tree.
  - split; vm_compute; reflexivity.
  - vm_compute. reflexivity.
  - vm_compute. discriminate.
  - constructor; [|constructor]. apply (toy_good 108). split; [lia|reflexivity].
  - vm_compute. reflexivity.
  - vm_compute. discriminate.
  - assert (age = 0) as ->.
    { destruct (Hold (be32 106)) as [_ Hy]; [vm_compute; reflexivity|]. destruct (Z.eq_dec age 0) as [E|E]; [exact E|].
      exfalso. apply (Hy 0); [lia|vm_compute; reflexivity]. }
    destruct (Hrun [be32 200] toy_later toy_tx) as (h & tx' & Hp & Hh & [_ _ [Hi Hs]]).
    + constructor; [|constructor]. apply (toy_good 200). split; [lia|reflexivity].
    + vm_compute. reflexivity.
    + reflexivity.
    + vm_compute. discriminate.
    + vm_compute. reflexivity.
    + exact toy_acceptable.
    + exists ix, pix, h, tx'. split; [rewrite Eix; reflexivity|]. split; [exact Epix|]. split; [exact Hp|].
      split; [exact Hh|split; [exact Hi|exact Hs]].
Defined.
End PoolWitness.
