(* ===== verification/Client.v ===== *)
(** * The coordinator's API and its client ([packages/coordinator/src/api],
    [packages/coordinator/src/schema.ts], [packages/cli/src/coordinatorClient.ts])

    [Server] are the two endpoints over the store of [Coordinator], [Client]
    the HTTP client.  What other members do between two requests of this
    client is its [schedule]: a list of turns, one of which is taken before
    each request, and one more by a request that waits. *)
From stdpp Require Import pretty.
From S2P Require Import Prelude Bytes Coordinator.
Import Coordinator.Coordinator.
Local Open Scope Z_scope.

(** ** [schema.ts] *)
Module Server.
Definition EnvelopeKind (k : string) : bool :=
  bool_decide (k ∈ ["dkg1"; "dkg2"; "proposal"; "nonce"; "share"; "final"]).
(** [/^[0-9a-fA-F]{64}$/]. *)
Definition is_hex (ch : ascii) : bool :=
  let n := Z.of_nat (nat_of_ascii ch) in
  ((48 <=? n) && (n <=? 57)) || ((65 <=? n) && (n <=? 70)) || ((97 <=? n) && (n <=? 102)).
Definition HEX32 (s : string) : bool :=
  let l := String.list_ascii_of_string s in (length l =? 64)%nat && forallb is_hex l.
(** [/^[A-Za-z0-9+/]*={0,2}$/]: at most two [=] at the end, and none before. *)
Definition is_base64 (ch : ascii) : bool :=
  let n := Z.of_nat (nat_of_ascii ch) in
  ((65 <=? n) && (n <=? 90)) || ((97 <=? n) && (n <=? 122)) || ((48 <=? n) && (n <=? 57)) || (n =? 43) || (n =? 47).
Fixpoint pads (l : list ascii) : nat := match l with ch :: l => if Ascii.eqb ch "=" then S (pads l) else O | [] => O end.
Definition BASE64 (s : string) : bool :=
  let l := reverse (String.list_ascii_of_string s) in
  (pads l <=? 2)%nat && forallb is_base64 (drop (pads l) l).
(** A body is [None] when it is no object with the four fields of their types. *)
Definition EnvelopeSchema (e : Envelope) : bool :=
  HEX32 (session_id e) && (0 <=? seq e) && EnvelopeKind (kind e)
  && ((String.length (ciphertext e) mod 4 =? 0)%nat && BASE64 (ciphertext e)).

(** ** [server.ts] *)
Inductive Status := Created | Bad_request | Conflict | Payload_too_large.
Definition MAX_ENVELOPE_BODY_BYTES : Z := 70000.
(** [bytes] is the size of the body: above the limit Fastify refuses it before
    it is parsed and before the handler runs. *)
Definition post_messages (now : Z) (id : string) (bytes : Z) (body : option Envelope) (db : MessageStore) : MessageStore * Status :=
  if MAX_ENVELOPE_BODY_BYTES <? bytes then (db, Payload_too_large)
  else match body with
  | None => (db, Bad_request)
  | Some envelope =>
      if negb (EnvelopeSchema envelope) then (db, Bad_request)
      else if negb (bool_decide (session_id envelope = id)) then (db, Bad_request)
      else match append now envelope db with
           | (db, Ok _) => (db, Created)
           | (db, Err (SequenceConflict _ _)) => (db, Conflict)
           end
  end.
(** What a waiting reader is told of an append: the envelope, when it was
    stored and belongs to the session above [since]. *)
Definition published (sessionId : string) (since_ : Z) (db : MessageStore) (op : Op) : option Envelope :=
  match op with
  | Sweep _ => None
  | Append now envelope =>
      match append now envelope db with
      | (_, Ok _) => if bool_decide (session_id envelope = sessionId) && negb (seq envelope <=? since_) then Some envelope else None
      | (_, Err _) => None
      end
  end.
(** The requests that arrive while the reader waits: it is answered at the
    first that concerns it, and with nothing when the time is over. *)
Fixpoint longpoll (sessionId : string) (since_ : Z) (ops : list Op) (db : MessageStore) : MessageStore * list Op * list Envelope :=
  match ops with
  | [] => (db, [], [])
  | op :: ops =>
      match published sessionId since_ db op with
      | Some envelope => (step db op, ops, [envelope])
      | None => longpoll sessionId since_ ops (step db op)
      end
  end.
End Server.

(** ** [coordinatorClient.ts] *)
Module Client.
Import Server.
Inductive ClientError := SequenceConflictError (sessionId : string) | Http (status : Status) | Never_satisfied (rounds : nat).

(** The server as this client meets it: its store, its clock and the turns of
    the others, each a list of requests and the time at the end of the turn. *)
Record World := mkWorld { db : MessageStore; now : Z; schedule : list (list Op * Z) }.
Record CoordinatorClient := mkClient { nextSeqGuess : gmap string Z; world : World }.

(** The next turn of the others. *)
Definition pass (w : World) : World :=
  match schedule w with
  | [] => w
  | (ops, t) :: rest => mkWorld (foldl step (db w) ops) t rest
  end.
(** [JSON.stringify] of a string, which is its UTF-8 bytes here: a quote, a
    backslash and the control characters are escaped. *)
Definition chr (n : nat) : string := String (ascii_of_nat n) EmptyString.
Definition hex_char (n : nat) : string := chr (if (n <? 10)%nat then 48 + n else 87 + n).
Definition escape (ch : ascii) : string :=
  let n := nat_of_ascii ch in
  match n with
  | 8%nat => chr 92 +:+ "b" | 9%nat => chr 92 +:+ "t" | 10%nat => chr 92 +:+ "n"
  | 12%nat => chr 92 +:+ "f" | 13%nat => chr 92 +:+ "r"
  | 34%nat | 92%nat => chr 92 +:+ chr n
  | _ => if (n <? 32)%nat then chr 92 +:+ "u00" +:+ hex_char (n / 16) +:+ hex_char (n mod 16) else chr n
  end.
Fixpoint escaped (s : string) : string :=
  match s with EmptyString => EmptyString | String ch s => escape ch +:+ escaped s end.
Definition quoted (s : string) : string := chr 34 +:+ escaped s +:+ chr 34.
(** [JSON.stringify(envelope)]. *)
Definition body_text (e : Envelope) : string :=
  "{" +:+ quoted "session_id" +:+ ":" +:+ quoted (session_id e) +:+ "," +:+ quoted "seq" +:+ ":" +:+ pretty (seq e) +:+ ","
  +:+ quoted "kind" +:+ ":" +:+ quoted (kind e) +:+ "," +:+ quoted "ciphertext" +:+ ":" +:+ quoted (ciphertext e) +:+ "}".
Definition body_bytes (e : Envelope) : Z := Z.of_nat (String.length (body_text e)).
Definition http_post (id : string) (body : Envelope) (w : World) : World * Status :=
  let w := pass w in
  let '(db', status) := post_messages (now w) id (body_bytes body) (Some body) (db w) in
  (mkWorld db' (now w) (schedule w), status).
Definition http_get (id : string) (since_ : Z) (w : World) : World * list Envelope :=
  let w := pass w in
  match since id (Some since_) (db w) with
  | [] =>
      match schedule w with
      | [] => (w, [])
      | (ops, t) :: rest =>
          let '(db', ops, found) := longpoll id since_ ops (db w) in
          (mkWorld db' t (match ops with [] => rest | _ => (ops, t) :: rest end), found)
      end
  | existing => (w, existing)
  end.

(** [try { ... } catch (err)]: what was written before a throw stays. *)
Definition attempt {S E E' A} (m : M S E A) : M S E' (result E A) := λ s, let '(s, r) := m s in (s, Ok r).

Section Client.
Notation C := (M CoordinatorClient ClientError).
Definition request {A} (f : World → World * A) : C A := λ c,
  let '(w, a) := f (world c) in (mkClient (nextSeqGuess c) w, Ok a).
Definition set_guess (sessionId : string) (n : Z) : C unit :=
  modify (λ c, mkClient (<[sessionId := n]> (nextSeqGuess c)) (world c)).

Definition append_message (envelope : Envelope) : C unit :=
  status ← request (http_post (session_id envelope) envelope);
  match status with
  | Conflict => throw (SequenceConflictError (session_id envelope))
  | Created => mret tt
  | status => throw (Http status)
  end.
Definition pollOnce (sessionId : string) (since_ : Z) : C (list Envelope) := request (http_get sessionId since_).

(** [attempts] requests are left, the one at hand included. *)
Fixpoint append_loop (attempts : nat) (sessionId kind ciphertext : string) (nextSeq : Z) : C Envelope :=
  match attempts with
  | O => throw (SequenceConflictError sessionId)
  | S attempts =>
      let envelope := mkEnvelope sessionId nextSeq kind ciphertext in
      r ← attempt (append_message envelope);
      match r with
      | Ok _ => _ ← set_guess sessionId (nextSeq + 1); mret envelope
      | Err (SequenceConflictError s) =>
          if (attempts =? 0)%nat then throw (SequenceConflictError s)
          else
            existing ← pollOnce sessionId (-1);
            let nextSeq := match max_opt (seq <$> existing) with None => 0 | Some m => m + 1 end in
            _ ← set_guess sessionId nextSeq;
            append_loop attempts sessionId kind ciphertext nextSeq
      | Err e => throw e
      end
  end.
Definition appendNext (sessionId kind ciphertext : string) (maxAttempts : nat) : C Envelope :=
  c ← get;
  append_loop maxAttempts sessionId kind ciphertext (default 0 (nextSeqGuess c !! sessionId)).
End Client.

(** A caller's errors. *)
Definition embed {S E E' A} (inj : E → E') (m : M S E A) : M S E' A := λ s, let '(s, r) := m s in (s, map_err inj r).
Section Collect.
Context {E : Type} (inj : ClientError → E).
(** The batch enters the map of what was seen, and the cursor moves up. *)
Definition see (batch : list Envelope) (seen : gmap Z Envelope) : gmap Z Envelope :=
  foldl (λ seen e, <[seq e := e]> seen) seen batch.
Definition see_since (batch : list Envelope) (since_ : Z) : Z :=
  foldl (λ s e, if s <? seq e then seq e else s) since_ batch.
Fixpoint collect_loop (rounds : nat) (total : nat) (sessionId : string) (predicate : list Envelope → result E bool)
    (since_ : Z) (seen : gmap Z Envelope) : M CoordinatorClient E (list Envelope) :=
  match rounds with
  | O => throw (inj (Never_satisfied total))
  | S rounds =>
      batch ← embed inj (pollOnce sessionId since_);
      let seen := see batch seen in
      let all := order_by seq (map_to_list seen).*2 in
      ok ← lift (λ e, e) (predicate all);
      if (ok : bool) then mret all
      else collect_loop rounds total sessionId predicate (see_since batch since_) seen
  end.
Definition collectUntil (sessionId : string) (predicate : list Envelope → result E bool) (maxRounds : option nat) (startSeq : option Z) :
    M CoordinatorClient E (list Envelope) :=
  let maxRounds := default 40%nat maxRounds in
  collect_loop maxRounds maxRounds sessionId predicate (default (-1) startSeq) ∅.
End Collect.
End Client.

(** ** What the client relies on, and what it guarantees *)
Module ClientSpec.
Import Server Client.

Lemma filter_all {A} (P : A → Prop) `{∀ x, Decision (P x)} l : Forall P l → filter P l = l.
Proof. induction 1 as [|x l Hx _ IH]; [done|]. rewrite filter_cons, decide_True by done. by rewrite IH. Qed.

(** The messages of a session, in order. *)
Definition log (s : string) (db : MessageStore) : list Envelope := envelope <$> rows_of s db.
Definition numbered (a : nat) (l : list Envelope) : Prop := seq <$> l = Z.of_nat <$> List.seq a (length l).

Lemma numbered_cons a e l : numbered a (e :: l) ↔ seq e = Z.of_nat a ∧ numbered (S a) l.
Proof. unfold numbered. cbn. split; [by intros [= -> ->]|by intros [-> ->]]. Qed.
Lemma numbered_app a l k : numbered a (l ++ k) ↔ numbered a l ∧ numbered (a + length l) k.
Proof.
  revert a. induction l as [|e l IH]; intros a; cbn [app length].
  - rewrite Nat.add_0_r. by split; [split|intros []].
  - rewrite !numbered_cons, IH. replace (a + S (length l))%nat with (S a + length l)%nat by lia. naive_solver.
Qed.
Lemma numbered_lower a l e : numbered a l → e ∈ l → Z.of_nat a <= seq e.
Proof.
  revert a. induction l as [|e' l IH]; intros a; [by intros ? ?%not_elem_of_nil|].
  rewrite numbered_cons. intros [He Hl] [->|Hin]%elem_of_cons; [lia|]. specialize (IH _ Hl Hin). lia.
Qed.
Lemma log_numbered s db : contiguous db → numbered 0 (log s db).
Proof.
  intros Hc. unfold numbered, log. rewrite length_fmap, <- list_fmap_compose. apply Hc.
Qed.
Lemma log_length s db : length (log s db) = length (rows_of s db).
Proof. apply length_fmap. Qed.

(** Sorting numbered messages, in whatever order they come. *)
Lemma numbered_sorted a l : numbered a l → StronglySorted (λ x y, seq x <= seq y) l.
Proof.
  revert a. induction l as [|e l IH]; intros a; [constructor|]. rewrite numbered_cons. intros [He Hl].
  constructor; [by eapply IH|]. apply Forall_forall. intros e' Hin. pose proof (numbered_lower _ _ _ Hl Hin). lia.
Qed.
Lemma numbered_inj a l x y : numbered a l → x ∈ l → y ∈ l → seq x = seq y → x = y.
Proof.
  intros Hn Hx Hy E. apply (NoDup_fmap_inj_on seq l); [|done..]. unfold numbered in Hn. rewrite Hn.
  apply NoDup_fmap_2; [intros ? ?; lia|apply NoDup_seq].
Qed.
Lemma order_numbered a l k : numbered a l → k ≡ₚ l → order_by seq k = l.
Proof.
  intros Hn Hp. assert (Hp' : order_by seq k ≡ₚ l) by (by rewrite order_by_perm).
  apply (StronglySorted_unique_strong (λ x y, seq x <= seq y)); [| |by eapply numbered_sorted|done].
  - intros x y Hx Hy H1 H2. rewrite Hp' in Hx. eapply numbered_inj; [done..|lia].
  - pose proof (order_by_sorted seq k) as Hs. clear -Hs. induction (order_by seq k) as [|e r IH]; [constructor|].
    rewrite fmap_cons in Hs. apply StronglySorted_inv in Hs as [Hs Hf]. constructor; [by apply IH|].
    rewrite Forall_fmap in Hf. exact Hf.
Qed.
Lemma filter_numbered a l k : numbered a l → Z.of_nat a <= k + 1 →
  filter (λ e, k < seq e) l = drop (Z.to_nat (k + 1) - a) l.
Proof.
  revert a. induction l as [|e l IH]; intros a; [by rewrite drop_nil|]. rewrite numbered_cons. intros [He Hl] Hk.
  rewrite filter_cons. case_decide as Hlt.
  - replace (Z.to_nat (k + 1) - a)%nat with O by lia. cbn [drop]. f_equal. apply filter_all.
    apply Forall_forall. intros e' Hin. pose proof (numbered_lower _ _ _ Hl Hin). lia.
  - rewrite (IH (S a) Hl) by lia. replace (Z.to_nat (k + 1) - a)%nat with (S (Z.to_nat (k + 1) - S a)) by lia. done.
Qed.
(** A read returns the rest of the log. *)
Lemma since_log s k db : contiguous db → -1 <= k → since s (Some k) db = drop (Z.to_nat (k + 1)) (log s db).
Proof.
  intros Hc Hk. unfold since. change (default (-1) (Some k)) with k.
  pose proof (log_numbered s db Hc) as Hn. fold (log s db). rewrite (filter_numbered 0 _ k Hn), Nat.sub_0_r by lia.
  rewrite <- (take_drop (Z.to_nat (k + 1)) (log s db)) in Hn. apply numbered_app in Hn as [_ Hn].
  by eapply order_numbered.
Qed.
(** The map of what was seen, sorted, is what was read. *)
Lemma see_spec a l : numbered a l → order_by seq (map_to_list (see l ∅)).*2 = l.
Proof.
  intros Hn. eapply order_numbered; [done|]. revert Hn. unfold see.
  enough (Hg : numbered a l → (map_to_list (foldl (λ seen e, <[seq e:=e]> seen) (∅ : gmap Z Envelope) l)).*2 ≡ₚ l ∧
    ∀ k, Z.of_nat (a + length l) <= k → foldl (λ seen e, <[seq e:=e]> seen) (∅ : gmap Z Envelope) l !! k = None).
  { intros Hn. by destruct (Hg Hn). }
  induction l as [|e l IH] using rev_ind; intros Hn.
  - split; [done|]. intros. cbn. apply lookup_empty.
  - apply numbered_app in Hn as [Hl He]. apply numbered_cons in He as [He _]. rewrite foldl_snoc.
    destruct (IH Hl) as [Hp Hk]. split.
    + rewrite map_to_list_insert by (apply Hk; lia). cbn. rewrite Hp. apply Permutation_cons_append.
    + intros k Hle. rewrite length_app in Hle. cbn in Hle. rewrite lookup_insert_ne by lia. apply Hk. lia.
Qed.
Lemma see_app l k m : see k (see l m) = see (l ++ k) m.
Proof. unfold see. by rewrite foldl_app. Qed.
Lemma see_since_spec a l s0 : numbered a l → s0 = Z.of_nat a - 1 → see_since l s0 = Z.of_nat (a + length l) - 1.
Proof.
  unfold see_since. revert a s0. induction l as [|e l IH]; intros a s0; [cbn; lia|].
  rewrite numbered_cons. intros [He Hl] ->. cbn [foldl length].
  rewrite (proj2 (Z.ltb_lt _ _)) by lia. rewrite (IH (S a)) by (done || lia). lia.
Qed.

(** *** The store under the requests of the others *)
Definition is_append (op : Op) : Prop := match op with Append _ _ => True | Sweep _ => False end.
(** What is still to come. *)
Definition pending (w : World) : list Op := mjoin (schedule w).*1.
(** From [w] to [w'] the others made the requests [ops]. *)
Definition advanced (w w' : World) (ops : list Op) : Prop :=
  db w' = foldl step (db w) ops ∧ pending w = ops ++ pending w'.

Lemma log_app s db db' : log s (db ++ db') = log s db ++ log s db'.
Proof. unfold log. by rewrite rows_of_app, fmap_app. Qed.
Lemma log_row s e t : log s [mkRow e t] = if decide (session_id e = s) then [e] else [].
Proof. unfold log, rows_of. rewrite filter_cons, filter_nil. cbn [envelope]. by case_decide. Qed.
Lemma step_append s now e db : contiguous db →
  log s (step db (Append now e)) =
  log s db ++ (if decide (seq e = Z.of_nat (length (log (session_id e) db)) ∧ session_id e = s) then [e] else []).
Proof.
  intros Hc. cbn [step]. rewrite append_spec by done. rewrite log_length. case_decide as Hs; cbn [fst].
  - rewrite log_app, log_row. f_equal. destruct (decide (session_id e = s)); [by rewrite decide_True|by rewrite decide_False by naive_solver].
  - rewrite decide_False by naive_solver. by rewrite app_nil_r.
Qed.
Lemma step_empty s op db : contiguous db → log s db = [] → (∀ now e, op = Append now e → session_id e ≠ s ∨ seq e ≠ 0) →
  log s (step db op) = [].
Proof.
  intros Hc Hl Hop. destruct op as [now e|now].
  - rewrite step_append, Hl by done. cbn [app]. case_decide as Hd; [|done]. destruct Hd as [Hseq Hs].
    subst s. rewrite Hl in Hseq. by destruct (Hop now e eq_refl).
  - cbn [step]. unfold log, sweepExpired. cbn [fst].
    rewrite (rows_of_filter s (expired (now - TTL_MS) db)). by destruct (expired _ _ s).
Qed.
Lemma run_log s ops db : contiguous db → Forall is_append ops → ∃ es, log s (foldl step db ops) = log s db ++ es.
Proof.
  intros Hc Ha. revert db Hc. induction Ha as [|op ops Hop _ IH]; intros db Hc; [exists []; by rewrite app_nil_r|].
  cbn [foldl]. destruct (IH (step db op)) as [es ->]; [by apply step_contiguous|].
  destruct op as [t e|]; [|done]. rewrite step_append, <- app_assoc by done. eauto.
Qed.

(** A waiting reader gets what is new. *)
Lemma longpoll_spec s k ops db : contiguous db → Z.of_nat (length (log s db)) = k + 1 → k = -1 ∨ Forall is_append ops →
  let '(db', rest, found) := longpoll s k ops db in
  ∃ ops', ops = ops' ++ rest ∧ db' = foldl step db ops' ∧ found = drop (Z.to_nat (k + 1)) (log s db') ∧ (rest ≠ [] → found ≠ []).
Proof.
  intros Hc Hl. revert db Hc Hl. induction ops as [|op ops IH]; intros db Hc Hl Ha.
  { cbn. exists []. split; [done|]. split; [done|]. rewrite drop_ge by lia. done. }
  cbn [longpoll]. destruct (published s k db op) as [e|] eqn:Hp.
  - exists [op]. split; [done|]. split; [done|].
    assert (Hlog : log s (step db op) = log s db ++ [e]).
    { destruct op as [t e'|]; [|done]. cbn [published] in Hp. rewrite append_spec in Hp by done.
      case_decide as Hs; [|done]. destruct (bool_decide (session_id e' = s) && _) eqn:Hb; [|done]. injection Hp as ->.
      apply andb_true_iff in Hb as [Hb%bool_decide_eq_true _]. rewrite step_append, log_length, decide_True by done. done. }
    rewrite Hlog, drop_app_ge by lia. replace (Z.to_nat (k + 1) - length (log s db))%nat with O by lia. done.
  - assert (Hsame : log s (step db op) = log s db).
    { destruct op as [t e'|t].
      - rewrite step_append, decide_False by
          (done || (intros [Hs1 Hs2]; revert Hp; cbn [published]; rewrite append_spec, <- log_length by done; rewrite decide_True by done;
            rewrite bool_decide_eq_true_2 by done; subst s; rewrite (proj2 (Z.leb_gt _ _)) by lia; done)).
        apply app_nil_r.
      - destruct Ha as [->|Ha]; [|by apply Forall_cons in Ha as [[] _]]. destruct (log s db) eqn:E; [|cbn in Hl; lia].
        by apply step_empty. }
    specialize (IH (step db op) (step_contiguous _ _ Hc) ltac:(rewrite Hsame; done)
      ltac:(destruct Ha as [|Ha]; [by left|right; by apply Forall_cons in Ha as []])).
    destruct (longpoll s k ops (step db op)) as [[db' rest] found].
    destruct IH as (ops' & -> & -> & Hf & Hr). exists (op :: ops'). done.
Qed.

Lemma pass_advanced w : ∃ ops, advanced w (pass w) ops.
Proof.
  unfold pass, advanced, pending. destruct (schedule w) as [|[ops t] rest] eqn:E; [exists []; by rewrite E|by exists ops].
Qed.
Lemma pass_length w : length (schedule (pass w)) = (length (schedule w) - 1)%nat.
Proof. unfold pass. destruct (schedule w) as [|[ops t] rest] eqn:E; [by rewrite E|cbn; lia]. Qed.
Lemma advanced_contiguous w w' ops : advanced w w' ops → contiguous (db w) → contiguous (db w').
Proof. intros [-> _]. apply run_contiguous. Qed.
Lemma advanced_trans w1 w2 w3 o1 o2 : advanced w1 w2 o1 → advanced w2 w3 o2 → advanced w1 w3 (o1 ++ o2).
Proof. intros [D1 P1] [D2 P2]. split; [by rewrite foldl_app, D2, D1|by rewrite P1, P2, app_assoc]. Qed.
Lemma advanced_appends w w' ops : advanced w w' ops → Forall is_append (pending w) →
  Forall is_append ops ∧ Forall is_append (pending w').
Proof. intros [_ ->]. by rewrite Forall_app. Qed.

Lemma http_get_spec s k w : contiguous (db w) → -1 <= k → k + 1 <= Z.of_nat (length (log s (db w))) →
  k = -1 ∨ Forall is_append (pending w) →
  let '(w', found) := http_get s k w in
  found = drop (Z.to_nat (k + 1)) (log s (db w')) ∧ (∃ ops, advanced w w' ops) ∧
  (length (schedule w') <= length (schedule w) - 1)%nat ∧ (schedule w = [] → w' = w).
Proof.
  intros Hc Hk Hl Ha. unfold http_get. destruct (pass_advanced w) as [o1 Ho1].
  pose proof (advanced_contiguous _ _ _ Ho1 Hc) as Hc1. rewrite since_log by done.
  pose proof (pass_length w) as Hlen. assert (Hnil : schedule w = [] → pass w = w) by (unfold pass; by intros ->).
  assert (Ha1 : k = -1 ∨ Forall is_append (pending (pass w))).
  { destruct Ha as [|Ha]; [by left|right]. by eapply advanced_appends. }
  assert (Hl1 : k + 1 <= Z.of_nat (length (log s (db (pass w))))).
  { destruct Ha as [->|Ha]; [lia|]. destruct Ho1 as [-> Hp]. rewrite Hp, Forall_app in Ha. destruct (run_log s o1 (db w) Hc) as [es ->]; [tauto|].
    rewrite length_app. lia. }
  destruct (drop (Z.to_nat (k + 1)) (log s (db (pass w)))) as [|e es] eqn:Hd.
  - destruct (schedule (pass w)) as [|[ops t] rest] eqn:Hs.
    + split; [by rewrite Hd|]. split; [eauto|]. split; [rewrite Hs; cbn; lia|done].
    + assert (Hlog : Z.of_nat (length (log s (db (pass w)))) = k + 1).
      { apply (f_equal length) in Hd. rewrite length_drop in Hd. cbn in Hd. lia. }
      pose proof (longpoll_spec s k ops (db (pass w)) Hc1 Hlog) as Hlp.
      destruct (longpoll s k ops (db (pass w))) as [[db' rest_ops] found].
      destruct Hlp as (ops' & -> & -> & Hf & Hr).
      { destruct Ha1 as [|Ha1]; [by left|right]. unfold pending in Ha1. rewrite Hs in Ha1. cbn in Ha1. by apply Forall_app in Ha1 as []. }
      split; [done|]. split.
      * exists (o1 ++ ops'). eapply advanced_trans; [done|]. split; [done|]. unfold pending. rewrite Hs. cbn.
        destruct rest_ops; cbn; [by rewrite app_nil_r|by rewrite <- app_assoc].
      * split; [destruct rest_ops; cbn in *; lia|]. intros E. rewrite (Hnil E), E in Hs. done.
  - split; [done|]. split; [eauto|]. split; [lia|done].
Qed.

(** An append is stored exactly when it carries the next number. *)
Definition valid (s kind ct : string) : Prop := EnvelopeSchema (mkEnvelope s 0 kind ct) = true.
Lemma valid_seq s kind ct n : valid s kind ct → 0 <= n → EnvelopeSchema (mkEnvelope s n kind ct) = true.
Proof.
  unfold valid, EnvelopeSchema. cbn [session_id seq Coordinator.kind ciphertext]. intros Hv Hn.
  apply andb_true_iff in Hv as [Hv H3]. apply andb_true_iff in Hv as [Hv H2]. apply andb_true_iff in Hv as [H1 _].
  rewrite H1, H2, H3, (proj2 (Z.leb_le _ _) Hn). done.
Qed.
(** The body with this number is within the server's limit. *)
Definition fits (s kind ct : string) (n : Z) : Prop := body_bytes (mkEnvelope s n kind ct) <= MAX_ENVELOPE_BODY_BYTES.
Lemma http_post_spec s n kind ct w : contiguous (db w) → valid s kind ct → fits s kind ct n → 0 <= n →
  let w1 := pass w in let e := mkEnvelope s n kind ct in
  http_post s e w =
  if decide (n = Z.of_nat (length (log s (db w1))))
  then (mkWorld (db w1 ++ [mkRow e (now w1)]) (now w1) (schedule w1), Created) else (w1, Conflict).
Proof.
  intros Hc Hv Hf Hn. cbn zeta. unfold http_post, post_messages. rewrite (proj2 (Z.ltb_ge _ _) Hf), (valid_seq s kind ct n Hv Hn).
  cbn [negb session_id]. rewrite bool_decide_eq_true_2 by done. cbn [negb].
  destruct (pass_advanced w) as [o1 Ho1]. pose proof (advanced_contiguous _ _ _ Ho1 Hc) as Hc1.
  rewrite append_spec by done. cbn [seq session_id]. rewrite <- log_length. case_decide; [done|].
  destruct (pass w); done.
Qed.

(** *** Appending *)
Lemma http_post_cases e w : contiguous (db w) → let '(w', status) := http_post (session_id e) e w in
  schedule w' = schedule (pass w) ∧
  (status = Created ∧ seq e = Z.of_nat (length (log (session_id e) (db (pass w)))) ∧ db w' = db (pass w) ++ [mkRow e (now (pass w))] ∨
   status ≠ Created ∧ db w' = db (pass w)).
Proof.
  intros Hc. unfold http_post, post_messages. destruct (pass_advanced w) as [o1 Ho1].
  pose proof (advanced_contiguous _ _ _ Ho1 Hc) as Hc1. destruct (_ <? _); [by split; [|right]|].
  destruct (EnvelopeSchema e); cbn [negb]; [|by split; [|right]].
  rewrite bool_decide_eq_true_2 by done. cbn [negb]. rewrite append_spec by done. rewrite <- log_length.
  case_decide; (split; [done|]); [by left|by right].
Qed.
Definition status_result (e : Envelope) (status : Status) : result ClientError unit :=
  match status with Created => Ok tt | Conflict => Err (SequenceConflictError (session_id e)) | status => Err (Http status) end.
Lemma append_attempt e c : attempt (append_message e) c =
  (mkClient (nextSeqGuess c) (http_post (session_id e) e (world c)).1,
   Ok (status_result e (http_post (session_id e) e (world c)).2) : result ClientError (result ClientError unit)).
Proof.
  unfold attempt, append_message, request, mbind, M_bind. destruct (http_post _ e (world c)) as [w []]; done.
Qed.
Lemma append_loop_S n s kind ct nextSeq c : append_loop (S n) s kind ct nextSeq c =
  let e := mkEnvelope s nextSeq kind ct in
  let '(w, status) := http_post s e (world c) in
  match status with
  | Created => (mkClient (<[s := nextSeq + 1]> (nextSeqGuess c)) w, Ok e)
  | Bad_request | Payload_too_large => (mkClient (nextSeqGuess c) w, Err (Http status))
  | Conflict =>
      if (n =? 0)%nat then (mkClient (nextSeqGuess c) w, Err (SequenceConflictError s))
      else
        let '(w, existing) := http_get s (-1) w in
        let next := match max_opt (seq <$> existing) with None => 0 | Some m => m + 1 end in
        append_loop n s kind ct next (mkClient (<[s := next]> (nextSeqGuess c)) w)
  end.
Proof.
  cbn [append_loop]. unfold mbind at 1, M_bind at 1. rewrite append_attempt. cbn [session_id].
  destruct (http_post s _ (world c)) as [w []]; cbn [status_result fst snd]; [done|done| |done].
  destruct (n =? 0)%nat; [done|]. unfold pollOnce, request, set_guess, modify, mbind, M_bind. cbn [world nextSeqGuess].
  by destruct (http_get s (-1) w) as [w' existing].
Qed.
Lemma log_next s db : contiguous db →
  match max_opt (seq <$> log s db) with None => 0 | Some m => m + 1 end = Z.of_nat (length (log s db)).
Proof.
  intros Hc. rewrite log_length, <- (nextSeq_contiguous s db Hc). unfold nextSeq, log. by rewrite <- list_fmap_compose.
Qed.
Lemma get_all s w : contiguous (db w) → let '(w', found) := http_get s (-1) w in
  found = log s (db w') ∧ (∃ ops, advanced w w' ops) ∧ (length (schedule w') <= length (schedule w) - 1)%nat ∧ (schedule w = [] → w' = w).
Proof.
  intros Hc. pose proof (http_get_spec s (-1) w Hc ltac:(lia) ltac:(lia) ltac:(by left)) as Hg.
  by destruct (http_get s (-1) w) as [w' found].
Qed.

(** One message, written once, after everything the others did. *)
Definition written (s kind ct : string) (w w' : World) (r : result ClientError Envelope) : Prop :=
  ∃ ops, pending w = ops ++ pending w' ∧ let db1 := foldl step (db w) ops in
  match r with
  | Ok e => e = mkEnvelope s (Z.of_nat (length (log s db1))) kind ct ∧ ∃ t, db w' = db1 ++ [mkRow e t]
  | Err _ => db w' = db1
  end.
Lemma append_loop_written n s kind ct nextSeq c c' r : contiguous (db (world c)) →
  append_loop n s kind ct nextSeq c = (c', r) → written s kind ct (world c) (world c') r.
Proof.
  revert nextSeq c. induction n as [|n IH]; intros nextSeq c Hc.
  { cbn. unfold throw. intros [= <- <-]. exists []. done. }
  rewrite append_loop_S. cbn zeta. set (e := mkEnvelope s nextSeq kind ct).
  pose proof (http_post_cases e (world c) Hc) as Hp. cbn [session_id] in Hp. change (session_id e) with s in Hp.
  destruct (pass_advanced (world c)) as (o1 & Hd1 & Hpend1).
  destruct (http_post s e (world c)) as [w status]. destruct Hp as (Hs & Hp).
  assert (Hpend : pending (world c) = o1 ++ pending w) by (unfold pending in *; by rewrite Hs).
  destruct Hp as [(-> & Hseq & Hdb)|(Hst & Hdb)].
  { intros [= <- <-]. exists o1. cbn [world]. split; [done|]. cbn zeta. rewrite <- Hd1. split; [|eauto].
    unfold e in *. cbn in Hseq. by rewrite <- Hseq. }
  rewrite Hd1 in Hdb. destruct status; [done| | |]; try solve [intros [= <- <-]; by exists o1].
  destruct (n =? 0)%nat; [intros [= <- <-]; by exists o1|].
  assert (Hcw : contiguous (db w)) by (rewrite Hdb; by apply run_contiguous).
  pose proof (get_all s w Hcw) as Hg. destruct (http_get s (-1) w) as [w2 found]. destruct Hg as (_ & (o2 & Hd2 & Hp2) & _).
  intros Hloop. apply IH in Hloop as (ops & Hpo & Hr); [|cbn [world]; rewrite Hd2; by apply run_contiguous].
  cbn [world] in Hpo, Hr. exists (o1 ++ o2 ++ ops). split; [by rewrite Hpend, Hp2, Hpo, <- !app_assoc|].
  cbn zeta. rewrite !foldl_app, <- Hdb, <- Hd2. exact Hr.
Qed.
(** The log grows by at most one message a request. *)
Lemma length_log_step s db op : contiguous db → (length (log s (step db op)) <= S (length (log s db)))%nat.
Proof.
  intros Hc. destruct op as [t e|t].
  - rewrite step_append, length_app by done. case_decide; cbn; lia.
  - cbn [step]. unfold log, sweepExpired. cbn [fst]. rewrite (rows_of_filter s (expired (t - TTL_MS) db)).
    destruct (expired _ _ s); rewrite ?length_fmap; cbn; lia.
Qed.
Lemma length_log_run s ops db : contiguous db → (length (log s (foldl step db ops)) <= length (log s db) + length ops)%nat.
Proof.
  revert db. induction ops as [|op ops IH]; intros db Hc; cbn [foldl length]; [lia|].
  pose proof (IH (step db op) (step_contiguous _ _ Hc)). pose proof (length_log_step s db op Hc). lia.
Qed.
(** The largest number the session can come to. *)
Definition reach (s : string) (w : World) : Z := Z.of_nat (length (log s (db w)) + length (pending w)).
Lemma reach_advanced s w w' ops : contiguous (db w) → advanced w w' ops → reach s w' <= reach s w.
Proof.
  intros Hc [Hd Hp]. unfold reach. rewrite Hd, Hp, length_app. pose proof (length_log_run s ops (db w) Hc). lia.
Qed.
(** With the others quiet, the right number is accepted at once. *)
Lemma append_loop_quiet n s kind ct c : contiguous (db (world c)) → valid s kind ct →
  fits s kind ct (Z.of_nat (length (log s (db (world c))))) → schedule (world c) = [] →
  is_ok (append_loop (S n) s kind ct (Z.of_nat (length (log s (db (world c))))) c).2 = true.
Proof.
  intros Hc Hv Hf Hs. rewrite append_loop_S. cbn zeta. rewrite (http_post_spec s _ _ _ _ Hc Hv Hf (Zle_0_nat _)).
  assert (pass (world c) = world c) as -> by (unfold pass; by rewrite Hs). by rewrite decide_True by done.
Qed.
Lemma append_loop_succeeds N n s kind ct nextSeq c : contiguous (db (world c)) → valid s kind ct →
  (∀ m, 0 <= m <= N → fits s kind ct m) → reach s (world c) <= N → 0 <= nextSeq <= N →
  (length (schedule (world c)) <= 2 * n)%nat → is_ok (append_loop (S (S n)) s kind ct nextSeq c).2 = true.
Proof.
  revert nextSeq c. induction n as [|n IH]; intros nextSeq c Hc Hv Hf Hreach Hn Hlen;
    rewrite append_loop_S; cbn zeta; rewrite (http_post_spec s _ _ _ _ Hc Hv (Hf _ Hn) (proj1 Hn)); case_decide; [reflexivity| |reflexivity|];
    cbn [Nat.eqb]; destruct (pass_advanced (world c)) as [o1 Ho1]; pose proof (advanced_contiguous _ _ _ Ho1 Hc) as Hc1;
    pose proof (get_all s (pass (world c)) Hc1) as Hg; pose proof (pass_length (world c)) as Hpl;
    destruct (http_get s (-1) (pass (world c))) as [w2 found]; destruct Hg as (-> & (o2 & Ho2) & Hl2 & _);
    pose proof (advanced_contiguous _ _ _ Ho2 Hc1) as Hc2; rewrite log_next by done;
    pose proof (reach_advanced s _ _ _ Hc Ho1); pose proof (reach_advanced s _ _ _ Hc1 Ho2);
    assert (Hm : 0 <= Z.of_nat (length (log s (db w2))) <= N) by (unfold reach in *; lia).
  - apply (append_loop_quiet 0 s kind ct (mkClient _ w2)); cbn [world]; [exact Hc2|exact Hv|exact (Hf _ Hm)|]. apply length_zero_iff_nil. lia.
  - destruct (decide (schedule w2 = [])) as [E|E]; [apply (append_loop_quiet (S n) s kind ct (mkClient _ w2)); [exact Hc2|exact Hv|exact (Hf _ Hm)|exact E]|].
    apply IH; cbn [world]; [exact Hc2|exact Hv|exact Hf|lia|exact Hm|lia].
Qed.
Lemma append_loop_too_large n s kind ct nextSeq c : ¬ fits s kind ct nextSeq →
  (append_loop (S n) s kind ct nextSeq c).2 = Err (Http Payload_too_large).
Proof.
  unfold fits. intros Hf%Z.nle_gt. rewrite append_loop_S. cbn zeta. unfold http_post, post_messages.
  by rewrite (proj2 (Z.ltb_lt _ _) Hf).
Qed.

(** C33. Appending under contention: whatever the others request in between,
    [appendNext] writes its message exactly once when it returns, with the next
    number of the session at that moment, and nothing at all when it throws.
    It does return, for a message the schema accepts whose body is within the
    server's limit of 70000 bytes under every number the session can come to,
    when the others take at most [2 * (maxAttempts - 2)] turns, whatever stale
    number it starts from; and a body above the limit is refused at once. *)
Theorem appendNext_once s kind ct n c : contiguous (db (world c)) →
  let '(c', r) := appendNext s kind ct n c in
  let guess := default 0 (nextSeqGuess c !! s) in
  written s kind ct (world c) (world c') r ∧
  (valid s kind ct → (∀ m, 0 <= m <= Z.max guess (reach s (world c)) → fits s kind ct m) → 0 <= guess → (2 <= n)%nat →
   (length (schedule (world c)) <= 2 * (n - 2))%nat → ∃ e, r = Ok e) ∧
  (¬ fits s kind ct guess → (1 <= n)%nat → r = Err (Http Payload_too_large)).
Proof.
  intros Hc. destruct (appendNext s kind ct n c) as [c' r] eqn:Hr. cbn zeta.
  change (appendNext s kind ct n c) with (append_loop n s kind ct (default 0 (nextSeqGuess c !! s)) c) in Hr.
  split_and!; [by eapply append_loop_written| |].
  - intros Hv Hf Hg Hn Hlen. destruct n as [|[|n]]; [lia|lia|].
    pose proof (append_loop_succeeds _ n s kind ct _ c Hc Hv Hf (Z.le_max_r _ _) (conj Hg (Z.le_max_l _ _)) ltac:(lia)) as Hok. rewrite Hr in Hok.
    destruct r as [e|]; [eauto|done].
  - intros Hf Hn. destruct n as [|n]; [lia|]. pose proof (append_loop_too_large n s kind ct _ c Hf) as He. by rewrite Hr in He.
Qed.

(** *** Collecting *)
Section Collect.
Context {Err_ : Type} (inj : ClientError → Err_) (s : string) (predicate : list Envelope → result Err_ bool) (total : nat).
Lemma collect_loop_S rounds since_ seen c : collect_loop inj (S rounds) total s predicate since_ seen c =
  let '(w, batch) := http_get s since_ (world c) in
  let c' := mkClient (nextSeqGuess c) w in
  let all := order_by seq (map_to_list (see batch seen)).*2 in
  match predicate all with
  | Err e => (c', Err e)
  | Ok true => (c', Ok all)
  | Ok false => collect_loop inj rounds total s predicate (see_since batch since_) (see batch seen) c'
  end.
Proof.
  cbn [collect_loop]. unfold embed, pollOnce, request, mbind, M_bind. destruct (http_get s since_ (world c)) as [w batch].
  cbn [map_err]. unfold lift. destruct (predicate _) as [[]|]; done.
Qed.
(** What was seen before a round is a part of the log, and everything in it afterwards. *)
Lemma collect_round a L c : contiguous (db (world c)) → Forall is_append (pending (world c)) →
  L = take (length L) (drop a (log s (db (world c)))) → (a + length L <= length (log s (db (world c))))%nat →
  let since_ := Z.of_nat (a + length L) - 1 in
  let '(w, batch) := http_get s since_ (world c) in
  L ++ batch = drop a (log s (db w)) ∧ (a <= length (log s (db w)))%nat ∧ (∃ ops, advanced (world c) w ops) ∧
  (length (schedule w) <= length (schedule (world c)) - 1)%nat ∧ (schedule (world c) = [] → w = world c) ∧
  numbered a (L ++ batch) ∧ see_since batch since_ = Z.of_nat (a + length (L ++ batch)) - 1.
Proof.
  intros Hc Ha HL Hlen. cbn zeta. pose proof (http_get_spec s (Z.of_nat (a + length L) - 1) (world c) Hc ltac:(lia) ltac:(lia) ltac:(by right)) as Hg.
  destruct (http_get s _ (world c)) as [w batch]. destruct Hg as (Hb & (ops & Ho) & Hl & Hq).
  replace (Z.to_nat (Z.of_nat (a + length L) - 1 + 1)) with (a + length L)%nat in Hb by lia.
  destruct (advanced_appends _ _ _ Ho Ha) as [Hops _]. destruct (run_log s ops (db (world c)) Hc Hops) as [es Hes].
  pose proof (advanced_contiguous _ _ _ Ho Hc) as Hcw. destruct Ho as [Hd Hp]. rewrite <- Hd in Hes.
  assert (E : L ++ batch = drop a (log s (db w))).
  { rewrite Hb, <- drop_drop. rewrite <- (take_drop (length L) (drop a (log s (db w)))) at 2. f_equal.
    rewrite HL at 1. rewrite Hes, drop_app_le, take_app_le by (rewrite ?length_drop; lia). done. }
  assert (Hle : (a <= length (log s (db w)))%nat) by (rewrite Hes, length_app; lia).
  assert (Hnum : numbered a (L ++ batch)).
  { rewrite E. pose proof (log_numbered s _ Hcw) as Hn. rewrite <- (take_drop a (log s (db w))) in Hn.
    apply numbered_app in Hn as [_ Hn]. rewrite length_take_le in Hn by done. done. }
  split; [done|]. split; [done|]. split; [by exists ops|]. split; [done|]. split; [done|]. split; [done|].
  apply numbered_app in Hnum as [_ Hnum]. rewrite (see_since_spec _ _ _ Hnum) by done. rewrite length_app. lia.
Qed.
Lemma collect_loop_log rounds a L c c' all : contiguous (db (world c)) → Forall is_append (pending (world c)) →
  L = take (length L) (drop a (log s (db (world c)))) → (a + length L <= length (log s (db (world c))))%nat →
  collect_loop inj rounds total s predicate (Z.of_nat (a + length L) - 1) (see L ∅) c = (c', Ok all) →
  (∃ ops, advanced (world c) (world c') ops) ∧ all = drop a (log s (db (world c'))) ∧ predicate all = Ok true.
Proof.
  revert L c. induction rounds as [|rounds IH]; intros L c Hc Ha HL Hlen; [done|]. rewrite collect_loop_S.
  pose proof (collect_round a L c Hc Ha HL Hlen) as Hr. cbn zeta in Hr.
  destruct (http_get s _ (world c)) as [w batch]. destruct Hr as (E & Hle & (ops & Ho) & _ & _ & Hnum & Hsince).
  cbn zeta. rewrite see_app, (see_spec a) by done. destruct (predicate (L ++ batch)) as [[]|] eqn:Hp; [| |done].
  - intros [= <- <-]. split; [by exists ops|]. done.
  - rewrite Hsince. intros Hloop. apply IH in Hloop as ((o2 & Ho2) & Hres); cbn [world] in *.
    + split; [|done]. exists (ops ++ o2). by eapply advanced_trans.
    + by eapply advanced_contiguous.
    + by eapply advanced_appends.
    + rewrite E at 1. rewrite E, length_drop. symmetry. apply take_ge. by rewrite length_drop.
    + rewrite E, length_drop. lia.
Qed.
Lemma collect_loop_ends rounds a L c : contiguous (db (world c)) → Forall is_append (pending (world c)) →
  L = take (length L) (drop a (log s (db (world c)))) → (a + length L <= length (log s (db (world c))))%nat →
  (∀ l, l `prefix_of` drop a (log s (foldl step (db (world c)) (pending (world c)))) → ∃ b, predicate l = Ok b) →
  predicate (drop a (log s (foldl step (db (world c)) (pending (world c))))) = Ok true →
  (length (schedule (world c)) < rounds)%nat →
  ∃ all, (collect_loop inj rounds total s predicate (Z.of_nat (a + length L) - 1) (see L ∅) c).2 = Ok all.
Proof.
  revert L c. induction rounds as [|rounds IH]; intros L c Hc Ha HL Hlen Hpred Hfin Hrounds; [lia|]. rewrite collect_loop_S.
  pose proof (collect_round a L c Hc Ha HL Hlen) as Hr. cbn zeta in Hr.
  destruct (http_get s _ (world c)) as [w batch]. destruct Hr as (E & Hle & (ops & Ho) & Hl & Hq & Hnum & Hsince).
  cbn zeta. rewrite see_app, (see_spec a) by done.
  assert (Hpre : L ++ batch `prefix_of` drop a (log s (foldl step (db (world c)) (pending (world c))))).
  { destruct Ho as [Hd Hpn]. rewrite Hpn, foldl_app, <- Hd, E. rewrite Hpn in Ha. apply Forall_app in Ha as [_ Ha].
    destruct (run_log s (pending w) (db w)) as [es ->]; [rewrite Hd; by apply run_contiguous|done|].
    rewrite drop_app_le by done. by exists es. }
  destruct (Hpred _ Hpre) as [[] Hp]; rewrite Hp; [by eexists|].
  rewrite Hsince. destruct (schedule (world c)) as [|t rest] eqn:Hs.
  { exfalso. rewrite (Hq eq_refl) in E. 
    assert (pending (world c) = []) as E0 by (unfold pending; by rewrite Hs). rewrite E0 in Hfin.
    change (foldl step (db (world c)) []) with (db (world c)) in Hfin. rewrite <- E, Hp in Hfin. done. }
  assert (Hend : foldl step (db w) (pending w) = foldl step (db (world c)) (pending (world c))).
  { destruct Ho as [Hd Hpn]. by rewrite Hpn, foldl_app, <- Hd. }
  apply IH; cbn [world]; rewrite ?Hend.
  - by eapply advanced_contiguous.
  - by eapply advanced_appends.
  - rewrite E at 1. rewrite E, length_drop. symmetry. apply take_ge. by rewrite length_drop.
  - rewrite E, length_drop. lia.
  - done.
  - done.
  - cbn in *. lia.
Qed.

End Collect.

(** Collecting: as long as nothing of the session expires, what
    [collectUntil] returns is exactly the log of the session from the start
    number at that moment, whole and in order, and satisfies the predicate; and
    it does return when the predicate has an answer on every part of the log
    that the others' requests end in, is satisfied by the whole, and they take
    fewer turns than there are rounds. *)
Theorem collectUntil_log {E} (inj : ClientError → E) s predicate maxRounds startSeq (c : CoordinatorClient) :
  contiguous (db (world c)) → Forall is_append (pending (world c)) →
  -1 <= default (-1) startSeq → default (-1) startSeq + 1 <= Z.of_nat (length (log s (db (world c)))) →
  let from := Z.to_nat (default (-1) startSeq + 1) in
  (∀ c' all, collectUntil inj s predicate maxRounds startSeq c = (c', Ok all) →
    (∃ ops, advanced (world c) (world c') ops) ∧ all = drop from (log s (db (world c'))) ∧ predicate all = Ok true) ∧
  ((∀ l, l `prefix_of` drop from (log s (foldl step (db (world c)) (pending (world c)))) → ∃ b, predicate l = Ok b) →
   predicate (drop from (log s (foldl step (db (world c)) (pending (world c))))) = Ok true →
   (length (schedule (world c)) < default 40 maxRounds)%nat →
   ∃ all, (collectUntil inj s predicate maxRounds startSeq c).2 = Ok all).
Proof.
  intros Hc Ha Hs Hl from. unfold collectUntil.
  assert (Hsince : default (-1) startSeq = Z.of_nat (from + length (@nil Envelope)) - 1) by (unfold from; cbn [length]; lia).
  assert (Hlen : (from + length (@nil Envelope) <= length (log s (db (world c))))%nat) by (unfold from; cbn [length]; lia).
  rewrite Hsince. split.
  - intros c' all Hr. by eapply (collect_loop_log _ _ _ _ _ _ [] c).
  - intros Hp Hf Hr. by apply (collect_loop_ends _ _ _ _ _ _ [] c).
Qed.

(** *** A client among others who only append *)
Definition calm (c : CoordinatorClient) : Prop := contiguous (db (world c)) ∧ Forall is_append (pending (world c)).
(** The log now, and the log that the others' requests end in. *)
Definition log_now (s : string) (c : CoordinatorClient) : list Envelope := log s (db (world c)).
Definition log_end (s : string) (c : CoordinatorClient) : list Envelope := log s (foldl step (db (world c)) (pending (world c))).
(** [c'] has only waited since [c]. *)
Definition waited (c c' : CoordinatorClient) : Prop :=
  (∃ ops, advanced (world c) (world c') ops) ∧ (length (schedule (world c')) <= length (schedule (world c)))%nat.

Lemma waited_spec s c c' : calm c → waited c c' →
  calm c' ∧ log_end s c' = log_end s c ∧ log_now s c `prefix_of` log_now s c' ∧ log_now s c' `prefix_of` log_end s c.
Proof.
  intros [Hc Ha] [[ops Ho] _]. destruct (advanced_appends _ _ _ Ho Ha) as [Ho1 Ho2]. pose proof (advanced_contiguous _ _ _ Ho Hc) as Hc'.
  unfold log_now, log_end. split; [done|]. split.
  { destruct Ho as [Hd Hp]. by rewrite Hp, foldl_app, <- Hd. }
  split; destruct Ho as [Hd Hp].
  - rewrite Hd. destruct (run_log s ops (db (world c)) Hc Ho1) as [es ->]. by exists es.
  - rewrite Hp, foldl_app, <- Hd. destruct (run_log s (pending (world c')) (db (world c')) Hc' Ho2) as [es ->]. by exists es.
Qed.
Lemma waited_trans c1 c2 c3 : waited c1 c2 → waited c2 c3 → waited c1 c3.
Proof.
  intros [[o1 H1] L1] [[o2 H2] L2]. split; [|lia]. exists (o1 ++ o2). by eapply advanced_trans.
Qed.
Lemma http_get_schedule s k w : (length (schedule (http_get s k w).1) <= length (schedule w))%nat.
Proof.
  unfold http_get. pose proof (pass_length w). destruct (since s (Some k) (db (pass w))); [|cbn; lia].
  destruct (schedule (pass w)) as [|[ops t] rest] eqn:E; [cbn; rewrite E; cbn; lia|].
  destruct (longpoll s k ops (db (pass w))) as [[db' [|op ops']] found]; cbn in *; lia.
Qed.
Lemma collect_loop_schedule {E} (inj : ClientError → E) s predicate total rounds k seen c :
  (length (schedule (world (collect_loop inj rounds total s predicate k seen c).1)) <= length (schedule (world c)))%nat.
Proof.
  revert k seen c. induction rounds as [|rounds IH]; intros k seen c; [done|]. rewrite collect_loop_S.
  pose proof (http_get_schedule s k (world c)) as Hl. destruct (http_get s k (world c)) as [w batch]. cbn [fst] in Hl.
  cbn zeta. destruct (predicate _) as [[]|]; [done| |done]. etrans; [apply IH|done].
Qed.
(** Collecting from the start: what is returned is the log at that moment. *)
Lemma collect_all {E} (inj : ClientError → E) s predicate maxRounds c c' all : calm c →
  collectUntil inj s predicate maxRounds None c = (c', Ok all) →
  waited c c' ∧ all = log_now s c' ∧ predicate all = Ok true.
Proof.
  intros [Hc Ha] Hr. pose proof (collect_loop_log inj s predicate (default 40%nat maxRounds) (default 40%nat maxRounds) 0 [] c c' all Hc Ha
    ltac:(done) ltac:(cbn; lia) Hr) as (Hadv & Hall & Hp).
  split; [split; [done|]|split; [|done]]; [|by rewrite Hall, drop_0].
  pose proof (collect_loop_schedule inj s predicate (default 40%nat maxRounds) (default 40%nat maxRounds) (-1) ∅ c) as Hl.
  change (collect_loop _ _ _ _ _ _ _ c) with (collectUntil inj s predicate maxRounds None c) in Hl. by rewrite Hr in Hl.
Qed.
Lemma collect_all_ends {E} (inj : ClientError → E) s predicate maxRounds c : calm c →
  (∀ l, l `prefix_of` log_end s c → ∃ b, predicate l = Ok b) → predicate (log_end s c) = Ok true →
  (length (schedule (world c)) < default 40 maxRounds)%nat →
  ∃ c', collectUntil inj s predicate maxRounds None c = (c', Ok (log_now s c')) ∧ waited c c' ∧ predicate (log_now s c') = Ok true.
Proof.
  intros Hcalm Hp Hf Hr. destruct Hcalm as [Hc Ha]. destruct (collect_loop_ends inj s predicate (default 40%nat maxRounds) (default 40%nat maxRounds) 0 [] c Hc Ha
    ltac:(done) ltac:(cbn; lia)) as [all Hall]; [by rewrite drop_0..|done|].
  destruct (collectUntil inj s predicate maxRounds None c) as [c' r] eqn:E'.
  assert (r = Ok all) as -> by exact (eq_trans (f_equal snd (eq_sym E')) Hall).
  destruct (collect_all inj s predicate maxRounds c c' all (conj Hc Ha) E') as (Hw & -> & Hpr). by exists c'.
Qed.
(** One look at the log. *)
Lemma collect_one {E} (inj : ClientError → E) s predicate c : calm c → (∀ l, ∃ b, predicate l = Ok b) →
  (∀ l k, predicate l = Ok true → predicate (l ++ k) = Ok true) → predicate (log_now s c) = Ok true →
  ∃ c', collectUntil inj s predicate (Some 1%nat) None c = (c', Ok (log_now s c')) ∧ waited c c'.
Proof.
  intros Hcalm Htot Hmono Hp. pose proof Hcalm as [Hc Ha]. unfold collectUntil. change (default 40%nat (Some 1%nat)) with 1%nat.
  change (default (-1) None) with (-1). rewrite collect_loop_S.
  pose proof (collect_round s predicate 0 [] c Hc Ha ltac:(done) ltac:(cbn; lia)) as Hr.
  pose proof (http_get_schedule s (-1) (world c)) as Hsch. cbn zeta in Hr.
  change (Z.of_nat (0 + length (@nil Envelope)) - 1) with (-1) in Hr. destruct (http_get s (-1) (world c)) as [w batch]. destruct Hr as (Hb & _ & Hadv & _ & _ & Hnum & _).
  rewrite drop_0 in Hb. cbn [app] in Hb, Hnum. subst batch. rewrite (see_spec 0) by done.
  assert (Hw : waited c (mkClient (nextSeqGuess c) w)) by (split; [exact Hadv|exact Hsch]).
  destruct (waited_spec s c _ Hcalm Hw) as (_ & _ & [k Hk] & _). cbn zeta.
  assert (Hpw : predicate (log s (db w)) = Ok true).
  { change (log s (db w)) with (log_now s (mkClient (nextSeqGuess c) w)). rewrite Hk. by apply Hmono. }
  rewrite Hpw. by exists (mkClient (nextSeqGuess c) w).
Qed.
(** Appending keeps the others' messages. *)
Lemma appendNext_calm s kind ct n c c' r : calm c → appendNext s kind ct n c = (c', r) →
  calm c' ∧ ∃ es, log_now s c' = log_now s c ++ es ++
    match r with Ok e => [mkEnvelope s (seq e) kind ct] | Err _ => [] end.
Proof.
  intros [Hc Ha] Hr. apply append_loop_written in Hr as (ops & Hp & Hr); [|done]. cbn zeta in Hr.
  rewrite Hp in Ha. apply Forall_app in Ha as [Ho Ha']. unfold calm, log_now.
  destruct (run_log s ops (db (world c)) Hc Ho) as [es Hes].
  assert (Hc1 : contiguous (foldl step (db (world c)) ops)) by by apply run_contiguous.
  destruct r as [e|err].
  - destruct Hr as (-> & t & Hdb). set (m := Z.of_nat (length (log s (foldl step (db (world c)) ops)))) in *.
    assert (Hc' : contiguous (db (world c'))).
    { rewrite Hdb. pose proof (step_contiguous _ (Append t (mkEnvelope s m kind ct)) Hc1) as Hst. cbn [step] in Hst.
      rewrite append_spec in Hst by done. cbn [seq session_id] in Hst. by rewrite decide_True in Hst by (unfold m; by rewrite log_length). }
    split; [done|]. rewrite Hdb, log_app, Hes, log_row, decide_True by done. exists es. by rewrite <- app_assoc.
  - rewrite Hr. split; [done|]. exists es. by rewrite app_nil_r.
Qed.
End ClientSpec.

(** ** Witness: two members append at the same time *)
Module ClientWitness.
Import Server Client ClientSpec.
Definition sid : string := "00000000000000000000000000000000000000000000000000000000000000aB".
Definition msg (n : Z) (ct : string) : Envelope := mkEnvelope sid n "nonce" ct.
(** The other member takes number 0 first, and number 2 later. *)
Definition toy_client : CoordinatorClient :=
  mkClient ∅ (mkWorld [] 0 [([Append 10 (msg 0 "AAAA")], 11); ([], 20); ([], 30); ([Append 40 (msg 2 "CCCC")], 41)]).
Lemma toy_contiguous : contiguous (db (world toy_client)).
Proof. intros s. done. Qed.
Lemma appendNext_once_witness : ∃ c', appendNext sid "nonce" "BBB=" 20 toy_client = (c', Ok (msg 1 "BBB=")) ∧
  log sid (db (world c')) = [msg 0 "AAAA"; msg 1 "BBB="].
Proof.
  pose proof (appendNext_once sid "nonce" "BBB=" 20 toy_client toy_contiguous) as Ht.
  assert (E : (appendNext sid "nonce" "BBB=" 20 toy_client).2 = Ok (msg 1 "BBB=")) by (vm_compute; reflexivity).
  assert (El : log sid (db (world (appendNext sid "nonce" "BBB=" 20 toy_client).1)) = [msg 0 "AAAA"; msg 1 "BBB="]) by (vm_compute; reflexivity).
  destruct (appendNext sid "nonce" "BBB=" 20 toy_client) as [c' r]. cbn in E, El. subst r. exists c'. split; [reflexivity|].
  destruct Ht as (_ & Hok & _). destruct Hok as [e He].
  - vm_compute. reflexivity.
  - intros m [Hm0 Hm]. change (m <= 2) in Hm. unfold fits.
    assert (m = 0 ∨ m = 1 ∨ m = 2) as [->|[->| ->]] by lia; vm_compute; discriminate.
  - vm_compute. discriminate.
  - lia.
  - vm_compute. lia.
  - injection He as <-. exact El.
Defined.
Definition two (l : list Envelope) : result ClientError bool := Ok (2 <=? length l)%nat.
Definition toy_reader : CoordinatorClient :=
  mkClient ∅ (mkWorld [mkRow (msg 0 "AAAA") 1] 5 [([], 6); ([Append 7 (msg 1 "BBBB"); Append 8 (msg 2 "CCCC")], 9)]).
Lemma collectUntil_log_witness : (collectUntil (λ e, e) sid two None None toy_reader).2 = Ok [msg 0 "AAAA"; msg 1 "BBBB"; msg 2 "CCCC"].
Proof.
  assert (Hc : contiguous (db (world toy_reader))).
  { apply (run_contiguous [Append 1 (msg 0 "AAAA")] []). intros s. done. }
  destruct (collectUntil_log (λ e, e) sid two None None toy_reader Hc) as [Hlog Hend].
  - vm_compute. repeat constructor.
  - cbn. lia.
  - vm_compute. discriminate.
  - destruct Hend as [all Hall]; [intros l; eexists; reflexivity|vm_compute; reflexivity|cbn; lia|].
    destruct (collectUntil (λ e, e) sid two None None toy_reader) as [c' r] eqn:Er. cbn in Hall |- *. subst r.
    destruct (Hlog c' all eq_refl) as (_ & -> & _).
    assert (E : (collectUntil (λ e, e) sid two None None toy_reader).1 = c') by (by rewrite Er). rewrite <- E. vm_compute. reflexivity.
Defined.
End ClientWitness.
