(* ===== verification/Text.v ===== *)
(** * Text of the language: JSON values, numbers and base64

    A parsed JSON text is a value of [Json], whose fields are read as
    JavaScript reads them; [BigInt] and [toString] are written out; the
    serialisers of the runtime ([JSON], [TextEncoder], [Buffer]) are the class
    [Text], with their round trips as laws. *)
From stdpp Require Import pretty.
From S2P Require Import Prelude Bytes Coordinator Client Prover.
Local Open Scope Z_scope.

(** ** JSON *)
Inductive Json :=
  | JNull | JBool (b : bool) | JNum (n : Z) | JStr (s : string) | JArr (l : list Json) | JObj (fields : list (string * Json)).
Inductive TextError := Type_error | Syntax_error.
Notation T := (result TextError).

(** The last of equal keys, as in an object literal. *)
Definition lookup_field (k : string) (fields : list (string * Json)) : option Json :=
  snd <$> last (filter (λ f, f.1 = k) fields).
(** [v.k] of a possibly missing value; the values other than objects have none
    of the fields that are read here. *)
Definition prop (k : string) (v : option Json) : T (option Json) :=
  match v with
  | None | Some JNull => Err Type_error
  | Some (JObj fields) => Ok (lookup_field k fields)
  | Some _ => Ok None
  end.
(** [v === s] for a text [s]. *)
Definition is_text (v : option Json) (s : string) : bool := match v with Some (JStr s') => bool_decide (s' = s) | _ => false end.
(** Equality of the keys of a [Map]: objects are equal to themselves only, and
    every parse makes a new one. *)
Definition same_key (a b : option Json) : bool :=
  match a, b with
  | None, None => true
  | Some JNull, Some JNull => true
  | Some (JBool x), Some (JBool y) => Bool.eqb x y
  | Some (JNum x), Some (JNum y) => x =? y
  | Some (JStr x), Some (JStr y) => bool_decide (x = y)
  | _, _ => false
  end.

(** [String(v)]. *)
Fixpoint join_comma (l : list string) : string :=
  match l with [] => "" | [s] => s | s :: l => s +:+ "," +:+ join_comma l end.
Fixpoint String_of (v : Json) : string :=
  match v with
  | JNull => "null"
  | JBool b => if b then "true" else "false"
  | JNum n => pretty n
  | JStr s => s
  | JArr l => join_comma ((λ v, match v with JNull => "" | v => String_of v end) <$> l)
  | JObj _ => "[object Object]"
  end.
Definition text_of (v : option Json) : string := match v with None => "undefined" | Some v => String_of v end.

(** ** [BigInt] *)
Fixpoint digits (radix acc : Z) (l : list ascii) : option Z :=
  match l with
  | [] => Some acc
  | c :: l => d ← hex_value c; if d <? radix then digits radix (radix * acc + d) l else None
  end.
(** One digit at least. *)
Definition number (radix : Z) (l : list ascii) : option Z := match l with [] => None | _ => digits radix 0 l end.
Definition is_white (c : ascii) : bool := let n := nat_of_ascii c in ((9 <=? n) && (n <=? 13) || (n =? 32) || (n =? 160))%nat.
Fixpoint drop_white (l : list ascii) : list ascii :=
  match l with c :: l' => if is_white c then drop_white l' else l | [] => [] end.
Definition trim (l : list ascii) : list ascii := reverse (drop_white (reverse (drop_white l))).
Definition literal (l : list ascii) : option Z :=
  match l with
  | [] => Some 0
  | "0"%char :: ("x" | "X")%char :: l => number 16 l
  | "0"%char :: ("o" | "O")%char :: l => number 8 l
  | "0"%char :: ("b" | "B")%char :: l => number 2 l
  | "-"%char :: l => Z.opp <$> number 10 l
  | "+"%char :: l => number 10 l
  | l => number 10 l
  end.
Definition parse_bigint (s : string) : T Z :=
  match literal (trim (String.list_ascii_of_string s)) with Some n => Ok n | None => Err Syntax_error end.
Definition BigInt (v : option Json) : T Z :=
  match v with
  | None | Some JNull => Err Type_error
  | Some (JBool b) => Ok (if b then 1 else 0)
  | Some (JNum n) => Ok n
  | Some v => parse_bigint (String_of v)
  end.

(** *** A printed number is read back *)
Lemma length_pretty_go x s : String.length (pretty_N_go x s) = (String.length (pretty_N_go x "") + String.length s)%nat.
Proof.
  revert s. induction (N.lt_wf_0 x) as [x _ IH]; intros s. destruct (decide (x = 0)%N) as [->|Hx]; [by rewrite !pretty_N_go_0|].
  rewrite !(pretty_N_go_step x) by lia. assert (Hlt : (x / 10 < x)%N) by (apply N.div_lt; lia).
  rewrite (IH _ Hlt (String _ s)), (IH _ Hlt (String _ "")). cbn. lia.
Qed.
Lemma hex_value_pretty d : (d < 10)%N → hex_value (pretty_N_char d) = Some (Z.of_N d).
Proof.
  intros Hd. assert (d = 0 ∨ d = 1 ∨ d = 2 ∨ d = 3 ∨ d = 4 ∨ d = 5 ∨ d = 6 ∨ d = 7 ∨ d = 8 ∨ d = 9)%N as Hin by lia.
  by repeat destruct Hin as [->|Hin]; [..|subst d].
Qed.
Lemma digits_pretty x s acc : digits 10 acc (String.list_ascii_of_string (pretty_N_go x s)) =
  digits 10 (acc * 10 ^ Z.of_nat (String.length (pretty_N_go x "")) + Z.of_N x) (String.list_ascii_of_string s).
Proof.
  revert s acc. induction (N.lt_wf_0 x) as [x _ IH]; intros s acc. destruct (decide (x = 0)%N) as [->|Hx].
  { rewrite !pretty_N_go_0. f_equal. cbn. lia. }
  rewrite !(pretty_N_go_step x) by lia. assert (Hlt : (x / 10 < x)%N) by (apply N.div_lt; lia).
  rewrite IH, (length_pretty_go _ (String _ "")) by done. cbn [String.length String.list_ascii_of_string digits].
  assert (Hm : (x mod 10 < 10)%N) by (apply N.mod_lt; lia). rewrite hex_value_pretty by done. cbn [mbind option_bind].
  assert (Hz : Z.of_N (x mod 10) < 10) by (clear -Hm; revert Hm; generalize (x mod 10)%N; lia).
  rewrite (proj2 (Z.ltb_lt _ _) Hz). f_equal. rewrite Nat2Z.inj_add, Z.pow_add_r by lia. change (10 ^ Z.of_nat 1) with 10.
  assert (Hx10 : Z.of_N x = 10 * Z.of_N (x / 10) + Z.of_N (x mod 10)).
  { rewrite N2Z.inj_div, N2Z.inj_mod. apply Z.div_mod. lia. }
  revert Hx10. generalize (Z.of_N (x / 10)), (Z.of_N (x mod 10)), (10 ^ Z.of_nat (String.length (pretty_N_go (x / 10) ""))).
  intros a b c ->. ring.
Qed.
Definition is_digit (c : ascii) : bool := let n := nat_of_ascii c in ((48 <=? n) && (n <=? 57))%nat.
Lemma pretty_N_char_digit d : is_digit (pretty_N_char d) = true.
Proof. unfold pretty_N_char. repeat case_match; done. Qed.
Lemma pretty_go_digits x s : forallb is_digit (String.list_ascii_of_string s) = true →
  forallb is_digit (String.list_ascii_of_string (pretty_N_go x s)) = true.
Proof.
  revert s. induction (N.lt_wf_0 x) as [x _ IH]; intros s Hs. destruct (decide (x = 0)%N) as [->|Hx]; [by rewrite pretty_N_go_0|].
  rewrite pretty_N_go_step by lia. apply IH; [apply N.div_lt; lia|]. cbn. by rewrite pretty_N_char_digit, Hs.
Qed.
Lemma pretty_nonneg n : 0 <= n → pretty n = pretty (Z.to_N n).
Proof. by destruct n. Qed.
Lemma pretty_digits n : 0 <= n → forallb is_digit (String.list_ascii_of_string (pretty n)) = true ∧
  String.list_ascii_of_string (pretty n) ≠ [] ∧ digits 10 0 (String.list_ascii_of_string (pretty n)) = Some n.
Proof.
  intros Hn. rewrite pretty_nonneg by done. unfold pretty, pretty_N. case_decide as E.
  - assert (n = 0) as -> by lia. done.
  - split; [by apply pretty_go_digits|]. split.
    + rewrite pretty_N_go_step by lia. intros H. apply (f_equal length) in H. change (length []) with 0%nat in H.
      assert (Hl : ∀ s, length (String.list_ascii_of_string s) = String.length s) by (induction s as [|c s IH]; cbn; lia).
      rewrite Hl, length_pretty_go in H. cbn [String.length] in H. lia.
    + rewrite digits_pretty. cbn [String.list_ascii_of_string digits]. f_equal. lia.
Qed.
Lemma digit_not_white c : is_digit c = true → is_white c = false.
Proof.
  unfold is_digit, is_white. intros [H1%Nat.leb_le H2%Nat.leb_le]%andb_true_iff.
  rewrite (proj2 (Nat.leb_gt _ 13)), (proj2 (Nat.eqb_neq _ 32)), (proj2 (Nat.eqb_neq _ 160)), andb_false_r by lia. done.
Qed.
Lemma trim_none l : forallb (λ c, negb (is_white c)) l = true → trim l = l.
Proof.
  intros Hl. assert (Hd : ∀ l, forallb (λ c, negb (is_white c)) l = true → drop_white l = l).
  { intros [|c k]; [done|]. cbn. intros [Hc _]%andb_true_iff. destruct (is_white c); done. }
  unfold trim. rewrite (Hd l Hl), Hd; [apply reverse_involutive|]. rewrite forallb_forall in *. intros c Hc.
  apply Hl. apply list_elem_of_In. apply list_elem_of_In in Hc. by apply elem_of_reverse.
Qed.
Lemma literal_digits c l : is_digit c = true → forallb is_digit l = true → literal (c :: l) = digits 10 0 (c :: l).
Proof.
  intros Hc Hl. destruct c as [[] [] [] [] [] [] [] []]; try discriminate Hc; try reflexivity.
  destruct l as [|c l]; [reflexivity|]. cbn in Hl. apply andb_true_iff in Hl as [Hc' _].
  destruct c as [[] [] [] [] [] [] [] []]; try discriminate Hc'; reflexivity.
Qed.
Lemma parse_pretty n : 0 <= n → parse_bigint (pretty n) = Ok n.
Proof.
  intros Hn. destruct (pretty_digits n Hn) as (Hd & Hne & Hv). unfold parse_bigint. rewrite trim_none.
  - destruct (String.list_ascii_of_string (pretty n)) as [|c l]; [done|]. cbn in Hd. apply andb_true_iff in Hd as [Hc Hl].
    rewrite literal_digits by done. by rewrite Hv.
  - rewrite forallb_forall in *. intros c Hc. by rewrite (digit_not_white c (Hd c Hc)).
Qed.
(** A number written in hex after [0x]. *)
Lemma digits_hex s acc : digits 16 acc (String.list_ascii_of_string s) = parse_hex acc s.
Proof.
  revert acc. induction s as [|c s IH]; intros acc; [done|]. cbn. destruct (hex_value c) as [d|] eqn:Hc; [|done]. cbn.
  assert (Hd : d < 16) by by destruct (hex_value_bound c d Hc). rewrite (proj2 (Z.ltb_lt _ _) Hd), IH. done.
Qed.
Lemma parse_bigint_hex s n : s ≠ "" → parse_hex 0 s = Some n → parse_bigint ("0x" +:+ s) = Ok n.
Proof.
  intros Hs Hp. unfold parse_bigint.
  assert (Hw : ∀ s acc, is_Some (parse_hex acc s) → forallb (λ c, negb (is_white c)) (String.list_ascii_of_string s) = true).
  { clear. induction s as [|c s IH]; intros acc; [done|]. cbn. destruct (hex_value c) as [d|] eqn:Hc; [|by intros []]. cbn.
    intros H. rewrite (IH _ H), andb_true_r. destruct c as [[] [] [] [] [] [] [] []]; first [discriminate Hc|reflexivity]. }
  change (String.list_ascii_of_string ("0x" +:+ s)) with ("0"%char :: "x"%char :: String.list_ascii_of_string s).
  rewrite trim_none by (cbn; eapply Hw; eauto). cbn [literal]. unfold number. rewrite digits_hex, Hp.
  destruct s; [done|reflexivity].
Qed.
Lemma toString16_ne n : toString16 n ≠ "".
Proof.
  unfold toString16. cbn [hex_loop]. destruct (n <? 16); [done|]. assert (Hg : ∀ fuel v c s, hex_loop fuel v (String c s) ≠ "").
  { induction fuel as [|fuel IH]; intros v c s; cbn; [done|]. destruct (v <? 16); [done|apply IH]. }
  apply Hg.
Qed.
Lemma BigInt_pretty n : 0 <= n → BigInt (Some (JStr (pretty n))) = Ok n.
Proof. apply parse_pretty. Qed.
Lemma BigInt_hex n : 0 <= n → BigInt (Some (JStr ("0x" +:+ toString16 n))) = Ok n.
Proof. intros Hn. apply parse_bigint_hex; [apply toString16_ne|by apply parse_hex_toString16]. Qed.
(** Numbers written in decimal stay distinct. *)
Lemma pretty_inj a b : 0 <= a → 0 <= b → pretty a = pretty b → a = b.
Proof. intros Ha Hb E. apply (f_equal parse_bigint) in E. rewrite !parse_pretty in E by done. by injection E. Qed.
Lemma NoDup_pretty {A} (f : A → Z) l : Forall (λ x, 0 <= f x) l → NoDup (f <$> l) → NoDup ((λ x, pretty (f x)) <$> l).
Proof.
  intros Hl Hd. change (λ x, pretty (f x)) with (pretty ∘ f). rewrite list_fmap_compose. apply NoDup_fmap_2_strong; [|done].
  assert (Hf : Forall (λ z, 0 <= z) (f <$> l)) by by apply Forall_fmap. rewrite Forall_forall in Hf.
  intros x y Hx Hy. by apply pretty_inj; apply Hf.
Qed.

(** ** The serialisers of the runtime *)
Class Text := {
  stringify : Json → string;                 (* [JSON.stringify] *)
  parse : string → T Json;                   (* [JSON.parse] *)
  utf8 : string → list Z;                    (* [new TextEncoder().encode] *)
  of_utf8 : list Z → string;                 (* [new TextDecoder().decode] *)
  to_base64 : list Z → string;               (* [Buffer.from(bytes).toString("base64")] *)
  of_base64 : string → list Z;               (* [Buffer.from(s, "base64")] *)
}.
(** Keys in the order in which an object lists them: either none is a number,
    or all are, and increase. *)
Definition listed (keys : list string) : Prop :=
  Forall (λ k, forallb is_digit (String.list_ascii_of_string k) = false) keys ∨
  ∃ l : list nat, StronglySorted lt l ∧ keys = (λ n, pretty (Z.of_nat n)) <$> l.
(** Values that are written and read back without change. *)
Inductive plain : Json → Prop :=
  | plain_null : plain JNull
  | plain_bool b : plain (JBool b)
  | plain_num n : - 2 ^ 53 < n < 2 ^ 53 → plain (JNum n)
  | plain_str s : plain (JStr s)
  | plain_arr l : (∀ v, v ∈ l → plain v) → plain (JArr l)
  | plain_obj fields : NoDup fields.*1 → listed fields.*1 → (∀ v, v ∈ fields.*2 → plain v) → plain (JObj fields).
Class TextLaws `{Text} : Prop := {
  parse_stringify v : plain v → parse (stringify v) = Ok v;
  utf8_bytes s : Forall is_byte (utf8 s);
  of_utf8_utf8 s : of_utf8 (utf8 s) = s;
  of_to_base64 l : Forall is_byte l → of_base64 (to_base64 l) = l;
  base64_form l : Forall is_byte l → (String.length (to_base64 l) mod 4)%nat = 0%nat ∧ Server.BASE64 (to_base64 l) = true;
}.

(** *** They exist: a value is written as the bits of its code *)
Module ToyText.
Import Prover.Base64.
Fixpoint tree_of (v : Json) : gen_tree (bool + Z + string + unit) :=
  match v with
  | JNull => GenLeaf (inr ())
  | JBool b => GenLeaf (inl (inl (inl b)))
  | JNum n => GenLeaf (inl (inl (inr n)))
  | JStr s => GenLeaf (inl (inr s))
  | JArr l => GenNode 0 (tree_of <$> l)
  | JObj fields => GenNode 1 ((λ f, GenNode 2 [GenLeaf (inl (inr f.1)); tree_of f.2]) <$> fields)
  end.
Fixpoint of_tree (t : gen_tree (bool + Z + string + unit)) : Json :=
  match t with
  | GenLeaf (inr ()) => JNull
  | GenLeaf (inl (inl (inl b))) => JBool b
  | GenLeaf (inl (inl (inr n))) => JNum n
  | GenLeaf (inl (inr s)) => JStr s
  | GenNode 0 l => JArr (of_tree <$> l)
  | GenNode _ l => JObj ((λ t, match t with GenNode _ [GenLeaf (inl (inr k)); t] => (k, of_tree t) | _ => ("", JNull) end) <$> l)
  end.
Lemma of_tree_of v : of_tree (tree_of v) = v.
Proof.
  revert v. fix IH 1. intros [| | | |l|fields]; [done..| |]; cbn [tree_of of_tree].
  - f_equal. induction l as [|v l IHl]; [done|]. rewrite !fmap_cons. f_equal; [apply IH|exact IHl].
  - f_equal. induction fields as [|[k v] fields IHl]; [done|]. rewrite !fmap_cons. f_equal; [|exact IHl].
    cbn [fst snd]. f_equal. apply IH.
Qed.
Fixpoint bits (p : positive) : string :=
  match p with xH => "" | xO p => String "0" (bits p) | xI p => String "1" (bits p) end.
Fixpoint of_bits (s : string) : positive :=
  match s with EmptyString => xH | String c s => if Ascii.eqb c "0" then xO (of_bits s) else xI (of_bits s) end.
Lemma of_bits_bits p : of_bits (bits p) = p.
Proof. induction p as [p IH|p IH|]; cbn; by rewrite ?IH. Qed.
#[export] Instance toy_text : Text := {
  stringify v := bits (encode (tree_of v));
  parse s := match decode (of_bits s) with Some t => Ok (of_tree t) | None => Err Syntax_error end;
  utf8 s := (λ c, Z.of_nat (nat_of_ascii c)) <$> String.list_ascii_of_string s;
  of_utf8 l := String.string_of_list_ascii ((λ b, ascii_of_nat (Z.to_nat b)) <$> l);
  to_base64 := toBase64;
  of_base64 := fromBase64;
}.
Lemma sextet_base64 v : is_sextet v → Server.is_base64 (chr v) = true.
Proof.
  intros Hv. assert (Hall : forallb (λ v, Server.is_base64 (chr v)) (seqZ 0 64) = true) by (vm_compute; reflexivity).
  rewrite forallb_forall in Hall. apply Hall, list_elem_of_In, elem_of_seqZ. unfold is_sextet in Hv. lia.
Qed.
Lemma body_form l : Forall is_byte l →
  Forall (λ c, Server.is_base64 c = true) (body l) ∧ ((length (body l) + pads l) mod 4)%nat = 0%nat ∧ (pads l <= 2)%nat.
Proof.
  induction l as [|b0|b0 b1|b0 b1 b2 l IH] using groups_ind; rewrite ?Forall_cons; [by repeat constructor| | |].
  - intros [H0 _]. destruct (sextets b0 0 0 H0 ltac:(done) ltac:(done)) as (S0 & S1 & _).
    cbn [body pads length]. split; [|split; [done|lia]]. repeat constructor; by apply sextet_base64.
  - intros (H0 & H1 & _). destruct (sextets b0 b1 0 H0 H1 ltac:(done)) as (S0 & S1 & S2 & _).
    cbn [body pads length]. split; [|split; [done|lia]]. repeat constructor; by apply sextet_base64.
  - intros (H0 & H1 & H2 & Hl). destruct (sextets b0 b1 b2 H0 H1 H2) as (S0 & S1 & S2 & S3).
    destruct (IH Hl) as (Hb & Hm & Hp). cbn [body pads length]. split; [|split; [|done]].
    + repeat (constructor; [by apply sextet_base64|]). done.
    + replace (S (S (S (S (length (body l))))) + pads l)%nat with (length (body l) + pads l + 1 * 4)%nat by lia.
      by rewrite Nat.Div0.mod_add.
Qed.
Lemma server_pads n l : Forall (λ c, Ascii.eqb c "=" = false) l → Server.pads (replicate n "="%char ++ l) = n.
Proof. intros Hl. induction n as [|n IH]; [by destruct Hl as [|c l Hc]; cbn; rewrite ?Hc|cbn; by rewrite IH]. Qed.
#[export] Instance toy_text_laws : TextLaws.
Proof.
  split.
  - intros v _. unfold parse, stringify, toy_text. by rewrite of_bits_bits, decode_encode, of_tree_of.
  - intros s. unfold utf8, toy_text. apply Forall_fmap, Forall_true. intros c. unfold is_byte. cbn. pose proof (nat_ascii_bounded c). lia.
  - intros s. unfold of_utf8, utf8, toy_text. rewrite <- list_fmap_compose. etrans; [|apply String.string_of_list_ascii_of_string].
    f_equal. etrans; [|apply list_fmap_id]. apply list_fmap_ext. intros k c _. cbn. rewrite Nat2Z.id. apply ascii_nat_embedding.
  - apply fromBase64_toBase64.
  - intros l Hl. destruct (body_form l Hl) as (Hb & Hm & Hp). pose proof (toBase64_chars l Hl) as Hc. cbn [to_base64 toy_text]. split.
    + assert (E : ∀ s, String.length s = length (String.list_ascii_of_string s)) by (induction s as [|c s IH]; cbn; [done|by rewrite IH]).
      by rewrite E, Hc, length_app, length_replicate.
    + unfold Server.BASE64. rewrite Hc, reverse_app, reverse_replicate, server_pads by (apply Forall_reverse, body_no_pad; done).
      rewrite (proj2 (Nat.leb_le _ _) Hp), drop_app_length' by (by rewrite length_replicate). cbn [andb]. apply forallb_forall.
      intros c Hin. apply list_elem_of_In in Hin. rewrite elem_of_reverse in Hin. rewrite Forall_forall in Hb. by apply Hb.
Qed.
End ToyText.
