(* ===== verification/Session.v ===== *)
(** * A signing session ([packages/cli/src/crypto/sessionSeal.ts],
    [packages/cli/src/proposal])

    [Seal] is the sealing of envelopes under the session key, [Proposal] the
    proposal state machine over the coordinator: [propose], [sign] by each
    signer, and [execute], whose aggregation the theorems are about.  The
    runtime ([Text]) and the cipher ([Aead]) are classes. *)
From stdpp Require Import pretty.
From S2P Require Import Prelude Bytes Zq Tss Dkg Frost Coordinator Client Text.
Import Coordinator.Coordinator.
Local Open Scope Z_scope.

(** ** [sessionSeal.ts] *)
Class Aead := {
  encrypt : list Z → list Z → list Z → option (list Z);   (* [xchacha20poly1305(key, nonce).encrypt]; [None] when it throws *)
  decrypt : list Z → list Z → list Z → option (list Z);
  hkdf : list Z → list Z → nat → list Z;                  (* [hkdf(sha256, ikm, undefined, info, length)] *)
}.
Class AeadLaws `{Aead} : Prop := {
  sealed key nonce plaintext : length key = 32%nat → length nonce = 24%nat → Forall is_byte plaintext →
    ∃ c, encrypt key nonce plaintext = Some c ∧ Forall is_byte c ∧ decrypt key nonce c = Some plaintext;
  hkdf_length ikm info n : length (hkdf ikm info n) = n;
}.

Module Seal.
Section Seal.
Context `{Text, Aead}.
Inductive SealError := Sealing | Malformed (e : TextError).
Definition NONCE_LEN : nat := 24.
Definition SESSION_KEY_INFO_PREFIX : string := "kakure.coordinator.session.v1".
Definition deriveSessionKey (gvs : list Z) (sessionId : string) : list Z :=
  hkdf gvs (utf8 (SESSION_KEY_INFO_PREFIX +:+ "|" +:+ sessionId)) 32.
Definition gvsDecimalToBytes (gvsDecimal : string) : result TextError (list Z) :=
  n ← parse_bigint gvsDecimal; Ok (bytes_of_hex (padStart0 64 (toString16 n))).
Definition deriveSessionKeyFromGvsDecimal (gvsDecimal sessionId : string) : result TextError (list Z) :=
  gvs ← gvsDecimalToBytes gvsDecimal; Ok (deriveSessionKey gvs sessionId).

(** [nonce] is what [randomBytes] returns. *)
Definition sealSession (nonce sessionKey plaintext : list Z) : result SealError (list Z) :=
  match encrypt sessionKey nonce plaintext with None => Err Sealing | Some sealed => Ok (nonce ++ sealed) end.
Definition openSession (sessionKey sealed : list Z) : result SealError (list Z) :=
  let nonce := take NONCE_LEN sealed in
  let ciphertext := drop NONCE_LEN sealed in
  match decrypt sessionKey nonce ciphertext with None => Err Sealing | Some plaintext => Ok plaintext end.
Definition sealSessionJson (nonce sessionKey : list Z) (value : Json) : result SealError string :=
  bytes ← sealSession nonce sessionKey (utf8 (stringify value)); Ok (to_base64 bytes).
Definition openSessionJson (sessionKey : list Z) (ciphertextB64 : string) : result SealError Json :=
  plaintext ← openSession sessionKey (of_base64 ciphertextB64); map_err Malformed (parse (of_utf8 plaintext)).

Context {TL : TextLaws} {AL : AeadLaws}.
Lemma open_seal nonce key v : length nonce = 24%nat → Forall is_byte nonce → length key = 32%nat → plain v →
  ∃ ct, sealSessionJson nonce key v = Ok ct ∧ openSessionJson key ct = Ok v ∧
    (String.length ct mod 4)%nat = 0%nat ∧ Server.BASE64 ct = true.
Proof.
  intros Hn Hnb Hk Hv. destruct (sealed key nonce (utf8 (stringify v)) Hk Hn (utf8_bytes _)) as (c & Hc & Hcb & Hd).
  unfold sealSessionJson, sealSession. rewrite Hc. cbn [mbind result_bind]. eexists. split; [done|].
  assert (Hb : Forall is_byte (nonce ++ c)) by (by apply Forall_app). split; [|by apply base64_form].
  unfold openSessionJson, openSession. rewrite of_to_base64 by done.
  rewrite take_app_length', drop_app_length' by done. rewrite Hd. cbn [mbind result_bind].
  rewrite of_utf8_utf8, parse_stringify by done. done.
Qed.
(** The session key does not depend on the textual form of the view secret. *)
Lemma gvs_bytes n : 0 <= n < 2 ^ 256 → gvsDecimalToBytes (pretty n) = Ok (be_bytes 32 n).
Proof.
  intros Hn. unfold gvsDecimalToBytes. rewrite parse_pretty by lia. cbn [mbind result_bind]. f_equal.
  set (s := padStart0 64 (toString16 n)). assert (Hp : parse_hex 0 s = Some n) by (unfold s; by rewrite parse_hex_padStart0, parse_hex_toString16 by lia).
  assert (Hl : String.length s = (2 * 32)%nat).
  { unfold s. rewrite length_padStart0. pose proof (length_hex_loop (S (Z.to_nat (Z.log2 n))) n "" 63 ltac:(change (16 ^ Z.of_nat 64) with (2 ^ 256); lia)) as H'.
    unfold toString16. cbn [String.length] in H'. lia. }
  destruct (bytes_of_hex_spec 32 0 s n Hp Hl) as (Hb & Hlen & Hv). rewrite Z.add_0_l in Hv.
  rewrite Hv, <- Hlen. symmetry. by apply be_bytes_of_be.
Qed.
End Seal.
End Seal.

(** ** [proposal.ts] *)
Module Proposal.
Import Seal Client Frost.Frost BjjSuite.
#[local] Existing Instance bjjCiphersuite.

Inductive ProposalError :=
  | Sealed_error (e : SealError) | Json_error (e : TextError) | Client_error (e : ClientError) | Frost_error (e : FrostError)
  | Proposal_not_found (proposalId : string) | No_public_share (id : string).

(** A [Map]: a key keeps its place when it is set again. *)
Fixpoint map_set (k : option Json) (v : Json) (m : list (option Json * Json)) : list (option Json * Json) :=
  match m with
  | [] => [(k, v)]
  | (k', v') :: m => if same_key k' k then (k', v) :: m else (k', v') :: map_set k v m
  end.

Section Proposal.
Context `{Text, Aead, BabyJubjub, Poseidon2}.
Notation P := (M CoordinatorClient ProposalError).

Definition hexToPoint (h : option Json) : result TextError Point :=
  x ← prop "x" h;
  x ← BigInt (Some (JStr ("0x" +:+ text_of x)));
  y ← prop "y" h;
  y ← BigInt (Some (JStr ("0x" +:+ text_of y)));
  Ok (x, y).
Definition pointToHexObj (p : Point) : Json := JObj [("x", JStr (toString16 p.1)); ("y", JStr (toString16 p.2))].

Definition createProposal (nonce : list Z) (sessionId : string) (sessionKey : list Z) (payload : Json) : P unit :=
  ct ← lift Sealed_error (sealSessionJson nonce sessionKey payload);
  _ ← embed Client_error (appendNext sessionId "proposal" ct 20);
  mret tt.

(** [try { ... === proposalId } catch { false }]. *)
Definition matches (sessionKey : list Z) (proposalId : string) (e : Envelope) : bool :=
  if negb (bool_decide (kind e = "proposal")) then false
  else match openSessionJson sessionKey (ciphertext e) with
       | Err _ => false
       | Ok v => match prop "proposalId" (Some v) with Err _ => false | Ok id => is_text id proposalId end
       end.
Definition fetchProposal (sessionId : string) (sessionKey : list Z) (proposalId : string) : P Json :=
  all ← collectUntil Client_error sessionId (λ envs, Ok (existsb (matches sessionKey proposalId) envs)) (Some 1%nat) None;
  match find (matches sessionKey proposalId) all with
  | None => throw (Proposal_not_found proposalId)
  | Some e => lift Sealed_error (openSessionJson sessionKey (ciphertext e))
  end.

Fixpoint decode_loop (envs : list Envelope) (sessionKey : list Z) (kind proposalId : string)
    (byId : list (option Json * Json)) : result ProposalError (list (option Json * Json)) :=
  match envs with
  | [] => Ok byId
  | e :: envs =>
      if negb (bool_decide (Coordinator.kind e = kind)) then decode_loop envs sessionKey kind proposalId byId
      else match openSessionJson sessionKey (ciphertext e) with
           | Err _ => decode_loop envs sessionKey kind proposalId byId
           | Ok parsed =>
               pid ← map_err Json_error (prop "proposalId" (Some parsed));
               if negb (is_text pid proposalId) then decode_loop envs sessionKey kind proposalId byId
               else id ← map_err Json_error (prop "id" (Some parsed));
                    decode_loop envs sessionKey kind proposalId (map_set id parsed byId)
           end
  end.
Definition decodeUnique (envs : list Envelope) (sessionKey : list Z) (kind proposalId : string) : result ProposalError (list Json) :=
  byId ← decode_loop envs sessionKey kind proposalId []; Ok byId.*2.
Definition countMatchingProposal (envs : list Envelope) (sessionKey : list Z) (kind proposalId : string) : result ProposalError Z :=
  l ← decodeUnique envs sessionKey kind proposalId; Ok (Z.of_nat (length l)).
Definition enough (sessionKey : list Z) (kind proposalId : string) (threshold : Z) (envs : list Envelope) : result ProposalError bool :=
  n ← countMatchingProposal envs sessionKey kind proposalId; Ok (threshold <=? n).

Definition commitment_of (p : Json) : result TextError (Commitment Point) :=
  id ← prop "id" (Some p); id ← BigInt id;
  D ← prop "D" (Some p); D ← hexToPoint D;
  E ← prop "E" (Some p); E ← hexToPoint E;
  Ok (mkCommitment id D E).
Definition message_of (proposal : Json) : result TextError (list Z) :=
  hex ← prop "messageHex" (Some proposal); m ← BigInt hex; Ok (encodeMessage m).
(** The commitments on the session, once there are enough. *)
Definition collectCommitments (sessionId : string) (sessionKey : list Z) (proposalId : string) (threshold : Z) (maxRounds : option nat) :
    P (list (Commitment Point)) :=
  nonceEnvelopes ← collectUntil Client_error sessionId (enough sessionKey "nonce" proposalId threshold) maxRounds None;
  payloads ← lift (λ e, e) (decodeUnique nonceEnvelopes sessionKey "nonce" proposalId);
  lift Json_error (map_res commitment_of payloads).

Record SignProposalOptions := mkSignOptions {
  so_sessionId : string; so_sessionKey : list Z; so_proposalId : string; myId : Z; mySecretShare : Z; so_gpk : Point;
  so_threshold : Z; so_maxRounds : option nat }.
Definition noncePayload (proposalId : string) (c : Commitment Point) : Json :=
  JObj [("proposalId", JStr proposalId); ("id", JStr (pretty (id c))); ("D", pointToHexObj (D c)); ("E", pointToHexObj (E c))].
Definition sharePayload (proposalId : string) (i z : Z) : Json :=
  JObj [("proposalId", JStr proposalId); ("id", JStr (pretty i)); ("z", JStr (pretty z))].
(** What [getRandomValues] and [randomBytes] return, in order. *)
Record SignRandom := mkRandom { hiding : list Z; binding : list Z; nonce1 : list Z; nonce2 : list Z }.
Definition signProposal (rnd : SignRandom) (opts : SignProposalOptions) : P unit :=
  let '(mkSignOptions sessionId sessionKey proposalId myId mySecretShare gpk threshold maxRounds) := opts in
  proposal ← fetchProposal sessionId sessionKey proposalId;
  message ← lift Json_error (message_of proposal);
  let '(nonces, commitment) := commit myId mySecretShare (hiding rnd) (binding rnd) in
  ct ← lift Sealed_error (sealSessionJson (nonce1 rnd) sessionKey (noncePayload proposalId commitment));
  _ ← embed Client_error (appendNext sessionId "nonce" ct 20);
  commitments ← collectCommitments sessionId sessionKey proposalId threshold maxRounds;
  zShare ← lift Frost_error (signShare myId mySecretShare gpk message commitments nonces).2;
  ct ← lift Sealed_error (sealSessionJson (nonce2 rnd) sessionKey (sharePayload proposalId myId zShare));
  _ ← embed Client_error (appendNext sessionId "share" ct 20);
  mret tt.

(** [publicShares.get(p.id)]: its keys are texts. *)
Definition partial_of (publicShares : gmap string Point) (p : Json) : result ProposalError (PartialSig (G:=Point)) :=
  i ← map_err Json_error (prop "id" (Some p));
  match i with
  | Some (JStr k) =>
      match publicShares !! k with
      | None => Err (No_public_share k)
      | Some publicShare =>
          i ← map_err Json_error (BigInt i);
          z ← map_err Json_error (prop "z" (Some p)); z ← map_err Json_error (BigInt z);
          Ok (mkPartialSig i z publicShare)
      end
  | _ => Err (No_public_share (text_of i))
  end.
Record AggregateProposalOptions := mkAggregateOptions {
  ao_sessionId : string; ao_sessionKey : list Z; ao_proposalId : string; ao_gpk : Point; ao_threshold : Z;
  ao_publicShares : gmap string Point; ao_maxRounds : option nat }.
Definition aggregateProposal (opts : AggregateProposalOptions) : P (Signature Point * list Z * Json) :=
  let '(mkAggregateOptions sessionId sessionKey proposalId gpk threshold publicShares maxRounds) := opts in
  proposal ← fetchProposal sessionId sessionKey proposalId;
  message ← lift Json_error (message_of proposal);
  commitments ← collectCommitments sessionId sessionKey proposalId threshold maxRounds;
  shareEnvelopes ← collectUntil Client_error sessionId (enough sessionKey "share" proposalId threshold) maxRounds None;
  payloads ← lift (λ e, e) (decodeUnique shareEnvelopes sessionKey "share" proposalId);
  shares ← lift (λ e, e) (map_res (partial_of publicShares) payloads);
  let rhos := bindingFactors gpk message commitments in
  R ← lift Frost_error (groupCommitment commitments rhos);
  signature ← lift Frost_error (coordinatorAggregate R gpk message commitments shares threshold);
  mret (signature, message, proposal).

(** [execute.ts], up to the sending: the builders and the prover are the caller's. *)
Definition executeProposal {Inputs Bundle Instruction} (opts : AggregateProposalOptions)
    (buildInputs : Signature Point → Json → result ProposalError Inputs) (prove : Inputs → result ProposalError Bundle)
    (buildInstructions : Bundle → Json → result ProposalError (list Instruction)) : P (Bundle * list Instruction) :=
  r ← aggregateProposal opts;
  let '(signature, _, proposal) := r in
  inputs ← lift (λ e, e) (buildInputs signature proposal);
  bundle ← lift (λ e, e) (prove inputs);
  instructions ← lift (λ e, e) (buildInstructions bundle proposal);
  mret (bundle, instructions).
End Proposal.
End Proposal.

(** ** What is on the session, and what the members make of it *)
Module ProposalSpec.
Import Seal Client ClientSpec Proposal Frost.Frost BjjSuite.
#[local] Existing Instance bjjCiphersuite.
Section Spec.
Context `{Text, Aead, BabyJubjub, Poseidon2}.

Definition opened (key : list Z) (e : Envelope) : option Json :=
  match openSessionJson key (ciphertext e) with Ok v => Some v | Err _ => None end.
Definition about (pid : string) (v : Json) : bool :=
  match prop "proposalId" (Some v) with Ok i => is_text i pid | Err _ => false end.
(** The payloads of a kind for a proposal, in the order of the log. *)
Definition posted (key : list Z) (k pid : string) (l : list Envelope) : list Json :=
  filter (λ v, about pid v = true) (omap (opened key) (filter (λ e, kind e = k) l)).
(** No payload is [null], on which the readers throw. *)
Definition clean (key : list Z) (l : list Envelope) : Prop := ∀ e, e ∈ l → opened key e ≠ Some JNull.
Definition name (v : Json) : string := match prop "id" (Some v) with Ok i => text_of i | Err _ => "" end.
Definition titled (v : Json) : Prop := prop "id" (Some v) = Ok (Some (JStr (name v))).
(** Each signer's payload once. *)
Definition once (vs : list Json) : Prop := Forall titled vs ∧ NoDup (name <$> vs).

Lemma posted_app key k pid l l' : posted key k pid (l ++ l') = posted key k pid l ++ posted key k pid l'.
Proof. unfold posted. by rewrite filter_app, omap_app, filter_app. Qed.
Lemma posted_prefix key k pid l l' : l `prefix_of` l' → posted key k pid l `prefix_of` posted key k pid l'.
Proof. intros [r ->]. rewrite posted_app. by eexists. Qed.
Lemma clean_prefix key l l' : l `prefix_of` l' → clean key l' → clean key l.
Proof. intros [r ->] Hc e He. apply Hc, elem_of_app. by left. Qed.
Lemma once_prefix vs ws : vs `prefix_of` ws → once ws → once vs.
Proof. intros [r ->]. unfold once. rewrite Forall_app, fmap_app, NoDup_app. naive_solver. Qed.

Lemma map_set_fresh k v m : Forall (λ p, same_key p.1 k = false) m → map_set k v m = m ++ [(k, v)].
Proof. induction 1 as [|[k' v'] m Hk _ IH]; [done|]. cbn. cbn in Hk. by rewrite Hk, IH. Qed.
Definition entry (v : Json) : option Json * Json := (Some (JStr (name v)), v).
Lemma posted_cons key k pid e l : posted key k pid (e :: l) =
  (if decide (kind e = k) then match opened key e with Some v => if about pid v then [v] else [] | None => [] end else [])
  ++ posted key k pid l.
Proof.
  unfold posted. rewrite filter_cons. case_decide; [|done]. cbn [omap list_omap].
  destruct (opened key e) as [v|]; [|done]. rewrite filter_cons. destruct (about pid v); [by rewrite decide_True|by rewrite decide_False].
Qed.
Lemma decode_loop_spec key k pid l vs : clean key l → once (vs ++ posted key k pid l) →
  decode_loop l key k pid (entry <$> vs) = Ok (entry <$> (vs ++ posted key k pid l)).
Proof.
  revert vs. induction l as [|e l IH]; intros vs Hc Ho; [by rewrite app_nil_r|].
  assert (Hcl : clean key l) by (intros e' He'; apply Hc; by right). assert (Hce : opened key e ≠ Some JNull) by (apply Hc; left).
  rewrite posted_cons in Ho |- *. cbn [decode_loop]. destruct (decide (kind e = k)) as [Hk|Hk].
  2: { rewrite bool_decide_eq_false_2 by done. by apply IH. }
  rewrite bool_decide_eq_true_2 by done. unfold opened in *. destruct (openSessionJson key (ciphertext e)) as [v|]; [|by apply IH].
  cbn [negb]. unfold about in *. destruct (prop "proposalId" (Some v)) as [i|] eqn:Hp; [|by destruct v].
  cbn [map_err mbind result_bind]. destruct (is_text i pid); cbn [negb]; [|by apply IH].
  destruct Ho as [Ht Hd]. assert (Hv : titled v) by (rewrite Forall_forall in Ht; apply Ht, elem_of_app; right; left).
  rewrite Hv. cbn [map_err mbind result_bind]. rewrite map_set_fresh.
  - rewrite (app_assoc vs [v] (posted key k pid l)). rewrite <- (IH (vs ++ [v])); [by rewrite fmap_app|done|]. by rewrite <- app_assoc.
  - apply Forall_fmap, Forall_forall. intros w Hw. cbn. apply bool_decide_eq_false_2. intros E.
    rewrite fmap_app, NoDup_app in Hd. destruct Hd as (_ & Hd & _). apply (Hd (name w)); [apply list_elem_of_fmap; by exists w|].
    rewrite E. cbn. left.
Qed.
(** With one payload per signer, the readers find just the payloads posted. *)
Lemma decodeUnique_posted key k pid l : clean key l → once (posted key k pid l) → decodeUnique l key k pid = Ok (posted key k pid l).
Proof.
  intros Hc Ho. unfold decodeUnique. change [] with (entry <$> []) at 1. rewrite (decode_loop_spec key k pid l []) by done.
  cbn [mbind result_bind app]. f_equal.
  rewrite <- list_fmap_compose. apply list_fmap_id.
Qed.
Lemma enough_spec key k pid t l : clean key l → once (posted key k pid l) →
  enough key k pid t l = Ok (t <=? Z.of_nat (length (posted key k pid l))).
Proof. intros Hc Ho. unfold enough, countMatchingProposal. by rewrite decodeUnique_posted. Qed.

(** *** The payloads *)
Definition good_commitment (c : Commitment Point) : Prop := 0 <= id c ∧ canonical (D c) ∧ canonical (E c).
Lemma hexToPoint_hex p : canonical p → hexToPoint (Some (pointToHexObj p)) = Ok p.
Proof.
  destruct p as [x y]. intros [Hx Hy]. cbn in Hx, Hy. unfold hexToPoint, pointToHexObj.
  change (prop "x" _) with (Ok (Some (JStr (toString16 x))) : result TextError (option Json)).
  change (prop "y" _) with (Ok (Some (JStr (toString16 y))) : result TextError (option Json)). cbn [mbind result_bind text_of String_of].
  rewrite BigInt_hex by lia. cbn [mbind result_bind]. by rewrite BigInt_hex by lia.
Qed.
Lemma commitment_of_payload pid c : good_commitment c → commitment_of (noncePayload pid c) = Ok c.
Proof.
  destruct c as [i d e]. intros (Hi & Hd & He). cbn in Hi, Hd, He. unfold commitment_of, noncePayload. cbn [id D E].
  change (prop "id" _) with (Ok (Some (JStr (pretty i))) : result TextError (option Json)).
  change (prop "D" _) with (Ok (Some (pointToHexObj d)) : result TextError (option Json)).
  change (prop "E" _) with (Ok (Some (pointToHexObj e)) : result TextError (option Json)). cbn [mbind result_bind].
  rewrite BigInt_pretty by done. cbn [mbind result_bind]. by rewrite !hexToPoint_hex.
Qed.
Lemma commitments_of_payloads pid cs : Forall good_commitment cs → map_res commitment_of (noncePayload pid <$> cs) = Ok cs.
Proof. induction 1 as [|c cs Hc _ IH]; [done|]. rewrite fmap_cons. cbn [map_res]. by rewrite commitment_of_payload, IH. Qed.
Lemma nonces_once pid cs : NoDup (id <$> cs) → Forall good_commitment cs → once (noncePayload pid <$> cs).
Proof.
  intros Hd Hc. split; [by apply Forall_fmap, Forall_true|]. rewrite <- list_fmap_compose.
  apply (NoDup_pretty id cs); [|done]. eapply Forall_impl; [exact Hc|]. by intros c [].
Qed.
Lemma shares_once pid (ps : list (PartialSig (G:=Point))) : NoDup (sig_id <$> ps) → Forall (λ p, 0 <= sig_id p) ps →
  once ((λ p, sharePayload pid (sig_id p) (sig_z p)) <$> ps).
Proof.
  intros Hd Hc. split; [by apply Forall_fmap, Forall_true|]. rewrite <- list_fmap_compose.
  by apply (NoDup_pretty sig_id ps).
Qed.
Lemma partials_of_payloads pid shares (ps : list (PartialSig (G:=Point))) :
  Forall (λ p, 0 <= sig_id p ∧ 0 <= sig_z p ∧ shares !! pretty (sig_id p) = Some (publicShare p)) ps →
  map_res (partial_of shares) ((λ p, sharePayload pid (sig_id p) (sig_z p)) <$> ps) = Ok ps.
Proof.
  induction 1 as [|[i z v] ps (Hi & Hz & Hs) _ IH]; [done|]. cbn in Hi, Hz, Hs. rewrite fmap_cons. cbn [map_res].
  assert (Hp : partial_of shares (sharePayload pid i z) = Ok (mkPartialSig i z v)).
  { unfold partial_of. change (prop "id" _) with (Ok (Some (JStr (pretty i))) : result TextError (option Json)).
    cbn [map_err mbind result_bind]. rewrite Hs, BigInt_pretty by done. cbn [map_err mbind result_bind].
    change (prop "z" _) with (Ok (Some (JStr (pretty z))) : result TextError (option Json)). cbn [map_err mbind result_bind].
    by rewrite BigInt_pretty. }
  cbn [sig_id sig_z]. by rewrite Hp, IH.
Qed.

(** *** Reading the session *)
Lemma find_existsb {A} (p : A → bool) l : existsb p l = true ↔ ∃ x, find p l = Some x.
Proof.
  induction l as [|x l IH]; cbn; [split; [done|by intros []]|]. destruct (p x); cbn; [split; eauto|exact IH].
Qed.
Lemma find_prefix {A} (p : A → bool) l k x : find p l = Some x → find p (l ++ k) = Some x.
Proof. induction l as [|y l IH]; cbn; [done|]. by destruct (p y). Qed.
Lemma fetchProposal_spec s key pid c e v : calm c → find (matches key pid) (log_now s c) = Some e →
  openSessionJson key (ciphertext e) = Ok v → ∃ c', fetchProposal s key pid c = (c', Ok v) ∧ waited c c'.
Proof.
  intros Hc Hf Hv. destruct (collect_one Client_error s (λ envs, Ok (existsb (matches key pid) envs)) c Hc) as (c' & Hr & Hw).
  - eauto.
  - intros l k [= Hl]. f_equal. by rewrite existsb_app, Hl.
  - f_equal. apply find_existsb. eauto.
  - exists c'. split; [|done]. unfold fetchProposal, mbind, M_bind. rewrite Hr.
    destruct (waited_spec s c c' Hc Hw) as (_ & _ & [k Hk] & _). rewrite Hk, (find_prefix _ _ _ _ Hf).
    unfold lift. by rewrite Hv.
Qed.
(** When no more than [t] payloads are ever posted, all of them are awaited. *)
Lemma collect_posted s key k pid t rounds c : calm c → clean key (log_end s c) → once (posted key k pid (log_end s c)) →
  Z.of_nat (length (posted key k pid (log_end s c))) = t → (length (schedule (world c)) < default 40 rounds)%nat →
  ∃ c', collectUntil Client_error s (enough key k pid t) rounds None c = (c', Ok (log_now s c')) ∧ waited c c' ∧
    decodeUnique (log_now s c') key k pid = Ok (posted key k pid (log_end s c)).
Proof.
  intros Hc Hcl Ho Ht Hr. assert (Hpre : ∀ l, l `prefix_of` log_end s c → clean key l ∧ once (posted key k pid l)).
  { intros l Hl. split; [by eapply clean_prefix|]. eapply once_prefix; [by apply posted_prefix|done]. }
  destruct (collect_all_ends Client_error s (enough key k pid t) rounds c Hc) as (c' & Hres & Hw & He).
  - intros l Hl. destruct (Hpre l Hl). rewrite enough_spec by done. eauto.
  - rewrite enough_spec, Ht by done. by rewrite Z.leb_refl.
  - done.
  - exists c'. split; [done|]. split; [done|]. destruct (waited_spec s c c' Hc Hw) as (_ & _ & _ & Hl). destruct (Hpre _ Hl) as [Hcl' Ho'].
    rewrite enough_spec in He by done. injection He as He. apply Z.leb_le in He. rewrite decodeUnique_posted by done.
    f_equal. apply prefix_length_eq; [by apply posted_prefix|lia].
Qed.
Lemma collectCommitments_spec s key pid t rounds c cs : calm c → clean key (log_end s c) →
  posted key "nonce" pid (log_end s c) = noncePayload pid <$> cs → NoDup (id <$> cs) → Forall good_commitment cs →
  Z.of_nat (length cs) = t → (length (schedule (world c)) < default 40 rounds)%nat →
  ∃ c', collectCommitments s key pid t rounds c = (c', Ok cs) ∧ waited c c'.
Proof.
  intros Hc Hcl Hp Hd Hg Ht Hr. destruct (collect_posted s key "nonce" pid t rounds c Hc Hcl) as (c' & Hres & Hw & Hdec).
  - rewrite Hp. by apply nonces_once.
  - by rewrite Hp, length_fmap.
  - done.
  - exists c'. split; [|done]. unfold collectCommitments. unfold mbind at 1, M_bind at 1. rewrite Hres.
    unfold mbind, M_bind, lift. rewrite Hdec, Hp. by rewrite commitments_of_payloads.
Qed.

Context {BL : BabyJubjubLaws}.
Lemma generator_canonical k : canonical (scalarMul k (generator : Point)).
Proof.
  change (canonical (mulPointEscalar Base8 (Bjj.modSub k))). pose proof (Bjj.modSub_bound k) as [Hk _].
  rewrite <- (Z.mul_1_l (Bjj.modSub k)), <- mul_mul by lia. apply mul_canonical; [apply mul_curve; lia|lia].
Qed.

Section session.
(** What the signers of a proposal post: commitments with known openings and
    the shares of a polynomial, [gpk] its value at zero. *)
Context (s : string) (key : list Z) (pid : string) (gpk : Point) (msg : list Z) (cs : list (Commitment Point)) (nd ne : Z → Z) (f : list Z).
Context (Hdistinct : @distinct (order (G:=Point)) (id <$> cs)) (Hid : Forall (λ c, 0 <= id c) cs).
Context (Hopen : ∀ c, c ∈ cs → D c = scalarMul (nd (id c)) generator ∧ E c = scalarMul (ne (id c)) generator).
Context (Hdegree : (length f <= length cs)%nat) (Hgpk : gpk = scalarMul (peval f 0) generator).
(** A partial that its signer computed, of which the coordinator knows the public share. *)
Definition honest (shares : gmap string Point) (p : PartialSig (G:=Point)) : Prop :=
  signShareUnchecked (sig_id p) (nd (sig_id p)) (ne (sig_id p)) (peval f (sig_id p)) gpk msg cs = Ok (sig_z p) ∧
  publicShare p = scalarMul (peval f (sig_id p)) generator ∧ shares !! pretty (sig_id p) = Some (publicShare p).

Lemma cs_good : Forall good_commitment cs.
Proof.
  apply Forall_forall. intros c Hc. destruct (Hopen c Hc) as [Hd He]. split; [by rewrite Forall_forall in Hid; apply Hid|].
  rewrite Hd, He. split; apply generator_canonical.
Qed.
Lemma modulo_nonneg x m : 0 < m → 0 <= modulo x m.
Proof. intros Hm. rewrite modulo_mod by done. apply Z.mod_pos_bound. done. Qed.
Lemma order_pos : 0 < order (G:=Point).
Proof. change (0 < Bjj.SUBORDER). pose proof Bjj.q_pos. lia. Qed.
Lemma signShareUnchecked_nonneg i d e sh gpk' msg' cs' z : signShareUnchecked (G:=Point) i d e sh gpk' msg' cs' = Ok z → 0 <= z.
Proof.
  unfold signShareUnchecked. destruct (groupCommitment _ _); [|done]. cbn [mbind result_bind].
  destruct (lagrangeCoefficient _ _); [|done]. cbn [mbind result_bind]. destruct (_ !! i); [|done]. intros [= <-].
  apply modulo_nonneg, order_pos.
Qed.
(** Complete, honest partials pass the coordinator, and give a signature. *)
Lemma coordinator_completes shares ps R0 : sig_id <$> ps ≡ₚ id <$> cs → Forall (honest shares) ps →
  groupCommitment cs (bindingFactors gpk msg cs) = Ok R0 →
  ∃ sig, coordinatorAggregate R0 gpk msg cs ps (Z.of_nat (length cs)) = Ok sig ∧ verify gpk msg sig = true.
Proof.
  intros Hperm Hh HR. rewrite (groupCommitment_spec gpk msg cs nd ne Hopen) in HR. injection HR as <-.
  assert (Hgood : Forall (share_good cs f) ps ∧ Forall (share_eqn gpk msg cs nd ne f) ps).
  { rewrite <- Forall_and. rewrite Forall_forall in Hh |- *. intros p Hp. destruct (Hh p Hp) as (Hz & Hv & _).
    assert (Hi : sig_id p ∈ id <$> cs) by (rewrite <- Hperm; apply list_elem_of_fmap; eauto). split; [done|].
    destruct (signShareUnchecked_spec gpk msg cs nd ne Hdistinct Hopen _ (peval f (sig_id p)) Hi) as (z' & Hz' & Heq).
    rewrite Hz in Hz'. injection Hz' as <-. exact Heq. }
  destruct Hgood as [Hg He]. destruct (check_shares_spec gpk msg cs nd ne Hdistinct Hopen f ps Hg) as [Hok _].
  assert (HN : NoDup (sig_id <$> ps)).
  { rewrite Hperm. pose proof Hdistinct as Hd. unfold distinct in Hd. by apply NoDup_fmap_1 in Hd. }
  assert (Hlen : length ps = length cs) by (apply Permutation_length in Hperm; by rewrite !length_fmap in Hperm).
  eexists. unfold coordinatorAggregate. rewrite (dup_check_spec ps) by (done || set_solver). cbn [mbind result_bind].
  rewrite union_empty_r_L, size_list_to_set, length_fmap, Hlen, Z.ltb_irrefl by done.
  rewrite (proj2 Hok He). cbn [mbind result_bind]. split; [done|].
  by apply (full_sum_verifies gpk msg cs nd ne Hdistinct f).
Qed.

(** C6. Execution completes.  The proposal must already be on the session when
    the aggregation starts ([fetchProposal] takes one look and throws
    otherwise), and the client is calm: the session's log is numbered without
    gaps and the others only append to it, nothing of it expiring meanwhile.
    When the messages that are on the session then, together with those the
    others still append in fewer turns than there are rounds of polling (40
    unless given), hold exactly [threshold] commitments and, in whatever order,
    the honest shares of those signers over them, none of the messages that
    open under the key being [null], then [aggregateProposal] returns a
    signature of the proposal's message that verifies under the group key,
    however these appends and anything else the others append interleave with
    its requests. *)
Theorem aggregateProposal_completes shares ps rounds c e v :
  calm c → (length (schedule (world c)) < default 40 rounds)%nat →
  find (matches key pid) (log_now s c) = Some e → openSessionJson key (ciphertext e) = Ok v → message_of v = Ok msg →
  clean key (log_end s c) → posted key "nonce" pid (log_end s c) = noncePayload pid <$> cs →
  posted key "share" pid (log_end s c) = (λ p, sharePayload pid (sig_id p) (sig_z p)) <$> ps →
  sig_id <$> ps ≡ₚ id <$> cs → Forall (honest shares) ps →
  ∃ c' sig, aggregateProposal (mkAggregateOptions s key pid gpk (Z.of_nat (length cs)) shares rounds) c = (c', Ok (sig, msg, v)) ∧
    verify gpk msg sig = true ∧ waited c c'.
Proof.
  intros Hc Hr Hf Hv Hm Hcl Hn Hs Hperm Hh.
  assert (HN : NoDup (id <$> cs)) by (pose proof Hdistinct as Hd; unfold distinct in Hd; by apply NoDup_fmap_1 in Hd).
  destruct (fetchProposal_spec s key pid c e v Hc Hf Hv) as (c1 & R1 & W1). destruct (waited_spec s c c1 Hc W1) as (C1 & E1 & _).
  destruct (collectCommitments_spec s key pid (Z.of_nat (length cs)) rounds c1 cs C1) as (c2 & R2 & W2);
    [by rewrite E1..|done|apply cs_good|done|destruct W1; lia|].
  destruct (waited_spec s c1 c2 C1 W2) as (C2 & E2 & _).
  assert (Hlen : length ps = length cs) by (apply Permutation_length in Hperm; by rewrite !length_fmap in Hperm).
  assert (Hpos : Forall (λ p, 0 <= sig_id p ∧ 0 <= sig_z p ∧ shares !! pretty (sig_id p) = Some (publicShare p)) ps).
  { apply Forall_forall. intros p Hp. rewrite Forall_forall in Hh. destruct (Hh p Hp) as (Hz & _ & Hsh). split.
    - assert (Hi : sig_id p ∈ id <$> cs) by (rewrite <- Hperm; apply list_elem_of_fmap; eauto).
      apply list_elem_of_fmap in Hi as (c0 & -> & Hc0). rewrite Forall_forall in Hid. by apply Hid.
    - split; [by eapply signShareUnchecked_nonneg|done]. }
  destruct (collect_posted s key "share" pid (Z.of_nat (length cs)) rounds c2 C2) as (c3 & R3 & W3 & D3).
  - by rewrite E2, E1.
  - rewrite E2, E1, Hs. apply shares_once; [by rewrite Hperm|]. eapply Forall_impl; [exact Hpos|]. by intros p [].
  - by rewrite E2, E1, Hs, length_fmap, Hlen.
  - destruct W1, W2. lia.
  - pose proof (groupCommitment_spec gpk msg cs nd ne Hopen) as HR.
    destruct (coordinator_completes shares ps _ Hperm Hh HR) as (sig & Hsig & Hver).
    exists c3, sig. split; [|split; [done|by eapply waited_trans; [|eapply waited_trans]]].
    unfold aggregateProposal, mbind, M_bind. rewrite R1. unfold lift at 1. rewrite Hm. cbn [map_err]. rewrite R2, R3.
    unfold lift. rewrite D3, E2, E1, Hs. cbn [map_err]. rewrite partials_of_payloads by done. cbn [map_err].
    rewrite HR. cbn [map_err]. by rewrite Hsig.
Qed.
End session.

(** *** One signer *)
Context {TL : TextLaws} {AL : AeadLaws}.
Definition box_nonce (n : list Z) : Prop := length n = 24%nat ∧ Forall is_byte n.
Lemma plain_obj_strs fields : NoDup fields.*1 → Forall (λ k, forallb is_digit (String.list_ascii_of_string k) = false) fields.*1 →
  Forall plain fields.*2 → plain (JObj fields).
Proof. intros Hd Hk Hv. constructor; [done|by left|by apply Forall_forall]. Qed.
Lemma plain_point p : plain (pointToHexObj p).
Proof. apply plain_obj_strs; [apply (bool_decide_unpack _); by vm_compute|by repeat constructor..]. Qed.
Lemma plain_nonce pid c : plain (noncePayload pid c).
Proof.
  apply plain_obj_strs; [apply (bool_decide_unpack _); by vm_compute|by repeat constructor|].
  repeat (constructor; [first [apply plain_point|constructor]|]). constructor.
Qed.
Lemma plain_share pid i z : plain (sharePayload pid i z).
Proof. apply plain_obj_strs; [apply (bool_decide_unpack _); by vm_compute|by repeat constructor..]. Qed.
Lemma seal_opens nonce key v ct s n k : box_nonce nonce → length key = 32%nat → plain v → sealSessionJson nonce key v = Ok ct →
  opened key (mkEnvelope s n k ct) = Some v.
Proof.
  intros [Hn Hb] Hk Hv Hs. destruct (open_seal nonce key v Hn Hb Hk Hv) as (ct' & Hs' & Ho & _).
  rewrite Hs in Hs'. injection Hs' as <-. unfold opened. cbn [ciphertext]. by rewrite Ho.
Qed.
Lemma embed_Ok {S E E' A} (inj : E → E') (m : M S E A) s0 s1 a : embed inj m s0 = (s1, Ok a) ↔ m s0 = (s1, Ok a).
Proof. unfold embed. destruct (m s0) as [s2 [b|err]]; cbn; naive_solver. Qed.
(** The proposal that is read. *)
Definition proposed (key : list Z) (pid : string) (l : list Envelope) (v : Json) : Prop :=
  ∃ e, e ∈ l ∧ kind e = "proposal" ∧ opened key e = Some v ∧ about pid v = true.
Lemma fetchProposal_Ok s key pid c c' v : calm c → fetchProposal s key pid c = (c', Ok v) →
  waited c c' ∧ ∃ e, find (matches key pid) (log_now s c') = Some e ∧ opened key e = Some v.
Proof.
  intros Hc. unfold fetchProposal. intros (c1 & all & R1 & R2)%M_bind_Ok.
  destruct (collect_all Client_error s _ _ c c1 all Hc R1) as (Hw & -> & _). destruct (find _ _) as [e|] eqn:Hf; [|done].
  apply lift_Ok in R2 as [-> R2]. split; [done|]. exists e. split; [done|]. unfold opened. by rewrite R2.
Qed.
(** The first message that matches is a proposal of that id. *)
Lemma find_proposed key pid l e v : find (matches key pid) l = Some e → opened key e = Some v → proposed key pid l v.
Proof.
  intros Hf Ho. apply find_some in Hf as [Hin Hm]. exists e. split; [by apply list_elem_of_In|].
  unfold matches in Hm. case_bool_decide as Hk; [|done]. cbn [negb] in Hm. unfold opened, about in *.
  destruct (openSessionJson key (ciphertext e)) as [w|]; [|done]. injection Ho as ->.
  by destruct (prop "proposalId" (Some v)).
Qed.
Lemma enough_true key k pid t l vs : decodeUnique l key k pid = Ok vs → enough key k pid t l = Ok true →
  t <= Z.of_nat (length vs).
Proof.
  unfold enough, countMatchingProposal. intros ->. cbn [mbind result_bind]. intros [= Hl]. by apply Z.leb_le.
Qed.
(** The commitments are those of the payloads read, all of them. *)
Definition read_commitments (s : string) (key : list Z) (pid : string) (t : Z) (c' : CoordinatorClient) (cs : list (Commitment Point)) : Prop :=
  ∃ vs, decodeUnique (log_now s c') key "nonce" pid = Ok vs ∧ t <= Z.of_nat (length vs) ∧ map_res commitment_of vs = Ok cs.
Lemma collectCommitments_Ok s key pid t rounds c c' cs : calm c → collectCommitments s key pid t rounds c = (c', Ok cs) →
  waited c c' ∧ read_commitments s key pid t c' cs.
Proof.
  intros Hc. unfold collectCommitments. intros (c1 & all & R1 & (c2 & ps & R2 & R3)%M_bind_Ok)%M_bind_Ok.
  destruct (collect_all Client_error s _ _ c c1 all Hc R1) as (Hw & -> & He). apply lift_Ok in R2 as [-> R2]. apply lift_Ok in R3 as [-> R3].
  split; [done|]. exists ps. split; [done|]. split; [by eapply enough_true|done].
Qed.
(** With one payload per signer they are the commitments posted so far. *)
Lemma read_commitments_posted s key pid t c cs : clean key (log_now s c) → once (posted key "nonce" pid (log_now s c)) →
  read_commitments s key pid t c cs → map_res commitment_of (posted key "nonce" pid (log_now s c)) = Ok cs.
Proof. intros Hcl Ho (vs & Hd & _ & Hcs). rewrite decodeUnique_posted in Hd by done. by injection Hd as ->. Qed.
(** When no more than the threshold are ever posted, they are those of the end. *)
Lemma read_commitments_final s key pid c c' cs cs' : log_now s c `prefix_of` log_now s c' →
  read_commitments s key pid (Z.of_nat (length cs')) c cs → clean key (log_now s c') →
  posted key "nonce" pid (log_now s c') = noncePayload pid <$> cs' → NoDup (id <$> cs') → Forall good_commitment cs' → cs = cs'.
Proof.
  intros Hpre Hrd Hcl Hp HN Hg. pose proof (posted_prefix key "nonce" pid _ _ Hpre) as Hpp. rewrite Hp in Hpp.
  assert (Ho : once (posted key "nonce" pid (log_now s c))) by (eapply once_prefix; [exact Hpp|by apply nonces_once]).
  pose proof (clean_prefix key _ _ Hpre Hcl) as Hcl'. destruct Hrd as (vs & Hd & Ht & Hcs).
  rewrite decodeUnique_posted in Hd by done. injection Hd as <-.
  rewrite (prefix_length_eq _ _ Hpp) in Hcs by (rewrite length_fmap; lia).
  rewrite commitments_of_payloads in Hcs by done. by injection Hcs.
Qed.
Lemma signShare_fresh i sh gpk msg cs (h : NonceHandle) z : consumed h = false →
  (signShare (G:=Point) i sh gpk msg cs h).2 = Ok z → signShareUnchecked i (d h) (e h) sh gpk msg cs = Ok z.
Proof.
  intros Hh. unfold signShare, markConsumed, get, modify, mbind, M_bind. rewrite Hh. cbn [d e]. unfold lift. cbn [snd].
  by destruct (signShareUnchecked _ _ _ _ _ _ _).
Qed.

(** C20. What a signer that returns has done, step by step.  It took the first
    message of the log that is a proposal of that id ([c1]); it appended its own
    commitment, after whatever the others appended before it ([c2]); it waited
    ([c3]) and read the log: the commitments [cs] it signs over are those of
    all the payloads [decodeUnique] finds in the log at that moment, at least
    [threshold] of them and however many more are posted; and it appended its
    share, which is that of its nonces over the proposal's message and exactly
    [cs].  When each signer posted one commitment by then, [cs] are the
    commitments posted, in order; when no more than [threshold] are ever
    posted, they are the ones the coordinator reads as well. *)
Theorem signProposal_contributes rnd opts c c' :
  calm c → box_nonce (nonce1 rnd) → box_nonce (nonce2 rnd) → length (so_sessionKey opts) = 32%nat →
  signProposal rnd opts c = (c', Ok tt) →
  let s := so_sessionId opts in let key := so_sessionKey opts in let pid := so_proposalId opts in
  let '(nonces, mine) := commit (G:=Point) (myId opts) (mySecretShare opts) (hiding rnd) (binding rnd) in
  ∃ c1 c2 c3 e0 v msg es1 own cs z es2 share,
    waited c c1 ∧ find (matches key pid) (log_now s c1) = Some e0 ∧ opened key e0 = Some v ∧
    proposed key pid (log_now s c1) v ∧ message_of v = Ok msg ∧
    log_now s c2 = log_now s c1 ++ es1 ++ [own] ∧ kind own = "nonce" ∧ opened key own = Some (noncePayload pid mine) ∧
    waited c2 c3 ∧ log_now s c2 `prefix_of` log_now s c3 ∧ read_commitments s key pid (so_threshold opts) c3 cs ∧
    (clean key (log_now s c3) → once (posted key "nonce" pid (log_now s c3)) →
      map_res commitment_of (posted key "nonce" pid (log_now s c3)) = Ok cs) ∧
    signShareUnchecked (myId opts) (d nonces) (e nonces) (mySecretShare opts) (so_gpk opts) msg cs = Ok z ∧
    log_now s c' = log_now s c3 ++ es2 ++ [share] ∧ kind share = "share" ∧ opened key share = Some (sharePayload pid (myId opts) z) ∧
    (∀ cs', clean key (log_now s c') → posted key "nonce" pid (log_now s c') = noncePayload pid <$> cs' →
      NoDup (id <$> cs') → Forall good_commitment cs' → Z.of_nat (length cs') = so_threshold opts → cs = cs').
Proof.
  destruct opts as [s key pid i sh gpk t rounds]. intros Hc Hn1 Hn2 Hk Hr. cbn [so_sessionKey so_proposalId myId mySecretShare so_sessionId so_threshold so_gpk] in *.
  unfold signProposal in Hr. apply M_bind_Ok in Hr as (c1 & v & R1 & Hr). destruct (fetchProposal_Ok s key pid c c1 v Hc R1) as [W1 (e0 & Hfind & Hopen0)].
  destruct (waited_spec s c c1 Hc W1) as (C1 & _). apply M_bind_Ok in Hr as (? & msg & [-> Hm]%lift_Ok & Hr). cbn zeta.
  destruct (commit (G:=Point) i sh (hiding rnd) (binding rnd)) as [nonces mine] eqn:Hcm.
  assert (Hfresh : consumed nonces = false) by (unfold commit in Hcm; by injection Hcm as <- _).
  apply M_bind_Ok in Hr as (? & ct1 & [-> S1]%lift_Ok & Hr). apply M_bind_Ok in Hr as (c2 & e1 & A1%embed_Ok & Hr).
  destruct (appendNext_calm s "nonce" ct1 20 c1 c2 (Ok e1) C1 A1) as (C2 & es1 & L2).
  apply M_bind_Ok in Hr as (c3 & cs & R3 & Hr). destruct (collectCommitments_Ok s key pid t rounds c2 c3 cs C2 R3) as (W3 & Hrd).
  destruct (waited_spec s c2 c3 C2 W3) as (C3 & _ & Hpre23 & _).
  apply M_bind_Ok in Hr as (? & z & [-> Hz]%lift_Ok & Hr). apply M_bind_Ok in Hr as (? & ct2 & [-> S2]%lift_Ok & Hr).
  apply M_bind_Ok in Hr as (c4 & e2 & A2%embed_Ok & Hr). assert (c4 = c') as -> by (by injection Hr).
  destruct (appendNext_calm s "share" ct2 20 c3 c' (Ok e2) C3 A2) as (C4 & es2 & L4).
  exists c1, c2, c3, e0, v, msg, es1, (mkEnvelope s (seq e1) "nonce" ct1), cs, z, es2, (mkEnvelope s (seq e2) "share" ct2).
  split_and!; [exact W1|exact Hfind|exact Hopen0|by eapply find_proposed|exact Hm|exact L2|reflexivity| |exact W3|exact Hpre23|exact Hrd| | |exact L4|reflexivity| |].
  - eapply seal_opens; [exact Hn1|exact Hk|apply plain_nonce|exact S1].
  - intros Hcl Ho. by eapply read_commitments_posted.
  - by apply signShare_fresh.
  - eapply seal_opens; [exact Hn2|exact Hk|apply plain_share|exact S2].
  - intros cs' Hcl Hp HN Hg <-. eapply (read_commitments_final s key pid c3 c'); [rewrite L4; by eexists|exact Hrd|exact Hcl|exact Hp|exact HN|exact Hg].
Qed.
End Spec.
End ProposalSpec.

(** ** Witnesses: two signers on the toy curve *)
Module SessionWitness.
Import Seal Client ClientSpec Proposal ProposalSpec Frost.Frost BjjSuite.
#[local] Existing Instance ToyCurve.toy_curve.
#[local] Existing Instance ToyCurve.toy_laws.
#[local] Existing Instance DkgWitness.toy_hash.
#[local] Existing Instance bjjCiphersuite.
#[local] Existing Instance ToyText.toy_text.
#[local] Existing Instance ToyText.toy_text_laws.
(** A box carries a check sum of its key. *)
Definition key_sum (key : list Z) : Z := foldr Z.add 0 key mod 256.
#[export] Instance toy_aead : Aead := {|
  encrypt key nonce plaintext := Some (key_sum key :: plaintext);
  decrypt key nonce c := match c with x :: plaintext => if x =? key_sum key then Some plaintext else None | [] => None end;
  hkdf ikm info n := replicate n (foldr Z.add 0 (ikm ++ info) mod 256);
|}.
#[export] Instance toy_aead_laws : AeadLaws.
Proof.
  split.
  - intros key nonce plaintext _ _ Hp. exists (key_sum key :: plaintext). split; [done|]. split.
    + constructor; [|done]. unfold key_sum, is_byte. apply Z.mod_pos_bound. lia.
    + unfold decrypt, toy_aead. by rewrite Z.eqb_refl.
  - intros. apply length_replicate.
Qed.

Definition sid0 : string := ClientWitness.sid.
Definition key0 : list Z := deriveSessionKey [1; 2; 3] sid0.
Definition nonce0 : list Z := replicate 24 5.
Definition seal0 (v : Json) : string := match sealSessionJson nonce0 key0 v with Ok ct => ct | Err _ => "" end.
Definition proposal0 : Json := JObj [("kind", JStr "transfer"); ("proposalId", JStr "p"); ("messageHex", JStr "0x7"); ("details", JObj [])].
(** Signers of the polynomial [5 + 3 x]. *)
Definition signer (i : Z) : Signer := mkSigner i (5 + 3 * i) [i; 1] [i; 2].
Definition gpk0 : Point := scalarMul 5 generator.
Definition cs_of (ids : list Z) : list (Commitment Point) := (λ i, (round1 (signer i)).2) <$> ids.
Definition partials (ids : list Z) : list (PartialSig (G:=Point)) :=
  match map_res (round2 gpk0 (encodeMessage 7) (cs_of ids)) (signer <$> ids) with Ok ps => ps | Err _ => [] end.
Definition post (n : Z) (k : string) (v : Json) : Op := Append n (mkEnvelope sid0 n k (seal0 v)).
Definition post_nonce (n i : Z) : Op := post n "nonce" (noncePayload "p" (round1 (signer i)).2).
Definition post_share (n : Z) (p : PartialSig (G:=Point)) : Op := post n "share" (sharePayload "p" (sig_id p) (sig_z p)).
Definition shares0 : gmap string Point := list_to_map ((λ i, (pretty i, scalarMul (5 + 3 * i) generator)) <$> [1; 2; 3]).
Definition client0 (now : list Op) (later : list (list Op * Z)) : CoordinatorClient :=
  mkClient ∅ (mkWorld (foldl step [] now) 0 later).
Lemma client0_calm now later : Forall is_append (mjoin later.*1) → calm (client0 now later).
Proof. intros Ha. split; [|exact Ha]. apply run_contiguous. by intros s. Qed.
Lemma clean_check key l : forallb (λ e, match opened key e with Some JNull => false | _ => true end) l = true → clean key l.
Proof. rewrite forallb_forall. intros Hl e He%list_elem_of_In Hn. specialize (Hl e He). by rewrite Hn in Hl. Qed.

(** The second share arrives before the first, after a message of another proposal. *)
Definition toy_run : CoordinatorClient :=
  client0 [post 0 "proposal" proposal0; post_nonce 1 2]
    [([post_nonce 2 1], 1); ([], 2); ([post 3 "nonce" (noncePayload "q" (round1 (signer 3)).2)], 3);
     (post_share 4 <$> take 1 (partials [2; 1]), 4); (post_share 5 <$> drop 1 (partials [2; 1]), 5)].
Lemma aggregateProposal_completes_witness : ∃ c' sig,
  aggregateProposal (mkAggregateOptions sid0 key0 "p" gpk0 2 shares0 None) toy_run = (c', Ok (sig, encodeMessage 7, proposal0)) ∧
  verify gpk0 (encodeMessage 7) sig = true ∧ waited toy_run c'.
Proof.
  apply (aggregateProposal_completes sid0 key0 "p" gpk0 (encodeMessage 7) (cs_of [2; 1])
    (λ i, d (round1 (signer i)).1) (λ i, e (round1 (signer i)).1) [5; 3]) with
    (e := mkEnvelope sid0 0 "proposal" (seal0 proposal0)) (ps := partials [2; 1]).
  - apply (bool_decide_unpack _). vm_compute. exact I.
  - repeat constructor; vm_compute; discriminate.
  - intros c Hc. repeat (apply elem_of_cons in Hc as [->|Hc]; [split; vm_compute; reflexivity|]). by apply not_elem_of_nil in Hc.
  - vm_compute. lia.
  - vm_compute. reflexivity.
  - apply client0_calm. vm_compute. repeat constructor.
  - vm_compute. lia.
  - vm_compute. reflexivity.
  - vm_compute. reflexivity.
  - vm_compute. reflexivity.
  - apply clean_check. vm_compute. reflexivity.
  - vm_compute. reflexivity.
  - vm_compute. reflexivity.
  - assert (E : sig_id <$> partials [2; 1] = id <$> cs_of [2; 1]) by (vm_compute; reflexivity). rewrite E. reflexivity.
  - repeat (constructor; [split; [vm_compute; reflexivity|split; vm_compute; reflexivity]|]). constructor.
Defined.

(** The first signer, to whom the second has posted its commitment. *)
Definition opts0 : SignProposalOptions := mkSignOptions sid0 key0 "p" 1 8 gpk0 2 None.
Definition rnd0 : SignRandom := mkRandom [1; 1] [1; 2] nonce0 nonce0.
Definition toy_signer : CoordinatorClient := client0 [post 0 "proposal" proposal0] [([], 1); ([post_nonce 1 2], 2)].
Lemma signProposal_contributes_witness : ∃ c3 cs rest share z,
  read_commitments sid0 key0 "p" 2 c3 cs ∧
  signShareUnchecked 1 (d (round1 (signer 1)).1) (e (round1 (signer 1)).1) 8 gpk0 (encodeMessage 7) cs = Ok z ∧
  log_now sid0 (signProposal rnd0 opts0 toy_signer).1 = rest ++ [share] ∧ opened key0 share = Some (sharePayload "p" 1 z).
Proof.
  pose proof (signProposal_contributes rnd0 opts0 toy_signer (signProposal rnd0 opts0 toy_signer).1) as Ht.
  destruct Ht as (c1 & c2 & c3 & e0 & v & msg & es1 & own & cs & z & es2 & share & Hw1 & Hf & Hv & _ & Hm & _ & _ & _ & _ & _ & Hrd & _ & Hz & Hl & _ & Ho & _).
  - apply client0_calm. repeat constructor.
  - split; [reflexivity|]. apply Forall_replicate. unfold is_byte. lia.
  - split; [reflexivity|]. apply Forall_replicate. unfold is_byte. lia.
  - vm_compute. reflexivity.
  - assert (E : (signProposal rnd0 opts0 toy_signer).2 = Ok tt) by (vm_compute; reflexivity).
    destruct (signProposal rnd0 opts0 toy_signer) as [c' r]. cbn [snd fst] in *. by rewrite E.
  - assert (Hc0 : calm toy_signer) by (apply client0_calm; repeat constructor).
    destruct (waited_spec sid0 _ _ Hc0 Hw1) as (_ & _ & [k Hk] & _).
    assert (Hf0 : find (matches key0 "p") (log_now sid0 toy_signer) = Some (mkEnvelope sid0 0 "proposal" (seal0 proposal0))) by (vm_compute; reflexivity).
    change (find (matches key0 "p") (log_now sid0 c1) = Some e0) in Hf. rewrite Hk, (find_prefix _ _ k _ Hf0) in Hf. injection Hf as <-.
    assert (Hv0 : opened key0 (mkEnvelope sid0 0 "proposal" (seal0 proposal0)) = Some proposal0) by (vm_compute; reflexivity).
    change (opened key0 (mkEnvelope sid0 0 "proposal" (seal0 proposal0)) = Some v) in Hv. rewrite Hv0 in Hv. injection Hv as <-.
    assert (Hm0 : message_of proposal0 = Ok (encodeMessage 7)) by (vm_compute; reflexivity). rewrite Hm0 in Hm. injection Hm as <-.
    exists c3, cs, (log_now sid0 c3 ++ es2), share, z. rewrite <- app_assoc. split_and!; [exact Hrd|exact Hz|exact Hl|exact Ho].
Defined.

(** One commitment more than the threshold, posted after two honest signers
    signed over the two they saw: the coordinator reads three, and blames the
    first honest signer. *)
Definition late_run : CoordinatorClient :=
  client0 ([post 0 "proposal" proposal0; post_nonce 1 1; post_nonce 2 2] ++ (post_share 3 <$> take 1 (partials [1; 2]))
    ++ (post_share 4 <$> drop 1 (partials [1; 2])) ++ [post_nonce 5 3]) [].
Lemma late_commitment_blames : 
  (aggregateProposal (mkAggregateOptions sid0 key0 "p" gpk0 2 shares0 None) late_run).2 = Err (Frost_error (Share_failed 1)).
Proof. vm_compute. reflexivity. Qed.
End SessionWitness.
