(* ===== verification/Ceremony.v ===== *)
(** * The key ceremony of a group ([packages/cli/src/dkg],
    [packages/cli/src/crypto/seal.ts], [packages/cli/src/commands/group.ts])

    [Box] is the sealing between two members, [Ceremony] the two rounds over the
    coordinator: [enroll] makes the list of members out of the announces,
    [deal] a dealer's message, [conclude] a member's key out of the messages
    of all dealers.  The curve library of the identities is the class
    [Curve25519]. *)
From stdpp Require Import pretty.
From S2P Require Import Prelude Bytes Zq Tss Dkg Compliance Keys Multisig Frost Coordinator Client Text Session.
Import Coordinator.Coordinator.
Local Open Scope Z_scope.

(** ** [@noble/curves], and [Buffer.from] of values that are no texts *)
Class Curve25519 := {
  montgomeryPriv : list Z → list Z;                         (* [edwardsToMontgomeryPriv(seed)] *)
  getPublicKey : list Z → list Z;                           (* of [x25519] *)
  getSharedSecret : list Z → list Z → option (list Z);      (* [None] when it throws *)
  ed_sign : list Z → list Z → list Z;                       (* [ed25519.sign(message, seed)] *)
  ed_verify : list Z → list Z → list Z → option bool;       (* [ed25519.verify(sig, message, publicKey)] *)
  odd_buffer : Json → result TextError (list Z);
}.
(** [ed_public] is the public key of a seed. *)
Class Curve25519Laws `{Curve25519} (ed_public : list Z → list Z) : Prop := {
  shared_symmetric a b : Forall is_byte a → Forall is_byte b → ∃ k,
    getSharedSecret (montgomeryPriv a) (getPublicKey (montgomeryPriv b)) = Some k ∧
    getSharedSecret (montgomeryPriv b) (getPublicKey (montgomeryPriv a)) = Some k;
  verify_sign m seed : Forall is_byte seed → ed_verify (ed_sign m seed) m (ed_public seed) = Some true;
  public_bytes seed : Forall is_byte seed → Forall is_byte (getPublicKey (montgomeryPriv seed)) ∧ Forall is_byte (ed_public seed);
  sign_bytes m seed : Forall is_byte seed → Forall is_byte (ed_sign m seed);
}.

(** ** [seal.ts] *)
Module Box.
Import Seal.
Section Box.
Context `{Text, Aead, Curve25519}.
Record X25519KeyPair := mkKeyPair { priv : list Z; pub : list Z }.
Definition x25519FromEd25519Seed (ed25519Seed : list Z) : X25519KeyPair :=
  let priv := montgomeryPriv ed25519Seed in mkKeyPair priv (getPublicKey priv).
Definition NONCE_LEN : nat := 24.
Definition BOX_KEY_INFO_PREFIX : string := "kakure.dkg.box.v1".
Definition deriveBoxKey (shared senderPub recipientPub : list Z) (sessionId : string) : list Z :=
  let info := utf8 (BOX_KEY_INFO_PREFIX +:+ "|") ++ senderPub ++ recipientPub ++ utf8 ("|" +:+ sessionId) in
  hkdf shared info 32.
Definition sealTo (nonce myPriv recipientX25519Pub : list Z) (sessionId : string) (plaintext : list Z) : result SealError (list Z) :=
  let myPub := getPublicKey myPriv in
  match getSharedSecret myPriv recipientX25519Pub with
  | None => Err Sealing
  | Some shared =>
      let key := deriveBoxKey shared myPub recipientX25519Pub sessionId in
      match encrypt key nonce plaintext with None => Err Sealing | Some sealed => Ok (nonce ++ sealed) end
  end.
Definition openFrom (myPriv senderX25519Pub : list Z) (sessionId : string) (sealed : list Z) : result SealError (list Z) :=
  let myPub := getPublicKey myPriv in
  match getSharedSecret myPriv senderX25519Pub with
  | None => Err Sealing
  | Some shared =>
      let key := deriveBoxKey shared senderX25519Pub myPub sessionId in
      let nonce := take NONCE_LEN sealed in
      let ciphertext := drop NONCE_LEN sealed in
      match decrypt key nonce ciphertext with None => Err Sealing | Some plaintext => Ok plaintext end
  end.

(** What one member seals to another, the other opens. *)
Context {AL : AeadLaws} (ed_public : list Z → list Z) {CL : Curve25519Laws ed_public}.
Lemma open_sealed nonce seed seed' sid m : Forall is_byte seed → Forall is_byte seed' → length nonce = 24%nat → Forall is_byte nonce → Forall is_byte m →
  let a := x25519FromEd25519Seed seed in let b := x25519FromEd25519Seed seed' in
  ∃ c, sealTo nonce (priv a) (pub b) sid m = Ok c ∧ Forall is_byte c ∧ openFrom (priv b) (pub a) sid c = Ok m.
Proof.
  intros Ha Hb Hn Hnb Hm. cbn zeta. unfold x25519FromEd25519Seed. cbn [priv pub].
  destruct (shared_symmetric seed seed' Ha Hb) as (k & K1 & K2). unfold sealTo, openFrom. rewrite K1, K2.
  set (key := deriveBoxKey _ _ _ _). destruct (sealed key nonce m) as (c & Hc & Hcb & Hd); [apply hkdf_length|done|done|].
  rewrite Hc. exists (nonce ++ c). split; [done|]. split; [by apply Forall_app|].
  rewrite take_app_length', drop_app_length' by done. by rewrite Hd.
Qed.
End Box.
End Box.

(** ** [publicShare.ts] *)
Module PublicShare.
Import Bjj.
Section PublicShare.
Context `{BabyJubjub}.
Fixpoint share_at (i : Z) (commitments : list Point) (rhs : Point) (ipow : Z) : Point :=
  match commitments with
  | [] => rhs
  | com :: commitments => share_at i commitments (pointAdd rhs (scalarMul ipow com)) (modSub (ipow * i))
  end.
Definition publicShareAt (i : Z) (commitments : list Point) : Point := share_at i commitments IDENTITY 1.
Definition aggregatePublicShareAt (i : Z) (dealerCommitments : list (list Point)) : Point :=
  foldl (λ acc commitments, pointAdd acc (publicShareAt i commitments)) IDENTITY dealerCommitments.
End PublicShare.
End PublicShare.

(** ** [ceremony.ts] *)
Module Ceremony.
Import Seal Box Client Bjj Dkg Proposal.
Inductive CeremonyError :=
  | Bad_announce (who : string) | Conflicting_announce (who : string) | Wrong_count (expected : Z) (saw : nat) | Not_observed
  | Unknown_dealer (id : Z) | No_box (dealer me : Z) | Bad_dealer_signature (id : Z) | Contribution_failed (id : Z)
  | C_json (e : TextError) | C_seal (e : SealError) | C_client (e : ClientError) | C_dkg (e : DkgError)
  | C_view (e : GroupSecret.GvsError) | C_key (e : MsError).

Section Ceremony.
Context `{Text, Aead, Curve25519, BabyJubjub, Poseidon2}.
Definition ANNOUNCE_DOMAIN : string := "kakure.dkg1.v1".
Definition DEALER_DOMAIN : string := "kakure.dkg2.v1".
Definition announceSignBytes (sessionId : string) (x25519Pub : list Z) : list Z :=
  utf8 (ANNOUNCE_DOMAIN +:+ "|" +:+ sessionId +:+ "|") ++ x25519Pub.
(** [JSON.stringify] leaves out a field that is [undefined]. *)
Definition present (fields : list (string * option Json)) : list (string * Json) :=
  omap (λ f, match f.2 with Some v => Some (f.1, v) | None => None end) fields.
Definition dealerSignBytes (sessionId : string) (dealerId commitments pop : option Json) : list Z :=
  let canonical := stringify (JObj (present [("sessionId", Some (JStr sessionId)); ("dealerId", dealerId);
                                             ("commitments", commitments); ("pop", pop)])) in
  utf8 (DEALER_DOMAIN +:+ "|" +:+ canonical).

(** [fromHex] and [fromB64] of what a message holds. *)
Definition from_buffer (dec : string → list Z) (v : option Json) : result TextError (list Z) :=
  match v with
  | None | Some JNull => Err Text.Type_error
  | Some (JStr s) => Ok (dec s)
  | Some v => odd_buffer v
  end.
Definition fromHex : option Json → result TextError (list Z) := from_buffer bytes_of_hex.
Definition fromB64 : option Json → result TextError (list Z) := from_buffer of_base64.
(** [v[key]] for a numeric key: arrays and texts are indexed. *)
Definition member (key : string) (v : option Json) : result TextError (option Json) :=
  match v with
  | Some (JArr l) => Ok (snd <$> find (λ p, bool_decide (pretty (Z.of_nat p.1) = key)) (zip (List.seq 0 (length l)) l))
  | Some (JStr s) => Ok (snd <$> find (λ p, bool_decide (pretty (Z.of_nat p.1) = key))
                           (zip (List.seq 0 (String.length s)) ((λ c, JStr (String c "")) <$> String.list_ascii_of_string s)))
  | v => prop key v
  end.

Definition parse_envelope (e : Envelope) : result CeremonyError Json := map_err C_json (parse (of_utf8 (of_base64 (ciphertext e)))).
Definition of_kind (k : string) (l : list Envelope) : list Envelope := filter (λ e, kind e = k) l.

(** *** Round 1 *)
Definition Announce (edPub x25519Pub sig : list Z) : Json :=
  JObj [("kind", JStr "announce"); ("edPubHex", JStr (hex_of_bytes edPub)); ("x25519PubHex", JStr (hex_of_bytes x25519Pub)); ("sig", JStr (hex_of_bytes sig))].
Definition announce (sessionId : string) (seed edPub : list Z) : Json :=
  let my := x25519FromEd25519Seed seed in Announce edPub (pub my) (ed_sign (announceSignBytes sessionId (pub my)) seed).
(** [try { ed25519.verify(...) } catch { false }]. *)
Definition announce_ok (sessionId : string) (a : Json) : bool :=
  match (sig ← prop "sig" (Some a); sig ← fromHex sig;
         x ← prop "x25519PubHex" (Some a); x ← fromHex x;
         ed ← prop "edPubHex" (Some a); ed ← fromHex ed; Ok (sig, x, ed)) with
  | Err _ => false
  | Ok (sig, x, ed) => default false (ed_verify sig (announceSignBytes sessionId x) ed)
  end.
Fixpoint verify_announces (sessionId : string) (announces : list Json) : result CeremonyError unit :=
  match announces with
  | [] => Ok tt
  | a :: announces =>
      if announce_ok sessionId a then verify_announces sessionId announces
      else who ← map_err C_json (prop "edPubHex" (Some a)); Err (Bad_announce (text_of who))
  end.
Definition map_get (k : option Json) (m : list (option Json * Json)) : option Json :=
  snd <$> find (λ p, same_key p.1 k) m.
Fixpoint group_announces (announces : list Json) (byEdPub : list (option Json * Json)) :
    result CeremonyError (list (option Json * Json)) :=
  match announces with
  | [] => Ok byEdPub
  | a :: announces =>
      ed ← map_err C_json (prop "edPubHex" (Some a));
      conflict ← match map_get ed byEdPub with
                 | None => Ok false
                 | Some prior =>
                     x ← map_err C_json (prop "x25519PubHex" (Some prior));
                     x' ← map_err C_json (prop "x25519PubHex" (Some a));
                     Ok (negb (same_key x x'))
                 end;
      if (conflict : bool) then Err (Conflicting_announce (text_of ed))
      else group_announces announces (map_set ed a byEdPub)
  end.
(** [<] on the keys. *)
Definition key_cmp (a b : option Json * Json) : Z :=
  match String.compare (text_of a.1) (text_of b.1) with Lt => -1 | Gt => 1 | Eq => 0 end.
(** The members in the order of their ids, 1, 2, ...: identity and X25519 key. *)
Notation Roster := (list (option Json * list Z)).
Definition enroll (sessionId : string) (memberCount : Z) (announces : list Json) : result CeremonyError Roster :=
  _ ← verify_announces sessionId announces;
  byEdPub ← group_announces announces [];
  let sorted := js_sort key_cmp byEdPub in
  if negb (Z.of_nat (length sorted) =? memberCount) then Err (Wrong_count memberCount (length sorted))
  else map_res (λ p : option Json * Json, x ← map_err C_json (prop "x25519PubHex" (Some p.2)); x ← map_err C_json (fromHex x); Ok (p.1, x)) sorted.
Definition participantIds (roster : Roster) : list Z := Z.of_nat <$> List.seq 1 (length roster).
Definition id_of (edPubHex : string) (roster : Roster) : option Z :=
  (λ p : nat * _, Z.of_nat p.1 + 1) <$> list_find (λ m : option Json * list Z, same_key m.1 (Some (JStr edPubHex)) = true) roster.

(** *** Round 2 *)
(** What a dealer draws: the coefficients, the nonce of the proof, the view
    contribution, and the nonce of each box. *)
Record DealerCoins := mkCoins { coefficients : list (list Z); pop_coin : list Z; rBytes : list Z; box_nonce : Z → list Z }.
Definition commitmentsHex (c : DealerContribution) : Json := JArr (pointToHexObj <$> commitments c).
Definition popHex (p : SchnorrPoP) : Json := JObj [("r", pointToHexObj (R p)); ("z", JStr (pretty (z p)))].
Definition inner_payload (sessionId : string) (seed rBytes : list Z) (c : DealerContribution) (share : Z) : Json :=
  let sig := ed_sign (dealerSignBytes sessionId (Some (JStr (pretty (id c)))) (Some (commitmentsHex c)) (Some (popHex (pop c)))) seed in
  JObj [("commitments", commitmentsHex c); ("pop", popHex (pop c)); ("share", JStr (pretty share));
        ("r", JStr (hex_of_bytes rBytes)); ("sig", JStr (hex_of_bytes sig))].
Fixpoint seal_boxes (sessionId : string) (seed : list Z) (coins : DealerCoins) (c : DealerContribution) (ids : list Z) (roster : Roster) :
    result CeremonyError (list (string * Json)) :=
  match ids, roster with
  | i :: ids, (_, recipientX25519Pub) :: roster =>
      match shares c !! i with
      | None => seal_boxes sessionId seed coins c ids roster
      | Some share =>
          box ← map_err C_seal (sealTo (box_nonce coins i) (priv (x25519FromEd25519Seed seed)) recipientX25519Pub sessionId
                                  (utf8 (stringify (inner_payload sessionId seed (rBytes coins) c share))));
          boxes ← seal_boxes sessionId seed coins c ids roster;
          Ok ((pretty i, JStr (to_base64 box)) :: boxes)
      end
  | _, _ => Ok []
  end.
Definition deal (sessionId : string) (seed : list Z) (threshold context : Z) (coins : DealerCoins) (myId : Z) (roster : Roster) : result CeremonyError Json :=
  '(contribution, _) ← map_err C_dkg (dealerContribute myId (participantIds roster) context (take (Z.to_nat threshold) (coefficients coins)) (pop_coin coins));
  boxes ← seal_boxes sessionId seed coins contribution (participantIds roster) roster;
  Ok (JObj [("kind", JStr "dealer"); ("dealerId", JStr (pretty myId));
            ("senderX25519PubHex", JStr (hex_of_bytes (pub (x25519FromEd25519Seed seed)))); ("boxes", JObj boxes)]).

Definition json_points (v : option Json) : result TextError (list Point) :=
  match v with Some (JArr l) => map_res (λ h, hexToPoint (Some h)) l | _ => Err Text.Type_error end.
(** One dealer's message: its contribution, and its part of the view secret. *)
Definition receive_dealer (sessionId : string) (seed : list Z) (context myId : Z) (roster : Roster) (msg : Json) : result CeremonyError (DealerContribution * list Z) :=
  did ← map_err C_json (prop "dealerId" (Some msg));
  dealerId ← map_err C_json (BigInt did);
  match (if 1 <=? dealerId then roster !! Z.to_nat (dealerId - 1) else None) with
  | None => Err (Unknown_dealer dealerId)
  | Some (dealerEdPubHex, _) =>
      boxes ← map_err C_json (prop "boxes" (Some msg));
      box ← map_err C_json (member (pretty myId) boxes);
      match box with
      | None => Err (No_box dealerId myId)
      | Some box =>
          sender ← map_err C_json (prop "senderX25519PubHex" (Some msg));
          sender ← map_err C_json (fromHex sender);
          sealed ← map_err C_json (fromB64 (Some box));
          opened ← map_err C_seal (openFrom (priv (x25519FromEd25519Seed seed)) sender sessionId sealed);
          inner ← map_err C_json (parse (of_utf8 opened));
          let dealerSigOk :=
            match (sig ← prop "sig" (Some inner); sig ← fromHex sig;
                   cs ← prop "commitments" (Some inner); p ← prop "pop" (Some inner);
                   ed ← fromHex dealerEdPubHex; Ok (sig, cs, p, ed)) with
            | Err _ => false
            | Ok (sig, cs, p, ed) => default false (ed_verify sig (dealerSignBytes sessionId did cs p) ed)
            end in
          if negb dealerSigOk then Err (Bad_dealer_signature dealerId)
          else
            share ← map_err C_json (prop "share" (Some inner)); share ← map_err C_json (BigInt share);
            cs ← map_err C_json (prop "commitments" (Some inner)); cs ← map_err C_json (json_points cs);
            p ← map_err C_json (prop "pop" (Some inner));
            r ← map_err C_json (prop "r" p); r ← map_err C_json (hexToPoint r);
            zz ← map_err C_json (prop "z" p); zz ← map_err C_json (BigInt zz);
            let contribution := mkContribution dealerId cs (mkPoP r zz) {[myId := share]} in
            ok ← map_err C_dkg (verifyContribution myId contribution context);
            if negb ok then Err (Contribution_failed dealerId)
            else rv ← map_err C_json (prop "r" (Some inner)); rv ← map_err C_json (fromHex rv);
                 Ok (contribution, rv)
      end
  end.
(** A [Map] with numbers as keys. *)
Fixpoint zmap_set {A} (k : Z) (v : A) (m : list (Z * A)) : list (Z * A) :=
  match m with
  | [] => [(k, v)]
  | (k', v') :: m => if k' =? k then (k', v) :: m else (k', v') :: zmap_set k v m
  end.
Definition zmap {A} (l : list (Z * A)) : list (Z * A) := foldl (λ m p, zmap_set p.1 p.2 m) [] l.

Record DkgCeremonyResult := mkResult {
  r_sessionId : string; r_myId : Z; r_threshold : Z; r_memberCount : Z; r_participantIds : list Z; r_gpk : Point;
  r_mySecretShare : option Z; r_dealerCommitments : list (Z * list Point); r_viewContributions : list (Z * list Z) }.
Definition conclude (sessionId : string) (seed : list Z) (threshold memberCount context myId : Z) (roster : Roster) (dealerMsgs : list Json) :
    result CeremonyError DkgCeremonyResult :=
  received ← map_res (receive_dealer sessionId seed context myId roster) dealerMsgs;
  let contributions := received.*1 in
  r ← map_err C_dkg (aggregate [myId] contributions);
  Ok (mkResult sessionId myId threshold memberCount (participantIds roster) (C r) (key_shares r !! myId)
        (zmap ((λ c, (id c, commitments c)) <$> contributions)) (zmap ((λ p : DealerContribution * list Z, (id p.1, p.2)) <$> received))).

Record DkgCeremonyOptions := mkDkgOptions {
  do_sessionId : string; do_threshold : Z; do_memberCount : Z; ed25519Seed : list Z; ed25519PublicKey : list Z;
  do_context : Z; do_maxRounds : option nat }.
Notation K := (M CoordinatorClient CeremonyError).
Definition post_plain (sessionId kind : string) (v : Json) : K unit :=
  _ ← embed C_client (appendNext sessionId kind (to_base64 (utf8 (stringify v))) 20); mret tt.
Definition collect_kind (sessionId k : string) (memberCount : Z) (maxRounds : option nat) : K (list Json) :=
  all ← collectUntil C_client sessionId (λ all, Ok (memberCount <=? Z.of_nat (length (of_kind k all)))) maxRounds None;
  lift (λ e, e) (map_res parse_envelope (of_kind k all)).
Definition runDkgCeremony (coins : DealerCoins) (opts : DkgCeremonyOptions) : K DkgCeremonyResult :=
  let '(mkDkgOptions sessionId threshold memberCount seed edPub context maxRounds) := opts in
  _ ← post_plain sessionId "dkg1" (announce sessionId seed edPub);
  announces ← collect_kind sessionId "dkg1" memberCount maxRounds;
  roster ← lift (λ e, e) (enroll sessionId memberCount announces);
  match id_of (hex_of_bytes edPub) roster with
  | None => throw Not_observed
  | Some myId =>
      dealerMsg ← lift (λ e, e) (deal sessionId seed threshold context coins myId roster);
      _ ← post_plain sessionId "dkg2" dealerMsg;
      dealerMsgs ← collect_kind sessionId "dkg2" memberCount maxRounds;
      lift (λ e, e) (conclude sessionId seed threshold memberCount context myId roster dealerMsgs)
  end.

(** *** [group.ts] *)
Definition sessionContext (sessionId : string) : Z :=
  let acc := foldl (λ acc b, Z.lor (Z.shiftl acc 8) b) 0 (bytes_of_hex sessionId) in
  poseidon2 [Z.rem acc (2 ^ 251)].
(** The numeric keys of an object are listed in increasing order.  [frToString] is
    the [toString] of the field elements. *)
Definition groupRecord (frToString : Z → string) (result : DkgCeremonyResult) (share gvs : Z) (view : GroupView.GroupViewKey) : Json :=
  JObj [("sessionId", JStr (r_sessionId result)); ("threshold", JNum (r_threshold result)); ("memberCount", JNum (r_memberCount result));
        ("myId", JStr (pretty (r_myId result))); ("participantIds", JArr (JStr ∘ pretty <$> r_participantIds result));
        ("gpk", pointToHexObj (r_gpk result)); ("mySecretShare", JStr (pretty share));
        ("groupViewKey", JObj [("gvs", JStr (frToString gvs)); ("v", JStr (frToString (GroupView.vk_v view)));
                               ("V", pointToHexObj (GroupView.vk_V view)); ("roll", JStr (pretty (GroupView.vk_roll view)))]);
        ("dealerCommitments", JObj ((λ p : Z * list Point, (pretty p.1, JArr (pointToHexObj <$> p.2))) <$> order_by fst (r_dealerCommitments result)))].
(** Up to the writing of the record's file; the session id is given or drawn.
    [sha256] is that of [@noble/hashes]. *)
Definition runGroupCeremony (sha256 : list Z → list Z) (frToString : Z → string) (coins : DealerCoins) (sessionId : string) (threshold memberCount : Z) (seed edPub : list Z)
    (maxRounds : option nat) : K Json :=
  let context := sessionContext sessionId in
  result ← runDkgCeremony coins (mkDkgOptions sessionId threshold memberCount seed edPub context maxRounds);
  let gpk := r_gpk result in
  let contribs := (λ p : Z * list Z, GroupSecret.mkGvc p.1 p.2) <$> r_viewContributions result in
  gvs ← lift C_view (GroupSecret.combineGroupViewContributions sha256 contribs gpk);
  groupView ← lift C_key (GroupView.deriveGroupViewKeyFromSecret gvs gpk);
  match r_mySecretShare result with
  | None => throw (C_json Text.Type_error)
  | Some share => mret (groupRecord frToString result share gvs groupView)
  end.
End Ceremony.
End Ceremony.

(** ** Honest members end with one key *)
Module CeremonySpec.
Import Seal Box Client ClientSpec Bjj Shamir Vss Dkg Proposal ProposalSpec PublicShare Ceremony.
Section Spec.
Context `{Text, Aead, Curve25519, BabyJubjub, Poseidon2}.
Context {TL : TextLaws} {AL : AeadLaws} (ed_public : list Z → list Z) {CL : Curve25519Laws ed_public} {BL : BabyJubjubLaws}.

Lemma map_res_Forall2 {E A B} (f : A → result E B) l k : Forall2 (λ x y, f x = Ok y) l k → map_res f l = Ok k.
Proof. induction 1 as [|x y l k Hx _ IH]; [done|]. cbn [map_res]. by rewrite Hx, IH. Qed.
Lemma lookup_field_nodup fields i k v : NoDup fields.*1 → fields !! i = Some (k, v) → lookup_field k fields = Some v.
Proof.
  intros Hd Hi. unfold lookup_field. assert (Hf : filter (λ f, f.1 = k) fields = [(k, v)]).
  { revert i Hd Hi. induction fields as [|[k' v'] fields IH]; intros [|i] Hd Hi; [done|done| |]; rewrite fmap_cons, NoDup_cons in Hd; destruct Hd as [Hn Hd].
    - injection Hi as -> ->. rewrite filter_cons_True by done. f_equal. cbn in Hn. clear -Hn. induction fields as [|f fields IH]; [done|].
      rewrite fmap_cons, not_elem_of_cons in Hn. destruct Hn as [Hne Hn]. rewrite filter_cons_False by (intros E; by apply Hne). by apply IH.
    - cbn in Hi. rewrite filter_cons_False; [by eapply IH|]. cbn. intros ->. apply Hn. apply list_elem_of_fmap. exists (k, v). split; [done|].
      by eapply list_elem_of_lookup_2. }
  by rewrite Hf.
Qed.
Lemma seq_increasing a n : StronglySorted lt (List.seq a n).
Proof.
  revert a. induction n as [|n IH]; intros a; [constructor|]. constructor; [apply IH|]. apply Forall_forall. intros x. rewrite elem_of_seq. lia.
Qed.
Lemma fromHex_hex l : Forall is_byte l → fromHex (Some (JStr (hex_of_bytes l))) = Ok l.
Proof. intros Hl. unfold fromHex, from_buffer. by rewrite bytes_of_hex_of_bytes. Qed.
Lemma fromB64_b64 l : Forall is_byte l → fromB64 (Some (JStr (to_base64 l))) = Ok l.
Proof. intros Hl. unfold fromB64, from_buffer. by rewrite of_to_base64. Qed.
Lemma read_back v : plain v → parse (of_utf8 (utf8 (stringify v))) = Ok v.
Proof. intros Hv. by rewrite of_utf8_utf8, parse_stringify. Qed.

(** *** Public shares *)
Lemma share_at_spec i coeffs r ipow : share_at i (feldmanCommit coeffs) (scalarBaseMul r) ipow = scalarBaseMul (r + ipow * peval coeffs i).
Proof.
  rewrite <- verify_loop_spec. generalize (scalarBaseMul r). revert ipow. generalize (feldmanCommit coeffs) as l.
  induction l as [|com l IH]; intros ipow p; [done|]. cbn [share_at verify_loop]. apply IH.
Qed.
Lemma publicShareAt_spec i coeffs : publicShareAt i (feldmanCommit coeffs) = scalarBaseMul (peval coeffs i).
Proof. unfold publicShareAt. rewrite <- gen_zero, share_at_spec. f_equal. lia. Qed.
Lemma aggregatePublicShareAt_spec i polys : aggregatePublicShareAt i (feldmanCommit <$> polys) = scalarBaseMul (peval (sum_poly polys) i).
Proof.
  unfold aggregatePublicShareAt. rewrite <- gen_zero. rewrite peval_sum_poly.
  rewrite <- (Z.add_0_l (sumZ _ polys)). generalize 0 as a. induction polys as [|f polys IH]; intros a.
  { cbn. by rewrite Z.add_0_r. }
  rewrite fmap_cons. cbn [foldl]. rewrite publicShareAt_spec, gen_add, IH, sumZ_cons. f_equal. lia.
Qed.

(** *** A dealer's message *)
Definition proper_nonce (n : list Z) : Prop := length n = 24%nat ∧ Forall is_byte n.
Record Member := mkMember { m_seed : list Z; m_coins : DealerCoins }.
Definition entry_of (m : Member) : option Json * list Z :=
  (Some (JStr (hex_of_bytes (ed_public (m_seed m)))), pub (x25519FromEd25519Seed (m_seed m))).
Definition roster_of (group : list Member) : list (option Json * list Z) := entry_of <$> group.
Definition poly_of (m : Member) : list Z := randScalar <$> coefficients (m_coins m).
(** Seeds, nonces and view contributions are bytes; [t] coefficients are drawn. *)
Definition ready (t : nat) (m : Member) : Prop :=
  Forall is_byte (m_seed m) ∧ length (coefficients (m_coins m)) = t ∧ (∀ i, proper_nonce (box_nonce (m_coins m) i)) ∧ Forall is_byte (rBytes (m_coins m)).
Context (sid : string) (context : Z).
Definition contribution_of (n : nat) (k : nat) (m : Member) : DealerContribution :=
  mkContribution (Z.of_nat k + 1) (feldmanCommit (poly_of m))
    (provePoP (Z.of_nat k + 1) context (default 0 (head (poly_of m))) (scalarBaseMul (default 0 (head (poly_of m)))) (pop_coin (m_coins m)))
    (share_map (poly_of m) (Z.of_nat <$> List.seq 1 n)).
Definition payload (n k : nat) (m : Member) (share : Z) : Json := inner_payload sid (m_seed m) (rBytes (m_coins m)) (contribution_of n k m) share.
Lemma plain_payload n k m share : plain (payload n k m share).
Proof.
  apply plain_obj_strs; [apply (bool_decide_unpack _); by vm_compute|by repeat constructor|].
  constructor; [|constructor; [|by repeat constructor]].
  - constructor. intros v (p & -> & _)%list_elem_of_fmap. apply plain_point.
  - apply plain_obj_strs; [apply (bool_decide_unpack _); by vm_compute|by repeat constructor|].
    constructor; [apply plain_point|by repeat constructor].
Qed.

Lemma seal_boxes_spec t n k m ids ms : ready t m → Forall (ready t) ms → length ids = length ms → (∀ i, i ∈ ids → i ∈ Z.of_nat <$> List.seq 1 n) →
  ∃ boxes, seal_boxes sid (m_seed m) (m_coins m) (contribution_of n k m) ids (roster_of ms) = Ok boxes ∧ boxes.*1 = pretty <$> ids ∧
    Forall plain boxes.*2 ∧
    ∀ p i m', ids !! p = Some i → ms !! p = Some m' → ∃ box, boxes !! p = Some (pretty i, JStr (to_base64 box)) ∧ Forall is_byte box ∧
      openFrom (priv (x25519FromEd25519Seed (m_seed m'))) (pub (x25519FromEd25519Seed (m_seed m))) sid box
      = Ok (utf8 (stringify (payload n k m (polyEval (poly_of m) i)))).
Proof.
  intros Hm. revert ms. induction ids as [|i ids IH]; intros [|m' ms] Hms Hlen Hin; [|done|done|].
  { exists []. split; [done|]. split; [done|]. split; [constructor|]. by intros []. }
  apply Forall_cons in Hms as [Hm' Hms]. cbn [seal_boxes roster_of fmap list_fmap entry_of]. cbn [shares contribution_of].
  rewrite share_map_lookup by (apply Hin; left).
  destruct Hm as (Hs & _ & Hn & _). destruct Hm' as (Hs' & _). destruct (Hn i) as [Hn1 Hn2].
  destruct (open_sealed ed_public (box_nonce (m_coins m) i) (m_seed m) (m_seed m') sid
    (utf8 (stringify (payload n k m (polyEval (poly_of m) i)))) Hs Hs' Hn1 Hn2 (utf8_bytes _)) as (box & Hbox & Hbb & Hop).
  fold (payload n k m (polyEval (poly_of m) i)). rewrite Hbox. cbn [map_err mbind result_bind].
  destruct (IH ms Hms) as (boxes & Hr & Hk & Hp & Hb); [by injection Hlen|by intros; apply Hin; right|].
  change (entry_of <$> ms) with (roster_of ms). fold (contribution_of n k m). rewrite Hr. cbn [mbind result_bind]. eexists. split; [done|]. split; [by rewrite !fmap_cons, Hk|].
  split; [rewrite fmap_cons; by constructor; [constructor|]|].
  intros [|p] j m'' Hj Hm''; [|by apply Hb]. injection Hj as <-. injection Hm'' as <-. eauto.
Qed.

Context (t : nat) (Ht : (0 < t)%nat) (group : list Member) (Hgroup : Forall (ready t) group).
Notation n := (length group).
Notation roster := (roster_of group).
Lemma participantIds_roster : participantIds roster = Z.of_nat <$> List.seq 1 n.
Proof. unfold participantIds, roster_of. by rewrite length_fmap. Qed.
Lemma id_in k m : group !! k = Some m → Z.of_nat k + 1 ∈ Z.of_nat <$> List.seq 1 n.
Proof.
  intros Hk%lookup_lt_Some. apply list_elem_of_fmap. exists (S k). split; [lia|]. apply elem_of_seq. lia.
Qed.
Lemma poly_nonempty m : ready t m → ∃ c0 cs, poly_of m = c0 :: cs.
Proof.
  intros (_ & Hl & _). unfold poly_of. destruct (coefficients (m_coins m)) as [|x l]; [cbn in Hl; lia|]. by eexists _, _.
Qed.
(** The message of the [k]-th member: its boxes are for the members in order. *)
Definition dealt (k : nat) (m : Member) (msg : Json) : Prop :=
  deal sid (m_seed m) (Z.of_nat t) context (m_coins m) (Z.of_nat k + 1) roster = Ok msg ∧ plain msg ∧
  ∃ boxes, msg = JObj [("kind", JStr "dealer"); ("dealerId", JStr (pretty (Z.of_nat k + 1)));
                       ("senderX25519PubHex", JStr (hex_of_bytes (pub (x25519FromEd25519Seed (m_seed m))))); ("boxes", JObj boxes)] ∧
    NoDup boxes.*1 ∧
    ∀ p m', group !! p = Some m' → ∃ box, boxes !! p = Some (pretty (Z.of_nat p + 1), JStr (to_base64 box)) ∧ Forall is_byte box ∧
      openFrom (priv (x25519FromEd25519Seed (m_seed m'))) (pub (x25519FromEd25519Seed (m_seed m))) sid box
      = Ok (utf8 (stringify (payload n k m (polyEval (poly_of m) (Z.of_nat p + 1))))).
Lemma deal_spec k m : group !! k = Some m → ∃ msg, dealt k m msg.
Proof.
  intros Hk. assert (Hm : ready t m) by (rewrite Forall_lookup in Hgroup; by eapply Hgroup).
  destruct (seal_boxes_spec t n k m (Z.of_nat <$> List.seq 1 n) group Hm Hgroup) as (boxes & Hb & Hkeys & Hplain & Hbox).
  { by rewrite length_fmap, length_seq. } { done. }
  assert (Hdc : dealerContribute (Z.of_nat k + 1) (participantIds roster) context (take (Z.to_nat (Z.of_nat t)) (coefficients (m_coins m))) (pop_coin (m_coins m))
    = Ok (contribution_of n k m, default 0 (head (poly_of m)))).
  { destruct Hm as (_ & Hl & _). rewrite Nat2Z.id, take_ge, participantIds_roster by lia. unfold contribution_of, poly_of in *.
    destruct (coefficients (m_coins m)) as [|x l]; [cbn in Hl; lia|]. done. }
  assert (HD : NoDup boxes.*1).
  { rewrite Hkeys, <- list_fmap_compose. apply (NoDup_pretty Z.of_nat); [by apply Forall_true; lia|]. apply NoDup_fmap_2; [apply _|apply NoDup_seq]. }
  eexists. unfold dealt. split; [|split; [|exists boxes; split; [reflexivity|split; [done|]]]].
  - unfold deal. rewrite Hdc. cbn [map_err mbind result_bind]. rewrite participantIds_roster, Hb. reflexivity.
  - apply plain_obj_strs; [apply (bool_decide_unpack _); by vm_compute|by repeat constructor|].
    repeat (constructor; [constructor|]); [done|right|by apply Forall_forall|constructor].
    exists (List.seq 1 n). split; [apply seq_increasing|]. by rewrite Hkeys, <- list_fmap_compose.
  - intros p m' Hp. apply Hbox; [|done]. pose proof (lookup_lt_Some _ _ _ Hp). rewrite list_lookup_fmap, lookup_seq_lt by lia. cbn. f_equal. lia.
Qed.

(** What member [j] makes of it. *)
Definition received (j : Z) (k : nat) (m : Member) : DealerContribution * list Z :=
  (mkContribution (Z.of_nat k + 1) (feldmanCommit (poly_of m)) (pop (contribution_of n k m)) {[j := polyEval (poly_of m) j]}, rBytes (m_coins m)).
Lemma received_verifies j k m : ready t m → verifyContribution j (received j k m).1 context = Ok true.
Proof.
  intros Hm. destruct (poly_nonempty m Hm) as (c0 & cs & Hp). unfold verifyContribution, received, contribution_of. cbn [fst commitments shares pop id].
  rewrite Hp. destruct (feldmanCommit (c0 :: cs)) as [|com coms] eqn:Hc; [done|]. rewrite lookup_singleton_eq, <- Hc.
  rewrite (proj2 (feldmanVerifyShare_iff j _ (c0 :: cs))) by (apply modSub_small, polyEval_bound). cbn [negb head default]. apply verifyPoP_honest.
Qed.
Lemma json_points_spec coeffs : json_points (Some (JArr (pointToHexObj <$> feldmanCommit coeffs))) = Ok (feldmanCommit coeffs).
Proof.
  unfold json_points. apply map_res_Forall2, Forall2_fmap_l, Forall_Forall2_diag. unfold feldmanCommit. apply Forall_fmap, Forall_true.
  intros c. apply hexToPoint_hex, gen_canonical.
Qed.
Lemma receive_dealt j mj k m msg : group !! j = Some mj → group !! k = Some m → dealt k m msg →
  receive_dealer sid (m_seed mj) context (Z.of_nat j + 1) roster msg = Ok (received (Z.of_nat j + 1) k m).
Proof.
  intros Hj Hk (_ & _ & boxes & -> & HD & Hbox). rewrite Forall_lookup in Hgroup.
  pose proof (Hgroup _ _ Hj) as Hrj. pose proof (Hgroup _ _ Hk) as Hrk. destruct (Hbox j mj Hj) as (box & Hb & Hbb & Hop).
  unfold receive_dealer. change (prop "dealerId" _) with (Ok (Some (JStr (pretty (Z.of_nat k + 1)))) : result TextError (option Json)).
  cbn [map_err mbind result_bind]. rewrite BigInt_pretty by lia. cbn [map_err mbind result_bind].
  rewrite (proj2 (Z.leb_le _ _)) by lia. replace (Z.to_nat (Z.of_nat k + 1 - 1)) with k by lia.
  unfold roster_of. rewrite list_lookup_fmap, Hk. cbn [fmap option_fmap option_map entry_of].
  change (prop "boxes" _) with (Ok (Some (JObj boxes)) : result TextError (option Json)). cbn [map_err mbind result_bind].
  change (member _ (Some (JObj boxes))) with (Ok (lookup_field (pretty (Z.of_nat j + 1)) boxes) : result TextError (option Json)).
  rewrite (lookup_field_nodup _ _ _ _ HD Hb). cbn [map_err mbind result_bind].
  change (prop "senderX25519PubHex" _) with (Ok (Some (JStr (hex_of_bytes (pub (x25519FromEd25519Seed (m_seed m)))))) : result TextError (option Json)).
  destruct Hrk as (Hsk & Hlk & _ & Hrb). destruct (public_bytes (m_seed m) Hsk) as [Hpb Hedb]. cbn [map_err mbind result_bind].
  rewrite (fromHex_hex (pub (x25519FromEd25519Seed (m_seed m)))) by exact Hpb. cbn [map_err mbind result_bind]. rewrite fromB64_b64 by done. cbn [map_err mbind result_bind].
  rewrite Hop. cbn [map_err mbind result_bind]. rewrite read_back by apply plain_payload. cbn [map_err mbind result_bind].
  set (sg := dealerSignBytes sid (Some (JStr (pretty (Z.of_nat k + 1)))) (Some (commitmentsHex (contribution_of n k m))) (Some (popHex (pop (contribution_of n k m))))).
  change (prop "sig" _) with (Ok (Some (JStr (hex_of_bytes (ed_sign sg (m_seed m))))) : result TextError (option Json)).
  change (prop "commitments" _) with (Ok (Some (commitmentsHex (contribution_of n k m))) : result TextError (option Json)).
  change (prop "pop" _) with (Ok (Some (popHex (pop (contribution_of n k m)))) : result TextError (option Json)).
  change (prop "share" _) with (Ok (Some (JStr (pretty (polyEval (poly_of m) (Z.of_nat j + 1))))) : result TextError (option Json)).
  change (prop "r" (Some (payload _ _ _ _))) with (Ok (Some (JStr (hex_of_bytes (rBytes (m_coins m))))) : result TextError (option Json)).
  cbn [map_err mbind result_bind]. rewrite !fromHex_hex by (done || by apply sign_bytes). cbn [map_err mbind result_bind].
  fold sg. rewrite verify_sign by done. cbn [default negb]. rewrite BigInt_pretty by apply polyEval_bound. cbn [map_err mbind result_bind].
  unfold commitmentsHex at 1. cbn [commitments contribution_of]. rewrite json_points_spec. cbn [map_err mbind result_bind].
  unfold popHex. change (prop "r" _) with (Ok (Some (pointToHexObj (R (pop (contribution_of n k m))))) : result TextError (option Json)).
  change (prop "z" _) with (Ok (Some (JStr (pretty (z (pop (contribution_of n k m)))))) : result TextError (option Json)).
  cbn [map_err mbind result_bind]. rewrite hexToPoint_hex by apply gen_canonical. cbn [map_err mbind result_bind].
  rewrite BigInt_pretty by apply modSub_bound. cbn [map_err mbind result_bind].
  pose proof (received_verifies (Z.of_nat j + 1) k m (Hgroup _ _ Hk)) as Hv. unfold received in Hv. cbn [fst] in Hv.
  replace (mkPoP (R (pop (contribution_of n k m))) (z (pop (contribution_of n k m)))) with (pop (contribution_of n k m)) by by destruct (pop (contribution_of n k m)).
  rewrite Hv. cbn [map_err mbind result_bind negb]. reflexivity.
Qed.

Lemma zmap_set_fresh {A} k (v : A) m : k ∉ m.*1 → zmap_set k v m = m ++ [(k, v)].
Proof.
  induction m as [|[k' v'] m IH]; [done|]. rewrite fmap_cons, not_elem_of_cons. intros [Hne Hn]. cbn in *.
  rewrite (proj2 (Z.eqb_neq _ _)), IH by done. done.
Qed.
Lemma zmap_nodup {A} (l : list (Z * A)) : NoDup l.*1 → zmap l = l.
Proof.
  unfold zmap. change l with ([] ++ l) at 1 3. generalize (@nil (Z * A)) as m.
  induction l as [|[k v] l IH]; intros m; [by rewrite app_nil_r|]. intros Hd. cbn [foldl fst snd]. rewrite fmap_app, fmap_cons, NoDup_app in Hd.
  destruct Hd as (Hm & Hno & Hl). rewrite zmap_set_fresh by (intros Hin; apply (Hno _ Hin); left).
  rewrite (IH (m ++ [(k, v)])); [by rewrite <- app_assoc|]. rewrite <- app_assoc. cbn [app].
  rewrite fmap_app, fmap_cons, NoDup_app. done.
Qed.
Lemma elem_of_numbered k m : (k, m) ∈ zip (List.seq 0 n) group → group !! k = Some m.
Proof.
  intros (p & Hp)%list_elem_of_lookup_1. apply lookup_zip_with_Some in Hp as (a & b & [= -> ->] & Ha & Hb).
  apply lookup_seq in Ha as [-> _]. done.
Qed.
Lemma sum_poly_perm polys polys' x : polys ≡ₚ polys' → peval (sum_poly polys) x = peval (sum_poly polys') x.
Proof. intros Hp. rewrite !peval_sum_poly. by apply sumZ_perm. Qed.
Lemma polyEval_ext f g x : peval f x = peval g x → polyEval f x = polyEval g x.
Proof.
  intros E. apply (eqm_small SUBORDER); [apply polyEval_bound..|]. rewrite !polyEval_peval. by apply eqm_of_eq.
Qed.

(** C7. The members of a group agree: when they are enrolled in one order, a
    dealer's message always exists and comes back out of its envelope
    unchanged, and whoever concludes the ceremony from all messages, in
    whatever order they arrived, accepts every dealer and gets one and the same
    group key, its value of one polynomial of at most [t] coefficients whose
    constant is the secret of that key, commitments from which the public
    share of every member can be computed, and every view contribution. *)
Theorem ceremony_agrees :
  ∃ F, (length F <= t)%nat ∧
  (∀ k m, group !! k = Some m → ∃ msg,
    deal sid (m_seed m) (Z.of_nat t) context (m_coins m) (Z.of_nat k + 1) roster = Ok msg ∧
    ∀ e, ciphertext e = to_base64 (utf8 (stringify msg)) → parse_envelope e = Ok msg) ∧
  ∀ j mj arrival msgs memberCount, group !! j = Some mj → arrival ≡ₚ zip (List.seq 0 n) group →
    Forall2 (λ km msg, deal sid (m_seed km.2) (Z.of_nat t) context (m_coins km.2) (Z.of_nat km.1 + 1) roster = Ok msg) arrival msgs →
    ∃ r, conclude sid (m_seed mj) (Z.of_nat t) memberCount context (Z.of_nat j + 1) roster msgs = Ok r ∧
      r_gpk r = scalarBaseMul (peval F 0) ∧ r_mySecretShare r = Some (polyEval F (Z.of_nat j + 1)) ∧
      (∀ i, aggregatePublicShareAt i (r_dealerCommitments r).*2 = scalarBaseMul (peval F i)) ∧
      r_viewContributions r ≡ₚ (λ km : nat * Member, (Z.of_nat km.1 + 1, rBytes (m_coins km.2))) <$> zip (List.seq 0 n) group.
Proof.
  assert (Hready : ∀ k m, group !! k = Some m → ready t m) by (rewrite Forall_lookup in Hgroup; done).
  exists (sum_poly (poly_of <$> group)). split.
  { apply length_sum_poly, Forall_fmap. eapply Forall_impl; [exact Hgroup|]. intros m (_ & Hl & _). cbn. unfold poly_of. by rewrite length_fmap, Hl. }
  split.
  { intros k m Hk. destruct (deal_spec k m Hk) as (msg & Hd & Hp & _). exists msg. split; [done|]. intros e He.
    unfold parse_envelope. rewrite He, of_to_base64, read_back by (done || apply utf8_bytes). done. }
  intros j mj arrival msgs mc Hj Harr Hmsgs. set (me := Z.of_nat j + 1).
  assert (Hin : ∀ km, km ∈ arrival → group !! km.1 = Some km.2) by (intros [k m]; rewrite Harr; apply elem_of_numbered).
  set (rs := (λ km : nat * Member, received me km.1 km.2) <$> arrival).
  assert (Hrs : map_res (receive_dealer sid (m_seed mj) context me roster) msgs = Ok rs).
  { apply map_res_Forall2. unfold rs. apply Forall2_fmap_r. apply Forall2_flip. apply Forall2_same_length_lookup_2; [by eapply Forall2_length|].
    intros p km msg Hkm Hmsg. assert (Hd : deal sid (m_seed km.2) (Z.of_nat t) context (m_coins km.2) (Z.of_nat km.1 + 1) roster = Ok msg) by exact (Forall2_lookup_lr _ _ _ p _ _ Hmsgs Hkm Hmsg).
    pose proof (Hin km (list_elem_of_lookup_2 _ _ _ Hkm)) as Hk. destruct (deal_spec _ _ Hk) as (msg' & Hd').
    assert (msg' = msg) as -> by (destruct Hd' as [Hd' _]; rewrite Hd in Hd'; by injection Hd'). by apply receive_dealt. }
  set (polys := (λ km : nat * Member, poly_of km.2) <$> arrival).
  assert (Hsnd : arrival.*2 ≡ₚ group) by (rewrite Harr, snd_zip by (rewrite length_seq; lia); done).
  assert (Hfst : arrival.*1 ≡ₚ List.seq 0 n) by (rewrite Harr, fst_zip by (rewrite length_seq; lia); done).
  assert (Hpolys : polys ≡ₚ poly_of <$> group) by (rewrite <- Hsnd, <- list_fmap_compose; done).
  destruct (aggregate_spec [me] rs.*1 polys) as (r & Hr & HC & _ & Hsh).
  { unfold rs, polys. rewrite <- list_fmap_compose. apply Forall2_fmap, Forall_Forall2_diag, Forall_forall. intros km Hkm.
    destruct (poly_nonempty km.2 (Hready _ _ (Hin _ Hkm))) as (c0 & cs & E). split; [done|]. by rewrite E. }
  { intros i ->%list_elem_of_singleton. unfold rs, polys. rewrite <- list_fmap_compose. apply Forall2_fmap, Forall_Forall2_diag, Forall_forall. intros km Hkm.
    exists (polyEval (poly_of km.2) me). split; [apply lookup_singleton_eq|apply polyEval_peval]. }
  eexists. unfold conclude. fold me. rewrite Hrs. cbn [mbind result_bind]. rewrite Hr. cbn [map_err mbind result_bind].
  split; [reflexivity|]. cbn [r_gpk r_mySecretShare r_dealerCommitments r_viewContributions].
  assert (HN : NoDup ((λ km : nat * Member, Z.of_nat km.1 + 1) <$> arrival)).
  { change (λ km : nat * Member, Z.of_nat km.1 + 1) with ((λ k, Z.of_nat k + 1) ∘ (fst : nat * Member → nat)).
    rewrite list_fmap_compose. apply NoDup_fmap_2; [intros x y; lia|]. rewrite Hfst. apply NoDup_seq. }
  split; [by rewrite HC, (sum_poly_perm _ _ _ Hpolys)|]. split.
  { destruct (Hsh me) as [-> _]; [by left|]. f_equal. apply polyEval_ext, (sum_poly_perm _ _ _ Hpolys). }
  split.
  - intros i. rewrite zmap_nodup by (unfold rs; rewrite <- !list_fmap_compose; exact HN). unfold rs. rewrite <- !list_fmap_compose.
    rewrite <- (sum_poly_perm _ _ _ Hpolys), <- aggregatePublicShareAt_spec. unfold polys. by rewrite <- list_fmap_compose.
  - rewrite zmap_nodup by (unfold rs; rewrite <- !list_fmap_compose; exact HN). unfold rs. rewrite <- !list_fmap_compose. by rewrite <- Harr.
Qed.
End Spec.

(** *** Enrolment *)
Section Enrol.
Context `{Text, Aead, Curve25519, BabyJubjub, Poseidon2}.
Lemma string_compare_trans a b c : String.compare a b ≠ Gt → String.compare b c ≠ Gt → String.compare a c ≠ Gt.
Proof.
  revert b c. induction a as [|x a IH]; intros [|y b] [|w c]; try done. cbn.
  unfold Ascii.compare. destruct (N.compare_spec (N_of_ascii x) (N_of_ascii y)) as [E1|L1|G1]; [|..|done];
    destruct (N.compare_spec (N_of_ascii y) (N_of_ascii w)) as [E2|L2|G2]; try done;
    destruct (N.compare_spec (N_of_ascii x) (N_of_ascii w)) as [E3|L3|G3]; try done; try lia. apply IH.
Qed.
Lemma key_cmp_le a b : key_cmp a b <= 0 ↔ String.compare (text_of a.1) (text_of b.1) ≠ Gt.
Proof. unfold key_cmp. destruct (String.compare _ _); split; (done || lia). Qed.
Lemma key_cmp_total a b : ~ (key_cmp a b <= 0) → key_cmp b a <= 0.
Proof.
  rewrite !key_cmp_le, (String.compare_antisym (text_of b.1)). destruct (String.compare (text_of a.1) (text_of b.1)); cbn; intros Hn; first [discriminate|by destruct Hn].
Qed.
Lemma key_cmp_trans a b c : key_cmp a b <= 0 → key_cmp b c <= 0 → key_cmp a c <= 0.
Proof. rewrite !key_cmp_le. apply string_compare_trans. Qed.
Lemma key_cmp_antisym a b : key_cmp a b <= 0 → key_cmp b a <= 0 → text_of a.1 = text_of b.1.
Proof.
  rewrite !key_cmp_le, (String.compare_antisym (text_of b.1)). destruct (String.compare (text_of a.1) (text_of b.1)) eqn:E; cbn; try done.
  intros _ _. by apply String.compare_eq_iff.
Qed.

(** What an announce says, as texts. *)
Definition field_of (k : string) (a : Json) : string := match prop k (Some a) with Ok v => text_of v | Err _ => "" end.
Notation ed_of := (field_of "edPubHex").
Notation x_of := (field_of "x25519PubHex").
Definition key_of (a : Json) : option Json := Some (JStr (ed_of a)).
Definition texts (a : Json) : Prop := prop "edPubHex" (Some a) = Ok (key_of a) ∧ prop "x25519PubHex" (Some a) = Ok (Some (JStr (x_of a))).

Lemma same_key_text k s : same_key k (Some (JStr s)) = true ↔ k = Some (JStr s).
Proof. destruct k as [[]|]; cbn; split; try done; [by intros ->%bool_decide_eq_true|by intros [= ->]; apply bool_decide_eq_true_2]. Qed.
Lemma map_get_Some s m v : map_get (Some (JStr s)) m = Some v → (Some (JStr s), v) ∈ m.
Proof.
  unfold map_get. destruct (find _ m) as [[k v']|] eqn:Hf; [|done]. intros [= <-]. apply find_some in Hf as [Hin Hk].
  apply same_key_text in Hk. cbn in Hk. subst k. by apply list_elem_of_In.
Qed.
Lemma map_get_None s m v : map_get (Some (JStr s)) m = None → (Some (JStr s), v) ∉ m.
Proof.
  unfold map_get. destruct (find _ m) as [p|] eqn:Hf; [done|]. intros _ Hin%list_elem_of_In. pose proof (find_none _ _ Hf _ Hin) as Hk.
  cbn in Hk. by rewrite bool_decide_eq_true_2 in Hk.
Qed.
Lemma json_map_keys s v m : (map_set (Some (JStr s)) v m).*1 = m.*1 ∨
  Some (JStr s) ∉ m.*1 ∧ (map_set (Some (JStr s)) v m).*1 = m.*1 ++ [Some (JStr s)].
Proof.
  induction m as [|[k' v'] m IH]; [right; by split; [apply not_elem_of_nil|]|]. cbn [map_set]. destruct (same_key k' (Some (JStr s))) eqn:Hk; [by left|].
  assert (k' ≠ Some (JStr s)) by (intros ->; rewrite (proj2 (same_key_text _ s)) in Hk; done). rewrite !fmap_cons. cbn [fst].
  destruct IH as [->|[Hn ->]]; [by left|right]. split; [|done]. intros [|]%elem_of_cons; done.
Qed.
Lemma map_set_elem s v m k' v' : NoDup m.*1 →
  (k', v') ∈ map_set (Some (JStr s)) v m ↔ (k' = Some (JStr s) ∧ v' = v) ∨ (k' ≠ Some (JStr s) ∧ (k', v') ∈ m).
Proof.
  induction m as [|[k0 v0] m IH]; intros Hd; cbn [map_set].
  - rewrite list_elem_of_singleton, elem_of_nil. naive_solver.
  - rewrite fmap_cons, NoDup_cons in Hd. destruct Hd as [Hn Hd]. cbn in Hn. destruct (same_key k0 (Some (JStr s))) eqn:Hk.
    + apply same_key_text in Hk as ->. rewrite !elem_of_cons. split.
      * intros [[= -> ->]|Hin]; [by left|]. right. split; [|by right]. intros ->. apply Hn, list_elem_of_fmap. by exists (Some (JStr s), v').
      * intros [[-> ->]|[Hne [[= -> ->]|Hin]]]; [by left|done|by right].
    + assert (k0 ≠ Some (JStr s)) by (intros ->; rewrite (proj2 (same_key_text _ s)) in Hk; done).
      rewrite !elem_of_cons, (IH Hd). naive_solver.
Qed.

(** The map of the identities seen so far. *)
Definition grouped (m : list (option Json * Json)) (seen : list Json) : Prop :=
  NoDup m.*1 ∧ (∀ k v, (k, v) ∈ m → v ∈ seen ∧ k = key_of v) ∧ (∀ a, a ∈ seen → ∃ v, (key_of a, v) ∈ m ∧ x_of v = x_of a).
Definition agreeing (l : list Json) : Prop := ∀ a b, a ∈ l → b ∈ l → ed_of a = ed_of b → x_of a = x_of b.
Lemma grouped_unique m seen k v v' : grouped m seen → (k, v) ∈ m → (k, v') ∈ m → v = v'.
Proof. intros (Hd & _) H1' H2'. by injection (NoDup_fmap_inj_on fst m (k, v) (k, v') Hd H1' H2' eq_refl). Qed.
Lemma grouped_agreeing m seen : grouped m seen → agreeing seen.
Proof.
  intros Hg a b Ha Hb E. pose proof Hg as (_ & _ & Hs). destruct (Hs a Ha) as (v & Hv & <-). destruct (Hs b Hb) as (v' & Hv' & <-).
  unfold key_of in Hv. rewrite E in Hv. by rewrite (grouped_unique m seen _ _ _ Hg Hv Hv').
Qed.
Lemma grouped_set m seen a : grouped m seen → (∀ v, (key_of a, v) ∈ m → x_of v = x_of a) → grouped (map_set (key_of a) a m) (seen ++ [a]).
Proof.
  intros (Hd & Hk & Hs) Hx. split; [|split].
  - unfold key_of. destruct (json_map_keys (ed_of a) a m) as [->|[Hin ->]]; [done|]. apply NoDup_app. split; [done|]. split; [|apply NoDup_singleton].
    intros k Hk' ->%list_elem_of_singleton. done.
  - intros k v [[-> ->]|[_ Hin]]%map_set_elem; [|..|done]; [split; [|done]; set_solver|]. destruct (Hk _ _ Hin). split; [set_solver|done].
  - intros b Hb. setoid_rewrite map_set_elem; [|done]. destruct (decide (ed_of b = ed_of a)) as [E|E].
    + exists a. unfold key_of. rewrite E. split; [by left|]. apply elem_of_app in Hb as [Hb|Hb%list_elem_of_singleton]; [|by subst].
      destruct (Hs b Hb) as (v & Hv & <-). unfold key_of in Hv. rewrite E in Hv. symmetry. by apply Hx.
    + apply elem_of_app in Hb as [Hb|Hb%list_elem_of_singleton]; [|by subst]. destruct (Hs b Hb) as (v & Hv & Hxv). exists v. split; [|done].
      right. split; [|done]. unfold key_of. congruence.
Qed.
Lemma group_announces_spec l m seen : Forall texts (seen ++ l) → grouped m seen →
  (∀ m', group_announces l m = Ok m' → grouped m' (seen ++ l)) ∧ (agreeing (seen ++ l) → is_ok (group_announces l m) = true).
Proof.
  revert m seen. induction l as [|a l IH]; intros m seen Ht Hg.
  { rewrite app_nil_r. split; [by intros m' [= <-]|done]. }
  assert (Ha : texts a) by (rewrite Forall_forall in Ht; apply Ht; set_solver). destruct Ha as [He Hx].
  cbn [group_announces]. rewrite He. cbn [map_err mbind result_bind]. rewrite (cons_middle a seen l), app_assoc in Ht |- *.
  destruct (map_get (key_of a) m) as [prior|] eqn:Hget.
  - apply map_get_Some in Hget. pose proof Hg as (_ & Hk & Hs). destruct (Hk _ _ Hget) as [Hseen Hke].
    assert (Hp : texts prior) by (rewrite Forall_forall in Ht; apply Ht; set_solver). destruct Hp as [_ Hpx]. rewrite Hpx, Hx. cbn [map_err mbind result_bind same_key].
    case_bool_decide as E; cbn [negb].
    + apply IH; [done|]. apply grouped_set; [done|]. intros v Hv. by rewrite (grouped_unique m seen _ _ _ Hg Hv Hget).
    + split; [done|]. intros Hag. destruct E. apply Hag; [set_solver..|]. unfold key_of in Hke. by injection Hke.
  - cbn [map_err mbind result_bind]. apply IH; [done|]. apply grouped_set; [done|]. intros v Hv. by destruct (map_get_None _ _ v Hget).
Qed.
Lemma verify_announces_spec sid l : verify_announces sid l = Ok tt ↔ Forall (λ a, announce_ok sid a = true) l.
Proof.
  induction l as [|a l IH]; cbn [verify_announces]; [split; [constructor|done]|]. rewrite Forall_cons, <- IH.
  destruct (announce_ok sid a); [tauto|]. split; [|by intros []]. by destruct (prop _ _).
Qed.

Definition entry_at (p : option Json * Json) : option Json * list Z := (p.1, bytes_of_hex (x_of p.2)).
Lemma enroll_spec sid c l m : Forall texts l → group_announces l [] = Ok m → grouped m l →
  enroll sid c l = (_ ← verify_announces sid l;
    if negb (Z.of_nat (length m) =? c) then Err (Wrong_count c (length m)) else Ok (entry_at <$> js_sort key_cmp m)).
Proof.
  intros Ht Hm (_ & Hk & _). unfold enroll. rewrite Hm. destruct (verify_announces sid l); [|done]. cbn [mbind result_bind].
  rewrite js_sort_length. destruct (negb _); [done|]. apply map_res_Forall2, Forall2_fmap_r, Forall_Forall2_diag, Forall_forall.
  intros [k v] Hp. rewrite js_sort_perm in Hp. destruct (Hk _ _ Hp) as [Hv _]. rewrite Forall_forall in Ht. destruct (Ht _ Hv) as [_ Hx].
  cbn [fst snd]. rewrite Hx. done.
Qed.
Lemma grouped_nil : grouped [] [].
Proof. split; [constructor|]. split; [by intros k v ?%not_elem_of_nil|by intros a ?%not_elem_of_nil]. Qed.
(** What a map of the identities comes to does not depend on the order. *)
Lemma grouped_entries m1 m2 l1 l2 : grouped m1 l1 → grouped m2 l2 → (∀ a, a ∈ l1 ↔ a ∈ l2) → entry_at <$> m1 ≡ₚ entry_at <$> m2.
Proof.
  intros G1 G2 Hl. assert (Hnd : ∀ m l, grouped m l → NoDup (entry_at <$> m)).
  { intros m l (Hd & _). apply (NoDup_fmap_1 fst). by rewrite <- list_fmap_compose. }
  assert (Hsub : ∀ m l m' l' e, grouped m l → grouped m' l' → (∀ a, a ∈ l → a ∈ l') → e ∈ entry_at <$> m → e ∈ entry_at <$> m').
  { clear. intros m l m' l' e (_ & Hk & _) (_ & _ & Hs) Hl ([k v] & -> & Hin)%list_elem_of_fmap. destruct (Hk _ _ Hin) as [Hv ->].
    destruct (Hs v (Hl _ Hv)) as (v' & Hin' & Hx). apply list_elem_of_fmap. exists (key_of v, v'). split; [|done]. unfold entry_at. cbn. by rewrite Hx. }
  apply NoDup_Permutation; [by eapply Hnd..|]. intros e. split; eapply Hsub; [done|done|naive_solver|done|done|naive_solver].
Qed.
(** There is one list of entries in the order of their keys. *)
Lemma sorted_entries_unique (R1 R2 : list (option Json * list Z)) : (∀ e, e ∈ R2 → ∃ s, e.1 = Some (JStr s)) → R1 ≡ₚ R2 → NoDup R2.*1 →
  StronglySorted (λ a b : option Json * list Z, String.compare (text_of a.1) (text_of b.1) ≠ Gt) R1 →
  StronglySorted (λ a b : option Json * list Z, String.compare (text_of a.1) (text_of b.1) ≠ Gt) R2 → R1 = R2.
Proof.
  intros Hform Hp HN S1 S2. eapply StronglySorted_unique_strong; [|exact S1|exact S2|done].
  intros a b Ha Hb Hab Hba. rewrite Hp in Ha. apply (NoDup_fmap_inj_on fst R2); [done..|].
  destruct (Hform _ Ha) as [sa Ea]. destruct (Hform _ Hb) as [sb Eb]. cbv beta in Hab, Hba.
  rewrite Ea, Eb in Hab, Hba |- *. cbn in Hab, Hba. rewrite (String.compare_antisym sb) in Hba.
  destruct (String.compare sa sb) eqn:E; cbn in *; [|done..]. apply String.compare_eq_iff in E. by subst.
Qed.

(** C30. Every member enrols the same group: members whose logs hold the same
    announces, in whatever order and however often repeated, come to the same
    list or fail alike.  A list that is made has the announced number of
    members, each of them once, in the order of the identities, and holds
    exactly the keys that verified announces announce.  An identity is its
    hexadecimal text: one written in two cases counts as two. *)
Theorem enroll_agreement sid c l1 l2 R : Forall texts l1 → (∀ a, a ∈ l1 ↔ a ∈ l2) → enroll sid c l1 = Ok R →
  enroll sid c l2 = Ok R ∧ Z.of_nat (length R) = c ∧ NoDup R.*1 ∧
  StronglySorted (λ a b : option Json * list Z, String.compare (text_of a.1) (text_of b.1) ≠ Gt) R ∧
  (∀ k x, (k, x) ∈ R ↔ ∃ a, a ∈ l1 ∧ k = key_of a ∧ x = bytes_of_hex (x_of a)) ∧ Forall (λ a, announce_ok sid a = true) l1.
Proof.
  intros T1 Hl HR. assert (T2 : Forall texts l2) by (rewrite Forall_forall in T1 |- *; intros a Ha; apply T1; by apply Hl).
  destruct (group_announces_spec l1 [] [] T1 grouped_nil) as [G1 _]. destruct (group_announces_spec l2 [] [] T2 grouped_nil) as [G2 K2].
  cbn [app] in *. destruct (group_announces l1 []) as [m1|e1] eqn:E1.
  2: { unfold enroll in HR. rewrite E1 in HR. by destruct (verify_announces sid l1). }
  specialize (G1 m1 eq_refl). pose proof (grouped_agreeing _ _ G1) as Hag.
  assert (Hag2 : agreeing l2) by (intros a b Ha Hb; apply Hag; by apply Hl). specialize (K2 Hag2).
  destruct (group_announces l2 []) as [m2|] eqn:E2; [|done]. specialize (G2 m2 eq_refl).
  rewrite (enroll_spec sid c l1 m1) in HR by done. destruct (verify_announces sid l1) as [[]|] eqn:V1; [|done]. cbn [mbind result_bind] in HR.
  destruct (Z.eqb_spec (Z.of_nat (length m1)) c) as [Hc|]; [|done]. cbn [negb] in HR. injection HR as <-.
  apply verify_announces_spec in V1. assert (V2 : verify_announces sid l2 = Ok tt).
  { apply verify_announces_spec. rewrite Forall_forall in V1 |- *. intros a Ha. apply V1. by apply Hl. }
  pose proof (grouped_entries m1 m2 l1 l2 G1 G2 Hl) as Hp.
  assert (Hlen : length m2 = length m1) by (apply Permutation_length in Hp; by rewrite !length_fmap in Hp).
  assert (HN : NoDup (entry_at <$> js_sort key_cmp m1).*1).
  { rewrite <- list_fmap_compose. change (NoDup (js_sort key_cmp m1).*1). rewrite js_sort_perm. by destruct G1. }
  assert (Hs : ∀ m, StronglySorted (λ a b : option Json * list Z, String.compare (text_of a.1) (text_of b.1) ≠ Gt) (entry_at <$> js_sort key_cmp m)).
  { intros m. pose proof (js_sort_sorted key_cmp key_cmp_total key_cmp_trans m) as Hs. induction Hs as [|p r _ IH Hf]; [constructor|].
    rewrite fmap_cons. constructor; [done|]. apply Forall_fmap. eapply Forall_impl; [exact Hf|]. intros b Hb. by apply key_cmp_le in Hb. }
  assert (Hkeys : ∀ k v, (k, v) ∈ m1 → v ∈ l1 ∧ k = key_of v) by (by destruct G1 as (_ & ? & _)).
  split; [|split; [by rewrite length_fmap, js_sort_length|split; [done|split; [apply Hs|split; [|done]]]]].
  - rewrite (enroll_spec sid c l2 m2), V2, Hlen by done. cbn [mbind result_bind]. rewrite (proj2 (Z.eqb_eq _ _) Hc). cbn [negb]. f_equal.
    apply sorted_entries_unique; [|by rewrite !js_sort_perm|done|apply Hs..].
    intros e. rewrite js_sort_perm. intros ([k v] & -> & Hin)%list_elem_of_fmap. destruct (Hkeys _ _ Hin) as [_ ->]. by eexists.
  - intros k x. rewrite js_sort_perm, list_elem_of_fmap. split.
    + intros ([k' v] & [= -> ->] & Hin). destruct (Hkeys _ _ Hin) as [Hv ->]. by exists v.
    + intros (a & Ha & -> & ->). destruct G1 as (_ & _ & Hs1). destruct (Hs1 a Ha) as (v & Hv & Hx). exists (key_of a, v).
      split; [|done]. unfold entry_at. cbn. by rewrite Hx.
Qed.
End Enrol.
End CeremonySpec.

(** ** Witnesses: two members *)
Module CeremonyWitness.
Import Seal Box Bjj Dkg Ceremony CeremonySpec.
#[local] Existing Instance ToyCurve.toy_curve.
#[local] Existing Instance ToyCurve.toy_laws.
#[local] Existing Instance DkgWitness.toy_hash.
#[local] Existing Instance ToyText.toy_text.
#[local] Existing Instance ToyText.toy_text_laws.
#[local] Existing Instance SessionWitness.toy_aead.
#[local] Existing Instance SessionWitness.toy_aead_laws.
Definition byte_total (l : list Z) : Z := foldr Z.add 0 l.
#[export] Instance toy_25519 : Curve25519 := {|
  montgomeryPriv s := s;
  getPublicKey p := p;
  getSharedSecret a b := Some [(byte_total a + byte_total b) mod 256];
  ed_sign m seed := [(byte_total m + 3 * byte_total seed) mod 256];
  ed_verify sig m public := Some (bool_decide (sig = [(byte_total m + 3 * byte_total public) mod 256]));
  odd_buffer _ := Err Text.Type_error;
|}.
#[export] Instance toy_25519_laws : Curve25519Laws (λ seed, seed).
Proof.
  split.
  - intros a b _ _. exists [(byte_total a + byte_total b) mod 256]. split; [done|]. cbn. by rewrite Z.add_comm.
  - intros m seed _. cbn. by rewrite bool_decide_eq_true_2.
  - done.
  - intros m seed _. constructor; [|done]. unfold is_byte. apply Z.mod_pos_bound. lia.
Qed.

Definition nonces0 (i : Z) : list Z := replicate 24 9.
Definition seed_of (i : Z) : list Z := [10 * i; 7].
Definition member_of (i : Z) : Member := mkMember (seed_of i) (mkCoins [[i]; [i; 1]] [i; 5] (replicate 32 i) nonces0).
Definition group0 : list Member := [member_of 1; member_of 2].
Definition roster0 : list (option Json * list Z) := roster_of (λ seed, seed) group0.
Definition ok_or {E A} (a : A) (r : result E A) : A := match r with Ok a => a | Err _ => a end.
Definition deal0 (t i : Z) : Json := ok_or JNull (deal "s" (seed_of i) t 77 (m_coins (member_of i)) i roster0).
Lemma group0_ready : Forall (ready 2) group0.
Proof.
  assert (Hb : ∀ i n, 0 <= i < 256 → Forall is_byte (replicate n i)) by (intros; by apply Forall_replicate).
  repeat (constructor; [split; [repeat (constructor; [unfold is_byte; lia|]); constructor|split; [done|split; [intros; split; [done|by apply Hb]|by apply Hb]]]|]). constructor.
Qed.
(** The messages arrive in the other order. *)
Lemma ceremony_agrees_witness : ∃ r1 r2,
  conclude "s" (seed_of 1) 2 2 77 1 roster0 [deal0 2 2; deal0 2 1] = Ok r1 ∧
  conclude "s" (seed_of 2) 2 2 77 2 roster0 [deal0 2 1; deal0 2 2] = Ok r2 ∧ r_gpk r1 = r_gpk r2.
Proof.
  destruct (ceremony_agrees (λ seed, seed) "s" 77 2 ltac:(lia) group0 group0_ready) as (F & _ & _ & Hc).
  assert (D1 : deal "s" (seed_of 1) 2 77 (m_coins (member_of 1)) 1 roster0 = Ok (deal0 2 1)) by (vm_compute; reflexivity).
  assert (D2 : deal "s" (seed_of 2) 2 77 (m_coins (member_of 2)) 2 roster0 = Ok (deal0 2 2)) by (vm_compute; reflexivity).
  destruct (Hc 0%nat (member_of 1) [(1%nat, member_of 2); (0%nat, member_of 1)] [deal0 2 2; deal0 2 1] 2) as (r1 & H1 & G1 & _).
  - reflexivity.
  - apply perm_swap.
  - constructor; [exact D2|constructor; [exact D1|constructor]].
  - destruct (Hc 1%nat (member_of 2) [(0%nat, member_of 1); (1%nat, member_of 2)] [deal0 2 1; deal0 2 2] 2) as (r2 & H2 & G2 & _).
    + reflexivity.
    + reflexivity.
    + constructor; [exact D1|constructor; [exact D2|constructor]].
    + exists r1, r2. split; [exact H1|]. split; [exact H2|]. rewrite G1, G2. reflexivity.
Defined.

Definition announce0 (i : Z) : Json := announce "s" (seed_of i) (seed_of i).
Lemma enroll_agreement_witness : ∃ R, enroll "s" 2 [announce0 2; announce0 1] = Ok R ∧ enroll "s" 2 [announce0 1; announce0 2; announce0 2] = Ok R.
Proof.
  assert (E : enroll "s" 2 [announce0 2; announce0 1] = Ok roster0) by (vm_compute; reflexivity).
  exists roster0. split; [exact E|]. apply (enroll_agreement "s" 2 [announce0 2; announce0 1] [announce0 1; announce0 2; announce0 2] roster0).
  - repeat (constructor; [split; vm_compute; reflexivity|]). constructor.
  - intros a. rewrite !elem_of_cons. tauto.
  - exact E.
Defined.

(** Nothing compares the number of a dealer's commitments with the threshold:
    one more coefficient passes, and two members no longer recover the key. *)
Lemma over_degree_accepted :
  match deal "s" (seed_of 2) 3 77 (mkCoins [[2]; [2; 1]; [4]] [2; 5] (replicate 32 2) nonces0) 2 roster0 with
  | Ok msg =>
      match conclude "s" (seed_of 1) 2 2 77 1 roster0 [deal0 2 1; msg] with
      | Ok r => length <$> (r_dealerCommitments r).*2 = [2; 3]%nat
      | Err _ => False
      end
  | Err _ => False
  end.
Proof. vm_compute. reflexivity. Qed.
(** Nothing compares the commitments that a dealer puts in its boxes: the
    second dealer deals one polynomial to the first member and another to
    itself, and they end with different keys. *)
Definition two_faced : Json :=
  let other := ok_or JNull (deal "s" (seed_of 2) 2 77 (mkCoins [[3]; [2; 1]] [2; 5] (replicate 32 2) nonces0) 2 roster0) in
  match deal0 2 2, other with
  | JObj (k :: d :: p :: [(b, JObj (box1 :: _))]), JObj (_ :: _ :: _ :: [(_, JObj (_ :: boxes))]) => JObj (k :: d :: p :: [(b, JObj (box1 :: boxes))])
  | _, _ => JNull
  end.
Lemma equivocation_accepted :
  match conclude "s" (seed_of 1) 2 2 77 1 roster0 [deal0 2 1; two_faced], conclude "s" (seed_of 2) 2 2 77 2 roster0 [deal0 2 1; two_faced] with
  | Ok r1, Ok r2 => bool_decide (r_gpk r1 = r_gpk r2) = false
  | _, _ => False
  end.
Proof. vm_compute. reflexivity. Qed.
(** Messages are counted, not dealers: a dealer that posts twice before another
    has posted stands for both. *)
Lemma repeated_dealer_accepted :
  match conclude "s" (seed_of 1) 2 2 77 1 roster0 [deal0 2 1; deal0 2 1], conclude "s" (seed_of 1) 2 2 77 1 roster0 [deal0 2 1; deal0 2 2] with
  | Ok r1, Ok r2 => (r_dealerCommitments r1).*1 = [1] ∧ bool_decide (r_gpk r1 = r_gpk r2) = false
  | _, _ => False
  end.
Proof. vm_compute. split; reflexivity. Qed.
End CeremonyWitness.
