(* ===== verification/GroupCircuits.v ===== *)
(** * The circuits of group spends ([circuits/multisig/*/src/main.nr], with
    [circuits/shared/src/multisig/frost.nr] and the group's part of [spend.nr]
    and [mint.nr])

    As the standard circuits of [Circuits.v], except that the spender is a group
    key and the authorisation is a FROST signature over the public outputs.
    Subtraction of points is the vendored curve library's. *)
From S2P Require Import Prelude Bytes Zq Tss Dkg Tree Keys Trace Mint Circuits Frost.
Local Open Scope Z_scope.

(** Documented behaviour: [p - q] is the point that added to [q] gives [p]. *)
Class CurveSub := curve_sub : Point → Point → Point.
Class CurveSubLaws `{BabyJubjub, CurveSub} : Prop :=
  sub_gen i j k : 0 <= i → 0 <= j → 0 <= k → i + k =[subOrder] j →
    curve_sub (mulPointEscalar Base8 j) (mulPointEscalar Base8 k) = mulPointEscalar Base8 i.

Module GroupCircuit.
Import Trace.Note Dkg.Hash Circuit.
Section GroupCircuit.
Context `{BabyJubjub} `{Poseidon2} `{PoseidonV1} `{CurveSub} (eight_inv : Z).

(** ** [frost.nr] *)
Definition msg_withdraw (root nullifier change_leaf public_out asset recipient intent_hash : Z) : Z :=
  poseidon2 [ACTION_WITHDRAW; root; nullifier; change_leaf; public_out; asset; recipient; intent_hash].
Definition msg_transfer (root nullifier memo_leaf memo_tag change_leaf asset : Z) : Z :=
  poseidon2 [ACTION_TRANSFER; root; nullifier; memo_leaf; memo_tag; change_leaf; asset].
Definition msg_split (root nullifier out1_leaf out2_leaf asset : Z) : Z :=
  poseidon2 [ACTION_SPLIT; root; nullifier; out1_leaf; out2_leaf; asset].
Definition msg_join (root nullifier_a nullifier_b out_leaf asset : Z) : Z :=
  poseidon2 [ACTION_JOIN; root; nullifier_a; nullifier_b; out_leaf; asset].

(** [for i in 0..31 { e += e_bytes[i] * pow; pow *= 256 }]. *)
Fixpoint truncate_loop (n : nat) (e_bytes : list Z) (e pow : Z) : Z :=
  match n, e_bytes with
  | S n, byte :: e_bytes => truncate_loop n e_bytes (frAdd e (byte * pow mod MODULUS)) (pow * 256 mod MODULUS)
  | _, _ => e
  end.
Definition truncated_challenge (gpk r : Point) (m : Z) : Z :=
  let e_full := poseidon2 [SCHNORR_DOMAIN; r.1; r.2; gpk.1; gpk.2; m] in
  truncate_loop 31 (le_bytes 32 e_full) 0 1.
(** [BabyJubJub::new] asserts that its point is on the curve. *)
Definition verify_frost_spend (gpk r : Point) (z m : Z) : option unit :=
  _ ← assert (inCurve gpk);
  _ ← assert_in_prime_subgroup eight_inv gpk;
  _ ← assert (negb (is_zero gpk));
  _ ← assert (inCurve r);
  _ ← assert (negb (is_zero r));
  _ ← assert_subgroup_scalar z;
  let e_scalar := truncated_challenge gpk r m in
  let z_base := derive_public_key z in
  _ ← assert (inCurve z_base);
  let rhs := addPoint r (mulPointEscalar gpk e_scalar) in
  let diff := curve_sub z_base rhs in
  assert (is_zero (dbl (dbl (dbl diff)))).

(** ** [spend.nr], [mint.nr] *)
Definition open_multisig_note (n : Note) (gpk : Point) (leaf_index : Z) (path : list Z) : option (Z * Z) :=
  _ ← assert (inCurve gpk);
  _ ← assert_in_prime_subgroup eight_inv gpk;
  _ ← assert (negb (is_zero gpk));
  _ ← assert (owner n =? pubkey_owner gpk);
  _ ← assert (noteType n =? NOTE_TYPE_MULTISIG);
  spend_membership_nullifier n leaf_index path.
Definition mint_self_note_multisig (n : Note) (eph : Z) (compliance_pk gpk : Point) : option SelfMint :=
  _ ← assert (noteType n =? NOTE_TYPE_MULTISIG);
  _ ← assert (owner n =? pubkey_owner gpk);
  c ← mint_common n eph compliance_pk;
  _ ← assert (is_even_y (c_eph_pub c));
  Some (mkSelfMint (c_leaf c) (c_eph_pub c) (c_ciphertext c)).

(** ** The circuits *)
Record TransferMultisigMap := mkTransferMultisigMap {
  tm_compliance : Point; tm_gpk : Point; tm_frost_r : Point; tm_frost_z : Z; tm_recipient_spend : Point;
  tm_recipient_view : Point; tm_old_note : Note; tm_old_index : Z; tm_old_path : list Z; tm_memo_note : Note;
  tm_memo_eph : Z; tm_change_note : Note; tm_change_eph : Z }.
Definition transfer_multisig (m : TransferMultisigMap) : option TransferOut :=
  _ ← note_input (tm_old_note m);
  _ ← note_input (tm_memo_note m);
  _ ← note_input (tm_change_note m);
  _ ← path_input (tm_old_path m);
  _ ← assert_valid_compliance_pk (tm_compliance m);
  '(nf, computed_root) ← open_multisig_note (tm_old_note m) (tm_gpk m) (tm_old_index m) (tm_old_path m);
  _ ← assert (assetId (tm_old_note m) =? assetId (tm_memo_note m));
  _ ← assert (assetId (tm_old_note m) =? assetId (tm_change_note m));
  _ ← assert (negb (tm_memo_eph m =? tm_change_eph m));
  _ ← assert_conserved [value (tm_old_note m)] [value (tm_memo_note m); value (tm_change_note m)] 0;
  _ ← assert (parents (tm_memo_note m) =? PARENTS_HIDDEN);
  _ ← assert_parents_bound (tm_change_note m) (tm_old_index m) 0;
  memo ← mint_incoming_note eight_inv (tm_memo_note m) (tm_memo_eph m) (tm_compliance m) (tm_recipient_spend m)
           (tm_recipient_view m);
  change ← mint_self_note_multisig (tm_change_note m) (tm_change_eph m) (tm_compliance m) (tm_gpk m);
  let signed := msg_transfer computed_root nf (im_leaf memo) (im_tag memo) (sm_leaf change) (assetId (tm_old_note m)) in
  _ ← verify_frost_spend (tm_gpk m) (tm_frost_r m) (tm_frost_z m) signed;
  Some (mkTransferOut nf computed_root memo change).

Record WithdrawMultisigMap := mkWithdrawMultisigMap {
  wm_value : Z; wm_recipient : Z; wm_intent_hash : Z; wm_compliance : Point; wm_gpk : Point; wm_frost_r : Point;
  wm_frost_z : Z; wm_old_note : Note; wm_old_index : Z; wm_old_path : list Z; wm_change_note : Note; wm_change_eph : Z }.
Definition withdraw_multisig (m : WithdrawMultisigMap) : option WithdrawOut :=
  _ ← assert ((0 <=? wm_value m) && (wm_value m <? 2 ^ 128));
  _ ← note_input (wm_old_note m);
  _ ← note_input (wm_change_note m);
  _ ← path_input (wm_old_path m);
  _ ← assert_valid_compliance_pk (wm_compliance m);
  '(nf, computed_root) ← open_multisig_note (wm_old_note m) (wm_gpk m) (wm_old_index m) (wm_old_path m);
  _ ← assert (assetId (wm_old_note m) =? assetId (wm_change_note m));
  _ ← assert_conserved [value (wm_old_note m)] [value (wm_change_note m)] (wm_value m);
  _ ← assert_parents_bound (wm_change_note m) (wm_old_index m) 0;
  change ← mint_self_note_multisig (wm_change_note m) (wm_change_eph m) (wm_compliance m) (wm_gpk m);
  let signed := msg_withdraw computed_root nf (sm_leaf change) (wm_value m) (assetId (wm_old_note m))
                  (wm_recipient m) (wm_intent_hash m) in
  _ ← verify_frost_spend (wm_gpk m) (wm_frost_r m) (wm_frost_z m) signed;
  Some (mkWithdrawOut nf computed_root (assetId (wm_old_note m)) change).

Record SplitMultisigMap := mkSplitMultisigMap {
  sp_compliance : Point; sp_gpk : Point; sp_frost_r : Point; sp_frost_z : Z; sp_note_in : Note; sp_index_in : Z;
  sp_path_in : list Z; sp_note_out_1 : Note; sp_eph_1 : Z; sp_note_out_2 : Note; sp_eph_2 : Z }.
Record SplitOut := mkSplitOut { so_nullifier : Z; so_root : Z; so_out1 : SelfMint; so_out2 : SelfMint }.
Definition split_multisig (m : SplitMultisigMap) : option SplitOut :=
  _ ← note_input (sp_note_in m);
  _ ← note_input (sp_note_out_1 m);
  _ ← note_input (sp_note_out_2 m);
  _ ← path_input (sp_path_in m);
  _ ← assert_valid_compliance_pk (sp_compliance m);
  '(nf, computed_root) ← open_multisig_note (sp_note_in m) (sp_gpk m) (sp_index_in m) (sp_path_in m);
  _ ← assert (assetId (sp_note_in m) =? assetId (sp_note_out_1 m));
  _ ← assert (assetId (sp_note_in m) =? assetId (sp_note_out_2 m));
  _ ← assert (negb (sp_eph_1 m =? sp_eph_2 m));
  _ ← assert_conserved [value (sp_note_in m)] [value (sp_note_out_1 m); value (sp_note_out_2 m)] 0;
  _ ← assert_parents_bound (sp_note_out_1 m) (sp_index_in m) 0;
  _ ← assert_parents_bound (sp_note_out_2 m) (sp_index_in m) 0;
  out1 ← mint_self_note_multisig (sp_note_out_1 m) (sp_eph_1 m) (sp_compliance m) (sp_gpk m);
  out2 ← mint_self_note_multisig (sp_note_out_2 m) (sp_eph_2 m) (sp_compliance m) (sp_gpk m);
  let signed := msg_split computed_root nf (sm_leaf out1) (sm_leaf out2) (assetId (sp_note_in m)) in
  _ ← verify_frost_spend (sp_gpk m) (sp_frost_r m) (sp_frost_z m) signed;
  Some (mkSplitOut nf computed_root out1 out2).

Record JoinMultisigMap := mkJoinMultisigMap {
  jm_compliance : Point; jm_gpk_a : Point; jm_frost_r_a : Point; jm_frost_z_a : Z; jm_note_a : Note; jm_index_a : Z;
  jm_path_a : list Z; jm_gpk_b : Point; jm_frost_r_b : Point; jm_frost_z_b : Z; jm_note_b : Note; jm_index_b : Z;
  jm_path_b : list Z; jm_note_out : Note; jm_eph_out : Z }.
Record JoinOut := mkJoinOut { jo_nullifier_a : Z; jo_nullifier_b : Z; jo_root : Z; jo_out : SelfMint }.
Definition join_multisig (m : JoinMultisigMap) : option JoinOut :=
  _ ← note_input (jm_note_a m);
  _ ← path_input (jm_path_a m);
  _ ← note_input (jm_note_b m);
  _ ← path_input (jm_path_b m);
  _ ← note_input (jm_note_out m);
  _ ← assert_valid_compliance_pk (jm_compliance m);
  '(nullifier_a, root_a) ← open_multisig_note (jm_note_a m) (jm_gpk_a m) (jm_index_a m) (jm_path_a m);
  '(nullifier_b, root_b) ← open_multisig_note (jm_note_b m) (jm_gpk_b m) (jm_index_b m) (jm_path_b m);
  _ ← assert (root_a =? root_b);
  _ ← assert (negb (nullifier_a =? nullifier_b));
  _ ← assert (jm_index_a m mod 2 ^ 32 <? jm_index_b m mod 2 ^ 32);
  _ ← assert (((jm_gpk_a m).1 =? (jm_gpk_b m).1) && ((jm_gpk_a m).2 =? (jm_gpk_b m).2));
  _ ← assert (assetId (jm_note_a m) =? assetId (jm_note_b m));
  _ ← assert (assetId (jm_note_a m) =? assetId (jm_note_out m));
  _ ← assert_conserved [value (jm_note_a m); value (jm_note_b m)] [value (jm_note_out m)] 0;
  _ ← assert_parents_bound (jm_note_out m) (jm_index_a m) (jm_index_b m);
  out ← mint_self_note_multisig (jm_note_out m) (jm_eph_out m) (jm_compliance m) (jm_gpk_a m);
  let signed := msg_join root_a nullifier_a nullifier_b (sm_leaf out) (assetId (jm_note_a m)) in
  _ ← verify_frost_spend (jm_gpk_a m) (jm_frost_r_a m) (jm_frost_z_a m) signed;
  _ ← verify_frost_spend (jm_gpk_b m) (jm_frost_r_b m) (jm_frost_z_b m) signed;
  Some (mkJoinOut nullifier_a nullifier_b root_a out).

(** ** The signature check of the circuit and the wallet's are one *)
(** The 31 bytes are the number's low 248 bits; no step wraps. *)
Lemma truncate_loop_spec n : ∀ k x e pow, (n <= k)%nat → 0 <= e < pow → pow * 256 ^ Z.of_nat n <= 2 ^ 248 →
  truncate_loop n (le_bytes k x) e pow = e + pow * (x mod 256 ^ Z.of_nat n).
Proof.
  induction n as [|n IH]; intros k x e pow Hk He Hp; [by rewrite Z.mod_1_r, Z.mul_0_r, Z.add_0_r|].
  destruct k as [|k]; [lia|]. cbn [le_bytes truncate_loop].
  assert (E256 : 256 ^ Z.of_nat (S n) = 256 * 256 ^ Z.of_nat n) by (rewrite Nat2Z.inj_succ, Z.pow_succ_r; lia).
  rewrite E256 in *. assert (Hpos : 1 <= 256 ^ Z.of_nat n) by (pose proof (Z.pow_pos_nonneg 256 (Z.of_nat n)); lia).
  pose proof (Z.mod_pos_bound x 256 ltac:(lia)) as Hx. assert (HM : 2 ^ 248 < MODULUS) by reflexivity.
  assert (H256 : pow * 256 <= 2 ^ 248) by nia. unfold frAdd.
  rewrite (Z.mod_small (x mod 256 * pow)), (Z.mod_small (pow * 256)), (Z.mod_small (e + _)) by nia.
  rewrite IH by (lia || nia). rewrite (Zmod_eq_full x 256), (Z.rem_mul_r x 256) by lia. nia.
Qed.
Lemma truncated_challenge_spec gpk r m : Poseidon2Field →
  truncated_challenge gpk r m = poseidon2 [SCHNORR_DOMAIN; r.1; r.2; gpk.1; gpk.2; m] mod 2 ^ 248.
Proof.
  intros HF. unfold truncated_challenge. rewrite truncate_loop_spec by (lia || done). rewrite Z.add_0_l, Z.mul_1_l. done.
Qed.

Context {L : BabyJubjubLaws} {SL : CurveSubLaws} {PF : Poseidon2Field}.
Context (Height : 0 <= eight_inv) (Hinv : 8 * eight_inv =[subOrder] 1).

Lemma gen_base k : 0 <= k → mulPointEscalar Base8 k = Bjj.scalarBaseMul k.
Proof.
  intros Hk. unfold Bjj.scalarBaseMul, Bjj.scalarMul, Bjj.BASE8. pose proof (Bjj.modSub_bound k).
  apply mul_order; [lia|done|]. symmetry. apply Bjj.modSub_eqm.
Qed.
Lemma is_zero_gen x : 0 <= x → is_zero (mulPointEscalar Base8 x) = bool_decide (x =[subOrder] 0).
Proof. intros Hx. rewrite gen_base by done. apply Bjj.isIdentity_gen. Qed.
Lemma eight_regular x : 8 * x =[subOrder] 0 ↔ x =[subOrder] 0.
Proof.
  split; intros E.
  - rewrite <- (Z.mul_1_l x), <- Hinv. rewrite <- Z.mul_assoc, (Z.mul_comm eight_inv), Z.mul_assoc, E. by rewrite Z.mul_0_l.
  - by rewrite E, Z.mul_0_r.
Qed.

(** The cofactored equation of the circuit is the wallet's equation, in the
    subgroup. *)
Lemma frost_equation k r z m : 0 <= k → 0 <= r → 0 <= z → 0 <= m < MODULUS →
  let gpk := Keys.Keys.publicKey k in let R := Keys.Keys.publicKey r in
  is_zero (dbl (dbl (dbl (curve_sub (derive_public_key z)
    (addPoint R (mulPointEscalar gpk (truncated_challenge gpk R m))))))) =
  Frost.verify (G:=Point) (H:=BjjSuite.bjjCiphersuite) gpk (BjjSuite.encodeMessage m) (Frost.mkSignature R z).
Proof.
  intros Hk Hr Hz Hm gpk R. pose proof (poseidon2_field [SCHNORR_DOMAIN; R.1; R.2; gpk.1; gpk.2; m]) as [He _].
  rewrite truncated_challenge_spec by done. unfold Frost.verify. cbn [Frost.R Frost.z].
  destruct (BjjSuite.encodeMessage_roundtrip R gpk m Hm) as (_ & _ & _ & ->). rewrite Z.rem_mod_nonneg by lia.
  set (e := poseidon2 _ mod 2 ^ 248). assert (He' : 0 <= e) by (apply Z.mod_pos_bound; lia). clearbody e.
  pose proof (Bjj.q_pos) as Hq. unfold Bjj.SUBORDER in Hq.
  assert (Eg : gpk = mulPointEscalar Base8 k) by done. assert (Er : R = mulPointEscalar Base8 r) by done. clearbody gpk R. subst.
  unfold derive_public_key. rewrite mul_mul, mul_add by (done || nia).
  set (i := (z - (r + k * e)) mod subOrder). assert (Hi : 0 <= i < subOrder) by (apply Z.mod_pos_bound; lia).
  assert (Ei : i =[subOrder] z - (r + k * e)) by apply eqm_mod.
  rewrite (sub_gen i) by (try nia; rewrite Ei; apply eqm_of_eq; ring).
  unfold dbl. rewrite !mul_add, is_zero_gen by lia.
  change (bool_decide (i + i + (i + i) + (i + i + (i + i)) =[subOrder] 0) =
    Bjj.pointEq (Bjj.scalarMul z Bjj.BASE8) (Bjj.pointAdd (mulPointEscalar Base8 r) (Bjj.scalarMul e (mulPointEscalar Base8 k)))).
  rewrite !gen_base by done. rewrite Bjj.gen_mul, Bjj.gen_add. apply eq_bool_prop_intro.
  change (Bjj.scalarMul z Bjj.BASE8) with (Bjj.scalarBaseMul z).
  replace (i + i + (i + i) + (i + i + (i + i))) with (8 * i) by ring.
  rewrite bool_decide_spec, eight_regular, Is_true_true, Bjj.pointEq_spec, Bjj.gen_eqm, Ei. unfold Bjj.SUBORDER.
  split; intros E; [|rewrite E; apply eqm_of_eq; ring].
  rewrite <- (Z.sub_add (r + k * e) z), E. apply eqm_of_eq. ring.
Qed.

(** A public key is a nonidentity point of the subgroup. *)
Lemma publicKey_point k : Kem.valid_scalar k → inCurve (Keys.Keys.publicKey k) = true ∧ is_zero (Keys.Keys.publicKey k) = false.
Proof. intros Hk. by destruct (assertValidPoint_spec _ (Kem.assertValidPoint_public k Hk)) as (? & _ & ?). Qed.

(** What the wallet verifies, the circuits accept. *)
Lemma verify_accepted k r z m : Kem.valid_scalar k → Kem.valid_scalar r → Kem.valid_scalar z → 0 <= m < MODULUS →
  Frost.verify (G:=Point) (H:=BjjSuite.bjjCiphersuite) (Keys.Keys.publicKey k) (BjjSuite.encodeMessage m)
    (Frost.mkSignature (Keys.Keys.publicKey r) z) = true →
  verify_frost_spend (Keys.Keys.publicKey k) (Keys.Keys.publicKey r) z m = Some tt.
Proof.
  intros Hk Hr Hz Hm. destruct (publicKey_point k Hk) as [Ck Zk], (publicKey_point r Hr) as [Cr Zr].
  rewrite <- frost_equation by (done || destruct Hk, Hr, Hz; lia). unfold verify_frost_spend.
  rewrite Ck, Zk, Cr, Zr, assert_in_prime_subgroup_spec, (assertSubgroupScalar_spec z) by
    (done || by apply Kem.assertSubgroupScalar_valid). cbn [negb assert mbind option_bind].
  rewrite (proj1 (publicKey_point z Hz) : inCurve (derive_public_key z) = true). cbn [assert mbind option_bind].
  apply assert_true.
Qed.
(** And what the circuits accept of honest points, the wallet verifies. *)
Lemma verify_frost_sound k r z m : Kem.valid_scalar k → Kem.valid_scalar r → 0 <= z → 0 <= m < MODULUS →
  verify_frost_spend (Keys.Keys.publicKey k) (Keys.Keys.publicKey r) z m = Some tt →
  Frost.verify (G:=Point) (H:=BjjSuite.bjjCiphersuite) (Keys.Keys.publicKey k) (BjjSuite.encodeMessage m)
    (Frost.mkSignature (Keys.Keys.publicKey r) z) = true.
Proof.
  intros Hk Hr Hz Hm. rewrite <- frost_equation by (done || destruct Hk, Hr; lia). unfold verify_frost_spend.
  intros H'. open_binds. done.
Qed.

(** C21. Two languages, one signature: for a group key and a nonce point of the
    prime-order subgroup, a response in range and a field element [m], the check
    that the circuits make is the wallet's [verify] of the 32 bytes that encode
    [m]: the cofactored equation with the challenge truncated to 31 bytes accepts
    exactly the signatures that the group's members would. *)
Theorem verify_frost_agrees k r z m : Kem.valid_scalar k → Kem.valid_scalar r → Kem.valid_scalar z → 0 <= m < MODULUS →
  verify_frost_spend (Keys.Keys.publicKey k) (Keys.Keys.publicKey r) z m = Some tt ↔
  Frost.verify (G:=Point) (H:=BjjSuite.bjjCiphersuite) (Keys.Keys.publicKey k) (BjjSuite.encodeMessage m)
    (Frost.mkSignature (Keys.Keys.publicKey r) z) = true.
Proof. intros Hk Hr Hz Hm. split; [apply verify_frost_sound; [done..|destruct Hz; lia|done]|by apply verify_accepted]. Qed.

(** ** What an accepted group spend says *)
Lemma open_multisig_sound n gpk idx path nf root : open_multisig_note n gpk idx path = Some (nf, root) →
  owner n = BjjSuite.multisigOwner gpk ∧ noteType n = NOTE_TYPE_MULTISIG ∧ nf = nullifier (psi n) idx ∧ idx < 2 ^ 32 ∧
  lean_imt_inclusion_proof (note_leaf n) idx path = Some root.
Proof.
  unfold open_multisig_note, spend_membership_nullifier. intros H'. open_binds. split_and!; try done.
  unfold lean_imt_inclusion_proof in *. open_binds. done.
Qed.
Lemma mint_self_multisig_sound n eph cpk gpk o : mint_self_note_multisig n eph cpk gpk = Some o →
  owner n = BjjSuite.multisigOwner gpk ∧ noteType n = NOTE_TYPE_MULTISIG ∧ sm_leaf o = note_leaf n ∧
  ∃ cek, derive_cek eph cpk = Some cek ∧ psi n = psi_of cek.
Proof.
  unfold mint_self_note_multisig. intros H'. open_binds. split_and!; try done;
  match goal with H : mint_common _ _ _ = Some _ |- _ => apply mint_common_sound in H as (? & ? & _ & _ & ? & _) end; [done|by eauto].
Qed.
Lemma bound_change n idx : 0 <= idx < 2 ^ 32 → assert_parents_bound n idx 0 = Some tt → parents n = idx.
Proof.
  intros Hi. unfold assert_parents_bound, pack_parents, frAdd. rewrite assert_Some, Z.eqb_eq.
  change (0 mod 2 ^ 32 * 4294967296 mod MODULUS) with 0. by rewrite Z.add_0_r, (Z.mod_small _ (2 ^ 32)), Z.mod_small by (unfold MODULUS; lia).
Qed.

(** The point and the response are a signature of [m] under the group key that
    the wallet's [verify] accepts, when both points are of the subgroup. *)
Definition signed_by (gpk R : Point) (z m : Z) : Prop := ∀ k r,
  Kem.valid_scalar k → Kem.valid_scalar r → 0 <= z → gpk = Keys.Keys.publicKey k → R = Keys.Keys.publicKey r →
  Frost.verify (G:=Point) (H:=BjjSuite.bjjCiphersuite) gpk (BjjSuite.encodeMessage m) (Frost.mkSignature R z) = true.
Lemma verify_signed gpk R z xs u : verify_frost_spend gpk R z (poseidon2 xs) = Some u → signed_by gpk R z (poseidon2 xs).
Proof. destruct u. intros Hv k r Hk Hr Hz -> ->. apply verify_frost_sound; [done..|apply poseidon2_field|done]. Qed.

(** What every group spend shows of a note it consumes. *)
Definition consumed_note (n : Note) (gpk : Point) (idx : Z) (path : list Z) (nf root : Z) : Prop :=
  owner n = BjjSuite.multisigOwner gpk ∧ noteType n = NOTE_TYPE_MULTISIG ∧ 0 <= value n < 2 ^ 128 ∧ idx < 2 ^ 32 ∧
  length path = TREE_DEPTH ∧ nf = nullifier (psi n) idx ∧ lean_imt_inclusion_proof (note_leaf n) idx path = Some root.
(** And of a note it keeps for the group. *)
Definition kept_note (n : Note) (gpk compliance_pk : Point) (eph asset par leaf : Z) : Prop :=
  owner n = BjjSuite.multisigOwner gpk ∧ noteType n = NOTE_TYPE_MULTISIG ∧ 0 <= value n < 2 ^ 128 ∧ assetId n = asset ∧
  parents n = par ∧ leaf = note_leaf n ∧ ∃ cek, derive_cek eph compliance_pk = Some cek ∧ psi n = psi_of cek.

(** Reads the assertions of an accepted group spend. *)
Ltac open_spend := open_binds;
  repeat match goal with
  | H : note_input _ = Some _ |- _ => apply note_input_Some in H
  | H : path_input _ = Some _ |- _ => unfold path_input in H; apply assert_Some, Nat.eqb_eq in H
  | H : open_multisig_note _ _ _ _ = Some _ |- _ => apply open_multisig_sound in H as (? & ? & -> & ? & ?)
  | H : mint_self_note_multisig _ _ _ _ = Some _ |- _ => apply mint_self_multisig_sound in H as (? & ? & ? & ?)
  | H : assert_conserved _ _ _ = Some ?u |- _ =>
      destruct u; apply conserved_sound in H; rewrite !sumZ_cons, !sumZ_nil in H
  | H : assert_parents_bound _ _ 0 = Some ?u |- _ => destruct u; apply bound_change in H; [|lia]
  | H : verify_frost_spend _ _ _ _ = Some _ |- _ => apply verify_signed in H
  end.

(** C3. What a group's transfer proof shows, whoever made the witness: the
    consumed note is of the group and in the tree, value and asset are kept, the
    change is the group's and bound to the spent index, the memo is hidden and is
    the recipient's, and the members signed exactly the published root,
    nullifier, leaves, tag and asset. *)
Theorem transfer_multisig_sound m o : 0 <= tm_old_index m → transfer_multisig m = Some o →
  let gpk := tm_gpk m in let old := tm_old_note m in let memo := tm_memo_note m in let change := tm_change_note m in
  consumed_note old gpk (tm_old_index m) (tm_old_path m) (to_nullifier o) (to_root o) ∧
  kept_note change gpk (tm_compliance m) (tm_change_eph m) (assetId old) (tm_old_index m) (sm_leaf (to_change o)) ∧
  value old = value memo + value change ∧ 0 <= value memo < 2 ^ 128 ∧ assetId memo = assetId old ∧
  parents memo = PARENTS_HIDDEN ∧ owner memo = pubkey_owner (tm_recipient_spend m) ∧
  im_leaf (to_memo o) = note_leaf memo ∧ im_tag (to_memo o) = (tm_recipient_view m).1 ∧ tm_memo_eph m ≠ tm_change_eph m ∧
  signed_by gpk (tm_frost_r m) (tm_frost_z m)
    (BjjSuite.msgTransfer (to_root o) (to_nullifier o) (im_leaf (to_memo o)) (im_tag (to_memo o)) (sm_leaf (to_change o))
       (assetId old)).
Proof.
  intros Hidx. unfold transfer_multisig. intros H'. open_spend.
  match goal with H : mint_incoming_note _ _ _ _ _ _ = Some _ |- _ =>
    apply mint_incoming_sound in H as (? & _ & _ & ? & _ & c & Hc & ? & _) end.
  apply mint_common_sound in Hc as (_ & _ & _ & _ & ? & _). cbn [to_root to_nullifier to_memo to_change].
  unfold consumed_note, kept_note. split_and!; first [done | lia | congruence].
Qed.

(** The withdrawal signs what leaves the pool: the amount, the asset, the
    recipient and the intent. *)
Theorem withdraw_multisig_sound m o : 0 <= wm_old_index m → withdraw_multisig m = Some o →
  let gpk := wm_gpk m in let old := wm_old_note m in let change := wm_change_note m in
  consumed_note old gpk (wm_old_index m) (wm_old_path m) (wo_nullifier o) (wo_root o) ∧
  kept_note change gpk (wm_compliance m) (wm_change_eph m) (assetId old) (wm_old_index m) (sm_leaf (wo_change o)) ∧
  value old = wm_value m + value change ∧ 0 <= wm_value m < 2 ^ 128 ∧ wo_asset o = assetId old ∧
  signed_by gpk (wm_frost_r m) (wm_frost_z m)
    (BjjSuite.msgWithdraw (wo_root o) (wo_nullifier o) (sm_leaf (wo_change o)) (wm_value m) (assetId old)
       (wm_recipient m) (wm_intent_hash m)).
Proof.
  intros Hidx. unfold withdraw_multisig. intros H'. open_spend. cbn [wo_root wo_nullifier wo_change wo_asset].
  match goal with H : _ && _ = true |- _ => apply andb_true_iff in H as [?%Z.leb_le ?%Z.ltb_lt] end.
  unfold consumed_note, kept_note. split_and!; first [done | lia | congruence].
Qed.

(** A split keeps everything in the group, under two ephemerals. *)
Theorem split_multisig_sound m o : 0 <= sp_index_in m → split_multisig m = Some o →
  let gpk := sp_gpk m in let n := sp_note_in m in
  consumed_note n gpk (sp_index_in m) (sp_path_in m) (so_nullifier o) (so_root o) ∧
  kept_note (sp_note_out_1 m) gpk (sp_compliance m) (sp_eph_1 m) (assetId n) (sp_index_in m) (sm_leaf (so_out1 o)) ∧
  kept_note (sp_note_out_2 m) gpk (sp_compliance m) (sp_eph_2 m) (assetId n) (sp_index_in m) (sm_leaf (so_out2 o)) ∧
  value n = value (sp_note_out_1 m) + value (sp_note_out_2 m) ∧ sp_eph_1 m ≠ sp_eph_2 m ∧
  signed_by gpk (sp_frost_r m) (sp_frost_z m)
    (BjjSuite.msgSplit (so_root o) (so_nullifier o) (sm_leaf (so_out1 o)) (sm_leaf (so_out2 o)) (assetId n)).
Proof.
  intros Hidx. unfold split_multisig. intros H'. open_spend. cbn [so_root so_nullifier so_out1 so_out2].
  unfold consumed_note, kept_note. split_and!; first [done | lia | congruence].
Qed.

(** A join spends two different notes of one group in one tree, in the order of
    their indices, and both signatures are over the same message. *)
Theorem join_multisig_sound m o : 0 <= jm_index_a m → 0 <= jm_index_b m → join_multisig m = Some o →
  let gpk := jm_gpk_a m in let asset := assetId (jm_note_a m) in
  let msg := BjjSuite.msgJoin (jo_root o) (jo_nullifier_a o) (jo_nullifier_b o) (sm_leaf (jo_out o)) asset in
  jm_gpk_b m = gpk ∧ jm_index_a m < jm_index_b m ∧ jo_nullifier_a o ≠ jo_nullifier_b o ∧
  consumed_note (jm_note_a m) gpk (jm_index_a m) (jm_path_a m) (jo_nullifier_a o) (jo_root o) ∧
  consumed_note (jm_note_b m) gpk (jm_index_b m) (jm_path_b m) (jo_nullifier_b o) (jo_root o) ∧
  kept_note (jm_note_out m) gpk (jm_compliance m) (jm_eph_out m) asset (jm_index_a m + jm_index_b m * 2 ^ 32) (sm_leaf (jo_out o)) ∧
  assetId (jm_note_b m) = asset ∧ value (jm_note_a m) + value (jm_note_b m) = value (jm_note_out m) ∧
  signed_by gpk (jm_frost_r_a m) (jm_frost_z_a m) msg ∧ signed_by gpk (jm_frost_r_b m) (jm_frost_z_b m) msg.
Proof.
  intros Ha Hb. unfold join_multisig. intros H'. open_spend. cbn [jo_root jo_nullifier_a jo_nullifier_b jo_out].
  match goal with H : _ && _ = true |- _ => apply andb_true_iff in H as [?%Z.eqb_eq ?%Z.eqb_eq] end.
  assert (Eg : jm_gpk_b m = jm_gpk_a m) by (destruct (jm_gpk_a m), (jm_gpk_b m); cbn in *; by f_equal).
  rewrite Eg in *. match goal with H : _ mod 2 ^ 32 < _ |- _ => rewrite !Z.mod_small in H by lia end.
  match goal with H : assert_parents_bound _ _ _ = Some _ |- _ => rename H into Hp end.
  unfold assert_parents_bound, pack_parents, frAdd in Hp. rewrite assert_Some, Z.eqb_eq in Hp.
  rewrite !(Z.mod_small _ (2 ^ 32)) in Hp by lia. change 4294967296 with (2 ^ 32) in Hp.
  assert (Hsmall : jm_index_a m + jm_index_b m * 2 ^ 32 < MODULUS) by (assert (2 ^ 64 < MODULUS) by reflexivity; nia).
  rewrite (Z.mod_small (_ * _)), Z.mod_small in Hp by lia.
  unfold consumed_note, kept_note. split_and!; first [done | lia | congruence].
Qed.

(** ** What the circuits accept *)
(** A note of the group [gpk]. *)
Record group_note (n : Note) (gpk : Point) : Prop := {
  gn_version : noteVersion n = NOTE_VERSION;
  gn_type : noteType n = NOTE_TYPE_MULTISIG;
  gn_asset : assetId n < 2 ^ 160;
  gn_owner : owner n = BjjSuite.multisigOwner gpk;
}.
Lemma open_multisig_spec n k leaf idx siblings root : (∀ xs, in_field (poseidon_v1 xs)) → Kem.valid_scalar k →
  group_note n (Keys.Keys.publicKey k) → Trace.Note.leaf n = Ok leaf → in_field leaf → Forall in_field siblings → idx < 2 ^ 32 →
  Witness.foldPath leaf idx siblings = Ok root →
  open_multisig_note n (Keys.Keys.publicKey k) idx siblings = Some (computeNullifier (psi n) idx, root).
Proof.
  intros Hv1 Hk [Hver Hty Has Ho] [Hleaf _]%leaf_spec Hl Hs Hi Hf. destruct (publicKey_point k Hk) as [Ck Zk].
  unfold open_multisig_note, spend_membership_nullifier, assert_asset_id. change (256 ^ 20) with (2 ^ 160).
  rewrite Ck, Zk, assert_in_prime_subgroup_spec by done.
  change pubkey_owner with BjjSuite.multisigOwner.
  by rewrite Ho, Hver, Hty, !Z.eqb_refl, (proj2 (Z.ltb_lt _ _) Has), Hleaf, (inclusion_agrees _ _ _ Hv1 Hl Hs Hi), Hf.
Qed.
Lemma mint_self_multisig_spec eph cpk gpk cek asset v par c :
  let n := mkNote NOTE_VERSION asset NOTE_TYPE_MULTISIG 0 v (BjjSuite.multisigOwner gpk) (computePsi cek) par in
  Kem.deriveCek eph cpk = Ok cek → Trace.Note.leaf n = Ok c → Kem.valid_scalar eph →
  Keys.Keys.isEvenY (Keys.Keys.publicKey eph) = true → BjjSuite.multisigOwner gpk ≠ 0 → asset < 2 ^ 160 →
  assert_valid_compliance_pk cpk = Some tt ∧ note_input n = Some tt ∧
  mint_self_note_multisig n eph cpk gpk
  = Some (mkSelfMint c (Keys.Keys.publicKey eph) (dem_encrypt cek (Mint.transmitted_fields n))).
Proof.
  intros n Hcek Hleaf He Hev Hown Hasset. destruct (deriveCek_spec _ _ _ Hcek) as (Hd & Hs & Hp).
  destruct (leaf_spec _ _ Hleaf) as [Hl Hin]. split_and!; [done|done|].
  unfold mint_self_note_multisig, mint_common, assert_valid_note_type, assert_asset_id. change (256 ^ 20) with (2 ^ 160).
  rewrite Hs, Hd, Hl. cbn [mbind option_bind n owner noteVersion noteType conditionsHash assetId psi].
  change pubkey_owner with BjjSuite.multisigOwner.
  rewrite (proj2 (Z.eqb_neq _ _) Hown), (proj2 (Z.ltb_lt _ _) Hasset). cbn [assert negb mbind option_bind].
  change (psi_of cek) with (computePsi cek). rewrite !Z.eqb_refl.
  cbn [assert mbind option_bind Z.eqb NOTE_TYPE_MULTISIG NOTE_TYPE_STANDARD orb Pos.eqb c_eph_pub NOTE_VERSION].
  change (derive_public_key eph) with (Keys.Keys.publicKey eph).
  by rewrite publicKey_even, Hev by done.
Qed.
End GroupCircuit.
End GroupCircuit.
