(* ===== verification/GroupTransfer.v ===== *)
(** * A group's transfer, from the note to the proof
    ([packages/cli/src/proposal/assembleTransferMultisig.ts],
    [transferMultisigProposal.ts], and the group's builders of
    [packages/prover/src/circuits/builders.ts])

    The proposer assembles the witness once and posts it, as text, with the
    message that the members sign; whoever executes the proposal reads it back,
    adds the signature and proves.  [GroupMarshal] is the prover's conversion,
    [GroupTransfer] the assembly and the proposal; [GroupTransferSpec] shows that
    what is read back, with a signature that verifies, is a witness that the
    circuit of [GroupCircuits.v] accepts.  [Fr.toString] and the reading of a
    text by the prover are parameters. *)
From stdpp Require Import pretty.
From S2P Require Import Prelude Bytes Zq Tss Dkg Tree Keys Trace Mint State Circuits Keyring Discovery Compliance Frost Preflight SelfMint Assemble Multisig MultisigScan Coordinator Client Prover Text Session GroupCircuits.
Local Open Scope Z_scope.

(** ** [builders.ts] *)
Module GroupMarshal.
Import Trace.Note Marshal GroupCircuit.

Record TransferMultisigInputs := mkTransferMultisigInputs {
  tmi_compliancePk : Point; tmi_gpk : Point; tmi_frostR : Point; tmi_frostZ : Z; tmi_recipientInPub : option Point;
  tmi_recipientMultisig : option MultisigMemoRecipient; tmi_oldNote : Note; tmi_oldNoteIndex : Z; tmi_oldNotePath : list Z;
  tmi_memoNote : Note; tmi_memoEph : Z; tmi_changeNote : Note; tmi_changeEph : Z }.
Record SplitMultisigInputs := mkSplitMultisigInputs {
  smi_compliancePk : Point; smi_gpk : Point; smi_frostR : Point; smi_frostZ : Z; smi_noteIn : Note; smi_indexIn : Z;
  smi_pathIn : list Z; smi_noteOut1 : Note; smi_eph1 : Z; smi_noteOut2 : Note; smi_eph2 : Z }.
Record JoinMultisigInputs := mkJoinMultisigInputs {
  jmi_compliancePk : Point; jmi_gpkA : Point; jmi_frostRA : Point; jmi_frostZA : Z; jmi_noteA : Note; jmi_indexA : Z;
  jmi_pathA : list Z; jmi_gpkB : Point; jmi_frostRB : Point; jmi_frostZB : Z; jmi_noteB : Note; jmi_indexB : Z;
  jmi_pathB : list Z; jmi_noteOut : Note; jmi_ephOut : Z }.
Record WithdrawMultisigInputs := mkWithdrawMultisigInputs {
  wmi_withdrawValue : Z; wmi_recipient : Z; wmi_intentHash : Z; wmi_compliancePk : Point; wmi_gpk : Point;
  wmi_frostR : Point; wmi_frostZ : Z; wmi_oldNote : Note; wmi_oldNoteIndex : Z; wmi_oldNotePath : list Z;
  wmi_changeNote : Note; wmi_changeEph : Z }.

Definition buildTransferMultisigInputMap (i : TransferMultisigInputs) : result ProofInputError TransferMultisigMap :=
  '(spend, view) ← memoRecipientPoints (noteType (tmi_memoNote i)) (tmi_recipientInPub i) (tmi_recipientMultisig i);
  old_note ← marshalNote (tmi_oldNote i);
  memo_note ← marshalNote (tmi_memoNote i);
  change_note ← marshalNote (tmi_changeNote i);
  Ok (mkTransferMultisigMap (tmi_compliancePk i) (tmi_gpk i) (tmi_frostR i) (tmi_frostZ i) spend view old_note
        (tmi_oldNoteIndex i) (tmi_oldNotePath i) memo_note (tmi_memoEph i) change_note (tmi_changeEph i)).
Definition buildSplitMultisigInputMap (i : SplitMultisigInputs) : result ProofInputError SplitMultisigMap :=
  note_in ← marshalNote (smi_noteIn i);
  note_out_1 ← marshalNote (smi_noteOut1 i);
  note_out_2 ← marshalNote (smi_noteOut2 i);
  Ok (mkSplitMultisigMap (smi_compliancePk i) (smi_gpk i) (smi_frostR i) (smi_frostZ i) note_in (smi_indexIn i)
        (smi_pathIn i) note_out_1 (smi_eph1 i) note_out_2 (smi_eph2 i)).
Definition buildJoinMultisigInputMap (i : JoinMultisigInputs) : result ProofInputError JoinMultisigMap :=
  note_a ← marshalNote (jmi_noteA i);
  note_b ← marshalNote (jmi_noteB i);
  note_out ← marshalNote (jmi_noteOut i);
  Ok (mkJoinMultisigMap (jmi_compliancePk i) (jmi_gpkA i) (jmi_frostRA i) (jmi_frostZA i) note_a (jmi_indexA i)
        (jmi_pathA i) (jmi_gpkB i) (jmi_frostRB i) (jmi_frostZB i) note_b (jmi_indexB i) (jmi_pathB i) note_out
        (jmi_ephOut i)).
Definition buildWithdrawMultisigInputMap (i : WithdrawMultisigInputs) : result ProofInputError WithdrawMultisigMap :=
  withdraw_value ← marshalU128 (wmi_withdrawValue i);
  old_note ← marshalNote (wmi_oldNote i);
  change_note ← marshalNote (wmi_changeNote i);
  Ok (mkWithdrawMultisigMap withdraw_value (wmi_recipient i) (wmi_intentHash i) (wmi_compliancePk i) (wmi_gpk i)
        (wmi_frostR i) (wmi_frostZ i) old_note (wmi_oldNoteIndex i) (wmi_oldNotePath i) change_note (wmi_changeEph i)).
End GroupMarshal.

(** ** The assembly and its proposal *)
Module GroupTransfer.
Import Trace.Note Marshal GroupMarshal GroupCircuit MultisigNote Scanner Client Seal Proposal BjjSuite.
#[local] Existing Instance bjjCiphersuite.

Inductive TransferError :=
  | Misplaced (source scanner : Z) | Exceeds_note
  | Transfer_merkle (e : Witness.WitnessSourceError) | Transfer_counter (e : MsError) | Transfer_mint (e : MintError)
  | Transfer_parents (e : NoteError).
Inductive BuildError := Build_json (e : TextError) | Build_fr (x : Z) | Build_input (e : ProofInputError).

Section GroupTransfer.
Context `{BabyJubjub} `{Poseidon2} (fr_toString : Z → string).

(** *** [assembleTransferMultisig.ts] *)
Record AssembleTransferMultisigRequest := mkGroupRequest {
  gr_gpk : Point; gr_v : Z; gr_memberId : Z; gr_compliancePk : Point; gr_oldNoteView : MultisigNoteView;
  gr_transferValue : Z; gr_recipientInPub : Point; gr_recipientInKey : Z; gr_memoEph : Z }.
Record PartialInputs := mkPartialInputs {
  pi_compliancePk : Point; pi_recipientInPub : Point; pi_oldNote : Note; pi_oldNoteIndex : Z; pi_oldNotePath : list Z;
  pi_memoNote : Note; pi_memoEph : Z; pi_changeNote : Note; pi_changeEph : Z }.
Record AssembledTransferMultisig := mkAssembledMultisig {
  partialInputs : PartialInputs; message : Z; memo : Mint.MintedNote; changeCommitment : Z; am_root : Z }.

Definition mintSelfNoteMultisig (eph v asset : Z) (compliancePk gpk : Point) (par : Z) : result MintError (Note * Z) :=
  owner ← newFr (multisigOwner gpk);
  cek ← Kem.deriveCek eph compliancePk;
  let psi := computePsi cek in
  v ← newFr v;
  let note := mkNote 1 asset 1 0 v owner psi par in
  commitment ← map_err Note_error (leaf note);
  Ok (note, commitment).

Section assemble.
Context {S : Type} `{State.EphemeralCounterStore S} (witnessFor : Z → result Witness.WitnessSourceError Witness.MerkleWitness).
Definition assembleTransferMultisig (req : AssembleTransferMultisigRequest) : M S TransferError AssembledTransferMultisig :=
  let oldNoteView := gr_oldNoteView req in
  let old := v_note oldNoteView in
  w ← lift Transfer_merkle (witnessFor (v_commitment oldNoteView));
  if negb (Witness.leafIndex w =? v_leafIndex oldNoteView) then
    throw (Misplaced (Witness.leafIndex w) (v_leafIndex oldNoteView))
  else
    let changeValue := value old - gr_transferValue req in
    if changeValue <? 0 then throw Exceeds_note
    else
      '(changeEph, _) ← embed Transfer_counter (multisigDepositEph fr_toString (gr_v req) (gr_memberId req) (gr_gpk req));
      parents ← lift Transfer_parents (packParents (Witness.leafIndex w) 0);
      '(changeNote, changeCommitment) ← lift Transfer_mint (mintSelfNoteMultisig (mm_eph changeEph) changeValue
          (assetId old) (gr_compliancePk req) (gr_gpk req) parents);
      memo ← lift Transfer_mint (Mint.mintIncomingNote (gr_memoEph req) (gr_transferValue req) (gr_recipientInPub req)
          (gr_recipientInKey req) (assetId old) (gr_compliancePk req) PARENTS_HIDDEN);
      let message := msgTransfer (Witness.root w) (v_nullifier oldNoteView) (Mint.commitment memo) (Mint.m_tag memo)
                       changeCommitment (assetId old) in
      oldValue ← lift Transfer_mint (newFr (value old));
      let oldNote := mkNote (noteVersion old) (assetId old) (noteType old) (conditionsHash old) oldValue (owner old)
                       (psi old) (Trace.Note.parents old) in
      mret (mkAssembledMultisig
        (mkPartialInputs (gr_compliancePk req) (gr_recipientInPub req) oldNote (Witness.leafIndex w) (Witness.siblings w)
           (Mint.m_note memo) (gr_memoEph req) changeNote (mm_eph changeEph))
        message memo changeCommitment (Witness.root w)).
End assemble.

(** *** [transferMultisigProposal.ts] *)
Definition noteToHex (n : Note) : Json :=
  JObj [("noteVersion", JStr (fr_toString (noteVersion n))); ("assetId", JStr (fr_toString (assetId n)));
        ("noteType", JStr (fr_toString (noteType n))); ("conditionsHash", JStr (fr_toString (conditionsHash n)));
        ("value", JStr (fr_toString (value n))); ("owner", JStr (fr_toString (owner n)));
        ("psi", JStr (fr_toString (psi n))); ("parents", JStr (fr_toString (parents n)))].
(** [new Fr(BigInt(v))]. *)
Definition fr_of (v : option Json) : result BuildError Z :=
  n ← map_err Build_json (BigInt v); map_err (λ _, Build_fr n) (newFr n).
Definition fr_field (k : string) (h : option Json) : result BuildError Z := v ← map_err Build_json (prop k h); fr_of v.
Definition noteFromHex (h : option Json) : result BuildError Note :=
  noteVersion ← fr_field "noteVersion" h;
  assetId ← fr_field "assetId" h;
  noteType ← fr_field "noteType" h;
  conditionsHash ← fr_field "conditionsHash" h;
  value ← fr_field "value" h;
  owner ← fr_field "owner" h;
  psi ← fr_field "psi" h;
  parents ← fr_field "parents" h;
  Ok (mkNote noteVersion assetId noteType conditionsHash value owner psi parents).
Definition pointToHex (p : Point) : Json := JObj [("x", JStr (pretty p.1)); ("y", JStr (pretty p.2))].
Definition pointFromHexDec (h : option Json) : result BuildError Point :=
  x ← map_err Build_json (prop "x" h); x ← map_err Build_json (BigInt x);
  y ← map_err Build_json (prop "y" h); y ← map_err Build_json (BigInt y);
  Ok (x, y).

Definition serializeAssembledTransferMultisig (assembled : AssembledTransferMultisig) : Json :=
  let p := partialInputs assembled in
  JObj [("compliancePk", pointToHex (pi_compliancePk p)); ("recipientInPub", pointToHex (pi_recipientInPub p));
        ("oldNote", noteToHex (pi_oldNote p)); ("oldNoteIndex", JNum (pi_oldNoteIndex p));
        ("oldNotePath", JArr ((λ f, JStr (fr_toString f)) <$> pi_oldNotePath p)); ("memoNote", noteToHex (pi_memoNote p));
        ("memoEph", JStr (fr_toString (pi_memoEph p))); ("changeNote", noteToHex (pi_changeNote p));
        ("changeEph", JStr (fr_toString (pi_changeEph p)))].
Definition transferPayload (proposalId : string) (assembled : AssembledTransferMultisig) : Json :=
  JObj [("kind", JStr "transfer"); ("proposalId", JStr proposalId);
        ("messageHex", JStr ("0x" +:+ toString16 (message assembled)));
        ("details", serializeAssembledTransferMultisig assembled)].
Definition createTransferMultisigProposal `{Text, Aead} (nonce : list Z) (sessionId : string) (sessionKey : list Z)
    (proposalId : string) (assembled : AssembledTransferMultisig) : M CoordinatorClient ProposalError unit :=
  createProposal nonce sessionId sessionKey (transferPayload proposalId assembled).

(** [d.oldNotePath.map(...)]. *)
Definition path_of (v : option Json) : result BuildError (list Z) :=
  match v with Some (JArr l) => map_res (λ s, fr_of (Some s)) l | _ => Err (Build_json Type_error) end.
(** [d.oldNoteIndex.toString()], as the prover reads it. *)
Definition index_of (abi_integer : string → result TextError Z) (v : option Json) : result BuildError Z :=
  match v with
  | None | Some JNull => Err (Build_json Type_error)
  | Some (JNum n) => Ok n
  | Some v => map_err Build_json (abi_integer (String_of v))
  end.
Definition buildTransferMultisigInputsFromProposal (abi_integer : string → result TextError Z)
    (signature : Frost.Signature Point) (proposal : Json) (gpk : Point) : result BuildError TransferMultisigMap :=
  d ← map_err Build_json (prop "details" (Some proposal));
  let field k := map_err Build_json (prop k d) in
  compliancePk ← field "compliancePk"; compliancePk ← pointFromHexDec compliancePk;
  frostZ ← map_err (λ _, Build_fr (Frost.z signature)) (newFr (Frost.z signature));
  recipientInPub ← field "recipientInPub"; recipientInPub ← pointFromHexDec recipientInPub;
  oldNote ← field "oldNote"; oldNote ← noteFromHex oldNote;
  oldNoteIndex ← field "oldNoteIndex";
  oldNotePath ← field "oldNotePath"; oldNotePath ← path_of oldNotePath;
  memoNote ← field "memoNote"; memoNote ← noteFromHex memoNote;
  memoEph ← field "memoEph"; memoEph ← fr_of memoEph;
  changeNote ← field "changeNote"; changeNote ← noteFromHex changeNote;
  changeEph ← field "changeEph"; changeEph ← fr_of changeEph;
  oldNoteIndex ← index_of abi_integer oldNoteIndex;
  map_err Build_input (buildTransferMultisigInputMap
    (mkTransferMultisigInputs compliancePk gpk (Frost.R signature) frostZ (Some recipientInPub) None oldNote oldNoteIndex
       oldNotePath memoNote memoEph changeNote changeEph)).
End GroupTransfer.
End GroupTransfer.

(** ** What is posted is read back, and proves *)
Module GroupTransferSpec.
Import Trace.Note Circuit Marshal GroupMarshal GroupCircuit MultisigNote Scanner Seal Proposal ProposalSpec BjjSuite GroupTransfer.
#[local] Existing Instance bjjCiphersuite.
#[local] Arguments Circuit.assert_conserved : simpl never.

(** Reads the fields of an object literal. *)
Ltac read_fields := repeat match goal with |- context [prop ?k (Some (JObj ?f))] =>
  let rec find l := match l with (k, ?v) :: _ => v | _ :: ?l' => find l' end in
  let v := find f in change (prop k (Some (JObj f))) with (Ok (Some v) : result TextError (option Json)) end;
  cbn [map_err mbind result_bind].

Section Text.
(** Documented behaviour: [BigInt] reads what [Fr.toString] writes. *)
Context (fr_toString : Z → string) (Hfr : ∀ x, in_field x → parse_bigint (fr_toString x) = Ok x).
Context (abi_integer : string → result TextError Z).

Lemma fr_of_text x : in_field x → fr_of (Some (JStr (fr_toString x))) = Ok x.
Proof. intros Hx. unfold fr_of. cbn [BigInt String_of]. rewrite Hfr by done. cbn. by rewrite newFr_Ok. Qed.
Definition fr_note (n : Note) : Prop :=
  Forall in_field [noteVersion n; assetId n; noteType n; conditionsHash n; value n; owner n; psi n; parents n].
Lemma note_read n : fr_note n → noteFromHex (Some (noteToHex fr_toString n)) = Ok n.
Proof.
  unfold fr_note. rewrite !Forall_cons. intros (H1 & H2 & H3 & H4 & H5 & H6 & H7 & H8 & _). unfold noteFromHex, fr_field, noteToHex.
  read_fields. rewrite !fr_of_text by done. by destruct n.
Qed.
Lemma point_read p : canonical p → pointFromHexDec (Some (pointToHex p)) = Ok p.
Proof.
  intros [Hx Hy]. unfold pointFromHexDec, pointToHex. read_fields. rewrite !BigInt_pretty by lia. by destruct p.
Qed.
Lemma path_read l : Forall in_field l → path_of (Some (JArr ((λ f, JStr (fr_toString f)) <$> l))) = Ok l.
Proof.
  intros Hl. cbn [path_of]. induction Hl as [|x l Hx _ IH]; [done|]. rewrite fmap_cons. cbn [map_res].
  by rewrite fr_of_text, IH.
Qed.

(** The witness of a proposal, from its text and the signature. *)
Record fr_inputs (p : PartialInputs) : Prop := {
  fi_compliance : canonical (pi_compliancePk p); fi_recipient : canonical (pi_recipientInPub p);
  fi_old : fr_note (pi_oldNote p); fi_path : Forall in_field (pi_oldNotePath p); fi_memo : fr_note (pi_memoNote p);
  fi_memo_eph : in_field (pi_memoEph p); fi_change : fr_note (pi_changeNote p); fi_change_eph : in_field (pi_changeEph p) }.
Lemma build_from_payload pid out (sig : Frost.Signature Point) gpk : fr_inputs (partialInputs out) → in_field (Frost.z sig) →
  let p := partialInputs out in
  buildTransferMultisigInputsFromProposal abi_integer sig (transferPayload fr_toString pid out) gpk =
  map_err Build_input (buildTransferMultisigInputMap
    (mkTransferMultisigInputs (pi_compliancePk p) gpk (Frost.R sig) (Frost.z sig) (Some (pi_recipientInPub p)) None
       (pi_oldNote p) (pi_oldNoteIndex p) (pi_oldNotePath p) (pi_memoNote p) (pi_memoEph p) (pi_changeNote p) (pi_changeEph p))).
Proof.
  destruct out as [p m0 memo0 c0 r0]. cbn [partialInputs]. intros [] Hz. unfold buildTransferMultisigInputsFromProposal, transferPayload, serializeAssembledTransferMultisig.
  cbn [partialInputs]. read_fields. cbv zeta. read_fields.
  rewrite !point_read, !note_read, path_read, !fr_of_text, newFr_Ok by done. done.
Qed.
Lemma message_read pid out : 0 <= message out → message_of (transferPayload fr_toString pid out) = Ok (encodeMessage (message out)).
Proof. intros Hm. unfold message_of, transferPayload. read_fields. by rewrite BigInt_hex. Qed.

(** The payload survives its envelope. *)
Lemma plain_noteToHex n : plain (noteToHex fr_toString n).
Proof. apply plain_obj_strs; [apply (bool_decide_unpack _); by vm_compute|by repeat constructor..]. Qed.
Lemma plain_pointToHex p : plain (pointToHex p).
Proof. apply plain_obj_strs; [apply (bool_decide_unpack _); by vm_compute|by repeat constructor..]. Qed.
Lemma plain_transferPayload pid out : - 2 ^ 53 < pi_oldNoteIndex (partialInputs out) < 2 ^ 53 → plain (transferPayload fr_toString pid out).
Proof.
  intros Hi. apply plain_obj_strs; [apply (bool_decide_unpack _); by vm_compute|by repeat constructor|].
  do 3 (constructor; [constructor|]). constructor; [|constructor].
  apply plain_obj_strs; [apply (bool_decide_unpack _); by vm_compute|by repeat constructor|].
  repeat (constructor; [first [apply plain_pointToHex|apply plain_noteToHex|by constructor|idtac]|]); [|constructor].
  constructor. intros v (f & -> & _)%list_elem_of_fmap. constructor.
Qed.
End Text.

(** *** The assembly *)
Section assemble.
Context `{BabyJubjub} `{Poseidon2} `{PoseidonV1} `{CurveSub} (eight_inv : Z) (fr_toString : Z → string).
Context {S : Type} `{State.EphemeralCounterStore S} {CL : State.CounterLaws S}.
Context {L : BabyJubjubLaws} {SL : CurveSubLaws} {PF : Poseidon2Field}.
Context (Hv1 : ∀ xs, in_field (poseidon_v1 xs)) (Height : 0 <= eight_inv) (Hinv : 8 * eight_inv =[subOrder] 1)
  (Horder : subOrder <= Kem.BJJ_SUBGROUP_ORDER).
Context (witnessFor : Z → result Witness.WitnessSourceError Witness.MerkleWitness)
  (Hsource : Assemble.witness_verified witnessFor).

Lemma mintSelfNoteMultisig_Ok eph v asset cpk gpk par n c : mintSelfNoteMultisig eph v asset cpk gpk par = Ok (n, c) →
  ∃ cek, Kem.deriveCek eph cpk = Ok cek ∧
    n = mkNote NOTE_VERSION asset NOTE_TYPE_MULTISIG 0 v (multisigOwner gpk) (computePsi cek) par ∧ leaf n = Ok c ∧ in_field v.
Proof.
  unfold mintSelfNoteMultisig. intros (o & [-> _]%newFr_inv & (cek & Hc & (v' & [-> Hv]%newFr_inv & Hl)%bind_Ok)%bind_Ok)%bind_Ok.
  apply bind_Ok in Hl as (c' & Hl%map_err_Ok & [= <- <-]). by exists cek.
Qed.
Lemma packParents_nonneg idx par : packParents idx 0 = Ok par → 0 <= idx.
Proof. unfold packParents, assertU32. by destruct (Z.ltb_spec idx 0). Qed.
(** The ephemeral of the change. *)
Lemma deposit_eph v memberId gpk (s s' : S) m o : multisigDepositEph fr_toString v memberId gpk s = (s', Ok (m, o)) →
  Assemble.even_key (mm_eph m).
Proof.
  unfold multisigDepositEph. intros Hd. destruct (deposit_loop_spec _ _ _ _ _ _ _ _ Hd) as [_ Hs].
  destruct (Hs m o eq_refl) as (_ & _ & _ & He & Hev & _). unfold deriveSelfEph in He.
  apply bind_Ok in He as (salt & _ & (k & Hk & [= Ee Ep])%bind_Ok). apply GroupView.derive_field in Hk.
  pose proof (GroupView.toBjjScalar_bound k Hk) as Hb. rewrite Ee in *.
  assert (Ev : Keys.Keys.isEvenY (Keys.Keys.publicKey (mm_eph m)) = true).
  { change (Keys.Keys.publicKey (mm_eph m)) with (mulPointEscalar Base8 (mm_eph m)). rewrite gen_base by lia. congruence. }
  pose proof (GroupView.even_nonzero _ Hb Ev). split; [split; lia|done].
Qed.

(** What the proposer asks: a note of the group as its scanner reports it, an
    even recipient key and a fresh even ephemeral for the memo. *)
Record honest_request (req : AssembleTransferMultisigRequest) (group inKey : Z) : Prop := {
  rq_gpk : gr_gpk req = Keys.Keys.publicKey group; rq_group : Kem.valid_scalar group;
  rq_note : group_note (v_note (gr_oldNoteView req)) (gr_gpk req); rq_fields : fr_note (v_note (gr_oldNoteView req));
  rq_leaf : leaf (v_note (gr_oldNoteView req)) = Ok (v_commitment (gr_oldNoteView req));
  rq_nullifier : v_nullifier (gr_oldNoteView req)
    = computeNullifier (psi (v_note (gr_oldNoteView req))) (v_leafIndex (gr_oldNoteView req));
  rq_recipient : gr_recipientInPub req = Keys.Keys.publicKey inKey; rq_inKey : Assemble.even_key inKey;
  rq_memo : Assemble.even_key (gr_memoEph req); rq_compliance : canonical (gr_compliancePk req);
  rq_owner : Keys.Keys.pubkeyOwner (gr_recipientInPub req) ≠ 0; rq_self : multisigOwner (gr_gpk req) ≠ 0 }.

Lemma scalar_field k : Kem.valid_scalar k → in_field k.
Proof. intros [Hk Hb]. unfold in_field. assert (Kem.BJJ_SUBGROUP_ORDER < MODULUS) by reflexivity. lia. Qed.
Lemma asset_field n : fr_note n → in_field (assetId n).
Proof. unfold fr_note. rewrite !Forall_cons. tauto. Qed.
Lemma small_field x : 0 <= x < 2 ^ 128 → in_field x.
Proof. intros Hx. unfold in_field. assert (2 ^ 128 < MODULUS) by reflexivity. lia. Qed.

(** What the assembly returns, piece by piece. *)
Lemma assemble_parts req group inKey s s' out : honest_request req group inKey →
  assembleTransferMultisig fr_toString witnessFor req s = (s', Ok out) →
  let view := gr_oldNoteView req in let old := v_note view in let p := partialInputs out in
  pi_oldNote p = old ∧ pi_oldNoteIndex p = v_leafIndex view ∧ 0 <= gr_transferValue req <= value old ∧
  length (pi_oldNotePath p) = TREE_DEPTH ∧ Forall in_field (pi_oldNotePath p) ∧
  Witness.foldPath (v_commitment view) (pi_oldNoteIndex p) (pi_oldNotePath p) = Ok (am_root out) ∧
  pi_compliancePk p = gr_compliancePk req ∧ pi_recipientInPub p = gr_recipientInPub req ∧ pi_memoEph p = gr_memoEph req ∧
  pi_memoNote p = Mint.m_note (memo out) ∧ Assemble.even_key (pi_changeEph p) ∧
  packParents (pi_oldNoteIndex p) 0 = Ok (parents (pi_changeNote p)) ∧
  mintSelfNoteMultisig (pi_changeEph p) (value old - gr_transferValue req) (assetId old) (gr_compliancePk req) (gr_gpk req)
    (parents (pi_changeNote p)) = Ok (pi_changeNote p, changeCommitment out) ∧
  Mint.mintIncomingNote (gr_memoEph req) (gr_transferValue req) (gr_recipientInPub req) (gr_recipientInKey req) (assetId old)
    (gr_compliancePk req) PARENTS_HIDDEN = Ok (memo out) ∧
  message out = msgTransfer (am_root out) (v_nullifier view) (Mint.commitment (memo out)) (Mint.m_tag (memo out))
    (changeCommitment out) (assetId old).
Proof.
  intros Hreq Hrun. cbv zeta. unfold assembleTransferMultisig in Hrun.
  apply M_bind_Ok in Hrun as (? & w & [-> Hw]%lift_Ok & Hrun).
  destruct (Z.eqb_spec (Witness.leafIndex w) (v_leafIndex (gr_oldNoteView req))) as [Ei|]; [|done]. cbn [negb] in Hrun.
  destruct (Z.ltb_spec (value (v_note (gr_oldNoteView req)) - gr_transferValue req) 0) as [|Hv]; [done|].
  apply M_bind_Ok in Hrun as (s1 & [m o] & Hd%embed_Ok & Hrun).
  apply M_bind_Ok in Hrun as (? & par & [-> Hpar]%lift_Ok & Hrun).
  apply M_bind_Ok in Hrun as (? & [n c] & [-> Hn]%lift_Ok & Hrun).
  apply M_bind_Ok in Hrun as (? & me & [-> Hme]%lift_Ok & Hrun).
  apply M_bind_Ok in Hrun as (? & v' & [-> [-> _]%newFr_inv]%lift_Ok & Hrun). injection Hrun as <- <-.
  destruct (Hsource _ _ Hw) as (Hlen & Hfield & Hfold). apply deposit_eph in Hd.
  destruct (Assemble.incoming_note_proves _ _ _ _ _ _ _ _ Hme) as (Hvm & _).
  destruct (mintSelfNoteMultisig_Ok _ _ _ _ _ _ _ _ Hn) as (cek & _ & -> & _).
  cbn. rewrite Ei in *. split_and!; try first [done|lia]. by destruct (v_note (gr_oldNoteView req)).
Qed.

Lemma minted_fr_note asset ty v own cek par : in_field asset → 0 <= v < 2 ^ 128 → in_field own → in_field par → (ty = 0 ∨ ty = 1) →
  fr_note (mkNote 1 asset ty 0 v own (computePsi cek) par).
Proof.
  intros Ha Hv Ho Hp Hty. assert (in_field 0 ∧ in_field 1) as [? ?] by (split; split; done).
  repeat (constructor; cbn; [first [done|by apply small_field|apply poseidon2_field|by destruct Hty as [-> | ->]]|]). constructor.
Qed.
Lemma assembled_fields req group inKey s s' out : honest_request req group inKey →
  assembleTransferMultisig fr_toString witnessFor req s = (s', Ok out) → fr_inputs (partialInputs out).
Proof.
  intros Hreq Hrun. destruct (assemble_parts _ _ _ _ _ _ Hreq Hrun)
    as (Eo & _ & Hv & _ & Hp & _ & Ec & Er & Em & Emn & He & Hpar & Hself & Hme & _).
  destruct (mintSelfNoteMultisig_Ok _ _ _ _ _ _ _ _ Hself) as (cek & _ & En & Hl & _).
  destruct (Assemble.incoming_note_proves _ _ _ _ _ _ _ _ Hme) as (Hvm & _).
  pose proof (asset_field _ (rq_fields _ _ _ Hreq)) as Ha. destruct (parents_spec _ _ Hpar) as [Hi _].
  assert (Hpf : in_field (parents (pi_changeNote (partialInputs out)))).
  { revert Hpar. unfold packParents, assertU32. destruct (Z.ltb_spec (pi_oldNoteIndex (partialInputs out)) 0), (Z.ltb_spec 0xffffffff (pi_oldNoteIndex (partialInputs out))); try done.
    cbn. intros [= <-]. apply small_field. lia. }
  assert (Hmn : fr_note (Mint.m_note (memo out))).
  { unfold Mint.mintIncomingNote in Hme. apply bind_Ok in Hme as (b & Hb & (w & _ & (t & _ & [= <-])%bind_Ok)%bind_Ok).
    cbn [Mint.m_note]. destruct (Mint.finish_Ok _ _ _ _ _ _ _ _ Hb) as (_ & _ & -> & _).
    apply minted_fr_note; [done|done|apply poseidon2_field|by split|by left]. }
  split; rewrite ?Ec, ?Er, ?Eo, ?Em, ?Emn; try done.
  - apply Hreq.
  - rewrite (rq_recipient _ _ _ Hreq), Kem.public_gen by apply (rq_inKey _ _ _ Hreq). apply Bjj.gen_canonical.
  - apply Hreq.
  - apply scalar_field, (rq_memo _ _ _ Hreq).
  - rewrite En. destruct (leaf_spec _ _ Hl) as [_ Hb%note_input_Some]. rewrite En in Hb. cbn in Hb.
    apply minted_fr_note; [done|done|apply poseidon2_field|done|by right].
  - apply scalar_field, He.
Qed.

(** The circuit accepts an assembled transfer once it is signed. *)
Lemma assembled_accepts req group inKey s s' out R z : honest_request req group inKey →
  gr_memoEph req ≠ pi_changeEph (partialInputs out) →
  assembleTransferMultisig fr_toString witnessFor req s = (s', Ok out) →
  verify_frost_spend eight_inv (gr_gpk req) R z (message out) = Some tt →
  let p := partialInputs out in let view := gr_oldNoteView req in
  ∃ m o, buildTransferMultisigInputMap (mkTransferMultisigInputs (pi_compliancePk p) (gr_gpk req) R z
      (Some (pi_recipientInPub p)) None (pi_oldNote p) (pi_oldNoteIndex p) (pi_oldNotePath p) (pi_memoNote p) (pi_memoEph p)
      (pi_changeNote p) (pi_changeEph p)) = Ok m ∧
    transfer_multisig eight_inv m = Some o ∧
    to_root o = am_root out ∧ to_nullifier o = v_nullifier view ∧ Circuit.im_leaf (to_memo o) = Mint.commitment (memo out) ∧
    Circuit.im_tag (to_memo o) = Mint.m_tag (memo out) ∧ sm_leaf (to_change o) = changeCommitment out.
Proof.
  intros Hreq Hne Hrun Hsig. cbv zeta. destruct (assemble_parts _ _ _ _ _ _ Hreq Hrun)
    as (Eo & Ei & Hv & Hlen & Hp & Hfold & Ec & Er & Em & Emn & He & Hpar & Hself & Hme & Emsg).
  destruct Hreq as [Hgpk Hgrp Hnote Hfr Hleaf Hnull Hrec Hin Hmemo Hcan Hown Hown'].
  pose proof (gn_asset _ _ Hnote) as Hasset. destruct (parents_spec _ _ Hpar) as [Hidx Hbound].
  destruct (Assemble.incoming_note_proves _ _ _ _ _ _ _ _ Hme) as (Hvm & Hma & Hmv & Hmp & Hmt).
  rewrite Hrec in Hme, Hown.
  destruct (mint_incoming_spec eight_inv _ _ _ _ _ _ _ _ Hme) as (Hmin & wr & ctm & Hw & _ & Hmc);
    try first [done | apply Hmemo | apply Hin].
  destruct (mintSelfNoteMultisig_Ok _ _ _ _ _ _ _ _ Hself) as (cek & Hcek & En & Hl & _).
  destruct (mint_self_multisig_spec _ _ (gr_gpk req) _ (assetId (v_note (gr_oldNoteView req)))
      (value (v_note (gr_oldNoteView req)) - gr_transferValue req) (parents (pi_changeNote (partialInputs out))) (changeCommitment out) Hcek)
    as (Hcpk & Hcin & Hcc); try first [done | apply He | by rewrite <- En].
  rewrite <- En in Hcin, Hcc. destruct (leaf_spec _ _ Hleaf) as [Hlf Hold].
  assert (Hlfield : in_field (v_commitment (gr_oldNoteView req))) by (rewrite <- Hlf; apply poseidon2_field).
  rewrite Hgpk in Hnote. pose proof (open_multisig_spec eight_inv Height Hinv _ _ _ _ _ _ Hv1 Hgrp Hnote Hleaf Hlfield Hp Hidx Hfold) as Hopen.
  rewrite <- Hgpk in Hopen.
  assert (Hca : assetId (pi_changeNote (partialInputs out)) = assetId (v_note (gr_oldNoteView req))) by by rewrite En.
  assert (Hcv : value (pi_changeNote (partialInputs out)) = value (v_note (gr_oldNoteView req)) - gr_transferValue req) by by rewrite En.
  unfold buildTransferMultisigInputMap. cbn [tmi_memoNote tmi_recipientInPub tmi_recipientMultisig tmi_oldNote tmi_changeNote].
  rewrite Emn, Eo, Hmt. cbn [memoRecipientPoints Z.eqb Mint.NOTE_TYPE_STANDARD Circuit.NOTE_TYPE_MULTISIG mbind result_bind].
  rewrite !Assemble.marshal_ok by done. cbn [mbind result_bind]. eexists _, _. split; [reflexivity|].
  unfold transfer_multisig. cbn. rewrite Hold, Hmin, Hcin, (Assemble.path_ok _ Hlen), Ec, Hcpk. cbn.
  rewrite Hopen. cbn. rewrite Hma, Hca, !Z.eqb_refl, Hmp, Hmv, Hcv, Er, Hrec, Em, Hmc, Hcc.
  rewrite (conserved_spec _ (gr_transferValue req) (value (v_note (gr_oldNoteView req)) - gr_transferValue req) 0)
    by (try (apply note_input_Some in Hold); lia).
  rewrite (Hbound (pi_changeNote (partialInputs out))) by done.
  rewrite (proj2 (Z.eqb_neq (gr_memoEph req) _)) by done. cbn.
  rewrite <- Ei in Hnull. rewrite <- Hnull. change msg_transfer with msgTransfer. rewrite <- Emsg, Hsig. cbn. done.
Qed.

(** C2. A group's transfer proves.  The proposer assembles it for a note of the
    group; what is posted is text that survives its envelope and whose message is
    the assembled one.  Given any signature of that message that [verify]
    accepts, whoever reads the proposal back builds inputs that the circuit
    accepts, and the proof publishes the root and the nullifier of the note, the
    memo's leaf and tag and the change's leaf; the memo carries the amount, and
    the group keeps the rest. *)
Theorem group_transfer_proves abi_integer req group inKey s s' out r z pid :
  (∀ x, in_field x → parse_bigint (fr_toString x) = Ok x) →
  honest_request req group inKey → gr_memoEph req ≠ pi_changeEph (partialInputs out) →
  assembleTransferMultisig fr_toString witnessFor req s = (s', Ok out) →
  Kem.valid_scalar r → Kem.valid_scalar z →
  let sig := Frost.mkSignature (Keys.Keys.publicKey r) z in
  Frost.verify (gr_gpk req) (encodeMessage (message out)) sig = true →
  let v := transferPayload fr_toString pid out in let view := gr_oldNoteView req in let p := partialInputs out in
  plain v ∧ message_of v = Ok (encodeMessage (message out)) ∧
  ∃ m o, buildTransferMultisigInputsFromProposal abi_integer sig v (gr_gpk req) = Ok m ∧
    transfer_multisig eight_inv m = Some o ∧
    to_root o = am_root out ∧ to_nullifier o = v_nullifier view ∧ Circuit.im_leaf (to_memo o) = Mint.commitment (memo out) ∧
    Circuit.im_tag (to_memo o) = Mint.m_tag (memo out) ∧ sm_leaf (to_change o) = changeCommitment out ∧
    value (pi_memoNote p) = gr_transferValue req ∧
    value (pi_changeNote p) = value (v_note view) - gr_transferValue req ∧ owner (pi_changeNote p) = multisigOwner (gr_gpk req).
Proof.
  intros Hfr Hreq Hne Hrun Hr Hz sig Hver v view p. pose proof (assembled_fields _ _ _ _ _ _ Hreq Hrun) as Hin.
  destruct (assemble_parts _ _ _ _ _ _ Hreq Hrun)
    as (_ & _ & _ & _ & _ & _ & _ & _ & _ & Emn & _ & Hpar & Hself & Hme & Emsg).
  destruct (Assemble.incoming_note_proves _ _ _ _ _ _ _ _ Hme) as (_ & _ & Hmv & _).
  destruct (mintSelfNoteMultisig_Ok _ _ _ _ _ _ _ _ Hself) as (cek & _ & En & _).
  assert (Hm : in_field (message out)) by (rewrite Emsg; apply poseidon2_field).
  pose proof (rq_gpk _ _ _ Hreq) as Hg. pose proof (rq_group _ _ _ Hreq) as Hgv.
  assert (Hsig : verify_frost_spend eight_inv (gr_gpk req) (Keys.Keys.publicKey r) z (message out) = Some tt).
  { rewrite Hg in Hver |- *. by apply verify_accepted. }
  destruct (assembled_accepts _ _ _ _ _ _ _ _ Hreq Hne Hrun Hsig) as (m & o & Hbuild & Hacc & ? & ? & ? & ? & ?).
  split_and!.
  - apply plain_transferPayload. destruct (parents_spec _ _ Hpar) as [Hi _]. apply packParents_nonneg in Hpar. lia.
  - apply message_read. apply Hm.
  - exists m, o. split; [|split_and!; try done; unfold p; [by rewrite Emn|by rewrite En..]].
    unfold v. rewrite build_from_payload by (done || by apply scalar_field). cbn [Frost.R Frost.z sig]. by rewrite Hbuild.
Qed.
End assemble.
End GroupTransferSpec.

(** ** Witnesses: the group of key 6 spends a note of a one-leaf tree *)
Module GroupTransferWitness.
Import EvenCurve MintWitness Trace.Note Circuit GroupCircuit State.Counter MultisigNote Scanner Proposal BjjSuite GroupTransfer GroupTransferSpec.
#[local] Existing Instance bjjCiphersuite.
#[local] Existing Instance AssembleWitness.sum_v1.

#[local] Instance toy_sub : CurveSub := λ a b, pt (a.1 - b.1).
#[local] Instance toy_sub_laws : CurveSubLaws.
Proof.
  intros i j k _ _ _ E. unfold curve_sub, toy_sub, mulPointEscalar, Base8, even_curve. apply pt_eqm. rewrite !pt_fst.
  cbn [fst]. change subOrder with 13 in E. rewrite !Z.mul_1_l, <- E. apply eqm_of_eq. ring.
Qed.

Definition toy_gpk : Point := Keys.Keys.publicKey 6.
Definition group_owned : Note := mkNote 1 9 1 0 100 (multisigOwner toy_gpk) 3 0.
Definition group_leaf : Z := poseidon2 [1; 9; 1; 0; 100; multisigOwner toy_gpk; 3; 0].
Definition toy_source (l : Z) : result Witness.WitnessSourceError Witness.MerkleWitness :=
  if l =? group_leaf then Ok (Witness.mkMerkleWitness 0 (replicate 32 0) group_leaf)
  else Err (Witness.WitnessError Witness.LEAF_NOT_FOUND).
Lemma group_source_verified : Assemble.witness_verified toy_source.
Proof.
  intros l w. unfold toy_source. destruct (Z.eqb_spec l group_leaf) as [->|_]; [|done]. intros [= <-].
  split_and!; [done|change (Forall in_field (replicate 32 0)); by apply Forall_replicate|by vm_compute].
Qed.
Definition toy_view : MultisigNoteView :=
  mkView group_owned group_leaf 0 (computeNullifier 3 0) false (Some 2) (Some 0).
Definition toy_request : AssembleTransferMultisigRequest :=
  mkGroupRequest toy_gpk 11 2 (Keys.Keys.publicKey 3) toy_view 40 (Keys.Keys.publicKey 7) 7 5.
Lemma toy_honest : honest_request toy_request 6 7.
Proof.
  assert (Hs : ∀ k, 0 < k < 13 → Assemble.even_key k).
  { intros k Hk. split; [by apply valid_small|]. unfold Keys.Keys.isEvenY, Keys.Keys.publicKey, mulPointEscalar, Base8, even_curve, pt.
    cbn [fst snd]. by rewrite Z.mul_1_l, Z.mod_small, (proj2 (Z.eqb_neq k 0)) by lia. }
  split.
  - done.
  - by apply valid_small.
  - by split.
  - repeat (constructor; [split; vm_compute; congruence|]). constructor.
  - vm_compute. reflexivity.
  - done.
  - done.
  - apply Hs. lia.
  - apply Hs. cbn. lia.
  - split; split; vm_compute; congruence.
  - vm_compute. congruence.
  - vm_compute. congruence.
Qed.
Definition toy_run := assembleTransferMultisig pretty toy_source toy_request (mkInMemory ∅ false).
(** The nonce 4: the response is [4 + c * 6] modulo the order. *)
Definition toy_z (m : Z) : Z := (4 + frost_challenge (Keys.Keys.publicKey 4) toy_gpk (encodeMessage m) * 6) mod 13.
Definition toy_sig (m : Z) : Frost.Signature Point := Frost.mkSignature (Keys.Keys.publicKey 4) (toy_z m).

Lemma group_transfer_proves_witness : ∃ out m o, toy_run.2 = Ok out ∧
  buildTransferMultisigInputsFromProposal parse_bigint (toy_sig (message out)) (transferPayload pretty "p" out) toy_gpk = Ok m ∧
  transfer_multisig 5 m = Some o ∧ to_nullifier o = computeNullifier 3 0 ∧ value (pi_changeNote (partialInputs out)) = 60.
Proof.
  destruct toy_run as [s' [out|e]] eqn:E; [|vm_compute in E; discriminate E].
  destruct (group_transfer_proves 5 pretty AssembleWitness.sum_v1_field ltac:(lia) AssembleWitness.inverse_of_8 ltac:(by vm_compute)
    toy_source group_source_verified parse_bigint toy_request 6 7 (mkInMemory ∅ false) s' out 4 (toy_z (message out)) "p")
    as (_ & _ & m & o & Hm & Ho & _ & Hn & _ & _ & _ & _ & Hc & _).
  - intros x Hx. apply parse_pretty. apply Hx.
  - apply toy_honest.
  - vm_compute in E. injection E as _ <-. by vm_compute.
  - exact E.
  - by apply valid_small.
  - apply valid_small. vm_compute in E. injection E as _ <-. vm_compute. done.
  - vm_compute in E. injection E as _ <-. by vm_compute.
  - exists out, m, o. split_and!; [reflexivity|exact Hm|exact Ho|exact Hn|exact Hc].
Defined.

Definition toy_map : option TransferMultisigMap :=
  match toy_run.2 with
  | Ok out => match buildTransferMultisigInputsFromProposal parse_bigint (toy_sig (message out)) (transferPayload pretty "p" out) toy_gpk with
              | Ok m => Some m | Err _ => None end
  | Err _ => None
  end.
Lemma transfer_multisig_sound_witness : ∃ m o, toy_map = Some m ∧ transfer_multisig 5 m = Some o ∧
  value (tm_old_note m) = value (tm_memo_note m) + value (tm_change_note m) ∧
  Frost.verify toy_gpk (encodeMessage (msgTransfer (to_root o) (to_nullifier o) (Circuit.im_leaf (to_memo o))
    (Circuit.im_tag (to_memo o)) (sm_leaf (to_change o)) 9)) (Frost.mkSignature (tm_frost_r m) (tm_frost_z m)) = true.
Proof.
  destruct toy_map as [m|] eqn:Em; [|vm_compute in Em; discriminate Em].
  destruct (transfer_multisig 5 m) as [o|] eqn:Eo; [|vm_compute in Em; injection Em as <-; vm_compute in Eo; discriminate Eo].
  exists m, o. split_and!; [reflexivity|exact Eo|..].
  - apply (transfer_multisig_sound 5 AssembleWitness.inverse_of_8 m o); [|exact Eo]. vm_compute in Em. injection Em as <-. by vm_compute.
  - vm_compute in Em. injection Em as <-. vm_compute in Eo. injection Eo as <-. by vm_compute.
Defined.
Lemma verify_frost_agrees_witness : verify_frost_spend 5 toy_gpk (Keys.Keys.publicKey 4) (toy_z 21) 21 = Some tt.
Proof.
  apply (verify_frost_agrees 5 ltac:(lia) AssembleWitness.inverse_of_8 6 4 (toy_z 21) 21);
    [by apply valid_small|by apply valid_small|apply valid_small; by vm_compute|by vm_compute|by vm_compute].
Defined.
(** A signature of another message is refused. *)
Example other_message_refused : verify_frost_spend 5 toy_gpk (Keys.Keys.publicKey 4) (toy_z 21) 22 = None.
Proof. vm_compute. reflexivity. Qed.
End GroupTransferWitness.
