(* ===== verification/Web.v ===== *)
(** * The web application's pure parts ([apps/web/src/lib])

    [Token] is the text form of pay addresses, claim links and invites,
    [Payroll] the reading of a payroll table ([payrollPlan.ts]), [Keystore] the
    encrypted records of the browser ([keystore.ts]) and of the command line
    ([packages/cli/src/keystore.ts]), [Balance] the totals of the two scans.
    What the browser adds to the runtime of [Text.v] is the class [Browser]. *)
From stdpp Require Import pretty.
From S2P Require Import Prelude Bytes Client Prover Text Session.
Local Open Scope Z_scope.
Notation chars := String.list_ascii_of_string.
Notation of_chars := String.string_of_list_ascii.

Class Browser `{Text} := {
  atob : string → option (list Z);            (* [None] when it throws *)
  strict_utf8 : list Z → option string;       (* [decodeURIComponent(escape(s))], which throws on malformed bytes *)
}.
(** Documented behaviour: [atob] accepts a text without its padding. *)
Class BrowserLaws `{Browser} : Prop := {
  atob_unpadded l : Forall is_byte l →
    atob (of_chars (reverse (Base64.drop_pad (reverse (chars (to_base64 l)))))) = Some l;
  strict_utf8_utf8 s : strict_utf8 (utf8 s) = Some s;
}.

(** ** [receiveAddress.ts], [claimToken.ts], the invites of [treasury.ts] *)
Module Token.
Inductive TokenError := Bad_base64 | Bad_utf8 | Bad_json (e : TextError) | Malformed_claim.
Section Token.
Context `{Browser}.

(** [s.replace(/a/g, b)]. *)
Definition replace_all (a b : ascii) (l : list ascii) : list ascii := (λ c, if Ascii.eqb c a then b else c) <$> l.
(** [btoa(unescape(encodeURIComponent(json)))...replace(/=+$/, "")]. *)
Definition to_url (json : string) : string :=
  let b64 := chars (to_base64 (utf8 json)) in
  of_chars (reverse (Base64.drop_pad (reverse (replace_all "/" "_" (replace_all "+" "-" b64))))).
Definition of_url (encoded : string) : result TokenError string :=
  let b64 := of_chars (replace_all "_" "/" (replace_all "-" "+" (chars encoded))) in
  match atob b64 with
  | None => Err Bad_base64
  | Some bytes => match strict_utf8 bytes with None => Err Bad_utf8 | Some json => Ok json end
  end.
Definition read_json (encoded : string) : result TokenError Json := json ← of_url encoded; map_err Bad_json (parse json).

Record ReceiveAddress := mkReceive { ra_index : Z; ra_pubX : Z; ra_pubY : Z }.
Definition encodeReceiveAddress (addr : ReceiveAddress) : string :=
  to_url (stringify (JObj [("index", JStr (pretty (ra_index addr))); ("pubX", JStr (pretty (ra_pubX addr)));
                           ("pubY", JStr (pretty (ra_pubY addr)))])).
Definition big_field (k : string) (v : Json) : result TokenError Z :=
  x ← map_err Bad_json (prop k (Some v)); map_err Bad_json (BigInt x).
Definition decodeReceiveAddress (encoded : string) : result TokenError ReceiveAddress :=
  parsed ← read_json encoded;
  index ← big_field "index" parsed;
  pubX ← big_field "pubX" parsed;
  pubY ← big_field "pubY" parsed;
  Ok (mkReceive index pubX pubY).

Record ClaimToken := mkClaim {
  ct_indexerUrl : string; ct_incomingAddressHint : string; ct_fromLeaf : Z; ct_toLeaf : Z; ct_programId : option string;
  ct_mint : option string; ct_rpcUrl : option string; ct_decimals : option Z; ct_symbol : option string;
  ct_payerName : option string }.
(** [JSON.stringify] leaves undefined fields out. *)
Definition optional {A} (k : string) (f : A → Json) (v : option A) : list (string * Json) :=
  match v with None => [] | Some a => [(k, f a)] end.
Definition claim_json (t : ClaimToken) : Json :=
  JObj ([("indexerUrl", JStr (ct_indexerUrl t)); ("incomingAddressHint", JStr (ct_incomingAddressHint t));
         ("fromLeaf", JNum (ct_fromLeaf t)); ("toLeaf", JNum (ct_toLeaf t))]
        ++ optional "programId" JStr (ct_programId t) ++ optional "mint" JStr (ct_mint t)
        ++ optional "rpcUrl" JStr (ct_rpcUrl t) ++ optional "decimals" JNum (ct_decimals t)
        ++ optional "symbol" JStr (ct_symbol t) ++ optional "payerName" JStr (ct_payerName t)).
Definition encodeClaimToken (token : ClaimToken) : string := to_url (stringify (claim_json token)).
Definition field (k : string) (v : Json) : result TokenError (option Json) := map_err Bad_json (prop k (Some v)).
Definition text_field (v : option Json) : result TokenError string :=
  match v with Some (JStr s) => Ok s | _ => Err Malformed_claim end.
Definition number_field (v : option Json) : result TokenError Z :=
  match v with Some (JNum n) => Ok n | _ => Err Malformed_claim end.
Definition optional_field {A} (f : option Json → result TokenError A) (v : option Json) : result TokenError (option A) :=
  match v with None => Ok None | Some _ => a ← f v; Ok (Some a) end.
Definition decodeClaimToken (encoded : string) : result TokenError ClaimToken :=
  parsed ← read_json encoded;
  indexerUrl ← field "indexerUrl" parsed; indexerUrl ← text_field indexerUrl;
  incomingAddressHint ← field "incomingAddressHint" parsed; incomingAddressHint ← text_field incomingAddressHint;
  fromLeaf ← field "fromLeaf" parsed; fromLeaf ← number_field fromLeaf;
  toLeaf ← field "toLeaf" parsed; toLeaf ← number_field toLeaf;
  programId ← field "programId" parsed; programId ← optional_field text_field programId;
  mint ← field "mint" parsed; mint ← optional_field text_field mint;
  rpcUrl ← field "rpcUrl" parsed; rpcUrl ← optional_field text_field rpcUrl;
  decimals ← field "decimals" parsed; decimals ← optional_field number_field decimals;
  symbol ← field "symbol" parsed; symbol ← optional_field text_field symbol;
  payerName ← field "payerName" parsed; payerName ← optional_field text_field payerName;
  Ok (mkClaim indexerUrl incomingAddressHint fromLeaf toLeaf programId mint rpcUrl decimals symbol payerName).

Record TreasuryInvite := mkInvite { ti_coordinatorUrl : string; ti_sessionId : string; ti_name : string; ti_threshold : Z; ti_memberCount : Z }.
Definition invite_json (i : TreasuryInvite) : Json :=
  JObj [("coordinatorUrl", JStr (ti_coordinatorUrl i)); ("sessionId", JStr (ti_sessionId i)); ("name", JStr (ti_name i));
        ("threshold", JNum (ti_threshold i)); ("memberCount", JNum (ti_memberCount i))].
Definition encodeInvite (invite : TreasuryInvite) : string := to_url (stringify (invite_json invite)).
(** Cast to an invite, unchecked. *)
Definition decodeInvite (token : string) : result TokenError Json := read_json token.

(** *** What is written is read back *)
Context {TL : TextLaws} {BL : BrowserLaws}.
Lemma replace_back a b l : Forall (λ c, c ≠ b) l → replace_all b a (replace_all a b l) = l.
Proof.
  unfold replace_all. rewrite <- list_fmap_compose. induction 1 as [|c l Hc _ IH]; [done|]. rewrite fmap_cons, IH. f_equal.
  cbn. destruct (Ascii.eqb_spec c a) as [->|Hn]; [by rewrite Ascii.eqb_refl|].
  by destruct (Ascii.eqb_spec c b).
Qed.
Lemma replace_drop_pad a b l : a ≠ "="%char → b ≠ "="%char →
  replace_all a b (Base64.drop_pad l) = Base64.drop_pad (replace_all a b l).
Proof.
  intros Ha Hb. unfold replace_all. induction l as [|c l IH]; [done|]. rewrite fmap_cons. cbn [Base64.drop_pad].
  destruct (Ascii.eqb_spec c "=") as [->|Hc].
  - rewrite (proj2 (Ascii.eqb_neq _ _) (not_eq_sym Ha)). exact IH.
  - rewrite fmap_cons. destruct (Ascii.eqb_spec c a) as [_|_].
    + by rewrite (proj2 (Ascii.eqb_neq _ _) Hb).
    + by rewrite (proj2 (Ascii.eqb_neq _ _) Hc).
Qed.
Lemma replace_reverse a b l : replace_all a b (reverse l) = reverse (replace_all a b l).
Proof. unfold replace_all. by rewrite fmap_reverse. Qed.
Lemma replace_comm a b c d l : a ≠ c → b ≠ c → d ≠ a → replace_all a b (replace_all c d l) = replace_all c d (replace_all a b l).
Proof.
  intros Hac Hbc Hda. unfold replace_all. rewrite <- !list_fmap_compose. apply list_fmap_ext. intros _ x _. cbn.
  destruct (Ascii.eqb_spec x a) as [->|Ha].
  - rewrite (proj2 (Ascii.eqb_neq _ _) Hac), (proj2 (Ascii.eqb_neq _ _) Hbc). by rewrite Ascii.eqb_refl.
  - destruct (Ascii.eqb_spec x c) as [->|Hc]; [|by rewrite (proj2 (Ascii.eqb_neq _ _) Ha)].
    by rewrite (proj2 (Ascii.eqb_neq _ _) Hda).
Qed.
Lemma base64_chars l : Forall is_byte l →
  Forall (λ c, c ≠ "-"%char ∧ c ≠ "_"%char) (chars (to_base64 l)).
Proof.
  intros Hl. destruct (base64_form l Hl) as [_ Hf]. unfold Server.BASE64 in Hf. apply andb_true_iff in Hf as [_ Hf].
  rewrite forallb_forall in Hf. apply Forall_reverse. revert Hf. generalize (reverse (chars (to_base64 l))). clear.
  intros k. induction k as [|c k IH]; [done|]. cbn [Server.pads]. destruct (Ascii.eqb_spec c "=") as [->|_]; intros Hf.
  - constructor; [done|]. by apply IH.
  - apply Forall_forall. intros x Hx%list_elem_of_In. specialize (Hf x Hx). split; intros ->; done.
Qed.
Lemma of_url_to_url json : of_url (to_url json) = Ok json.
Proof.
  unfold of_url, to_url. rewrite String.list_ascii_of_string_of_list_ascii.
  rewrite !replace_reverse, !replace_drop_pad, !replace_reverse by done.
  pose proof (base64_chars (utf8 json) (utf8_bytes _)) as Hc.
  rewrite (replace_comm "-" "+" "/" "_"), (replace_back "+" "-"), (replace_back "/" "_") by (done || (eapply Forall_impl; [exact Hc|]; by intros c [])).
  by rewrite atob_unpadded, strict_utf8_utf8 by apply utf8_bytes.
Qed.
Lemma read_json_written v : plain v → read_json (to_url (stringify v)) = Ok v.
Proof. intros Hv. unfold read_json. rewrite of_url_to_url. cbn. by rewrite parse_stringify. Qed.
Lemma plain_fields fields : NoDup fields.*1 → Forall (λ k, forallb is_digit (chars k) = false) fields.*1 →
  Forall plain fields.*2 → plain (JObj fields).
Proof. intros Hd Hk Hv. constructor; [done|by left|by apply Forall_forall]. Qed.

Lemma receive_roundtrip addr : 0 <= ra_index addr → 0 <= ra_pubX addr → 0 <= ra_pubY addr →
  decodeReceiveAddress (encodeReceiveAddress addr) = Ok addr.
Proof.
  destruct addr as [i x y]. cbn. intros Hi Hx Hy. unfold decodeReceiveAddress, encodeReceiveAddress. cbn [ra_index ra_pubX ra_pubY].
  rewrite read_json_written.
  2: { apply plain_fields; [apply (bool_decide_unpack _); by vm_compute|by repeat constructor..]. }
  cbn [mbind result_bind]. unfold big_field.
  change (prop "index" _) with (Ok (Some (JStr (pretty i))) : result TextError (option Json)).
  change (prop "pubX" _) with (Ok (Some (JStr (pretty x))) : result TextError (option Json)).
  change (prop "pubY" _) with (Ok (Some (JStr (pretty y))) : result TextError (option Json)).
  cbn [map_err mbind result_bind]. by rewrite !BigInt_pretty.
Qed.

(** A number of the language. *)
Definition safe (n : Z) : Prop := - 2 ^ 53 < n < 2 ^ 53.
Lemma plain_optional {A} k (f : A → Json) (P : A → Prop) v : (∀ a, P a → plain (f a)) → (∀ a, v = Some a → P a) →
  Forall plain (optional k f v).*2.
Proof. intros Hf Hv. destruct v as [a|]; constructor; [by apply Hf, Hv|constructor]. Qed.
Lemma plain_claim t : safe (ct_fromLeaf t) → safe (ct_toLeaf t) → (∀ d, ct_decimals t = Some d → safe d) → plain (claim_json t).
Proof.
  intros Hf Ht Hd. apply plain_fields.
  - unfold claim_json. by destruct (ct_programId t), (ct_mint t), (ct_rpcUrl t), (ct_decimals t), (ct_symbol t), (ct_payerName t);
      apply (bool_decide_unpack _); vm_compute.
  - by destruct (ct_programId t), (ct_mint t), (ct_rpcUrl t), (ct_decimals t), (ct_symbol t), (ct_payerName t); repeat constructor.
  - rewrite !fmap_app, !Forall_app. split_and!;
      [do 2 (constructor; [apply plain_str|]); do 2 (constructor; [by apply plain_num|]); constructor|..];
      first [by apply (plain_optional _ _ (λ _, True)); [intros; apply plain_str|] | by apply (plain_optional _ _ safe); [intros; apply plain_num|]].
Qed.

(** Links and addresses: what is encoded in one is decoded, whatever its
    optional fields, by whoever opens it. *)
Theorem claim_roundtrip t : safe (ct_fromLeaf t) → safe (ct_toLeaf t) → (∀ d, ct_decimals t = Some d → safe d) →
  decodeClaimToken (encodeClaimToken t) = Ok t.
Proof.
  intros Hf Ht Hd. unfold decodeClaimToken, encodeClaimToken. rewrite read_json_written by by apply plain_claim.
  destruct t as [u h fl tl p m r d s n]. unfold claim_json. cbn [ct_indexerUrl ct_incomingAddressHint ct_fromLeaf ct_toLeaf ct_programId
    ct_mint ct_rpcUrl ct_decimals ct_symbol ct_payerName]. clear.
  by destruct p, m, r, d, s, n; vm_compute.
Qed.
Lemma invite_roundtrip i : safe (ti_threshold i) → safe (ti_memberCount i) → decodeInvite (encodeInvite i) = Ok (invite_json i).
Proof.
  intros Ht Hm. apply read_json_written, plain_fields; [apply (bool_decide_unpack _); by vm_compute|by repeat constructor|].
  do 3 (constructor; [apply plain_str|]). do 2 (constructor; [by apply plain_num|]). constructor.
Qed.
End Token.
End Token.

(** ** [payrollPlan.ts] *)
Module Payroll.
Import Token.
Inductive PayrollRowStatus := pending | proving | awaiting_signatures | submitting | confirmed | failed.
Record PayrollRow := mkRow {
  pr_address : string; pr_amount : Z; pr_memo : string; pr_status : PayrollRowStatus; pr_error : option string;
  pr_claimLink : option string }.
Inductive PayrollIssue := Expected_cells | Bad_address (address : string) | Not_whole (amount : string) | Not_amount (amount : string).

(** [s.split(c)]. *)
Fixpoint split_on (c : ascii) (l : list ascii) : list (list ascii) :=
  match l with
  | [] => [[]]
  | x :: l =>
      let rest := split_on c l in
      if Ascii.eqb x c then [] :: rest
      else match rest with cell :: rest => (x :: cell) :: rest | [] => [[x]] end
  end.
(** [csv.split(/\r?\n/)]: a carriage return before the line feed goes with it. *)
Definition drop_cr (l : list ascii) : list ascii :=
  match reverse l with "013"%char :: l' => reverse l' | _ => l end.
Definition split_lines (l : list ascii) : list (list ascii) :=
  match reverse (split_on "010" l) with
  | [] => []
  | last :: init => reverse (last :: (drop_cr <$> init))
  end.
Fixpoint join_on (c : ascii) (l : list (list ascii)) : list ascii :=
  match l with [] => [] | [x] => x | x :: l => x ++ c :: join_on c l end.
Definition all_digits (l : list ascii) : bool := match l with [] => false | _ => forallb is_digit l end.
(** [BigInt] of a text of digits; the empty one is zero. *)
Definition value_of (l : list ascii) : Z := default 0 (digits 10 0 l).
Definition positive_value (v : Z) : option Z := if 0 <? v then Some v else None.

(** [raw.trim().replace(/[,_\s]/g, "")], and the form [/^\d+(\.\d+)?$/]. *)
Definition is_separator (c : ascii) : bool := Ascii.eqb c "," || Ascii.eqb c "_" || is_white c.
Definition clean (raw : list ascii) : list ascii := List.filter (λ c, negb (is_separator c)) (trim raw).
Definition parseHumanAmount (raw : list ascii) (decimals : nat) : option Z :=
  let scale whole frac :=
    if (decimals <? length frac)%nat then None
    else positive_value (value_of whole * 10 ^ Z.of_nat decimals
                         + value_of (take decimals (frac ++ replicate decimals "0"%char))) in
  match split_on "." (clean raw) with
  | [whole] => if all_digits whole then scale whole [] else None
  | [whole; frac] => if all_digits whole && all_digits frac then scale whole frac else None
  | _ => None
  end.
Definition parseAmount (raw : list ascii) : option Z :=
  let trimmed := trim raw in if all_digits trimmed then positive_value (value_of trimmed) else None.

(** *** A decimal amount is scaled exactly *)
Lemma digit_hex c : is_digit c = true → ∃ d, hex_value c = Some d ∧ 0 <= d < 10.
Proof. destruct c as [[] [] [] [] [] [] [] []]; try discriminate; intros _; eexists; (split; [vm_compute; reflexivity|lia]). Qed.
Lemma digits_value l : forallb is_digit l = true → ∀ acc, digits 10 acc l = Some (acc * 10 ^ Z.of_nat (length l) + value_of l).
Proof.
  intros Hl. assert (Hv : ∃ v, ∀ acc, digits 10 acc l = Some (acc * 10 ^ Z.of_nat (length l) + v)).
  { induction l as [|c l IH]; [exists 0; intros acc; cbn; f_equal; lia|]. cbn [forallb] in Hl.
    apply andb_true_iff in Hl as [Hc Hl]. destruct (digit_hex c Hc) as (d & Hd & Hb), (IH Hl) as [v Hv].
    exists (d * 10 ^ Z.of_nat (length l) + v). intros acc. cbn [digits length]. rewrite Hd. cbn [mbind option_bind].
    rewrite (proj2 (Z.ltb_lt d 10)), Hv, Nat2Z.inj_succ, Z.pow_succ_r by lia. f_equal. ring. }
  destruct Hv as [v Hv]. intros acc. unfold value_of. rewrite !Hv. cbn [default]. f_equal; lia.
Qed.
Lemma digits_app a b acc : digits 10 acc (a ++ b) = digits 10 acc a ≫= λ v, digits 10 v b.
Proof.
  revert acc. induction a as [|c a IH]; intros acc; [done|]. cbn [app digits]. destruct (hex_value c) as [d|]; [|done].
  cbn [mbind option_bind]. destruct (d <? 10); [apply IH|done].
Qed.
Lemma value_app a b : forallb is_digit a = true → forallb is_digit b = true →
  value_of (a ++ b) = value_of a * 10 ^ Z.of_nat (length b) + value_of b.
Proof.
  intros Ha Hb. unfold value_of at 1. rewrite digits_app, (digits_value a Ha). cbn [mbind option_bind].
  rewrite (digits_value b Hb). cbn [default]. rewrite Z.mul_0_l. done.
Qed.
Lemma zeros_value k : forallb is_digit (replicate k "0"%char) = true ∧ value_of (replicate k "0"%char) = 0.
Proof.
  induction k as [|k [IH1 IH2]]; [done|]. split; [exact IH1|]. unfold value_of in *. cbn [replicate digits]. exact IH2.
Qed.
Lemma digit_kept c : is_digit c = true → is_separator c = false ∧ Ascii.eqb c "." = false.
Proof. by destruct c as [[] [] [] [] [] [] [] []]. Qed.
Lemma trim_solid l : forallb (λ c, negb (is_separator c)) l = true → trim l = l.
Proof.
  intros Hl. apply trim_none. rewrite forallb_forall in *. intros c Hc. specialize (Hl c Hc). unfold is_separator in Hl.
  rewrite !negb_orb in Hl. by apply andb_true_iff in Hl as [_ ?].
Qed.
Lemma clean_solid l : forallb (λ c, negb (is_separator c)) l = true → clean l = l.
Proof.
  intros Hl. unfold clean. rewrite trim_solid by done. induction l as [|c l IH]; [done|]. cbn [forallb] in Hl.
  apply andb_true_iff in Hl as [Hc Hl]. cbn [List.filter]. by rewrite Hc, IH.
Qed.
Lemma split_digits w f : forallb is_digit w = true → forallb is_digit f = true → split_on "." (w ++ "."%char :: f) = [w; f].
Proof.
  intros Hw Hf. assert (Hs : split_on "." f = [f]).
  { induction f as [|c f IH]; [done|]. cbn [forallb] in Hf. apply andb_true_iff in Hf as [Hc Hf]. cbn [split_on].
    by rewrite (proj2 (digit_kept c Hc)), IH. }
  induction w as [|c w IH]; [cbn [app split_on]; by rewrite Hs|]. cbn [forallb] in Hw. apply andb_true_iff in Hw as [Hc Hw].
  cbn [app split_on]. by rewrite (proj2 (digit_kept c Hc)), IH.
Qed.
(** The amount [w.f] is the rational number that it denotes, in the token's
    smallest units. *)
Lemma parseHumanAmount_exact w f decimals : all_digits w = true → all_digits f = true → (length f <= decimals)%nat →
  0 < value_of (w ++ f) →
  ∃ a, parseHumanAmount (w ++ "."%char :: f) decimals = Some a ∧
    a * 10 ^ Z.of_nat (length f) = value_of (w ++ f) * 10 ^ Z.of_nat decimals.
Proof.
  intros Hw Hf Hlen Hpos. assert (Ew : forallb is_digit w = true) by by destruct w. assert (Ef : forallb is_digit f = true) by by destruct f.
  set (k := (decimals - length f)%nat). assert (Ek : Z.of_nat decimals = Z.of_nat (length f) + Z.of_nat k) by lia.
  destruct (zeros_value k) as [Zd Zv]. exists (value_of (w ++ f) * 10 ^ Z.of_nat k).
  rewrite value_app in * by done. split; [|rewrite Ek, Z.pow_add_r by lia; ring].
  unfold parseHumanAmount. rewrite clean_solid.
  2: { rewrite forallb_app. cbn [forallb]. apply andb_true_iff. split; [|apply andb_true_iff; split; [done|]];
       rewrite forallb_forall in *; intros c Hc; [specialize (Ew c Hc)|specialize (Ef c Hc)];
       by rewrite (proj1 (digit_kept c ltac:(done))). }
  rewrite split_digits, Hw, Hf by done. cbn [andb]. rewrite (proj2 (Nat.ltb_ge _ _)) by lia.
  replace (take decimals (f ++ replicate decimals "0"%char)) with (f ++ replicate k "0"%char).
  2: { rewrite take_app, take_ge, take_replicate by lia. f_equal. f_equal. lia. }
  rewrite value_app, length_replicate, Zv by done. rewrite Ek, Z.pow_add_r by lia. unfold positive_value.
  assert (0 < 10 ^ Z.of_nat k) by (apply Z.pow_pos_nonneg; lia).
  rewrite (proj2 (Z.ltb_lt _ _)) by nia. f_equal. ring.
Qed.

Section Payroll.
Context `{Browser}.
Definition isValidAddress (raw : list ascii) : bool :=
  match decodeReceiveAddress (of_chars (trim raw)) with Ok _ => true | Err _ => false end.

Inductive Line := Header | Row (r : PayrollRow) | Issue (i : PayrollIssue).
Definition parse_line (decimals : option nat) (idx : nat) (line : list ascii) : Line :=
  match trim <$> split_on "," line with
  | [] => Issue Expected_cells
  | address :: rest =>
      let amountRaw := head rest in
      if (idx =? 0)%nat && negb (isValidAddress address)
         && match parseAmount (default [] amountRaw) with None => true | Some _ => false end then Header
      else match amountRaw with
      | None => Issue Expected_cells
      | Some amountRaw =>
          if negb (isValidAddress address) then Issue (Bad_address (of_chars address))
          else
            let amount := match decimals with None => parseAmount amountRaw | Some d => parseHumanAmount amountRaw d end in
            match amount with
            | None => Issue (match decimals with None => Not_whole (of_chars amountRaw) | Some _ => Not_amount (of_chars amountRaw) end)
            | Some amount =>
                Row (mkRow (of_chars address) amount (of_chars (trim (join_on "," (tail rest)))) pending None None)
            end
      end
  end.
Fixpoint parse_lines (decimals : option nat) (idx : nat) (lines : list (list ascii)) : list (nat * PayrollIssue) * list PayrollRow :=
  match lines with
  | [] => ([], [])
  | line :: lines =>
      let '(errors, rows) := parse_lines decimals (S idx) lines in
      match parse_line decimals idx line with
      | Header => (errors, rows)
      | Row r => (errors, r :: rows)
      | Issue i => ((S idx, i) :: errors, rows)
      end
  end.
(** The trimmed lines that are not blank. *)
Definition payroll_lines (csv : string) : list (list ascii) :=
  List.filter (λ l, match l with [] => false | _ => true end) (trim <$> split_lines (chars csv)).
Definition parsePayrollCsv (csv : string) (decimals : option nat) : result (list (nat * PayrollIssue)) (list PayrollRow) :=
  match parse_lines decimals 0 (payroll_lines csv) with
  | ([], rows) => Ok rows
  | (errors, _) => Err errors
  end.
Definition totalAmount (rows : list PayrollRow) : Z := foldl (λ sum r, sum + pr_amount r) 0 rows.

(** *** What an accepted table says *)
Definition good_row (r : PayrollRow) : Prop :=
  0 < pr_amount r ∧ (∃ a, decodeReceiveAddress (pr_address r) = Ok a) ∧ pr_status r = pending.
Lemma positive_value_Some v a : positive_value v = Some a → a = v ∧ 0 < a.
Proof. unfold positive_value. destruct (Z.ltb_spec 0 v); [|done]. by intros [= <-]. Qed.
Lemma parseAmount_pos l a : parseAmount l = Some a → 0 < a.
Proof. unfold parseAmount. destruct (all_digits _); [|done]. by intros [_ ?]%positive_value_Some. Qed.
Lemma parseHumanAmount_pos l d a : parseHumanAmount l d = Some a → 0 < a.
Proof. unfold parseHumanAmount. repeat case_match; try done; by intros [_ ?]%positive_value_Some. Qed.
Lemma drop_white_idem l : drop_white (drop_white l) = drop_white l.
Proof. induction l as [|c l IH]; [done|]. cbn. destruct (is_white c) eqn:E; [done|]. cbn. by rewrite E. Qed.
Lemma drop_white_suffix l : ∃ k, l = k ++ drop_white l ∧ forallb is_white k = true.
Proof.
  induction l as [|c l (k & E & Hk)]; [by exists []|]. cbn. destruct (is_white c) eqn:Ec; [|by exists []].
  exists (c :: k). cbn. by rewrite Ec, Hk, <- E.
Qed.
Lemma drop_white_head l : match drop_white l with c :: _ => is_white c = false | [] => True end.
Proof. induction l as [|c l IH]; [done|]. cbn. by destruct (is_white c) eqn:E. Qed.
Lemma trim_idem l : trim (trim l) = trim l.
Proof.
  unfold trim at 1. assert (E : drop_white (trim l) = trim l).
  { unfold trim. destruct (drop_white l) as [|c k] eqn:Ed; [done|]. pose proof (drop_white_head l) as Hh. rewrite Ed in Hh.
    destruct (drop_white_suffix (reverse (c :: k))) as (w & Ew & Hw).
    destruct (reverse (drop_white (reverse (c :: k)))) as [|x r] eqn:Er; [done|].
    apply (f_equal reverse) in Ew. rewrite reverse_involutive, reverse_app, Er in Ew. injection Ew as <- _. cbn. by rewrite Hh. }
  rewrite E. unfold trim at 1. rewrite reverse_involutive, drop_white_idem. done.
Qed.
Lemma parse_line_row decimals idx line r : parse_line decimals idx line = Row r → good_row r.
Proof.
  unfold parse_line. destruct (trim <$> split_on "," line) as [|address rest] eqn:E; [done|]. cbv zeta.
  destruct (_ && _ && _); [done|]. destruct (head rest) as [amountRaw|]; [|done].
  destruct (isValidAddress address) eqn:Hv; [|done]. cbn [negb].
  destruct (match decimals with None => _ | Some d => _ end) as [amount|] eqn:Ha; [|done]. intros [= <-]. split_and!; [| |done].
  - cbn. destruct decimals; [by eapply parseHumanAmount_pos|by eapply parseAmount_pos].
  - cbn. assert (Ht : trim address = address).
    { destruct (split_on "," line) as [|c cs]; [done|]. rewrite fmap_cons in E. injection E as <- _. apply trim_idem. }
    unfold isValidAddress in Hv. rewrite Ht in Hv. destruct (decodeReceiveAddress _); [by eauto|done].
Qed.
Lemma parse_lines_spec decimals lines : ∀ idx rows, parse_lines decimals idx lines = ([], rows) →
  Forall good_row rows ∧ ((0 < idx)%nat → length rows = length lines) ∧
  (length rows = length lines ∨ ∃ h, head lines = Some h ∧ parse_line decimals idx h = Header ∧ S (length rows) = length lines).
Proof.
  induction lines as [|line lines IH]; intros idx rows; cbn [parse_lines]; [intros [= <-]; split_and!; [done..|by left]|].
  destruct (parse_lines decimals (S idx) lines) as [errors rows'] eqn:El.
  destruct (parse_line decimals idx line) as [|r|i] eqn:Ep; [| |done]; intros [= -> <-];
    destruct (IH _ _ El) as (Hg & Hlen & _); specialize (Hlen ltac:(lia)).
  - split_and!; [done| |right; exists line; cbn; by rewrite Hlen].
    intros Hi. exfalso. unfold parse_line in Ep. destruct (trim <$> _) as [|a rest]; [done|]. cbv zeta in Ep.
    rewrite (proj2 (Nat.eqb_neq idx 0)) in Ep by lia. cbn [andb] in Ep. repeat case_match; done.
  - split_and!; [constructor; [by eapply parse_line_row|done]|cbn; by rewrite Hlen|left; cbn; by rewrite Hlen].
Qed.

(** An accepted payroll: each of its rows pays a positive amount to an
    address that decodes, and there is one row per line that is not blank, save a
    first line that is taken for the header. *)
Theorem parsePayrollCsv_sound csv decimals rows : parsePayrollCsv csv decimals = Ok rows →
  Forall good_row rows ∧
  (length rows = length (payroll_lines csv) ∨
   ∃ h, head (payroll_lines csv) = Some h ∧ parse_line decimals 0 h = Header ∧ S (length rows) = length (payroll_lines csv)).
Proof.
  unfold parsePayrollCsv. destruct (parse_lines decimals 0 (payroll_lines csv)) as [[|e es] rows'] eqn:E; [|done]. intros [= <-].
  destruct (parse_lines_spec _ _ _ _ E) as (Hg & _ & Hl). done.
Qed.
End Payroll.
End Payroll.

(** ** [keystore.ts] of the web application and of the command line *)
Class Scrypt := scrypt : list Z → list Z → Z → Z → Z → nat → list Z.   (* [scrypt(passphrase, salt, { N, r, p, dkLen })] *)
Class ScryptLaws `{Scrypt} : Prop := scrypt_length pass salt N r p n : length (scrypt pass salt N r p n) = n.

Module Keystore.
Record EncryptedBlob := mkBlob {
  b_version : Z; b_kdf : string; b_N : Z; b_r : Z; b_p : Z; b_salt : string; b_cipher : string; b_nonce : string;
  b_ciphertext : string }.
Inductive KeystoreError := Unsupported_format (version : Z) | KeystoreDecryptError | No_record (id : string) | Encrypting.
Definition SCRYPT_R : Z := 8.
Definition SCRYPT_P : Z := 1.
Definition KEY_LEN : nat := 32.
Section Keystore.
Context `{Text} `{Aead} `{Scrypt}.
Definition supported (blob : EncryptedBlob) : bool :=
  (b_version blob =? 1) && bool_decide (b_kdf blob = "scrypt") && bool_decide (b_cipher blob = "xchacha20poly1305").

(** *** The browser: its own base64, and the module's parameters *)
Definition WEB_SCRYPT_N : Z := Z.shiftl 1 15.
Definition web_toBase64 : list Z → string := Base64.toBase64.
Definition web_fromBase64 : string → list Z := Base64.fromBase64.
Definition web_deriveKey (passphrase : string) (salt : list Z) : list Z :=
  scrypt (utf8 passphrase) salt WEB_SCRYPT_N SCRYPT_R SCRYPT_P KEY_LEN.
(** [salt] and [nonce] are what [getRandomValues] fills them with. *)
Definition web_encryptJson (salt nonce : list Z) (value : Json) (passphrase : string) : result KeystoreError EncryptedBlob :=
  let key := web_deriveKey passphrase salt in
  match encrypt key nonce (utf8 (stringify value)) with
  | None => Err Encrypting
  | Some ciphertext =>
      Ok (mkBlob 1 "scrypt" WEB_SCRYPT_N SCRYPT_R SCRYPT_P (web_toBase64 salt) "xchacha20poly1305" (web_toBase64 nonce)
            (web_toBase64 ciphertext))
  end.
Definition web_decryptJson (blob : EncryptedBlob) (passphrase : string) : result KeystoreError Json :=
  if negb (supported blob) then Err (Unsupported_format (b_version blob))
  else
    let key := web_deriveKey passphrase (web_fromBase64 (b_salt blob)) in
    match decrypt key (web_fromBase64 (b_nonce blob)) (web_fromBase64 (b_ciphertext blob)) with
    | None => Err KeystoreDecryptError
    | Some plaintext => map_err (λ _, KeystoreDecryptError) (parse (of_utf8 plaintext))
    end.

(** *** Its database *)
#[local] Notation Db := (gmap string EncryptedBlob).
Definition saveEncrypted (salt nonce : list Z) (id : string) (value : Json) (passphrase : string) : M Db KeystoreError unit :=
  blob ← lift (λ e, e) (web_encryptJson salt nonce value passphrase);
  modify (λ db, <[id := blob]> db).
Definition loadEncrypted (id : string) (passphrase : string) : M Db KeystoreError Json :=
  db ← get;
  match db !! id with
  | None => throw (No_record id)
  | Some blob => lift (λ e, e) (web_decryptJson blob passphrase)
  end.
Definition removeEncrypted (id : string) : M Db KeystoreError unit := modify (λ db, delete id db).

(** *** The command line: the parameters of the file *)
Definition CLI_SCRYPT_N : Z := Z.shiftl 1 17.
Definition cli_deriveKey (passphrase : string) (salt : list Z) (N r p : Z) : list Z :=
  scrypt (utf8 passphrase) salt N r p KEY_LEN.
Definition encryptBytes (salt nonce plaintext : list Z) (passphrase : string) : result KeystoreError EncryptedBlob :=
  let key := cli_deriveKey passphrase salt CLI_SCRYPT_N SCRYPT_R SCRYPT_P in
  match encrypt key nonce plaintext with
  | None => Err Encrypting
  | Some ciphertext =>
      Ok (mkBlob 1 "scrypt" CLI_SCRYPT_N SCRYPT_R SCRYPT_P (to_base64 salt) "xchacha20poly1305" (to_base64 nonce)
            (to_base64 ciphertext))
  end.
Definition decryptBytes (file : EncryptedBlob) (passphrase : string) : result KeystoreError (list Z) :=
  if negb (supported file) then Err (Unsupported_format (b_version file))
  else
    let key := cli_deriveKey passphrase (of_base64 (b_salt file)) (b_N file) (b_r file) (b_p file) in
    match decrypt key (of_base64 (b_nonce file)) (of_base64 (b_ciphertext file)) with
    | None => Err KeystoreDecryptError
    | Some plaintext => Ok plaintext
    end.
Definition cli_encryptJson (salt nonce : list Z) (value : Json) (passphrase : string) : result KeystoreError EncryptedBlob :=
  encryptBytes salt nonce (utf8 (stringify value)) passphrase.
Definition cli_decryptJson (file : EncryptedBlob) (passphrase : string) : result (KeystoreError + TextError) Json :=
  plaintext ← map_err inl (decryptBytes file passphrase); map_err inr (parse (of_utf8 plaintext)).

Context {TL : TextLaws} {AL : AeadLaws} {SL : ScryptLaws}.
Definition fresh (salt nonce : list Z) : Prop := Forall is_byte salt ∧ length nonce = 24%nat ∧ Forall is_byte nonce.
(** An encrypted value opens under its passphrase. *)
Lemma web_roundtrip salt nonce v pass : fresh salt nonce → plain v →
  ∃ blob, web_encryptJson salt nonce v pass = Ok blob ∧ web_decryptJson blob pass = Ok v.
Proof.
  intros (Hs & Hn & Hnb) Hv. unfold web_encryptJson.
  destruct (sealed (web_deriveKey pass salt) nonce (utf8 (stringify v))) as (c & -> & Hc & Hd);
    [apply scrypt_length|done|apply utf8_bytes|].
  eexists. split; [done|]. unfold web_decryptJson, supported, web_fromBase64, web_toBase64.
  cbn [b_version b_kdf b_cipher b_salt b_nonce b_ciphertext]. rewrite !bool_decide_true by done. cbn [Z.eqb Pos.eqb andb negb].
  rewrite !Base64.fromBase64_toBase64, Hd by done. cbn. by rewrite of_utf8_utf8, parse_stringify.
Qed.
Lemma cli_roundtrip salt nonce v pass : fresh salt nonce → plain v →
  ∃ file, cli_encryptJson salt nonce v pass = Ok file ∧ cli_decryptJson file pass = Ok v.
Proof.
  intros (Hs & Hn & Hnb) Hv. unfold cli_encryptJson, encryptBytes.
  destruct (sealed (cli_deriveKey pass salt CLI_SCRYPT_N SCRYPT_R SCRYPT_P) nonce (utf8 (stringify v))) as (c & -> & Hc & Hd);
    [apply scrypt_length|done|apply utf8_bytes|].
  eexists. split; [done|]. unfold cli_decryptJson, decryptBytes, supported.
  cbn [b_version b_kdf b_cipher b_salt b_nonce b_ciphertext b_N b_r b_p]. rewrite !bool_decide_true by done. cbn [Z.eqb Pos.eqb andb negb].
  rewrite !of_to_base64, Hd by done. cbn. by rewrite of_utf8_utf8, parse_stringify.
Qed.
(** The command line opens what was written under other parameters, of the
    browser for instance. *)
Lemma cli_opens_web salt nonce v pass : fresh salt nonce → plain v →
  (∀ l, Forall is_byte l → of_base64 (web_toBase64 l) = l) →
  ∃ blob, web_encryptJson salt nonce v pass = Ok blob ∧ cli_decryptJson blob pass = Ok v.
Proof.
  intros (Hs & Hn & Hnb) Hv Hb. unfold web_encryptJson.
  destruct (sealed (web_deriveKey pass salt) nonce (utf8 (stringify v))) as (c & -> & Hc & Hd);
    [apply scrypt_length|done|apply utf8_bytes|].
  eexists. split; [done|]. unfold cli_decryptJson, decryptBytes, supported.
  cbn [b_version b_kdf b_cipher b_salt b_nonce b_ciphertext b_N b_r b_p]. rewrite !bool_decide_true by done. cbn [Z.eqb Pos.eqb andb negb].
  rewrite !Hb by done. change (cli_deriveKey pass salt WEB_SCRYPT_N SCRYPT_R SCRYPT_P) with (web_deriveKey pass salt).
  rewrite Hd. cbn. by rewrite of_utf8_utf8, parse_stringify.
Qed.
(** A saved record loads, and the others are as they were. *)
Lemma load_saved salt nonce id v pass db : fresh salt nonce → plain v →
  ∃ db', saveEncrypted salt nonce id v pass db = (db', Ok tt) ∧ loadEncrypted id pass db' = (db', Ok v) ∧
    ∀ id' pass', id' ≠ id → (loadEncrypted id' pass' db').2 = (loadEncrypted id' pass' db).2.
Proof.
  intros Hf Hv. destruct (web_roundtrip salt nonce v pass Hf Hv) as (blob & He & Hd). exists (<[id := blob]> db).
  unfold saveEncrypted, loadEncrypted, mbind, M_bind, lift, get, modify. rewrite He. split_and!; [done| |].
  - rewrite lookup_insert_eq. by rewrite Hd.
  - intros id' pass' Hne. rewrite lookup_insert_ne by done. by destruct (db !! id').
Qed.
End Keystore.
End Keystore.

(** ** [multisigScan.ts], [singleKeyScan.ts]: what the dashboard totals *)
Module Balance.
(** [value.startsWith("0x") ? value : value.match(/^-?\d+$/) ? value : "0x" + value]. *)
Definition is_decimal (l : list ascii) : bool :=
  match l with "-"%char :: l => Payroll.all_digits l | _ => Payroll.all_digits l end.
Definition parseBigInt (value : string) : result TextError Z :=
  match chars value with
  | "0"%char :: "x"%char :: _ => parse_bigint value
  | l => if is_decimal l then parse_bigint value else parse_bigint ("0x" +:+ value)
  end.
Definition toHexAssetId (assetId : Z) : string := "0x" +:+ padStart0 40 (toString16 assetId).
(** [totals.set(key, (totals.get(key) ?? 0n) + value)]: a [Map] lists its keys
    in the order of their first setting. *)
Fixpoint add_total (key : string) (v : Z) (totals : list (string * Z)) : list (string * Z) :=
  match totals with
  | [] => [(key, 0 + v)]
  | (k, t) :: totals => if bool_decide (k = key) then (k, t + v) :: totals else (k, t) :: add_total key v totals
  end.
Definition totals_of {A} (assetId value : A → Z) (notes : list A) : list (string * Z) :=
  foldl (λ totals n, add_total (toHexAssetId (assetId n)) (value n) totals) [] notes.
(** The group's dashboard adds every note that the scan opened; the other one
    skips what is spent. *)
Definition group_balances {A} (assetId value : A → Z) (found : list A) : list (string * Z) := totals_of assetId value found.
Definition single_balances {A} (assetId value : A → Z) (spent : A → bool) (notes : list A) : list (string * Z) :=
  totals_of assetId value (List.filter (λ n, negb (spent n)) notes).

Definition lookup_total (key : string) (totals : list (string * Z)) : Z :=
  default 0 (snd <$> find (λ e, bool_decide (e.1 = key)) totals).
Lemma lookup_add_total key k v totals :
  lookup_total key (add_total k v totals) = lookup_total key totals + if bool_decide (k = key) then v else 0.
Proof.
  unfold lookup_total. induction totals as [|[k' t] totals IH]; cbn [add_total find].
  - cbn. by case_bool_decide.
  - destruct (decide (k' = k)) as [->|Hk].
    + rewrite (bool_decide_true (k = k)) by done. cbn [find fst]. destruct (bool_decide (k = key)); cbn; [done|]. lia.
    + rewrite (bool_decide_false (k' = k)) by done. cbn [find fst]. destruct (decide (k' = key)) as [->|Hk'].
      * rewrite (bool_decide_true (key = key)), (bool_decide_false (k = key)) by congruence. cbn. lia.
      * by rewrite (bool_decide_false (k' = key)).
Qed.
(** A total is the sum of the values listed under its asset. *)
Lemma totals_sum {A} (assetId value : A → Z) notes key :
  lookup_total key (totals_of assetId value notes) =
  sumZ (λ n, if bool_decide (toHexAssetId (assetId n) = key) then value n else 0) notes.
Proof.
  unfold totals_of. assert (Hg : ∀ t, lookup_total key (foldl (λ totals n, add_total (toHexAssetId (assetId n)) (value n) totals) t notes)
    = lookup_total key t + sumZ (λ n, if bool_decide (toHexAssetId (assetId n) = key) then value n else 0) notes).
  { induction notes as [|n notes IH]; intros t; [rewrite sumZ_nil; cbn [foldl]; lia|]. cbn [foldl].
    rewrite IH, lookup_add_total, sumZ_cons. lia. }
  rewrite Hg. done.
Qed.
(** A hexadecimal text without letters is read as decimal. *)
Lemma hex_read_as_decimal : parseBigInt "10" = Ok 10 ∧ parse_bigint ("0x" +:+ "10") = Ok 16.
Proof. split; reflexivity. Qed.
End Balance.

(** ** Witnesses *)
Module WebWitness.
Import Token Payroll Keystore.
#[local] Existing Instance ToyText.toy_text.
#[local] Existing Instance ToyText.toy_text_laws.
#[export] Instance toy_browser : Browser := {
  atob s := Some (Base64.fromBase64 s);
  strict_utf8 l := Some (of_utf8 l);
}.
Lemma drop_pad_idem l : Base64.drop_pad (Base64.drop_pad l) = Base64.drop_pad l.
Proof. induction l as [|c l IH]; [done|]. cbn. destruct (Ascii.eqb c "=") eqn:E; [done|]. cbn. by rewrite E. Qed.
#[export] Instance toy_browser_laws : BrowserLaws.
Proof.
  split.
  - intros l Hl. unfold atob, toy_browser. f_equal. rewrite <- (Base64.fromBase64_toBase64 l Hl) at 2.
    unfold Base64.fromBase64. rewrite String.list_ascii_of_string_of_list_ascii, reverse_involutive, drop_pad_idem. done.
  - intros s. unfold strict_utf8, toy_browser. by rewrite of_utf8_utf8.
Qed.
Definition toy_claim : ClaimToken :=
  mkClaim "https://indexer" "hint" 0 1000000 (Some "pool") None None (Some 6) (Some "USDC") None.
Lemma claim_roundtrip_witness : decodeClaimToken (encodeClaimToken toy_claim) = Ok toy_claim.
Proof. apply claim_roundtrip; [done|done|]. by intros d [= <-]. Defined.

Definition toy_address : string := encodeReceiveAddress (mkReceive 0 1 2).
Definition newline : string := String "010" "".
Definition toy_csv : string :=
  "address,amount,memo" +:+ newline +:+ toy_address +:+ ",1500.25, march, final" +:+ newline +:+ newline +:+ toy_address +:+ ",7".
Lemma parsePayrollCsv_sound_witness : ∃ rows, parsePayrollCsv toy_csv (Some 6%nat) = Ok rows ∧
  pr_amount <$> rows = [1500250000; 7000000] ∧ Forall good_row rows.
Proof.
  destruct (parsePayrollCsv toy_csv (Some 6%nat)) as [rows|] eqn:E; [|vm_compute in E; discriminate E]. exists rows.
  split_and!; [reflexivity|vm_compute in E; injection E as <-; vm_compute; reflexivity|].
  apply (parsePayrollCsv_sound _ _ _ E).
Defined.
(** A first payment with a mistyped address and a decimal amount is taken for
    the header, and dropped without a word; in base units it is refused. *)
Lemma first_payment_dropped : parsePayrollCsv "oops,1500.25" (Some 6%nat) = Ok [] ∧
  parsePayrollCsv "oops,1500" None = Err [(1%nat, Bad_address "oops")].
Proof. split; vm_compute; reflexivity. Qed.

#[local] Existing Instance SessionWitness.toy_aead.
(** A key that depends on its parameters. *)
#[local] Instance toy_scrypt : Scrypt := λ pass salt N r p n, replicate n (foldr Z.add 0 (pass ++ salt) + N / 32768).
(** What the command line wrote, the browser cannot open: it ignores the
    parameters of the record. *)
Lemma stored_parameters_ignored : ∃ file, cli_encryptJson [1; 2] (replicate 24 5) (JStr "secret") "pass" = Ok file ∧
  cli_decryptJson file "pass" = Ok (JStr "secret") ∧ web_decryptJson file "pass" = Err KeystoreDecryptError.
Proof. eexists. split_and!; [reflexivity|vm_compute; reflexivity|vm_compute; reflexivity]. Qed.
End WebWitness.
