(* ===== verification/Treasury.v ===== *)
(** * The treasury of a group ([apps/web/src/lib/treasuryFlows.ts], and the
    batch of [apps/web/src/routes/TreasuryPage.tsx])

    A batch pays the rows of a payroll one after the other, the change of each
    being what the next one spends.  [Flows] holds the steps, [Batch] shows what
    a batch spends and leaves.  What becomes of an assembled row (the proposal of
    [Session.v], the proof, and whether the transaction was handed to the network
    and confirmed) is an argument, and so are the answers of the indexer and the
    compliance key that each row reads in the pool's account.  A
    transfer that was handed over and whose change was not reported in time is
    kept apart from one that was never sent, though the program shows both as
    failed. *)
From stdpp Require Import pretty.
From S2P Require Import Prelude Bytes Zq Tss Dkg Tree Keys Trace Mint State Circuits Keyring Discovery Compliance Frost Preflight SelfMint Assemble Multisig MultisigScan Coordinator Client Prover Text Session GroupCircuits GroupTransfer Web.
Local Open Scope Z_scope.

Module Flows.
Import Trace.Note Circuit MultisigNote Scanner Client BjjSuite GroupTransfer Token Payroll.
Section Flows.
Context `{BabyJubjub} `{Poseidon2} (fr_toString : Z → string).

Definition bytesToBigIntBE (bytes : list Z) : Z := foldl (λ v b, Z.lor (Z.shiftl v 8) b) 0 bytes.
(** [draws]: what [getRandomValues] fills the 31 bytes with, in order. *)
Fixpoint randomEvenYScalar (draws : list (list Z)) : option Z :=
  match draws with
  | [] => None
  | bytes :: draws =>
      let candidate := bytesToBigIntBE bytes in
      if Keys.Keys.isEvenY (Keys.Keys.publicKey candidate) then Some candidate else randomEvenYScalar draws
  end.

(** *** Deposits *)
Definition depositNote (gpk : Point) (assetId eph amount : Z) (compliancePk : Point) : result MintError Note :=
  owner ← newFr (multisigOwner gpk);
  cek ← Kem.deriveCek eph compliancePk;
  let psi := computePsi cek in
  let noteFields := mkNote 1 assetId 1 0 amount owner psi 0 in
  _ ← map_err Note_error (leaf noteFields);
  Ok noteFields.
Section store.
Context {S : Type} `{State.EphemeralCounterStore S}.
(** The inputs of the proof of a deposit. *)
Definition depositToTreasury (compliancePk gpk : Point) (groupViewSecret depositorMemberId assetId amount : Z) :
    M S TransferError DepositMap :=
  '(eph, _) ← embed Transfer_counter (multisigDepositEph fr_toString groupViewSecret depositorMemberId gpk);
  note ← lift Transfer_mint (depositNote gpk assetId (mm_eph eph) amount compliancePk);
  mret (mkDepositMap compliancePk note (mm_eph eph)).

(** *** A row *)
Definition is_transient (e : TransferError) : bool :=
  match e with Transfer_merkle (Witness.WitnessError Witness.ROOT_MISMATCH) => true | _ => false end.
(** [fn i] is the attempt [i]. *)
Fixpoint retry {A} (attempts : nat) (i : nat) (fn : nat → M S TransferError A) (lastErr : option TransferError) :
    M S (option TransferError) A := λ s,
  match attempts with
  | O => (s, Err lastErr)
  | Datatypes.S attempts =>
      match fn i s with
      | (s', Ok a) => (s', Ok a)
      | (s', Err e) => if is_transient e then retry attempts (Datatypes.S i) fn (Some e) s' else (s', Err (Some e))
      end
  end.
Definition retryOnTransientWitnessMismatch {A} (fn : nat → M S TransferError A) : M S (option TransferError) A :=
  retry 5 0 fn None.

(** The fields of a [GroupRecord] that a row uses. *)
Record Group := mkGroup { g_v : Z; g_myId : Z; g_gpk : Point }.
(** What becomes of an assembled transfer: [Unsent] when something throws before
    its transaction reaches the network (the proposal, the proof, the wallet),
    [Unconfirmed] when the transaction was handed over and [sendViaWallet] throws
    all the same (a lost answer, no confirmation in time), [Confirmed] when it
    returns. *)
Inductive Sending := Unsent | Unconfirmed | Confirmed.
(** What a row meets: the compliance key in the pool's account, which is read
    anew for each row ([None] when that fails), the source's answers and the memo's ephemeral at each
    attempt, what becomes of the transfer, and the answers of the indexer
    until the deadline, a leaf and its index in each entry. *)
Record RowWorld := mkRowWorld {
  w_compliancePk : option Point;
  w_witnessFor : nat → Z → result Witness.WitnessSourceError Witness.MerkleWitness; w_memoEph : nat → Z;
  w_submit : AssembledTransferMultisig → Sending; w_polls : list (option (list (Z * Z))) }.
(** The errors raised after the transaction was handed over are given the
    transfer, which those of the program do not carry: [handed_over] is what
    the pool may have executed although the row failed. *)
Inductive PayError :=
  | No_pool | Assembly (e : option TransferError) | Not_submitted
  | Not_confirmed (t : AssembledTransferMultisig) | Fetch_failed (t : AssembledTransferMultisig) | Not_reported (t : AssembledTransferMultisig).
Definition handed_over (e : PayError) : option AssembledTransferMultisig :=
  match e with Not_confirmed t | Fetch_failed t | Not_reported t => Some t | _ => None end.

Definition assembleRow (world : RowWorld) (group : Group) (compliancePk : Point) (sourceNote : MultisigNoteView)
    (recipient : ReceiveAddress) (amount : Z) : M S (option TransferError) AssembledTransferMultisig :=
  retryOnTransientWitnessMismatch (λ i,
    assembleTransferMultisig fr_toString (w_witnessFor world i)
      (mkGroupRequest (g_gpk group) (g_v group) (g_myId group) compliancePk sourceNote amount
         (ra_pubX recipient, ra_pubY recipient) 0 (w_memoEph world i))).

Definition changeNoteView (assembled : AssembledTransferMultisig) (leafIndex : Z) (memberId : option Z) : MultisigNoteView :=
  let c := pi_changeNote (partialInputs assembled) in
  mkView c (changeCommitment assembled) leafIndex (computeNullifier (psi c) leafIndex) false memberId None.
Fixpoint resolveChangeNote (polls : list (option (list (Z * Z)))) (assembled : AssembledTransferMultisig) (memberId : option Z) :
    result PayError MultisigNoteView :=
  match polls with
  | [] => Err (Not_reported assembled)
  | None :: _ => Err (Fetch_failed assembled)
  | Some events :: polls =>
      match find (λ e, e.1 =? changeCommitment assembled) events with
      | Some hit => Ok (changeNoteView assembled hit.2 memberId)
      | None => resolveChangeNote polls assembled memberId
      end
  end.

(** [spent]: whether the account at the nullifier's address exists. *)
Definition selectSpendableNotes (spent : Z → bool) (notes : list MultisigNoteView) : list MultisigNoteView :=
  let candidates := js_sort (λ a b, v_leafIndex a - v_leafIndex b) (List.filter (λ n, negb (v_isIncoming n)) notes) in
  List.filter (λ n, negb (spent (v_nullifier n))) candidates.

Definition payOneRecipient (world : RowWorld) (group : Group) (sourceNote : MultisigNoteView)
    (recipient : ReceiveAddress) (amount : Z) : M S PayError (AssembledTransferMultisig * MultisigNoteView) :=
  compliancePk ← (match w_compliancePk world with Some pk => mret pk | None => throw No_pool end);
  assembled ← embed Assembly (assembleRow world group compliancePk sourceNote recipient amount);
  match w_submit world assembled with
  | Unsent => throw Not_submitted
  | Unconfirmed => throw (Not_confirmed assembled)
  | Confirmed =>
    changeNote ← lift (λ e, e) (resolveChangeNote (w_polls world) assembled (Some (g_myId group)));
    mret (assembled, changeNote)
  end.

(** *** The batch *)
Definition with_status (r : PayrollRow) (status : PayrollRowStatus) : PayrollRow :=
  mkRow (pr_address r) (pr_amount r) (pr_memo r) status (pr_error r) (pr_claimLink r).
Definition markRowStatus (rows : list PayrollRow) (index : nat) (status : PayrollRowStatus) : list PayrollRow :=
  imap (λ i r, if (i =? index)%nat then with_status r status else r) rows.
(** The rows with their final status, the transfers of the confirmed rows, the
    transfer of the failed row when it had been handed over, and the note that
    the program would spend next. *)
Record BatchResult := mkBatch {
  b_rows : list PayrollRow; b_sent : list AssembledTransferMultisig; b_unreported : option AssembledTransferMultisig;
  b_last : MultisigNoteView }.
(** The loop of [onPay]: it pays every row, whatever its status, and the first
    failure stops it.  The text of an error and the claim link of a row, whose
    encoding does not throw, are left out. *)
Fixpoint pay_loop `{Browser} (worlds : nat → RowWorld) (group : Group) (rows : list PayrollRow) (i : nat)
    (sourceNote : MultisigNoteView) (s : S) : S * BatchResult :=
  match rows with
  | [] => (s, mkBatch [] [] None sourceNote)
  | row :: rows =>
      match decodeReceiveAddress (pr_address row) with
      | Err _ => (s, mkBatch (with_status row failed :: rows) [] None sourceNote)
      | Ok recipient =>
          match payOneRecipient (worlds i) group sourceNote recipient (pr_amount row) s with
          | (s, Err e) => (s, mkBatch (with_status row failed :: rows) [] (handed_over e) sourceNote)
          | (s, Ok (assembled, changeNote)) =>
              let '(s, b) := pay_loop worlds group rows (Datatypes.S i) changeNote s in
              (s, mkBatch (with_status row confirmed :: b_rows b) (assembled :: b_sent b) (b_unreported b) (b_last b))
          end
      end
  end.
(** A batch: the oldest spendable note, and a counter store for the batch,
    [fresh_store]; [None] when there is no such note. *)
Definition onPay `{Browser} (fresh_store : S) (spent : Z → bool) (views : list MultisigNoteView) (worlds : nat → RowWorld)
    (group : Group) (rows : list PayrollRow) : option (S * BatchResult) :=
  match selectSpendableNotes spent views with
  | [] => None
  | sourceNote :: _ => Some (pay_loop worlds group rows 0 sourceNote fresh_store)
  end.
End store.
End Flows.
End Flows.

(** ** What a batch spends and leaves *)
Module Batch.
Import Trace.Note Circuit GroupCircuit MultisigNote Scanner Client ProposalSpec BjjSuite GroupTransfer GroupTransferSpec Token Payroll Flows.
Section Batch.
Context `{BabyJubjub} `{Poseidon2} `{PoseidonV1} `{CurveSub} (eight_inv : Z) (fr_toString : Z → string).
Context {S : Type} `{State.EphemeralCounterStore S} {CL : State.CounterLaws S}.
Context {L : BabyJubjubLaws} {SL : CurveSubLaws} {PF : Poseidon2Field}.
Context (Hv1 : ∀ xs, in_field (poseidon_v1 xs)) (Height : 0 <= eight_inv) (Hinv : 8 * eight_inv =[subOrder] 1)
  (Horder : subOrder <= Kem.BJJ_SUBGROUP_ORDER).


(** *** Attempts *)
Lemma transient_unchanged wf req (s s' : S) e : assembleTransferMultisig fr_toString wf req s = (s', Err e) →
  is_transient e = true → s' = s.
Proof.
  unfold assembleTransferMultisig, mbind, M_bind, lift. destruct (wf _) as [w|e0]; cbn [map_err]; [|by intros [= <- _]].
  destruct (negb _); [by intros [= <- _]|]. destruct (_ <? 0); [by intros [= <- _]|]. unfold embed.
  destruct (multisigDepositEph _ _ _ _ s) as [s1 [[m o]|e1]]; cbn [map_err]; [|by intros [= <- <-]].
  destruct (packParents _ _) as [par|]; cbn [map_err]; [|by intros [= <- <-]].
  destruct (mintSelfNoteMultisig _ _ _ _ _ _) as [[n c]|]; cbn [map_err]; [|by intros [= <- <-]].
  destruct (Mint.mintIncomingNote _ _ _ _ _ _ _) as [me|]; cbn [map_err]; [|by intros [= <- <-]].
  destruct (newFr _) as [v|]; cbn [map_err]; [done|by intros [= <- <-]].
Qed.
Lemma retry_Ok {A} n i (fn : nat → M S TransferError A) last s s' a :
  (∀ k s s' e, fn k s = (s', Err e) → is_transient e = true → s' = s) →
  retry n i fn last s = (s', Ok a) → ∃ k, fn k s = (s', Ok a).
Proof.
  intros Hfn. revert i last s. induction n as [|n IH]; intros i last s; cbn [retry]; [done|].
  destruct (fn i s) as [s1 [a1|e]] eqn:E; [intros [= <- <-]; by exists i|].
  destruct (is_transient e) eqn:Et; [|done]. rewrite (Hfn _ _ _ _ E Et). apply IH.
Qed.
Lemma assembleRow_Ok world group cpk view recipient amount (s s' : S) out :
  assembleRow fr_toString world group cpk view recipient amount s = (s', Ok out) →
  ∃ k, assembleTransferMultisig fr_toString (w_witnessFor world k)
    (mkGroupRequest (g_gpk group) (g_v group) (g_myId group) cpk view amount (ra_pubX recipient, ra_pubY recipient) 0
       (w_memoEph world k)) s = (s', Ok out).
Proof. apply (retry_Ok 5 0). intros k s0 s1 e. apply transient_unchanged. Qed.
(** The change's ephemeral is that of an index that the counter handed out. *)
Lemma assembled_index wf req (s s' : S) out : assembleTransferMultisig fr_toString wf req s = (s', Ok out) →
  ∃ m o, multisigDepositEph fr_toString (gr_v req) (gr_memberId req) (gr_gpk req) s = (s', Ok (m, o)) ∧
    pi_changeEph (partialInputs out) = mm_eph m.
Proof.
  unfold assembleTransferMultisig. cbv zeta. intros Hrun.
  apply M_bind_Ok in Hrun as (? & w & [-> _]%lift_Ok & Hrun). destruct (negb _); [done|]. destruct (_ <? 0); [done|].
  apply M_bind_Ok in Hrun as (s1 & [m o] & Hd%embed_Ok & Hrun).
  apply M_bind_Ok in Hrun as (? & par & [-> _]%lift_Ok & Hrun).
  apply M_bind_Ok in Hrun as (? & [n c] & [-> _]%lift_Ok & Hrun).
  apply M_bind_Ok in Hrun as (? & me & [-> _]%lift_Ok & Hrun).
  apply M_bind_Ok in Hrun as (? & v' & [-> _]%lift_Ok & Hrun). injection Hrun as <- <-. by exists m, o.
Qed.
Lemma deposit_index v memberId gpk (s s' : S) m o : multisigDepositEph fr_toString v memberId gpk s = (s', Ok (m, o)) →
  let scope := depositScope fr_toString v memberId in
  (∃ p, deriveSelfEph v memberId (mm_index m) = Ok (mm_eph m, p)) ∧
  State.highWater scope s <= mm_index m < State.highWater scope s'.
Proof.
  unfold multisigDepositEph. intros Hd. destruct (deposit_loop_spec _ _ _ _ _ _ _ _ Hd) as [_ Hs].
  destruct (Hs m o eq_refl) as (_ & _ & _ & He & _ & _ & Hj). by split; [eexists|].
Qed.

(** *** The change note is the next note *)
Lemma resolve_Ok polls out memberId view : resolveChangeNote polls out memberId = Ok view →
  ∃ leafIndex, view = changeNoteView out leafIndex memberId.
Proof.
  induction polls as [|[events|] polls IH]; cbn; [done| |done]. destruct (find _ events) as [hit|]; [|done].
  intros [= <-]. by eexists.
Qed.
Lemma resolve_Err polls out memberId e t : resolveChangeNote polls out memberId = Err e → handed_over e = Some t → t = out.
Proof.
  induction polls as [|[events|] polls IH]; cbn; [|destruct (find _ events); [done|exact IH]|]; intros [= <-]; cbn; by intros [= <-].
Qed.
Definition assembled_for (world : RowWorld) (group : Group) (view : MultisigNoteView) (recipient : ReceiveAddress) (amount : Z)
    (s s' : S) (out : AssembledTransferMultisig) : Prop :=
  ∃ cpk, w_compliancePk world = Some cpk ∧ assembleRow fr_toString world group cpk view recipient amount s = (s', Ok out).
(** Whatever a row answers, a transfer that was handed over is the one assembled. *)
Lemma payOneRecipient_assembled world group view recipient amount (s s' : S) r :
  payOneRecipient fr_toString world group view recipient amount s = (s', r) →
  match r with
  | Ok (out, next) =>
      assembled_for world group view recipient amount s s' out ∧
      ∃ leafIndex, next = changeNoteView out leafIndex (Some (g_myId group))
  | Err e => ∀ out, handed_over e = Some out → assembled_for world group view recipient amount s s' out
  end.
Proof.
  unfold payOneRecipient, mbind, M_bind, embed. destruct (w_compliancePk world) as [cpk|] eqn:Epk; [|by intros [= <- <-]]. unfold mret, M_ret.
  destruct (assembleRow _ _ _ _ _ _ _ s) as [s1 [a|e]] eqn:Ea; cbn [map_err].
  2:{ by intros [= <- <-]. }
  destruct (w_submit world a); [by intros [= <- <-]|by intros [= <- <-] out [= <-]; exists cpk|]. unfold lift.
  destruct (resolveChangeNote _ _ _) as [c|e] eqn:Ec; cbn [map_err].
  - intros [= <- <-]. split; [by exists cpk|]. by destruct (resolve_Ok _ _ _ _ Ec) as [i ->]; exists i.
  - intros [= <- <-] out Ho. rewrite (resolve_Err _ _ _ _ _ Ec Ho). by exists cpk.
Qed.

(** *** The notes to spend, and a deposit *)
Lemma selectSpendableNotes_spec spent notes :
  let chosen := selectSpendableNotes spent notes in
  StronglySorted (λ a b, v_leafIndex a <= v_leafIndex b) chosen ∧
  ∀ n, n ∈ chosen ↔ n ∈ notes ∧ v_isIncoming n = false ∧ spent (v_nullifier n) = false.
Proof.
  cbv zeta. unfold selectSpendableNotes. split.
  - set (l := js_sort _ _).
    assert (Hs : StronglySorted (λ a b, v_leafIndex a - v_leafIndex b <= 0) l) by (apply js_sort_sorted; cbn; lia).
    clearbody l. induction Hs as [|n l Hs IH Hf]; [constructor|]. cbn [List.filter]. destruct (negb _); [|done].
    constructor; [done|]. rewrite Forall_forall in Hf |- *. intros x Hx. apply list_elem_of_In, filter_In in Hx as [Hx%list_elem_of_In _].
    specialize (Hf x Hx). lia.
  - intros n. rewrite list_elem_of_In, filter_In, <- list_elem_of_In, js_sort_perm, list_elem_of_In, filter_In, <- list_elem_of_In.
    rewrite !negb_true_iff. tauto.
Qed.
(** 31 bytes are below the order of the real curve's subgroup. *)
Lemma randomEvenYScalar_even draws k : 256 ^ 31 <= subOrder → Forall (λ b, length b = 31%nat ∧ Forall is_byte b) draws →
  randomEvenYScalar draws = Some k → Assemble.even_key k.
Proof.
  intros Hord Hd. induction Hd as [|b draws [Hlen Hb] _ IH]; [done|]. cbn [randomEvenYScalar].
  destruct (Keys.Keys.isEvenY _) eqn:Ev; [|done]. intros [= <-]. unfold bytesToBigIntBE in *.
  rewrite foldl_lor_be in * by done. pose proof (of_be_bound b Hb) as Hk. rewrite Hlen in Hk.
  change (Z.of_nat 31) with 31 in Hk. assert (256 ^ 31 < Kem.BJJ_SUBGROUP_ORDER) by reflexivity.
  assert (of_be b ≠ 0). { intros E. rewrite E in Ev. unfold Keys.Keys.isEvenY, Keys.Keys.publicKey in Ev. by rewrite mul_zero in Ev. }
  split; [split; lia|done].
Qed.

Lemma mint_deposit_of n eph cpk gpk x : mint_self_note_multisig n eph cpk gpk = Some x → Circuit.mint_deposit n eph cpk = Some x.
Proof. unfold mint_self_note_multisig. by intros (? & _ & (? & _ & E)%bind_Some)%bind_Some. Qed.
(** What a deposit proves: the circuit accepts its inputs, publishes the
    amount, the asset and the leaf of a note of the group, and the tag is that of
    an index that the depositor's counter handed out. *)
Theorem treasury_deposit_accepted cpk gpk v memberId asset amount (s s' : S) m :
  depositToTreasury fr_toString cpk gpk v memberId asset amount s = (s', Ok m) →
  multisigOwner gpk ≠ 0 → asset < 2 ^ 160 →
  group_note (d_note m) gpk ∧ ∃ o, Circuit.deposit m = Some o ∧ do_value o = amount ∧ do_asset o = asset ∧
    leaf (d_note m) = Ok (do_leaf o) ∧
    let scope := depositScope fr_toString v memberId in
    ∃ j p, deriveSelfEph v memberId j = Ok (d_eph m, p) ∧ State.highWater scope s <= j < State.highWater scope s'.
Proof.
  intros Hrun Hown Hasset. unfold depositToTreasury in Hrun.
  apply M_bind_Ok in Hrun as (s1 & [e o] & Hd%embed_Ok & Hrun).
  apply M_bind_Ok in Hrun as (? & note & [-> Hn]%lift_Ok & Hrun). injection Hrun as <- <-. cbn [d_note d_eph d_compliance].
  unfold depositNote in Hn. apply bind_Ok in Hn as (w & [-> _]%newFr_inv & Hn).
  apply bind_Ok in Hn as (cek & Hcek & Hn). cbv zeta in Hn. apply bind_Ok in Hn as (c & Hl%map_err_Ok & [= <-]).
  destruct (deposit_eph fr_toString Horder _ _ _ _ _ _ _ Hd) as [He Hev].
  destruct (mint_self_multisig_spec _ _ _ _ _ _ _ _ Hcek Hl He Hev Hown Hasset) as (Hcpk & Hin & Hm%mint_deposit_of).
  destruct (deposit_index _ _ _ _ _ _ _ Hd) as [[p Hp] Hj].
  split; [by split|]. unfold Circuit.deposit. cbn [d_note d_eph d_compliance].
  set (n := mkNote 1 asset 1 0 amount (multisigOwner gpk) (computePsi cek) 0) in *.
  change (note_input n = Some tt) in Hin. change (Circuit.mint_deposit n (mm_eph e) cpk =
    Some (mkSelfMint c (Keys.Keys.publicKey (mm_eph e)) (dem_encrypt cek (Mint.transmitted_fields n)))) in Hm.
  change (parents n) with 0.
  rewrite Hin, Hcpk. cbn [mbind option_bind parents Z.eqb assert]. rewrite Hm. eexists. split; [reflexivity|].
  split_and!; [done|done|exact Hl|]. exists (mm_index e), p. done.
Qed.

(** *** A batch *)
Context (group : Group) (gk : Z) (Hgpk : g_gpk group = Keys.Keys.publicKey gk) (Hgk : Kem.valid_scalar gk)
  (Hself : multisigOwner (g_gpk group) ≠ 0).

(** What the world owes a row: a key of field elements, verified witnesses and
    even ephemerals. *)
Definition honest_world (world : RowWorld) : Prop :=
  (∀ cpk, w_compliancePk world = Some cpk → canonical cpk) ∧
  ∀ k, Assemble.witness_verified (w_witnessFor world k) ∧ Assemble.even_key (w_memoEph world k).





(** A batch has a counter store of its own: two of them over the same starting
    store give their first change the same ephemeral, whatever they pay. *)
Lemma first_change `{Browser} worlds rows i view (s s' : S) b out : b_sent b !! 0%nat = Some out →
  pay_loop fr_toString worlds group rows i view s = (s', b) →
  ∃ s1 m o, multisigDepositEph fr_toString (g_v group) (g_myId group) (g_gpk group) s = (s1, Ok (m, o)) ∧
    pi_changeEph (partialInputs out) = mm_eph m.
Proof.
  intros Hout. destruct rows as [|row rows]; cbn [pay_loop]; [by intros [= _ <-]|]. destruct (decodeReceiveAddress _) as [rec|]; [|by intros [= _ <-]].
  destruct (payOneRecipient _ _ _ _ _ _ s) as [s1 [[a next]|e]] eqn:Ep; [|by intros [= _ <-]].
  destruct (pay_loop _ _ _ rows _ next s1) as [s2 b2]. intros [= _ <-]. injection Hout as ->.
  destruct (payOneRecipient_assembled _ _ _ _ _ _ _ _ Ep) as [(cpk & _ & Hrow) _]. destruct (assembleRow_Ok _ _ _ _ _ _ _ _ _ Hrow) as [k Hk].
  destruct (assembled_index _ _ _ _ _ Hk) as (m & o & Hd & E). by exists s1, m, o.
Qed.
Lemma batches_share_ephemeral `{Browser} fresh spent1 spent2 views1 views2 worlds1 worlds2 rows1 rows2 s1 s2 b1 b2 o1 o2 :
  onPay fr_toString fresh spent1 views1 worlds1 group rows1 = Some (s1, b1) → b_sent b1 !! 0%nat = Some o1 →
  onPay fr_toString fresh spent2 views2 worlds2 group rows2 = Some (s2, b2) → b_sent b2 !! 0%nat = Some o2 →
  pi_changeEph (partialInputs o1) = pi_changeEph (partialInputs o2).
Proof.
  unfold onPay. destruct (selectSpendableNotes spent1 views1) as [|n1 ?], (selectSpendableNotes spent2 views2) as [|n2 ?]; try done.
  intros [= Ho1] L1 [= Ho2] L2. destruct (first_change _ _ _ _ _ _ _ _ L1 Ho1) as (? & m1 & ? & E1 & ->).
  destruct (first_change _ _ _ _ _ _ _ _ L2 Ho2) as (? & m2 & ? & E2 & ->). rewrite E1 in E2. by injection E2 as _ <- _.
Qed.
End Batch.
End Batch.

(** ** Witnesses: the toy group pays rows of a payroll of four *)
Module TreasuryWitness.
Import EvenCurve MintWitness Trace.Note Circuit GroupCircuit State.Counter MultisigNote Scanner BjjSuite GroupTransfer GroupTransferSpec GroupTransferWitness WebWitness Token Payroll Flows Batch.
#[local] Existing Instance bjjCiphersuite.
#[local] Existing Instance AssembleWitness.sum_v1.
#[local] Existing Instance toy_sub.
#[local] Existing Instance toy_sub_laws.
#[local] Existing Instance ToyText.toy_text.

(** A source that has every leaf at one index, with siblings on its left. *)
Definition siblings_at (idx : Z) : list Z := (λ i, if Z.testbit idx (Z.of_nat i) then 5 else 0) <$> seq 0 32.
Definition leaf_at (idx : Z) (l : Z) : result Witness.WitnessSourceError Witness.MerkleWitness :=
  match Witness.foldPath l idx (siblings_at idx) with
  | Ok root => Ok (Witness.mkMerkleWitness idx (siblings_at idx) root)
  | Err _ => Err (Witness.WitnessError Witness.LEAF_NOT_FOUND)
  end.
Lemma leaf_at_verified idx : Assemble.witness_verified (leaf_at idx).
Proof.
  intros l w. unfold leaf_at. destruct (Witness.foldPath _ _ _) as [r|] eqn:E; [|done]. intros [= <-]. split_and!; [done| |done].
  apply Forall_fmap, Forall_forall. intros i _. cbn. by destruct (Z.testbit _ _).
Qed.
Definition toy_group : Group := mkGroup 11 2 toy_gpk.
Definition address_of (k : Z) : string := encodeReceiveAddress (mkReceive 0 (Keys.Keys.publicKey k).1 (Keys.Keys.publicKey k).2).
Definition row_of (address : string) (amount : Z) : PayrollRow := mkRow address amount "" pending None None.
Definition toy_rows : list PayrollRow := [row_of (address_of 7) 40; row_of (address_of 9) 25; row_of (address_of 8) 50; row_of (address_of 8) 1].
Definition toy_cpk : Point := Keys.Keys.publicKey 3.
Definition world_at (i : nat) (polls : list (option (list (Z * Z)))) : RowWorld :=
  mkRowWorld (Some toy_cpk) (λ _, leaf_at (Z.of_nat i)) (λ _, 5) (λ _, Confirmed) polls.
Definition change_leaf {S} (r : S * result (option TransferError) AssembledTransferMultisig) : Z :=
  match r.2 with Ok out => changeCommitment out | Err _ => 0 end.
Definition first_run := assembleRow pretty (world_at 0 []) toy_group toy_cpk toy_view (mkReceive 0 (Keys.Keys.publicKey 7).1 (Keys.Keys.publicKey 7).2) 40 (mkInMemory ∅ false).
Definition toy_next : MultisigNoteView :=
  match first_run.2 with Ok out => changeNoteView out 1 (Some 2) | Err _ => toy_view end.
Definition second_run := assembleRow pretty (world_at 1 []) toy_group toy_cpk toy_next (mkReceive 0 (Keys.Keys.publicKey 9).1 (Keys.Keys.publicKey 9).2) 25 first_run.1.
(** The indexer reports each change at the second poll. *)
Definition toy_worlds (i : nat) : RowWorld :=
  world_at i [Some []; Some [(change_leaf (if (i =? 0)%nat then first_run else second_run), Z.of_nat i + 1)]].
Definition toy_batch := pay_loop pretty toy_worlds toy_group toy_rows 0 toy_view (mkInMemory ∅ false).
Example toy_statuses : pr_status <$> b_rows toy_batch.2 = [confirmed; confirmed; failed; pending] ∧ b_unreported toy_batch.2 = None.
Proof. by vm_compute. Qed.

Lemma toy_even k : 0 < k < 13 → Assemble.even_key k.
Proof.
  intros Hk. split; [by apply valid_small|]. unfold Keys.Keys.isEvenY, Keys.Keys.publicKey, mulPointEscalar, Base8, even_curve, pt.
  cbn [fst snd]. by rewrite Z.mul_1_l, Z.mod_small, (proj2 (Z.eqb_neq k 0)) by lia.
Qed.
Lemma toy_worlds_honest i : honest_world (toy_worlds i).
Proof. split; [by intros cpk [= <-]|]. intros k. split; [apply leaf_at_verified|apply toy_even; cbn; lia]. Qed.

(** What the user sees of such a batch makes for a second payment: the row is
    shown as failed, the note it spent is gone from the list and its change is
    there, and a second batch pays the same row again; it would do so as well
    for a row that is shown as confirmed. *)
Definition one_row : list PayrollRow := [row_of (address_of 7) 40].
Definition unseen_batch := (pay_loop pretty (λ _, world_at 0 []) toy_group one_row 0 toy_view (mkInMemory ∅ false)).2.
Definition second_view : MultisigNoteView :=
  match b_unreported unseen_batch with Some out => changeNoteView out 1 (Some 2) | None => toy_view end.
Definition second_try (status : PayrollRowStatus) :=
  (pay_loop pretty (λ _, world_at 1 [Some [(change_leaf (assembleRow pretty (world_at 1 []) toy_group toy_cpk second_view
       (mkReceive 0 (Keys.Keys.publicKey 7).1 (Keys.Keys.publicKey 7).2) 40 (mkInMemory ∅ false)), 2)]]) toy_group
     ((λ r, with_status r status) <$> b_rows unseen_batch) 0 second_view (mkInMemory ∅ false)).2.
Example paid_twice : ∃ out1 out2, pr_status <$> b_rows unseen_batch = [failed] ∧ b_unreported unseen_batch = Some out1 ∧
  b_sent (second_try failed) = [out2] ∧ b_sent (second_try confirmed) = [out2] ∧
  pi_recipientInPub (partialInputs out1) = pi_recipientInPub (partialInputs out2) ∧
  value (pi_memoNote (partialInputs out1)) = 40 ∧ value (pi_memoNote (partialInputs out2)) = 40 ∧
  pi_oldNote (partialInputs out2) = pi_changeNote (partialInputs out1).
Proof. do 2 eexists. split; [vm_compute; reflexivity|]. split; [vm_compute; reflexivity|]. split; [vm_compute; reflexivity|]. by vm_compute. Qed.
(** The first payments of two batches, of different amounts and to different
    addresses, have a change of the same ephemeral. *)
Example two_batches : ∃ out1 out2,
  b_sent (pay_loop pretty toy_worlds toy_group (take 1 toy_rows) 0 toy_view (mkInMemory ∅ false)).2 = [out1] ∧
  b_sent (pay_loop pretty (λ _, world_at 0 [Some [(change_leaf (assembleRow pretty (world_at 0 []) toy_group toy_cpk toy_view
       (mkReceive 0 (Keys.Keys.publicKey 9).1 (Keys.Keys.publicKey 9).2) 3 (mkInMemory ∅ false)), 1)]]) toy_group
     [row_of (address_of 9) 3] 0 toy_view (mkInMemory ∅ false)).2 = [out2] ∧
  pi_changeEph (partialInputs out1) = pi_changeEph (partialInputs out2) ∧
  value (pi_changeNote (partialInputs out1)) = 60 ∧ value (pi_changeNote (partialInputs out2)) = 97.
Proof. do 2 eexists. split; [vm_compute; reflexivity|]. split; [vm_compute; reflexivity|]. by vm_compute. Qed.
End TreasuryWitness.
