(* ===== verification/Claim.v ===== *)
(** * The recipient's pages of the web application ([apps/web/src/lib])

    [WebCounter] is [ephemeralCounters.ts]: a durable counter over Web Storage,
    an implementation of [CounterPersistence].  [ScanOnly] is
    [scanOnlyRepositories.ts] and [viewOnlyAccount.ts], the read-only stand-ins
    for the wallet's repositories.  [Claim] is [claimFlows.ts], the withdrawal of
    a payment, and [onWithdraw] of [routes/ClaimPage.tsx]. *)
From stdpp Require Import pretty.
From S2P Require Import Prelude Bytes Zq Tss Dkg Tree Keys Address Trace Mint State Circuits Keyring Gap Scan Assemble Client Text Session Web Treasury.
Local Open Scope Z_scope.

(** ** [ephemeralCounters.ts] *)
Module WebCounter.
Import State.Counter.
Section WebCounter.
Context `{Text}.

(** A [CounterSnapshot], its keys in their order; what is stored under the
    account's key, if anything. *)
Definition CounterSnapshot : Type := list (string * Z).
Definition Item : Type := option string.
(** [Object.entries(parsed)] of an object; the numbers of [Json] are integers. *)
Definition entries (v : Json) : option (list (string * Json)) :=
  match v with
  | JObj fields => Some fields
  | JArr l => Some (imap (λ i v, (pretty (Z.of_nat i), v)) l)
  | _ => None
  end.
Definition count_of (f : string * Json) : option (string * Z) :=
  match f.2 with JNum n => if 0 <=? n then Some (f.1, n) else None | _ => None end.
Definition read (raw : Item) : CounterSnapshot :=
  match raw with
  | None | Some EmptyString => []
  | Some raw =>
      match parse raw with
      | Ok parsed => match entries parsed with Some l => omap count_of l | None => [] end
      | Err _ => []
      end
  end.
Fixpoint get_scope (scope : string) (snapshot : CounterSnapshot) : option Z :=
  match snapshot with [] => None | (k, v) :: s => if bool_decide (k = scope) then Some v else get_scope scope s end.
Fixpoint set_scope (scope : string) (v : Z) (snapshot : CounterSnapshot) : CounterSnapshot :=
  match snapshot with
  | [] => [(scope, v)]
  | (k, w) :: s => if bool_decide (k = scope) then (k, v) :: s else (k, w) :: set_scope scope v s
  end.
Definition snapshot_json (snapshot : CounterSnapshot) : Json := JObj ((λ p, (p.1, JNum p.2)) <$> snapshot).
Definition web_reserve (scope : string) (span : Z) : M Item CounterError Z := λ raw,
  let snapshot := read raw in
  let base := default 0 (get_scope scope snapshot) in
  (Some (stringify (snapshot_json (set_scope scope (base + span) snapshot))), Ok base).
#[export] Instance webStorageCounterPersistence : CounterPersistence Item :=
  {| persist_read raw := list_to_map (read raw); persist_reserve := web_reserve |}.
#[export] Instance browserEphemeralCounterStore : EphemeralCounterStore Item := persistentStore.

(** *** A record that was written by the store *)
(** [Object.entries] of a parsed text; [JSON.parse] of no text throws. *)
Context {TL : TextLaws} (Hempty : parse "" = Err Syntax_error).
(** A name that is not a number. *)
Definition scope_name (k : string) : Prop := forallb is_digit (String.list_ascii_of_string k) = false.
Record good (raw : Item) : Prop := {
  good_keys : NoDup (read raw).*1; good_names : Forall scope_name (read raw).*1;
  good_counts : Forall (λ n, 0 <= n < 2 ^ 53) (read raw).*2 }.

Lemma get_scope_map scope snapshot : get_scope scope snapshot = (list_to_map snapshot : gmap string Z) !! scope.
Proof.
  induction snapshot as [|[k v] s IH]; [done|]. cbn [get_scope]. rewrite list_to_map_cons. case_bool_decide as E.
  - subst. by rewrite lookup_insert_eq.
  - by rewrite lookup_insert_ne.
Qed.
Lemma set_scope_get scope scope' v snapshot :
  get_scope scope' (set_scope scope v snapshot) = if decide (scope' = scope) then Some v else get_scope scope' snapshot.
Proof.
  induction snapshot as [|[k w] s IH]; cbn [set_scope get_scope].
  - repeat case_bool_decide; case_decide; congruence.
  - repeat case_bool_decide; cbn [get_scope]; repeat case_bool_decide; repeat case_decide; congruence.
Qed.
Lemma set_scope_keys scope v snapshot k : k ∈ (set_scope scope v snapshot).*1 ↔ k = scope ∨ k ∈ snapshot.*1.
Proof.
  induction snapshot as [|[k' w] s IH]; cbn [set_scope]; [set_solver|]. case_bool_decide; set_solver.
Qed.
Lemma set_scope_nodup scope v snapshot : NoDup snapshot.*1 → NoDup (set_scope scope v snapshot).*1.
Proof.
  induction snapshot as [|[k w] s IH]; cbn [set_scope]; [intros _; apply NoDup_singleton|].
  rewrite fmap_cons, NoDup_cons. cbn [fst]. intros [Hk Hs]. case_bool_decide as E; rewrite fmap_cons, NoDup_cons; cbn [fst]; [done|].
  split; [|by apply IH]. rewrite set_scope_keys. by intros [->|].
Qed.
Lemma set_scope_counts scope v snapshot (P : Z → Prop) : P v → Forall P snapshot.*2 → Forall P (set_scope scope v snapshot).*2.
Proof.
  intros Hv. induction snapshot as [|[k w] s IH]; cbn [set_scope]; [by repeat constructor|].
  rewrite fmap_cons, Forall_cons. cbn [snd]. intros [Hw Hs]. case_bool_decide; rewrite fmap_cons, Forall_cons; auto.
Qed.
(** A snapshot of safe counters under such names is read back as it was. *)
Lemma read_written snapshot : NoDup snapshot.*1 → Forall scope_name snapshot.*1 → Forall (λ n, 0 <= n < 2 ^ 53) snapshot.*2 →
  read (Some (stringify (snapshot_json snapshot))) = snapshot.
Proof.
  intros Hd Hn Hc. assert (Hp : parse (stringify (snapshot_json snapshot)) = Ok (snapshot_json snapshot)).
  { apply parse_stringify. apply Token.plain_fields.
    - by rewrite <- list_fmap_compose.
    - by rewrite <- list_fmap_compose.
    - rewrite <- list_fmap_compose. apply Forall_fmap. rewrite Forall_fmap in Hc. eapply Forall_impl; [exact Hc|]. intros [k n] Hb. cbn in *. constructor. lia. }
  unfold read. destruct (stringify _) as [|c raw]; [by rewrite Hempty in Hp|]. rewrite Hp. cbn [entries snapshot_json].
  rewrite Forall_fmap in Hc. clear -Hc. induction Hc as [|[k n] s Hb _ IH]; [done|]. rewrite fmap_cons. cbn in Hb |- *.
  rewrite (proj2 (Z.leb_le _ _)) by lia. f_equal. exact IH.
Qed.

(** One reservation: the base is the count, which advances by the span; the
    other scopes stay. *)
Lemma web_reserve_good scope n raw : good raw → scope_name scope → 0 < n → highWater scope raw + n < 2 ^ 53 →
  ∃ raw', reserve scope n raw = (raw', Ok (mkReservation (highWater scope raw) n)) ∧ good raw' ∧
    ∀ scope', highWater scope' raw' = if decide (scope' = scope) then highWater scope raw + n else highWater scope' raw.
Proof.
  intros [Hd Hn Hc] Hs Hpos Hb. cbn [highWater browserEphemeralCounterStore persistentStore] in *. unfold persistent_highWater in *.
  cbn [persist_read webStorageCounterPersistence] in *. rewrite <- get_scope_map in *.
  set (base := default 0 (get_scope scope (read raw))) in *.
  assert (Hbase : 0 <= base).
  { unfold base. destruct (get_scope scope (read raw)) as [v|] eqn:E; [|done]. rewrite get_scope_map in E.
    apply elem_of_list_to_map in E; [|done]. rewrite Forall_forall in Hc. apply (Hc v). apply list_elem_of_fmap. by exists (scope, v). }
  set (next := set_scope scope (base + n) (read raw)).
  assert (Hr : read (Some (stringify (snapshot_json next))) = next).
  { apply read_written; [by apply set_scope_nodup| |apply set_scope_counts; [lia|done]].
    rewrite Forall_forall in Hn |- *. intros k [-> |Hk]%set_scope_keys; [done|by apply Hn]. }
  exists (Some (stringify (snapshot_json next))). split_and!.
  - cbn [reserve browserEphemeralCounterStore persistentStore]. unfold persistent_reserve, mbind, M_bind.
    cbn [persist_reserve webStorageCounterPersistence]. unfold web_reserve. cbv zeta. fold base. fold next.
    rewrite (proj2 (Z.ltb_lt _ _)) by done. cbn [negb]. unfold isSafeInteger, MAX_SAFE.
    repeat (rewrite (proj2 (Z.leb_le _ _)) by lia). rewrite (proj2 (Z.ltb_ge _ _)) by lia. done.
  - split; rewrite Hr.
    + by apply set_scope_nodup.
    + rewrite Forall_forall in Hn |- *. intros k [-> |Hk]%set_scope_keys; [done|by apply Hn].
    + apply set_scope_counts; [lia|done].
  - intros scope'. rewrite <- !get_scope_map, Hr. unfold next. rewrite set_scope_get. by case_decide.
Qed.

(** What the spans of some calls add up to. *)
Definition demand (calls : list Call) : Z := foldr (λ '(Reserve _ n) t, Z.max 0 n + t) 0 calls.
Lemma demand_nonneg calls : 0 <= demand calls.
Proof. induction calls as [|[sc n] calls IH]; cbn [demand foldr] in *; [done|]. unfold demand in IH. lia. Qed.
(** C38. A recipient's counter across visits.  Whatever the calls and however
    often the page is loaded in between, a store over an undamaged record grants
    exactly the spans that one in-memory counter started at the recorded counts
    would grant, as long as the counts stay safe integers, and leaves an undamaged
    record.  Scopes are names and not numbers ([scope_name]).  A name that every
    JavaScript object has, such as [constructor], is outside the model; no scope
    of the source is one. *)
Theorem web_store_refines_memory calls raw (w : gmap string Z) : good raw → Forall (λ '(Reserve scope _), scope_name scope) calls →
  (∀ scope, mem_highWater scope (mkInMemory w false) = highWater scope raw ∧ highWater scope raw + demand calls < 2 ^ 53) →
  let '(granted, raw') := run calls raw in
  let '(granted', s') := run calls (mkInMemory w false) in
  granted = granted' ∧ good raw' ∧ ∀ scope, mem_highWater scope s' = highWater scope raw'.
Proof.
  intros Hg Hc. revert raw w Hg. induction Hc as [|[scope n] calls Hs _ IH]; intros raw w Hg Hw; cbn [run].
  { split_and!; [done..|]. intros scope. apply Hw. }
  pose proof (demand_nonneg calls) as Hdn. cbn [reserve inMemoryStore]. rewrite mem_reserve_spec. cbn [failNext water].
  destruct (Z.ltb_spec 0 n) as [Hn|Hn]; cbn [negb].
  - destruct (Hw scope) as [Hws Hb]. cbn [demand foldr] in Hb. fold (demand calls) in Hb.
    destruct (web_reserve_good scope n raw Hg Hs Hn) as (raw' & Hr & Hg' & Hh); [lia|]. rewrite Hr, Hws.
    specialize (IH raw' (<[scope := highWater scope raw + n]> w) Hg'). destruct (run calls raw') as [g r'].
    destruct (run calls (mkInMemory _ false)) as [g' s']. destruct IH as (-> & ? & ?); [|done].
    intros sc. rewrite mem_highWater_insert, Hh. destruct (Hw sc) as [E Hb']. cbn [demand foldr] in Hb'. fold (demand calls) in Hb'.
    case_decide; [lia|]. split; [done|lia].
  - cbn [reserve browserEphemeralCounterStore persistentStore]. unfold persistent_reserve.
    rewrite (proj2 (Z.ltb_ge _ _)) by lia. cbn [negb throw]. unfold throw.
    specialize (IH raw w Hg). destruct (run calls raw) as [g r']. destruct (run calls (mkInMemory w false)) as [g' s'].
    apply IH. intros sc. destruct (Hw sc) as [E Hb]. cbn [demand foldr] in Hb. fold (demand calls) in Hb. split; [done|lia].
Qed.
(** A record that does not parse is read as an empty one. *)
Lemma damaged_record_restarts raw scope n : (∀ v, parse raw ≠ Ok v) → 0 < n < 2 ^ 53 →
  (reserve scope n (Some raw)).2 = Ok (mkReservation 0 n).
Proof.
  intros Hp Hn. assert (Hr : read (Some raw) = []).
  { unfold read. destruct raw as [|c raw]; [done|]. destruct (parse (String c raw)) as [v|] eqn:E; [exfalso; by apply (Hp v)|reflexivity]. }
  cbn [reserve browserEphemeralCounterStore persistentStore]. unfold persistent_reserve, mbind, M_bind.
  rewrite (proj2 (Z.ltb_lt _ _)) by lia. cbn [negb persist_reserve webStorageCounterPersistence]. unfold web_reserve.
  rewrite Hr. change (default 0 (get_scope scope [])) with 0. cbv zeta. rewrite Z.add_0_l. unfold isSafeInteger, MAX_SAFE.
  repeat (rewrite (proj2 (Z.leb_le _ _)) by lia). done.
Qed.
End WebCounter.
End WebCounter.

(** ** [viewOnlyAccount.ts] *)
Module ViewOnly.
Import Keys.Keys Address.Account.
Section ViewOnly.
Context `{BabyJubjub} `{Poseidon2}.
Inductive ViewError := View_key (e : KeyErr) | Needs_root | Refuses_json.
Record ViewOnlyAccount := mkViewOnly { viewKey : Z; vo_selfSpend : option Z }.
Definition fromViewKey (viewKey : Z) : ViewOnlyAccount := mkViewOnly viewKey None.
#[local] Notation V := (M ViewOnlyAccount ViewError).
Definition toJSON : V unit := throw Refuses_json.
Definition vo_getViewKey : V Z := a ← get; mret (viewKey a).
Definition of_view {A} (f : Z → result KeyErr A) : V A := a ← get; lift View_key (f (viewKey a)).
Definition vo_pub_of (m : V Z) : V Point := k ← m; mret (publicKey k).
Definition vo_getIncomingKey (index : Z) : V Z := of_view (λ v, deriveIncomingKey v index).
Definition vo_getIncomingPub (index : Z) : V Point := vo_pub_of (vo_getIncomingKey index).
Definition vo_getPublicIncomingKey (index : Z) : V Z := of_view (λ v, derivePublicIncomingKey v index).
Definition vo_getPublicIncomingPub (index : Z) : V Point := vo_pub_of (vo_getPublicIncomingKey index).
Definition vo_getSelfEphemeral (index : Z) : V Z := of_view (λ v, deriveSelfEphemeral v index).
Definition vo_getSelfSpendKey : V Z :=
  a ← get;
  match vo_selfSpend a with
  | Some k => mret k
  | None => k ← of_view deriveSelfSpendKey; _ ← modify (λ a, mkViewOnly (viewKey a) (Some k)); mret k
  end.
Definition vo_getSelfSpendPub : V Point := vo_pub_of vo_getSelfSpendKey.
Definition vo_getStateKey : V Z := throw Needs_root.
Definition vo_canonicalIncomingAddress (start : Z) := of_view (λ v, canonicalIncomingAddress v start).
Definition vo_canonicalSelfTag (start : Z) := of_view (λ v, canonicalSelfTag v start).
Definition vo_canonicalPublicAddress (i : Z) := of_view (λ v, canonicalPublicAddress v i).

(** *** It answers as the account whose view key it has *)
(** A view-only account [o] after some calls, for the account of [root]. *)
Record views (root : Z) (o : ViewOnlyAccount) : Prop := {
  vw_key : deriveViewKey root = Ok (viewKey o);
  vw_spend k : vo_selfSpend o = Some k → deriveSelfSpendKey (viewKey o) = Ok k }.
(** [m] is the pure function [f] of the root secret, whatever was called before. *)
Definition viewed {A} (m : V A) (f : Z → result KeyErr A) : Prop :=
  ∀ root o, views root o → (m o).2 = map_err View_key (f root) ∧ views root (m o).1.
Lemma of_view_viewed {A} (f : Z → result KeyErr A) : viewed (of_view f) (λ root, deriveViewKey root ≫= f).
Proof. intros root o Ho. unfold of_view, get, mbind, M_bind, lift. by rewrite (vw_key _ _ Ho). Qed.
Lemma vo_pub_of_viewed m f : viewed m f → viewed (vo_pub_of m) (λ root, k ← f root; Ok (publicKey k)).
Proof.
  intros Hm root o Ho. destruct (Hm root o Ho) as [E Hv]. unfold vo_pub_of, mbind, M_bind, mret, M_ret.
  destruct (m o) as [o' [k|e]]; cbn [fst snd] in *; destruct (f root); cbn [map_err] in E; simplify_eq; done.
Qed.
Lemma vo_getSelfSpendKey_viewed : viewed vo_getSelfSpendKey (λ root, deriveViewKey root ≫= deriveSelfSpendKey).
Proof.
  intros root o Ho. unfold vo_getSelfSpendKey, of_view, get, mbind, M_bind, lift, modify, mret, M_ret.
  rewrite (vw_key _ _ Ho). cbn [result_bind]. destruct (vo_selfSpend o) as [k|] eqn:E; cbn [fst snd].
  - by rewrite (vw_spend _ _ Ho k E).
  - destruct (deriveSelfSpendKey (viewKey o)) as [k|e] eqn:Ek; cbn [map_err fst snd]; [|done]. split; [done|].
    split; cbn [viewKey vo_selfSpend]; [apply Ho|]. by intros k' [= <-].
Qed.
(** What an account answers its view-only copy answers too, in any order of
    the calls; the copy has no state key. *)
Theorem view_only_agrees a o : cached a → views (skRoot a) o →
  (vo_getViewKey o).2 = map_err View_key (getViewKey a).2 ∧
  (∀ i, (vo_getIncomingPub i o).2 = map_err View_key (getIncomingPub i a).2) ∧
  (∀ i, (vo_getPublicIncomingPub i o).2 = map_err View_key (getPublicIncomingPub i a).2) ∧
  (∀ i, (vo_getSelfEphemeral i o).2 = map_err View_key (getSelfEphemeral i a).2) ∧
  (vo_getSelfSpendKey o).2 = map_err View_key (getSelfSpendKey a).2 ∧
  (vo_getSelfSpendPub o).2 = map_err View_key (getSelfSpendPub a).2 ∧
  (∀ i, (vo_canonicalIncomingAddress i o).2 = map_err View_key (account_canonicalIncomingAddress i a).2) ∧
  (vo_getStateKey o).2 = Err Needs_root.
Proof.
  intros Ha Ho.
  assert (Hag : ∀ A (m : V A) f (m' : M SolanaAccount KeyErr A), viewed m f → pure_of m' f → (m o).2 = map_err View_key (m' a).2).
  { intros A m f m' Hm Hm'. destruct (Hm _ _ Ho) as [-> _]. by destruct (Hm' a Ha) as [-> _]. }
  assert (Hk : ∀ A (f : Z → result KeyErr A), (of_view f o).2 = map_err View_key (with_view f a).2).
  { intros A f. eapply Hag; [apply of_view_viewed|apply with_view_pure]. }
  split_and!; [| | |intros i; apply Hk| | |intros i; apply Hk|done].
  - destruct (getViewKey_pure a Ha) as [-> _]. by rewrite (vw_key _ _ Ho).
  - intros i. eapply Hag; [apply vo_pub_of_viewed, of_view_viewed|apply pub_of_pure, with_view_pure].
  - intros i. eapply Hag; [apply vo_pub_of_viewed, of_view_viewed|apply pub_of_pure, with_view_pure].
  - eapply Hag; [apply vo_getSelfSpendKey_viewed|apply getSelfSpendKey_pure].
  - eapply Hag; [apply vo_pub_of_viewed, vo_getSelfSpendKey_viewed|apply pub_of_pure, getSelfSpendKey_pure].
Qed.
End ViewOnly.
End ViewOnly.

(** ** [scanOnlyRepositories.ts] *)
Module ScanOnly.
Import Keys.Keys KeyRepo Utxo.
Section ScanOnly.
Context `{BabyJubjub} `{Poseidon2} `{DarkAccount}.

Definition SCAN_ROLL : Z := 256.
Record ScanOnlyKeyRepository := mkScanOnly {
  so_selfScanIndex : Z; so_incomingScanIndex : Z; so_highestMatchedSelf : Z; so_highestMatchedIncoming : Z;
  so_selfMap : gmap Z (Z * Z); so_incomingMap : gmap Z (Z * Z) }.
Definition so_fresh : ScanOnlyKeyRepository := mkScanOnly 0 0 (-1) (-1) ∅ ∅.
Inductive ReadOnlyError := Never_mints | Never_issues.
Definition so_nextSelfEphemeral : M ScanOnlyKeyRepository ReadOnlyError unit := throw Never_mints.
Definition so_nextIncomingAddress : M ScanOnlyKeyRepository ReadOnlyError unit := throw Never_issues.

(** [registerSelf(this.#selfScanIndex++)]: past a million indices nothing is
    registered. *)
Definition so_registerSelf (r : ScanOnlyKeyRepository) : ScanOnlyKeyRepository :=
  let index := so_selfScanIndex r in
  mkScanOnly (index + 1) (so_incomingScanIndex r) (so_highestMatchedSelf r) (so_highestMatchedIncoming r)
    (if SCAN_ROLL * 4000 <=? index then so_selfMap r
     else
       let eph := getSelfEphemeral index in
       let ephPub := publicKey eph in
       if negb (isEvenY ephPub) then so_selfMap r
       else match so_selfMap r !! ephPub.1 with
            | Some _ => so_selfMap r | None => <[ephPub.1 := (eph, index)]> (so_selfMap r) end)
    (so_incomingMap r).
Definition so_registerIncoming (r : ScanOnlyKeyRepository) : ScanOnlyKeyRepository :=
  let index := so_incomingScanIndex r in
  let inKey := getIncomingKey index in
  let inPub := publicKey inKey in
  mkScanOnly (so_selfScanIndex r) (index + 1) (so_highestMatchedSelf r) (so_highestMatchedIncoming r) (so_selfMap r)
    (if negb (isEvenY inPub) then so_incomingMap r
     else match so_incomingMap r !! inPub.1 with
          | Some _ => so_incomingMap r | None => <[inPub.1 := (inKey, index)]> (so_incomingMap r) end).
(** [while (scan < target)]: as many rounds as indices are missing. *)
Definition so_ensureSelfLookahead (window : Z) (r : ScanOnlyKeyRepository) : ScanOnlyKeyRepository * bool :=
  let target := Z.max (so_selfScanIndex r) (so_highestMatchedSelf r + 1 + window) in
  (Nat.iter (Z.to_nat (target - so_selfScanIndex r)) so_registerSelf r, so_selfScanIndex r <? target).
Definition so_ensureIncomingLookahead (window : Z) (r : ScanOnlyKeyRepository) : ScanOnlyKeyRepository * bool :=
  let target := Z.max (so_incomingScanIndex r) (so_highestMatchedIncoming r + 1 + window) in
  (Nat.iter (Z.to_nat (target - so_incomingScanIndex r)) so_registerIncoming r, so_incomingScanIndex r <? target).
Definition so_recordIncomingMatch (i : Z) (r : ScanOnlyKeyRepository) : ScanOnlyKeyRepository :=
  mkScanOnly (so_selfScanIndex r) (so_incomingScanIndex r) (so_highestMatchedSelf r)
    (if so_highestMatchedIncoming r <? i then i else so_highestMatchedIncoming r) (so_selfMap r) (so_incomingMap r).
Definition so_matchSelfTag (t : Z) (r : ScanOnlyKeyRepository) : ScanOnlyKeyRepository * result KeyError (option (Z * Z)) :=
  match tagKey t with
  | Err e => (r, Err e)
  | Ok key =>
      match so_selfMap r !! key with
      | Some (eph, i) =>
          (mkScanOnly (so_selfScanIndex r) (so_incomingScanIndex r)
             (if so_highestMatchedSelf r <? i then i else so_highestMatchedSelf r) (so_highestMatchedIncoming r)
             (so_selfMap r) (so_incomingMap r), Ok (Some (eph, i)))
      | None => (r, Ok None)
      end
  end.
Definition so_matchIncomingTag (t : Z) (r : ScanOnlyKeyRepository) : ScanOnlyKeyRepository * result KeyError (option (Z * Z)) :=
  match tagKey t with
  | Err e => (r, Err e)
  | Ok key => match so_incomingMap r !! key with
              | Some (k, i) => (so_recordIncomingMatch i r, Ok (Some (k, i)))
              | None => (r, Ok None) end
  end.
Definition so_getState (r : ScanOnlyKeyRepository) : KeyRepoState :=
  mkState (Some 0) (Some (so_selfScanIndex r)) (Some 0) (Some (so_incomingScanIndex r))
    (Some (so_highestMatchedSelf r)) (Some (so_highestMatchedIncoming r)).

(** Its repository of notes. *)
Definition so_addNote (note : WalletNote) (r : UtxoRepository) : UtxoRepository :=
  let key := nullifier note in
  match map_get key r with
  | Some existing => map_set key (with_spent (spent existing || spent note) note) r
  | None => map_set key note r
  end.
Definition so_markSpent (key : Z) (r : UtxoRepository) : UtxoRepository * bool :=
  match map_get key r with
  | Some note => if negb (spent note) then (map_set key (with_spent true note) r, true) else (r, false)
  | None => (r, false)
  end.
Definition so_getAllNotes (r : UtxoRepository) : list WalletNote := r.*2.
Definition so_getUnspentNotes (r : UtxoRepository) : list WalletNote := filter (λ n, spent n = false) (so_getAllNotes r).
Definition so_getBalance (want : option Z) (r : UtxoRepository) : Z :=
  foldl (λ total n,
    match want with
    | Some a => if negb (assetId n =? a) then total else total + value n
    | None => total + value n end) 0 (so_getUnspentNotes r).

(** *** What a scan asks of a repository of keys, and what it hears *)
Inductive Ask := EnsureSelf (window : Z) | EnsureIncoming (window : Z) | MatchSelf (t : Z) | MatchIncoming (t : Z) | RecordMatch (i : Z) | State.
Inductive Answer := Extended (b : bool) | Matched (r : result KeyError (option (Z * Z))) | Done | Is (st : KeyRepoState).
Definition hear {R A} (f : A → Answer) (x : R * A) : R * Answer := (x.1, f x.2).
Definition ask (a : Ask) (r : KeyRepository) : KeyRepository * Answer :=
  match a with
  | EnsureSelf w => hear Extended (ensureSelfLookahead w r)
  | EnsureIncoming w => hear Extended (ensureIncomingLookahead w r)
  | MatchSelf t => hear Matched (matchSelfTag t r)
  | MatchIncoming t => hear Matched (matchIncomingTag t r)
  | RecordMatch i => (recordIncomingMatch i r, Done)
  | State => (r, Is (getState r))
  end.
Definition so_ask (a : Ask) (r : ScanOnlyKeyRepository) : ScanOnlyKeyRepository * Answer :=
  match a with
  | EnsureSelf w => hear Extended (so_ensureSelfLookahead w r)
  | EnsureIncoming w => hear Extended (so_ensureIncomingLookahead w r)
  | MatchSelf t => hear Matched (so_matchSelfTag t r)
  | MatchIncoming t => hear Matched (so_matchIncomingTag t r)
  | RecordMatch i => (so_recordIncomingMatch i r, Done)
  | State => (r, Is (so_getState r))
  end.
Fixpoint heard {R} (ask : Ask → R → R * Answer) (asks : list Ask) (r : R) : list Answer * R :=
  match asks with
  | [] => ([], r)
  | a :: asks => let '(r, x) := ask a r in let '(xs, r) := heard ask asks r in (x :: xs, r)
  end.

(** The wallet's repository that has issued nothing. *)
Definition unissued (r : ScanOnlyKeyRepository) : KeyRepository :=
  mkRepo 0 (so_selfScanIndex r) 0 (so_incomingScanIndex r) (so_highestMatchedSelf r) (so_highestMatchedIncoming r)
    (so_selfMap r) (so_incomingMap r).
Lemma registerIncoming_unissued n r : unissued (Nat.iter n so_registerIncoming r) = Nat.iter n registerIncoming (unissued r).
Proof. induction n as [|n IH]; [done|]. by rewrite !Nat.iter_succ, <- IH. Qed.
Lemma registerSelf_index n r : so_selfScanIndex (Nat.iter n so_registerSelf r) = so_selfScanIndex r + Z.of_nat n.
Proof. induction n as [|n IH]; [cbn; lia|]. rewrite Nat.iter_succ. cbn [so_registerSelf so_selfScanIndex]. rewrite IH. lia. Qed.
Lemma registerSelf_unissued n r : so_selfScanIndex r + Z.of_nat n <= SCAN_ROLL * 4000 →
  unissued (Nat.iter n so_registerSelf r) = Nat.iter n registerSelf (unissued r).
Proof.
  induction n as [|n IH]; intros Hb; [done|]. rewrite !Nat.iter_succ, <- IH by lia. pose proof (registerSelf_index n r) as Hi.
  generalize dependent (Nat.iter n so_registerSelf r). intros x _ Hi. unfold so_registerSelf, registerSelf, unissued. cbn [selfScanIndex so_selfScanIndex].
  rewrite (proj2 (Z.leb_gt _ _)) by lia. done.
Qed.
Lemma so_ask_index a r : so_selfScanIndex r <= so_selfScanIndex (so_ask a r).1.
Proof.
  assert (Hi : ∀ n r, so_selfScanIndex (Nat.iter n so_registerIncoming r) = so_selfScanIndex r).
  { intros n r'. induction n as [|n IH]; [done|]. by rewrite Nat.iter_succ. }
  destruct a; cbn [so_ask hear fst].
  - unfold so_ensureSelfLookahead. cbn [fst]. rewrite registerSelf_index. lia.
  - unfold so_ensureIncomingLookahead. cbn [fst]. by rewrite Hi.
  - unfold so_matchSelfTag. destruct (tagKey t); [|done]. by destruct (_ !! _) as [[]|].
  - unfold so_matchIncomingTag. destruct (tagKey t); [|done]. by destruct (_ !! _) as [[]|].
  - done.
  - done.
Qed.
Lemma heard_index asks r : so_selfScanIndex r <= so_selfScanIndex (heard so_ask asks r).2.
Proof.
  revert r. induction asks as [|a asks IH]; intros r; cbn [heard]; [done|]. pose proof (so_ask_index a r) as Ha.
  destruct (so_ask a r) as [r1 x]. specialize (IH r1). destruct (heard so_ask asks r1). cbn [fst snd] in *. lia.
Qed.
Lemma so_ask_unissued a r : so_selfScanIndex (so_ask a r).1 <= SCAN_ROLL * 4000 →
  ask a (unissued r) = (unissued (so_ask a r).1, (so_ask a r).2).
Proof.
  destruct a; cbn [so_ask ask]; unfold hear; intros Hb.
  - unfold ensureSelfLookahead, so_ensureSelfLookahead, register_self_to in *. cbn [fst snd] in *. rewrite registerSelf_index in Hb.
    rewrite registerSelf_unissued; [done|lia].
  - unfold ensureIncomingLookahead, so_ensureIncomingLookahead, register_incoming_to. cbn [fst snd]. by rewrite registerIncoming_unissued.
  - unfold matchSelfTag, so_matchSelfTag. destruct (tagKey t); [|done]. cbn [unissued selfMap]. by destruct (_ !! _) as [[]|].
  - unfold matchIncomingTag, so_matchIncomingTag. destruct (tagKey t); [|done]. cbn [unissued incomingMap]. by destruct (_ !! _) as [[]|].
  - done.
  - done.
Qed.
(** C37. The read-only repository is the wallet's.  Whatever a scan asks of it
    (windows, matches, records, its state), it hears what a wallet's repository
    that has issued nothing would answer, so the two scans find the same notes;
    this holds as long as the scan stays within the million indices that the
    read-only one registers. *)
Theorem scan_only_refines asks r xs r' : heard so_ask asks r = (xs, r') → so_selfScanIndex r' <= SCAN_ROLL * 4000 →
  heard ask asks (unissued r) = (xs, unissued r').
Proof.
  revert r xs r'. induction asks as [|a asks IH]; intros r xs r'; cbn [heard]; [by intros [= <- <-]|].
  pose proof (so_ask_unissued a r) as Ha. destruct (so_ask a r) as [r1 x]. destruct (heard so_ask asks r1) as [xs1 r2] eqn:E.
  intros [= <- <-] Hb. pose proof (heard_index asks r1) as Hi. rewrite E in Hi. cbn [fst snd] in *. rewrite Ha by lia.
  by rewrite (IH _ _ _ E Hb).
Qed.
(** The notes are kept in the same way. *)
Lemma scan_only_notes r : (∀ n, so_addNote n r = addNote n r) ∧ (∀ k, so_markSpent k r = markSpent k r) ∧
  so_getUnspentNotes r = getUnspentNotes r ∧ ∀ want, so_getBalance want r = getBalance want r.
Proof. done. Qed.
End ScanOnly.
End ScanOnly.

(** ** [claimFlows.ts] *)
Module Claim.
Import Trace.Note Circuit Processor KeyRepo Engine Client.
Section Claim.
Context `{BabyJubjub} `{Poseidon2} `{PoseidonV1} `{DarkAccount}.

Inductive ClaimError :=
  | Witness_failed (e : option Witness.WitnessSourceError) | Placed_at (source scanner : Z) | Key_failed (e : KeyError)
  | Parents_failed (e : NoteError) | Mint_failed (e : Mint.MintError) | Wrong_asset.
Definition claim_is_transient (e : Witness.WitnessSourceError) : bool :=
  match e with Witness.WitnessError Witness.ROOT_MISMATCH => true | _ => false end.
(** [witnessFor i]: the source's answer at the attempt [i]. *)
Fixpoint witness_retry {A} (attempts i : nat) (witnessFor : nat → result Witness.WitnessSourceError A)
    (lastErr : option Witness.WitnessSourceError) : result (option Witness.WitnessSourceError) A :=
  match attempts with
  | O => Err lastErr
  | Datatypes.S attempts =>
      match witnessFor i with
      | Ok a => Ok a
      | Err e => if claim_is_transient e then witness_retry attempts (Datatypes.S i) witnessFor (Some e) else Err (Some e)
      end
  end.

(** A note of the repository is one of the processor, without the fields of its
    note that a scan does not look at again ([Engine.stored]). *)
Definition findClaimableNotes (getSelfSpendScalar : Z) (ring : list ComplianceKeyEpoch)
    (fetchNotes : Z → option (list IndexerNoteInserted)) (fromLeaf toLeaf : Z) :
    result ScanError (list Utxo.WalletNote * KeyRepository) :=
  let '(s, r) := sync getSelfSpendScalar ring fetchNotes DEFAULT_LOOKAHEAD_WINDOW 0 (mkEngine fresh 0 [] None) in
  _ ← r;
  Ok (js_sort (λ a b, Utxo.leafIndex a - Utxo.leafIndex b)
        (List.filter (λ n, (fromLeaf <=? Utxo.leafIndex n) && (Utxo.leafIndex n <? toLeaf)) (Utxo.getUnspentNotes (utxos s))),
      keys s).

Section withdraw.
Context {S : Type} `{State.EphemeralCounterStore S}.
(** The inputs of the proof and the amount.  The state is the key repository
    over its counter store. *)
Definition assembleWithdrawInputs (witnessFor : nat → Z → result Witness.WitnessSourceError Witness.MerkleWitness)
    (getSelfSpendKey : Z) (note : WalletNote) (compliancePk : Point) (recipientField32 : list Z) :
    M (KeyRepository * S) ClaimError (WithdrawMap * Z) :=
  w ← lift Witness_failed (witness_retry 5 0 (λ i, witnessFor i (w_commitment note)) None);
  if negb (Witness.leafIndex w =? w_leafIndex note) then throw (Placed_at (Witness.leafIndex w) (w_leafIndex note))
  else
    let amount := value (w_note note) in
    '(change, _) ← embed Key_failed nextSelfEphemeral;
    let changeEph := eph change in
    par ← lift Parents_failed (packParents (Witness.leafIndex w) 0);
    minted ← lift Mint_failed (Mint.mintSelfNote changeEph 0 getSelfSpendKey (assetId (w_note note)) compliancePk par);
    mret (mkWithdrawMap amount (Flows.bytesToBigIntBE recipientField32) 0 compliancePk (w_note note) (w_spendScalar note)
            (Witness.leafIndex w) (Witness.siblings w) (Mint.m_note minted) changeEph, amount).
(** Up to the proof. *)
Definition withdrawClaimedNote (witnessFor : nat → Z → result Witness.WitnessSourceError Witness.MerkleWitness)
    (getSelfSpendKey : Z) (note : WalletNote) (compliancePk : Point) (assetIdBytes recipientField32 : list Z) :
    M (KeyRepository * S) ClaimError (WithdrawMap * Z) :=
  if negb (Flows.bytesToBigIntBE assetIdBytes =? assetId (w_note note)) then throw Wrong_asset
  else assembleWithdrawInputs witnessFor getSelfSpendKey note compliancePk recipientField32.
End withdraw.

(** *** Every note that was ever received is offered *)
(** Whatever an operation of the engine answers, it marks no note as spent. *)
Definition all_unspent (us : Utxo.UtxoRepository) : Prop := Forall (λ n, Utxo.spent n = false) (Utxo.getAllNotes us).
Definition keeps {A} (m : M Engine.State ScanError A) : Prop := ∀ s, all_unspent (utxos s) → all_unspent (utxos (m s).1).
Lemma keeps_bind {A B} (m : M Engine.State ScanError A) (f : A → M Engine.State ScanError B) :
  keeps m → (∀ a, keeps (f a)) → keeps (m ≫= f).
Proof.
  intros Hm Hf s Hs. unfold mbind, M_bind. specialize (Hm s Hs). destruct (m s) as [s1 [a|e]]; [by apply Hf|done].
Qed.
Lemma keeps_lift {E A} (f : E → ScanError) (r : result E A) : keeps (lift f r).
Proof. by intros s. Qed.
Lemma keeps_lookahead ensure : keeps (lookahead ensure).
Proof. intros s Hs. unfold lookahead. by destruct (ensure (keys s)). Qed.
Lemma keeps_grow n : keeps (grow n).
Proof.
  intros s Hs. unfold grow. destruct (merkleTree s); [|done]. destruct (_ =? _); [|done]. by destruct (_ ≫= _) as [[]|].
Qed.
Lemma addNote_unspent n us : Utxo.spent n = false → all_unspent us → all_unspent (Utxo.addNote n us).
Proof.
  intros Hn Hu.
  assert (Hset : ∀ k v m, Utxo.spent v = false → all_unspent m → all_unspent (Utxo.map_set k v m)).
  { intros k v m Hv. unfold all_unspent, Utxo.getAllNotes. induction m as [|[k' n'] m IH]; cbn [Utxo.map_set].
    - intros _. by repeat constructor.
    - rewrite fmap_cons, Forall_cons. intros [? ?]. destruct (k' =? k); rewrite fmap_cons, Forall_cons; auto. }
  assert (Hget : ∀ k m o, all_unspent m → Utxo.map_get k m = Some o → Utxo.spent o = false).
  { intros k m o. unfold all_unspent, Utxo.getAllNotes. induction m as [|[k' n'] m IH]; cbn [Utxo.map_get]; [done|].
    rewrite fmap_cons, Forall_cons. intros [? ?]. destruct (k' =? k); [by intros [= <-]|auto]. }
  unfold Utxo.addNote. destruct (Utxo.map_get _ us) as [o|] eqn:E; [|by apply Hset].
  apply Hset; [|done]. cbn [Utxo.spent Utxo.with_spent]. by rewrite (Hget _ _ _ Hu E), Hn.
Qed.
Lemma keeps_receive k ring event : keeps (receive k ring event).
Proof.
  intros s Hs. destruct (receive_eq k ring event s) as [u ->]. cbn [fst utxos]. unfold collect.
  destruct (outcome k ring (keys s) event) as [w|] eqn:Eo; [|done]. destruct (outcome_sound _ _ _ _ _ Eo) as ([] & _).
  by apply addNote_unspent.
Qed.
Lemma keeps_sync k ring fetch window from : keeps (sync k ring fetch window from).
Proof.
  assert (Hscan : ∀ notes, keeps (scanOnce k ring notes)).
  { intros notes. induction notes as [|n notes IH]; cbn [scanOnce]; [by intros s|].
    apply keeps_bind; [apply keeps_grow|]. intros _. apply keeps_bind; [apply keeps_lift|]. intros event.
    apply keeps_bind; [apply keeps_receive|]. intros _. apply IH. }
  assert (Hpass : ∀ n notes w, keeps (passes_loop k ring n notes w)).
  { intros n notes w. induction n as [|n IH]; cbn [passes_loop]; [by intros s|].
    apply keeps_bind; [apply Hscan|]. intros _. apply keeps_bind; [apply keeps_lookahead|]. intros e1.
    apply keeps_bind; [apply keeps_lookahead|]. intros e2. destruct (negb e1 && negb e2); [by intros s|apply IH]. }
  unfold sync, scanPasses. apply keeps_bind; [apply keeps_lookahead|]. intros _.
  apply keeps_bind; [apply keeps_lookahead|]. intros _. destruct (fetch from); [apply Hpass|by intros s].
Qed.
(** The claimable notes are all the notes of the range that the scan found, in
    the order of their leaves: nothing marks a note that was withdrawn. *)
Theorem claimable_all k ring fetch from to notes keys' : findClaimableNotes k ring fetch from to = Ok (notes, keys') →
  let s := (sync k ring fetch DEFAULT_LOOKAHEAD_WINDOW 0 (mkEngine fresh 0 [] None)).1 in
  StronglySorted (λ a b, Utxo.leafIndex a <= Utxo.leafIndex b) notes ∧
  ∀ n, n ∈ notes ↔ n ∈ Utxo.getAllNotes (utxos s) ∧ from <= Utxo.leafIndex n < to.
Proof.
  unfold findClaimableNotes. pose proof (keeps_sync k ring fetch DEFAULT_LOOKAHEAD_WINDOW 0 (mkEngine fresh 0 [] None) (Forall_nil_2 _)) as Hu.
  destruct (sync _ _ _ _ _ _) as [s [[]|]]; [|done]. cbn [fst mbind result_bind] in *. intros [= <- _]. cbv zeta. split.
  - eapply StronglySorted_mono; [|apply js_sort_sorted; cbn; lia]. cbn. lia.
  - intros n. rewrite js_sort_perm, list_elem_of_In, filter_In, <- list_elem_of_In, andb_true_iff, Z.leb_le, Z.ltb_lt.
    unfold Utxo.getUnspentNotes. rewrite list_elem_of_filter. unfold all_unspent, Utxo.getAllNotes in *. rewrite Forall_forall in Hu. naive_solver.
Qed.

(** *** What is assembled proves *)
Section proves.
Context {S : Type} `{State.EphemeralCounterStore S} {CL : State.CounterLaws S}.
Context {L : BabyJubjubLaws} {PF : Poseidon2Field} (Hv1 : ∀ xs, in_field (poseidon_v1 xs)).
Context (Heph : ∀ i, 0 <= getSelfEphemeral i < subOrder ∧ getSelfEphemeral i < Kem.BJJ_SUBGROUP_ORDER).
Context (witnessFor : nat → Z → result Witness.WitnessSourceError Witness.MerkleWitness)
  (Hsource : ∀ i, Assemble.witness_verified (witnessFor i)).

Lemma witness_retry_Ok {A} n i (f : nat → result Witness.WitnessSourceError A) last a : witness_retry n i f last = Ok a →
  ∃ k, f k = Ok a.
Proof.
  revert i last. induction n as [|n IH]; intros i last; cbn [witness_retry]; [done|].
  destruct (f i) as [b|e] eqn:E; [intros [= <-]; by exists i|]. destruct (claim_is_transient e); [apply IH|done].
Qed.
Lemma next_even w w' c o : nextSelfEphemeral w = (w', Ok (c, o)) →
  Assemble.even_key (eph c) ∧ eph c = getSelfEphemeral (index c) ∧
  State.highWater SELF_EPH_SCOPE w.2 <= index c < State.highWater SELF_EPH_SCOPE w'.2.
Proof.
  intros Hrun. destruct (self_loop_spec _ _ _ _ Hrun) as [_ Hs]. destruct (Hs c o eq_refl) as [(He & Hp & _ & Hev) Hi].
  rewrite Hp in Hev. split_and!; [|done|apply Hi|apply Hi]. split; [|done].
  destruct (Heph (index c)) as [Hb Hb']. rewrite <- He in *. pose proof (Multisig.GroupView.even_nonzero _ Hb Hev). split; [lia|done].
Qed.
(** C16. A claim proves.  For a note that the scan opened, with a verified
    source and a recipient account, whatever the page assembles is accepted by the
    withdraw circuit, which publishes the note's nullifier and asset and a root
    that the source gave; it withdraws the whole note, leaves a change of no value
    to the wallet, and takes the change's ephemeral from an index that the durable
    counter had not handed out. *)
Theorem claim_withdraw_proves self note cpk recipient32 s s' m amount :
  genuine note → noteVersion (w_note note) = NOTE_VERSION → Kem.valid_scalar (w_spendScalar note) →
  Flows.bytesToBigIntBE recipient32 ≠ 0 → Keys.Keys.pubkeyOwner (Keys.Keys.publicKey self) ≠ 0 →
  assembleWithdrawInputs witnessFor self note cpk recipient32 s = (s', Ok (m, amount)) →
  ∃ o, Circuit.withdraw m = Some o ∧ amount = value (w_note note) ∧ w_value m = amount ∧
    wo_nullifier o = w_nullifier note ∧ wo_asset o = assetId (w_note note) ∧
    (∃ k w, witnessFor k (w_commitment note) = Ok w ∧ wo_root o = Witness.root w) ∧
    value (w_change_note m) = 0 ∧ owner (w_change_note m) = Keys.Keys.pubkeyOwner (Keys.Keys.publicKey self) ∧
    ∃ i, w_change_eph m = getSelfEphemeral i ∧
      State.highWater SELF_EPH_SCOPE s.2 <= i < State.highWater SELF_EPH_SCOPE s'.2.
Proof.
  intros [Hleaf Hty Ha [Ho _] Hnull _] Hver Hk Hrec Hself Hrun. unfold assembleWithdrawInputs in Hrun.
  apply M_bind_Ok in Hrun as (? & w & [-> [k Hw]%witness_retry_Ok]%lift_Ok & Hrun).
  destruct (Z.eqb_spec (Witness.leafIndex w) (w_leafIndex note)) as [Ei|]; [|done]. cbn [negb] in Hrun.
  apply M_bind_Ok in Hrun as (s1 & [c o] & Hc%ProposalSpec.embed_Ok & Hrun).
  apply M_bind_Ok in Hrun as (? & par & [-> Hpar]%lift_Ok & Hrun).
  apply M_bind_Ok in Hrun as (? & minted & [-> Hm]%lift_Ok & Hrun). injection Hrun as <- <- <-.
  destruct (Hsource _ _ _ Hw) as (Hlen & Hfield & Hfold). destruct (next_even _ _ _ _ Hc) as ([Hce Hcev] & Hidx & Hhw).
  destruct (parents_spec _ _ Hpar) as [Hi Hbound]. destruct (leaf_spec _ _ Hleaf) as [Hl Hold].
  assert (Hlf : in_field (w_commitment note)) by (rewrite <- Hl; apply poseidon2_field).
  assert (Hsp : spendable (w_note note) (w_spendScalar note)) by by split.
  pose proof (verify_spend_spec _ _ _ _ _ _ Hv1 Hsp Hleaf Hlf Hfield Hi Hfold) as Hverify.
  destruct (mint_self_spec _ _ _ _ _ _ _ Hm Hce Hcev Hself Ha) as (Hcpk & Hcin & ct & _ & Hcc & _).
  pose proof (Mint.finish_Ok _ _ _ _ _ _ _ _ Hm) as (_ & _ & En & _).
  pose proof (proj1 (note_input_Some _ _) Hold) as Hv.
  unfold Circuit.withdraw. cbn [w_value w_old_note w_change_note w_old_path w_compliance w_recipient w_intent_hash w_spend_scalar w_old_index w_change_eph].
  rewrite Hold, Hcin, (Assemble.path_ok _ Hlen), Hcpk, (proj2 (Z.leb_le _ _)), (proj2 (Z.ltb_lt _ _)), (proj2 (Z.eqb_neq _ _) Hrec) by lia.
  cbn [andb negb assert mbind option_bind]. rewrite Hverify, Hcc.
  rewrite (Hbound (Mint.m_note minted)) by by rewrite En. 
  assert (Hcons : assert_conserved [value (w_note note)] [value (Mint.m_note minted)] (value (w_note note)) = Some tt).
  { rewrite En. cbn [value]. unfold assert_conserved, total, add_u128.
    do 2 (rewrite (proj2 (Z.ltb_lt _ _)) by lia; cbn [mbind option_bind]). apply assert_true, Z.eqb_eq. lia. }
  rewrite Hcons. eexists. split; [rewrite En; cbn [assetId]; rewrite Z.eqb_refl; reflexivity|]. cbn. rewrite Ei, <- Hnull.
  split_and!; try done; [by exists k, w|by rewrite En|by rewrite En|by exists (index c)].
Qed.
End proves.
End Claim.
End Claim.

(** ** Witnesses *)
Module ClaimWitness.
Import EvenCurve MintWitness Trace.Note Circuit Processor KeyRepo State.Counter WebCounter ScanOnly Claim.
#[local] Existing Instance AssembleWitness.sum_v1.
#[local] Existing Instance ToyText.toy_text.
#[local] Existing Instance ToyText.toy_text_laws.

Definition toy_calls : list Call := [Reserve "self" 1; Reserve "self" 3; Reserve "deposit" 2; Reserve "self" 0; Reserve "self" 1].
Definition toy_record : Item := Some (stringify (snapshot_json [("self", 4)])).
Lemma web_store_refines_memory_witness : (run toy_calls toy_record).1 =
  [("self", mkReservation 4 1); ("self", mkReservation 5 3); ("deposit", mkReservation 0 2); ("self", mkReservation 8 1)].
Proof.
  assert (Hread : read toy_record = [("self", 4)]) by (vm_compute; reflexivity).
  assert (Hhw : ∀ scope, mem_highWater scope (mkInMemory {["self" := 4]} false) = highWater scope toy_record ∧
    highWater scope toy_record + demand toy_calls < 2 ^ 53).
  { intros scope. cbn [highWater browserEphemeralCounterStore persistentStore]. unfold persistent_highWater, mem_highWater.
    cbn [persist_read webStorageCounterPersistence water]. rewrite Hread, list_to_map_cons, list_to_map_nil, insert_empty.
    split; [done|]. change (demand toy_calls) with 7.
    destruct (decide (scope = "self")) as [->|]; [by rewrite lookup_singleton_eq|]. by rewrite lookup_singleton_ne. }
  pose proof (web_store_refines_memory ltac:(by vm_compute) toy_calls toy_record {["self" := 4]}
    ltac:(split; rewrite Hread; [by apply NoDup_singleton|by repeat constructor|by repeat constructor]) ltac:(by repeat constructor) Hhw) as Hr.
  destruct (run toy_calls toy_record) as [granted raw']. destruct (run toy_calls (mkInMemory _ false)) as [granted' s'] eqn:E.
  destruct Hr as [-> _]. cbn [fst]. vm_compute in E. by injection E as <- _.
Defined.

#[local] Instance toy_account : DarkAccount := {|
  getSelfEphemeral i := i mod 12 + 1; getIncomingKey i := i mod 12 + 1; getSelfSpendPub := Keys.Keys.publicKey 4 |}.
Lemma toy_scalars i : 0 <= getSelfEphemeral i < subOrder ∧ getSelfEphemeral i < Kem.BJJ_SUBGROUP_ORDER.
Proof.
  assert (subOrder = 13) as -> by reflexivity. assert (13 < Kem.BJJ_SUBGROUP_ORDER) by reflexivity.
  cbn [getSelfEphemeral toy_account]. pose proof (Z.mod_pos_bound i 12). lia.
Qed.
Definition toy_asks : list Ask := [EnsureSelf 3; EnsureIncoming 2; MatchSelf 2; EnsureSelf 3; MatchIncoming 1; RecordMatch 4; EnsureIncoming 2; State].
Lemma scan_only_refines_witness : (heard ask toy_asks fresh).1 = (heard so_ask toy_asks so_fresh).1 ∧
  last (heard so_ask toy_asks so_fresh).1 = Some (Is (mkState (Some 0) (Some 5) (Some 0) (Some 7) (Some 1) (Some 4))).
Proof.
  destruct (heard so_ask toy_asks so_fresh) as [xs r'] eqn:E. change fresh with (unissued so_fresh).
  rewrite (scan_only_refines toy_asks so_fresh xs r' E).
  - split; [reflexivity|]. vm_compute in E. injection E as <- _. vm_compute. reflexivity.
  - vm_compute in E. injection E as _ <-. vm_compute. discriminate.
Defined.

Definition paid_note : Note := mkNote 1 9 0 0 100 (Keys.Keys.pubkeyOwner (Keys.Keys.publicKey 4)) 3 0.
Definition paid_leaf : Z := match leaf paid_note with Ok c => c | Err _ => 0 end.
Definition toy_paid : WalletNote := mkFound paid_note paid_leaf 2 (computeNullifier 3 2) 4 true 0 false.
Definition toy_claimed := assembleWithdrawInputs (λ _, TreasuryWitness.leaf_at 2) 6 toy_paid (Keys.Keys.publicKey 3) [0; 77] (fresh, mkInMemory ∅ false).
Lemma claim_withdraw_proves_witness : ∃ s' m o, toy_claimed = (s', Ok (m, 100)) ∧ Circuit.withdraw m = Some o ∧
  wo_nullifier o = computeNullifier 3 2 ∧ value (w_change_note m) = 0.
Proof.
  destruct toy_claimed as [s' [[m amount]|e]] eqn:E; [|vm_compute in E; discriminate E].
  destruct (claim_withdraw_proves AssembleWitness.sum_v1_field
    toy_scalars (λ _, TreasuryWitness.leaf_at 2) (λ _, TreasuryWitness.leaf_at_verified 2) 6 toy_paid (Keys.Keys.publicKey 3) [0; 77]
    (fresh, mkInMemory ∅ false) s' m amount) as (o & Ho & Ha & _ & Hn & _ & _ & Hv & _).
  - split; [vm_compute; reflexivity|reflexivity|reflexivity|split; [reflexivity|vm_compute; discriminate]|reflexivity|reflexivity].
  - reflexivity.
  - by apply valid_small.
  - vm_compute. discriminate.
  - vm_compute. discriminate.
  - exact E.
  - exists s', m, o. split; [by rewrite Ha|]. split; [exact Ho|]. split; [exact Hn|exact Hv].
Defined.
End ClaimWitness.
